(* ===== verification/_CoqProject ===== *)
-Q . S2P
Prelude.v
RteRing.v
Bytes.v
Checksum.v
Mbuf.v
Memory.v
Pcap.v
Spsc.v
SpscCorrect.v
SpscBlocks.v
SpscTheorems.v
WeakMem.v
SpscWeak.v
SpscWeakInv.v
SpscWeakConsumer.v
SpscWeakProducer.v
SpscWeakTheorems.v
Effects.v
Native.v
IgbUio.v
Virt2phys.v
NetUio.v
Device.v
SyncClocks.v
Barrier.v
Ice.v
Sharing.v
Filter.v
Launch.v
Nic.v
Mpmc.v
FreeList.v
BlockIndex.v
Storage.v
Destroy.v
SubQueues.v
BlockPool.v
ProducerHash.v
Queue.v
Ring.v
PktSizedRing.v
ByteSizedRing.v
