(* ===== verification/Prelude.v ===== *)
(** * libmoon: a verification library for the native core

    libmoon runs Lua scripts that generate and receive packets.  The scripts are
    the policy; the mechanism is native code: queues between tasks, packet rings,
    packet buffers, checksums, pcap files, devices, clocks, locks, and the kernel
    drivers that hand devices and memory to user space.  This library models that
    native code and proves what its callers rely on.

    ** How to read it

    A definition has the name of the C or C++ entity it models and keeps its
    order of tests, early returns and calls.  Integers are [Z] with the reduction
    to the C type written out where it happens ([u8], [u16], [u32], [u64], [i32],
    [i64] below).  A function that can run into undefined behaviour (an array
    index or an address out of range, a null pointer) or that aborts returns an
    [option].  Code outside the repository (DPDK, the kernels, Lua, the hardware)
    is never given a definition: its functions and constants are the fields of a
    class with the laws its documentation states, or calls of the monad of
    Effects.v, whose answers the theorems quantify over.  Each class that has
    laws has an instance, and the theorems with hypotheses have witnesses on it.

    ** The files

    - Prelude.v: machine integers, arithmetic automation, lists, names.
    - Effects.v: the monad for programs that call an environment, with accounts
      ([balance], [held_of]) of what the calls acquire and release.
    - Bytes.v: byte buffers, little-endian loads and stores with bounds.
    - Queue.v: the interface of libmoon's queues ([SizedQueue], [FifoQueue]) and
      conservation over whole runs, proved from the interface alone.

    Queues and rings:
    - Spsc.v, SpscCorrect.v, SpscBlocks.v, SpscTheorems.v:
      lib/spsc-queue/readerwriterqueue.h with the [pipe_spsc_] functions of
      pipe.cpp.  One machine step per access to a shared variable, the two threads
      interleaved arbitrarily.  Theorems: refinement of a sequential FIFO queue, the
      results of the consumer, wait-freedom with explicit step bounds, the circle of
      blocks that the constructor makes, counting, the freeing of every block.
    - WeakMem.v: the fences and the relaxed variables of atomicops.h, on a memory
      that keeps all messages and where a load may return an old one; races,
      accesses outside the blocks and uninitialised loads are undefined.  Theorem:
      a release fence and an acquire fence around a store and the load of its value
      order all that was done before the one and is done after the other.
    - SpscWeak.v: [enqueue], [try_enqueue] and [try_dequeue] of the same queue on
      that memory, access by access, with the fences of the source.
      SpscWeakInv.v, SpscWeakConsumer.v, SpscWeakProducer.v: the invariant and the
      steps of each thread.  SpscWeakTheorems.v: nothing is undefined, first in
      first out, the number of accesses of every call, and what a consumer that has synchronised with the
      producer finds; [stale_outcome] is an execution that Spsc.v does not have.
    - Mpmc.v: lib/concurrentqueue/concurrentqueue.h with the [pipe_mpmc_]
      functions of pipe.cpp that take and count.  One machine step per access to
      a counter, one producer and any number of consumers interleaved
      arbitrarily.  Theorems: each element is taken once, as it was enqueued;
      taking from several sub-queues.
    - FreeList.v: the lock-free list of that queue's free blocks, with its
      reference counts, any number of threads interleaved arbitrarily.  Theorems:
      no node is handed out twice, none is lost, a thread alone has a stack.
    - BlockIndex.v, Storage.v: where a sub-queue of that queue keeps its elements:
      the growing ring of entries that leads from an index to a block, and the
      blocks.  One machine step per access to shared memory.  Theorems: the
      blocks and the index refine Mpmc.v, whose elements are an abstract map; no
      step goes wrong; every block comes back to the free list.
    - Destroy.v: the destructor of a sub-queue.  SubQueues.v: all sub-queues on one
      memory and one free list, each step one of Storage.v.  Theorems: each behaves
      as if it were alone, no block has two users, the destructors leave nothing
      behind.
    - BlockPool.v: the array of initial blocks, the requisition of blocks, and the
      life of a queue from [pipe_mpmc_new] to [pipe_mpmc_delete].  Theorems: what the
      constructor asks for and makes of it for every capacity; in every interleaving
      all can go on; [pipe_mpmc_try_enqueue] allocates no block; the end frees all
      that was allocated, once.
    - ProducerHash.v: how a thread of that queue finds its sub-queue: the hash
      table with linear probing and resizing while others probe, and the list of
      sub-queues.  Any number of threads, one machine step per access to shared
      memory.  Theorems: every thread has one sub-queue of its own and finds it
      again; probing ends within a number of steps given by the size of the table; no
      step goes wrong.
    - RteRing.v, Ring.v: DPDK's ring as an interface, ring.c on top of it.
    - PktSizedRing.v, ByteSizedRing.v: pktsizedring.cpp and bytesizedring.cpp as
      instances of Queue.v, with their capacities and byte accounting.

    Packets:
    - Mbuf.v, Memory.v: memory.c, including the unrolled allocation loop.
    - Checksum.v: util.c against the one's complement sums of RFC 768 and 8200, for
      headers without options and extension headers, which util.c does not handle.
    - Pcap.v: pcap.cpp, writing and reading back.

    Devices:
    - Device.v: device.c and lifecycle.cpp.  SyncClocks.v: timestamping.c.
    - Ice.v: tx_scheduler_ice.c and ice.c.  Nic.v: i40e.c, timestamping_i40e.c,
      timestamping_igb.c, timestamping_ixgbe.c.  Filter.v: filter.c.

    - Native.v: huge pages, the time stamp counter (rdtsc.h, util.c), the time
      stamp field of packets, and the exports of inline functions of DPDK.

    Tasks:
    - Barrier.v: barrier.cpp, all interleavings and spurious wake-ups.
    - Sharing.v: lock.cpp, namespaces.cpp, task-results.cpp.
    - Launch.v: main.cpp and task.cpp.

    Kernel drivers (deps/dpdk-kmods):
    - IgbUio.v: linux/igb_uio.  NetUio.v: windows/netuio.
    - Virt2phys.v: windows/virt2phys, with concurrent requests.

    Mpmc.v, Storage.v, SubQueues.v and BlockPool.v are layers: a step of each is a
    step of the one before, and its theorems are proved of the runs of that one.
    Ring.v, PktSizedRing.v and ByteSizedRing.v meet Queue.v only through its
    classes; IgbUio.v, NetUio.v, Virt2phys.v, Device.v, SyncClocks.v, Ice.v,
    Filter.v, Native.v and Launch.v share the monad and the accounts of Effects.v.

    ** What the theorems show

    - Refinement: the queues and namespaces behave like lists and tables.
    - Resources: probe and remove, prepare and release, open and close, request
      and cleanup give back exactly what they acquired, on every failure path and
      for every behaviour of the kernel.
    - Functional results: configuration, transmission, allocation, checksums,
      translation, timers, clock adjustment, search paths, on every branch.
    - Concurrency: the queues, the barrier (safety and progress), the list of
      processes of virt2phys, pointers into namespaces.  For the queue between two
      threads the fences of the source are shown to be enough.
    - Defects, each as a theorem about the code as it is or as a lemma next to
      the component, among them: a barrier initialised again can strand a thread;
      the loop of [alloc_mbufs] ignores an exhausted pool; a second burst loop of
      the byte-sized ring does not count what it adds; a negative capacity of
      [pipe_mpmc_new] asks for less memory than is then written; header options are counted as payload.

    ** Bounds and fuel

    - [double_until] (PktSizedRing.v) and [bs_double_until] (ByteSizedRing.v): 30
      rounds; the capacities are clamped to the size limit of DPDK's rings first,
      so that at most 28 doublings are needed, which [double_until_pow2] and
      [bs_double_until_ends] show to suffice.
    - The unrolled loop of memory.c: a quarter of the length, stated in the
      theorems that use it.
    - The machines of Spsc.v run without fuel; [spsc_wait_free] bounds the number
      of steps of each operation.  The same holds for Barrier.v, and for the
      programs of SpscWeak.v with [weak_spsc_wait_free].
    - Mpmc.v: the theorems hold for fewer than [2^63] steps, within which no
      counter wraps around; [dequeue] has seven steps after the call, which
      [alone_dequeues] shows to be enough.  FreeList.v: fewer than [2^31 - 1]
      threads, the width of the reference count.  Storage.v: fewer than
      [2^63 - 33] steps, so that the test of the head is exact and the block
      index, which doubles from 32 entries, has at most [2^59]; the same number
      in SubQueues.v, where it counts the steps of all sub-queues, and half of it
      in BlockPool.v, where a step can be two of SubQueues.v.
    - Destroy.v: the loop over the elements has one round for each index between
      head and tail, that over the headers one for each header, which
      [implicit_destroy_correct] shows to be enough.
    - ProducerHash.v: fewer than [2^58] threads, so that a table has at most
      [2^60] places; [enlarge] doubles at most 64 times, which [enlarge_spec]
      shows to be enough.  The probing loops have no fuel: [hash_probes_end] bounds the
      steps that a thread makes in them.
    - Ice.v: the walk over siblings has one round for each node of the data base,
      which [siblings_length] shows to be enough for every list that ends.
    - Device.v: [dpdk_send_all_packets] repeats while the device accepts nothing;
      [send_all_packets_correct] computes enough rounds from the number of packets
      and from how often in a row the device refuses.

    ** Not modelled

    - Weak memory, but for the queue between two threads.  The steps of Spsc.v,
      Mpmc.v, FreeList.v, Storage.v, SubQueues.v, BlockPool.v and ProducerHash.v
      see the latest memory; of the orderings of the atomic accesses of
      concurrentqueue.h, which entitle the threads to that view, nothing is said.
      WeakMem.v has the release and acquire fences and relaxed accesses of
      variables that one thread stores to; [peek] and [pop], which libmoon does not
      call, are in Spsc.v only.
    - The explicit producers of concurrentqueue.h, its tokens, bulk operations,
      moving and swapping of queues, which libmoon does not use, and its listener
      for the end of a thread, which is compiled out.
    - The Lua code, which is read for what it expects of the native functions.
    - virt2phys_trace.h (tracing macros), config.h and the build files, the
      examples.  Of rdtsc.h and util.c the instructions themselves are calls whose
      answers are the registers.
    - Accessors of DPDK's structures and tables in i40e.c and device.c, and the
      text form of the MAC address. *)
From stdpp Require Export base tactics list numbers gmap strings pretty relations.
From Stdlib Require Export ZArith Lia.

#[export] Set Default Goal Selector "!".

Open Scope Z_scope.

(** ** Machine integers

    A C integer of width [w] is a [Z]; every arithmetic operation whose C type
    is unsigned is followed by the reduction to that type, every conversion to
    a signed type by the two's complement reading. *)

Definition u8 (x : Z) : Z := x mod 256.
Definition u16 (x : Z) : Z := x mod 65536.
Definition u32 (x : Z) : Z := x mod 4294967296.
Definition u64 (x : Z) : Z := x mod 18446744073709551616.

Definition i32 (x : Z) : Z :=
  if u32 x <? 2147483648 then u32 x else u32 x - 4294967296.
Definition i64 (x : Z) : Z :=
  if u64 x <? 9223372036854775808 then u64 x else u64 x - 18446744073709551616.

(** Membership in the value range of a C type. *)
Definition is_u8 (x : Z) : Prop := 0 <= x < 256.
Definition is_u16 (x : Z) : Prop := 0 <= x < 65536.
Definition is_u32 (x : Z) : Prop := 0 <= x < 4294967296.
Definition is_u64 (x : Z) : Prop := 0 <= x < 18446744073709551616.
Definition is_i32 (x : Z) : Prop := -2147483648 <= x < 2147483648.

#[export] Instance is_u8_dec x : Decision (is_u8 x).
Proof. unfold is_u8. apply _. Defined.
#[export] Instance is_u16_dec x : Decision (is_u16 x).
Proof. unfold is_u16. apply _. Defined.
#[export] Instance is_u32_dec x : Decision (is_u32 x).
Proof. unfold is_u32. apply _. Defined.
#[export] Instance is_u64_dec x : Decision (is_u64 x).
Proof. unfold is_u64. apply _. Defined.

(** A C truth value read back as a boolean, and a boolean stored in an [int]. *)
Definition c_true (x : Z) : bool := negb (x =? 0).
Definition c_bool (b : bool) : Z := if b then 1 else 0.

(** A pointer is its address; [NULL] is 0. *)
Definition ptr : Type := Z.
Definition NULL : ptr := 0.

(** [__sync_fetch_and_add] on a [uint32_t] counter: the old and the new value. *)
Definition fetch_and_add (cnt : Z) : Z * Z := (cnt, u32 (cnt + 1)).

(** [sprintf(buf, "<prefix>%d", n)]: the argument is read as an [int]. *)
Definition sprintf_d (prefix : string) (n : Z) : string := prefix +:+ pretty (i32 n).

(** ** Sums over lists *)
Fixpoint zsum (l : list Z) : Z :=
  match l with
  | [] => 0
  | x :: l' => x + zsum l'
  end.

(** ** Automation *)
Create HintDb word.
Create Rewrite HintDb word.

Ltac unfold_word :=
  unfold i32, i64 in *;
  unfold u8, u16, u32, u64, is_u8, is_u16, is_u32, is_u64, is_i32 in *.

(** Linear arithmetic with division and remainder by constants. *)
Ltac dlia := Z.div_mod_to_equations; lia.

(** Decides a goal about machine integers: unfolds the conversions, splits the
    comparisons left in the goal and in the context, and calls [dlia]. *)
Ltac case_Z :=
  match goal with
  | |- context [?a <? ?b] => destruct (Z.ltb_spec a b)
  | |- context [?a <=? ?b] => destruct (Z.leb_spec a b)
  | |- context [?a =? ?b] => destruct (Z.eqb_spec a b)
  | H : context [?a <? ?b] |- _ => destruct (Z.ltb_spec a b)
  | H : context [?a <=? ?b] |- _ => destruct (Z.leb_spec a b)
  | H : context [?a =? ?b] |- _ => destruct (Z.eqb_spec a b)
  end.

Ltac word := unfold_word; repeat case_Z; dlia.

(** Evaluates sums of numerals (offsets into structures). *)
Ltac zconst :=
  repeat match goal with
  | |- context [Z.add (Zpos ?a) (Zpos ?b)] =>
      let c := eval vm_compute in (Z.add (Zpos a) (Zpos b)) in
      change (Z.add (Zpos a) (Zpos b)) with c
  end.

(** ** Lemmas on machine integers *)
Lemma u8_small x : is_u8 x -> u8 x = x.
Proof. apply Z.mod_small. Qed.
Lemma u16_small x : is_u16 x -> u16 x = x.
Proof. apply Z.mod_small. Qed.
Lemma u32_small x : is_u32 x -> u32 x = x.
Proof. apply Z.mod_small. Qed.
Lemma u64_small x : is_u64 x -> u64 x = x.
Proof. apply Z.mod_small. Qed.
Lemma u8_range x : is_u8 (u8 x).
Proof. by apply Z.mod_pos_bound. Qed.
Lemma u16_range x : is_u16 (u16 x).
Proof. by apply Z.mod_pos_bound. Qed.
Lemma u32_range x : is_u32 (u32 x).
Proof. by apply Z.mod_pos_bound. Qed.
Lemma u64_range x : is_u64 (u64 x).
Proof. by apply Z.mod_pos_bound. Qed.

Lemma i32_small x : is_i32 x -> i32 x = x.
Proof. intros; word. Qed.
Lemma i32_range x : is_i32 (i32 x).
Proof. word. Qed.
Lemma u32_add_l x y : u32 (u32 x + y) = u32 (x + y).
Proof. apply Zplus_mod_idemp_l. Qed.
Lemma u32_add_r x y : u32 (x + u32 y) = u32 (x + y).
Proof. apply Zplus_mod_idemp_r. Qed.
Lemma u32_sub_l x y : u32 (u32 x - y) = u32 (x - y).
Proof. apply Zminus_mod_idemp_l. Qed.
Lemma u32_sub_r x y : u32 (x - u32 y) = u32 (x - y).
Proof. apply Zminus_mod_idemp_r. Qed.
Lemma u32_u32 x : u32 (u32 x) = u32 x.
Proof. apply Zmod_mod. Qed.

#[export] Hint Resolve u8_range u16_range u32_range u64_range i32_range : word.
#[export] Hint Resolve u8_small u16_small u32_small u64_small i32_small : word.
#[export] Hint Rewrite u32_add_l u32_add_r u32_sub_l u32_sub_r u32_u32 : word.

Lemma c_true_c_bool b : c_true (c_bool b) = b.
Proof. by destruct b. Qed.

(** ** Bits *)
Lemma land_pow2 x n : 0 <= n -> Z.land x (2 ^ n) = if Z.testbit x n then 2 ^ n else 0.
Proof.
  intros Hn. apply Z.bits_inj'. intros k Hk. rewrite Z.land_spec, Z.pow2_bits_eqb by lia.
  destruct (Z.eqb_spec n k) as [->|Hne].
  - destruct (Z.testbit x k); [by rewrite Z.pow2_bits_true|by rewrite Z.bits_0].
  - destruct (Z.testbit x n); [by rewrite Z.pow2_bits_false, andb_false_r|by rewrite Z.bits_0, andb_false_r].
Qed.

(** A test of one bit in C. *)
Lemma c_true_land_pow2 x n : 0 <= n -> c_true (Z.land x (2 ^ n)) = Z.testbit x n.
Proof.
  intros Hn. rewrite land_pow2 by done. pose proof (Z.pow_pos_nonneg 2 n ltac:(lia) Hn) as Hp.
  unfold c_true. destruct (Z.testbit x n); [|done]. by rewrite (proj2 (Z.eqb_neq _ _)) by lia.
Qed.

Lemma u8_testbit x k : 0 <= k < 8 -> Z.testbit (u8 x) k = Z.testbit x k.
Proof. intros Hk. change (u8 x) with (x mod 2 ^ 8). apply Z.mod_pow2_bits_low. lia. Qed.
Lemma u16_testbit x k : 0 <= k < 16 -> Z.testbit (u16 x) k = Z.testbit x k.
Proof. intros Hk. change (u16 x) with (x mod 2 ^ 16). apply Z.mod_pow2_bits_low. lia. Qed.
Lemma u32_testbit x k : 0 <= k < 32 -> Z.testbit (u32 x) k = Z.testbit x k.
Proof. intros Hk. change (u32 x) with (x mod 2 ^ 32). apply Z.mod_pow2_bits_low. lia. Qed.

Lemma lor_shiftl p x n : 0 <= n -> 0 <= x < 2 ^ n -> Z.lor (Z.shiftl p n) x = p * 2 ^ n + x.
Proof.
  intros Hn Hx. assert (Z.land (Z.shiftl p n) x = 0) as Hd.
  { apply Z.bits_inj'. intros i Hi. rewrite Z.land_spec, Z.bits_0.
    destruct (Z.ltb_spec i n); [by rewrite Z.shiftl_spec_low|].
    rewrite <- (Z.mod_small x (2 ^ n)) by done. rewrite (Z.mod_pow2_bits_high x) by lia.
    by rewrite andb_false_r. }
  rewrite <- Z.lxor_lor, <- Z.add_nocarry_lxor by done. by rewrite Z.shiftl_mul_pow2.
Qed.

(** ** Lemmas on lists *)
Lemma zsum_app l k : zsum (l ++ k) = zsum l + zsum k.
Proof. induction l as [|x l IH]; simpl; [done|]. rewrite IH. lia. Qed.

Lemma zsum_nonneg l : Forall (fun x => 0 <= x) l -> 0 <= zsum l.
Proof. induction 1; simpl; lia. Qed.

#[export] Hint Rewrite zsum_app : word.

Lemma zsum_perm l k : l ≡ₚ k -> zsum l = zsum k.
Proof. induction 1; simpl; lia. Qed.

Lemma zsum_map_insert {A} (f : A -> Z) (l : list A) i x y :
  l !! i = Some x -> zsum (map f (<[i:=y]> l)) = zsum (map f l) - f x + f y.
Proof.
  revert i. induction l as [|z l IH]; intros [|i] E; simpl in *; [done|done|..].
  - injection E as ->. lia.
  - rewrite (IH i E). lia.
Qed.

Lemma zsum_map_delete {A} (f : A -> Z) (l : list A) i x :
  l !! i = Some x -> zsum (map f (delete i l)) = zsum (map f l) - f x.
Proof.
  revert i. induction l as [|z l IH]; intros [|i] E; simpl in *; [done|done|..].
  - injection E as ->. lia.
  - rewrite (IH i E). lia.
Qed.

Lemma zsum_map_nonneg {A} (f : A -> Z) (l : list A) : (forall x, 0 <= f x) -> 0 <= zsum (map f l).
Proof. intros Hf. apply zsum_nonneg, Forall_forall. intros x Hx. apply list_elem_of_In, in_map_iff in Hx as (c & <- & _). apply Hf. Qed.

Lemma zsum_map_le {A} (f : A -> Z) (l : list A) i x : (forall x, 0 <= f x) -> l !! i = Some x -> f x <= zsum (map f l).
Proof.
  intros Hf E. pose proof (zsum_map_nonneg f (delete i l) Hf). rewrite (zsum_map_delete f l i x E) in *. lia.
Qed.

(** ** Accounts

    How often a number occurs: as another number, in a list, in a set. *)
Definition same (n x : ptr) : Z := c_bool (bool_decide (x = n)).
Definition occ (n : ptr) (l : list ptr) : Z := zsum (map (same n) l).
Definition inside (n : ptr) (X : gset ptr) : Z := c_bool (bool_decide (n ∈ X)).

Lemma same_refl n : same n n = 1.
Proof. unfold same. by rewrite bool_decide_eq_true_2. Qed.

Lemma same_ne n x : x <> n -> same n x = 0.
Proof. intros Hx. unfold same. by rewrite bool_decide_eq_false_2. Qed.

Lemma same_cases n x : (x = n /\ same n x = 1) \/ (x <> n /\ same n x = 0).
Proof. destruct (decide (x = n)) as [->|Hx]; [left; by rewrite same_refl|right; by rewrite same_ne]. Qed.

Lemma inside_cases n X : (n ∈ X /\ inside n X = 1) \/ (n ∉ X /\ inside n X = 0).
Proof.
  unfold inside. destruct (decide (n ∈ X)); [left|right]; (split; [done|]).
  - by rewrite bool_decide_eq_true_2.
  - by rewrite bool_decide_eq_false_2.
Qed.

Lemma inside_union n X x : x ∉ X -> inside n (X ∪ {[x]}) = inside n X + same n x.
Proof.
  intros Hx. destruct (same_cases n x) as [[Hs ->]|[Hs ->]];
    destruct (inside_cases n (X ∪ {[x]})) as [[H1 ->]|[H1 ->]]; destruct (inside_cases n X) as [[H2 ->]|[H2 ->]]; first [reflexivity|set_solver].
Qed.

Lemma inside_difference n X x : x ∈ X -> inside n (X ∖ {[x]}) = inside n X - same n x.
Proof.
  intros Hx. destruct (same_cases n x) as [[Hs ->]|[Hs ->]];
    destruct (inside_cases n (X ∖ {[x]})) as [[H1 ->]|[H1 ->]]; destruct (inside_cases n X) as [[H2 ->]|[H2 ->]]; first [reflexivity|set_solver].
Qed.

Lemma occ_cons n x l : occ n (x :: l) = same n x + occ n l.
Proof. done. Qed.

Lemma occ_nonneg n l : 0 <= occ n l.
Proof.
  apply zsum_nonneg, Forall_forall. intros x Hx. apply list_elem_of_In, in_map_iff in Hx as (c & <- & _).
  destruct (same_cases n c); lia.
Qed.

Lemma occ_elem n l : n ∈ l -> 0 < occ n l.
Proof.
  intros Hn. apply list_elem_of_split in Hn as (l1 & l2 & ->). unfold occ. rewrite map_app, zsum_app. simpl. rewrite same_refl.
  pose proof (occ_nonneg n l1). pose proof (occ_nonneg n l2). unfold occ in *. lia.
Qed.

Lemma occ_nodup l : (forall n, occ n l <= 1) -> NoDup l.
Proof.
  induction l as [|x l IH]; intros Ho; [constructor|]. constructor.
  - intros Hx%occ_elem. specialize (Ho x). rewrite occ_cons, same_refl in Ho. lia.
  - apply IH. intros n. specialize (Ho n). rewrite occ_cons in Ho. destruct (same_cases n x); lia.
Qed.

Lemma occ_not_elem n l : n ∉ l -> occ n l = 0.
Proof.
  induction l as [|x l IH]; intros Hn; [done|]. rewrite not_elem_of_cons in Hn. rewrite occ_cons, same_ne, IH by naive_solver. done.
Qed.

Lemma lookup_map {A B} (f : A -> B) (l : list A) i : map f l !! i = f <$> l !! i.
Proof. revert i. induction l as [|x l IH]; intros [|i]; simpl; done. Qed.

(** A relation between the entries of two lists survives an insertion into the
    second. *)
Lemma insert_pairwise {A B} (P : A -> B -> Prop) (l : list A) (k : list B) i y :
  (i < length k)%nat -> (forall x, l !! i = Some x -> P x y) ->
  (forall j x z, j <> i -> l !! j = Some x -> k !! j = Some z -> P x z) ->
  forall j x z, l !! j = Some x -> <[i := y]> k !! j = Some z -> P x z.
Proof.
  intros Hi Hy Hk j x z Ex. destruct (decide (j = i)) as [->|Hj].
  - rewrite list_lookup_insert_eq by done. intros [= <-]. by apply Hy.
  - rewrite list_lookup_insert_ne by done. by apply Hk.
Qed.

Lemma take_all_Z {A} (l : list A) n : Z.of_nat (length l) <= n -> take (Z.to_nat n) l = l.
Proof. intros. apply take_ge. lia. Qed.

Lemma length_take_Z {A} (l : list A) n :
  0 <= n <= Z.of_nat (length l) -> Z.of_nat (length (take (Z.to_nat n) l)) = n.
Proof. intros. rewrite length_take. lia. Qed.

Lemma length_drop_Z {A} (l : list A) n :
  0 <= n -> Z.of_nat (length (drop (Z.to_nat n) l)) = Z.max 0 (Z.of_nat (length l) - n).
Proof. intros. rewrite length_drop. lia. Qed.

Lemma replicate_insert {A} (x y : A) (l : list A) k :
  (0 < k)%nat -> <[length l := y]> (l ++ replicate k x) = (l ++ [y]) ++ replicate (k - 1) x.
Proof.
  intros Hk. destruct k as [|k]; [lia|]. rewrite insert_app_r_alt by lia. rewrite Nat.sub_diag. simpl.
  rewrite Nat.sub_0_r, <- app_assoc. done.
Qed.

(** ** Lemmas on formatted names *)
Lemma u32_i32 x : u32 (i32 x) = u32 x.
Proof. word. Qed.

Lemma sprintf_d_inj prefix a b : sprintf_d prefix a = sprintf_d prefix b -> u32 a = u32 b.
Proof.
  unfold sprintf_d. intros Hs%(inj (String.app prefix))%(inj pretty).
  by rewrite <- (u32_i32 a), <- (u32_i32 b), Hs.
Qed.

(** Successive values of a counter are different for [2^32] calls. *)
Lemma counter_distinct c i j :
  0 <= i < 4294967296 -> 0 <= j < 4294967296 -> u32 (c + i) = u32 (c + j) -> i = j.
Proof. word. Qed.

Lemma length_string_app s t : String.length (s +:+ t) = (String.length s + String.length t)%nat.
Proof. induction s as [|c s IH]; simpl; [done|]. by rewrite IH. Qed.

Lemma pretty_N_go_length (k : nat) : forall (x : N) (s : string),
  (x < 10 ^ N.of_nat k)%N -> (String.length (pretty_N_go x s) <= k + String.length s)%nat.
Proof.
  induction k as [|k IH]; intros x s Hx.
  - assert (x = 0%N) as -> by lia. rewrite pretty_N_go_0. lia.
  - destruct (decide (0 < x)%N) as [Hp|Hp].
    + rewrite pretty_N_go_step by done. etrans.
      * apply IH. rewrite Nat2N.inj_succ, N.pow_succ_r' in Hx.
        apply N.Div0.div_lt_upper_bound. lia.
      * simpl. lia.
    + assert (x = 0%N) as -> by lia. rewrite pretty_N_go_0. lia.
Qed.

(** A printed [int] takes at most eleven characters. *)
Lemma pretty_i32_length x : is_i32 x -> (String.length (pretty x) <= 11)%nat.
Proof.
  intros Hx. assert (forall n, (n < 10000000000)%N -> (String.length (pretty n) <= 10)%nat) as HN.
  { intros n Hn. unfold pretty, pretty_N. case_decide; [simpl; lia|].
    pose proof (pretty_N_go_length 10 n "" Hn). simpl in *. lia. }
  unfold is_i32 in Hx. destruct x as [|p|p]; [simpl; lia| |].
  - change (pretty (Z.pos p)) with (pretty (N.pos p)). specialize (HN (N.pos p)). lia.
  - change (pretty (Z.neg p)) with ("-" +:+ pretty (N.pos p)).
    rewrite length_string_app. specialize (HN (N.pos p)). simpl. lia.
Qed.

Lemma sprintf_d_length prefix n :
  (String.length (sprintf_d prefix n) <= String.length prefix + 11)%nat.
Proof.
  unfold sprintf_d. rewrite length_string_app.
  pose proof (pretty_i32_length (i32 n) (i32_range n)). lia.
Qed.
