(* ===== verification/RteRing.v ===== *)
(** * The DPDK ring, seen from libmoon

    [rte_ring] is DPDK code and not part of the repository: its operations are
    the fields of the class [RteRing], and what [rte_ring.h] documents about
    them is the class [RteRingLaws].  [BoundedRing] is a concrete bounded queue
    that satisfies the laws; the components' witnesses run on it. *)
From S2P Require Import Prelude.

(** ** Operations *)
Class RteRing (R : Type) := {
  (** the objects in the ring, oldest first, and the number it can hold *)
  ring_view : R -> list ptr;
  ring_usable : R -> Z;
  RING_F_SP_ENQ : Z;
  RING_F_SC_DEQ : Z;
  (** name, count, socket, flags; [None] is the NULL result *)
  rte_ring_create : string -> Z -> Z -> Z -> option R;
  (** the object table and the number of objects taken from it *)
  rte_ring_sp_enqueue_bulk : R -> list ptr -> Z -> Z * R;
  rte_ring_sp_enqueue_burst : R -> list ptr -> Z -> Z * R;
  rte_ring_sp_enqueue : R -> ptr -> Z * R;
  (** the number of objects, the objects stored in the table, the ring *)
  rte_ring_sc_dequeue_bulk : R -> Z -> Z * list ptr * R;
  rte_ring_sc_dequeue_burst : R -> Z -> Z * list ptr * R;
  rte_ring_sc_dequeue : R -> Z * list ptr * R;
  rte_ring_count : R -> Z;
  rte_ring_free_count : R -> Z;
  rte_ring_empty : R -> Z;
  rte_ring_full : R -> Z
}.

Section derived.
Context {R : Type} `{RteRing R}.

(** Number of objects in the ring and free entries. *)
Definition ring_len (r : R) : Z := Z.of_nat (length (ring_view r)).
Definition ring_free (r : R) : Z := ring_usable r - ring_len r.

(** The outcome of an enqueue that appends the first [k] objects of [objs]. *)
Definition enqueued (r : R) (objs : list ptr) (k : Z) (r' : R) : Prop :=
  ring_view r' = ring_view r ++ take (Z.to_nat k) objs /\
  ring_usable r' = ring_usable r.

(** The outcome of a dequeue that removes the [k] oldest objects. *)
Definition dequeued (r : R) (k : Z) (objs : list ptr) (r' : R) : Prop :=
  objs = take (Z.to_nat k) (ring_view r) /\
  ring_view r' = drop (Z.to_nat k) (ring_view r) /\
  ring_usable r' = ring_usable r.

End derived.

Definition is_pow2 (n : Z) : Prop := exists k, 0 <= k /\ n = 2 ^ k.

(** All or nothing, and as many as possible. *)
Definition bulk_n (avail n : Z) : Z := if n <=? avail then n else 0.
Definition burst_n (avail n : Z) : Z := Z.min n avail.

(** ** Documented behaviour *)
Class RteRingLaws (R : Type) `{RteRing R} : Prop := {
  ring_wf : forall r : R, ring_len r <= ring_usable r <= 2147483647;
  ring_create_spec : forall name count socket (r : R),
    rte_ring_create name count socket (Z.lor RING_F_SP_ENQ RING_F_SC_DEQ) = Some r ->
    is_pow2 count /\ ring_view r = [] /\ ring_usable r = count - 1;
  ring_enqueue_bulk_spec : forall (r : R) objs n,
    0 <= n <= Z.of_nat (length objs) ->
    (rte_ring_sp_enqueue_bulk r objs n).1 = bulk_n (ring_free r) n /\
    enqueued r objs (bulk_n (ring_free r) n) (rte_ring_sp_enqueue_bulk r objs n).2;
  ring_enqueue_burst_spec : forall (r : R) objs n,
    0 <= n <= Z.of_nat (length objs) ->
    (rte_ring_sp_enqueue_burst r objs n).1 = burst_n (ring_free r) n /\
    enqueued r objs (burst_n (ring_free r) n) (rte_ring_sp_enqueue_burst r objs n).2;
  (** 0 on success, -ENOBUFS when there is no room *)
  ring_enqueue_spec : forall (r : R) obj,
    (rte_ring_sp_enqueue r obj).1 = (if 1 <=? ring_free r then 0 else -105) /\
    enqueued r [obj] (bulk_n (ring_free r) 1) (rte_ring_sp_enqueue r obj).2;
  ring_dequeue_bulk_spec : forall (r : R) n, 0 <= n ->
    (rte_ring_sc_dequeue_bulk r n).1.1 = bulk_n (ring_len r) n /\
    dequeued r (bulk_n (ring_len r) n)
      (rte_ring_sc_dequeue_bulk r n).1.2 (rte_ring_sc_dequeue_bulk r n).2;
  ring_dequeue_burst_spec : forall (r : R) n, 0 <= n ->
    (rte_ring_sc_dequeue_burst r n).1.1 = burst_n (ring_len r) n /\
    dequeued r (burst_n (ring_len r) n)
      (rte_ring_sc_dequeue_burst r n).1.2 (rte_ring_sc_dequeue_burst r n).2;
  (** 0 on success, -ENOENT when the ring is empty *)
  ring_dequeue_spec : forall r : R,
    (rte_ring_sc_dequeue r).1.1 = (if 1 <=? ring_len r then 0 else -2) /\
    dequeued r (bulk_n (ring_len r) 1)
      (rte_ring_sc_dequeue r).1.2 (rte_ring_sc_dequeue r).2;
  ring_count_spec : forall r : R, rte_ring_count r = ring_len r;
  ring_free_count_spec : forall r : R, rte_ring_free_count r = ring_free r;
  ring_empty_spec : forall r : R, rte_ring_empty r = c_bool (bool_decide (ring_len r = 0));
  ring_full_spec : forall r : R, rte_ring_full r = c_bool (bool_decide (ring_free r = 0))
}.

(** ** Consequences of the laws *)
Section laws.
Context {R : Type} `{RteRingLaws R}.
Implicit Type r : R.

Lemma ring_len_nonneg r : 0 <= ring_len r.
Proof. unfold ring_len. lia. Qed.

Lemma ring_free_nonneg r : 0 <= ring_free r.
Proof. unfold ring_free. pose proof (ring_wf r). lia. Qed.

Lemma ring_len_is_u32 r : is_u32 (ring_len r).
Proof. pose proof (ring_wf r). pose proof (ring_len_nonneg r). word. Qed.

Lemma ring_len_is_i32 r : is_i32 (ring_len r).
Proof. pose proof (ring_wf r). pose proof (ring_len_nonneg r). word. Qed.

Lemma enqueued_len r objs k r' :
  0 <= k <= Z.of_nat (length objs) -> enqueued r objs k r' -> ring_len r' = ring_len r + k.
Proof.
  intros Hk [Hv _]. unfold ring_len. rewrite Hv, length_app, length_take. lia.
Qed.

Lemma dequeued_len r k objs r' :
  0 <= k <= ring_len r -> dequeued r k objs r' -> ring_len r' = ring_len r - k.
Proof.
  unfold ring_len. intros Hk (_ & Hv & _). rewrite Hv, length_drop. lia.
Qed.

Lemma dequeued_split r k objs r' :
  dequeued r k objs r' -> ring_view r = objs ++ ring_view r'.
Proof. intros (-> & -> & _). by rewrite take_drop. Qed.

Lemma enqueued_0 r objs r' : enqueued r objs 0 r' -> ring_view r' = ring_view r.
Proof. intros [-> _]. by rewrite app_nil_r. Qed.

Lemma bulk_n_range avail n : 0 <= avail -> 0 <= n -> 0 <= bulk_n avail n <= Z.min avail n.
Proof. intros. unfold bulk_n. case_Z; lia. Qed.

Lemma burst_n_range avail n : 0 <= avail -> 0 <= n -> 0 <= burst_n avail n <= Z.min avail n.
Proof. intros. unfold burst_n. lia. Qed.

End laws.

#[export] Hint Resolve ring_len_nonneg ring_free_nonneg ring_len_is_u32 ring_len_is_i32 : word.

(** ** A bounded queue that satisfies the laws *)
Module BoundedRing.

Record t := mk { items : list ptr; usable : Z }.

(** Every value of [t] is read through its normal form, so that the laws hold
    of all of them: a ring never holds more than its size. *)
Definition norm_usable (r : t) : Z := Z.min (Z.max 0 (usable r)) 2147483647.
Definition norm_items (r : t) : list ptr := take (Z.to_nat (norm_usable r)) (items r).
Definition set_items (r : t) (l : list ptr) : t := mk l (norm_usable r).

Definition len (r : t) : Z := Z.of_nat (length (norm_items r)).
Definition free (r : t) : Z := norm_usable r - len r.

Definition add (r : t) (objs : list ptr) (k : Z) : t :=
  set_items r (norm_items r ++ take (Z.to_nat k) objs).
Definition rem (r : t) (k : Z) : t := set_items r (drop (Z.to_nat k) (norm_items r)).

Definition pow2b (n : Z) : bool := (0 <? n) && (2 ^ Z.log2 n =? n).

#[global] Instance ops : RteRing t := {
  ring_view := norm_items;
  ring_usable := norm_usable;
  RING_F_SP_ENQ := 1;
  RING_F_SC_DEQ := 2;
  rte_ring_create _ count _ _ :=
    if pow2b count && (count <=? 2147483647) then Some (mk [] (count - 1)) else None;
  rte_ring_sp_enqueue_bulk r objs n :=
    (bulk_n (free r) n, add r objs (bulk_n (free r) n));
  rte_ring_sp_enqueue_burst r objs n :=
    (burst_n (free r) n, add r objs (burst_n (free r) n));
  rte_ring_sp_enqueue r obj :=
    (if 1 <=? free r then 0 else -105, add r [obj] (bulk_n (free r) 1));
  rte_ring_sc_dequeue_bulk r n :=
    (bulk_n (len r) n, take (Z.to_nat (bulk_n (len r) n)) (norm_items r), rem r (bulk_n (len r) n));
  rte_ring_sc_dequeue_burst r n :=
    (burst_n (len r) n, take (Z.to_nat (burst_n (len r) n)) (norm_items r), rem r (burst_n (len r) n));
  rte_ring_sc_dequeue r :=
    (if 1 <=? len r then 0 else -2, take (Z.to_nat (bulk_n (len r) 1)) (norm_items r),
     rem r (bulk_n (len r) 1));
  rte_ring_count := len;
  rte_ring_free_count := free;
  rte_ring_empty r := c_bool (bool_decide (len r = 0));
  rte_ring_full r := c_bool (bool_decide (free r = 0))
}.

Lemma len_le r : 0 <= len r <= norm_usable r.
Proof. unfold len, norm_items. rewrite length_take. unfold norm_usable. lia. Qed.

Lemma norm_usable_range r : 0 <= norm_usable r <= 2147483647.
Proof. unfold norm_usable. lia. Qed.

Lemma set_items_usable r l : norm_usable (set_items r l) = norm_usable r.
Proof. unfold set_items, norm_usable. simpl. lia. Qed.

Lemma set_items_view r l :
  Z.of_nat (length l) <= norm_usable r -> norm_items (set_items r l) = l.
Proof.
  intros Hl. unfold norm_items. rewrite set_items_usable. simpl. by apply take_all_Z.
Qed.

Lemma add_spec r objs k :
  0 <= k <= free r -> enqueued r objs k (add r objs k).
Proof.
  intros Hk. unfold free, len in Hk. split; [|apply set_items_usable].
  change (ring_view r) with (norm_items r). apply set_items_view. rewrite length_app, length_take. lia.
Qed.

Lemma rem_spec r k : 0 <= k <= len r ->
  dequeued r k (take (Z.to_nat k) (norm_items r)) (rem r k).
Proof.
  intros Hk. pose proof (len_le r). split; [done|]. split; [|apply set_items_usable].
  change (ring_view r) with (norm_items r). apply set_items_view. rewrite length_drop. unfold len in *. lia.
Qed.

Lemma pow2b_spec n : pow2b n = true -> is_pow2 n.
Proof.
  unfold pow2b. intros [H1 H2]%andb_true_iff.
  apply Z.ltb_lt in H1. apply Z.eqb_eq in H2.
  exists (Z.log2 n). split; [apply Z.log2_nonneg|done].
Qed.

Lemma ring_len_eq r : ring_len r = len r.
Proof. done. Qed.

Lemma ring_free_eq r : ring_free r = free r.
Proof. done. Qed.

Lemma free_nonneg r : 0 <= free r.
Proof. unfold free. pose proof (len_le r). lia. Qed.

(** Closes the law of one operation: the count is the result by definition and
    the new contents are those of [add] or [rem]. *)
Ltac ring_law :=
  intros; rewrite ?ring_len_eq, ?ring_free_eq; split; [done|];
  first [apply add_spec | apply rem_spec];
  match goal with
  | |- 0 <= bulk_n ?a ?n <= _ => pose proof (bulk_n_range a n)
  | |- 0 <= burst_n ?a ?n <= _ => pose proof (burst_n_range a n)
  end;
  match goal with r : t |- _ => pose proof (free_nonneg r); pose proof (len_le r) end;
  lia.

#[global] Instance laws : RteRingLaws t.
Proof.
  constructor; try done; try ring_law.
  - intros r. pose proof (len_le r). pose proof (norm_usable_range r).
    change (len r <= norm_usable r <= 2147483647). lia.
  - simpl. intros _ count _ r. case_match eqn:E; [|done]. intros [= <-].
    apply andb_true_iff in E as [E1%pow2b_spec E2%Z.leb_le].
    destruct E1 as (k & Hk & ->). pose proof (Z.pow_pos_nonneg 2 k).
    split; [by exists k|]. unfold norm_usable. simpl.
    split; [by rewrite take_nil || apply take_nil|]. lia.
Qed.

End BoundedRing.
