(* ===== verification/Bytes.v ===== *)
(** * Byte buffers

    A region of memory is the list of its bytes; integers are stored with the
    least significant byte first, as on the machines libmoon runs on.  A load or
    store outside the region has no result. *)
From S2P Require Import Prelude.

Definition is_bytes (bs : list Z) : Prop := Forall is_u8 bs.

Definition ld8 (bs : list Z) (off : Z) : option Z :=
  if 0 <=? off then bs !! Z.to_nat off else None.

Definition ld16 (bs : list Z) (off : Z) : option Z :=
  b0 ← ld8 bs off; b1 ← ld8 bs (off + 1); Some (b0 + 256 * b1).

Definition ld32 (bs : list Z) (off : Z) : option Z :=
  w0 ← ld16 bs off; w1 ← ld16 bs (off + 2); Some (w0 + 65536 * w1).

Definition st8 (bs : list Z) (off : Z) (v : Z) : option (list Z) :=
  if (0 <=? off) && (off <? Z.of_nat (length bs)) then Some (<[Z.to_nat off := u8 v]> bs) else None.

Definition st16 (bs : list Z) (off : Z) (v : Z) : option (list Z) :=
  bs ← st8 bs off v; st8 bs (off + 1) (Z.shiftr v 8).

(** [n] bytes from [off]. *)
Definition ld_bytes (bs : list Z) (off n : Z) : option (list Z) :=
  if (0 <=? off) && (0 <=? n) && (off + n <=? Z.of_nat (length bs))
  then Some (take (Z.to_nat n) (drop (Z.to_nat off) bs)) else None.

(** Overwrites the bytes from [off] on by [src]. *)
Definition st_bytes (bs : list Z) (off : Z) (src : list Z) : option (list Z) :=
  if (0 <=? off) && (off + Z.of_nat (length src) <=? Z.of_nat (length bs))
  then Some (take (Z.to_nat off) bs ++ src ++ drop (Z.to_nat off + length src) bs) else None.

(** The little-endian bytes of an integer. *)
Definition le16 (v : Z) : list Z := [u8 v; u8 (Z.shiftr v 8)].
Definition le32 (v : Z) : list Z := [u8 v; u8 (Z.shiftr v 8); u8 (Z.shiftr v 16); u8 (Z.shiftr v 24)].

#[global] Arguments ld8 : simpl never.
#[global] Arguments ld16 : simpl never.
#[global] Arguments ld32 : simpl never.
#[global] Arguments st8 : simpl never.
#[global] Arguments st16 : simpl never.
#[global] Arguments ld_bytes : simpl never.
#[global] Arguments st_bytes : simpl never.
#[global] Arguments le32 : simpl never.

Lemma ld8_range bs off v : is_bytes bs -> ld8 bs off = Some v -> is_u8 v.
Proof. unfold ld8. intros Hb. case_match; [|done]. by apply Forall_lookup_1. Qed.

Lemma ld16_range bs off v : is_bytes bs -> ld16 bs off = Some v -> is_u16 v.
Proof.
  unfold ld16. intros Hb Hl.
  destruct (ld8 bs off) as [b0|] eqn:E0; simpl in Hl; [|done].
  destruct (ld8 bs (off + 1)) as [b1|] eqn:E1; simpl in Hl; [|done]. simplify_eq.
  apply ld8_range in E0, E1; [|done..]. word.
Qed.

Lemma ld32_range bs off v : is_bytes bs -> ld32 bs off = Some v -> is_u32 v.
Proof.
  unfold ld32. intros Hb Hl.
  destruct (ld16 bs off) as [b0|] eqn:E0; simpl in Hl; [|done].
  destruct (ld16 bs (off + 2)) as [b1|] eqn:E1; simpl in Hl; [|done]. simplify_eq.
  apply ld16_range in E0, E1; [|done..]. word.
Qed.

Lemma shiftr8 v : Z.shiftr v 8 = v / 256.
Proof. by rewrite Z.shiftr_div_pow2. Qed.

Lemma st8_Some bs off v :
  0 <= off < Z.of_nat (length bs) -> st8 bs off v = Some (<[Z.to_nat off := u8 v]> bs).
Proof.
  intros. unfold st8. rewrite (proj2 (Z.leb_le _ _)), (proj2 (Z.ltb_lt _ _)) by lia. done.
Qed.

Lemma ld8_Some bs off : 0 <= off < Z.of_nat (length bs) -> is_Some (ld8 bs off).
Proof.
  intros. unfold ld8. rewrite (proj2 (Z.leb_le _ _)) by lia. apply lookup_lt_is_Some. lia.
Qed.

Lemma ld16_Some bs off : 0 <= off -> off + 2 <= Z.of_nat (length bs) -> is_Some (ld16 bs off).
Proof.
  intros. unfold ld16. destruct (ld8_Some bs off) as [b0 ->]; [lia|].
  destruct (ld8_Some bs (off + 1)) as [b1 ->]; [lia|]. simpl. eauto.
Qed.

Lemma ld32_Some bs off : 0 <= off -> off + 4 <= Z.of_nat (length bs) -> is_Some (ld32 bs off).
Proof.
  intros. unfold ld32. destruct (ld16_Some bs off) as [b0 ->]; [lia..|].
  destruct (ld16_Some bs (off + 2)) as [b1 ->]; [lia..|]. simpl. eauto.
Qed.

(** A 16-bit store writes its two bytes and no others. *)
Lemma st16_Some bs off v :
  0 <= off -> off + 2 <= Z.of_nat (length bs) ->
  st16 bs off v = Some (<[Z.to_nat (off + 1) := u8 (Z.shiftr v 8)]> (<[Z.to_nat off := u8 v]> bs)).
Proof.
  intros. unfold st16. rewrite st8_Some by lia. simpl. apply st8_Some. rewrite length_insert. lia.
Qed.

Lemma st8_inv bs off v bs' :
  st8 bs off v = Some bs' ->
  0 <= off < Z.of_nat (length bs) /\ bs' = <[Z.to_nat off := u8 v]> bs.
Proof.
  unfold st8. destruct (Z.leb_spec 0 off); destruct (Z.ltb_spec off (Z.of_nat (length bs)));
    simpl; intros; simplify_eq; split; done.
Qed.

Lemma st16_inv bs off v bs' :
  st16 bs off v = Some bs' ->
  0 <= off /\ off + 2 <= Z.of_nat (length bs) /\
  bs' = <[Z.to_nat (off + 1) := u8 (Z.shiftr v 8)]> (<[Z.to_nat off := u8 v]> bs).
Proof.
  unfold st16. destruct (st8 bs off v) as [bs1|] eqn:E1; simpl; [|done]. intros E2.
  apply st8_inv in E1 as [? ->]. apply st8_inv in E2 as [E2 ->]. rewrite length_insert in E2.
  split; [lia|split; [lia|done]].
Qed.

Lemma ld16_st16 bs off v bs' :
  is_u16 v -> st16 bs off v = Some bs' -> ld16 bs' off = Some v.
Proof.
  intros Hv (H0 & Hl & ->)%st16_inv. unfold ld16, ld8.
  rewrite (proj2 (Z.leb_le 0 off)), (proj2 (Z.leb_le 0 (off + 1))) by lia.
  assert (Z.to_nat (off + 1) <> Z.to_nat off) by lia.
  rewrite (list_lookup_insert_ne _ _ (Z.to_nat off)) by done.
  rewrite (list_lookup_insert_eq _ (Z.to_nat off)) by lia. simpl.
  rewrite list_lookup_insert_eq by (rewrite length_insert; lia). simpl.
  rewrite shiftr8. f_equal. word.
Qed.

Lemma st16_other bs off v bs' i :
  st16 bs off v = Some bs' -> i <> off -> i <> off + 1 -> ld8 bs' i = ld8 bs i.
Proof.
  intros (H0 & Hl & ->)%st16_inv Hi Hi1. unfold ld8. destruct (Z.leb_spec 0 i); [|done].
  rewrite !list_lookup_insert_ne by lia. done.
Qed.

Lemma st16_length bs off v bs' : st16 bs off v = Some bs' -> length bs' = length bs.
Proof. intros (H0 & Hl & ->)%st16_inv. by rewrite !length_insert. Qed.

(** ** Block copies *)
Lemma ld_bytes_Some bs off n :
  0 <= off -> 0 <= n -> off + n <= Z.of_nat (length bs) ->
  ld_bytes bs off n = Some (take (Z.to_nat n) (drop (Z.to_nat off) bs)).
Proof.
  intros. unfold ld_bytes. rewrite !(proj2 (Z.leb_le _ _)) by lia. done.
Qed.

Lemma st_bytes_Some bs off src :
  0 <= off -> off + Z.of_nat (length src) <= Z.of_nat (length bs) ->
  st_bytes bs off src =
    Some (take (Z.to_nat off) bs ++ src ++ drop (Z.to_nat off + length src) bs).
Proof. intros. unfold st_bytes. rewrite !(proj2 (Z.leb_le _ _)) by lia. done. Qed.

Lemma st_bytes_inv bs off src bs' :
  st_bytes bs off src = Some bs' ->
  0 <= off /\ off + Z.of_nat (length src) <= Z.of_nat (length bs) /\
  bs' = take (Z.to_nat off) bs ++ src ++ drop (Z.to_nat off + length src) bs.
Proof.
  unfold st_bytes. destruct (Z.leb_spec 0 off); [|done].
  destruct (Z.leb_spec (off + Z.of_nat (length src)) (Z.of_nat (length bs))); [|done].
  simpl. intros; simplify_eq. split; [lia|split; [lia|done]].
Qed.

Lemma st_bytes_length bs off src bs' : st_bytes bs off src = Some bs' -> length bs' = length bs.
Proof.
  intros (? & ? & ->)%st_bytes_inv. rewrite !length_app, length_take, length_drop. lia.
Qed.

(** Reading back what was stored. *)
Lemma ld_bytes_st_bytes bs off src bs' :
  st_bytes bs off src = Some bs' -> ld_bytes bs' off (Z.of_nat (length src)) = Some src.
Proof.
  intros Hs. pose proof (st_bytes_length _ _ _ _ Hs) as Hl. apply st_bytes_inv in Hs as (? & ? & ->).
  rewrite ld_bytes_Some by lia. f_equal.
  rewrite drop_app_length' by (rewrite length_take; lia).
  by rewrite Nat2Z.id, take_app_length.
Qed.

(** Memory outside the stored range is not touched. *)
Lemma st_bytes_before bs off src bs' o n :
  st_bytes bs off src = Some bs' -> 0 <= o -> 0 <= n -> o + n <= off -> ld_bytes bs' o n = ld_bytes bs o n.
Proof.
  intros Hs. pose proof (st_bytes_length _ _ _ _ Hs) as Hl. apply st_bytes_inv in Hs as (? & ? & ->).
  intros. rewrite !ld_bytes_Some by lia. f_equal.
  rewrite drop_app_le by (rewrite length_take; lia).
  rewrite take_app_le by (rewrite length_drop, length_take; lia).
  rewrite !take_drop_commute, take_take. f_equal. f_equal. lia.
Qed.

Lemma st_bytes_after bs off src bs' o n :
  st_bytes bs off src = Some bs' -> 0 <= n -> off + Z.of_nat (length src) <= o -> ld_bytes bs' o n = ld_bytes bs o n.
Proof.
  intros Hs. pose proof (st_bytes_length _ _ _ _ Hs) as Hl. apply st_bytes_inv in Hs as (? & ? & ->).
  intros. unfold ld_bytes. rewrite Hl. case_match; [|done]. f_equal. f_equal.
  rewrite app_assoc, drop_app_ge by (rewrite length_app, length_take; lia).
  rewrite drop_drop, length_app, length_take. f_equal. lia.
Qed.

Lemma ld_bytes_split bs off n m xs ys :
  0 <= n -> 0 <= m -> ld_bytes bs off n = Some xs -> ld_bytes bs (off + n) m = Some ys ->
  ld_bytes bs off (n + m) = Some (xs ++ ys).
Proof.
  unfold ld_bytes. intros Hn Hm H1 H2. case_match eqn:E1; [|done]. case_match eqn:E2; [|done].
  simplify_eq. rewrite !andb_true_iff, !Z.leb_le in *.
  rewrite !(proj2 (Z.leb_le _ _)) by lia. simpl. f_equal.
  rewrite !Z2Nat.inj_add by lia. by rewrite <- drop_drop, take_take_drop.
Qed.

(** ** Little-endian integers *)
Lemma ld8_app_l bs cs off : off < Z.of_nat (length bs) -> ld8 (bs ++ cs) off = ld8 bs off.
Proof. intros. unfold ld8. case_match eqn:E; [|done]. apply Z.leb_le in E. apply lookup_app_l. lia. Qed.

Lemma ld8_app_r bs cs off :
  Z.of_nat (length bs) <= off -> ld8 (bs ++ cs) off = ld8 cs (off - Z.of_nat (length bs)).
Proof.
  intros. unfold ld8. rewrite !(proj2 (Z.leb_le _ _)) by lia.
  rewrite lookup_app_r by lia. f_equal. lia.
Qed.

Lemma ld16_app_l bs cs off : off + 1 < Z.of_nat (length bs) -> ld16 (bs ++ cs) off = ld16 bs off.
Proof. intros. unfold ld16. by rewrite !ld8_app_l by lia. Qed.

Lemma ld16_app_r bs cs off :
  Z.of_nat (length bs) <= off -> ld16 (bs ++ cs) off = ld16 cs (off - Z.of_nat (length bs)).
Proof. intros. unfold ld16. rewrite !ld8_app_r by lia.
  by replace (off + 1 - Z.of_nat (length bs)) with (off - Z.of_nat (length bs) + 1) by lia. Qed.

Lemma ld32_app_l bs cs off : off + 3 < Z.of_nat (length bs) -> ld32 (bs ++ cs) off = ld32 bs off.
Proof. intros. unfold ld32. by rewrite !ld16_app_l by lia. Qed.

Lemma ld32_app_r bs cs off :
  Z.of_nat (length bs) <= off -> ld32 (bs ++ cs) off = ld32 cs (off - Z.of_nat (length bs)).
Proof. intros. unfold ld32. rewrite !ld16_app_r by lia.
  by replace (off + 2 - Z.of_nat (length bs)) with (off - Z.of_nat (length bs) + 2) by lia. Qed.

Lemma le16_bytes v : is_bytes (le16 v).
Proof. unfold le16, is_bytes. repeat constructor; apply Z.mod_pos_bound; lia. Qed.

Lemma le16_value v : is_u16 v -> ld16 (le16 v) 0 = Some v.
Proof.
  intros. unfold le16. rewrite shiftr8. transitivity (Some (u8 v + 256 * u8 (v / 256))); [done|].
  f_equal. word.
Qed.

Lemma le32_bytes v : is_bytes (le32 v).
Proof. unfold le32, is_bytes. repeat constructor; apply Z.mod_pos_bound; lia. Qed.

Lemma le32_value v : is_u32 v -> ld32 (le32 v) 0 = Some v.
Proof.
  intros. unfold le32. rewrite !Z.shiftr_div_pow2 by lia. change (2 ^ 8) with 256.
  change (2 ^ 16) with 65536. change (2 ^ 24) with 16777216.
  transitivity (Some (u8 v + 256 * u8 (v / 256) +
    65536 * (u8 (v / 65536) + 256 * u8 (v / 16777216)))); [done|].
  f_equal. word.
Qed.

(** A store over a whole middle part. *)
Lemma st_bytes_app pre old new post off :
  length old = length new -> off = Z.of_nat (length pre) ->
  st_bytes (pre ++ old ++ post) off new = Some (pre ++ new ++ post).
Proof.
  intros Ho ->. rewrite st_bytes_Some by (rewrite ?length_app; lia). f_equal.
  rewrite Nat2Z.id, take_app_length. do 2 f_equal.
  by rewrite drop_app_add, <- Ho, drop_app_length.
Qed.

(** ** Loads after a 16-bit store *)
Lemma st16_again bs off v bs' : st16 bs off v = Some bs' -> st16 bs' off v = Some bs'.
Proof.
  intros Hs. pose proof (st16_length _ _ _ _ Hs) as Hl. apply st16_inv in Hs as (? & ? & ->).
  rewrite st16_Some by lia. f_equal.
  assert (Z.to_nat (off + 1) <> Z.to_nat off) by lia.
  rewrite (list_insert_insert_ne _ (Z.to_nat off) (Z.to_nat (off + 1))) by done.
  by rewrite !list_insert_insert_eq.
Qed.

Lemma ld_bytes_ext bs bs' off n :
  length bs = length bs' -> (forall i, off <= i < off + n -> ld8 bs i = ld8 bs' i) ->
  ld_bytes bs off n = ld_bytes bs' off n.
Proof.
  intros Hl Hi. unfold ld_bytes. rewrite Hl. case_match eqn:E; [|done].
  rewrite !andb_true_iff, !Z.leb_le in E. f_equal. apply list_eq. intros k.
  destruct (decide (k < Z.to_nat n)%nat).
  - rewrite !lookup_take_lt, !lookup_drop by done.
    specialize (Hi (off + Z.of_nat k) ltac:(lia)). unfold ld8 in Hi.
    rewrite (proj2 (Z.leb_le _ _)) in Hi by lia.
    by replace (Z.to_nat (off + Z.of_nat k)) with (Z.to_nat off + k)%nat in Hi by lia.
  - rewrite !lookup_take_ge by lia. done.
Qed.
