(* ===== verification/Checksum.v ===== *)
(** * Pseudo-header checksums (src/src/util.c)

    The routines compute the one's complement sum of the TCP/UDP pseudo header
    and store it in the packet's checksum field, where the network card takes it
    up.  They work on the little-endian reading of network-order fields; the
    theorems show that the stored bytes are the sum of RFC 768 / RFC 8200 in
    network order, for packets without IPv4 options and IPv6 extension headers;
    with options the sum is too large ([ipv4_options_counted]).

    The layout of the header structures, [rte_bswap16] and [rte_memcpy] are
    DPDK's and come through the interface [RteIp]. *)
From S2P Require Import Prelude Bytes.

(** What util.c uses of rte_ip.h, rte_byteorder.h and rte_memcpy.h: the offsets
    of the fields inside the two header structures and two functions. *)
Class RteIp := {
  sizeof_ipv4_hdr : Z;
  off_total_length : Z;
  off_next_proto_id : Z;
  off_src_addr : Z;
  off_dst_addr : Z;
  off_payload_len : Z;
  off_proto : Z;
  off_src_addr6 : Z;
  rte_bswap16 : Z -> Z;
  (** [rte_memcpy dst doff src soff n]: the destination after the copy. *)
  rte_memcpy : list Z -> Z -> list Z -> Z -> Z -> option (list Z)
}.

(** RFC 791 and RFC 8200 fix the layouts; the two functions are documented. *)
Class RteIpLaws `{RteIp} : Prop := {
  law_sizeof_ipv4 : sizeof_ipv4_hdr = 20;
  law_total_length : off_total_length = 2;
  law_next_proto_id : off_next_proto_id = 9;
  law_src_addr : off_src_addr = 12;
  law_dst_addr : off_dst_addr = 16;
  law_payload_len : off_payload_len = 4;
  law_proto : off_proto = 6;
  law_src_addr6 : off_src_addr6 = 8;
  law_bswap16 x : is_u16 x -> rte_bswap16 x = x / 256 + 256 * (x mod 256);
  law_memcpy dst doff src soff n :
    rte_memcpy dst doff src soff n = (bs ← ld_bytes src soff n; st_bytes dst doff bs)
}.

Section code.
Context `{RteIp}.

(** The fields of [struct rte_ipv4_hdr] that the code reads, as the loads give
    them. *)
Record rte_ipv4_hdr := mk_ipv4 {
  total_length : Z;
  next_proto_id : Z;
  src_addr : Z;
  dst_addr : Z
}.

Definition load_ipv4 (mem : list Z) (ip : Z) : option rte_ipv4_hdr :=
  tl ← ld16 mem (ip + off_total_length);
  pr ← ld8 mem (ip + off_next_proto_id);
  sa ← ld32 mem (ip + off_src_addr);
  da ← ld32 mem (ip + off_dst_addr);
  Some (mk_ipv4 tl pr sa da).

(** The payload length, back in network order: lines 31-41. *)
Definition psd_len (len : Z) : Z :=
  if c_true (Z.land len 255)
  then rte_bswap16 (u16 (u64 (rte_bswap16 len - sizeof_ipv4_hdr)))
  else u16 (u64 (Z.shiftl (u64 (Z.shiftr len 8 - sizeof_ipv4_hdr)) 8)).

(** [next_proto_id << 24] is an [int]; the cast to [uint64_t] extends its sign. *)
Definition psd_sum64 (ip_hdr : rte_ipv4_hdr) (len : Z) : Z :=
  u64 (src_addr ip_hdr + dst_addr ip_hdr +
       u64 (i32 (Z.lor (Z.shiftl (next_proto_id ip_hdr) 24) len))).

Definition fold_sum64 (sum : Z) : Z :=
  let lower := Z.land sum 4294967295 in
  let upper := u32 (Z.shiftr sum 32) in
  let lower := u32 (lower + upper) in
  let lower := if lower <? upper then u32 (lower + 1) else lower in
  let lower16 := u16 (Z.land lower 65535) in
  let upper16 := u16 (Z.shiftr lower 16) in
  let lower16 := u16 (lower16 + upper16) in
  let lower16 := if lower16 <? upper16 then u16 (lower16 + 1) else lower16 in
  lower16.

Definition get_ipv4_psd_sum (ip_hdr : rte_ipv4_hdr) : Z :=
  fold_sum64 (psd_sum64 ip_hdr (psd_len (total_length ip_hdr))).

Definition calc_ipv4_pseudo_header_checksum (data : list Z) (offset : Z) : option (list Z) :=
  ip_hdr ← load_ipv4 data 14;
  let csum := get_ipv4_psd_sum ip_hdr in
  st16 data (2 * offset) csum.

(** Packet memory is a map: the data of an mbuf by the mbuf's address ([rte_pktmbuf_mtod]).
    The same mbuf may occur more than once in an array. *)

Section for_each.
Context (calc : list Z -> Z -> option (list Z)).

Fixpoint for_each_mbuf (m : gmap Z (list Z)) (data : list Z) (n : nat) (offset : Z) {struct n} : option (gmap Z (list Z)) :=
  match n with
  | O => Some m
  | S n' =>
      match data with
      | [] => None
      | mbuf :: rest =>
          pkt ← m !! mbuf;
          pkt' ← calc pkt offset;
          for_each_mbuf (<[mbuf := pkt']> m) rest n' offset
      end
  end.
End for_each.

Definition calc_ipv4_pseudo_header_checksums (m : gmap Z (list Z)) (data : list Z) (n offset : Z)
  : option (gmap Z (list Z)) :=
  for_each_mbuf calc_ipv4_pseudo_header_checksum m data (Z.to_nat n) offset.

Definition UINT16_MAX : Z := 65535.

(** The summing loop of [get_16b_sum]: the pointer, the remaining length and
    the sum when it is left. *)
Fixpoint sum16_loop (fuel : nat) (mem : list Z) (ptr16 nr sum : Z) : option (Z * Z * Z) :=
  if 1 <? nr then
    match fuel with
    | O => None
    | S fuel =>
        w ← ld16 mem ptr16;
        let sum := u32 (sum + w) in
        let nr := u32 (nr - 2) in
        let ptr16 := ptr16 + 2 in
        let sum := if UINT16_MAX <? sum then u32 (sum - UINT16_MAX) else sum in
        sum16_loop fuel mem ptr16 nr sum
    end
  else Some (ptr16, nr, sum).

Definition get_16b_sum (mem : list Z) (ptr16 nr : Z) : option Z :=
  '(ptr16, nr, sum) ← sum16_loop (Z.to_nat nr) mem ptr16 nr 0;
  sum ← (if c_true nr then b ← ld8 mem ptr16; Some (u32 (sum + b)) else Some sum);
  let sum := u32 (Z.shiftr (Z.land sum 4294901760) 16 + Z.land sum 65535) in
  let sum := Z.land sum 65535 in
  Some (u16 sum).

(** The packed structure [psd_hdr]: addresses at 0, [len] at 32, [proto] at 36;
    the argument is the 40 bytes the stack happens to hold. *)
Definition get_ipv6_psd_sum (psd_hdr : list Z) (mem : list Z) (ip : Z) : option Z :=
  psd_hdr ← rte_memcpy psd_hdr 0 mem (ip + off_src_addr6) 32;
  payload_len ← ld16 mem (ip + off_payload_len);
  psd_hdr ← st_bytes psd_hdr 32 (le32 payload_len);
  proto ← ld8 mem (ip + off_proto);
  psd_hdr ← st_bytes psd_hdr 36 (le32 (u32 (i32 (Z.shiftl proto 24))));
  get_16b_sum psd_hdr 0 40.

Definition calc_ipv6_pseudo_header_checksum (psd_hdr data : list Z) (offset : Z) : option (list Z) :=
  csum ← get_ipv6_psd_sum psd_hdr data 14;
  st16 data (2 * offset) csum.

Definition calc_ipv6_pseudo_header_checksums (psd_hdr : list Z) (m : gmap Z (list Z)) (data : list Z) (n offset : Z)
  : option (gmap Z (list Z)) :=
  for_each_mbuf (calc_ipv6_pseudo_header_checksum psd_hdr) m data (Z.to_nat n) offset.

End code.

(** ** Specification

    One's complement addition of 16-bit words: [ones_fold 65535 x] is the
    representative of [x] in [1..65535], and 0 for 0. *)
Definition ones_fold (m x : Z) : Z := if x =? 0 then 0 else (x - 1) mod m + 1.

(** A 16-bit and a 32-bit load in network byte order. *)
Definition be16 (bs : list Z) (off : Z) : option Z :=
  b0 ← ld8 bs off; b1 ← ld8 bs (off + 1); Some (256 * b0 + b1).

(** The length of the IPv4 header behind the Ethernet header, from its IHL field
    (RFC 791): 20 bytes and the options. *)
Definition ipv4_header_length (pkt : list Z) : option Z := b ← ld8 pkt 14; Some (4 * (b mod 16)).

(** RFC 768: source and destination address, zero, protocol, and the length of
    the datagram, which is what follows the header in the packet. *)
Definition ipv4_pseudo_header_sum (pkt : list Z) : option Z :=
  s0 ← be16 pkt 26; s1 ← be16 pkt 28; d0 ← be16 pkt 30; d1 ← be16 pkt 32;
  proto ← ld8 pkt 23; tl ← be16 pkt 16; hl ← ipv4_header_length pkt;
  Some (s0 + s1 + d0 + d1 + proto + (tl - hl)).

(** The sum of the little-endian words of a buffer, a last odd byte alone. *)
Fixpoint words_sum (l : list Z) : Z :=
  match l with
  | [] => 0
  | [b] => b
  | b0 :: b1 :: l => b0 + 256 * b1 + words_sum l
  end.

(** The same sum in network order, where an odd last byte is the high byte. *)
Fixpoint be_words_sum (l : list Z) : Z :=
  match l with
  | [] => 0
  | [b] => 256 * b
  | b0 :: b1 :: l => 256 * b0 + b1 + be_words_sum l
  end.

(** The Next Header values that announce an IPv6 extension header (RFC 8200 and the
    IANA registry): hop-by-hop options, routing, fragment, encapsulating security
    payload, authentication, destination options, mobility, host identity, shim6,
    experiments. *)
Definition ipv6_extension_headers : list Z := [0; 43; 44; 50; 51; 60; 135; 139; 140; 253; 254].

(** RFC 8200, 8.1: both addresses, the length of the upper-layer packet and its
    protocol.  Without extension headers these are the fields of the fixed header;
    for other packets the sum is not defined here. *)
Definition ipv6_pseudo_header_sum (pkt : list Z) : option Z :=
  addrs ← ld_bytes pkt 22 32;
  proto ← ld8 pkt 20; len ← be16 pkt 18;
  if bool_decide (proto ∈ ipv6_extension_headers) then None
  else Some (be_words_sum addrs + proto + len).

(** ** One's complement arithmetic *)
Lemma ones_fold_cong x y :
  0 <= x -> 0 <= y -> (x = 0 <-> y = 0) -> x mod 65535 = y mod 65535 ->
  ones_fold 65535 x = ones_fold 65535 y.
Proof. unfold ones_fold. intros. repeat case_Z; dlia. Qed.

Definition swap16 (x : Z) : Z := x / 256 + 256 * (x mod 256).

Lemma ones_fold_range x : 0 <= x -> is_u16 (ones_fold 65535 x).
Proof. unfold ones_fold. word. Qed.

Lemma ones_fold_swap x : 0 <= x -> ones_fold 65535 (256 * x) = swap16 (ones_fold 65535 x).
Proof. unfold ones_fold, swap16. intros. repeat case_Z; dlia. Qed.

Lemma swap16_swap16 x : is_u16 x -> swap16 (swap16 x) = x.
Proof. unfold swap16. word. Qed.

Lemma land_low x n : 0 <= n -> Z.land x (2 ^ n - 1) = x mod 2 ^ n.
Proof. intros. rewrite <- Z.land_ones by done. by rewrite Z.ones_equiv. Qed.

Lemma land_ffff x : Z.land x 65535 = x mod 65536.
Proof. exact (land_low x 16 ltac:(lia)). Qed.

Lemma land_ff x : Z.land x 255 = x mod 256.
Proof. exact (land_low x 8 ltac:(lia)). Qed.

Lemma land_ffffffff x : Z.land x 4294967295 = x mod 4294967296.
Proof. exact (land_low x 32 ltac:(lia)). Qed.

Lemma shiftr16 v : Z.shiftr v 16 = v / 65536.
Proof. by rewrite Z.shiftr_div_pow2. Qed.

Lemma shiftr32 v : Z.shiftr v 32 = v / 4294967296.
Proof. by rewrite Z.shiftr_div_pow2. Qed.

(** The first folding step is one's complement addition of 32-bit halves ... *)
Lemma fold_32 s :
  is_u64 s ->
  let lower := s mod 4294967296 in let upper := s / 4294967296 in
  (if u32 (lower + upper) <? upper then u32 (u32 (lower + upper) + 1) else u32 (lower + upper))
  = ones_fold 4294967295 s.
Proof. unfold ones_fold. word. Qed.

(** ... and the second that of 16-bit halves. *)
Lemma fold_16 s :
  is_u32 s ->
  let lower := s mod 65536 in let upper := s / 65536 in
  (if u16 (lower + upper) <? upper then u16 (u16 (lower + upper) + 1) else u16 (lower + upper))
  = ones_fold 65535 s.
Proof. unfold ones_fold. word. Qed.

Lemma ones_fold_twice s : 0 <= s -> ones_fold 65535 (ones_fold 4294967295 s) = ones_fold 65535 s.
Proof.
  intros. apply ones_fold_cong; [unfold ones_fold; repeat case_Z; dlia..|].
  unfold ones_fold. destruct (Z.eqb_spec s 0) as [->|]; [done|].
  rewrite (Z.div_mod (s - 1) 4294967295) in * by lia. dlia.
Qed.

Lemma fold_sum64_spec s : is_u64 s -> fold_sum64 s = ones_fold 65535 s.
Proof.
  intros Hs. unfold fold_sum64. rewrite land_ffffffff, shiftr32.
  rewrite (u32_small (s / _)) by word. rewrite fold_32 by done.
  assert (is_u32 (ones_fold 4294967295 s)) by (unfold ones_fold; word).
  rewrite land_ffff, shiftr16, !(u16_small (ones_fold 4294967295 s mod _)), !(u16_small (_ / _)) by word.
  rewrite fold_16 by done. apply ones_fold_twice. unfold is_u64 in Hs. lia.
Qed.

Lemma psd_sum64_spec hdr len :
  is_u32 (src_addr hdr) -> is_u32 (dst_addr hdr) -> is_u8 (next_proto_id hdr) -> is_u16 len ->
  psd_sum64 hdr len =
  u64 (src_addr hdr + dst_addr hdr + next_proto_id hdr * 16777216 + len
       - (if 128 <=? next_proto_id hdr then 4294967296 else 0)).
Proof.
  intros. unfold psd_sum64. rewrite lor_shiftl by word.
  change (2 ^ 24) with 16777216. word.
Qed.

Section ipv4.
Context `{RteIpLaws}.

Lemma bswap16_swap16 x : is_u16 x -> rte_bswap16 x = swap16 x.
Proof. apply law_bswap16. Qed.

(** The branch on the low byte only picks the cheaper way to subtract. *)
Lemma psd_len_spec tl : is_u16 tl -> 20 <= tl -> psd_len (swap16 tl) = swap16 (tl - 20).
Proof.
  intros Hr Hl. unfold psd_len. rewrite law_sizeof_ipv4, land_ff, shiftr8.
  rewrite !bswap16_swap16, swap16_swap16 by (unfold swap16; word).
  rewrite Z.shiftl_mul_pow2 by lia. change (2 ^ 8) with 256. unfold c_true, swap16.
  case_match eqn:E; [word|]. apply negb_false_iff in E. word.
Qed.

(** What the routine returns, for every protocol number: for protocols from 128
    on the sign extension takes [2^32] off a sum that reaches it. *)
Lemma get_ipv4_psd_sum_spec hdr tl :
  is_u32 (src_addr hdr) -> is_u32 (dst_addr hdr) -> is_u8 (next_proto_id hdr) -> is_u16 tl ->
  20 <= tl -> total_length hdr = swap16 tl ->
  let s := src_addr hdr + dst_addr hdr + next_proto_id hdr * 16777216 + swap16 (tl - 20) in
  get_ipv4_psd_sum hdr =
  ones_fold 65535 (if (128 <=? next_proto_id hdr) && (4294967296 <=? s) then s - 4294967296 else s).
Proof.
  intros Hs Hd Hp Ht Hl Etl s. unfold get_ipv4_psd_sum. rewrite Etl, psd_len_spec by done.
  assert (is_u16 (swap16 (tl - 20))) by (unfold swap16; word).
  rewrite psd_sum64_spec by done. fold s. rewrite fold_sum64_spec by apply u64_range.
  assert (0 <= s < 18446744073709551616) by (subst s; word).
  destruct (Z.leb_spec 128 (next_proto_id hdr)); simpl.
  - assert (2147483648 <= s) by (subst s; word). destruct (Z.leb_spec 4294967296 s).
    + f_equal. word.
    + apply ones_fold_cong; word.
  - f_equal. word.
Qed.

End ipv4.

(** ** Bytes in network order *)
Ltac get_byte bs i b E :=
  let Hs := fresh in
  assert (is_Some (ld8 bs i)) as Hs by (apply ld8_Some; lia);
  destruct Hs as [b E].

Lemma be16_range bs off v : is_bytes bs -> be16 bs off = Some v -> is_u16 v.
Proof.
  unfold be16. intros Hb Hl.
  destruct (ld8 bs off) as [b0|] eqn:E0; simpl in Hl; [|done].
  destruct (ld8 bs (off + 1)) as [b1|] eqn:E1; simpl in Hl; [|done]. simplify_eq.
  apply ld8_range in E0, E1; [|done..]. word.
Qed.

(** The two readings of a field differ by a byte swap. *)
Lemma ld16_be16 bs off v : is_bytes bs -> be16 bs off = Some v -> ld16 bs off = Some (swap16 v).
Proof.
  unfold be16, ld16. intros Hb Hl.
  destruct (ld8 bs off) as [b0|] eqn:E0; simpl in Hl; [|done].
  destruct (ld8 bs (off + 1)) as [b1|] eqn:E1; simpl in Hl; [|done]. simplify_eq.
  apply ld8_range in E0, E1; [|done..]. simpl. f_equal. unfold swap16. word.
Qed.

Lemma be16_ld16 bs off v : is_bytes bs -> ld16 bs off = Some v -> be16 bs off = Some (swap16 v).
Proof.
  unfold be16, ld16. intros Hb Hl.
  destruct (ld8 bs off) as [b0|] eqn:E0; simpl in Hl; [|done].
  destruct (ld8 bs (off + 1)) as [b1|] eqn:E1; simpl in Hl; [|done]. simplify_eq.
  apply ld8_range in E0, E1; [|done..]. simpl. f_equal. unfold swap16. word.
Qed.

Lemma st16_is_bytes bs off v bs' : is_bytes bs -> st16 bs off v = Some bs' -> is_bytes bs'.
Proof.
  intros Hb (_ & _ & ->)%st16_inv. apply Forall_insert; [|apply u8_range].
  apply Forall_insert; [done|apply u8_range].
Qed.

Lemma be16_st16 bs off v bs' :
  is_bytes bs -> is_u16 v -> st16 bs off v = Some bs' -> be16 bs' off = Some (swap16 v).
Proof.
  intros Hb Hv Hs. apply be16_ld16; [by eapply st16_is_bytes|]. by eapply ld16_st16.
Qed.

(** [pkt'] differs from [pkt] at most in the two bytes from [off]. *)
Definition only_field16 (pkt pkt' : list Z) (off : Z) : Prop :=
  length pkt' = length pkt /\ forall i, i <> off -> i <> off + 1 -> ld8 pkt' i = ld8 pkt i.

Section ipv4_packets.
Context `{RteIpLaws}.

Lemma load_ipv4_spec pkt :
  is_bytes pkt -> 34 <= Z.of_nat (length pkt) ->
  exists hdr tl hl s,
    load_ipv4 pkt 14 = Some hdr /\ be16 pkt 16 = Some tl /\ total_length hdr = swap16 tl /\
    ld8 pkt 23 = Some (next_proto_id hdr) /\ ipv4_header_length pkt = Some hl /\ ipv4_pseudo_header_sum pkt = Some s /\
    is_u16 tl /\ is_u32 (src_addr hdr) /\ is_u32 (dst_addr hdr) /\ is_u8 (next_proto_id hdr) /\
    (20 <= tl -> 0 <= s + (hl - 20) /\
       let s' := src_addr hdr + dst_addr hdr + next_proto_id hdr * 16777216 + swap16 (tl - 20) in
       ones_fold 65535 s' = swap16 (ones_fold 65535 (s + (hl - 20)))).
Proof.
  intros Hb Hl. get_byte pkt 14 v Ev. get_byte pkt 16 t0 Et0. get_byte pkt 17 t1 Et1. get_byte pkt 23 p Ep.
  get_byte pkt 26 a0 Ea0. get_byte pkt 27 a1 Ea1. get_byte pkt 28 a2 Ea2. get_byte pkt 29 a3 Ea3.
  get_byte pkt 30 d0 Ed0. get_byte pkt 31 d1 Ed1. get_byte pkt 32 d2 Ed2. get_byte pkt 33 d3 Ed3.
  exists (mk_ipv4 (t0 + 256 * t1) p (a0 + 256 * a1 + 65536 * (a2 + 256 * a3))
            (d0 + 256 * d1 + 65536 * (d2 + 256 * d3))), (256 * t0 + t1),
         (4 * (v mod 16)),
         (256 * a0 + a1 + (256 * a2 + a3) + (256 * d0 + d1) + (256 * d2 + d3) + p + (256 * t0 + t1 - 4 * (v mod 16))).
  split.
  { unfold load_ipv4, ld32, ld16. rewrite law_total_length, law_next_proto_id, law_src_addr, law_dst_addr.
    zconst. rewrite Et0, Et1, Ep, Ea0, Ea1, Ea2, Ea3, Ed0, Ed1, Ed2, Ed3. done. }
  split; [unfold be16; zconst; by rewrite Et0, Et1|].
  apply ld8_range in Et0 as Rt0; [|done]. apply ld8_range in Et1 as Rt1; [|done].
  apply ld8_range in Ep as Rp; [|done]. apply ld8_range in Ea0 as Ra0; [|done].
  apply ld8_range in Ea1 as Ra1; [|done]. apply ld8_range in Ea2 as Ra2; [|done].
  apply ld8_range in Ea3 as Ra3; [|done]. apply ld8_range in Ed0 as Rd0; [|done].
  apply ld8_range in Ed1 as Rd1; [|done]. apply ld8_range in Ed2 as Rd2; [|done].
  apply ld8_range in Ed3 as Rd3; [|done].
  split; [unfold swap16; simpl; word|]. split; [done|].
  split; [unfold ipv4_header_length; by rewrite Ev|].
  split. { unfold ipv4_pseudo_header_sum, ipv4_header_length, be16. zconst.
    rewrite Ev, Et0, Et1, Ep, Ea0, Ea1, Ea2, Ea3, Ed0, Ed1, Ed2, Ed3. done. }
  simpl. split; [word|]. split; [word|]. split; [word|]. split; [done|]. intros Ht.
  replace (_ + (256 * t0 + t1 - 4 * (v mod 16)) + (4 * (v mod 16) - 20))
    with (256 * a0 + a1 + (256 * a2 + a3) + (256 * d0 + d1) + (256 * d2 + d3) + p + (256 * t0 + t1 - 20)) by lia.
  split; [word|]. rewrite <- ones_fold_swap by word.
  apply ones_fold_cong; unfold swap16; word.
Qed.

(** A packet [calc_ipv4_pseudo_header_checksum] can be asked to work on: an IPv4
    header at byte 14 whose protocol number is below 128 and whose total length
    is at least that of the fixed header, with the checksum in the packet behind
    the fixed header.  [ipv4_packet]: and the header has no options. *)
Definition ipv4_header (offset : Z) (pkt : list Z) : Prop :=
  is_bytes pkt /\ 34 <= 2 * offset /\ 2 * offset + 2 <= Z.of_nat (length pkt) /\
  (exists tl, be16 pkt 16 = Some tl /\ 20 <= tl) /\ (exists p, ld8 pkt 23 = Some p /\ p < 128).
Definition ipv4_packet (offset : Z) (pkt : list Z) : Prop :=
  ipv4_header offset pkt /\ ipv4_header_length pkt = Some 20.

(** [pkt'] is [pkt] with the checksum [s] in network order at [2 * offset]. *)
Definition checksum_stored (offset s : Z) (pkt pkt' : list Z) : Prop :=
  be16 pkt' (2 * offset) = Some (ones_fold 65535 s) /\ only_field16 pkt pkt' (2 * offset).

Lemma store_checksum pkt offset s :
  is_bytes pkt -> 0 <= offset -> 2 * offset + 2 <= Z.of_nat (length pkt) -> 0 <= s ->
  exists pkt', st16 pkt (2 * offset) (swap16 (ones_fold 65535 s)) = Some pkt' /\
    checksum_stored offset s pkt pkt'.
Proof.
  intros Hb Ho Hl Hs. assert (is_u16 (swap16 (ones_fold 65535 s))) as R.
  { pose proof (ones_fold_range s). unfold swap16. word. }
  assert (E := st16_Some pkt (2 * offset) (swap16 (ones_fold 65535 s)) ltac:(lia) ltac:(lia)).
  eexists. split; [exact E|]. split.
  - erewrite be16_st16 by done. rewrite swap16_swap16; [done|]. by apply ones_fold_range.
  - split; [by eapply st16_length|]. intros. by eapply st16_other.
Qed.

Lemma calc_ipv4_header pkt offset :
  ipv4_header offset pkt ->
  exists hl s pkt', ipv4_header_length pkt = Some hl /\ ipv4_pseudo_header_sum pkt = Some s /\
    calc_ipv4_pseudo_header_checksum pkt offset = Some pkt' /\ checksum_stored offset (s + (hl - 20)) pkt pkt'.
Proof.
  intros (Hb & Ho & Hol & (tl & Etl & Ht) & (p & Ep & Hp)).
  destruct (load_ipv4_spec pkt) as (hdr & tl' & hl & s & Eh & Etl' & Eh1 & Ep' & Ehl & Es & R1 & R2 & R3 & R4 & Hs);
    [done|lia|]. simplify_eq. destruct (Hs Ht) as [Hs0 Hs1]. exists hl, s.
  destruct (store_checksum pkt offset (s + (hl - 20))) as (pkt' & E & Hst); [done|lia|done|done|].
  exists pkt'. split; [done|]. split; [done|]. split; [|done].
  unfold calc_ipv4_pseudo_header_checksum. rewrite Eh. simpl.
  erewrite get_ipv4_psd_sum_spec by done. cbv zeta in Hs1.
  rewrite (proj2 (Z.leb_gt 128 _)) by lia. simpl. by rewrite Hs1.
Qed.

Lemma calc_ipv4_stored pkt offset :
  ipv4_packet offset pkt ->
  exists s pkt', ipv4_pseudo_header_sum pkt = Some s /\
    calc_ipv4_pseudo_header_checksum pkt offset = Some pkt' /\ checksum_stored offset s pkt pkt'.
Proof.
  intros [Hh Hl]. destruct (calc_ipv4_header pkt offset Hh) as (hl & s & pkt' & El & Es & E & Hst). simplify_eq.
  exists s, pkt'. rewrite Z.add_0_r in Hst. done.
Qed.

(** Running it again changes nothing: the header is not touched. *)
Lemma calc_ipv4_again pkt offset pkt' :
  ipv4_packet offset pkt -> calc_ipv4_pseudo_header_checksum pkt offset = Some pkt' ->
  calc_ipv4_pseudo_header_checksum pkt' offset = Some pkt'.
Proof.
  unfold calc_ipv4_pseudo_header_checksum. intros [(Hb & Ho & Hol & _) _] E.
  destruct (load_ipv4 pkt 14) as [hdr|] eqn:Eh; simpl in E; [|done].
  assert (load_ipv4 pkt' 14 = Some hdr) as ->; [|by eapply st16_again].
  rewrite <- Eh. unfold load_ipv4, ld32, ld16.
  rewrite law_total_length, law_next_proto_id, law_src_addr, law_dst_addr. zconst.
  pose proof (fun i => st16_other _ _ _ _ i E) as Hi. by rewrite !Hi by lia.
Qed.

End ipv4_packets.

(** ** The 16-bit sum and IPv6 *)
Lemma words_sum_bounds l : is_bytes l -> 0 <= words_sum l.
Proof.
  revert l. fix IH 1. intros [|b0 [|b1 l]] Hl; simpl; [lia|apply Forall_cons in Hl; word|].
  apply Forall_cons in Hl as [? Hl]. apply Forall_cons in Hl as [? Hl]. specialize (IH l Hl). word.
Qed.

Lemma be_words_sum_bounds l : is_bytes l -> 0 <= be_words_sum l.
Proof.
  revert l. fix IH 1. intros [|b0 [|b1 l]] Hl; simpl; [lia|apply Forall_cons in Hl; word|].
  apply Forall_cons in Hl as [? Hl]. apply Forall_cons in Hl as [? Hl]. specialize (IH l Hl). word.
Qed.

Lemma be_words_sum_mod l :
  is_bytes l -> exists k, 0 <= k /\ 256 * be_words_sum l = words_sum l + 65535 * k.
Proof.
  revert l. fix IH 1. intros [|b0 [|b1 l]] Hl; simpl.
  - exists 0. lia.
  - apply Forall_cons in Hl as [? _]. exists b0. word.
  - apply Forall_cons in Hl as [? Hl]. apply Forall_cons in Hl as [? Hl].
    destruct (IH l Hl) as (k & ? & ?). exists (b0 + k). word.
Qed.

Lemma words_sum_swap l :
  is_bytes l -> ones_fold 65535 (words_sum l) = swap16 (ones_fold 65535 (be_words_sum l)).
Proof.
  intros Hl. pose proof (words_sum_bounds l Hl). pose proof (be_words_sum_bounds l Hl).
  destruct (be_words_sum_mod l Hl) as (k & ? & ?). rewrite <- ones_fold_swap by done.
  apply ones_fold_cong; [lia|lia| |].
  - destruct (be_words_sum_mod l Hl) as (k' & ? & ?). split; [|lia]. intros E0.
    assert (Forall (fun b => b = 0) l) as Hz; [|].
    { clear -E0 Hl. revert l E0 Hl. fix IH 1. intros [|b0 [|b1 l]] E0 Hl; [constructor|..].
      - simpl in E0. by constructor.
      - simpl in E0. apply Forall_cons in Hl as [? Hl]. apply Forall_cons in Hl as [? Hl].
        pose proof (words_sum_bounds l Hl). constructor; [word|]. constructor; [word|].
        apply IH; [word|done]. }
    assert (be_words_sum l = 0) as ->; [|lia].
    clear -Hz. revert l Hz. fix IH 1. intros [|b0 [|b1 l]] Hz; simpl; [lia|apply Forall_cons in Hz; lia|].
    apply Forall_cons in Hz as [? Hz]. apply Forall_cons in Hz as [? Hz]. rewrite (IH l Hz). lia.
  - replace (256 * be_words_sum l) with (words_sum l + k * 65535) by lia. by rewrite Z.mod_add.
Qed.

(** The loop keeps the sum folded into [0..65535]. *)
Lemma sum16_loop_spec (fuel : nat) pre l suf sum :
  is_bytes l -> 0 <= sum <= 65535 -> Z.of_nat (length l) < 4294967296 -> (length l <= fuel)%nat ->
  exists ptr nr sum',
    sum16_loop fuel (pre ++ l ++ suf) (Z.of_nat (length pre)) (Z.of_nat (length l)) sum
      = Some (ptr, nr, sum') /\ 0 <= sum' <= 65535 /\
    ((nr = 0 /\ ones_fold 65535 sum' = ones_fold 65535 (sum + words_sum l)) \/
     (nr = 1 /\ exists b, ld8 (pre ++ l ++ suf) ptr = Some b /\ is_u8 b /\
        ones_fold 65535 (sum' + b) = ones_fold 65535 (sum + words_sum l))).
Proof.
  revert pre l sum. induction fuel as [|fuel IH]; intros pre l sum Hl Hs Hn Hf.
  - destruct l; [|simpl in Hf; lia]. simpl. exists (Z.of_nat (length pre)), 0, sum.
    split; [done|]. split; [done|]. left. rewrite Z.add_0_r. done.
  - destruct l as [|b0 [|b1 l]].
    + simpl. eexists _, _, _. split; [done|]. split; [done|]. left. simpl. by rewrite Z.add_0_r.
    + simpl. eexists _, _, _. split; [done|]. split; [done|]. right. split; [done|]. exists b0.
      split; [rewrite ld8_app_r by lia; by rewrite Z.sub_diag|].
      apply Forall_cons in Hl as [? _]. done.
    + apply Forall_cons in Hl as [Hb0 Hl]. apply Forall_cons in Hl as [Hb1 Hl].
      cbn [sum16_loop]. rewrite (proj2 (Z.ltb_lt _ _)) by (simpl; lia).
      assert (ld16 (pre ++ (b0 :: b1 :: l) ++ suf) (Z.of_nat (length pre)) = Some (b0 + 256 * b1)) as ->.
      { rewrite ld16_app_r by lia. by rewrite Z.sub_diag. }
      cbn [mbind option_bind]. unfold UINT16_MAX.
      set (sum1 := if 65535 <? u32 (sum + (b0 + 256 * b1)) then _ else _).
      assert (0 <= sum1 <= 65535) by (subst sum1; word).
      destruct (IH (pre ++ [b0; b1]) l sum1) as (ptr & nr & sum' & E & R & Hr);
        [done|done|simpl in Hn; lia|simpl in Hf; lia|].
      assert (forall x, 0 <= x -> ones_fold 65535 (sum1 + x)
              = ones_fold 65535 (sum + (b0 + 256 * b1 + x))) as Hsum.
      { intros x Hx. subst sum1. apply ones_fold_cong; word. }
      assert (u32 (Z.of_nat (length (b0 :: b1 :: l)) - 2) = Z.of_nat (length l)) as Hnr
        by (simpl in *; word). rewrite Hnr.
      rewrite <- app_assoc, length_app in E. simpl in E.
      replace (Z.of_nat (length pre + 2)) with (Z.of_nat (length pre) + 2) in E by lia.
      exists ptr, nr, sum'. split; [exact E|]. split; [done|].
      rewrite <- app_assoc in Hr. simpl in Hr. simpl words_sum.
      rewrite Hsum in Hr by by apply words_sum_bounds. exact Hr.
Qed.

(** [get_16b_sum] returns the folded sum of a buffer of any length. *)
Lemma get_16b_sum_spec pre l suf :
  is_bytes l -> Z.of_nat (length l) < 4294967296 ->
  get_16b_sum (pre ++ l ++ suf) (Z.of_nat (length pre)) (Z.of_nat (length l))
    = Some (ones_fold 65535 (words_sum l)).
Proof.
  intros Hl Hn. unfold get_16b_sum. rewrite Nat2Z.id.
  destruct (sum16_loop_spec (length l) pre l suf 0) as (ptr & nr & sum' & -> & R & Hr); [done|lia|done|lia|].
  simpl. assert (forall s, 0 <= s <= 65790 ->
    u16 (Z.land (u32 (Z.shiftr (Z.land s 4294901760) 16 + Z.land s 65535)) 65535) = ones_fold 65535 s) as Hf.
  { intros s Hs. rewrite !land_ffff.
    assert (Z.shiftr (Z.land s 4294901760) 16 = s / 65536) as ->.
    { rewrite Z.shiftr_land, !shiftr16. change (4294901760 / 65536) with 65535.
      rewrite land_ffff. word. }
    unfold ones_fold. word. }
  destruct Hr as [[-> Hr]|(-> & b & -> & Hb & Hr)]; simpl.
  - by rewrite Hf, Hr by lia.
  - rewrite (u32_small (sum' + b)) by word. rewrite Hf by word. by rewrite Hr.
Qed.

Lemma be_words_sum_app l k :
  Nat.Even (length l) -> be_words_sum (l ++ k) = be_words_sum l + be_words_sum k.
Proof.
  revert l. fix IH 1. intros [|b0 [|b1 l]] He; simpl; [lia| |].
  - destruct He as [n He]. simpl in He. lia.
  - rewrite IH; [lia|]. destruct He as [n He]. exists (n - 1)%nat. simpl in He. lia.
Qed.

Lemma ld_bytes_is_bytes bs off n l : is_bytes bs -> ld_bytes bs off n = Some l -> is_bytes l.
Proof.
  unfold ld_bytes. intros Hb Hl. case_match; [|done]. simplify_eq. by apply Forall_take, Forall_drop.
Qed.

Lemma length_ld_bytes bs off n l : ld_bytes bs off n = Some l -> Z.of_nat (length l) = n.
Proof.
  unfold ld_bytes. intros Hl. case_match eqn:E; [|done]. simplify_eq.
  rewrite !andb_true_iff, !Z.leb_le in E. rewrite length_take, length_drop. lia.
Qed.

Lemma le32_u16 v : is_u16 v -> le32 v = [v mod 256; v / 256; 0; 0].
Proof.
  intros. unfold le32. rewrite !Z.shiftr_div_pow2 by lia.
  change (2 ^ 8) with 256. change (2 ^ 16) with 65536. change (2 ^ 24) with 16777216.
  repeat f_equal; word.
Qed.

Lemma le32_proto p : is_u8 p -> le32 (u32 (i32 (Z.shiftl p 24))) = [0; 0; 0; p].
Proof.
  intros. rewrite Z.shiftl_mul_pow2, u32_i32 by lia. unfold le32. rewrite !Z.shiftr_div_pow2 by lia.
  change (2 ^ 8) with 256. change (2 ^ 16) with 65536. change (2 ^ 24) with 16777216.
  rewrite u32_small by word. repeat f_equal; word.
Qed.

(** The stores that build [psd_hdr]. *)
Lemma psd_hdr_stores {A} (h addrs xs : list Z) (k : list Z -> option A) :
  length h = 40%nat -> length addrs = 32%nat -> length xs = 4%nat ->
  ((h ← st_bytes h 0 addrs; h ← st_bytes h 32 xs; k h) = k (addrs ++ xs ++ drop 36 h)).
Proof.
  intros Hh Ha Hx.
  assert (h = take 32 h ++ take 4 (drop 32 h) ++ drop 36 h) as E.
  { change 36%nat with (32 + 4)%nat. rewrite <- drop_drop. by rewrite !take_drop. }
  assert (st_bytes h 0 addrs = Some (addrs ++ take 4 (drop 32 h) ++ drop 36 h)) as ->.
  { rewrite E at 1. apply (st_bytes_app [] (take 32 h) addrs); [rewrite length_take; lia|done]. }
  cbn [mbind option_bind]. rewrite (st_bytes_app addrs (take 4 (drop 32 h)) xs); [done| |by rewrite Ha].
  rewrite length_take, length_drop. lia.
Qed.

Lemma psd_hdr_store_proto {A} (h addrs xs ys : list Z) (k : list Z -> option A) :
  length h = 40%nat -> length addrs = 32%nat -> length xs = 4%nat -> length ys = 4%nat ->
  ((h ← st_bytes (addrs ++ xs ++ drop 36 h) 36 ys; k h) = k (addrs ++ xs ++ ys)).
Proof.
  intros Hh Ha Hx Hy. rewrite app_assoc. rewrite <- (app_nil_r (drop 36 h)).
  rewrite (st_bytes_app (addrs ++ xs) (drop 36 h) ys []).
  - by rewrite app_nil_r, <- app_assoc.
  - rewrite length_drop. lia.
  - rewrite length_app. lia.
Qed.

Section ipv6_packets.
Context `{RteIpLaws}.

(** The upper-layer packet follows the fixed header. *)
Definition no_extension_headers (pkt : list Z) : Prop :=
  exists proto, ld8 pkt 20 = Some proto /\ proto ∉ ipv6_extension_headers.

(** The structure on the stack is overwritten completely. *)
Lemma get_ipv6_psd_sum_spec psd_hdr pkt :
  length psd_hdr = 40%nat -> is_bytes pkt -> 54 <= Z.of_nat (length pkt) -> no_extension_headers pkt ->
  exists s, ipv6_pseudo_header_sum pkt = Some s /\ 0 <= s /\
    get_ipv6_psd_sum psd_hdr pkt 14 = Some (swap16 (ones_fold 65535 s)).
Proof.
  intros Hh Hb Hl (p & Ep & Hne). get_byte pkt 18 l0 El0. get_byte pkt 19 l1 El1.
  apply ld8_range in El0 as Rl0; [|done]. apply ld8_range in El1 as Rl1; [|done].
  apply ld8_range in Ep as Rp; [|done].
  destruct (ld_bytes pkt 22 32) as [addrs|] eqn:Ea; [|rewrite ld_bytes_Some in Ea by lia; done].
  pose proof (ld_bytes_is_bytes _ _ _ _ Hb Ea) as Ha. pose proof (length_ld_bytes _ _ _ _ Ea) as Hla.
  assert (Z.of_nat (length addrs) = 32) as Hla' by done. apply (inj Z.of_nat _ 32%nat) in Hla.
  exists (be_words_sum addrs + p + (256 * l0 + l1)).
  split. { unfold ipv6_pseudo_header_sum, be16. rewrite Ea. zconst. simpl. rewrite Ep, El0, El1. simpl. by rewrite bool_decide_eq_false_2. }
  pose proof (be_words_sum_bounds addrs Ha). split; [word|].
  unfold get_ipv6_psd_sum. rewrite law_src_addr6, law_payload_len, law_proto, law_memcpy. zconst.
  rewrite Ea. unfold ld16. zconst. rewrite El0, El1. simpl.
  rewrite le32_u16 by word. rewrite psd_hdr_stores by done.
  rewrite Ep. cbn [mbind option_bind]. rewrite le32_proto by done.
  set (b0 := (l0 + 256 * l1) mod 256). set (b1 := (l0 + 256 * l1) / 256).
  rewrite psd_hdr_store_proto by done. simpl.
  pose proof (get_16b_sum_spec [] (addrs ++ [b0; b1; 0; 0; 0; 0; 0; p]) []) as E.
  rewrite length_app, Hla, app_nil_r in E. change (Z.of_nat (32 + length [b0; b1; 0; 0; 0; 0; 0; p])) with 40 in E.
  rewrite app_nil_l in E. change (Z.of_nat (length [])) with 0 in E. rewrite E; clear E; [|apply Forall_app; split; [done|]|lia].
  - f_equal. rewrite words_sum_swap; [|apply Forall_app; split; [done|]].
    + f_equal. f_equal. rewrite be_words_sum_app by (exists 16%nat; lia). simpl.
      subst b0 b1. word.
    + subst b0 b1. repeat constructor; word.
  - subst b0 b1. repeat constructor; word.
Qed.

(** An IPv6 packet without extension headers, with the checksum in the packet
    behind the fixed header. *)
Definition ipv6_packet (offset : Z) (pkt : list Z) : Prop :=
  is_bytes pkt /\ 54 <= 2 * offset /\ 2 * offset + 2 <= Z.of_nat (length pkt) /\ no_extension_headers pkt.

Lemma calc_ipv6_stored psd_hdr pkt offset :
  length psd_hdr = 40%nat -> ipv6_packet offset pkt ->
  exists s pkt', ipv6_pseudo_header_sum pkt = Some s /\
    calc_ipv6_pseudo_header_checksum psd_hdr pkt offset = Some pkt' /\ checksum_stored offset s pkt pkt'.
Proof.
  intros Hh (Hb & Ho & Hol & Hne). destruct (get_ipv6_psd_sum_spec psd_hdr pkt) as (s & Es & Hs & E); [done|done|lia|done|].
  exists s. destruct (store_checksum pkt offset s) as (pkt' & Est & Hst); [done|lia|done|done|].
  exists pkt'. split; [done|]. split; [|done].
  unfold calc_ipv6_pseudo_header_checksum. by rewrite E.
Qed.

Lemma calc_ipv6_again psd_hdr pkt offset pkt' :
  ipv6_packet offset pkt -> calc_ipv6_pseudo_header_checksum psd_hdr pkt offset = Some pkt' ->
  calc_ipv6_pseudo_header_checksum psd_hdr pkt' offset = Some pkt'.
Proof.
  unfold calc_ipv6_pseudo_header_checksum. intros (Hb & Ho & Hol & _) E.
  destruct (get_ipv6_psd_sum psd_hdr pkt 14) as [c|] eqn:Ec; simpl in E; [|done].
  assert (get_ipv6_psd_sum psd_hdr pkt' 14 = Some c) as ->; [|by eapply st16_again].
  rewrite <- Ec. unfold get_ipv6_psd_sum, ld16.
  rewrite law_src_addr6, law_payload_len, law_proto, !law_memcpy. zconst.
  pose proof (fun i => st16_other _ _ _ _ i E) as Hi.
  rewrite (ld_bytes_ext pkt' pkt); [|by eapply st16_length|intros; apply Hi; lia].
  by rewrite !Hi by lia.
Qed.

End ipv6_packets.

(** ** Arrays of packets *)
Section for_each.
Context (calc : list Z -> Z -> option (list Z)) (offset : Z) (good : list Z -> Prop).
Context (calc_again : forall p p', good p -> calc p offset = Some p' -> calc p' offset = Some p').
Context (calc_good : forall p p', good p -> calc p offset = Some p' -> good p').

(** An mbuf that occurs twice is computed twice, with the same result. *)
Lemma for_each_mbuf_spec n : forall m data,
  (n <= length data)%nat ->
  (forall b, b ∈ take n data -> exists p p', m !! b = Some p /\ good p /\ calc p offset = Some p') ->
  exists m', for_each_mbuf calc m data n offset = Some m' /\
    (forall b p, b ∈ take n data -> m !! b = Some p -> m' !! b = calc p offset) /\
    (forall b, b ∉ take n data -> m' !! b = m !! b).
Proof.
  induction n as [|n IH]; intros m data Hn Hd; simpl.
  { exists m. split; [done|]. split; [|done]. intros b p Hb. by apply elem_of_nil in Hb. }
  destruct data as [|b0 data]; [simpl in Hn; lia|]. simpl in Hd.
  destruct (Hd b0) as (p0 & p0' & Em & Hg & Ec); [left|]. rewrite Em. simpl. rewrite Ec. simpl.
  destruct (IH (<[b0 := p0']> m) data) as (m' & E & Hin & Hout); [simpl in Hn; lia| |].
  { intros b Hb. destruct (decide (b = b0)) as [->|Hne].
    - exists p0', p0'. rewrite lookup_insert_eq. eauto.
    - rewrite lookup_insert_ne by done. apply Hd. by right. }
  exists m'. split; [done|]. split.
  - intros b p Hb Hp. destruct (decide (b ∈ take n data)) as [Hi|Hni].
    + destruct (decide (b = b0)) as [->|Hne].
      * rewrite (Hin b0 p0') by (done || apply lookup_insert_eq).
        simplify_eq. rewrite Ec. eauto.
      * apply Hin; [done|]. by rewrite lookup_insert_ne.
    + rewrite Hout by done. apply elem_of_cons in Hb as [->|Hb]; [|done].
      rewrite lookup_insert_eq. simplify_eq. done.
  - intros b Hb. apply not_elem_of_cons in Hb as [Hne Hb]. rewrite Hout by done.
    by rewrite lookup_insert_ne.
Qed.
End for_each.

Lemma only_field_ipv4_packet `{RteIpLaws} offset pkt pkt' :
  ipv4_packet offset pkt -> is_bytes pkt' -> only_field16 pkt pkt' (2 * offset) -> ipv4_packet offset pkt'.
Proof.
  intros [(Hb & Ho & Hol & Ht & Hp) Hhl] Hb' [Hl Hi]. unfold ipv4_packet, ipv4_header. rewrite Hl.
  unfold be16, ipv4_header_length in *. by rewrite !Hi by lia.
Qed.

Section arrays.
Context `{RteIpLaws}.

(** C36. [calc_ipv4_pseudo_header_checksums] on the first [n] mbufs of an array
    (an mbuf may occur several times), when each of them holds a packet without
    IPv4 options, of a protocol number below 128, with a total length from 20 on
    and the two bytes at [2 * offset] in the packet behind the IPv4 header: every
    packet gets, in network order, the one's complement sum of its RFC 768 pseudo
    header in these two bytes, keeps all its other bytes, and no other packet
    changes. *)
Theorem ipv4_checksums_array (m : gmap Z (list Z)) (data : list Z) (n offset : Z) :
  0 <= n <= Z.of_nat (length data) ->
  (forall b, b ∈ take (Z.to_nat n) data -> exists pkt, m !! b = Some pkt /\ ipv4_packet offset pkt) ->
  exists m', calc_ipv4_pseudo_header_checksums m data n offset = Some m' /\
    (forall b pkt, b ∈ take (Z.to_nat n) data -> m !! b = Some pkt ->
       exists s pkt', ipv4_pseudo_header_sum pkt = Some s /\ m' !! b = Some pkt' /\
         checksum_stored offset s pkt pkt') /\
    (forall b, b ∉ take (Z.to_nat n) data -> m' !! b = m !! b).
Proof.
  intros Hn Hd.
  destruct (for_each_mbuf_spec calc_ipv4_pseudo_header_checksum offset (ipv4_packet offset)
    (fun p p' => calc_ipv4_again p offset p')) with (n := Z.to_nat n) (m := m) (data := data)
    as (m' & E & Hin & Hout); [|lia| |].
  - intros p p' Hp Ec. destruct (calc_ipv4_stored p offset Hp) as (s & p1 & _ & E1 & _ & Ho).
    rewrite Ec in E1. simplify_eq. eapply only_field_ipv4_packet; [done| |done].
    unfold calc_ipv4_pseudo_header_checksum in Ec. destruct Hp as [[Hb _] _].
    destruct (load_ipv4 p 14); simpl in Ec; [|done]. by eapply st16_is_bytes.
  - intros b (p & Ep & Hp)%Hd. destruct (calc_ipv4_stored p offset Hp) as (s & p1 & _ & E1 & _). eauto.
  - exists m'. split; [done|]. split; [|done]. intros b pkt Hb Ep.
    destruct (Hd b Hb) as (p & Ep' & Hp). simplify_eq.
    destruct (calc_ipv4_stored pkt offset Hp) as (s & p1 & Es & E1 & Hst).
    exists s, p1. rewrite (Hin b pkt) by done. done.
Qed.

(** C37. [calc_ipv6_pseudo_header_checksums] on the first [n] mbufs of an array, when
    each of them holds a packet without extension headers, with the two bytes at
    [2 * offset] in the packet behind the fixed header: every packet gets, in
    network order, the one's complement sum of its RFC 8200 pseudo header in these
    two bytes, whatever the uninitialised structure on the stack held, keeps all
    its other bytes, and no other packet changes. *)
Theorem ipv6_checksums_array (psd_hdr : list Z) (m : gmap Z (list Z)) (data : list Z) (n offset : Z) :
  length psd_hdr = 40%nat -> 0 <= n <= Z.of_nat (length data) ->
  (forall b, b ∈ take (Z.to_nat n) data -> exists pkt, m !! b = Some pkt /\ ipv6_packet offset pkt) ->
  exists m', calc_ipv6_pseudo_header_checksums psd_hdr m data n offset = Some m' /\
    (forall b pkt, b ∈ take (Z.to_nat n) data -> m !! b = Some pkt ->
       exists s pkt', ipv6_pseudo_header_sum pkt = Some s /\ m' !! b = Some pkt' /\
         checksum_stored offset s pkt pkt') /\
    (forall b, b ∉ take (Z.to_nat n) data -> m' !! b = m !! b).
Proof.
  intros Hh Hn Hd.
  destruct (for_each_mbuf_spec (calc_ipv6_pseudo_header_checksum psd_hdr) offset (ipv6_packet offset)
    (fun p p' => calc_ipv6_again psd_hdr p offset p')) with (n := Z.to_nat n) (m := m) (data := data)
    as (m' & E & Hin & Hout); [|lia| |].
  - intros p p' Hp Ec. unfold calc_ipv6_pseudo_header_checksum in Ec.
    destruct (get_ipv6_psd_sum psd_hdr p 14); simpl in Ec; [|done]. destruct Hp as (Hb & Ho & Hl & pr & Epr & Hne).
    split; [by eapply st16_is_bytes|]. rewrite (st16_length _ _ _ _ Ec). split; [done|]. split; [done|].
    exists pr. by rewrite (st16_other _ _ _ _ 20 Ec) by lia.
  - intros b (p & Ep & Hp)%Hd. destruct (calc_ipv6_stored psd_hdr p offset Hh Hp) as (s & p1 & _ & E1 & _). eauto.
  - exists m'. split; [done|]. split; [|done]. intros b pkt Hb Ep.
    destruct (Hd b Hb) as (p & Ep' & Hp). simplify_eq.
    destruct (calc_ipv6_stored psd_hdr pkt offset Hh Hp) as (s & p1 & Es & E1 & Hst).
    exists s, p1. rewrite (Hin b pkt) by done. done.
Qed.

(** A header with options is not part of the datagram, but the routine only takes
    the fixed header off: the sum is too large by the length of the options. *)
Theorem ipv4_options_counted (pkt : list Z) (offset hl : Z) :
  ipv4_header offset pkt -> ipv4_header_length pkt = Some hl ->
  exists s pkt', ipv4_pseudo_header_sum pkt = Some s /\ calc_ipv4_pseudo_header_checksum pkt offset = Some pkt' /\
    checksum_stored offset (s + (hl - 20)) pkt pkt'.
Proof.
  intros Hh Hl. destruct (calc_ipv4_header pkt offset Hh) as (hl' & s & pkt' & El & Hs). simplify_eq. by exists s, pkt'.
Qed.

(** For a protocol number of 128 or more the sign extension of
    [next_proto_id << 24] takes one off the sum as soon as the 32-bit words add
    up to [2^32]: the result is that of the pseudo header only below it. *)
Theorem ipv4_psd_sum_high_proto (hdr : rte_ipv4_hdr) (tl : Z) :
  is_u32 (src_addr hdr) -> is_u32 (dst_addr hdr) -> is_u8 (next_proto_id hdr) -> is_u16 tl ->
  20 <= tl -> total_length hdr = swap16 tl -> 128 <= next_proto_id hdr ->
  let s := src_addr hdr + dst_addr hdr + next_proto_id hdr * 16777216 + swap16 (tl - 20) in
  get_ipv4_psd_sum hdr =
    ones_fold 65535 (if 4294967296 <=? s then s - 4294967296 else s) /\
  (get_ipv4_psd_sum hdr = ones_fold 65535 s <-> s < 4294967296).
Proof.
  intros Hs Hd Hp Ht Hl Etl Hhi s. rewrite (get_ipv4_psd_sum_spec hdr tl) by done. fold s.
  rewrite (proj2 (Z.leb_le 128 _)) by done. simpl. split; [done|].
  assert (0 < s) by (subst s; unfold swap16; word).
  destruct (Z.leb_spec 4294967296 s); [|done]. split; [|lia].
  intros Heq. exfalso. unfold ones_fold in Heq. repeat case_Z; dlia.
Qed.
End arrays.

(** ** A concrete DPDK *)
Module RteIpImpl.
#[global] Instance ops : RteIp := {|
  sizeof_ipv4_hdr := 20; off_total_length := 2; off_next_proto_id := 9;
  off_src_addr := 12; off_dst_addr := 16;
  off_payload_len := 4; off_proto := 6; off_src_addr6 := 8;
  rte_bswap16 x := x / 256 + 256 * (x mod 256);
  rte_memcpy dst doff src soff n := bs ← ld_bytes src soff n; st_bytes dst doff bs
|}.
#[global] Instance laws : RteIpLaws.
Proof. split; done. Qed.
End RteIpImpl.

(** A UDP packet of 10.0.0.1 for 10.0.0.2 with 8 payload bytes. *)
Definition sample_ipv4 : list Z :=
  [0;1;2;3;4;5; 6;7;8;9;10;11; 8;0;
   69;0; 0;36; 0;0; 0;0; 64;17; 0;0; 10;0;0;1; 10;0;0;2;
   4;210; 22;46; 0;16; 0;0; 1;2;3;4;5;6;7;8].

Definition sample_ipv6 : list Z :=
  [0;1;2;3;4;5; 6;7;8;9;10;11; 134;221;
   96;0;0;0; 0;8; 17;64; 253;0;0;0;0;0;0;0;0;0;0;0;0;0;0;1; 253;0;0;0;0;0;0;0;0;0;0;0;0;0;0;2;
   4;210; 22;46; 0;8; 0;0].

Lemma is_bytes_dec_true l : forallb (fun b => (0 <=? b) && (b <? 256)) l = true -> is_bytes l.
Proof.
  intros Hl. apply Forall_forall. intros b Hb. rewrite forallb_forall in Hl.
  apply list_elem_of_In in Hb. specialize (Hl b Hb).
  apply andb_true_iff in Hl as [?%Z.leb_le ?%Z.ltb_lt]. split; done.
Qed.

Lemma sample_ipv4_ok : ipv4_packet 20 sample_ipv4.
Proof.
  split; [|reflexivity]. split; [by apply is_bytes_dec_true|]. split; [lia|]. split; [simpl; lia|].
  split; [exists 36|exists 17]; split; done || lia.
Qed.

Lemma sample_ipv6_ok : ipv6_packet 30 sample_ipv6.
Proof.
  split; [by apply is_bytes_dec_true|]. split; [lia|]. split; [simpl; lia|]. exists 17. split; [reflexivity|].
  apply (bool_decide_unpack _). vm_compute. exact I.
Qed.

Lemma ipv4_checksums_array_witness :
  exists m', calc_ipv4_pseudo_header_checksums {[ 4096 := sample_ipv4 ]} [4096; 4096] 2 20 = Some m' /\
    (m' !! 4096) ≫= (fun p => be16 p 40) = Some (ones_fold 65535 5156).
Proof.
  destruct (ipv4_checksums_array {[ 4096 := sample_ipv4 ]} [4096; 4096] 2 20) as (m' & E & Hin & _).
  - simpl; lia.
  - intros b Hb. exists sample_ipv4. split; [|apply sample_ipv4_ok].
    simpl in Hb. set_unfold in Hb. destruct Hb as [->|[->|[]]]; apply lookup_singleton_eq.
  - exists m'. split; [done|].
    destruct (Hin 4096 sample_ipv4) as (s & p & Es & Em & Hst & _); [left|apply lookup_singleton_eq|].
    rewrite Em. vm_compute in Es. injection Es as <-. exact Hst.
Defined.

Lemma ipv6_checksums_array_witness :
  exists m', calc_ipv6_pseudo_header_checksums (replicate 40 170) {[ 4096 := sample_ipv6 ]} [4096] 1 30 = Some m' /\
    is_Some (m' !! 4096).
Proof.
  destruct (ipv6_checksums_array (replicate 40 170) {[ 4096 := sample_ipv6 ]} [4096] 1 30) as (m' & E & Hin & _).
  - done.
  - simpl; lia.
  - intros b Hb. exists sample_ipv6. split; [|apply sample_ipv6_ok].
    simpl in Hb. set_unfold in Hb. destruct Hb as [->|[]]; apply lookup_singleton_eq.
  - exists m'. split; [done|].
    destruct (Hin 4096 sample_ipv6) as (s & p & Es & Em & Hst & _); [left|apply lookup_singleton_eq|].
    rewrite Em. eauto.
Defined.

(** SCTP between two high addresses: the stored sum is one too small. *)
Lemma ipv4_psd_sum_high_proto_witness :
  get_ipv4_psd_sum (mk_ipv4 (swap16 40) 132 4294967295 4294967295) = 38911 /\
  ones_fold 65535 (4294967295 + 4294967295 + 132 * 16777216 + swap16 20) = 38912.
Proof.
  destruct (ipv4_psd_sum_high_proto (mk_ipv4 (swap16 40) 132 4294967295 4294967295) 40) as [E _];
    [unfold is_u32, is_u8, is_u16; simpl; lia..|].
  rewrite E. vm_compute. done.
Defined.
