(* ===== verification/Mbuf.v ===== *)
(** * Packet buffers

    DPDK's [struct rte_mbuf] as far as libmoon's C code touches it: the fields
    it stores to, [rte_pktmbuf_reset] and the memory pool's allocators.  The
    fields are read and written by plain C stores, so they are a record; the two
    DPDK functions are the interface [RteMempool]. *)
From S2P Require Import Prelude.

Record rte_mbuf := mk_mbuf {
  refcnt : Z;
  pkt_len : Z;          (* uint32_t *)
  data_len : Z;         (* uint16_t *)
  timestamp : Z;        (* the dynamic field, uint64_t *)
  pkt_data : list Z     (* the bytes from rte_pktmbuf_mtod on *)
}.

Definition set_refcnt (v : Z) (m : rte_mbuf) : rte_mbuf :=
  mk_mbuf v (pkt_len m) (data_len m) (timestamp m) (pkt_data m).
Definition set_pkt_len (v : Z) (m : rte_mbuf) : rte_mbuf :=
  mk_mbuf (refcnt m) v (data_len m) (timestamp m) (pkt_data m).
Definition set_data_len (v : Z) (m : rte_mbuf) : rte_mbuf :=
  mk_mbuf (refcnt m) (pkt_len m) v (timestamp m) (pkt_data m).
Definition set_pkt_data (v : list Z) (m : rte_mbuf) : rte_mbuf :=
  mk_mbuf (refcnt m) (pkt_len m) (data_len m) (timestamp m) v.

(** src/src/timestamping.c: the dynamic field at the registered offset. *)
Definition get_timestamp_dynfield (m : rte_mbuf) : Z := timestamp m.
Definition set_timestamp_dynfield (m : rte_mbuf) (ts : Z) : rte_mbuf :=
  mk_mbuf (refcnt m) (pkt_len m) (data_len m) (u64 ts) (pkt_data m).
(** DPDK's memory pool: [rte_mempool_get_bulk] takes exactly [n] objects or
    fails and takes none; [rte_pktmbuf_alloc] takes one. *)
Class RteMempool (pool : Type) := {
  rte_mempool_get_bulk : pool -> Z -> option (list Z * pool);
  rte_pktmbuf_alloc : pool -> option (Z * pool);
  rte_pktmbuf_reset : rte_mbuf -> rte_mbuf
}.

(** The documented behaviour: the objects of one request are different, and a
    reset leaves the reference count, the data area and the dynamic fields
    alone. *)
Class RteMempoolLaws (pool : Type) `{RteMempool pool} : Prop := {
  law_get_bulk p n l p' :
    rte_mempool_get_bulk p n = Some (l, p') -> Z.of_nat (length l) = n /\ NoDup l;
  law_reset_refcnt m : refcnt (rte_pktmbuf_reset m) = refcnt m;
  law_reset_data m : pkt_data (rte_pktmbuf_reset m) = pkt_data m;
  law_reset_timestamp m : timestamp (rte_pktmbuf_reset m) = timestamp m
}.

(** ** A concrete pool: the list of its free buffers *)
Module ListPool.
#[global] Instance ops : RteMempool (list Z) := {|
  rte_mempool_get_bulk p n :=
    if (0 <=? n) && (n <=? Z.of_nat (length p)) && bool_decide (NoDup p)
    then Some (take (Z.to_nat n) p, drop (Z.to_nat n) p) else None;
  rte_pktmbuf_alloc p := match p with [] => None | b :: p' => Some (b, p') end;
  rte_pktmbuf_reset m := set_pkt_len 0 (set_data_len 0 m)
|}.
#[global] Instance laws : RteMempoolLaws (list Z).
Proof.
  split; [|done..]. simpl. intros p n l p' Hg. case_match eqn:E; [|done]. simplify_eq.
  apply andb_true_iff in E as [[?%Z.leb_le ?%Z.leb_le]%andb_true_iff Hd%bool_decide_eq_true].
  split; [rewrite length_take; lia|]. rewrite <- (take_drop (Z.to_nat n) p) in Hd.
  by apply NoDup_app in Hd as [? _].
Qed.
End ListPool.
