(* ===== verification/Memory.v ===== *)
(** * Packet buffer pools (src/src/memory.c)

    [init_mem] names and creates a pool under a spinlock; [alloc_mbufs] takes
    buffers from a pool and prepares them in an unrolled loop (Duff's device).
    The mbufs of the process are a map from addresses to [rte_mbuf]. *)
From S2P Require Import Prelude Mbuf.

Section code.
Context {pool : Type} `{RteMempool pool}.

(** One of the four copies of the loop body: [bufs[i]] must exist and point to
    an mbuf. *)
Definition init_buf (bufs : list Z) (i pkt_len : Z) (m : gmap Z rte_mbuf) : option (gmap Z rte_mbuf) :=
  b ← bufs !! Z.to_nat i;
  x ← m !! b;
  Some (<[b := set_data_len pkt_len (set_pkt_len pkt_len (rte_pktmbuf_reset (set_refcnt 1 x)))]> m).

(** The [case] labels in the order of the text; control falls through to the end
    of the [while] body. *)
Inductive label := case0 | case3 | case2 | case1.

Definition switch (n : Z) : option label :=
  if n =? 0 then Some case0 else if n =? 3 then Some case3
  else if n =? 2 then Some case2 else if n =? 1 then Some case1 else None.

Definition next_label (l : label) : option label :=
  match l with case0 => Some case3 | case3 => Some case2 | case2 => Some case1 | case1 => None end.

(** The statements from a label to the end of the body; [i] is a [uint32_t]. *)
Fixpoint fall_through (fuel : nat) (l : label) (bufs : list Z) (i pkt_len : Z) (m : gmap Z rte_mbuf)
  : option (gmap Z rte_mbuf * Z) :=
  match fuel with
  | O => None
  | S fuel =>
      m ← init_buf bufs i pkt_len m;
      let i := u32 (i + 1) in
      match next_label l with
      | Some l' => fall_through fuel l' bufs i pkt_len m
      | None => Some (m, i)
      end
  end.

(** [while (i != len)]: the body starts at [case 0]. *)
Fixpoint while_loop (fuel : nat) (bufs : list Z) (i len pkt_len : Z) (m : gmap Z rte_mbuf)
  : option (gmap Z rte_mbuf) :=
  if i =? len then Some m
  else match fuel with
       | O => None
       | S fuel =>
           '(m, i) ← fall_through 4 case0 bufs i pkt_len m;
           while_loop fuel bufs i len pkt_len m
       end.

(** The buffers taken, the pool and the mbufs afterwards.  The result of
    [rte_mempool_get_bulk] is not looked at: when it fails the array keeps its
    old contents.  The [switch] jumps into the loop. *)
Definition alloc_mbufs (fuel : nat) (mp : pool) (bufs : list Z) (len pkt_len : Z) (m : gmap Z rte_mbuf)
  : option (list Z * pool * gmap Z rte_mbuf) :=
  let '(bufs, mp) := match rte_mempool_get_bulk mp len with
                     | Some (l, mp') => (l ++ drop (Z.to_nat len) bufs, mp')
                     | None => (bufs, mp)
                     end in
  m ← (match switch (len mod 4) with
       | Some l =>
           '(m, i) ← fall_through 4 l bufs 0 pkt_len m;
           while_loop fuel bufs i len pkt_len m
       | None => Some m
       end);
  Some (bufs, mp, m).

(** ** [init_mem] *)
Definition MEMPOOL_CACHE_SIZE : Z := 256.

(** The arguments of [rte_pktmbuf_pool_create]; its data room size is a
    [uint16_t]. *)
Record pool_request := {
  req_name : string;
  req_n : Z;
  req_cache_size : Z;
  req_data_room_size : Z;
  req_socket : Z
}.

(** The calls [init_mem] makes, in order. *)
Inductive init_event :=
| SpinLock
| CreatePool (req : pool_request) (result : ptr)
| SpinUnlock
| PrintFailed.

Definition init_mem (RTE_PKTMBUF_HEADROOM : Z) (create : pool_request -> ptr)
  (mbuf_cnt nb_mbuf socket mbuf_size : Z) : ptr * Z * list init_event :=
  let '(old, mbuf_cnt) := fetch_and_add mbuf_cnt in
  let pool_name := sprintf_d "mbuf_pool" old in
  let req := {| req_name := pool_name; req_n := nb_mbuf; req_cache_size := MEMPOOL_CACHE_SIZE;
                req_data_room_size := u16 (u32 (mbuf_size + RTE_PKTMBUF_HEADROOM));
                req_socket := socket |} in
  let pool := create req in
  let evs := [SpinLock; CreatePool req pool; SpinUnlock] in
  if pool =? NULL then (NULL, mbuf_cnt, evs ++ [PrintFailed]) else (pool, mbuf_cnt, evs).
End code.

(** ** Specification: the plain loop *)
Section spec.
Context {pool : Type} `{RteMempool pool}.

Definition prepare (pkt_len : Z) (x : rte_mbuf) : rte_mbuf :=
  set_data_len pkt_len (set_pkt_len pkt_len (rte_pktmbuf_reset (set_refcnt 1 x))).

(** [for (i = 0; i < len; i++)] over the array. *)
Fixpoint prepare_all (l : list Z) (pkt_len : Z) (m : gmap Z rte_mbuf) : option (gmap Z rte_mbuf) :=
  match l with
  | [] => Some m
  | b :: l => x ← m !! b; prepare_all l pkt_len (<[b := prepare pkt_len x]> m)
  end.
End spec.

Section proofs.
Context {pool : Type} `{RteMempoolLaws pool}.

Definition label_copies (l : label) : nat :=
  match l with case0 => 4 | case3 => 3 | case2 => 2 | case1 => 1 end.

Lemma prepare_all_app l k pkt_len m :
  prepare_all (l ++ k) pkt_len m = (m ← prepare_all l pkt_len m; prepare_all k pkt_len m).
Proof.
  revert m. induction l as [|b l IH]; intros m; simpl; [done|].
  destruct (m !! b); simpl; [apply IH|done].
Qed.

(** Falling through from a label prepares that many buffers. *)
Lemma fall_through_spec fuel l bufs i pkt_len m :
  0 <= i -> i + Z.of_nat (label_copies l) < 4294967296 -> (label_copies l <= fuel)%nat ->
  (Z.to_nat i + label_copies l <= length bufs)%nat ->
  fall_through fuel l bufs i pkt_len m =
  (m ← prepare_all (take (label_copies l) (drop (Z.to_nat i) bufs)) pkt_len m;
   Some (m, i + Z.of_nat (label_copies l))).
Proof.
  revert l i m. induction fuel as [|fuel IH]; intros l i m Hi Hi4 Hf Hlen; [destruct l; simpl in Hf; lia|].
  destruct (bufs !! Z.to_nat i) as [b|] eqn:Eb; [|apply lookup_ge_None in Eb; destruct l; simpl in *; lia].
  rewrite (drop_S _ _ _ Eb). cbn [fall_through]. unfold init_buf. rewrite Eb. simpl.
  assert (1 <= label_copies l)%nat by (destruct l; simpl; lia).
  rewrite u32_small by (unfold is_u32; lia). replace (S (Z.to_nat i)) with (Z.to_nat (i + 1)) by lia.
  destruct l; simpl; destruct (m !! b) as [x|]; simpl; try done.
  - rewrite IH by (simpl in *; lia). simpl. destruct (prepare_all _ _ _); simpl; [do 2 f_equal; lia|done].
  - rewrite IH by (simpl in *; lia). simpl. destruct (prepare_all _ _ _); simpl; [do 2 f_equal; lia|done].
  - rewrite IH by (simpl in *; lia). simpl. destruct (prepare_all _ _ _); simpl; [do 2 f_equal; lia|done].
Qed.

(** Falling off the end of the array has no result. *)
Lemma fall_through_overrun n l bufs j pkt_len m :
  (length bufs < Z.to_nat j + label_copies l)%nat -> 0 <= j ->
  j + Z.of_nat (label_copies l) <= 4294967296 -> fall_through n l bufs j pkt_len m = None.
Proof.
  revert l j m. induction n as [|n IH]; intros l j m Hj H0' Hb; [done|]. simpl. unfold init_buf.
  destruct (bufs !! Z.to_nat j) as [b|] eqn:Eb; simpl; [|done].
  apply lookup_lt_Some in Eb. destruct (m !! b); simpl; [|done].
  destruct l; simpl in *; try (apply IH; simpl; rewrite u32_small by (unfold is_u32; lia); lia). lia.
Qed.

#[local] Arguments fall_through : simpl never.

(** Entered at the top, the loop prepares the buffers from [i] to [len]. *)
Lemma while_loop_spec fuel bufs i len pkt_len m :
  0 <= i <= len -> (len - i) mod 4 = 0 -> is_u32 len -> len <= Z.of_nat (length bufs) ->
  len - i <= 4 * Z.of_nat fuel ->
  while_loop fuel bufs i len pkt_len m =
  prepare_all (take (Z.to_nat (len - i)) (drop (Z.to_nat i) bufs)) pkt_len m.
Proof.
  revert i m. induction fuel as [|fuel IH]; intros i m Hi Hm Hu Hl Hf; simpl.
  - rewrite (proj2 (Z.eqb_eq _ _)) by lia. by replace (len - i) with 0 by lia.
  - destruct (Z.eqb_spec i len) as [->|Hne]; [by rewrite Z.sub_diag|].
    assert (i + 4 <= len) by dlia.
    rewrite fall_through_spec by (simpl; unfold is_u32 in Hu; lia).
    change (Z.of_nat (label_copies case0)) with 4. simpl.
    replace (Z.to_nat (len - i)) with (4 + Z.to_nat (len - (i + 4)))%nat by lia.
    rewrite <- take_take_drop, prepare_all_app, drop_drop.
    destruct (prepare_all _ pkt_len m) as [m'|]; simpl; [|done].
    rewrite IH by (done || lia || dlia). by replace (Z.to_nat (i + 4)) with (Z.to_nat i + 4)%nat by lia.
Qed.

(** [alloc_mbufs] with a non-empty request is the plain loop over the array. *)
Lemma alloc_mbufs_loop fuel mp bufs len pkt_len m :
  0 < len -> is_u32 len -> len <= Z.of_nat (length bufs) -> len <= 4 * Z.of_nat fuel ->
  alloc_mbufs fuel mp bufs len pkt_len m =
  let '(bufs', mp') := match rte_mempool_get_bulk mp len with
                       | Some (l, mp') => (l ++ drop (Z.to_nat len) bufs, mp')
                       | None => (bufs, mp)
                       end in
  m' ← prepare_all (take (Z.to_nat len) bufs') pkt_len m; Some (bufs', mp', m').
Proof.
  intros Hp Hu Hl Hf. unfold alloc_mbufs.
  set (p := match rte_mempool_get_bulk mp len with Some _ => _ | None => _ end).
  assert (len <= Z.of_nat (length p.1)) as Hl'.
  { subst p. destruct (rte_mempool_get_bulk mp len) as [[l mp']|] eqn:E; [|done].
    apply law_get_bulk in E as [E _]. simpl. rewrite length_app, length_drop. lia. }
  destruct p as [bufs' mp']. simpl in Hl'.
  assert (exists l, switch (len mod 4) = Some l /\
    Z.of_nat (label_copies l) <= len /\ (len - Z.of_nat (label_copies l)) mod 4 = 0) as (l & -> & Hc & Hm).
  { assert (len mod 4 = 0 \/ len mod 4 = 1 \/ len mod 4 = 2 \/ len mod 4 = 3) as [E|[E|[E|E]]] by dlia;
      rewrite E; eexists; (split; [done|]); simpl; dlia. }
  rewrite fall_through_spec by (unfold is_u32 in *; destruct l; simpl in *; lia).
  change (Z.to_nat 0) with O. rewrite drop_0, Z.add_0_l.
  assert (take (Z.to_nat len) bufs' = take (label_copies l) bufs' ++
     take (Z.to_nat (len - Z.of_nat (label_copies l))) (drop (label_copies l) bufs')) as ->.
  { rewrite take_take_drop. f_equal. lia. }
  rewrite prepare_all_app. destruct (prepare_all (take (label_copies l) bufs') pkt_len m) as [m1|]; simpl; [|done].
  rewrite while_loop_spec by (done || lia). by rewrite Nat2Z.id.
Qed.

Lemma prepare_all_spec l pkt_len m :
  NoDup l -> (forall b, b ∈ l -> is_Some (m !! b)) ->
  exists m', prepare_all l pkt_len m = Some m' /\
    (forall b, b ∈ l -> m' !! b = prepare pkt_len <$> m !! b) /\ (forall b, b ∉ l -> m' !! b = m !! b).
Proof.
  revert m. induction l as [|b0 l IH]; intros m Hd Hm; simpl.
  { exists m. split; [done|]. split; [|done]. by intros b ?%elem_of_nil. }
  apply NoDup_cons in Hd as [Hn Hd]. destruct (Hm b0) as [x Ex]; [left|]. rewrite Ex. simpl.
  destruct (IH (<[b0 := prepare pkt_len x]> m)) as (m' & E & Hin & Hout); [done| |].
  { intros b Hb. rewrite lookup_insert_ne by (by intros ->). apply Hm. by right. }
  exists m'. split; [done|]. split.
  - intros b [->|Hb]%elem_of_cons.
    + rewrite Hout by done. by rewrite lookup_insert_eq, Ex.
    + rewrite Hin by done. by rewrite lookup_insert_ne by (by intros ->).
  - intros b [Hne Hb]%not_elem_of_cons. rewrite Hout by done. by rewrite lookup_insert_ne.
Qed.

(** C39. When the pool can serve the request, [alloc_mbufs] with [len > 0] fills
    the first [len] slots of the array with [len] different buffers, each with
    reference count 1 and both lengths set to [pkt_len]; the other slots and the
    other mbufs keep their contents.  A quarter of [len] rounds of the loop are
    enough. *)
Theorem alloc_mbufs_correct (fuel : nat) (mp mp' : pool) (bufs l : list Z) (len pkt_len : Z) (m : gmap Z rte_mbuf) :
  0 < len -> is_u32 len -> len <= Z.of_nat (length bufs) -> len <= 4 * Z.of_nat fuel ->
  rte_mempool_get_bulk mp len = Some (l, mp') -> (forall b, b ∈ l -> is_Some (m !! b)) ->
  exists m', alloc_mbufs fuel mp bufs len pkt_len m = Some (l ++ drop (Z.to_nat len) bufs, mp', m') /\
    Z.of_nat (length l) = len /\ NoDup l /\
    (forall b, b ∈ l -> exists x x', m !! b = Some x /\ m' !! b = Some x' /\
       refcnt x' = 1 /\ Mbuf.pkt_len x' = pkt_len /\ data_len x' = pkt_len /\ pkt_data x' = pkt_data x) /\
    (forall b, b ∉ l -> m' !! b = m !! b).
Proof.
  intros Hp Hu Hl Hf Eg Hm. rewrite alloc_mbufs_loop by done. rewrite Eg.
  apply law_get_bulk in Eg as [El Hd]. rewrite take_app_length' by lia.
  destruct (prepare_all_spec l pkt_len m) as (m' & -> & Hin & Hout); [done..|].
  exists m'. split; [done|]. split; [done|]. split; [done|]. split; [|done].
  intros b Hb. destruct (Hm b Hb) as [x Ex]. exists x, (prepare pkt_len x).
  split; [done|]. split; [by rewrite Hin, Ex by done|]. simpl.
  split; [apply law_reset_refcnt|]. split; [done|]. split; [done|].
  etrans; [apply law_reset_data|done].
Qed.

(** C40. A failed [rte_mempool_get_bulk] goes unnoticed: the pool stays as it is
    and the loop resets the mbufs that the array held before, which still belong
    to whoever got them. *)
Theorem alloc_mbufs_exhausted (fuel : nat) (mp : pool) (bufs : list Z) (len pkt_len : Z) (m : gmap Z rte_mbuf) :
  0 < len -> is_u32 len -> len <= Z.of_nat (length bufs) -> len <= 4 * Z.of_nat fuel ->
  rte_mempool_get_bulk mp len = None -> NoDup (take (Z.to_nat len) bufs) ->
  (forall b, b ∈ take (Z.to_nat len) bufs -> is_Some (m !! b)) ->
  exists m', alloc_mbufs fuel mp bufs len pkt_len m = Some (bufs, mp, m') /\
    (forall b, b ∈ take (Z.to_nat len) bufs -> m' !! b = prepare pkt_len <$> m !! b).
Proof.
  intros Hp Hu Hl Hf Eg Hd Hm. rewrite alloc_mbufs_loop by done. rewrite Eg.
  destruct (prepare_all_spec (take (Z.to_nat len) bufs) pkt_len m) as (m' & -> & Hin & Hout); [done..|].
  by exists m'.
Qed.

(** Entered at [case 0], the loop with [len = 0] does not stop before the index
    has gone through all 32-bit values. *)
Lemma while_loop_overrun fuel bufs i pkt_len m :
  0 < i -> i mod 4 = 0 -> Z.of_nat (length bufs) <= 4294967292 -> i <= 4294967292 ->
  while_loop fuel bufs i 0 pkt_len m = None.
Proof.
  revert i m. induction fuel as [|fuel IH]; intros i m Hi Hm Hl Hb; simpl; (case_Z; [lia|]); [done|].
  destruct (decide (Z.to_nat i + 4 <= length bufs)%nat) as [Hin|Hout].
  - rewrite fall_through_spec by (simpl; lia). change (Z.of_nat (label_copies case0)) with 4.
    destruct (prepare_all _ pkt_len m) as [m'|]; simpl; [|done].
    apply IH; dlia.
  - by rewrite fall_through_overrun by (simpl; lia).
Qed.

(** [alloc_mbufs] with [len = 0] never returns properly: [0 % 4] selects
    [case 0], so it prepares [bufs[0..3]] and goes on over the end of any array
    the caller can have, whatever the pool answers. *)
Theorem alloc_mbufs_zero (fuel : nat) (mp : pool) (bufs : list Z) (pkt_len : Z) (m : gmap Z rte_mbuf) :
  Z.of_nat (length bufs) <= 4294967292 -> alloc_mbufs fuel mp bufs 0 pkt_len m = None.
Proof.
  intros Hl. unfold alloc_mbufs. change (switch (0 mod 4)) with (Some case0).
  set (p := match rte_mempool_get_bulk mp 0 with Some _ => _ | None => _ end).
  assert (p.1 = bufs) as Hp.
  { subst p. destruct (rte_mempool_get_bulk mp 0) as [[l mp']|] eqn:E; [|done].
    apply law_get_bulk in E as [E _]. destruct l; [done|simpl in E; lia]. }
  destruct p as [bufs' mp']. simpl in Hp. subst bufs'.
  destruct (decide (4 <= length bufs)%nat).
  - rewrite fall_through_spec by (simpl; lia). change (Z.of_nat (label_copies case0)) with 4.
    destruct (prepare_all _ pkt_len m) as [m'|]; simpl; [|done].
    by rewrite while_loop_overrun by (done || dlia).
  - by rewrite fall_through_overrun by (simpl; lia).
Qed.
End proofs.

(** ** Names of pools *)

(** The name always fits into [char pool_name[32]]. *)
Lemma init_mem_name_fits n : (String.length (sprintf_d "mbuf_pool" n) + 1 <= 32)%nat.
Proof. pose proof (sprintf_d_length "mbuf_pool" n). simpl in *. lia. Qed.

(** The request that [init_mem] makes with counter value [c]. *)
Definition created (evs : list init_event) : list pool_request :=
  omap (fun e => match e with CreatePool r _ => Some r | _ => None end) evs.

(** The spinlock over a sequence of events: [Some b] when it was taken and
    released alternately, every pool was created with the lock held, and [b]
    says whether it is held at the end. *)
Fixpoint lock_state (held : bool) (evs : list init_event) : option bool :=
  match evs with
  | [] => Some held
  | SpinLock :: evs => if held then None else lock_state true evs
  | CreatePool _ _ :: evs => if held then lock_state held evs else None
  | SpinUnlock :: evs => if held then lock_state false evs else None
  | PrintFailed :: evs => lock_state held evs
  end.

Section init_mem_proofs.
Variables (headroom : Z) (create : pool_request -> ptr).

(** A sequence of calls with the given (nb_mbuf, socket, mbuf_size). *)
Fixpoint init_mems (c : Z) (calls : list (Z * Z * Z)) : list init_event :=
  match calls with
  | [] => []
  | (n, s, sz) :: calls =>
      let '(_, c', evs) := init_mem headroom create c n s sz in evs ++ init_mems c' calls
  end.

Lemma init_mem_result c n s sz :
  exists req, init_mem headroom create c n s sz =
    (create req, u32 (c + 1),
     [SpinLock; CreatePool req (create req); SpinUnlock] ++ (if create req =? NULL then [PrintFailed] else [])) /\
    req_name req = sprintf_d "mbuf_pool" c /\ req_n req = n /\ req_socket req = s /\
    (0 <= sz + headroom < 65536 -> req_data_room_size req = sz + headroom).
Proof.
  unfold init_mem. simpl. set (req := Build_pool_request _ _ _ _ _). exists req. split.
  - destruct (Z.eqb_spec (create req) NULL) as [E|E]; [by rewrite E|done].
  - do 3 (split; [done|]). intros. simpl. rewrite u32_small by word. apply u16_small. word.
Qed.

Lemma init_mems_names c calls :
  map req_name (created (init_mems c calls)) =
  map (fun k => sprintf_d "mbuf_pool" (u32 (c + Z.of_nat k))) (seq 0 (length calls)) \/ ~ is_u32 c.
Proof.
  destruct (decide (is_u32 c)) as [Hc|]; [left|by right]. revert c Hc.
  induction calls as [|[[n s] sz] calls IH]; intros c Hc; [done|]. cbn [init_mems].
  destruct (init_mem_result c n s sz) as (req & -> & En & _).
  unfold created. rewrite omap_app, map_app. fold (created (init_mems (u32 (c + 1)) calls)).
  rewrite IH by apply u32_range. simpl seq. rewrite <- seq_shift, (map_cons _ O), map_map.
  assert (map req_name (omap (fun e => match e with CreatePool r _ => Some r | _ => None end)
    ([SpinLock; CreatePool req (create req); SpinUnlock] ++ (if create req =? NULL then [PrintFailed] else [])))
    = [sprintf_d "mbuf_pool" c]) as ->.
  { case_match; simpl; by rewrite En. }
  simpl. f_equal; [by rewrite Z.add_0_r, u32_small|]. apply map_ext. intros k.
  rewrite u32_add_l. do 2 f_equal. lia.
Qed.

(** In any sequence of up to [2^32] calls of [init_mem] every pool is
    requested with the lock held, the lock is free at the end, whether or not
    creations fail, one pool is requested per call, and the names are pairwise
    different and fit into [pool_name]. *)
Theorem init_mem_pools (c : Z) (calls : list (Z * Z * Z)) :
  is_u32 c -> Z.of_nat (length calls) <= 4294967296 ->
  let evs := init_mems c calls in
  lock_state false evs = Some false /\ length (created evs) = length calls /\
  NoDup (map req_name (created evs)) /\
  Forall (fun r => (String.length (req_name r) + 1 <= 32)%nat) (created evs).
Proof.
  intros Hc Hl evs. destruct (init_mems_names c calls) as [En|]; [|done]. fold evs in En.
  split.
  { subst evs. clear. revert c. induction calls as [|[[n s] sz] calls IH]; intros c; [done|]. simpl init_mems.
    destruct (init_mem_result c n s sz) as (req & -> & _). by case_match; simpl. }
  split. { apply (f_equal length) in En. by rewrite !length_map, length_seq in En. }
  split.
  - rewrite En. apply NoDup_fmap_2_strong; [|apply NoDup_seq].
    intros i j Hi%elem_of_seq Hj%elem_of_seq Heq%sprintf_d_inj. rewrite !u32_u32 in Heq.
    apply counter_distinct in Heq; lia.
  - apply Forall_forall. intros r Hr.
    assert (req_name r ∈ map req_name (created evs)) as Hn by by apply list_elem_of_fmap_2.
    rewrite En in Hn. apply list_elem_of_fmap in Hn as (k & -> & _). apply init_mem_name_fits.
Qed.
End init_mem_proofs.

(** ** Concrete runs *)
Definition blank : rte_mbuf := mk_mbuf 0 0 0 0 (replicate 8 0).
Definition sample_mbufs : gmap Z rte_mbuf :=
  list_to_map [(16, blank); (32, blank); (48, blank); (64, blank); (80, blank)].

Lemma sample_present l :
  forallb (fun b => bool_decide (is_Some (sample_mbufs !! b))) l = true ->
  forall b, b ∈ l -> is_Some (sample_mbufs !! b).
Proof.
  intros Hl b Hb. rewrite forallb_forall in Hl. apply list_elem_of_In in Hb.
  by apply Hl, bool_decide_eq_true in Hb.
Qed.

Lemma alloc_mbufs_correct_witness :
  exists m', alloc_mbufs 2 [16; 32; 48; 64; 80; 96] [0; 0; 0; 0; 0; 7] 5 60 sample_mbufs
    = Some ([16; 32; 48; 64; 80; 7], [96], m') /\
    (exists x, m' !! 48 = Some x /\ refcnt x = 1 /\ data_len x = 60).
Proof.
  destruct (alloc_mbufs_correct 2 [16; 32; 48; 64; 80; 96] [96] [0; 0; 0; 0; 0; 7]
    [16; 32; 48; 64; 80] 5 60 sample_mbufs) as (m' & E & _ & _ & Hin & _).
  - lia.
  - unfold is_u32; lia.
  - simpl; lia.
  - lia.
  - vm_compute. reflexivity.
  - by apply sample_present.
  - exists m'. split; [exact E|]. destruct (Hin 48) as (x & x' & _ & Ex & R & _ & D & _).
    + set_solver.
    + by exists x'.
Defined.

Lemma alloc_mbufs_exhausted_witness :
  exists m', alloc_mbufs 2 [96] [16; 32] 2 60 sample_mbufs = Some ([16; 32], [96], m') /\
    m' !! 16 = prepare 60 <$> sample_mbufs !! 16.
Proof.
  destruct (alloc_mbufs_exhausted 2 [96] [16; 32] 2 60 sample_mbufs) as (m' & E & Hin).
  - lia.
  - unfold is_u32; lia.
  - simpl; lia.
  - lia.
  - reflexivity.
  - simpl. by apply (bool_decide_unpack _).
  - by apply sample_present.
  - exists m'. split; [exact E|]. apply Hin. simpl. set_solver.
Defined.

Lemma alloc_mbufs_zero_witness :
  alloc_mbufs 100 [96] [16; 32; 48; 64; 80] 0 60 sample_mbufs = None.
Proof. apply alloc_mbufs_zero. simpl; lia. Defined.

Lemma init_mem_pools_witness :
  created (init_mems 128 (fun r => if req_n r =? 0 then NULL else 4096) 4294967295
    [(2047, 0, 2048); (0, 0, 2048); (2047, 1, 2048)]) <> [] /\
  lock_state false (init_mems 128 (fun r => if req_n r =? 0 then NULL else 4096) 4294967295
    [(2047, 0, 2048); (0, 0, 2048); (2047, 1, 2048)]) = Some false.
Proof.
  split; [done|].
  apply (init_mem_pools 128 (fun r => if req_n r =? 0 then NULL else 4096) 4294967295
    [(2047, 0, 2048); (0, 0, 2048); (2047, 1, 2048)]); [unfold is_u32; lia|simpl; lia].
Defined.
