(* ===== verification/Pcap.v ===== *)
(** * Pcap records (src/src/pcap.cpp)

    Writing a record into the mapped output file and reading records, one or a
    batch, from a mapped input file into mbufs.  A file is the list of its
    bytes; an access outside it has no result. *)
From S2P Require Import Prelude Bytes Mbuf.

(** The offsets of the fields of [pcapRecHeader]. *)
Definition ts_sec : Z := 0.
Definition ts_usec : Z := 4.
Definition incl_len : Z := 8.
Definition orig_len : Z := 12.
Definition rec_data : Z := 16.
Definition sizeof_pcapRecHeader : Z := 16.

Definition st32 (bs : list Z) (off v : Z) : option (list Z) := st_bytes bs off (le32 v).

Section code.
Context {pool : Type} `{RteMempool pool}.

(** [memcpy] from [packet] copies the first [len] bytes, which must exist. *)
Definition libmoon_write_pcap (file : list Z) (dst : Z) (packet : list Z)
  (len origlen sec usec : Z) : option (list Z) :=
  file ← st32 file (dst + ts_sec) sec;
  file ← st32 file (dst + ts_usec) usec;
  file ← st32 file (dst + incl_len) len;
  file ← st32 file (dst + orig_len) origlen;
  bytes ← ld_bytes packet 0 len;
  st_bytes file (dst + rec_data) bytes.

(** The number of bytes to copy from the file and of zeros to add. *)
Definition read_lengths (incl orig mempool_buf_size : Z) : Z * Z :=
  let copy_len := incl in
  let copy_len := if u32 (mempool_buf_size - 128) <? copy_len then u32 (mempool_buf_size - 128) else copy_len in
  let zero_fill_len := Z.min (u32 (mempool_buf_size - copy_len - 128)) (u32 (orig - incl)) in
  (copy_len, zero_fill_len).

(** [memset(data + off, 0, n)] *)
Definition st_zeros (bs : list Z) (off n : Z) : option (list Z) := st_bytes bs off (replicate (Z.to_nat n) 0).

(** The result is the returned pointer, the pool and the mbufs; no result when
    memory outside the file or the buffer is accessed. *)
Definition libmoon_read_pcap (mp : pool) (m : gmap Z rte_mbuf) (file : list Z) (src remaining mempool_buf_size : Z)
  (nanosecond_timestamps : bool) : option (ptr * pool * gmap Z rte_mbuf) :=
  incl ← ld32 file (src + incl_len);
  if remaining <=? incl then Some (NULL, mp, m)
  else
    orig ← ld32 file (src + orig_len);
    let '(copy_len, zero_fill_len) := read_lengths incl orig mempool_buf_size in
    match rte_pktmbuf_alloc mp with
    | None => Some (NULL, mp, m)
    | Some (res, mp) =>
        x ← m !! res;
        let x := set_pkt_len incl x in
        let x := set_data_len (u16 (copy_len + zero_fill_len)) x in
        sec ← ld32 file (src + ts_sec);
        usec ← ld32 file (src + ts_usec);
        let x := if nanosecond_timestamps
                 then set_timestamp_dynfield x (sec * 1000000000 + usec)
                 else set_timestamp_dynfield x (sec * 1000000000 + usec * 1000) in
        bytes ← ld_bytes file (src + rec_data) copy_len;
        data ← st_bytes (pkt_data x) 0 bytes;
        data ← st_zeros data copy_len zero_fill_len;
        Some (res, mp, <[res := set_pkt_data data x]> m)
    end.

(** The loop of [libmoon_read_pcap_batch] from iteration [i]: the returned count,
    the pointers stored from [bufs[i]] on, the pool and the mbufs.  [k] is
    [num_bufs - i]. *)
Fixpoint read_batch (k : nat) (i : Z) (mp : pool) (m : gmap Z rte_mbuf) (file : list Z)
  (offset remaining mempool_buf_size : Z) (ns : bool)
  : option (Z * list ptr * pool * gmap Z rte_mbuf) :=
  match k with
  | O => Some (i, [], mp, m)
  | S k =>
      '(buf, mp, m) ← libmoon_read_pcap mp m file offset remaining mempool_buf_size ns;
      if buf =? NULL then Some (i, [buf], mp, m)
      else
        incl ← ld32 file (offset + incl_len);
        let offset := u64 (offset + u64 (incl + sizeof_pcapRecHeader)) in
        let remaining := u64 (remaining - u64 (incl + sizeof_pcapRecHeader)) in
        '(n, bufs, mp, m) ← read_batch k (u32 (i + 1)) mp m file offset remaining mempool_buf_size ns;
        Some (n, buf :: bufs, mp, m)
  end.

Definition libmoon_read_pcap_batch (mp : pool) (m : gmap Z rte_mbuf) (num_bufs : Z) (file : list Z)
  (remaining mempool_buf_size : Z) (ns : bool) : option (Z * list ptr * pool * gmap Z rte_mbuf) :=
  read_batch (Z.to_nat num_bufs) 0 mp m file 0 remaining mempool_buf_size ns.
End code.

(** ** The file format *)

(** A captured packet and its record in the file. *)
Record capture := {
  cap_sec : Z;
  cap_usec : Z;
  cap_orig : Z;
  cap_data : list Z
}.

Definition capture_ok (c : capture) : Prop :=
  is_u32 (cap_sec c) /\ is_u32 (cap_usec c) /\ is_u32 (cap_orig c) /\ is_bytes (cap_data c) /\
  Z.of_nat (length (cap_data c)) <= cap_orig c.

Definition record_bytes (c : capture) : list Z :=
  le32 (cap_sec c) ++ le32 (cap_usec c) ++ le32 (Z.of_nat (length (cap_data c))) ++
  le32 (cap_orig c) ++ cap_data c.

#[global] Arguments record_bytes : simpl never.
#[global] Arguments le32 : simpl never.

Lemma length_le32 v : length (le32 v) = 4%nat.
Proof. done. Qed.

Lemma length_record c : length (record_bytes c) = (16 + length (cap_data c))%nat.
Proof. unfold record_bytes. by rewrite !length_app, !length_le32. Qed.

Lemma ld32_le32_app pre v post off :
  is_u32 v -> off = Z.of_nat (length pre) -> ld32 (pre ++ le32 v ++ post) off = Some v.
Proof.
  intros Hv ->. rewrite ld32_app_r, Z.sub_diag by lia.
  rewrite ld32_app_l by (rewrite length_le32; lia). by apply le32_value.
Qed.

Lemma ld_bytes_app pre l post off n :
  off = Z.of_nat (length pre) -> n = Z.of_nat (length l) -> ld_bytes (pre ++ l ++ post) off n = Some l.
Proof.
  intros -> ->. rewrite ld_bytes_Some by (rewrite ?length_app; lia).
  rewrite !Nat2Z.id, drop_app_length, take_app_length. done.
Qed.

(** The header of a record inside a file. *)
Lemma record_header pre c post src :
  capture_ok c -> src = Z.of_nat (length pre) ->
  let file := pre ++ record_bytes c ++ post in
  ld32 file (src + ts_sec) = Some (cap_sec c) /\ ld32 file (src + ts_usec) = Some (cap_usec c) /\
  ld32 file (src + incl_len) = Some (Z.of_nat (length (cap_data c))) /\
  ld32 file (src + orig_len) = Some (cap_orig c) /\
  (forall n, 0 <= n <= Z.of_nat (length (cap_data c)) ->
     ld_bytes file (src + rec_data) n = Some (take (Z.to_nat n) (cap_data c))).
Proof.
  intros (H1 & H2 & H3 & Hb & Hl) -> file. subst file. unfold record_bytes.
  unfold is_u32 in *.
  split; [rewrite <- !app_assoc; apply ld32_le32_app; [done|unfold ts_sec; lia]|].
  split. { replace (pre ++ _) with ((pre ++ le32 (cap_sec c)) ++ le32 (cap_usec c) ++
             (le32 (Z.of_nat (length (cap_data c))) ++ le32 (cap_orig c) ++ cap_data c ++ post))
             by by rewrite <- !app_assoc.
    apply ld32_le32_app; [done|unfold ts_usec; rewrite length_app, length_le32; lia]. }
  split. { replace (pre ++ _) with ((pre ++ le32 (cap_sec c) ++ le32 (cap_usec c)) ++
             le32 (Z.of_nat (length (cap_data c))) ++ (le32 (cap_orig c) ++ cap_data c ++ post))
             by by rewrite <- !app_assoc.
    apply ld32_le32_app; [unfold is_u32; lia|unfold incl_len; rewrite !length_app, !length_le32; lia]. }
  split. { replace (pre ++ _) with ((pre ++ le32 (cap_sec c) ++ le32 (cap_usec c) ++
             le32 (Z.of_nat (length (cap_data c)))) ++ le32 (cap_orig c) ++ (cap_data c ++ post))
             by by rewrite <- !app_assoc.
    apply ld32_le32_app; [done|unfold orig_len; rewrite !length_app, !length_le32; lia]. }
  intros n Hn.
  replace (pre ++ _) with ((pre ++ le32 (cap_sec c) ++ le32 (cap_usec c) ++
    le32 (Z.of_nat (length (cap_data c))) ++ le32 (cap_orig c)) ++ take (Z.to_nat n) (cap_data c) ++
    (drop (Z.to_nat n) (cap_data c) ++ post)).
  - apply ld_bytes_app; [unfold rec_data; rewrite !length_app, !length_le32; lia|rewrite length_take; lia].
  - rewrite (app_assoc (take _ _)), take_drop. by rewrite <- !app_assoc.
Qed.

(** A store at the end of what is already written. *)
Lemma st_bytes_next done_ rest new off :
  (length new <= length rest)%nat -> off = Z.of_nat (length done_) ->
  st_bytes (done_ ++ rest) off new = Some ((done_ ++ new) ++ drop (length new) rest).
Proof.
  intros Ho Hoff. rewrite <- (take_drop (length new) rest) at 1.
  rewrite (st_bytes_app done_ (take (length new) rest) new) by (rewrite ?length_take; lia).
  by rewrite app_assoc.
Qed.

(** A record overwrites exactly its [16 + len] bytes of the file. *)
Lemma write_record pre old post dst c rest :
  length old = (16 + length (cap_data c))%nat -> dst = Z.of_nat (length pre) ->
  libmoon_write_pcap (pre ++ old ++ post) dst (cap_data c ++ rest) (Z.of_nat (length (cap_data c)))
    (cap_orig c) (cap_sec c) (cap_usec c) = Some (pre ++ record_bytes c ++ post).
Proof.
  intros Ho Hd. unfold libmoon_write_pcap, st32, ts_sec, ts_usec, incl_len, orig_len, rec_data.
  rewrite st_bytes_next; [|rewrite length_le32, length_app; lia|lia]. cbn [mbind option_bind].
  rewrite st_bytes_next; [|rewrite !length_le32, length_drop, length_app; lia|rewrite length_app, length_le32; lia].
  cbn [mbind option_bind].
  rewrite st_bytes_next; [|rewrite !length_le32, !length_drop, length_app; lia|rewrite !length_app, !length_le32; lia].
  cbn [mbind option_bind].
  rewrite st_bytes_next; [|rewrite !length_le32, !length_drop, length_app; lia|rewrite !length_app, !length_le32; lia].
  cbn [mbind option_bind].
  rewrite (ld_bytes_app [] (cap_data c) rest) by done. cbn [mbind option_bind].
  rewrite st_bytes_next; [|rewrite !length_le32, !length_drop, length_app; lia|rewrite !length_app, !length_le32; lia].
  f_equal. unfold record_bytes. rewrite <- !app_assoc. do 6 f_equal.
  rewrite !drop_drop, !length_le32. rewrite drop_app_length' by lia. done.
Qed.

(** ** Reading a record *)

(** [x] is the mbuf of capture [c] in buffers of [mempool_buf_size]: as many of
    the packet's original bytes as fit, the missing ones zero. *)
Definition received (mempool_buf_size : Z) (ns : bool) (c : capture) (x : rte_mbuf) : Prop :=
  pkt_len x = Z.of_nat (length (cap_data c)) /\
  data_len x = Z.min (cap_orig c) (mempool_buf_size - 128) /\
  timestamp x = cap_sec c * 1000000000 + cap_usec c * (if ns then 1 else 1000) /\
  ld_bytes (pkt_data x) 0 (data_len x) =
    Some (take (Z.to_nat (data_len x)) (cap_data c ++ replicate (Z.to_nat (cap_orig c)) 0)).

Lemma read_lengths_spec incl orig mbs :
  0 <= incl <= orig -> is_u32 orig -> 128 <= mbs -> is_u32 mbs ->
  read_lengths incl orig mbs =
    (Z.min incl (mbs - 128), Z.min orig (mbs - 128) - Z.min incl (mbs - 128)).
Proof.
  intros Hi Ho Hm Hu. unfold read_lengths. unfold is_u32 in *.
  rewrite (u32_small (mbs - 128)) by (unfold is_u32; lia).
  assert ((if mbs - 128 <? incl then mbs - 128 else incl) = Z.min incl (mbs - 128)) as -> by (case_Z; lia).
  rewrite !u32_small by (unfold is_u32; lia). f_equal. lia.
Qed.

Lemma take_zeros (l : list Z) n k :
  (length l <= n)%nat -> (n - length l <= k)%nat ->
  take n (l ++ replicate k 0) = l ++ replicate (n - length l) 0.
Proof. intros. by rewrite take_app_ge, take_replicate, Nat.min_l by lia. Qed.

Section read.
Context {pool : Type} `{RteMempool pool}.

Lemma read_record (mp mp' : pool) m pre c post src remaining mbs ns b x :
  capture_ok c -> src = Z.of_nat (length pre) -> 128 <= mbs -> mbs - 128 < 65536 ->
  Z.of_nat (length (cap_data c)) < remaining ->
  rte_pktmbuf_alloc mp = Some (b, mp') -> m !! b = Some x -> mbs - 128 <= Z.of_nat (length (pkt_data x)) ->
  exists x', libmoon_read_pcap mp m (pre ++ record_bytes c ++ post) src remaining mbs ns
    = Some (b, mp', <[b := x']> m) /\ received mbs ns c x'.
Proof.
  intros Hc Hs Hm Hm' Hr Ea Ex Hx. pose proof Hc as (Hsec & Husec & Ho & Hb & Hl).
  destruct (record_header pre c post src Hc Hs) as (E1 & E2 & E3 & E4 & E5).
  unfold libmoon_read_pcap. rewrite E3. cbn [mbind option_bind].
  rewrite (proj2 (Z.leb_gt _ _)) by done. rewrite E4. cbn [mbind option_bind].
  rewrite read_lengths_spec by (unfold is_u32 in *; lia). rewrite Ea, Ex. cbn [mbind option_bind].
  rewrite E1, E2. cbn [mbind option_bind]. rewrite E5 by lia. cbn [mbind option_bind].
  set (n := Z.of_nat (length (cap_data c))) in *. set (copy := Z.min n (mbs - 128)).
  set (tot := Z.min (cap_orig c) (mbs - 128)).
  assert (forall y, pkt_data (if ns then set_timestamp_dynfield y (cap_sec c * 1000000000 + cap_usec c)
     else set_timestamp_dynfield y (cap_sec c * 1000000000 + cap_usec c * 1000)) = pkt_data y) as Ep
    by (intros; by destruct ns).
  rewrite Ep. cbn [pkt_data set_data_len set_pkt_len].
  set (d := pkt_data x) in *. set (bs := take (Z.to_nat copy) (cap_data c)).
  assert (length bs = Z.to_nat copy) as Hbs by (subst bs; rewrite length_take; lia).
  rewrite (st_bytes_next [] d bs) by (rewrite ?Hbs; simpl; lia). cbn [mbind option_bind].
  unfold st_zeros. rewrite app_nil_l.
  rewrite st_bytes_next; [|rewrite length_replicate, length_drop; lia|rewrite Hbs; lia]. cbn [mbind option_bind].
  eexists. split; [done|].
  assert (u16 (copy + (tot - copy)) = tot) as Etot by (rewrite u16_small by word; lia).
  unfold received. destruct ns; cbn [pkt_len data_len timestamp pkt_data set_pkt_data set_timestamp_dynfield set_data_len set_pkt_len];
    rewrite Etot; (split; [done|]); (split; [done|]); (split; [rewrite u64_small by word; lia|]).
  all: rewrite ld_bytes_Some by (rewrite ?length_app, ?length_drop, ?length_replicate; lia).
  all: change (Z.to_nat 0) with O; rewrite drop_0; f_equal.
  all: rewrite take_app_le by (rewrite length_app, length_replicate; lia).
  all: rewrite take_ge by (rewrite length_app, length_replicate; lia).
  all: destruct (decide (tot <= n)) as [Ht|Ht].
  all: try (assert (copy = tot) as Ec by lia; rewrite Ec, Z.sub_diag; simpl; rewrite app_nil_r;
            subst bs; rewrite Ec, take_app_le by lia; done).
  all: assert (copy = n) as Ec by lia.
  all: rewrite take_zeros by lia; subst bs; rewrite take_ge by lia; do 2 f_equal; lia.
Qed.
End read.

(** ** Whole files *)
#[local] Opaque record_bytes.

(** The writer's use of [libmoon_write_pcap] (writer:write in lua/pcap.lua): each
    record goes behind the one before. *)
Fixpoint write_all (file : list Z) (dst : Z) (cs : list capture) : option (list Z) :=
  match cs with
  | [] => Some file
  | c :: cs =>
      let len := Z.of_nat (length (cap_data c)) in
      file ← libmoon_write_pcap file dst (cap_data c) len (cap_orig c) (cap_sec c) (cap_usec c);
      write_all file (dst + len + 16) cs
  end.

Definition records (cs : list capture) : list Z := concat (map record_bytes cs).

Lemma write_all_records cs : forall pre old post dst,
  length old = length (records cs) -> dst = Z.of_nat (length pre) ->
  write_all (pre ++ old ++ post) dst cs = Some (pre ++ records cs ++ post).
Proof.
  induction cs as [|c cs IH]; intros pre old post dst Ho Hd; simpl.
  { by destruct old. }
  unfold records in *. simpl in *. rewrite length_app in Ho. pose proof (length_record c) as Hrl.
  rewrite <- (take_drop (length (record_bytes c)) old), <- app_assoc.
  rewrite <- (app_nil_r (cap_data c)) at 1.
  rewrite write_record; [|rewrite length_take; lia|done]. cbn [mbind option_bind].
  rewrite (app_assoc pre), (IH (pre ++ record_bytes c)).
  - by rewrite <- !app_assoc.
  - rewrite length_drop. lia.
  - rewrite length_app, length_record. lia.
Qed.

Section batch.
Context {pool : Type} `{RteMempool pool}.

(** The pool hands out the buffers [bs], one per call. *)
Inductive allocs : pool -> list ptr -> pool -> Prop :=
| allocs_nil p : allocs p [] p
| allocs_cons p b p' bs p'' :
    rte_pktmbuf_alloc p = Some (b, p') -> b <> NULL -> allocs p' bs p'' -> allocs p (b :: bs) p''.

Lemma read_batch_records mbs ns cs : forall i mp bs mp' m pre post remaining,
  Forall capture_ok cs -> 128 <= mbs -> mbs - 128 < 65536 ->
  allocs mp bs mp' -> length bs = length cs -> NoDup bs ->
  (forall b, b ∈ bs -> exists x, m !! b = Some x /\ mbs - 128 <= Z.of_nat (length (pkt_data x))) ->
  Z.of_nat (length (records cs)) <= remaining -> is_u64 remaining ->
  0 <= i -> i + Z.of_nat (length cs) < 4294967296 ->
  Z.of_nat (length (pre ++ records cs)) < 18446744073709551616 ->
  exists m', read_batch (length cs) i mp m (pre ++ records cs ++ post) (Z.of_nat (length pre)) remaining mbs ns
    = Some (i + Z.of_nat (length cs), bs, mp', m') /\
    (forall k c b, cs !! k = Some c -> bs !! k = Some b -> exists x, m' !! b = Some x /\ received mbs ns c x) /\
    (forall b, b ∉ bs -> m' !! b = m !! b).
Proof.
  induction cs as [|c cs IH]; intros i mp bs mp' m pre post remaining Hcs Hm Hm' Ha Hl Hd Hx Hr Hru Hi Hi' Hpre.
  { destruct bs; [|done]. inversion Ha; subst. exists m. simpl. rewrite Z.add_0_r.
    split; [done|]. split; [|done]. intros k c b Hk. by rewrite lookup_nil in Hk. }
  apply Forall_cons in Hcs as [Hc Hcs]. inversion Ha as [|? b mp1 bs' ? Eb Hnz Ha']; subst; [done|].
  apply NoDup_cons in Hd as [Hn Hd]. destruct (Hx b) as (x & Ex & Hxl); [left|].
  unfold records in *. simpl in *. pose proof (length_record c) as Hrl.
  rewrite !length_app in *.
  rewrite <- !app_assoc.
  destruct (read_record mp mp1 m pre c (concat (map record_bytes cs) ++ post) (Z.of_nat (length pre)) remaining mbs ns b x)
    as (x' & -> & Hrec); [done|done|done|done|lia|done|done|done|]. cbn [mbind option_bind].
  rewrite (proj2 (Z.eqb_neq b NULL)) by done.
  destruct (record_header pre c (concat (map record_bytes cs) ++ post) (Z.of_nat (length pre)) Hc eq_refl)
    as (_ & _ & -> & _). cbn [mbind option_bind]. unfold sizeof_pcapRecHeader.
  destruct Hc as (_ & _ & Ho & _ & Hol). unfold is_u32, is_u64 in *.
  rewrite !(u64_small (Z.of_nat (length (cap_data c)) + 16)) by (unfold is_u64; lia).
  rewrite !u64_small, u32_small by (unfold is_u64, is_u32; lia).
  assert (exists m', read_batch (length cs) (i + 1) mp1 (<[b:=x']> m)
     (pre ++ record_bytes c ++ concat (map record_bytes cs) ++ post)
     (Z.of_nat (length pre) + (Z.of_nat (length (cap_data c)) + 16))
     (remaining - (Z.of_nat (length (cap_data c)) + 16)) mbs ns
     = Some (i + 1 + Z.of_nat (length cs), bs', mp', m') /\
    (forall k c b, cs !! k = Some c -> bs' !! k = Some b -> exists x, m' !! b = Some x /\ received mbs ns c x) /\
    (forall a, a ∉ bs' -> m' !! a = <[b:=x']> m !! a)) as (m' & E & Hin & Hout).
  { destruct (IH (i + 1) mp1 bs' mp' (<[b:=x']> m) (pre ++ record_bytes c) post
      (remaining - (Z.of_nat (length (cap_data c)) + 16))) as (m' & E & Hin & Hout); try done.
    - simpl in Hl. lia.
    - intros a Hab. rewrite lookup_insert_ne by (by intros ->). apply Hx. by right.
    - lia.
    - lia.
    - lia.
    - lia.
    - rewrite !length_app, length_record. lia.
    - exists m'. split; [|done]. rewrite <- !app_assoc in E. rewrite <- E. f_equal.
      rewrite length_app, length_record. lia. }
  rewrite E. cbn [mbind option_bind]. exists m'. split; [do 4 f_equal; lia|]. split.
  - intros [|k] c' b' Hk Hk'; simpl in Hk, Hk'; [|by eapply Hin].
    simplify_eq. exists x'. rewrite Hout by done. by rewrite lookup_insert_eq.
  - intros a [Hne Hna]%not_elem_of_cons. rewrite Hout by done. by rewrite lookup_insert_ne.
Qed.

(** C38. Round trip: the records that [libmoon_write_pcap] writes one behind the
    other into a file, read back by [libmoon_read_pcap_batch] into as many
    buffers, arrive in order, each in a buffer of its own, with the packet's
    bytes cut to the buffer size, cut-off bytes zero up to the original length,
    the captured length in [pkt_len] and the time in nanoseconds; bytes of the
    file outside the records and other mbufs are untouched. *)
Theorem pcap_round_trip (cs : list capture) (old post : list Z) (mbs : Z) (ns : bool)
    (mp mp' : pool) (bs : list ptr) (m : gmap Z rte_mbuf) :
  Forall capture_ok cs -> length old = length (records cs) ->
  128 <= mbs -> mbs - 128 < 65536 ->
  allocs mp bs mp' -> length bs = length cs -> NoDup bs ->
  (forall b, b ∈ bs -> exists x, m !! b = Some x /\ mbs - 128 <= Z.of_nat (length (pkt_data x))) ->
  Z.of_nat (length cs) < 4294967296 -> Z.of_nat (length (old ++ post)) < 18446744073709551616 ->
  exists file m', write_all (old ++ post) 0 cs = Some file /\
    length file = length (old ++ post) /\ drop (length old) file = post /\
    libmoon_read_pcap_batch mp m (Z.of_nat (length cs)) file (Z.of_nat (length file)) mbs ns
      = Some (Z.of_nat (length cs), bs, mp', m') /\
    (forall k c b, cs !! k = Some c -> bs !! k = Some b -> exists x, m' !! b = Some x /\ received mbs ns c x) /\
    (forall b, b ∉ bs -> m' !! b = m !! b).
Proof.
  intros Hcs Ho Hm Hm' Ha Hl Hd Hx Hn Hf. exists (records cs ++ post).
  destruct (read_batch_records mbs ns cs 0 mp bs mp' m [] post (Z.of_nat (length (records cs ++ post))))
    as (m' & E & Hin & Hout); rewrite ?length_app in *; unfold is_u64; simpl; try done; try lia.
  exists m'. split; [by apply (write_all_records cs [] old post 0)|].
  split; [by rewrite Ho|]. split; [by rewrite Ho, drop_app_length|].
  split; [|done]. unfold libmoon_read_pcap_batch. rewrite Nat2Z.id. exact E.
Qed.

(** The check against [remaining] does not count the record header: a record
    cut off in the last 16 bytes of its data passes it and the copy runs over the
    end of the file. *)
Theorem read_pcap_overread (mp mp' : pool) (m : gmap Z rte_mbuf) (file : list Z) (src incl mbs : Z) (ns : bool) (b : Z) :
  let remaining := Z.of_nat (length file) - src in
  0 <= src -> ld32 file (src + incl_len) = Some incl ->
  incl < remaining -> remaining < 16 + incl -> incl <= mbs - 128 -> is_u32 mbs -> is_u32 incl ->
  rte_pktmbuf_alloc mp = Some (b, mp') ->
  libmoon_read_pcap mp m file src remaining mbs ns = None.
Proof.
  intros remaining Hs Ei Hr1 Hr2 Hm Hu Hi Ea. subst remaining. unfold libmoon_read_pcap. rewrite Ei. cbn [mbind option_bind].
  rewrite (proj2 (Z.leb_gt _ incl)) by lia.
  destruct (ld32 file (src + orig_len)) as [orig|]; simpl; [|done].
  unfold read_lengths. unfold is_u32 in *. rewrite (u32_small (mbs - 128)) by (unfold is_u32; lia).
  rewrite (proj2 (Z.ltb_ge _ _)) by lia. rewrite Ea.
  destruct (m !! b) as [x|]; simpl; [|done].
  destruct (ld32 file (src + ts_sec)); simpl; [|done]. destruct (ld32 file (src + ts_usec)); simpl; [|done].
  assert (ld_bytes file (src + rec_data) incl = None) as ->; [|done].
  unfold ld_bytes, rec_data.
  rewrite (proj2 (Z.leb_gt (_ + incl) _)) by lia. by rewrite !andb_false_r.
Qed.
End batch.

(** ** Concrete files *)
Definition sample_captures : list capture :=
  [{| cap_sec := 1; cap_usec := 5; cap_orig := 3; cap_data := [10; 20; 30] |};
   {| cap_sec := 2; cap_usec := 7; cap_orig := 6; cap_data := [40; 50; 60; 70] |}].

Definition sample_pool_mem : gmap Z rte_mbuf :=
  list_to_map [(16, mk_mbuf 1 0 0 0 (replicate 16 255)); (32, mk_mbuf 1 0 0 0 (replicate 16 255))].

Lemma pcap_round_trip_witness :
  exists file m', write_all (replicate 50 0) 0 sample_captures = Some file /\
    libmoon_read_pcap_batch [16; 32; 48] sample_pool_mem 2 file 50 133 false = Some (2, [16; 32], [48], m') /\
    exists x, m' !! 32 = Some x /\ data_len x = 5.
Proof.
  destruct (pcap_round_trip sample_captures (replicate 39 0) (replicate 11 0) 133 false
    [16; 32; 48] [48] [16; 32] sample_pool_mem) as (file & m' & Ew & El & _ & Er & Hin & _).
  - repeat constructor; simpl; lia.
  - done.
  - lia.
  - lia.
  - repeat econstructor; done.
  - done.
  - by apply (bool_decide_unpack _).
  - intros b Hb. set_unfold in Hb. destruct Hb as [->|[->|[]]]; eexists; (split; [reflexivity|simpl; lia]).
  - simpl; lia.
  - simpl; lia.
  - exists file, m'. split; [exact Ew|]. rewrite El in Er. split; [exact Er|].
    destruct (Hin 1%nat {| cap_sec := 2; cap_usec := 7; cap_orig := 6; cap_data := [40; 50; 60; 70] |} 32)
      as (x & Ex & _ & D & _); [done|done|].
    exists x. split; [done|]. rewrite D. reflexivity.
Defined.

(** Four of eight data bytes are in the file. *)
Lemma read_pcap_overread_witness :
  libmoon_read_pcap [16] sample_pool_mem (le32 1 ++ le32 2 ++ le32 8 ++ le32 8 ++ [1; 2; 3; 4]) 0 20 2048 true = None.
Proof.
  apply (read_pcap_overread [16] [] sample_pool_mem (le32 1 ++ le32 2 ++ le32 8 ++ le32 8 ++ [1; 2; 3; 4]) 0 8 2048 true 16);
    simpl; unfold is_u32; try lia; reflexivity.
Defined.
