(* ===== verification/Spsc.v ===== *)
(** * The single-producer single-consumer queue (src/lib/spsc-queue/readerwriterqueue.h)

    The queue behind libmoon's pipes (src/src/pipe.cpp), a circular list of
    circular buffers.  One thread enqueues, another one dequeues, peeks or pops.
    Each operation is a machine that makes one step per access to a variable the
    other thread uses; the system interleaves the steps of the two threads in any
    order, each step seeing the latest memory.  SpscWeak.v has the operations that
    pipe.cpp calls on relaxed memory, with the fences of the source.

    Elements are the pointers that pipe.cpp stores; their constructors and
    destructors do nothing. *)
From S2P Require Import Prelude.

(** ** Data *)
Record block := mk_block {
  front : Z;        (* written by the consumer *)
  localTail : Z;    (* the consumer's copy of [tail] *)
  tail : Z;         (* written by the producer *)
  localFront : Z;   (* the producer's copy of [front] *)
  next : Z;         (* written by the producer *)
  sizeMask : Z;
  data : list ptr
}.

Definition set_front (v : Z) (b : block) :=
  mk_block v (localTail b) (tail b) (localFront b) (next b) (sizeMask b) (data b).
Definition set_localTail (v : Z) (b : block) :=
  mk_block (front b) v (tail b) (localFront b) (next b) (sizeMask b) (data b).
Definition set_tail (v : Z) (b : block) :=
  mk_block (front b) (localTail b) v (localFront b) (next b) (sizeMask b) (data b).
Definition set_localFront (v : Z) (b : block) :=
  mk_block (front b) (localTail b) (tail b) v (next b) (sizeMask b) (data b).
Definition set_next (v : Z) (b : block) :=
  mk_block (front b) (localTail b) (tail b) (localFront b) v (sizeMask b) (data b).

(** A store to [data[i]]; outside the block it has no result. *)
Definition set_data (i : Z) (x : ptr) (b : block) : option block :=
  if (0 <=? i) && (i <? Z.of_nat (length (data b)))
  then Some (mk_block (front b) (localTail b) (tail b) (localFront b) (next b) (sizeMask b)
               (<[Z.to_nat i := x]> (data b)))
  else None.
Definition get_data (i : Z) (b : block) : option ptr :=
  if 0 <=? i then data b !! Z.to_nat i else None.

Record queue := mk_queue {
  blocks : gmap Z block;
  frontBlock : Z;          (* written by the consumer *)
  tailBlock : Z;           (* written by the producer *)
  largestBlockSize : Z     (* the producer's *)
}.

Definition set_block (a : Z) (b : block) (q : queue) : queue :=
  mk_queue (<[a := b]> (blocks q)) (frontBlock q) (tailBlock q) (largestBlockSize q).
Definition set_frontBlock (a : Z) (q : queue) : queue :=
  mk_queue (blocks q) a (tailBlock q) (largestBlockSize q).
Definition set_tailBlock (a : Z) (q : queue) : queue :=
  mk_queue (blocks q) (frontBlock q) a (largestBlockSize q).

Definition MAX_BLOCK_SIZE : Z := 512.

(** [Block(_size, ...)]; [malloc] gives the memory of the elements. *)
Definition new_block (size : Z) (raw : list ptr) : block := mk_block 0 0 0 0 NULL (size - 1) raw.

(** ** The producer: [inner_enqueue]

    One constructor per point of the code between two accesses, with the local
    variables that are live there. *)
Inductive ppc :=
| PIdle
| PEnter (element : ptr) (canAlloc : bool)                                  (* 427 *)
| PReadFront (element : ptr) (canAlloc : bool) (tailBlock_ blockTail nextBlockTail : Z)  (* 432, second test *)
| PWrite (element : ptr) (tailBlock_ blockTail nextBlockTail : Z)           (* 435 *)
| PPublish (element : ptr) (tailBlock_ nextBlockTail : Z)                   (* 439 *)
| PCheckNext (element : ptr) (canAlloc : bool) (tailBlock_ : Z)             (* 443 *)
| PNextRead (element : ptr) (tailBlock_ : Z)                                (* 452 *)
| PNextWrite (element : ptr) (tailBlockNext nextBlockTail : Z)              (* 462 *)
| PNextPublish (element : ptr) (tailBlockNext nextBlockTail : Z)            (* 465 *)
| PNextAdvance (element : ptr) (tailBlockNext : Z)                          (* 468 *)
| PAlloc (element : ptr) (tailBlock_ : Z)                                   (* 472 *)
| PLink (element : ptr) (tailBlock_ newBlock : Z)                           (* 486 *)
| PAdvance (element : ptr) (newBlock : Z).                                  (* 495 *)

(** What a step reports: the call goes on, or it returns a boolean. *)
Definition presult : Type := queue * ppc * option bool.

(** One step of the producer; [reply] is what [malloc] answers in a step that
    calls it: the address of the block and its element memory.  A failed
    assertion or an access outside the data has no result. *)
Definition pstep (reply : option (Z * list ptr)) (q : queue) (pc : ppc) : option presult :=
  match pc with
  | PIdle => None
  | PEnter element canAlloc =>
      let tailBlock_ := tailBlock q in
      b ← blocks q !! tailBlock_;
      let blockFront := localFront b in
      let blockTail := tail b in
      let nextBlockTail := Z.land (u64 (blockTail + 1)) (sizeMask b) in
      if negb (nextBlockTail =? blockFront)
      then Some (q, PWrite element tailBlock_ blockTail nextBlockTail, None)
      else Some (q, PReadFront element canAlloc tailBlock_ blockTail nextBlockTail, None)
  | PReadFront element canAlloc tailBlock_ blockTail nextBlockTail =>
      b ← blocks q !! tailBlock_;
      let q := set_block tailBlock_ (set_localFront (front b) b) q in
      if negb (nextBlockTail =? front b)
      then Some (q, PWrite element tailBlock_ blockTail nextBlockTail, None)
      else Some (q, PCheckNext element canAlloc tailBlock_, None)
  | PWrite element tailBlock_ blockTail nextBlockTail =>
      b ← blocks q !! tailBlock_;
      b ← set_data blockTail element b;
      Some (set_block tailBlock_ b q, PPublish element tailBlock_ nextBlockTail, None)
  | PPublish element tailBlock_ nextBlockTail =>
      b ← blocks q !! tailBlock_;
      Some (set_block tailBlock_ (set_tail nextBlockTail b) q, PIdle, Some true)
  | PCheckNext element canAlloc tailBlock_ =>
      b ← blocks q !! tailBlock_;
      if negb (next b =? frontBlock q) then Some (q, PNextRead element tailBlock_, None)
      else if canAlloc then Some (q, PAlloc element tailBlock_, None)
      else Some (q, PIdle, Some false)
  | PNextRead element tailBlock_ =>
      b ← blocks q !! tailBlock_;
      let tailBlockNext := next b in
      bn ← blocks q !! tailBlockNext;
      let nextBlockFront := front bn in
      let nextBlockTail := tail bn in
      if negb (nextBlockFront =? nextBlockTail) then None
      else Some (set_block tailBlockNext (set_localFront nextBlockFront bn) q,
                 PNextWrite element tailBlockNext nextBlockTail, None)
  | PNextWrite element tailBlockNext nextBlockTail =>
      bn ← blocks q !! tailBlockNext;
      bn ← set_data nextBlockTail element bn;
      Some (set_block tailBlockNext bn q, PNextPublish element tailBlockNext nextBlockTail, None)
  | PNextPublish element tailBlockNext nextBlockTail =>
      bn ← blocks q !! tailBlockNext;
      Some (set_block tailBlockNext (set_tail (Z.land (u64 (nextBlockTail + 1)) (sizeMask bn)) bn) q,
            PNextAdvance element tailBlockNext, None)
  | PNextAdvance element tailBlockNext =>
      Some (set_tailBlock tailBlockNext q, PIdle, Some true)
  | PAlloc element tailBlock_ =>
      let newBlockSize := if MAX_BLOCK_SIZE <=? largestBlockSize q then largestBlockSize q
                          else u64 (largestBlockSize q * 2) in
      match reply with
      | None => Some (q, PIdle, Some false)
      | Some (newBlock, raw) =>
          let q := mk_queue (blocks q) (frontBlock q) (tailBlock q) newBlockSize in
          b ← blocks q !! tailBlock_;
          bn ← set_data 0 element (new_block newBlockSize raw);
          let bn := set_next (next b) (set_localTail 1 (set_tail 1 bn)) in
          Some (set_block newBlock bn q, PLink element tailBlock_ newBlock, None)
      end
  | PLink element tailBlock_ newBlock =>
      b ← blocks q !! tailBlock_;
      Some (set_block tailBlock_ (set_next newBlock b) q, PAdvance element newBlock, None)
  | PAdvance element newBlock =>
      Some (set_tailBlock newBlock q, PIdle, Some true)
  end.

(** ** The consumer: [try_dequeue], [peek] and [pop] *)
Inductive cop := TryDequeue | Peek | Pop.

Inductive cpc :=
| CIdle
| CEnter (op : cop)                                              (* 209, 292, 334 *)
| CReadTail (op : cop) (frontBlock_ blockFront : Z)              (* 213, second test *)
| CCheckTail (op : cop) (frontBlock_ : Z)                        (* 227 *)
| CAgain (op : cop)                                              (* 230 *)
| CRead (op : cop) (frontBlock_ blockFront : Z)                  (* 218 *)
| CPublish (op : cop) (frontBlock_ blockFront : Z) (result : ptr) (* 225, 269 *)
| CNext (op : cop) (frontBlock_ : Z)                             (* 241 *)
| CNextTail (op : cop) (nextBlock nextBlockFront : Z)            (* 247 *)
| CAdvance (op : cop) (nextBlock nextBlockFront : Z)             (* 257 *)
| CNextRead (op : cop) (frontBlock_ nextBlockFront : Z).         (* 261 *)

(** The call goes on, or it returns the element ([pop] drops it) or nothing. *)
Definition cresult : Type := queue * cpc * option (option ptr).

Definition is_peek (op : cop) : bool := match op with Peek => true | _ => false end.

Definition cstep (q : queue) (pc : cpc) : option cresult :=
  match pc with
  | CIdle => None
  | CEnter op =>
      let frontBlock_ := frontBlock q in
      b ← blocks q !! frontBlock_;
      let blockTail := localTail b in
      let blockFront := front b in
      if negb (blockFront =? blockTail) then Some (q, CRead op frontBlock_ blockFront, None)
      else Some (q, CReadTail op frontBlock_ blockFront, None)
  | CReadTail op frontBlock_ blockFront =>
      b ← blocks q !! frontBlock_;
      let q := set_block frontBlock_ (set_localTail (tail b) b) q in
      if negb (blockFront =? tail b) then Some (q, CRead op frontBlock_ blockFront, None)
      else Some (q, CCheckTail op frontBlock_, None)
  | CCheckTail op frontBlock_ =>
      if negb (frontBlock_ =? tailBlock q) then Some (q, CAgain op, None)
      else Some (q, CIdle, Some None)
  | CAgain op =>
      let frontBlock_ := frontBlock q in
      b ← blocks q !! frontBlock_;
      let blockTail := tail b in
      let q := set_block frontBlock_ (set_localTail blockTail b) q in
      let blockFront := front b in
      if negb (blockFront =? blockTail) then Some (q, CRead op frontBlock_ blockFront, None)
      else Some (q, CNext op frontBlock_, None)
  | CRead op frontBlock_ blockFront =>
      b ← blocks q !! frontBlock_;
      element ← get_data blockFront b;
      if is_peek op then Some (q, CIdle, Some (Some element))
      else Some (q, CPublish op frontBlock_ (Z.land (u64 (blockFront + 1)) (sizeMask b)) element, None)
  | CPublish op frontBlock_ blockFront result =>
      b ← blocks q !! frontBlock_;
      Some (set_block frontBlock_ (set_front blockFront b) q, CIdle, Some (Some result))
  | CNext op frontBlock_ =>
      b ← blocks q !! frontBlock_;
      let nextBlock := next b in
      bn ← blocks q !! nextBlock;
      Some (q, CNextTail op nextBlock (front bn), None)
  | CNextTail op nextBlock nextBlockFront =>
      bn ← blocks q !! nextBlock;
      if nextBlockFront =? tail bn then None
      else if is_peek op then
        element ← get_data nextBlockFront bn; Some (q, CIdle, Some (Some element))
      else Some (set_block nextBlock (set_localTail (tail bn) bn) q, CAdvance op nextBlock nextBlockFront, None)
  | CAdvance op nextBlock nextBlockFront =>
      Some (set_frontBlock nextBlock q, CNextRead op nextBlock nextBlockFront, None)
  | CNextRead op frontBlock_ nextBlockFront =>
      b ← blocks q !! frontBlock_;
      element ← get_data nextBlockFront b;
      Some (q, CPublish op frontBlock_ (Z.land (u64 (nextBlockFront + 1)) (sizeMask b)) element, None)
  end.

(** ** Construction *)

(** [for (i = 1; i < sizeof(size_t); i <<= 1) x |= x >> (i << 3)] *)
Fixpoint smear_loop (fuel : nat) (i x : Z) : option Z :=
  if i <? 8 then
    match fuel with
    | O => None
    | S fuel => smear_loop fuel (Z.shiftl i 1) (Z.lor x (Z.shiftr x (Z.shiftl i 3)))
    end
  else Some x.

Definition ceilToPow2 (x : Z) : option Z :=
  let x := u64 (x - 1) in
  let x := Z.lor x (Z.shiftr x 1) in
  let x := Z.lor x (Z.shiftr x 2) in
  let x := Z.lor x (Z.shiftr x 4) in
  x ← smear_loop 3 1 x;
  Some (u64 (x + 1)).

(** The loop of the constructor: [replies] are the addresses and memories that
    [malloc] returns; running out of them is the [std::bad_alloc]. *)
Fixpoint init_blocks (n : nat) (replies : list (Z * list ptr)) (size : Z)
  (heap : gmap Z block) (firstBlock lastBlock : Z) : option (gmap Z block * Z) :=
  match n with
  | O => Some (heap, firstBlock)
  | S n =>
      match replies with
      | [] => None
      | (block, raw) :: replies =>
          let heap := <[block := new_block size raw]> heap in
          if firstBlock =? NULL then
            let heap := <[block := set_next block (new_block size raw)]> heap in
            init_blocks n replies size heap block block
          else
            last ← heap !! lastBlock;
            let heap := <[lastBlock := set_next block last]> heap in
            let heap := <[block := set_next firstBlock (new_block size raw)]> heap in
            init_blocks n replies size heap firstBlock block
      end
  end.

(** The number of blocks and their size. *)
Definition initial_shape (maxSize : Z) : option (Z * Z) :=
  largest ← ceilToPow2 (u64 (maxSize + 1));
  if u64 (MAX_BLOCK_SIZE * 2) <? largest
  then Some (u64 (maxSize + MAX_BLOCK_SIZE * 2 - 3) / (MAX_BLOCK_SIZE - 1), MAX_BLOCK_SIZE)
  else Some (1, largest).

Definition ReaderWriterQueue_new (maxSize : Z) (replies : list (Z * list ptr)) : option queue :=
  '(initialBlockCount, size) ← initial_shape maxSize;
  '(heap, firstBlock) ← init_blocks (Z.to_nat initialBlockCount) replies size ∅ NULL NULL;
  Some (mk_queue heap firstBlock firstBlock size).

(** ** Count and destruction *)

(** The [do ... while] loop from [block] on. *)
Fixpoint approx_loop (fuel : nat) (heap : gmap Z block) (frontBlock_ block result : Z) : option Z :=
  match fuel with
  | O => None
  | S fuel =>
      b ← heap !! block;
      let result := u64 (result + Z.land (u64 (tail b - front b)) (sizeMask b)) in
      if next b =? frontBlock_ then Some result
      else approx_loop fuel heap frontBlock_ (next b) result
  end.

Definition size_approx (q : queue) : option Z :=
  approx_loop (size (blocks q)) (blocks q) (frontBlock q) (frontBlock q) 0.

(** The elements a block's destructor loop visits. *)
Fixpoint block_loop (fuel : nat) (b : block) (i : Z) : option (list ptr) :=
  if i =? tail b then Some []
  else match fuel with
       | O => None
       | S fuel => x ← get_data i b; xs ← block_loop fuel b (Z.land (u64 (i + 1)) (sizeMask b)); Some (x :: xs)
       end.

(** The destructor: the destroyed elements and the freed blocks, in order. *)
Fixpoint destroy_loop (fuel : nat) (heap : gmap Z block) (frontBlock_ block : Z) : option (list ptr * list Z) :=
  match fuel with
  | O => None
  | S fuel =>
      b ← heap !! block;
      xs ← block_loop (length (data b)) b (front b);
      if next b =? frontBlock_ then Some (xs, [block])
      else '(ys, freed) ← destroy_loop fuel (delete block heap) frontBlock_ (next b);
           Some (xs ++ ys, block :: freed)
  end.

Definition ReaderWriterQueue_delete (q : queue) : option (list ptr * list Z) :=
  destroy_loop (size (blocks q)) (blocks q) (frontBlock q) (frontBlock q).

(** ** What the queue holds: the elements between [front] and [tail] of each block
    from [frontBlock] to [tailBlock] *)
Fixpoint items (n : nat) (i size : Z) (d : list ptr) : list ptr :=
  match n with
  | O => []
  | S n => d !!! Z.to_nat i :: items n ((i + 1) mod size) size d
  end.

Definition block_size (b : block) : Z := sizeMask b + 1.
Definition count (b : block) : Z := (tail b - front b) mod block_size b.
Definition contents (b : block) : list ptr := items (Z.to_nat (count b)) (front b) (block_size b) (data b).

Fixpoint view_from (fuel : nat) (heap : gmap Z block) (block tailBlock_ : Z) : list ptr :=
  match fuel, heap !! block with
  | S fuel, Some b =>
      contents b ++ (if block =? tailBlock_ then [] else view_from fuel heap (next b) tailBlock_)
  | _, _ => []
  end.

Definition queue_view (q : queue) : list ptr :=
  view_from (size (blocks q)) (blocks q) (frontBlock q) (tailBlock q).

(** ** The system: a producer thread and a consumer thread *)
Record sys := mk_sys {
  sys_q : queue;
  sys_p : ppc;
  sys_c : cpc;
  (** history: the queue was empty at some moment since the consumer's last call *)
  seen_empty : bool
}.

Inductive action :=
| ACallProducer (element : ptr) (canAlloc : bool)   (* enqueue or try_enqueue *)
| AProducer (reply : option (Z * list ptr))         (* a step, with malloc's answer *)
| ACallConsumer (op : cop)
| AConsumer.

(** Returns of calls. *)
Inductive event :=
| EvEnqueued (element : ptr)
| EvEnqueueFailed (element : ptr)
| EvConsumed (op : cop) (result : option ptr).

Definition element_of (pc : ppc) : ptr :=
  match pc with
  | PIdle => NULL
  | PEnter e _ | PReadFront e _ _ _ _ | PWrite e _ _ _ | PPublish e _ _ | PCheckNext e _ _
  | PNextRead e _ | PNextWrite e _ _ | PNextPublish e _ _ | PNextAdvance e _ | PAlloc e _
  | PLink e _ _ | PAdvance e _ => e
  end.

Definition op_of (pc : cpc) : cop :=
  match pc with
  | CIdle => TryDequeue
  | CEnter o | CReadTail o _ _ | CCheckTail o _ | CAgain o | CRead o _ _ | CPublish o _ _ _
  | CNext o _ | CNextTail o _ _ | CAdvance o _ _ | CNextRead o _ _ => o
  end.

(** [malloc] returns fresh memory of the requested size. *)
Definition alloc_size (q : queue) : Z :=
  if MAX_BLOCK_SIZE <=? largestBlockSize q then largestBlockSize q else u64 (largestBlockSize q * 2).
Definition reply_ok (q : queue) (reply : option (Z * list ptr)) : bool :=
  match reply with
  | None => true
  | Some (a, raw) =>
      bool_decide (blocks q !! a = None) && negb (a =? NULL) && (Z.of_nat (length raw) =? alloc_size q)
  end.

Definition is_nil {A} (l : list A) : bool := match l with [] => true | _ => false end.

(** Records whether the queue is empty now. *)
Definition observe (s : sys) : sys :=
  mk_sys (sys_q s) (sys_p s) (sys_c s) (seen_empty s || is_nil (queue_view (sys_q s))).

Definition sys_act (s : sys) (a : action) : option (sys * list event) :=
  match a with
  | ACallProducer x canAlloc =>
      match sys_p s with
      | PIdle => Some (mk_sys (sys_q s) (PEnter x canAlloc) (sys_c s) (seen_empty s), [])
      | _ => None
      end
  | AProducer reply =>
      if reply_ok (sys_q s) reply then
        '(q, p, r) ← pstep reply (sys_q s) (sys_p s);
        Some (observe (mk_sys q p (sys_c s) (seen_empty s)),
              match r with
              | None => []
              | Some true => [EvEnqueued (element_of (sys_p s))]
              | Some false => [EvEnqueueFailed (element_of (sys_p s))]
              end)
      else None
  | ACallConsumer op =>
      match sys_c s with
      | CIdle => Some (observe (mk_sys (sys_q s) (sys_p s) (CEnter op) false), [])
      | _ => None
      end
  | AConsumer =>
      '(q, c, r) ← cstep (sys_q s) (sys_c s);
      Some (observe (mk_sys q (sys_p s) c (seen_empty s)),
            match r with None => [] | Some x => [EvConsumed (op_of (sys_c s)) x] end)
  end.

Fixpoint execute (acts : list action) (s : sys) : option (sys * list event) :=
  match acts with
  | [] => Some (s, [])
  | a :: acts => '(s, ev) ← sys_act s a; '(s, evs) ← execute acts s; Some (s, ev ++ evs)
  end.

(** The elements that enqueues put in, and those that dequeues took out. *)
Definition enqueued (evs : list event) : list ptr :=
  omap (fun e => match e with EvEnqueued x => Some x | _ => None end) evs.
Definition dequeued (evs : list event) : list ptr :=
  omap (fun e => match e with EvConsumed TryDequeue (Some x) | EvConsumed Pop (Some x) => Some x | _ => None end) evs.

(** ** src/src/pipe.cpp *)
Definition pipe_spsc_new (capacity : Z) (replies : list (Z * list ptr)) : option queue :=
  ReaderWriterQueue_new (u64 capacity) replies.
Definition pipe_spsc_enqueue (data : ptr) : action := ACallProducer data true.
Definition pipe_spsc_try_enqueue (data : ptr) : action := ACallProducer data false.
Definition pipe_spsc_try_dequeue : action := ACallConsumer TryDequeue.
(** What the caller of [pipe_spsc_try_dequeue] gets. *)
Definition pipe_result (r : option ptr) : ptr := match r with Some data => data | None => NULL end.
Definition pipe_spsc_count (q : queue) : option Z := size_approx q.
Definition pipe_spsc_delete (q : queue) : option (list ptr * list Z) := ReaderWriterQueue_delete q.
