(* ===== verification/SpscCorrect.v ===== *)
(** * Correctness of the single-producer single-consumer queue

    The invariant of the two-thread system of Spsc.v, that every step keeps it,
    and what follows: the returns of the calls form the history of a sequential
    FIFO queue, for every interleaving. *)
From S2P Require Import Prelude Spsc.

(** ** Circular buffers *)

Definition wf_block (b : block) : Prop :=
  (exists k, 1 <= k < 63 /\ sizeMask b + 1 = 2 ^ k) /\
  Z.of_nat (length (data b)) = block_size b /\
  0 <= front b < block_size b /\ 0 <= tail b < block_size b /\
  0 <= localFront b < block_size b /\ 0 <= localTail b < block_size b /\
  (* the copies are old values *)
  count b <= (tail b - localFront b) mod block_size b /\
  (localTail b - front b) mod block_size b <= count b.

Lemma mod_step x s : 0 < s -> 0 <= x < s -> (x + 1) mod s = if x + 1 =? s then 0 else x + 1.
Proof.
  intros Hs Hx. destruct (Z.eqb_spec (x + 1) s) as [->|]; [by apply Z.mod_same; lia|].
  apply Z.mod_small. lia.
Qed.

Lemma mod_diff x y s : 0 < s -> 0 <= x < s -> 0 <= y < s ->
  (x - y) mod s = if y <=? x then x - y else x - y + s.
Proof.
  intros Hs Hx Hy. destruct (Z.leb_spec y x); [apply Z.mod_small; lia|].
  rewrite <- (Z.mod_add _ 1), Z.mul_1_l by lia. apply Z.mod_small. lia.
Qed.

Lemma land_mask x k : 0 <= k -> Z.land x (2 ^ k - 1) = x mod 2 ^ k.
Proof. intros. rewrite <- Z.land_ones by done. by rewrite Z.ones_equiv. Qed.

(** The index arithmetic of the code: [(i + 1) & sizeMask] on [size_t]. *)
Lemma next_index b i :
  wf_block b -> 0 <= i < block_size b ->
  Z.land (u64 (i + 1)) (sizeMask b) = (i + 1) mod block_size b.
Proof.
  intros ((k & Hk & Hm) & _) Hi. unfold block_size in *.
  assert (2 ^ k <= 2 ^ 62) by (apply Z.pow_le_mono_r; lia).
  rewrite u64_small by (unfold is_u64; change (2 ^ 62) with 4611686018427387904 in *; lia).
  replace (sizeMask b) with (2 ^ k - 1) at 1 by lia. rewrite land_mask by lia. by rewrite Hm.
Qed.

Lemma block_size_pos b : wf_block b -> 2 <= block_size b.
Proof.
  intros ((k & Hk & Hm) & _). unfold block_size. rewrite Hm.
  change 2 with (2 ^ 1) at 1. apply Z.pow_le_mono_r; lia.
Qed.

Lemma count_range b : wf_block b -> 0 <= count b < block_size b.
Proof. intros Hb. pose proof (block_size_pos b Hb). apply Z.mod_pos_bound. lia. Qed.

Lemma count_0 b : wf_block b -> count b = 0 <-> front b = tail b.
Proof.
  intros Hb. pose proof (block_size_pos b Hb). destruct Hb as (_ & _ & Hf & Ht & _).
  unfold count. rewrite mod_diff by lia. case_Z; lia.
Qed.

Ltac ring_arith :=
  unfold count in *; rewrite ?mod_step in * by lia; repeat case_Z;
  rewrite ?mod_diff in * by lia; repeat case_Z; try lia.

(** *** [items] *)
Lemma items_snoc n i s d :
  0 <= i < s -> items (S n) i s d = items n i s d ++ [d !!! Z.to_nat ((i + Z.of_nat n) mod s)].
Proof.
  revert i. induction n as [|n IH]; intros i Hi.
  - simpl. by rewrite Z.add_0_r, Z.mod_small.
  - change (items (S (S n)) i s d) with (d !!! Z.to_nat i :: items (S n) ((i + 1) mod s) s d).
    rewrite IH by (apply Z.mod_pos_bound; lia). simpl. do 5 f_equal.
    rewrite Zplus_mod_idemp_l. f_equal. lia.
Qed.

Lemma items_insert n i s d j x :
  0 <= i < s -> 0 <= j < s -> (forall k, (k < n)%nat -> (i + Z.of_nat k) mod s <> j) ->
  items n i s (<[Z.to_nat j := x]> d) = items n i s d.
Proof.
  revert i. induction n as [|n IH]; intros i Hi Hj Hk; simpl; [done|]. f_equal.
  - specialize (Hk O ltac:(lia)). rewrite Z.add_0_r, Z.mod_small in Hk by done.
    apply list_lookup_total_insert_ne. lia.
  - apply IH; [apply Z.mod_pos_bound; lia|done|]. intros k Hkn.
    rewrite Zplus_mod_idemp_l. specialize (Hk (S k) ltac:(lia)).
    by replace (i + 1 + Z.of_nat k) with (i + Z.of_nat (S k)) by lia.
Qed.

Lemma contents_cons b :
  wf_block b -> front b <> tail b ->
  contents b = data b !!! Z.to_nat (front b) ::
    items (Z.to_nat (count b - 1)) ((front b + 1) mod block_size b) (block_size b) (data b).
Proof.
  intros Hb Hne. pose proof (count_range b Hb). rewrite <- (count_0 b Hb) in Hne. unfold contents.
  by replace (Z.to_nat (count b)) with (S (Z.to_nat (count b - 1))) by lia.
Qed.

Lemma length_contents b : wf_block b -> Z.of_nat (length (contents b)) = count b.
Proof.
  intros Hb. pose proof (count_range b Hb). unfold contents.
  assert (forall n i s d, length (items n i s d) = n) as ->; [|lia].
  intros n. induction n; intros; simpl; auto.
Qed.

Lemma contents_nil b : wf_block b -> front b = tail b -> contents b = [].
Proof.
  intros Hb He. apply (count_0 b Hb) in He. apply nil_length_inv.
  pose proof (length_contents b Hb). lia.
Qed.

(** ** The updates of the steps on one block *)
Lemma set_localFront_wf b : wf_block b -> wf_block (set_localFront (front b) b).
Proof.
  intros (H1 & H2 & H3 & H4 & H5 & H6 & H7 & H8).
  exact (conj H1 (conj H2 (conj H3 (conj H4 (conj H3 (conj H6 (conj (Z.le_refl _) H8))))))).
Qed.

Lemma set_localTail_wf b : wf_block b -> wf_block (set_localTail (tail b) b).
Proof.
  intros (H1 & H2 & H3 & H4 & H5 & H6 & H7 & H8).
  exact (conj H1 (conj H2 (conj H3 (conj H4 (conj H5 (conj H4 (conj H7 (Z.le_refl _)))))))).
Qed.

Lemma set_next_wf n b : wf_block b -> wf_block (set_next n b).
Proof. done. Qed.

(** Writing to the slot behind the last element does not change the contents. *)
Lemma set_data_wf b x :
  wf_block b -> exists b', set_data (tail b) x b = Some b' /\ wf_block b' /\
    contents b' = contents b /\ data b' !!! Z.to_nat (tail b) = x /\
    front b' = front b /\ tail b' = tail b /\ localFront b' = localFront b /\ localTail b' = localTail b /\
    next b' = next b /\ sizeMask b' = sizeMask b.
Proof.
  intros Hb. pose proof Hb as (H1 & H2 & H3 & H4 & H5 & H6 & H7 & H8). unfold set_data.
  rewrite (proj2 (Z.leb_le _ _)), (proj2 (Z.ltb_lt _ _)) by lia. simpl. eexists. split; [done|].
  split. { unfold wf_block; cbn [data]; rewrite length_insert.
    exact (conj H1 (conj H2 (conj H3 (conj H4 (conj H5 (conj H6 (conj H7 H8))))))). }
  split.
  { unfold contents, count, block_size; simpl. fold (block_size b) (count b). apply items_insert; [done|done|].
    intros k Hk. pose proof (count_range b Hb). intros E.
    assert (Z.of_nat k < count b) by lia. clear Hk. unfold count in *.
    rewrite mod_diff in * by lia. revert E.
    destruct (Z.ltb_spec (front b + Z.of_nat k) (block_size b)).
    - rewrite Z.mod_small by lia. repeat case_Z; lia.
    - rewrite <- (Z.mod_add _ (-1)), Z.mod_small by (repeat case_Z; lia). repeat case_Z; lia. }
  split; [|done]. simpl. apply list_lookup_total_insert_eq. lia.
Qed.

(** Publishing the new tail appends the element written there. *)
Lemma set_tail_wf b :
  wf_block b -> (tail b + 1) mod block_size b <> localFront b ->
  let b' := set_tail ((tail b + 1) mod block_size b) b in
  wf_block b' /\ contents b' = contents b ++ [data b !!! Z.to_nat (tail b)] /\ front b' <> tail b'.
Proof.
  intros Hb Hroom b'. pose proof (block_size_pos b Hb) as Hs. pose proof (count_range b Hb) as Hc.
  pose proof Hb as (H1 & H2 & H3 & H4 & H5 & H6 & H7 & H8).
  assert (count b' = count b + 1) as Hc'.
  { subst b'. unfold count, block_size in *; simpl. fold (block_size b) in *. ring_arith. }
  assert (wf_block b') as Hb'.
  { unfold wf_block. rewrite Hc'. subst b'. unfold block_size in *; simpl; fold (block_size b) in *.
    split; [done|]. split; [done|]. split; [done|]. split; [by apply Z.mod_pos_bound; lia|].
    split; [done|]. split; [done|]. split; [|lia]. ring_arith. }
  split; [done|]. split.
  - change (contents b') with (items (Z.to_nat (count b')) (front b) (block_size b) (data b)).
    rewrite Hc'. replace (Z.to_nat (count b + 1)) with (S (Z.to_nat (count b))) by lia.
    rewrite items_snoc by done. fold (contents b).
    do 4 f_equal. rewrite Z2Nat.id by lia. unfold count. rewrite Zplus_mod_idemp_r.
    replace (front b + (tail b - front b)) with (tail b) by lia. by apply Z.mod_small.
  - rewrite <- count_0, Hc' by done. lia.
Qed.

(** Publishing the new front drops the first element. *)
Lemma set_front_wf b :
  wf_block b -> localTail b <> front b ->
  let b' := set_front ((front b + 1) mod block_size b) b in
  wf_block b' /\ contents b = data b !!! Z.to_nat (front b) :: contents b'.
Proof.
  intros Hb Hne b'. pose proof (block_size_pos b Hb) as Hs. pose proof (count_range b Hb) as Hc.
  pose proof Hb as (H1 & H2 & H3 & H4 & H5 & H6 & H7 & H8).
  assert (1 <= count b) as Hc1 by ring_arith.
  assert (count b' = count b - 1) as Hc'.
  { subst b'. unfold count, block_size in *; simpl. fold (block_size b) in *. ring_arith. }
  split.
  - unfold wf_block. rewrite Hc'. subst b'. unfold block_size in *; simpl; fold (block_size b) in *.
    split; [done|]. split; [done|]. split; [by apply Z.mod_pos_bound; lia|].
    split; [done|]. split; [done|]. split; [done|]. split; [lia|]. ring_arith.
  - assert (front b <> tail b) by (rewrite <- count_0 by done; lia).
    rewrite contents_cons by done. f_equal. unfold contents. by rewrite Hc'.
Qed.

Lemma get_data_wf b i :
  wf_block b -> 0 <= i < block_size b -> get_data i b = Some (data b !!! Z.to_nat i).
Proof.
  intros Hb Hi. unfold get_data. rewrite (proj2 (Z.leb_le _ _)) by lia.
  apply list_lookup_lookup_total_lt. destruct Hb as (_ & E & _). lia.
Qed.

(** ** The invariant *)

(** [l] follows the [next] pointers. *)
Fixpoint linked (m : gmap Z block) (l : list Z) : Prop :=
  match l with
  | a :: l' => match l' with
               | [] => True
               | c :: _ => (exists b, m !! a = Some b /\ next b = c) /\ linked m l'
               end
  | [] => True
  end.

(** The blocks in a circle: [fs] from [frontBlock] to [tailBlock], then the free
    ones [gs]. *)
Record core (q : queue) (fs gs : list Z) : Prop := {
  c_nodup : NoDup (fs ++ gs);
  c_front : head fs = Some (frontBlock q);
  c_tail : last fs = Some (tailBlock q);
  c_wf : forall a, a ∈ fs ++ gs -> exists b, blocks q !! a = Some b /\ wf_block b;
  c_linked : linked (blocks q) (fs ++ gs ++ [frontBlock q]);
  c_mid : forall a b, a ∈ drop 1 fs -> blocks q !! a = Some b -> front b <> tail b;
  c_size : exists k, 1 <= k <= 10 /\ largestBlockSize q = 2 ^ k
}.

Definition free_empty (m : gmap Z block) (gs : list Z) : Prop :=
  forall a b, a ∈ gs -> m !! a = Some b -> front b = tail b.

Definition has (m : gmap Z block) (a : Z) (P : block -> Prop) : Prop := exists b, m !! a = Some b /\ P b.

(** A block with one element that is not visible to the consumer yet. *)
Definition pending (m : gmap Z block) (n e : Z) : Prop :=
  has m n (fun b => wf_block b /\ contents b = [e] /\ front b <> tail b).

(** What the producer knows at each of its points. *)
Definition pfact (q : queue) (fs gs : list Z) (p : ppc) : Prop :=
  let m := blocks q in
  match p with
  | PIdle | PEnter _ _ => free_empty m gs
  | PReadFront e al tb bt nbt =>
      free_empty m gs /\ tb = tailBlock q /\ has m tb (fun b => tail b = bt /\ (bt + 1) mod block_size b = nbt)
  | PWrite e tb bt nbt =>
      free_empty m gs /\ tb = tailBlock q /\
      has m tb (fun b => tail b = bt /\ (bt + 1) mod block_size b = nbt /\ nbt <> localFront b)
  | PPublish e tb nbt =>
      free_empty m gs /\ tb = tailBlock q /\
      has m tb (fun b => (tail b + 1) mod block_size b = nbt /\ nbt <> localFront b /\
                         data b !!! Z.to_nat (tail b) = e)
  | PCheckNext e al tb => free_empty m gs /\ tb = tailBlock q
  | PNextRead e tb => free_empty m gs /\ tb = tailBlock q /\ gs <> []
  | PNextWrite e n nbt =>
      free_empty m gs /\ head gs = Some n /\ has m n (fun b => tail b = nbt /\ localFront b = nbt)
  | PNextPublish e n nbt =>
      free_empty m gs /\ head gs = Some n /\
      has m n (fun b => tail b = nbt /\ localFront b = nbt /\ data b !!! Z.to_nat (tail b) = e)
  | PNextAdvance e n | PAdvance e n =>
      exists gs', gs = n :: gs' /\ free_empty m gs' /\ pending m n e
  | PAlloc e tb => free_empty m gs /\ tb = tailBlock q
  | PLink e tb n =>
      free_empty m gs /\ tb = tailBlock q /\ ~ (n ∈ fs ++ gs) /\ pending m n e /\
      exists b bn, m !! tb = Some b /\ m !! n = Some bn /\ next bn = next b
  end.

(** What the consumer knows. *)
Definition cfact (q : queue) (c : cpc) : Prop :=
  let m := blocks q in
  match c with
  | CIdle | CEnter _ => True
  | CReadTail _ fb bf => fb = frontBlock q /\ has m fb (fun b => front b = bf)
  | CCheckTail _ fb => fb = frontBlock q
  | CAgain _ => frontBlock q <> tailBlock q
  | CRead _ fb bf =>
      fb = frontBlock q /\ has m fb (fun b => front b = bf /\ localTail b <> front b)
  | CNextRead op fb bf =>
      is_peek op = false /\ fb = frontBlock q /\ has m fb (fun b => front b = bf /\ localTail b <> front b)
  | CPublish op fb nbf v =>
      is_peek op = false /\ fb = frontBlock q /\
      has m fb (fun b => (front b + 1) mod block_size b = nbf /\ localTail b <> front b /\
                         data b !!! Z.to_nat (front b) = v)
  | CNext _ fb => fb = frontBlock q /\ frontBlock q <> tailBlock q /\ has m fb (fun b => front b = tail b)
  | CNextTail _ nb nbf =>
      frontBlock q <> tailBlock q /\ has m (frontBlock q) (fun b => front b = tail b /\ next b = nb) /\
      has m nb (fun b => front b = nbf)
  | CAdvance op nb nbf =>
      is_peek op = false /\ frontBlock q <> tailBlock q /\ has m (frontBlock q) (fun b => front b = tail b /\ next b = nb) /\
      has m nb (fun b => front b = nbf /\ localTail b <> front b)
  end.

(** The elements of a list of blocks. *)
Definition fview (m : gmap Z block) (fs : list Z) : list ptr :=
  flat_map (fun a => match m !! a with Some b => contents b | None => [] end) fs.

(** ** Updates of one block *)
Lemma linked_insert m l a b b' :
  m !! a = Some b -> next b' = next b -> linked m l -> linked (<[a := b']> m) l.
Proof.
  intros Ha Hn. induction l as [|x [|y l] IH]; [done..|]. intros [(bx & Ex & Hx) Hl].
  split; [|by apply IH]. destruct (decide (x = a)) as [->|Hne].
  - exists b'. rewrite lookup_insert_eq. split; [done|]. by simplify_eq.
  - exists bx. by rewrite lookup_insert_ne.
Qed.

(** Replacing the pointer of a block whose successor comes last. *)
Lemma linked_insert_fresh m l a b' : a ∉ l -> linked m l -> linked (<[a := b']> m) l.
Proof.
  intros Ha. induction l as [|x [|y l] IH]; [done..|]. intros [(bx & Ex & Hx) Hl].
  apply not_elem_of_cons in Ha as [Hne Ha]. split; [|by apply IH].
  exists bx. by rewrite lookup_insert_ne.
Qed.

Lemma linked_app m l x k :
  linked m (l ++ x :: k) <-> linked m (l ++ [x]) /\ linked m (x :: k).
Proof.
  induction l as [|y [|z l] IH].
  - simpl. tauto.
  - simpl. destruct k; simpl; tauto.
  - change (linked m ((y :: z :: l) ++ x :: k)) with
      ((exists b, m !! y = Some b /\ next b = z) /\ linked m ((z :: l) ++ x :: k)).
    change (linked m ((y :: z :: l) ++ [x])) with
      ((exists b, m !! y = Some b /\ next b = z) /\ linked m ((z :: l) ++ [x])).
    rewrite IH. tauto.
Qed.

Lemma core_update q fs gs a b b' :
  core q fs gs -> blocks q !! a = Some b -> wf_block b' -> next b' = next b ->
  (a ∈ drop 1 fs -> front b' <> tail b') -> core (set_block a b' q) fs gs.
Proof.
  intros [H1 H2 H3 H4 H5 H6 H7] Ha Hw Hn Hm. split; simpl; try done.
  - intros x Hx. destruct (decide (x = a)) as [->|Hne].
    + exists b'. by rewrite lookup_insert_eq.
    + rewrite lookup_insert_ne by done. by apply H4.
  - by eapply linked_insert.
  - intros x bx Hx Ex. destruct (decide (x = a)) as [->|Hne].
    + rewrite lookup_insert_eq in Ex. simplify_eq. by apply Hm.
    + rewrite lookup_insert_ne in Ex by done. by eapply H6.
Qed.

Lemma has_update m a b b' x (P Q : block -> Prop) :
  m !! a = Some b -> (x = a -> P b -> Q b') -> (x <> a -> forall bx, P bx -> Q bx) ->
  has m x P -> has (<[a := b']> m) x Q.
Proof.
  intros Ha H1 H2 (bx & Ex & Hx). unfold has. destruct (decide (x = a)) as [->|Hne].
  - simplify_eq. exists b'. rewrite lookup_insert_eq. auto.
  - exists bx. rewrite lookup_insert_ne by done. auto.
Qed.

Lemma free_empty_update m gs a b' :
  free_empty m gs -> (a ∈ gs -> front b' = tail b') -> free_empty (<[a := b']> m) gs.
Proof.
  intros Hf Ha x bx Hx Ex. destruct (decide (x = a)) as [->|Hne].
  - rewrite lookup_insert_eq in Ex. simplify_eq. auto.
  - rewrite lookup_insert_ne in Ex by done. by eapply Hf.
Qed.

(** The producer's stores do not disturb the consumer. *)
Lemma cfact_update q a b b' c :
  cfact q c -> blocks q !! a = Some b -> front b' = front b -> localTail b' = localTail b ->
  sizeMask b' = sizeMask b ->
  (localTail b <> front b -> data b' !!! Z.to_nat (front b) = data b !!! Z.to_nat (front b)) ->
  (a = frontBlock q -> frontBlock q <> tailBlock q -> tail b' = tail b /\ next b' = next b) ->
  cfact (set_block a b' q) c.
Proof.
  intros Hc Ha Hf Hl Hm Hd Ht. unfold block_size in *.
  destruct c; simpl in *; unfold block_size in *; try done;
    repeat match goal with
    | H : _ /\ _ |- _ => destruct H
    | |- _ /\ _ => split
    end; try done.
  all: eapply has_update; [done| | |eassumption]; [intros Hxa|by auto].
  all: simpl; rewrite ?Hf, ?Hl, ?Hm; try done.
  all: subst; try (destruct Ht as [-> ->]; done).
  - intros (? & ? & ?). by rewrite Hd.
  - by destruct Ht as [-> _].
Qed.

(** The consumer's stores do not disturb the producer. *)
Lemma pfact_update q fs gs a b b' p :
  core q fs gs -> pfact q fs gs p -> a ∈ fs -> blocks q !! a = Some b ->
  tail b' = tail b -> localFront b' = localFront b -> sizeMask b' = sizeMask b -> data b' = data b ->
  next b' = next b -> pfact (set_block a b' q) fs gs p.
Proof.
  intros Hq Hp Ha Ea Ht Hl Hm Hd Hn.
  assert (forall x, x ∈ gs -> x <> a) as Hgs.
  { intros x Hx ->. pose proof (c_nodup _ _ _ Hq) as (_ & Hnd & _)%NoDup_app. by eapply Hnd. }
  assert (forall g, (forall x, x ∈ g -> x ∈ gs) -> free_empty (blocks q) g -> free_empty (<[a := b']> (blocks q)) g) as Hfe.
  { intros g Hg Hf. apply free_empty_update; [done|]. intros Hag%Hg. by destruct (Hgs a). }
  assert (forall n e, n <> a -> pending (blocks q) n e -> pending (<[a := b']> (blocks q)) n e) as Hpe.
  { intros n e Hne Hpd. eapply has_update; [done| | |exact Hpd]; [by intros ->|by auto]. }
  destruct p; simpl in *; unfold block_size in *;
    repeat match goal with
    | H : _ /\ _ |- _ => destruct H
    | |- _ /\ _ => split
    end; try done; try (by apply Hfe).
  all: try (eapply has_update; [done| | |eassumption]; [intros ->; by rewrite ?Ht, ?Hl, ?Hm, ?Hd|by auto]).
  all: try (match goal with H : exists gs', _ |- _ => destruct H as (gs' & -> & Hf & Hpd) end;
            exists gs'; (split; [done|]); split; [apply Hfe; [intros; by right|done]|
            apply Hpe; [apply Hgs; left|done]]).
  - apply Hpe; [|done]. intros ->.
    match goal with H : ~ (_ ∈ _) |- _ => apply H end. apply elem_of_app. by left.
  - match goal with H : exists b bn, _ |- _ => destruct H as (b1 & b2 & E1 & E2 & E3) end.
    assert (newBlock <> a).
    { intros ->. match goal with H : ~ (_ ∈ _) |- _ => apply H end. apply elem_of_app. by left. }
    destruct (decide (tailBlock_ = a)) as [->|Hne].
    + simplify_eq. exists b', b2. rewrite lookup_insert_eq, lookup_insert_ne by done. by rewrite Hn.
    + exists b1, b2. by rewrite !lookup_insert_ne by done.
Qed.

(** ** The view *)
Lemma fview_update m fs a b b' :
  m !! a = Some b -> contents b' = contents b -> fview (<[a := b']> m) fs = fview m fs.
Proof.
  intros Ha Hc. apply flat_map_ext. intros x. destruct (decide (x = a)) as [->|Hne].
  - by rewrite lookup_insert_eq, Ha.
  - by rewrite lookup_insert_ne.
Qed.

Lemma fview_other m fs a b' : a ∉ fs -> fview (<[a := b']> m) fs = fview m fs.
Proof.
  intros Ha. induction fs as [|x fs IH]; simpl; [done|]. apply not_elem_of_cons in Ha as [Hne Ha].
  rewrite IH by done. by rewrite lookup_insert_ne by done.
Qed.

Lemma fview_app m fs gs : fview m (fs ++ gs) = fview m fs ++ fview m gs.
Proof. apply flat_map_app. Qed.

Lemma NoDup_size {A} (m : gmap Z A) (l : list Z) :
  NoDup l -> (forall a, a ∈ l -> is_Some (m !! a)) -> (length l <= size m)%nat.
Proof.
  intros Hd Hm. rewrite <- size_dom. rewrite <- (size_list_to_set (C := gset Z)) by done.
  apply subseteq_size. intros a Ha. apply elem_of_list_to_set in Ha. apply elem_of_dom. auto.
Qed.

Lemma view_from_spec m fs : forall fuel a t,
  head fs = Some a -> last fs = Some t -> NoDup fs -> linked m fs ->
  (forall x, x ∈ fs -> is_Some (m !! x)) -> (length fs <= fuel)%nat -> view_from fuel m a t = fview m fs.
Proof.
  induction fs as [|x fs IH]; intros fuel a t Hh Hl Hd Hk Hm Hf; [done|]. simpl in Hh. simplify_eq.
  destruct fuel as [|fuel]; [simpl in Hf; lia|]. simpl.
  destruct (Hm a) as [b Eb]; [left|]. rewrite Eb. destruct fs as [|y fs].
  - simpl in Hl. simplify_eq. by rewrite Z.eqb_refl.
  - destruct Hk as [(b' & Eb' & Hn) Hk]. simplify_eq. apply NoDup_cons in Hd as [Hna Hd].
    rewrite last_cons_cons in Hl. rewrite (proj2 (Z.eqb_neq a t)).
    + f_equal. apply IH; [done|done|done|done| |simpl in *; lia]. intros z Hz. apply Hm. by right.
    + intros ->. apply Hna. by apply last_Some_elem_of.
Qed.

Lemma queue_view_spec q fs gs : core q fs gs -> queue_view q = fview (blocks q) fs.
Proof.
  intros [H1 H2 H3 H4 H5 H6 H7].
  assert (forall a, a ∈ fs -> is_Some (blocks q !! a)) as Hm.
  { intros a Ha. destruct (H4 a) as (b & -> & _); [apply elem_of_app; by left|done]. }
  apply view_from_spec; try done.
  - by apply NoDup_app in H1 as [? _].
  - clear -H5. induction fs as [|x [|y fs] IH]; [done..|]. destruct H5 as [? H5]. split; [done|by apply IH].
  - apply NoDup_size; [|done]. by apply NoDup_app in H1 as [? _].
Qed.

(** ** The producer's steps *)

(** What a producer step achieves: the invariant again, the element appended
    exactly when the call returns [true], and the consumer undisturbed. *)
Definition p_post (q : queue) (fs : list Z) (p : ppc) (c : cpc) (res : presult) : Prop :=
  let '(q', p', r) := res in
  exists fs' gs', core q' fs' gs' /\ pfact q' fs' gs' p' /\ cfact q' c /\
    fview (blocks q') fs' = fview (blocks q) fs ++ (match r with Some true => [element_of p] | _ => [] end) /\
    frontBlock q' = frontBlock q /\ (frontBlock q <> tailBlock q -> frontBlock q' <> tailBlock q').

Lemma tail_in q fs gs : core q fs gs -> tailBlock q ∈ fs.
Proof. intros Hq. apply last_Some_elem_of, (c_tail _ _ _ Hq). Qed.

Lemma front_in q fs gs : core q fs gs -> frontBlock q ∈ fs.
Proof. intros Hq. apply head_Some_elem_of, (c_front _ _ _ Hq). Qed.

Lemma block_of q fs gs a : core q fs gs -> a ∈ fs ++ gs -> exists b, blocks q !! a = Some b /\ wf_block b.
Proof. intros Hq. apply (c_wf _ _ _ Hq). Qed.

Lemma tail_block q fs gs : core q fs gs -> exists b, blocks q !! tailBlock q = Some b /\ wf_block b.
Proof. intros Hq. apply (block_of _ _ _ _ Hq). apply elem_of_app. left. by eapply tail_in. Qed.

Lemma front_block q fs gs : core q fs gs -> exists b, blocks q !! frontBlock q = Some b /\ wf_block b.
Proof. intros Hq. apply (block_of _ _ _ _ Hq). apply elem_of_app. left. by eapply front_in. Qed.

Lemma core_mid_front q fs gs b b' a :
  core q fs gs -> blocks q !! a = Some b -> front b' = front b -> tail b' = tail b ->
  a ∈ drop 1 fs -> front b' <> tail b'.
Proof. intros Hq Ea -> -> Ha. by eapply (c_mid _ _ _ Hq). Qed.

(** A store that changes nothing the other thread looks at. *)
Lemma p_silent q fs gs c a b b' :
  core q fs gs -> blocks q !! a = Some b -> wf_block b' -> contents b' = contents b ->
  front b' = front b -> tail b' = tail b -> next b' = next b -> sizeMask b' = sizeMask b ->
  localTail b' = localTail b ->
  (localTail b <> front b -> data b' !!! Z.to_nat (front b) = data b !!! Z.to_nat (front b)) ->
  cfact q c ->
  core (set_block a b' q) fs gs /\ cfact (set_block a b' q) c /\
  fview (blocks (set_block a b' q)) fs = fview (blocks q) fs.
Proof.
  intros Hq Ea Hw Hc Hf Ht Hn Hm Hl Hd Hcf. split; [|split].
  - eapply core_update; [done..|]. by eapply core_mid_front.
  - by eapply cfact_update.
  - by eapply fview_update.
Qed.

Section producer.
Context (q : queue) (fs gs : list Z) (c : cpc) (Hq : core q fs gs) (Hcf : cfact q c).

(** A step that leaves the queue as it is. *)
Lemma p_post_same p p' r :
  pfact q fs gs p' -> r <> Some true -> p_post q fs p c (q, p', r).
Proof.
  intros Hp Hr. exists fs, gs. repeat (split; [done|]). split; [|done].
  destruct r as [[|]|]; [done|by rewrite app_nil_r..].
Qed.

(** A silent store. *)
Lemma p_post_silent p p' a b b' :
  blocks q !! a = Some b -> wf_block b' -> contents b' = contents b ->
  front b' = front b -> tail b' = tail b -> next b' = next b -> sizeMask b' = sizeMask b ->
  localTail b' = localTail b ->
  (localTail b <> front b -> data b' !!! Z.to_nat (front b) = data b !!! Z.to_nat (front b)) ->
  pfact (set_block a b' q) fs gs p' -> p_post q fs p c (set_block a b' q, p', None).
Proof.
  intros Ea Hw Hc Hf Ht Hn Hm Hl Hd Hp.
  destruct (p_silent q fs gs c a b b') as (H1 & H2 & H3); [done..|].
  exists fs, gs. rewrite H3, app_nil_r. by repeat (split; [done|]).
Qed.

Lemma free_empty_silent a b b' :
  free_empty (blocks q) gs -> blocks q !! a = Some b -> front b' = front b -> tail b' = tail b ->
  free_empty (<[a := b']> (blocks q)) gs.
Proof.
  intros Hf Ea E1 E2. apply free_empty_update; [done|]. intros Ha. rewrite E1, E2. by eapply Hf.
Qed.

Lemma penter_ok reply e al :
  pfact q fs gs (PEnter e al) -> exists res, pstep reply q (PEnter e al) = Some res /\ p_post q fs (PEnter e al) c res.
Proof.
  intros Hp. simpl in Hp. destruct (tail_block q fs gs Hq) as (b & Eb & Hb). simpl. rewrite Eb. simpl.
  assert (0 <= tail b < block_size b) by apply Hb. rewrite next_index by done.
  destruct (Z.eqb_spec ((tail b + 1) mod block_size b) (localFront b)) as [E|E]; simpl;
    eexists; (split; [done|]); apply p_post_same; try done; simpl.
  - split; [done|]. split; [done|]. exists b. auto.
  - split; [done|]. split; [done|]. exists b. auto.
Qed.

Lemma preadfront_ok reply e al tb bt nbt :
  let p := PReadFront e al tb bt nbt in
  pfact q fs gs p -> exists res, pstep reply q p = Some res /\ p_post q fs p c res.
Proof.
  intros p (Hf & -> & b & Eb & <- & Hn). destruct (tail_block q fs gs Hq) as (b0 & Eb0 & Hb). simplify_eq.
  simpl. rewrite Eb. simpl.
  destruct (Z.eqb_spec ((tail b + 1) mod block_size b) (front b)) as [E|E]; simpl;
    eexists; (split; [done|]); eapply p_post_silent; try done; try by apply set_localFront_wf.
  - split; [by eapply free_empty_silent|done].
  - split; [by eapply free_empty_silent|]. split; [done|].
    exists (set_localFront (front b) b). simpl. rewrite lookup_insert_eq. done.
Qed.

(** The slot that is written is behind the element the consumer may be reading. *)
Lemma written_not_front b b' x :
  wf_block b -> set_data (tail b) x b = Some b' -> localTail b <> front b ->
  data b' !!! Z.to_nat (front b) = data b !!! Z.to_nat (front b).
Proof.
  intros Hb Hs Hne. unfold set_data in Hs. case_match; [|done]. simplify_eq. simpl.
  destruct Hb as (H1 & H2 & H3 & H4 & H5 & H6 & H7 & H8).
  apply list_lookup_total_insert_ne. intros E. assert (tail b = front b) as Et by lia.
  unfold count in H8. rewrite Et, Z.sub_diag, Z.mod_0_l, mod_diff in H8 by lia.
  revert H8. case_Z; lia.
Qed.

Lemma pwrite_ok reply e tb bt nbt :
  let p := PWrite e tb bt nbt in
  pfact q fs gs p -> exists res, pstep reply q p = Some res /\ p_post q fs p c res.
Proof.
  intros p (Hf & -> & b & Eb & <- & <- & Hne). destruct (tail_block q fs gs Hq) as (b0 & Eb0 & Hb). simplify_eq.
  destruct (set_data_wf b e Hb) as (b' & Es & Hb' & Hc & Hd & E1 & E2 & E3 & E4 & E5 & E6).
  simpl. rewrite Eb. simpl. rewrite Es. simpl. eexists. split; [done|].
  eapply p_post_silent; try done; [by eapply written_not_front|].
  split; [by eapply free_empty_silent|]. split; [done|].
  exists b'. simpl. rewrite lookup_insert_eq. unfold block_size. rewrite E2, E3, E6. done.
Qed.

Lemma ppublish_ok reply e tb nbt :
  let p := PPublish e tb nbt in
  pfact q fs gs p -> exists res, pstep reply q p = Some res /\ p_post q fs p c res.
Proof.
  intros p (Hf & -> & b & Eb & <- & Hne & Hd). destruct (tail_block q fs gs Hq) as (b0 & Eb0 & Hb). simplify_eq.
  destruct (set_tail_wf b Hb Hne) as (Hb' & Hc & Hft).
  set (b' := set_tail ((tail b + 1) mod block_size b) b) in *.
  simpl. rewrite Eb. simpl. eexists. split; [done|]. exists fs, gs. fold b'.
  split; [by eapply core_update|]. split.
  { simpl. apply free_empty_update; [done|]. intros Hg. exfalso.
    pose proof (c_nodup _ _ _ Hq) as (_ & Hnd & _)%NoDup_app. eapply Hnd; [by eapply tail_in|done]. }
  split; [by eapply cfact_update; [| | | | | |intros <-]|]. split; [|done].
  pose proof (c_tail _ _ _ Hq) as (fs' & ->)%last_Some.
  rewrite !fview_app. simpl. rewrite lookup_insert_eq, Eb, !app_nil_r, Hc.
  rewrite fview_other; [by rewrite <- app_assoc|].
  pose proof (c_nodup _ _ _ Hq) as (Hnd & _)%NoDup_app. apply NoDup_app in Hnd as (_ & Hnd & _).
  intros Hi. apply (Hnd _ Hi). by left.
Qed.
End producer.

Lemma not_in_both q fs gs a : core q fs gs -> a ∈ gs -> a ∉ fs.
Proof. intros Hq Hg Hf. pose proof (c_nodup _ _ _ Hq) as (_ & Hnd & _)%NoDup_app. by eapply Hnd. Qed.

(** Behind the tail block come the free blocks, then the front block. *)
Lemma tail_next q fs gs b :
  core q fs gs -> blocks q !! tailBlock q = Some b -> head (gs ++ [frontBlock q]) = Some (next b).
Proof.
  intros Hq Eb. pose proof (c_tail _ _ _ Hq) as (fs' & ->)%last_Some. pose proof (c_linked _ _ _ Hq) as Hl.
  rewrite <- app_assoc in Hl. simpl in Hl. apply linked_app in Hl as [_ Hl].
  destruct gs as [|g gs]; simpl in *; destruct Hl as [(b' & Eb' & <-) _]; by simplify_eq.
Qed.

(** The tail moves on to the first free block, which holds one element. *)
Lemma core_advance q fs n gs :
  core q fs (n :: gs) -> has (blocks q) n (fun b => front b <> tail b) ->
  core (set_tailBlock n q) (fs ++ [n]) gs.
Proof.
  intros [H1 H2 H3 H4 H5 H6 H7] (bn & En & Hn).
  assert (forall (l : list Z), (fs ++ [n]) ++ l = fs ++ n :: l) as Happ by (intros; by rewrite <- app_assoc).
  split; simpl; try done.
  - by rewrite Happ.
  - destruct fs; [done|]. done.
  - apply last_snoc.
  - intros a. rewrite Happ. apply H4.
  - rewrite Happ. exact H5.
  - intros a b Ha Eb. destruct fs as [|f fs]; [done|]. simpl in Ha.
    apply elem_of_app in Ha as [Ha|Ha]; [by eapply H6|].
    apply list_elem_of_singleton in Ha as ->. by simplify_eq.
Qed.

Lemma cfact_tail q n c : cfact q c -> frontBlock q <> n -> cfact (set_tailBlock n q) c.
Proof.
  intros Hc Hn. destruct c; simpl in *; try done.
  - by destruct Hc as (? & _ & ?).
  - by destruct Hc as (_ & ? & ?).
  - by destruct Hc as (? & _ & ?).
Qed.

Section producer2.
Context (q : queue) (fs gs : list Z) (c : cpc) (Hq : core q fs gs) (Hcf : cfact q c).

Lemma pchecknext_ok reply e al tb :
  let p := PCheckNext e al tb in
  pfact q fs gs p -> exists res, pstep reply q p = Some res /\ p_post q fs p c res.
Proof.
  intros p (Hf & ->). destruct (tail_block q fs gs Hq) as (b & Eb & Hb).
  pose proof (tail_next q fs gs b Hq Eb) as Hh.
  simpl. rewrite Eb. simpl. destruct (Z.eqb_spec (next b) (frontBlock q)) as [E|E]; simpl.
  - destruct al; (eexists; split; [done|]; by eapply p_post_same).
  - eexists; split; [done|]. eapply p_post_same; [done..| |done]. split; [done|]. split; [done|].
    intros ->. simpl in Hh. congruence.
Qed.

Lemma pnextread_ok reply e tb :
  let p := PNextRead e tb in
  pfact q fs gs p -> exists res, pstep reply q p = Some res /\ p_post q fs p c res.
Proof.
  intros p (Hf & -> & Hne). destruct (tail_block q fs gs Hq) as (b & Eb & Hb).
  pose proof (tail_next q fs gs b Hq Eb) as Hh. destruct gs as [|n gs']; [done|]. simpl in Hh.
  injection Hh as Hn. destruct (block_of _ _ _ n Hq) as (bn & En & Hbn); [apply elem_of_app; right; left|].
  assert (front bn = tail bn) as Hft by (eapply Hf; [left|done]).
  simpl. rewrite Eb. simpl. rewrite <- Hn, En. simpl. rewrite (proj2 (Z.eqb_eq _ _)) by done. simpl.
  eexists. split; [done|]. eapply p_post_silent; try done; [by apply set_localFront_wf|].
  split; [by eapply free_empty_silent|]. split; [done|].
  exists (set_localFront (front bn) bn). simpl. by rewrite lookup_insert_eq.
Qed.

Lemma pnextwrite_ok reply e n nbt :
  let p := PNextWrite e n nbt in
  pfact q fs gs p -> exists res, pstep reply q p = Some res /\ p_post q fs p c res.
Proof.
  intros p (Hf & Hh & b & Eb & <- & Hlf). apply head_Some_elem_of in Hh as Hg.
  destruct (block_of _ _ _ n Hq) as (b0 & Eb0 & Hb); [apply elem_of_app; by right|]. simplify_eq.
  destruct (set_data_wf b e Hb) as (b' & Es & Hb' & Hc & Hd & E1 & E2 & E3 & E4 & E5 & E6).
  simpl. rewrite Eb. simpl. rewrite Es. simpl. eexists. split; [done|].
  eapply p_post_silent; try done; [by eapply written_not_front|].
  split; [by eapply free_empty_silent|]. split; [done|].
  exists b'. simpl. rewrite lookup_insert_eq. by rewrite E2, E3.
Qed.

Lemma pnextpublish_ok reply e n nbt :
  let p := PNextPublish e n nbt in
  pfact q fs gs p -> exists res, pstep reply q p = Some res /\ p_post q fs p c res.
Proof.
  intros p (Hf & Hh & b & Eb & <- & Hlf & Hd). apply head_Some_elem_of in Hh as Hg.
  destruct (block_of _ _ _ n Hq) as (b0 & Eb0 & Hb); [apply elem_of_app; by right|]. simplify_eq.
  pose proof (not_in_both _ _ _ _ Hq Hg) as Hnf. pose proof (block_size_pos b Hb).
  assert (0 <= tail b < block_size b) by apply Hb.
  assert ((tail b + 1) mod block_size b <> localFront b) as Hroom by (rewrite Hlf; ring_arith).
  destruct (set_tail_wf b Hb Hroom) as (Hb' & Hc & Hft).
  simpl. rewrite Eb. simpl. rewrite next_index by done. eexists. split; [done|].
  set (b' := set_tail ((tail b + 1) mod block_size b) b) in *. exists fs, gs.
  split; [by eapply core_update|]. split.
  { destruct gs as [|g gs']; [done|]. simpl in Hh. injection Hh as ->. exists gs'. split; [done|].
    pose proof (c_nodup _ _ _ Hq) as (_ & _ & Hnd)%NoDup_app. apply NoDup_cons in Hnd as [Hng _].
    split.
    - apply free_empty_update; [|done]. intros x bx Hx. apply Hf. by right.
    - exists b'. simpl. rewrite lookup_insert_eq. split; [done|]. split; [done|]. split; [|done].
      rewrite Hc, contents_nil; [done|done|]. by eapply Hf. }
  split.
  { eapply cfact_update; [done..|]. intros ->. by destruct Hnf; eapply front_in. }
  split; [|done]. simpl. by rewrite fview_other, app_nil_r.
Qed.

Lemma advance_ok n e gs' p :
  gs = n :: gs' -> free_empty (blocks q) gs' -> pending (blocks q) n e -> element_of p = e ->
  p_post q fs p c (set_tailBlock n q, PIdle, Some true).
Proof.
  intros -> Hf (b & Eb & Hb & Hc & Hft) He.
  assert (n ∉ fs) as Hnf by (eapply not_in_both; [done|left]).
  assert (frontBlock q <> n) as Hfn by (intros <-; apply Hnf; by eapply front_in).
  exists (fs ++ [n]), gs'. split; [apply core_advance; [done|by exists b]|]. split; [done|].
  split; [by apply cfact_tail|]. split; [|done].
  simpl. rewrite fview_app. simpl. by rewrite Eb, Hc, He.
Qed.

Lemma pnextadvance_ok reply e n :
  let p := PNextAdvance e n in
  pfact q fs gs p -> exists res, pstep reply q p = Some res /\ p_post q fs p c res.
Proof. intros p (gs' & Eg & Hf & Hp). eexists. split; [done|]. by eapply advance_ok. Qed.

Lemma padvance_ok reply e n :
  let p := PAdvance e n in
  pfact q fs gs p -> exists res, pstep reply q p = Some res /\ p_post q fs p c res.
Proof. intros p (gs' & Eg & Hf & Hp). eexists. split; [done|]. by eapply advance_ok. Qed.

(** The new tail block: a power of two again. *)
Lemma alloc_size_pow2 : exists k, 1 <= k <= 10 /\ alloc_size q = 2 ^ k.
Proof.
  destruct (c_size _ _ _ Hq) as (k & Hk & E). unfold alloc_size, MAX_BLOCK_SIZE. rewrite E.
  destruct (Z.leb_spec 512 (2 ^ k)) as [H|H]; [eauto|].
  assert (k < 9). { destruct (Z.lt_ge_cases k 9) as [|Hge]; [done|].
    pose proof (Z.pow_le_mono_r 2 9 k). change (2 ^ 9) with 512 in *. lia. }
  exists (k + 1). split; [lia|]. rewrite Z.pow_add_r by lia. apply u64_small.
  pose proof (Z.pow_pos_nonneg 2 k). unfold is_u64. lia.
Qed.

Lemma new_block_wf size raw e k nx :
  1 <= k <= 10 -> size = 2 ^ k -> Z.of_nat (length raw) = size ->
  exists bn, set_data 0 e (new_block size raw) = Some bn /\
    let b' := set_next nx (set_localTail 1 (set_tail 1 bn)) in
    wf_block b' /\ contents b' = [e] /\ front b' <> tail b' /\ next b' = nx.
Proof.
  intros Hk Hs Hr. assert (2 <= size).
  { rewrite Hs. change 2 with (2 ^ 1) at 1. apply Z.pow_le_mono_r; lia. }
  exists (mk_block 0 0 0 0 NULL (size - 1) (<[Z.to_nat 0 := e]> raw)). split.
  { unfold set_data, new_block; simpl. by rewrite (proj2 (Z.ltb_lt 0 _)) by lia. }
  intros b'.
  assert (block_size b' = size) as Ebs by (unfold block_size; subst b'; simpl; lia).
  assert (count b' = 1) as Ec by (unfold count; rewrite Ebs; apply Z.mod_small; simpl; lia).
  split.
  - unfold wf_block. rewrite Ec, Ebs. subst b'; simpl. rewrite length_insert, (Z.mod_small 1) by lia.
    split; [exists k; lia|]. lia.
  - split; [|split; [done|done]]. unfold contents. rewrite Ec, Ebs. subst b'. simpl. f_equal.
    change (Z.to_nat 0) with O. apply list_lookup_total_insert_eq. lia.
Qed.

Lemma palloc_ok reply e tb :
  let p := PAlloc e tb in
  reply_ok q reply = true ->
  pfact q fs gs p -> exists res, pstep reply q p = Some res /\ p_post q fs p c res.
Proof.
  intros p Hr (Hf & ->). destruct (tail_block q fs gs Hq) as (b & Eb & Hb).
  simpl. fold (alloc_size q). destruct reply as [[nb raw]|].
  2:{ eexists. split; [done|]. by eapply p_post_same. }
  simpl in Hr. apply andb_true_iff in Hr as [[Hfr _]%andb_true_iff Hlen%Z.eqb_eq].
  apply bool_decide_eq_true in Hfr. destruct alloc_size_pow2 as (k & Hk & Ek).
  destruct (new_block_wf (alloc_size q) raw e k (next b) Hk Ek Hlen) as (bn & Es & Hw & Hc & Hft & Hnx).
  rewrite Eb. simpl. rewrite Es. simpl. eexists. split; [done|].
  set (b' := set_next (next b) (set_localTail 1 (set_tail 1 bn))) in *.
  assert (forall a, a ∈ fs ++ gs -> a <> nb) as Hne.
  { intros a Ha ->. destruct (block_of _ _ _ _ Hq Ha) as (? & ? & _). congruence. }
  assert (forall x bx, blocks q !! x = Some bx -> <[nb := b']> (blocks q) !! x = Some bx) as Hkeep.
  { intros x bx Ex. rewrite lookup_insert_ne; [done|]. intros ->. congruence. }
  assert (forall x P, has (blocks q) x P -> has (<[nb := b']> (blocks q)) x P) as Hhas.
  { intros x P (bx & Ex & Hx). exists bx. auto. }
  assert (forall g, (forall x, x ∈ g -> x ∈ fs ++ gs) -> free_empty (blocks q) g -> free_empty (<[nb := b']> (blocks q)) g) as Hfe.
  { intros g Hg Hfg. apply free_empty_update; [done|]. intros Hin%Hg. by destruct (Hne nb). }
  exists fs, gs. destruct Hq as [H1 H2 H3 H4 H5 H6 H7]. split.
  { split; simpl; try done.
    - intros a (ba & Ea & Hba)%H4. eauto.
    - apply linked_insert_fresh; [|done]. rewrite app_assoc. intros [Ha|Ha]%elem_of_app; [by destruct (Hne nb)|].
      apply list_elem_of_singleton in Ha as ->. destruct (Hne (frontBlock q)); [|done].
      apply elem_of_app. left. by apply head_Some_elem_of.
    - intros a ba Ha Ea. rewrite lookup_insert_ne in Ea; [by eapply H6|].
      intros <-. apply (Hne nb); [|done]. apply elem_of_app. left. destruct fs; [done|]. by right.
    - eauto. }
  split. { simpl. split; [apply Hfe; [intros; apply elem_of_app; by right|done]|]. split; [done|].
    split; [intros Hin; by destruct (Hne nb)|]. split.
    - exists b'. simpl. by rewrite lookup_insert_eq.
    - exists b, b'. rewrite lookup_insert_eq. auto. }
  split. { clear -Hcf Hhas. destruct c; simpl in *; try done;
      repeat match goal with H : _ /\ _ |- _ => destruct H | |- _ /\ _ => split end; auto. }
  split; [|done]. simpl. rewrite app_nil_r. apply fview_other. intros Hin. apply (Hne nb); [|done].
  apply elem_of_app. by left.
Qed.

(** Splicing the new block in behind the tail block. *)
Lemma linked_splice b b' n bn :
  blocks q !! tailBlock q = Some b -> next b' = n ->
  blocks q !! n = Some bn -> next bn = next b -> n <> tailBlock q ->
  linked (<[tailBlock q := b']> (blocks q)) (fs ++ (n :: gs) ++ [frontBlock q]).
Proof.
  intros Eb Hn' En Hnx Hnt. pose proof (tail_next q fs gs b Hq Eb) as Hh.
  pose proof (c_tail _ _ _ Hq) as (fs' & Efs)%last_Some.
  pose proof (c_linked _ _ _ Hq) as Hl. pose proof (c_nodup _ _ _ Hq) as Hnd.
  rewrite Efs in *. rewrite <- app_assoc in *. simpl in *.
  apply linked_app in Hl as [L1 L2]. apply linked_app.
  apply NoDup_app in Hnd as (_ & Hd1 & [Ht2 _]%NoDup_cons).
  assert (tailBlock q ∉ fs') as Ht1 by (intros Hi; apply (Hd1 _ Hi); by left).
  assert (forall l x, tailBlock q ∉ l -> linked (blocks q) (l ++ [x]) ->
    linked (<[tailBlock q := b']> (blocks q)) (l ++ [x])) as Hother.
  { clear. induction l as [|y [|z l] IH]; intros x Hi Hl; [done|..];
      apply not_elem_of_cons in Hi as [Hne Hi]; destruct Hl as [(by' & Ey & Hy) Hl];
      (split; [exists by'; by rewrite lookup_insert_ne|]); [done|by apply IH]. }
  split; [by apply Hother|]. split; [exists b'; by rewrite lookup_insert_eq|].
  assert (linked (blocks q) (gs ++ [frontBlock q])) as L3.
  { destruct (gs ++ [frontBlock q]) as [|g l]; [done|]. by destruct L2. }
  apply Hother in L3; [|done].
  destruct (gs ++ [frontBlock q]) as [|g l]; [done|]. simpl in Hh. injection Hh as ->.
  split; [|done]. exists bn. by rewrite lookup_insert_ne.
Qed.

Lemma core_link b n bn :
  blocks q !! tailBlock q = Some b -> blocks q !! n = Some bn -> wf_block bn -> next bn = next b ->
  ~ (n ∈ fs ++ gs) -> core (set_block (tailBlock q) (set_next n b) q) fs (n :: gs).
Proof.
  intros Eb En Hbn Hnx Hn. pose proof (tail_in q fs gs Hq) as Htin.
  assert (n <> tailBlock q) as Hnt by (intros ->; apply Hn, elem_of_app; by left).
  destruct (tail_block q fs gs Hq) as (b0 & Eb0 & Hb). simplify_eq.
  pose proof (linked_splice b (set_next n b) n bn) as Hl.
  destruct Hq as [H1 H2 H3 H4 H5 H6 H7]. split; simpl; try done; [| |by apply Hl|].
  - apply NoDup_app in H1 as (N1 & N2 & N3). apply NoDup_app. split; [done|]. split.
    + intros x Hx [->|Hg]%elem_of_cons; [apply Hn, elem_of_app; by left|by eapply N2].
    + apply NoDup_cons. split; [|done]. intros Hg. apply Hn, elem_of_app. by right.
  - intros a Ha. destruct (decide (a = tailBlock q)) as [->|Hne].
    + exists (set_next n b). by rewrite lookup_insert_eq.
    + rewrite lookup_insert_ne by done. apply elem_of_app in Ha as [Ha|Ha].
      * apply H4, elem_of_app. by left.
      * apply elem_of_cons in Ha as [->|Ha]; [by exists bn|]. apply H4, elem_of_app. by right.
  - intros a ba Ha Ea. destruct (decide (a = tailBlock q)) as [->|Hne].
    + rewrite lookup_insert_eq in Ea. simplify_eq. by eapply (H6 _ b).
    + rewrite lookup_insert_ne in Ea by done. by eapply H6.
Qed.

Lemma plink_ok reply e tb n :
  let p := PLink e tb n in
  pfact q fs gs p -> exists res, pstep reply q p = Some res /\ p_post q fs p c res.
Proof.
  intros p (Hf & -> & Hn & (bn & En & Hbn & Hc & Hft) & b & bn' & Eb & En' & Hnx). simplify_eq.
  assert (n <> tailBlock q) as Hnt.
  { intros ->. apply Hn, elem_of_app. left. by eapply tail_in. }
  simpl. rewrite Eb. simpl. eexists. split; [done|].
  exists fs, (n :: gs). split; [by eapply core_link|]. split.
  { simpl. exists gs. split; [done|]. split.
    - apply free_empty_update; [done|]. intros Hg. exfalso.
      eapply not_in_both; [done|done|by eapply tail_in].
    - exists bn. by rewrite lookup_insert_ne. }
  split; [by eapply cfact_update; [| | | | | |intros <-]|]. split; [|done].
  simpl. rewrite app_nil_r. by eapply fview_update.
Qed.
End producer2.

(** Every step of the producer is possible and keeps the invariant. *)
Lemma pstep_ok q fs gs p c reply :
  core q fs gs -> pfact q fs gs p -> cfact q c -> p <> PIdle -> reply_ok q reply = true ->
  exists res, pstep reply q p = Some res /\ p_post q fs p c res.
Proof.
  intros Hq Hp Hc Hi Hr. destruct p; [done|..].
  - by eapply penter_ok.
  - by eapply preadfront_ok.
  - by eapply pwrite_ok.
  - by eapply ppublish_ok.
  - by eapply pchecknext_ok.
  - by eapply pnextread_ok.
  - by eapply pnextwrite_ok.
  - by eapply pnextpublish_ok.
  - by eapply pnextadvance_ok.
  - by eapply palloc_ok.
  - by eapply plink_ok.
  - by eapply padvance_ok.
Qed.

(** ** The consumer's steps *)

(** What a returning step reports: [peek] gives the first element, the other
    operations take it out. *)
Definition c_reports (op : cop) (before after : list ptr) (r : option (option ptr)) : Prop :=
  match r with
  | Some (Some v) => if is_peek op then after = before /\ head before = Some v else before = v :: after
  | _ => after = before
  end.

Definition c_post (q : queue) (fs : list Z) (p : ppc) (c : cpc) (res : cresult) : Prop :=
  let '(q', c', r) := res in
  exists fs' gs', core q' fs' gs' /\ pfact q' fs' gs' p /\ cfact q' c' /\
    c_reports (op_of c) (fview (blocks q) fs) (fview (blocks q') fs') r /\
    (r = None -> op_of c' = op_of c) /\
    (forall op fb, c' = CCheckTail op fb -> frontBlock q' = tailBlock q' -> fview (blocks q') fs' = []) /\
    (r = Some None -> frontBlock q = tailBlock q /\ exists op fb, c = CCheckTail op fb).

Section consumer.
Context (q : queue) (fs gs : list Z) (p : ppc) (Hq : core q fs gs) (Hp : pfact q fs gs p).

Lemma c_post_same c c' r :
  cfact q c' -> c_reports (op_of c) (fview (blocks q) fs) (fview (blocks q) fs) r ->
  (r = None -> op_of c' = op_of c) -> (forall op fb, c' <> CCheckTail op fb) ->
  (r = Some None -> frontBlock q = tailBlock q /\ exists op fb, c = CCheckTail op fb) ->
  c_post q fs p c (q, c', r).
Proof. intros H1 H2 H3 H4 H5. exists fs, gs. repeat (split; [done|]). split; [|done]. intros op fb E. by destruct (H4 op fb). Qed.

Lemma front_not_later : frontBlock q ∉ drop 1 fs.
Proof.
  pose proof (c_front _ _ _ Hq) as Hh. pose proof (c_nodup _ _ _ Hq) as (Hd & _)%NoDup_app.
  destruct fs as [|f l]; [done|]. simpl in Hh. injection Hh as ->. by apply NoDup_cons in Hd as [? _].
Qed.

(** Refreshing the copy of a block's tail. *)
Lemma c_post_localTail c c' a b :
  a ∈ fs -> blocks q !! a = Some b -> wf_block b ->
  cfact (set_block a (set_localTail (tail b) b) q) c' -> op_of c' = op_of c ->
  (forall op fb, c' = CCheckTail op fb -> frontBlock q = tailBlock q -> fview (blocks q) fs = []) ->
  c_post q fs p c (set_block a (set_localTail (tail b) b) q, c', None).
Proof.
  intros Ha Eb Hb Hc Ho Ht. exists fs, gs.
  assert (fview (blocks (set_block a (set_localTail (tail b) b) q)) fs = fview (blocks q) fs) as Hv
    by by eapply fview_update.
  split.
  { eapply core_update; [done|done|by apply set_localTail_wf|done|]. intros Hd. by eapply (c_mid _ _ _ Hq a b). }
  split; [by eapply pfact_update|]. split; [done|]. rewrite Hv. simpl. done.
Qed.

(** The front block's first element is the queue's first. *)
Lemma fview_front b :
  blocks q !! frontBlock q = Some b ->
  fview (blocks q) fs = contents b ++ fview (blocks q) (drop 1 fs).
Proof.
  intros Eb. pose proof (c_front _ _ _ Hq) as Hf. destruct fs as [|f l]; [done|]. simpl in Hf. injection Hf as ->.
  simpl. by rewrite Eb.
Qed.

Lemma front_neq_tail b : wf_block b -> localTail b <> front b -> front b <> tail b.
Proof.
  intros Hb Hne Heq. apply (count_0 b Hb) in Heq. pose proof (block_size_pos b Hb).
  destruct Hb as (_ & _ & H3 & _ & _ & H6 & _ & H8). rewrite Heq, mod_diff in H8 by lia.
  revert H8. case_Z; lia.
Qed.

Lemma center_ok op :
  exists res, cstep q (CEnter op) = Some res /\ c_post q fs p (CEnter op) res.
Proof.
  destruct (front_block q fs gs Hq) as (b & Eb & Hb). simpl. rewrite Eb. simpl.
  destruct (Z.eqb_spec (front b) (localTail b)) as [E|E]; simpl; (eexists; split; [done|]); apply c_post_same; try done;
    (split; [done|]); exists b; auto.
Qed.

Lemma creadtail_ok op fb bf :
  let c := CReadTail op fb bf in
  cfact q c -> exists res, cstep q c = Some res /\ c_post q fs p c res.
Proof.
  intros c (-> & b & Eb & <-). destruct (front_block q fs gs Hq) as (b0 & Eb0 & Hb). simplify_eq.
  simpl. rewrite Eb. simpl. pose proof (front_in _ _ _ Hq) as Hfi.
  destruct (Z.eqb_spec (front b) (tail b)) as [E|E]; simpl; (eexists; split; [done|]);
    apply c_post_localTail; try done.
  - intros ? ? _ Hft. rewrite (fview_front b Eb), contents_nil by done.
    pose proof front_not_later as Hnl. pose proof (c_tail _ _ _ Hq) as Hl.
    destruct fs as [|f [|g l]]; [done|done|]. rewrite last_cons_cons in Hl.
    apply last_Some_elem_of in Hl. rewrite Hft in Hnl. done.
  - split; [done|]. exists (set_localTail (tail b) b). simpl. rewrite lookup_insert_eq. auto.
Qed.

Lemma cchecktail_ok op fb :
  let c := CCheckTail op fb in
  cfact q c -> exists res, cstep q c = Some res /\ c_post q fs p c res.
Proof.
  intros c Hc. simpl in Hc. subst c fb. simpl. destruct (Z.eqb_spec (frontBlock q) (tailBlock q)) as [E|E]; simpl; (eexists; split; [done|]);
    apply c_post_same; try done.
  intros _. split; [done|]. eauto.
Qed.

Lemma cagain_ok op :
  let c := CAgain op in
  cfact q c -> exists res, cstep q c = Some res /\ c_post q fs p c res.
Proof.
  intros c Hne. simpl in Hne. destruct (front_block q fs gs Hq) as (b & Eb & Hb).
  simpl. rewrite Eb. simpl. pose proof (front_in _ _ _ Hq) as Hfi.
  destruct (Z.eqb_spec (front b) (tail b)) as [E|E]; simpl; (eexists; split; [done|]);
    apply c_post_localTail; try done.
  - split; [done|]. split; [done|]. exists (set_localTail (tail b) b). simpl. by rewrite lookup_insert_eq.
  - split; [done|]. exists (set_localTail (tail b) b). simpl. rewrite lookup_insert_eq. auto.
Qed.

(** Reading the first element of the front block. *)
Lemma read_ok c op b :
  blocks q !! frontBlock q = Some b -> wf_block b -> localTail b <> front b -> op_of c = op ->
  get_data (front b) b = Some (data b !!! Z.to_nat (front b)) /\
  head (fview (blocks q) fs) = Some (data b !!! Z.to_nat (front b)) /\
  (is_peek op = false -> c_post q fs p c
    (q, CPublish op (frontBlock q) (Z.land (u64 (front b + 1)) (sizeMask b)) (data b !!! Z.to_nat (front b)), None)).
Proof.
  intros Eb Hb Hne Ho. assert (0 <= front b < block_size b) by apply Hb.
  split; [by apply get_data_wf|]. split.
  - rewrite (fview_front b Eb), contents_cons; [done|done|]. by apply front_neq_tail.
  - intros Hop. apply c_post_same; try done. simpl. split; [done|]. split; [done|]. exists b.
    by rewrite next_index.
Qed.

Lemma cread_ok op fb bf :
  let c := CRead op fb bf in
  cfact q c -> exists res, cstep q c = Some res /\ c_post q fs p c res.
Proof.
  intros c (-> & b & Eb & <- & Hne). destruct (front_block q fs gs Hq) as (b0 & Eb0 & Hb). simplify_eq.
  destruct (read_ok c op b) as (Eg & Eh & Hpost); [done..|].
  simpl. rewrite Eb. simpl. rewrite Eg. simpl. destruct (is_peek op) eqn:Ep; (eexists; split; [done|]).
  - apply c_post_same; try done. simpl. by rewrite Ep.
  - by apply Hpost.
Qed.

Lemma cnextread_ok op fb bf :
  let c := CNextRead op fb bf in
  cfact q c -> exists res, cstep q c = Some res /\ c_post q fs p c res.
Proof.
  intros c (Hop & -> & b & Eb & <- & Hne). destruct (front_block q fs gs Hq) as (b0 & Eb0 & Hb). simplify_eq.
  assert (0 <= front b < block_size b) by apply Hb.
  simpl. rewrite Eb. simpl. rewrite get_data_wf by done. simpl. eexists. split; [done|].
  apply c_post_same; try done. simpl. split; [done|]. split; [done|]. exists b. by rewrite next_index.
Qed.

Lemma cpublish_ok op fb nbf v :
  let c := CPublish op fb nbf v in
  cfact q c -> exists res, cstep q c = Some res /\ c_post q fs p c res.
Proof.
  intros c (Hop & -> & b & Eb & <- & Hne & <-). destruct (front_block q fs gs Hq) as (b0 & Eb0 & Hb). simplify_eq.
  destruct (set_front_wf b Hb Hne) as (Hb' & Hc). set (b' := set_front ((front b + 1) mod block_size b) b) in *.
  simpl. rewrite Eb. simpl. eexists. split; [done|]. exists fs, gs. fold b'.
  pose proof front_not_later as Hnd.
  split; [by eapply core_update|]. split; [eapply pfact_update; try done; by eapply front_in|].
  split; [done|]. split; [|done]. unfold c_reports. cbn [op_of c]. rewrite Hop.
  rewrite (fview_front b Eb), Hc.
  pose proof (c_front _ _ _ Hq) as Hh. destruct fs as [|f l]; [done|]. simpl in Hh. injection Hh as ->.
  simpl. rewrite lookup_insert_eq. simpl. f_equal. f_equal. by rewrite fview_other.
Qed.
End consumer.

Section consumer2.
Context (q : queue) (fs gs : list Z) (p : ppc) (Hq : core q fs gs) (Hp : pfact q fs gs p).

Lemma two_blocks :
  frontBlock q <> tailBlock q ->
  exists nb l b, fs = frontBlock q :: nb :: l /\ blocks q !! frontBlock q = Some b /\ next b = nb.
Proof.
  intros Hne. pose proof (c_front _ _ _ Hq) as Hf. pose proof (c_tail _ _ _ Hq) as Ht.
  pose proof (c_linked _ _ _ Hq) as Hl.
  destruct fs as [|f [|nb l]]; [done| |]; simpl in Hf; injection Hf as ->.
  - simpl in Ht. congruence.
  - destruct Hl as [(b & Eb & Hn) _]. by exists nb, l, b.
Qed.

(** The block behind the front block has an element. *)
Lemma next_block b :
  frontBlock q <> tailBlock q -> blocks q !! frontBlock q = Some b ->
  exists l bn, fs = frontBlock q :: next b :: l /\ blocks q !! next b = Some bn /\ wf_block bn /\
    front bn <> tail bn /\ next b <> frontBlock q.
Proof.
  intros Hne Eb. destruct (two_blocks Hne) as (nb & l & b' & Efs & Eb' & Hn).
  rewrite Eb in Eb'. injection Eb' as <-. subst nb.
  assert (next b ∈ drop 1 fs) as Hd by (rewrite Efs; left).
  destruct (block_of _ _ _ (next b) Hq) as (bn & En & Hbn).
  { apply elem_of_app. left. rewrite Efs. right. left. }
  exists l, bn. split; [done|]. split; [done|]. split; [done|].
  split; [by eapply (c_mid _ _ _ Hq)|]. intros E. apply (front_not_later q fs gs p Hq Hp). by rewrite <- E.
Qed.

Lemma cnext_ok op fb :
  let c := CNext op fb in
  cfact q c -> exists res, cstep q c = Some res /\ c_post q fs p c res.
Proof.
  intros c (-> & Hne & b & Eb & Hft). destruct (next_block b Hne Eb) as (l & bn & Efs & En & Hbn & Hnf & Hnn).
  simpl. rewrite Eb. simpl. rewrite En. simpl. eexists. split; [done|].
  eapply c_post_same; try done. split; [done|]. split; [exists b; auto|]. exists bn. auto.
Qed.

Lemma cnexttail_ok op nb nbf :
  let c := CNextTail op nb nbf in
  cfact q c -> exists res, cstep q c = Some res /\ c_post q fs p c res.
Proof.
  intros c (Hne & (b & Eb & Hft & <-) & (bn0 & En0 & <-)).
  destruct (next_block b Hne Eb) as (l & bn & Efs & En & Hbn & Hnf & Hnn).
  rewrite En0 in En. injection En as <-.
  assert (0 <= front bn0 < block_size bn0) by apply Hbn.
  destruct (front_block q fs gs Hq) as (b0 & Eb0 & Hb). rewrite Eb in Eb0. injection Eb0 as <-.
  simpl. rewrite En0. simpl. rewrite (proj2 (Z.eqb_neq _ _)) by done. destruct (is_peek op) eqn:Ep.
  - rewrite get_data_wf by done. simpl. eexists. split; [done|]. eapply c_post_same; try done. simpl. rewrite Ep.
    split; [done|]. rewrite Efs. simpl. rewrite Eb, En0, contents_nil, contents_cons by done. done.
  - eexists. split; [done|]. eapply c_post_localTail; try done; [rewrite Efs; right; left|].
    split; [done|]. split; [done|]. split.
    + exists b. simpl. by rewrite lookup_insert_ne.
    + exists (set_localTail (tail bn0) bn0). simpl. rewrite lookup_insert_eq. auto.
Qed.

(** The front moves on; the block it leaves is free. *)
Lemma core_next_front b l :
  fs = frontBlock q :: next b :: l -> blocks q !! frontBlock q = Some b ->
  core (set_frontBlock (next b) q) (next b :: l) (gs ++ [frontBlock q]).
Proof.
  intros Efs Eb. destruct Hq as [H1 H2 H3 H4 H5 H6 H7]. rewrite Efs in *.
  assert (Permutation ((next b :: l) ++ gs ++ [frontBlock q]) ((frontBlock q :: next b :: l) ++ gs)) as Hperm.
  { rewrite app_assoc. symmetry. apply Permutation_cons_append. }
  split; simpl; try done.
  - by eapply (NoDup_Permutation_proper _ _ Hperm).
  - intros a Ha. apply H4. by rewrite <- Hperm.
  - destruct H5 as [Hb H5].
    assert (next b :: l ++ (gs ++ [frontBlock q]) ++ [next b] =
            ((next b :: l) ++ gs) ++ frontBlock q :: [next b]) as E by by rewrite <- !app_assoc.
    change (linked (blocks q) (next b :: l ++ (gs ++ [frontBlock q]) ++ [next b])).
    rewrite E. apply linked_app. split; [by rewrite <- app_assoc|]. by split.
  - intros a ba Ha. apply H6. by right.
Qed.

Lemma pfact_next_front b l :
  fs = frontBlock q :: next b :: l -> blocks q !! frontBlock q = Some b -> front b = tail b ->
  pfact (set_frontBlock (next b) q) (next b :: l) (gs ++ [frontBlock q]) p.
Proof.
  intros Efs Eb Hft.
  assert (forall g, free_empty (blocks q) g -> free_empty (blocks q) (g ++ [frontBlock q])) as Hfe.
  { intros g Hg a ba [Ha|Ha%list_elem_of_singleton]%elem_of_app; [by apply Hg|]. intros Ea. subst a. by simplify_eq. }
  assert (forall n, head gs = Some n -> head (gs ++ [frontBlock q]) = Some n) as Hhd by (destruct gs; done).
  destruct p; simpl in *;
    repeat match goal with
    | H : _ /\ _ |- _ => destruct H
    | |- _ /\ _ => split
    end; auto.
  - intros E. by destruct gs.
  - destruct Hp as (gs' & -> & Hf & Hpd). exists (gs' ++ [frontBlock q]). auto.
  - match goal with H : ~ _ |- _ => intros Hin; apply H; clear H end. rewrite Efs.
    apply elem_of_cons in Hin as [->|Hin]; [right; left|].
    rewrite app_assoc in Hin. apply elem_of_app in Hin as [Hin|Hin%list_elem_of_singleton]; [|subst; left].
    by do 2 right.
  - destruct Hp as (gs' & -> & Hf & Hpd). exists (gs' ++ [frontBlock q]). auto.
Qed.

Lemma cadvance_ok op nb nbf :
  let c := CAdvance op nb nbf in
  cfact q c -> exists res, cstep q c = Some res /\ c_post q fs p c res.
Proof.
  intros c (Hop & Hne & (b & Eb & Hft & <-) & (bn0 & En0 & Hbn0)).
  destruct (next_block b Hne Eb) as (l & bn & Efs & En & Hbn & Hnf & Hnn).
  destruct (front_block q fs gs Hq) as (b0 & Eb0 & Hb). rewrite Eb in Eb0. injection Eb0 as <-.
  eexists. split; [done|]. exists (next b :: l), (gs ++ [frontBlock q]).
  split; [by eapply core_next_front|]. split; [by eapply pfact_next_front|].
  split. { split; [done|]. split; [done|]. by exists bn0. }
  split; [|done]. rewrite Efs. simpl. by rewrite Eb, contents_nil.
Qed.
End consumer2.

(** Every step of the consumer is possible and keeps the invariant. *)
Lemma cstep_ok q fs gs p c :
  core q fs gs -> pfact q fs gs p -> cfact q c -> c <> CIdle ->
  exists res, cstep q c = Some res /\ c_post q fs p c res.
Proof.
  intros Hq Hp Hc Hi. destruct c; [done|..].
  - by eapply center_ok.
  - by eapply creadtail_ok.
  - by eapply cchecktail_ok.
  - by eapply cagain_ok.
  - by eapply cread_ok.
  - by eapply cpublish_ok.
  - by eapply cnext_ok.
  - by eapply cnexttail_ok.
  - by eapply cadvance_ok.
  - by eapply cnextread_ok.
Qed.

(** ** The system *)
Definition inv (s : sys) : Prop :=
  exists fs gs, core (sys_q s) fs gs /\ pfact (sys_q s) fs gs (sys_p s) /\ cfact (sys_q s) (sys_c s) /\
    (forall op fb, sys_c s = CCheckTail op fb -> frontBlock (sys_q s) = tailBlock (sys_q s) -> seen_empty s = true).

Lemma is_nil_true {A} (l : list A) : is_nil l = true <-> l = [].
Proof. by destruct l. Qed.

(** What an event says about the queue before and after the step. *)
Definition event_ok (before after : list ptr) (seen : bool) (e : event) : Prop :=
  match e with
  | EvEnqueued x => after = before ++ [x]
  | EvEnqueueFailed _ => after = before
  | EvConsumed op (Some v) => if is_peek op then after = before /\ head before = Some v else before = v :: after
  | EvConsumed _ None => after = before /\ seen = true
  end.

(** Every action keeps the invariant; only the returns of calls change what the
    queue holds, each the way its result says. *)
Lemma sys_act_ok s a s' evs :
  inv s -> sys_act s a = Some (s', evs) ->
  inv s' /\
  match evs with
  | [] => queue_view (sys_q s') = queue_view (sys_q s)
  | [e] => event_ok (queue_view (sys_q s)) (queue_view (sys_q s')) (seen_empty s) e
  | _ => False
  end.
Proof.
  intros (fs & gs & Hq & Hp & Hc & Hg) Ha. destruct s as [q p c se]; simpl in *. destruct a as [x al|reply|op|]; simpl in Ha.
  - destruct p; [|done..]. simplify_eq. split; [|done]. exists fs, gs. done.
  - destruct (reply_ok q reply) eqn:Er; [|done].
    destruct (pstep reply q p) as [[[q' p'] r]|] eqn:Es; simpl in Ha; [|done]. simplify_eq.
    destruct (pstep_ok q fs gs p c reply Hq Hp Hc) as (res & Es' & Hpost); [by intros ->|done|]. simplify_eq.
    destruct Hpost as (fs' & gs' & Hq' & Hp' & Hc' & Hv & Hf & Hft).
    unfold observe; simpl. split.
    + exists fs', gs'. simpl. split; [done|]. split; [done|]. split; [done|].
      intros op fb Ec E. rewrite (Hg op fb Ec); [done|]. by destruct (decide (frontBlock q = tailBlock q)); [|destruct Hft].
    + rewrite (queue_view_spec _ _ _ Hq), (queue_view_spec _ _ _ Hq'), Hv.
      destruct r as [[|]|]; simpl; by rewrite ?app_nil_r.
  - destruct c; [|done..]. simplify_eq. unfold observe; simpl. split; [|done].
    exists fs, gs. simpl. done.
  - destruct (cstep q c) as [[[q' c'] r]|] eqn:Es; simpl in Ha; [|done]. simplify_eq.
    destruct (cstep_ok q fs gs p c Hq Hp Hc) as (res & Es' & Hpost); [by intros ->|]. simplify_eq.
    destruct Hpost as (fs' & gs' & Hq' & Hp' & Hc' & Hr & Ho & Ht & Hn).
    unfold observe; simpl. rewrite (queue_view_spec _ _ _ Hq), (queue_view_spec _ _ _ Hq'). split.
    + exists fs', gs'. simpl. split; [done|]. split; [done|]. split; [done|].
      intros op fb Ec E. rewrite (Ht op fb Ec E). simpl. by rewrite orb_true_r.
    + destruct r as [[v|]|]; simpl in *; [done| |done]. split; [done|].
      destruct (Hn eq_refl) as (E & op & fb & ->). by eapply Hg.
Qed.

Lemma execute_ok acts : forall s s' evs,
  inv s -> execute acts s = Some (s', evs) ->
  inv s' /\ queue_view (sys_q s) ++ enqueued evs = dequeued evs ++ queue_view (sys_q s').
Proof.
  induction acts as [|a acts IH]; intros s s' evs Hi He; simpl in He.
  { simplify_eq. split; [done|]. by rewrite app_nil_r. }
  destruct (sys_act s a) as [[s1 ev]|] eqn:Ea; simpl in He; [|done].
  destruct (execute acts s1) as [[s2 evs']|] eqn:Ee; simpl in He; [|done]. simplify_eq.
  destruct (sys_act_ok s a s1 ev Hi Ea) as [Hi1 Hev]. destruct (IH s1 s' evs' Hi1 Ee) as [Hi2 Hv].
  split; [done|]. unfold enqueued, dequeued in *. rewrite !omap_app.
  destruct ev as [|e [|]]; [by rewrite <- Hev| |done]. simpl.
  destruct e as [x|x|op [v|]]; simpl in *.
  - by rewrite Hev, <- app_assoc in Hv.
  - rewrite Hev in Hv. done.
  - destruct op; simpl in Hev; [| |]; rewrite ?Hev; simpl; try (by rewrite <- Hv).
    destruct Hev as [<- _]. done.
  - destruct Hev as [Hev _]. rewrite Hev in Hv. by destruct op.
Qed.

(** ** Progress *)

(** The own steps that are left at most until the call returns. *)
Definition p_left (p : ppc) : nat :=
  match p with
  | PIdle => 0
  | PEnter _ _ => 7
  | PReadFront _ _ _ _ _ => 6
  | PCheckNext _ _ _ => 5
  | PNextRead _ _ => 4
  | PNextWrite _ _ _ => 3
  | PNextPublish _ _ _ => 2
  | PNextAdvance _ _ => 1
  | PAlloc _ _ => 3
  | PLink _ _ _ => 2
  | PAdvance _ _ => 1
  | PWrite _ _ _ _ => 2
  | PPublish _ _ _ => 1
  end.

Definition c_left (c : cpc) : nat :=
  match c with
  | CIdle => 0
  | CEnter _ => 9
  | CReadTail _ _ _ => 8
  | CCheckTail _ _ => 7
  | CAgain _ => 6
  | CNext _ _ => 5
  | CNextTail _ _ _ => 4
  | CAdvance _ _ _ => 3
  | CNextRead _ _ _ | CRead _ _ _ => 2
  | CPublish _ _ _ _ => 1
  end.

Ltac step_cases Hs :=
  repeat (first [ progress simplify_eq | case_match | done
                | match type of Hs with
                  | context [@mbind _ _ _ _ _ ?x] => destruct x eqn:?; simpl in Hs
                  end ]).

Lemma pstep_left reply q p q' p' r :
  pstep reply q p = Some (q', p', r) ->
  match r with None => (p_left p' < p_left p)%nat /\ p' <> PIdle | Some _ => p' = PIdle end.
Proof.
  intros Hs. destruct p; simpl in Hs; step_cases Hs; simpl; try done; split; done || lia.
Qed.

Lemma cstep_left q c q' c' r :
  cstep q c = Some (q', c', r) ->
  match r with None => (c_left c' < c_left c)%nat /\ c' <> CIdle | Some _ => c' = CIdle end.
Proof.
  intros Hs. destruct c; simpl in Hs; step_cases Hs; simpl; try done; split; done || lia.
Qed.

Definition is_producer (a : action) : bool := match a with AProducer _ => true | _ => false end.
Definition is_consumer (a : action) : bool := match a with AConsumer => true | _ => false end.
Definition producer_return (e : event) : bool := match e with EvConsumed _ _ => false | _ => true end.

Lemma producer_returns acts : forall s s' evs,
  execute acts s = Some (s', evs) -> sys_p s <> PIdle ->
  (p_left (sys_p s) <= length (filter (fun a => is_producer a = true) acts))%nat ->
  exists e, e ∈ evs /\ producer_return e = true.
Proof.
  induction acts as [|a acts IH]; intros s s' evs He Hp Hn.
  { destruct s as [q p c se]; destruct p; simpl in *; lia || done. }
  simpl in He. destruct (sys_act s a) as [[s1 ev]|] eqn:Ea; simpl in He; [|done].
  destruct (execute acts s1) as [[s2 evs']|] eqn:Ee; simpl in He; [|done]. simplify_eq.
  assert (forall e, e ∈ evs' -> e ∈ ev ++ evs') as Hin by (intros; apply elem_of_app; by right).
  rewrite filter_cons in Hn. destruct s as [q p c se]; simpl in *. destruct a as [x al|reply|op|]; simpl in *.
  - by destruct p.
  - destruct (reply_ok q reply); [|done].
    destruct (pstep reply q p) as [[[q' p'] r]|] eqn:Es; simpl in Ea; [|done]. simplify_eq.
    apply pstep_left in Es. destruct r as [[|]|].
    + eexists. split; [left|done].
    + eexists. split; [left|done].
    + destruct Es as [Hl Hi]. destruct (IH _ _ _ Ee) as (e & Hin' & He); simpl; [done|lia|]. by exists e.
  - destruct c; [|done..]. simplify_eq. destruct (IH _ _ _ Ee) as (e & Hin' & He); simpl; [done|lia|]. by exists e.
  - destruct (cstep q c) as [[[q' c'] r]|] eqn:Es; simpl in Ea; [|done]. simplify_eq.
    destruct (IH _ _ _ Ee) as (e & Hin' & He); simpl; [done|lia|]. exists e. auto.
Qed.

Lemma consumer_returns acts : forall s s' evs,
  execute acts s = Some (s', evs) -> sys_c s <> CIdle ->
  (c_left (sys_c s) <= length (filter (fun a => is_consumer a = true) acts))%nat ->
  exists e, e ∈ evs /\ producer_return e = false.
Proof.
  induction acts as [|a acts IH]; intros s s' evs He Hc Hn.
  { destruct s as [q p c se]; destruct c; simpl in *; lia || done. }
  simpl in He. destruct (sys_act s a) as [[s1 ev]|] eqn:Ea; simpl in He; [|done].
  destruct (execute acts s1) as [[s2 evs']|] eqn:Ee; simpl in He; [|done]. simplify_eq.
  assert (forall e, e ∈ evs' -> e ∈ ev ++ evs') as Hin by (intros; apply elem_of_app; by right).
  rewrite filter_cons in Hn. destruct s as [q p c se]; simpl in *. destruct a as [x al|reply|op|]; simpl in *.
  - destruct p; [|done..]. simplify_eq. destruct (IH _ _ _ Ee) as (e & Hin' & He); simpl; [done|lia|]. by exists e.
  - destruct (reply_ok q reply); [|done].
    destruct (pstep reply q p) as [[[q' p'] r]|] eqn:Es; simpl in Ea; [|done]. simplify_eq.
    destruct (IH _ _ _ Ee) as (e & Hin' & He); simpl; [done|lia|]. exists e. auto.
  - by destruct c.
  - destruct (cstep q c) as [[[q' c'] r]|] eqn:Es; simpl in Ea; [|done]. simplify_eq.
    apply cstep_left in Es. destruct r as [v|].
    + eexists. split; [left|done].
    + destruct Es as [Hl Hi]. destruct (IH _ _ _ Ee) as (e & Hin' & He); simpl; [done|lia|]. by exists e.
Qed.

(** ** Empty results *)

(** The history variable is only set by an empty queue. *)
Lemma seen_empty_explained acts : forall s s' evs,
  execute acts s = Some (s', evs) -> seen_empty s = false -> seen_empty s' = true ->
  exists acts1 acts2 s1 evs1, acts = acts1 ++ acts2 /\ execute acts1 s = Some (s1, evs1) /\
    queue_view (sys_q s1) = [].
Proof.
  induction acts as [|a acts IH]; intros s s' evs He Hs Hs'; simpl in He; [simplify_eq; congruence|].
  destruct (sys_act s a) as [[s1 ev]|] eqn:Ea; simpl in He; [|done].
  destruct (execute acts s1) as [[s2 evs']|] eqn:Ee; simpl in He; [|done]. simplify_eq.
  destruct (seen_empty s1) eqn:E1.
  - exists [a], acts, s1, ev. split; [done|]. split; [simpl; rewrite Ea; simpl; by rewrite app_nil_r|].
    destruct s as [q p c se]; simpl in *; subst se. destruct a as [x al|reply|op|]; simpl in Ea.
    + destruct p; simplify_eq; done.
    + destruct (reply_ok q reply); [|done]. destruct (pstep reply q p) as [[[q' p'] r]|]; simpl in Ea; [|done].
      simplify_eq. by apply is_nil_true.
    + destruct c; simplify_eq. by apply is_nil_true.
    + destruct (cstep q c) as [[[q' c'] r]|]; simpl in Ea; [|done]. simplify_eq. by apply is_nil_true.
  - destruct (IH s1 s' evs' Ee E1 Hs') as (acts1 & acts2 & s3 & evs1 & -> & E & Hv).
    exists (a :: acts1), acts2, s3, (ev ++ evs1). split; [done|]. split; [|done].
    simpl. rewrite Ea. simpl. by rewrite E.
Qed.
