(* ===== verification/SpscBlocks.v ===== *)
(** * The blocks of the single-producer single-consumer queue

    Every block that the queue of Spsc.v has ever had is in its circle, but for
    the new one that a producer has not linked yet: the constructor makes the circle, [inner_enqueue] splices
    blocks in, and nothing takes one out. *)
From S2P Require Import Prelude Spsc SpscCorrect.

(** ** The circle that the constructor makes *)

(** Blocks of [size] elements, each linked to the one behind it and the last one to [first]. *)
Fixpoint circle (size first : Z) (l : list (Z * list ptr)) : gmap Z block :=
  match l with
  | [] => ∅
  | (a, raw) :: l => <[a := set_next (match l with (b, _) :: _ => b | [] => first end) (new_block size raw)]> (circle size first l)
  end.

Lemma dom_circle size first l : dom (circle size first l) = list_to_set (map fst l).
Proof. induction l as [|[a raw] l IH]; simpl; [by rewrite dom_empty_L|]. by rewrite dom_insert_L, IH. Qed.

Lemma circle_fresh size first l a : a ∉ map fst l -> circle size first l !! a = None.
Proof. intros Ha. apply not_elem_of_dom. rewrite dom_circle. by rewrite elem_of_list_to_set. Qed.

(** A block behind the last one. *)
Lemma circle_snoc size first (l : list (Z * list ptr)) (b : Z) (rb : list ptr) (a : Z) (ra : list ptr) :
  NoDup (map fst (l ++ [(b, rb); (a, ra)])) ->
  circle size first (l ++ [(b, rb); (a, ra)]) =
  <[a := set_next first (new_block size ra)]> (<[b := set_next a (new_block size rb)]> (circle size first (l ++ [(b, rb)]))).
Proof.
  induction l as [|[c rc] l IH]; intros Hnd.
  - simpl. apply NoDup_cons in Hnd as [Hb _]. simpl in Hb. rewrite insert_insert_eq.
    apply insert_insert_ne. intros ->. apply Hb. left.
  - simpl in Hnd. apply NoDup_cons in Hnd as [Hc Hnd]. simpl. rewrite IH by done.
    rewrite map_app in Hc. assert (c <> a /\ c <> b) as [Hca Hcb] by (split; intros ->; apply Hc, elem_of_app; right; simpl; set_solver).
    rewrite !(insert_insert_ne _ c) by done. by destruct l as [|[? ?] ?].
Qed.

Lemma init_blocks_circle size n : forall (l : list (Z * list ptr)) (b : Z) (rb : list ptr) (replies : list (Z * list ptr)),
  let first := match l with (a, _) :: _ => a | [] => b end in
  NoDup (map fst (l ++ (b, rb) :: replies)) -> first <> NULL -> (n <= length replies)%nat ->
  init_blocks n replies size (circle size first (l ++ [(b, rb)])) first b =
  Some (circle size first (l ++ (b, rb) :: take n replies), first).
Proof.
  induction n as [|n IH]; intros l b rb replies first Hnd Hf Hn; [done|].
  destruct replies as [|[a ra] replies]; [simpl in Hn; lia|]. cbn [init_blocks]. rewrite (proj2 (Z.eqb_neq first NULL)) by done.
  rewrite (list.cons_middle (b, rb) l), app_assoc in Hnd. assert (a ∉ map fst (l ++ [(b, rb)])) as Ha.
  { rewrite map_app in Hnd. apply NoDup_app in Hnd as (_ & Hd & _). intros Hin. apply (Hd a Hin). left. }
  assert (b <> a) as Hba by (intros ->; apply Ha; rewrite map_app; apply elem_of_app; right; left).
  assert (circle size first (l ++ [(b, rb)]) !! b = Some (set_next first (new_block size rb))) as Hb.
  { assert (b ∉ map fst l) as Hbl.
    { rewrite !map_app in Hnd. apply NoDup_app in Hnd as [Hnd _]. apply NoDup_app in Hnd as (_ & Hd & _). intros Hin. apply (Hd b Hin). left. }
    clear -Hbl. revert Hbl. generalize first. induction l as [|[c rc] l IH]; intros f Hbl; simpl; [by rewrite lookup_insert_eq|].
    apply not_elem_of_cons in Hbl as [Hbc Hbl]. rewrite lookup_insert_ne by done. by apply IH. }
  rewrite lookup_insert_ne, Hb by done. cbn [mbind option_bind].
  assert (<[a:=set_next first (new_block size ra)]> (<[b:=set_next a (set_next first (new_block size rb))]> (<[a:=new_block size ra]> (circle size first (l ++ [(b, rb)])))) =
    circle size first ((l ++ [(b, rb)]) ++ [(a, ra)])) as ->.
  { rewrite <- app_assoc. simpl. rewrite circle_snoc.
    - rewrite (insert_insert_ne _ b a) by done. by rewrite insert_insert_eq.
    - rewrite (list.cons_middle (a, ra)), app_assoc in Hnd. rewrite map_app in Hnd. apply NoDup_app in Hnd as [Hnd _]. by rewrite <- app_assoc in Hnd. }
  assert (first = match l ++ [(b, rb)] with (a, _) :: _ => a | [] => a end) as Ef by by destruct l as [|[? ?] ?].
  rewrite Ef. rewrite (IH (l ++ [(b, rb)]) a ra replies); [|done|by rewrite <- Ef|simpl in Hn; lia].
  by rewrite <- Ef, <- app_assoc.
Qed.

Lemma init_blocks_new size n a raw replies :
  NoDup (map fst ((a, raw) :: replies)) -> a <> NULL -> (n <= length replies)%nat ->
  init_blocks (S n) ((a, raw) :: replies) size ∅ NULL NULL = Some (circle size a (take (S n) ((a, raw) :: replies)), a).
Proof.
  intros Hnd Ha Hn. cbn [init_blocks]. rewrite Z.eqb_refl, insert_insert_eq.
  exact (init_blocks_circle size n [] a raw replies Hnd Ha Hn).
Qed.

(** Without enough memory there is no queue. *)
Lemma init_blocks_short n : forall replies size heap first last, (length replies < n)%nat -> init_blocks n replies size heap first last = None.
Proof.
  induction n as [|n IH]; intros [|[a raw] replies] size heap fb lb Hn; simpl in Hn; [lia|lia|done|]. cbn [init_blocks].
  destruct (fb =? NULL); [apply IH; lia|]. destruct (_ !! lb); [|done]. cbn [mbind option_bind]. apply IH. lia.
Qed.

(** ** A circle has one order *)
Lemma linked_next m m' l : next <$> m = next <$> m' -> linked m l -> linked m' l.
Proof.
  intros Hm. induction l as [|x [|y l] IH]; [done..|]. intros [(b & Eb & Hb) Hl]. split; [|by apply IH].
  assert ((next <$> m') !! x = Some y) as Ex by (rewrite <- Hm, lookup_fmap, Eb; simpl; by rewrite Hb).
  rewrite lookup_fmap in Ex. apply fmap_Some in Ex as (b' & Eb' & ->). by exists b'.
Qed.

Lemma linked_unique m f l1 : forall l2 x,
  linked m (x :: l1 ++ [f]) -> linked m (x :: l2 ++ [f]) -> f ∉ l1 -> f ∉ l2 -> l1 = l2.
Proof.
  induction l1 as [|y l1 IH]; intros l2 x H1 H2 F1 F2; destruct l2 as [|z l2]; simpl in *; [done| | |];
    destruct H1 as [(b & Eb & Hb) H1], H2 as [(b' & Eb' & Hb') H2]; rewrite Eb in Eb'; injection Eb' as <-.
  - destruct F2. rewrite <- Hb', Hb. left.
  - destruct F1. rewrite <- Hb, Hb'. left.
  - subst. apply not_elem_of_cons in F1 as [_ F1]. apply not_elem_of_cons in F2 as [_ F2]. f_equal. by eapply IH.
Qed.

Lemma ring_unique q fs gs l :
  core q fs gs -> head l = Some (frontBlock q) -> NoDup l -> linked (blocks q) (l ++ [frontBlock q]) -> fs ++ gs = l.
Proof.
  intros Hq Hh Hd Hl. pose proof (c_front _ _ _ Hq) as Hf. pose proof (c_nodup _ _ _ Hq) as Hn. pose proof (c_linked _ _ _ Hq) as Hc.
  destruct fs as [|f fs]; [done|]. destruct l as [|f' l]; [done|]. simpl in Hf, Hh. injection Hf as ->. injection Hh as ->.
  simpl in Hn. apply NoDup_cons in Hn as [Hn _]. apply NoDup_cons in Hd as [Hd _]. simpl. f_equal.
  eapply (linked_unique (blocks q)); [|exact Hl|done|done]. rewrite <- app_assoc. exact Hc.
Qed.

(** ** No block is lost *)

(** The block that the producer has made and not linked. *)
Definition unlinked (p : ppc) : gset Z := match p with PLink _ _ n => {[ n ]} | _ => ∅ end.

Definition all_there (q : queue) (p : ppc) : Prop :=
  forall fs gs, core q fs gs -> dom (blocks q) = list_to_set (fs ++ gs) ∪ unlinked p.

(** A step that links and frees nothing. *)
Definition quiet (q q' : queue) : Prop := frontBlock q' = frontBlock q /\ next <$> blocks q' = next <$> blocks q.

Lemma quiet_refl q : quiet q q.
Proof. done. Qed.

Lemma quiet_block q a b b' : blocks q !! a = Some b -> next b' = next b -> quiet q (set_block a b' q).
Proof.
  intros Eb Hb. split; [done|]. simpl. rewrite fmap_insert, Hb. apply insert_id. by rewrite lookup_fmap, Eb.
Qed.

Lemma ring_head q fs gs : core q fs gs -> head (fs ++ gs) = Some (frontBlock q).
Proof. intros Hq. pose proof (c_front _ _ _ Hq) as Hf. by destruct fs. Qed.

Lemma quiet_there q q' p p' fs gs :
  core q fs gs -> quiet q q' -> unlinked p' = unlinked p -> all_there q p -> all_there q' p'.
Proof.
  intros Hq [Hf Hn] Hu Ha fs' gs' Hq'. rewrite (ring_unique q' fs' gs' (fs ++ gs) Hq').
  - rewrite Hu, <- (Ha fs gs Hq). by rewrite <- (dom_fmap_L next), Hn, dom_fmap_L.
  - rewrite Hf. by apply (ring_head _ _ _ Hq).
  - apply Hq.
  - apply (linked_next (blocks q)); [done|]. rewrite Hf, <- app_assoc. apply Hq.
Qed.

Lemma set_data_next i x b b' : set_data i x b = Some b' -> next b' = next b.
Proof. unfold set_data. case_match; [|done]. by intros [= <-]. Qed.

Ltac step_cases H :=
  repeat match type of H with
  | mbind _ _ = Some _ => apply bind_Some in H as (? & ? & H)
  | match ?x with _ => _ end = Some _ => destruct x eqn:?
  | Some _ = Some _ => injection H as <- <- <-
  | None = Some _ => discriminate H
  end.

(** Every step of the producer but two. *)
Lemma pstep_quiet reply q p q' p' r :
  pstep reply q p = Some (q', p', r) ->
  match p, reply with PAlloc _ _, Some _ | PLink _ _ _, _ => False | _, _ => True end ->
  quiet q q' /\ unlinked p' = unlinked p.
Proof.
  intros Hs Hp. destruct p; try done; simpl in Hs; step_cases Hs; try done;
    (split; [|done]); try apply quiet_refl; try (by eapply quiet_block);
    (eapply quiet_block; [eassumption|by eapply set_data_next]).
Qed.

Lemma cstep_quiet q c q' c' r :
  cstep q c = Some (q', c', r) -> match c with CAdvance _ _ _ => False | _ => True end -> quiet q q'.
Proof.
  intros Hs Hc. destruct c; try done; simpl in Hs; step_cases Hs; try done; try apply quiet_refl; by eapply quiet_block.
Qed.

(** The producer makes a block. *)
Lemma palloc_there q fs gs e tb nb raw q' p' r :
  core q fs gs -> reply_ok q (Some (nb, raw)) = true -> all_there q (PAlloc e tb) ->
  pstep (Some (nb, raw)) q (PAlloc e tb) = Some (q', p', r) -> all_there q' p'.
Proof.
  intros Hq Hr Ha Hs fs' gs' Hq'. simpl in Hr, Hs. apply andb_true_iff in Hr as [[Hfr _]%andb_true_iff _]. apply bool_decide_eq_true in Hfr.
  step_cases Hs. assert (nb ∉ fs ++ gs) as Hnb.
  { intros Hin. destruct (block_of _ _ _ _ Hq Hin) as (? & ? & _). congruence. }
  rewrite (ring_unique _ fs' gs' (fs ++ gs) Hq').
  - simpl. rewrite dom_insert_L, (Ha fs gs Hq). simpl. set_solver.
  - by apply (ring_head _ _ _ Hq).
  - apply Hq.
  - simpl. apply linked_insert_fresh; [|rewrite <- app_assoc; apply Hq]. intros [Hin|Hin%list_elem_of_singleton]%elem_of_app; [done|].
    apply Hnb. rewrite Hin. apply elem_of_app. left. apply (front_in _ _ _ Hq).
Qed.

(** The producer links it. *)
Lemma plink_there reply q fs gs e tb n q' p' r :
  core q fs gs -> pfact q fs gs (PLink e tb n) -> all_there q (PLink e tb n) ->
  pstep reply q (PLink e tb n) = Some (q', p', r) -> all_there q' p'.
Proof.
  intros Hq (Hf & -> & Hn & (bn & En & Hbn & Hc & Hft) & b & bn' & Eb & En' & Hnx) Ha Hs fs' gs' Hq'.
  assert (bn' = bn) as -> by congruence. simpl in Hs. rewrite Eb in Hs. simpl in Hs. injection Hs as <- <- _.
  pose proof (core_link q fs gs Hq b n bn Eb En Hbn Hnx Hn) as Hl.
  rewrite (ring_unique _ fs' gs' (fs ++ n :: gs) Hq'); [|apply (ring_head _ _ _ Hl)|apply Hl|rewrite <- app_assoc; apply Hl].
  simpl. rewrite dom_insert_lookup_L by by eexists. rewrite (Ha fs gs Hq). simpl. set_solver.
Qed.

(** The consumer goes to the next block: the circle now begins there. *)
Lemma cadvance_there q fs gs p op nb nbf q' c' r :
  core q fs gs -> pfact q fs gs p -> cfact q (CAdvance op nb nbf) -> all_there q p ->
  cstep q (CAdvance op nb nbf) = Some (q', c', r) -> all_there q' p.
Proof.
  intros Hq Hp (Hop & Hne & (b & Eb & Hft & <-) & _) Ha Hs fs' gs' Hq'. simpl in Hs. injection Hs as <- _ _.
  destruct (next_block q fs gs p Hq Hp b Hne Eb) as (l & bn & Efs & _). pose proof (core_next_front q fs gs p Hq Hp b l Efs Eb) as Hl.
  rewrite (ring_unique _ fs' gs' ((next b :: l) ++ gs ++ [frontBlock q]) Hq');
    [|apply (ring_head _ _ _ Hl)|apply Hl|rewrite <- app_assoc; apply Hl].
  simpl. rewrite (Ha fs gs Hq), Efs. set_solver.
Qed.

Lemma sys_act_there s a s' evs :
  inv s -> all_there (sys_q s) (sys_p s) -> sys_act s a = Some (s', evs) -> all_there (sys_q s') (sys_p s').
Proof.
  intros (fs & gs & Hq & Hp & Hc & _) Ha Hs. destruct s as [q p c se]; simpl in *. destruct a as [x al|reply|op|]; simpl in Hs.
  - destruct p; [|done..]. injection Hs as <- _. exact Ha.
  - destruct (reply_ok q reply) eqn:Er; [|done]. destruct (pstep reply q p) as [[[q' p'] r]|] eqn:Es; [|done]. simpl in Hs. injection Hs as <- _. simpl.
    assert (match p, reply with PAlloc _ _, Some _ | PLink _ _ _, _ => False | _, _ => True end -> all_there q' p') as Hquiet.
    { intros Hn. destruct (pstep_quiet _ _ _ _ _ _ Es Hn). by eapply quiet_there. }
    destruct p; try (by apply Hquiet); [destruct reply as [[nb raw]|]; [by eapply palloc_there|by apply Hquiet]|by eapply plink_there].
  - destruct c; [|done..]. injection Hs as <- _. exact Ha.
  - destruct (cstep q c) as [[[q' c'] r]|] eqn:Es; [|done]. simpl in Hs. injection Hs as <- _. simpl.
    destruct c; [done|..]; try (by eapply quiet_there; [exact Hq|by eapply cstep_quiet|done|exact Ha]). by eapply cadvance_there.
Qed.

Lemma execute_there acts : forall s s' evs,
  inv s -> all_there (sys_q s) (sys_p s) -> execute acts s = Some (s', evs) -> all_there (sys_q s') (sys_p s').
Proof.
  induction acts as [|a acts IH]; intros s s' evs Hi Ha He; simpl in He; [by injection He as <- _|].
  destruct (sys_act s a) as [[s1 ev]|] eqn:Ea; simpl in He; [|done].
  destruct (execute acts s1) as [[s2 evs']|] eqn:Ee; simpl in He; [|done]. injection He as <- _.
  eapply IH; [by eapply sys_act_ok|by eapply sys_act_there|exact Ee].
Qed.
