(* ===== verification/SpscTheorems.v ===== *)
(** * The queue's contract

    Construction, counting and destruction of the queue of Spsc.v, and the
    theorems about the queue as a whole, from its construction on.  What the
    constructor makes is [circle] of SpscBlocks.v. *)
From S2P Require Import Prelude Spsc SpscCorrect SpscBlocks.

(** ** Rounding up to a power of two *)

(** [z] has the bits of [y], each smeared over the [s] positions below. *)
Definition smeared (s y z : Z) : Prop :=
  forall i, 0 <= i -> Z.testbit z i = true <-> exists j, i <= j < i + s /\ Z.testbit y j = true.

Lemma smeared_1 y : smeared 1 y y.
Proof.
  intros i Hi. split; [intros; exists i; split; [lia|done]|].
  intros (j & Hj & E). by replace i with j by lia.
Qed.

Lemma smeared_step s y z : 0 < s -> smeared s y z -> smeared (s + s) y (Z.lor z (Z.shiftr z s)).
Proof.
  intros Hs Hz i Hi. rewrite Z.lor_spec, Z.shiftr_spec, orb_true_iff by lia.
  rewrite (Hz i), (Hz (i + s)) by lia. split.
  - intros [(j & Hj & E)|(j & Hj & E)]; exists j; (split; [lia|done]).
  - intros (j & Hj & E). destruct (Z.lt_ge_cases j (i + s)); [left|right]; exists j; (split; [lia|done]).
Qed.

Lemma smeared_all y z : 0 < y < 2 ^ 64 -> smeared 64 y z -> 0 <= z -> z = 2 ^ (Z.log2 y + 1) - 1.
Proof.
  intros Hy Hz Hz0. pose proof (Z.log2_nonneg y) as Hl.
  assert (Z.log2 y < 64) by (apply Z.log2_lt_pow2; lia).
  assert (z = Z.ones (Z.log2 y + 1)) as ->; [|by rewrite Z.ones_equiv].
  apply Z.bits_inj'. intros i Hi. apply Bool.eq_iff_eq_true. rewrite (Hz i Hi), Z.testbit_ones_nonneg by lia.
  rewrite Z.ltb_lt. split.
  - intros (j & Hj & E). destruct (Z.lt_ge_cases (Z.log2 y) j); [|lia].
    rewrite Z.bits_above_log2 in E by lia. done.
  - intros Hle. exists (Z.log2 y). split; [lia|]. apply Z.bit_log2. lia.
Qed.

Lemma smear_loop_unrolled x :
  smear_loop 3 1 x =
  let x := Z.lor x (Z.shiftr x 8) in let x := Z.lor x (Z.shiftr x 16) in Some (Z.lor x (Z.shiftr x 32)).
Proof. reflexivity. Qed.

(** [ceilToPow2] is the least power of two that is not smaller. *)
Lemma ceilToPow2_spec x : 1 <= x <= 2 ^ 63 -> ceilToPow2 x = Some (2 ^ Z.log2_up x).
Proof.
  intros Hx. change (2 ^ 63) with 9223372036854775808 in Hx. destruct (Z.eq_dec x 1) as [->|Hne]; [reflexivity|].
  unfold ceilToPow2. rewrite (u64_small (x - 1)) by (unfold is_u64; lia).
  rewrite smear_loop_unrolled. cbv zeta. cbn [mbind option_bind].
  set (y := x - 1). set (z := Z.lor _ (Z.shiftr _ 32)).
  assert (smeared 64 y z) as Hz.
  { subst z. repeat (apply smeared_step; [lia|]). apply smeared_1. }
  assert (0 <= z) as Hz0.
  { subst z. repeat first [rewrite Z.lor_nonneg | rewrite Z.shiftr_nonneg]. subst y. lia. }
  f_equal. rewrite (smeared_all y z) by (done || (subst y; change (2 ^ 64) with 18446744073709551616; lia)).
  rewrite Z.log2_up_eqn by lia. replace (Z.pred x) with y by (subst y; lia).
  replace (2 ^ (Z.log2 y + 1) - 1 + 1) with (2 ^ Z.succ (Z.log2 y)) by (rewrite <- Z.add_1_r; lia).
  apply u64_small.
  assert (Z.log2 y < 63) by (apply Z.log2_lt_pow2; subst y; change (2 ^ 63) with 9223372036854775808; lia).
  assert (2 ^ Z.succ (Z.log2 y) <= 2 ^ 63) by (apply Z.pow_le_mono_r; lia).
  pose proof (Z.log2_nonneg y). pose proof (Z.pow_nonneg 2 (Z.succ (Z.log2 y))).
  change (2 ^ 63) with 9223372036854775808 in *. unfold is_u64. lia.
Qed.

(** ** Construction *)

(** What [malloc] returns to the constructor: different fresh blocks of the
    requested size. *)
Definition replies_ok (size : Z) (replies : list (Z * list ptr)) : Prop :=
  NoDup (map fst replies) /\ ~ (NULL ∈ map fst replies) /\
  Forall (fun r => Z.of_nat (length (r : Z * list ptr).2) = size) replies.

(** An empty block of the right size. *)
Definition empty_block (size : Z) (b : block) : Prop :=
  wf_block b /\ front b = tail b /\ block_size b = size.

Lemma new_block_empty size raw nx k :
  1 <= k <= 10 -> size = 2 ^ k -> Z.of_nat (length raw) = size ->
  empty_block size (set_next nx (new_block size raw)).
Proof.
  intros Hk Hs Hr. assert (2 <= size).
  { rewrite Hs. change 2 with (2 ^ 1) at 1. apply Z.pow_le_mono_r; lia. }
  assert (block_size (set_next nx (new_block size raw)) = size) as Ebs by (unfold block_size; simpl; lia).
  split; [|split; [done|done]]. unfold wf_block, count. rewrite Ebs. simpl. rewrite Z.mod_0_l by lia.
  split; [exists k; lia|]. split; [done|]. lia.
Qed.

(** The blocks made so far form a circle from [firstBlock] to [lastBlock]. *)
Definition ring_so_far (heap : gmap Z block) (size firstBlock lastBlock : Z) (l : list Z) : Prop :=
  head l = Some firstBlock /\ last l = Some lastBlock /\ NoDup l /\
  linked heap (l ++ [firstBlock]) /\
  forall a, a ∈ l -> exists b, heap !! a = Some b /\ empty_block size b.

Lemma init_blocks_spec size k n : forall replies heap firstBlock lastBlock l,
  1 <= k <= 10 -> size = 2 ^ k -> replies_ok size replies -> (n <= length replies)%nat ->
  firstBlock <> NULL -> ring_so_far heap size firstBlock lastBlock l ->
  (forall a, a ∈ map fst replies -> a ∉ l) ->
  exists heap', init_blocks n replies size heap firstBlock lastBlock = Some (heap', firstBlock) /\
    exists last', ring_so_far heap' size firstBlock last' (l ++ map fst (take n replies)).
Proof.
  induction n as [|n IH]; intros replies heap fb lb l Hk Hs Hr Hn Hfb Hl Hd; simpl.
  { exists heap. split; [done|]. exists lb. by rewrite app_nil_r. }
  destruct replies as [|[a raw] replies]; [simpl in Hn; lia|].
  destruct Hr as (Hnd & Hnull & Hlen). simpl in Hnd, Hnull. apply NoDup_cons in Hnd as [Ha Hnd].
  apply not_elem_of_cons in Hnull as [Hna Hnull]. apply Forall_cons in Hlen as [Hraw Hlen]. simpl in Hraw.
  assert (a ∉ l) as Hal by (apply Hd; left).
  destruct Hl as (L1 & L2 & L3 & L4 & L5). rewrite (proj2 (Z.eqb_neq fb NULL)) by done.
  apply last_Some_elem_of in L2 as Hlin. assert (lb <> a) as Hlb by (intros ->; done).
  destruct (L5 lb Hlin) as (bl & El & Hbl). rewrite lookup_insert_ne by done. rewrite El. simpl.
  set (heap1 := <[a := set_next fb (new_block size raw)]> (<[lb := set_next a bl]> (<[a := new_block size raw]> heap))).
  destruct (IH replies heap1 fb a (l ++ [a])) as (heap' & E & last' & Hl'); try done.
  - simpl in Hn. lia.
  - split; [destruct l; done|]. split; [apply last_snoc|]. split.
    { apply NoDup_app. split; [done|]. split; [|apply NoDup_singleton].
      intros x Hx ->%list_elem_of_singleton. done. }
    split.
    + apply last_Some in L2 as (l0 & ->). rewrite <- !app_assoc in *. simpl in *.
      apply linked_app in L4 as [L4 _]. apply linked_app. split.
      * assert (a ∉ l0 ++ [lb]) as Hal' by done. subst heap1.
        apply linked_insert_fresh; [done|].
        assert (lb ∉ l0) as Hl0.
        { apply NoDup_app in L3 as (_ & Hdis & _). intros Hi. apply (Hdis _ Hi). left. }
        clear -L4 Hl0 Hal'. induction l0 as [|y [|z l0] IH]; [done|..];
          apply not_elem_of_cons in Hl0 as [Hne Hl0]; apply not_elem_of_cons in Hal' as [Hya Hal'];
          destruct L4 as [(b & Eb & Hb) L4];
          (split; [exists b; by rewrite !lookup_insert_ne|]); [done|by apply IH].
      * unfold heap1. split; [exists (set_next a bl); by rewrite lookup_insert_ne, lookup_insert_eq|].
        split; [|done]. exists (set_next fb (new_block size raw)). by rewrite lookup_insert_eq.
    + intros x Hx. destruct (decide (x = a)) as [->|Hxa].
      { eexists. split; [apply lookup_insert_eq|]. by eapply new_block_empty. }
      apply elem_of_app in Hx as [Hx|Hx%list_elem_of_singleton]; [|done].
      unfold heap1. rewrite lookup_insert_ne by done. destruct (decide (x = lb)) as [->|Hxl].
      * rewrite lookup_insert_eq. exists (set_next a bl). split; [done|]. done.
      * rewrite !lookup_insert_ne by done. by apply L5.
  - intros x Hx. intros [Hin|Hin%list_elem_of_singleton]%elem_of_app.
    + eapply Hd; [by right|done].
    + by subst.
  - exists heap'. split; [done|]. exists last'. by rewrite <- app_assoc in Hl'.
Qed.

Lemma initial_shape_spec maxSize count size :
  0 < maxSize <= 2 ^ 62 -> initial_shape maxSize = Some (count, size) ->
  1 <= count /\ exists k, 1 <= k <= 10 /\ size = 2 ^ k.
Proof.
  intros Hm. change (2 ^ 62) with 4611686018427387904 in Hm. unfold initial_shape.
  rewrite (u64_small (maxSize + 1)) by (unfold is_u64; lia).
  rewrite ceilToPow2_spec by (change (2 ^ 63) with 9223372036854775808; lia). simpl. unfold MAX_BLOCK_SIZE.
  change (u64 (512 * 2)) with 1024. destruct (Z.ltb_spec 1024 (2 ^ Z.log2_up (maxSize + 1))) as [H|H]; intros; simplify_eq.
  - split; [|exists 9; done]. rewrite u64_small by (unfold is_u64; lia).
    assert (1024 < maxSize + 1 \/ maxSize + 1 <= 1024) as [Hb|Hb] by lia.
    + apply Z.div_le_lower_bound; lia.
    + assert (Z.log2_up (maxSize + 1) <= 10) by (apply Z.log2_up_le_pow2; lia).
      pose proof (Z.pow_le_mono_r 2 (Z.log2_up (maxSize + 1)) 10). lia.
  - split; [done|]. exists (Z.log2_up (maxSize + 1)). split; [|done].
    assert (1 <= Z.log2_up (maxSize + 1)) by (change 1 with (Z.log2_up 2) at 1; apply Z.log2_up_le_mono; lia).
    split; [done|]. change 1024 with (2 ^ 10) in H. apply Z.pow_le_mono_r_iff in H; lia.
Qed.

(** The constructor succeeds when [malloc] does, and establishes the invariant
    of an empty queue. *)
Lemma new_ok maxSize replies count size seen :
  0 < maxSize <= 2 ^ 62 -> initial_shape maxSize = Some (count, size) ->
  replies_ok size replies -> count <= Z.of_nat (length replies) ->
  exists first, head (map fst replies) = Some first /\
    let q := mk_queue (circle size first (take (Z.to_nat count) replies)) first first size in
    ReaderWriterQueue_new maxSize replies = Some q /\ queue_view q = [] /\ inv (mk_sys q PIdle CIdle seen) /\ all_there q PIdle.
Proof.
  intros Hm Hs Hr Hc. destruct (initial_shape_spec _ _ _ Hm Hs) as (Hc1 & k & Hk & Ek).
  unfold ReaderWriterQueue_new. rewrite Hs. simpl.
  replace (Z.to_nat count) with (S (Z.to_nat (count - 1))) by lia.
  destruct replies as [|[a raw] replies]; [simpl in Hc; lia|]. cbn [init_blocks].
  destruct Hr as (Hnd & Hnull & Hlen). simpl in Hnd, Hnull. apply NoDup_cons in Hnd as [Ha Hnd].
  apply not_elem_of_cons in Hnull as [Hna Hnull]. apply Forall_cons in Hlen as [Hraw Hlen]. simpl in Hraw.
  rewrite Z.eqb_refl.
  set (b0 := set_next a (new_block size raw)). set (heap := <[a := b0]> (<[a := new_block size raw]> ∅)).
  assert (empty_block size b0) as Hb0 by by eapply new_block_empty.
  destruct (init_blocks_spec size k (Z.to_nat (count - 1)) replies heap a a [a]) as (heap' & E & last' & Hl); try done.
  - simpl in Hc. lia.
  - split; [done|]. split; [done|]. split; [apply NoDup_singleton|]. split.
    + split; [|done]. exists b0. unfold heap. by rewrite lookup_insert_eq.
    + intros x ->%list_elem_of_singleton. exists b0. unfold heap. by rewrite lookup_insert_eq.
  - intros x Hx ->%list_elem_of_singleton. done.
  - exists a. split; [done|]. assert (NoDup (map fst ((a, raw) :: replies))) as Hnd0 by (simpl; by apply NoDup_cons).
    assert (Z.to_nat (count - 1) <= length replies)%nat as Hlen0 by (simpl in Hc; lia).
    pose proof (init_blocks_new size (Z.to_nat (count - 1)) a raw replies Hnd0 (not_eq_sym Hna) Hlen0) as Enew.
    cbn [init_blocks] in Enew. rewrite Z.eqb_refl in Enew. change (set_next a (new_block size raw)) with b0 in Enew |- *. fold heap in Enew.
    fold heap. rewrite E in Enew |- *. injection Enew as ->. split; [done|].
    set (q := mk_queue _ _ _ _). destruct Hl as (L1 & L2 & L3 & L4 & L5). set (gs := map fst (take (Z.to_nat (count - 1)) replies)) in *.
    assert (core q [a] gs) as Hq.
    { split; simpl; try done; [|by intros ? ? ?%elem_of_nil|eauto].
      intros x Hx. destruct (L5 x Hx) as (b & Eb & Hb & _). eauto. }
    assert (free_empty (blocks q) gs) as Hf.
    { intros x b Hx Eb. destruct (L5 x) as (b' & Eb' & _ & Hft & _); [by right|]. change (blocks q !! x = Some b') in Eb'. by simplify_eq. }
    split; [|split].
    + rewrite (queue_view_spec _ _ _ Hq). destruct (L5 a) as (b & Eb & Hb & Hft & _); [left|].
      change (blocks q !! a = Some b) in Eb. unfold fview. cbn [flat_map]. by rewrite Eb, contents_nil.
    + by exists [a], gs.
    + intros fs' gs' Hq'. rewrite (ring_unique q fs' gs' ([a] ++ gs) Hq' eq_refl L3 L4). unfold unlinked. rewrite union_empty_r_L.
      unfold q. cbn [blocks]. by rewrite dom_circle.
Qed.

(** ** Counting and destruction *)
Lemma land_mask_count b : wf_block b -> Z.land (u64 (tail b - front b)) (sizeMask b) = count b.
Proof.
  intros ((k & Hk & Hm) & _). unfold count, block_size. replace (sizeMask b) with (2 ^ k - 1) by lia.
  rewrite land_mask by lia. replace (2 ^ k - 1 + 1) with (2 ^ k) by lia. unfold u64.
  apply Z.mod_mod_divide.
  exists (2 ^ (64 - k)). rewrite <- Z.pow_add_r by lia. by replace (64 - k + k) with 64 by lia.
Qed.

Lemma approx_loop_spec heap f l : forall fuel a r,
  (forall x, x ∈ l -> exists b, heap !! x = Some b /\ wf_block b) ->
  linked heap (l ++ [f]) -> head l = Some a -> f ∉ drop 1 l -> (length l <= fuel)%nat -> is_u64 r ->
  approx_loop fuel heap f a r = Some (u64 (r + Z.of_nat (length (fview heap l)))).
Proof.
  induction l as [|x l IH]; intros fuel a r Hw Hl Hh Hf Hn Hr; [done|]. simpl in Hh. simplify_eq.
  destruct fuel as [|fuel]; [simpl in Hn; lia|]. simpl. destruct (Hw a) as (b & Eb & Hb); [left|].
  rewrite Eb. simpl. rewrite land_mask_count by done. rewrite length_app.
  pose proof (length_contents b Hb) as Hc.
  destruct l as [|y l]; simpl in Hl.
  - destruct Hl as [(b' & Eb' & Hn') _]. simplify_eq. rewrite Z.eqb_refl. simpl. do 2 f_equal. lia.
  - destruct Hl as [(b' & Eb' & Hn') Hl]. simplify_eq.
    rewrite (proj2 (Z.eqb_neq (next b') f)) by (intros <-; apply Hf; left).
    rewrite IH; try done.
    + f_equal. unfold u64. rewrite Zplus_mod_idemp_l. f_equal. lia.
    + intros z Hz. apply Hw. by right.
    + simpl in *. intros Hin. apply Hf. by right.
    + simpl in *. lia.
    + apply u64_range.
Qed.

Lemma ring_front q fs gs : core q fs gs -> head (fs ++ gs) = Some (frontBlock q) /\ frontBlock q ∉ drop 1 (fs ++ gs).
Proof.
  intros [H1 H2 _ _ _ _ _]. destruct fs as [|f l]; [done|]. simpl in *. injection H2 as ->.
  by apply NoDup_cons in H1 as [? _].
Qed.

Lemma ring_size q fs gs : core q fs gs -> (length (fs ++ gs) <= size (blocks q))%nat.
Proof.
  intros Hq. apply NoDup_size; [apply Hq|]. intros a (b & -> & _)%(c_wf _ _ _ Hq). done.
Qed.

Lemma fview_free q fs gs l :
  core q fs gs -> (forall a, a ∈ l -> a ∈ gs) -> free_empty (blocks q) l -> fview (blocks q) l = [].
Proof.
  intros Hq Hl Hf. induction l as [|a l IH]; [done|]. simpl.
  destruct (block_of q fs gs a Hq) as (b & Eb & Hb); [apply elem_of_app; right; apply Hl; left|].
  rewrite Eb, contents_nil; [|done|eapply Hf; [left|done]].
  apply IH; [intros; apply Hl; by right|]. intros x bx Hx. apply Hf. by right.
Qed.

Lemma size_approx_spec q fs gs :
  core q fs gs -> free_empty (blocks q) gs ->
  size_approx q = Some (u64 (Z.of_nat (length (queue_view q)))).
Proof.
  intros Hq Hf. destruct (ring_front q fs gs Hq) as [Hh Hd].
  unfold size_approx. rewrite (approx_loop_spec _ _ (fs ++ gs)); try done.
  - rewrite fview_app, (fview_free q fs gs gs), app_nil_r, (queue_view_spec _ _ _ Hq) by done. done.
  - apply Hq.
  - rewrite <- app_assoc. apply Hq.
  - by apply ring_size.
Qed.

Lemma block_loop_spec b : wf_block b -> forall n i fuel,
  0 <= i < block_size b -> (tail b - i) mod block_size b = Z.of_nat n -> (n <= fuel)%nat ->
  block_loop fuel b i = Some (items n i (block_size b) (data b)).
Proof.
  intros Hb. pose proof (block_size_pos b Hb). assert (0 <= tail b < block_size b) as Ht by apply Hb.
  induction n as [|n IH]; intros i fuel Hi Hn Hf.
  - assert (i = tail b) as ->.
    { rewrite mod_diff in Hn by lia. revert Hn. case_Z; lia. }
    destruct fuel; simpl; by rewrite Z.eqb_refl.
  - destruct fuel as [|fuel]; [lia|]. simpl.
    assert (i <> tail b) by (intros ->; rewrite Z.sub_diag, Z.mod_0_l in Hn by lia; lia).
    rewrite (proj2 (Z.eqb_neq _ _)) by done. rewrite get_data_wf by done. simpl. rewrite next_index by done.
    rewrite IH; [done|apply Z.mod_pos_bound; lia| |lia].
    rewrite mod_step by lia. rewrite mod_diff in Hn by lia. revert Hn. repeat case_Z; intros; rewrite mod_diff by lia; case_Z; lia.
Qed.

Lemma destroy_loop_spec f l : forall heap fuel a,
  (forall x, x ∈ l -> exists b, heap !! x = Some b /\ wf_block b) ->
  linked heap (l ++ [f]) -> head l = Some a -> NoDup l -> f ∉ drop 1 l -> (length l <= fuel)%nat ->
  destroy_loop fuel heap f a = Some (fview heap l, l).
Proof.
  induction l as [|x l IH]; intros heap fuel a Hw Hl Hh Hd Hf Hn; [done|]. simpl in Hh. simplify_eq.
  destruct fuel as [|fuel]; [simpl in Hn; lia|]. simpl. destruct (Hw a) as (b & Eb & Hb); [left|].
  rewrite Eb. simpl. pose proof (count_range b Hb) as Hc. pose proof Hb as (_ & Hlen & Hfr & _).
  rewrite (block_loop_spec b Hb (Z.to_nat (count b))); [|done|by rewrite Z2Nat.id by lia|lia]. fold (contents b). simpl.
  apply NoDup_cons in Hd as [Ha Hd]. destruct l as [|y l]; simpl in Hl.
  - destruct Hl as [(b' & Eb' & Hn') _]. simplify_eq. by rewrite Z.eqb_refl, app_nil_r.
  - destruct Hl as [(b' & Eb' & Hn') Hl]. simplify_eq.
    rewrite (proj2 (Z.eqb_neq (next b') f)) by (intros <-; apply Hf; left).
    assert (forall z, z ∈ next b' :: l -> delete a heap !! z = heap !! z) as Hdel.
    { intros z Hz. apply lookup_delete_ne. by intros ->. }
    rewrite (IH (delete a heap)); [|..].
    + simpl. f_equal. f_equal. f_equal. change (fview (delete a heap) (next b' :: l) = fview heap (next b' :: l)).
      clear -Hdel. induction (next b' :: l) as [|z k IHk]; [done|]. simpl. rewrite (Hdel z) by left. f_equal.
      apply IHk. intros. apply Hdel. by right.
    + intros z Hz. rewrite Hdel by done. apply Hw. by right.
    + simpl in *. clear -Hl Hdel.
      assert (forall k, linked heap (k ++ [f]) -> (forall z, z ∈ k -> delete a heap !! z = heap !! z) ->
        linked (delete a heap) (k ++ [f])) as Hk.
      { clear. induction k as [|z [|w k] IH]; intros Hl Hd; [done|..]; destruct Hl as [(bz & Ez & Hz) Hl];
          (split; [exists bz; by rewrite Hd by left|]); [done|apply IH; [done|intros; apply Hd; by right]]. }
      by apply (Hk (next b' :: l)).
    + done.
    + done.
    + simpl in *. intros Hin. apply Hf. by right.
    + simpl in *. lia.
Qed.

(** ** The contract *)

(** A queue fresh from the constructor for [maxSize] elements. *)
Definition constructed (maxSize : Z) (q : queue) : Prop :=
  exists replies count size, 0 < maxSize <= 2 ^ 62 /\ initial_shape maxSize = Some (count, size) /\
    replies_ok size replies /\ count <= Z.of_nat (length replies) /\
    ReaderWriterQueue_new maxSize replies = Some q.

(** The state after some actions of the two threads. *)
Definition run_from (q : queue) (acts : list action) (s : sys) (evs : list event) : Prop :=
  execute acts (mk_sys q PIdle CIdle false) = Some (s, evs).

Lemma constructed_inv maxSize q : constructed maxSize q -> queue_view q = [] /\ inv (mk_sys q PIdle CIdle false).
Proof.
  intros (replies & count & size & Hm & Hs & Hr & Hc & E).
  destruct (new_ok maxSize replies count size false) as (first & _ & E' & Hv & Hi & _); [done..|]. by simplify_eq.
Qed.

Lemma constructed_there maxSize q : constructed maxSize q -> all_there q PIdle.
Proof.
  intros (replies & count & size & Hm & Hs & Hr & Hc & E).
  destruct (new_ok maxSize replies count size false) as (first & _ & E' & _ & _ & Ha); [done..|]. by simplify_eq.
Qed.

Lemma execute_app acts1 acts2 s s' evs :
  execute (acts1 ++ acts2) s = Some (s', evs) ->
  exists s1 evs1 evs2, execute acts1 s = Some (s1, evs1) /\ execute acts2 s1 = Some (s', evs2) /\ evs = evs1 ++ evs2.
Proof.
  revert s evs. induction acts1 as [|a acts1 IH]; intros s evs He; simpl in *.
  { by exists s, [], evs. }
  destruct (sys_act s a) as [[s1 ev]|]; simpl in *; [|done].
  destruct (execute (acts1 ++ acts2) s1) as [[s2 evs']|] eqn:E; simpl in *; [|done]. simplify_eq.
  destruct (IH s1 evs' E) as (s3 & e1 & e2 & E1 & E2 & ->). rewrite E1. simpl.
  exists s3, (ev ++ e1), e2. by rewrite app_assoc.
Qed.

Lemma execute_app_2 acts1 acts2 s s1 s2 evs1 evs2 :
  execute acts1 s = Some (s1, evs1) -> execute acts2 s1 = Some (s2, evs2) ->
  execute (acts1 ++ acts2) s = Some (s2, evs1 ++ evs2).
Proof.
  revert s evs1. induction acts1 as [|a acts1 IH]; intros s evs1 H1 H2; simpl in *; [by simplify_eq|].
  destruct (sys_act s a) as [[s3 ev]|]; simpl in *; [|done].
  destruct (execute acts1 s3) as [[s4 evs']|] eqn:E; simpl in *; [|done]. simplify_eq.
  rewrite (IH s3 evs' E H2). simpl. by rewrite app_assoc.
Qed.

(** C1. FIFO under every interleaving: whatever the order in which the two
    threads' memory accesses happen and whenever [malloc] fails, the elements
    whose enqueue returned [true], in the order of those returns, are exactly the
    elements dequeued so far, in the order of their returns, followed by what the
    queue holds; nothing is lost, duplicated or reordered. *)
Theorem spsc_fifo (maxSize : Z) (q : queue) (acts : list action) (s : sys) (evs : list event) :
  constructed maxSize q -> run_from q acts s evs ->
  enqueued evs = dequeued evs ++ queue_view (sys_q s).
Proof.
  intros Hq Hr. destruct (constructed_inv _ _ Hq) as [Hv Hi].
  destruct (execute_ok _ _ _ _ Hi Hr) as [_ E]. simpl in E. by rewrite Hv in E.
Qed.

(** C6. What the consumer's calls return: a dequeued or popped element was the
    first of the queue and is no longer in it, a peeked one is the first and
    stays, and a call that returns nothing found the queue empty at some moment
    between its start and its end. *)
Theorem spsc_consumer_results (maxSize : Z) (q : queue) (acts mid : list action) (s0 s1 s2 : sys)
    (evs0 evs1 : list event) (op op' : cop) (r : option ptr) :
  constructed maxSize q -> run_from q acts s0 evs0 -> sys_c s0 = CIdle ->
  execute (ACallConsumer op :: mid) s0 = Some (s1, evs1) ->
  sys_act s1 AConsumer = Some (s2, [EvConsumed op' r]) ->
  let before := queue_view (sys_q s1) in
  let after := queue_view (sys_q s2) in
  match r with
  | Some v => if is_peek op' then after = before /\ head before = Some v else before = v :: after
  | None => after = before /\
      exists mid1 mid2 s evs, ACallConsumer op :: mid = mid1 ++ mid2 /\ execute mid1 s0 = Some (s, evs) /\
        mid1 <> [] /\ queue_view (sys_q s) = []
  end.
Proof.
  intros Hq Hr Hidle He Hs before after. destruct (constructed_inv _ _ Hq) as [_ Hi].
  destruct (execute_ok _ _ _ _ Hi Hr) as [Hi0 _]. destruct (execute_ok _ _ _ _ Hi0 He) as [Hi1 _].
  destruct (sys_act_ok _ _ _ _ Hi1 Hs) as [_ Hev]. destruct r as [v|]; [exact Hev|]. destruct Hev as [Hv Hse].
  split; [done|]. simpl in He. rewrite Hidle in He. simpl in He.
  set (sc := observe _) in He. destruct (execute mid sc) as [[s3 evs3]|] eqn:E; simpl in He; [|done]. simplify_eq.
  assert (execute [ACallConsumer op] s0 = Some (sc, [])) as Ec by (simpl; by rewrite Hidle).
  destruct (seen_empty sc) eqn:Esc.
  - exists [ACallConsumer op], mid, sc, []. split; [done|]. split; [done|]. split; [done|]. by apply is_nil_true.
  - destruct (seen_empty_explained mid sc s1 evs1 E Esc Hse) as (m1 & m2 & s & es & -> & Em & Hv').
    exists (ACallConsumer op :: m1), m2, s, ([] ++ es). split; [done|]. split; [|done].
    by apply (execute_app_2 [ACallConsumer op] m1 s0 sc s [] es).
Qed.

(** C13. Wait freedom and safety: in every reachable state a thread that is inside
    a call can make its next step (no assertion of the source fails and no access
    leaves a block), and its call has returned after at most 7 steps of the
    producer or 9 steps of the consumer, whatever the other thread does. *)
Theorem spsc_wait_free (maxSize : Z) (q : queue) (acts : list action) (s : sys) (evs : list event) :
  constructed maxSize q -> run_from q acts s evs ->
  (sys_p s <> PIdle -> forall reply, reply_ok (sys_q s) reply = true -> is_Some (sys_act s (AProducer reply))) /\
  (sys_c s <> CIdle -> is_Some (sys_act s AConsumer)) /\
  (forall acts' s' evs', execute acts' s = Some (s', evs') -> sys_p s <> PIdle ->
     (7 <= length (filter (fun a => is_producer a = true) acts'))%nat ->
     exists e, e ∈ evs' /\ producer_return e = true) /\
  (forall acts' s' evs', execute acts' s = Some (s', evs') -> sys_c s <> CIdle ->
     (9 <= length (filter (fun a => is_consumer a = true) acts'))%nat ->
     exists e, e ∈ evs' /\ producer_return e = false).
Proof.
  intros Hq Hr. destruct (constructed_inv _ _ Hq) as [_ Hi].
  destruct (execute_ok _ _ _ _ Hi Hr) as [(fs & gs & Hc & Hp & Hcf & _) _]. split; [|split; [|split]].
  - intros Hne reply Hrep. simpl. rewrite Hrep.
    destruct (pstep_ok _ _ _ _ _ reply Hc Hp Hcf Hne Hrep) as ([[q' p'] r] & -> & _). simpl. eauto.
  - intros Hne. simpl. destruct (cstep_ok _ _ _ _ _ Hc Hp Hcf Hne) as ([[q' c'] r] & -> & _). simpl. eauto.
  - intros acts' s' evs' He Hne Hn. eapply producer_returns; [done|done|].
    destruct (sys_p s); simpl; lia.
  - intros acts' s' evs' He Hne Hn. eapply consumer_returns; [done|done|].
    destruct (sys_c s); simpl; lia.
Qed.

(** C14. Construction, for any [maxSize] up to [2^62].  When the least power of two above
    [maxSize] is at most twice [MAX_BLOCK_SIZE], there is one block of that size; otherwise
    there are several of [MAX_BLOCK_SIZE], the least number of them with which all but one, one slot of each
    unused, hold [maxSize] elements.  When [malloc] gives this many blocks, the queue consists of exactly
    these, empty, of that size, each linked to the next one and the last to the
    first, where the threads begin; otherwise there is no queue. *)
Theorem spsc_construct (maxSize : Z) :
  0 < maxSize <= 2 ^ 62 ->
  exists count size, initial_shape maxSize = Some (count, size) /\
    (if 2 ^ Z.log2_up (maxSize + 1) <=? 2 * MAX_BLOCK_SIZE
     then count = 1 /\ size = 2 ^ Z.log2_up (maxSize + 1) /\ maxSize <= size - 1
     else size = MAX_BLOCK_SIZE /\ (count - 2) * (size - 1) < maxSize <= (count - 1) * (size - 1)) /\
    forall replies, replies_ok size replies ->
      if count <=? Z.of_nat (length replies)
      then exists first, head (map fst replies) = Some first /\
             let q := mk_queue (circle size first (take (Z.to_nat count) replies)) first first size in
             ReaderWriterQueue_new maxSize replies = Some q /\ queue_view q = [] /\ size_approx q = Some 0
      else ReaderWriterQueue_new maxSize replies = None.
Proof.
  intros Hm. assert (exists count size, initial_shape maxSize = Some (count, size)) as (count & size & Hs).
  { unfold initial_shape. change (2 ^ 62) with 4611686018427387904 in Hm. rewrite (u64_small (maxSize + 1)) by (unfold is_u64; lia).
    rewrite ceilToPow2_spec by (change (2 ^ 63) with 9223372036854775808; lia). simpl. case_match; by eexists _, _. }
  exists count, size. split; [done|]. split.
  - revert Hs. change (2 ^ 62) with 4611686018427387904 in Hm. unfold initial_shape.
    rewrite (u64_small (maxSize + 1)) by (unfold is_u64; lia).
    rewrite ceilToPow2_spec by (change (2 ^ 63) with 9223372036854775808; lia). simpl. unfold MAX_BLOCK_SIZE.
    change (u64 (512 * 2)) with 1024. change (2 * 512) with 1024.
    pose proof (Z.log2_log2_up_spec (maxSize + 1)) as Hl.
    destruct (Z.ltb_spec 1024 (2 ^ Z.log2_up (maxSize + 1))) as [H|H]; intros; simplify_eq.
    + rewrite (proj2 (Z.leb_gt _ _)) by done. split; [done|]. rewrite u64_small by (unfold is_u64; lia). dlia.
    + rewrite (proj2 (Z.leb_le _ _)) by done. split; [done|]. split; [done|]. lia.
  - intros replies Hr. destruct (Z.leb_spec count (Z.of_nat (length replies))) as [Hc|Hc].
    + destruct (new_ok maxSize replies count size false) as (first & Hh & E & Hv & (fs & gs & Hq & Hf & _) & _); [done..|].
      exists first. split; [done|]. split; [done|]. split; [done|]. pose proof (size_approx_spec _ fs gs Hq Hf) as Ha. simpl in Ha. by rewrite Hv in Ha.
    + unfold ReaderWriterQueue_new. rewrite Hs. cbn [mbind option_bind]. rewrite init_blocks_short; [done|lia].
Qed.

(** C15. With no enqueue under way [size_approx] gives exactly the number of
    elements (modulo [2^64]), and the destructor destroys exactly the elements of
    the queue, in order, and frees every block that the constructor and the enqueues have allocated, once
    each, without touching a block it has freed. *)
Theorem spsc_count_and_delete (maxSize : Z) (q : queue) (acts : list action) (s : sys) (evs : list event) :
  constructed maxSize q -> run_from q acts s evs -> sys_p s = PIdle ->
  size_approx (sys_q s) = Some (u64 (Z.of_nat (length (queue_view (sys_q s))))) /\
  exists freed, ReaderWriterQueue_delete (sys_q s) = Some (queue_view (sys_q s), freed) /\
    freed ≡ₚ base.elements (dom (blocks (sys_q s))).
Proof.
  intros Hq Hr Hidle. destruct (constructed_inv _ _ Hq) as [_ Hi]. pose proof (constructed_there _ _ Hq) as Ha.
  pose proof (execute_there _ _ _ _ Hi Ha Hr) as Ha'. rewrite Hidle in Ha'.
  destruct (execute_ok _ _ _ _ Hi Hr) as [(fs & gs & Hc & Hp & _) _]. rewrite Hidle in Hp. simpl in Hp.
  split; [by eapply size_approx_spec|]. destruct (ring_front _ fs gs Hc) as [Hh Hd].
  exists (fs ++ gs). split.
  - unfold ReaderWriterQueue_delete. rewrite (destroy_loop_spec _ (fs ++ gs)); try done.
    + by rewrite fview_app, (fview_free _ fs gs gs), app_nil_r, (queue_view_spec _ _ _ Hc) by done.
    + apply Hc.
    + rewrite <- app_assoc. apply Hc.
    + apply Hc.
    + by apply ring_size.
  - rewrite (Ha' fs gs Hc). simpl. rewrite union_empty_r_L. symmetry. apply elements_list_to_set, Hc.
Qed.

(** ** A concrete run: a one-element pipe whose producer has to add a block *)
Definition sample_replies : list (Z * list ptr) := [(100, [0; 0])].
Definition sample_queue : queue :=
  mk_queue {[ 100 := mk_block 0 0 0 0 100 1 [0; 0] ]} 100 100 2.

Lemma sample_constructed : constructed 1 sample_queue.
Proof.
  exists sample_replies, 1, 2. split; [lia|]. split; [reflexivity|]. split.
  - split; [apply NoDup_singleton|]. split; [|by repeat constructor]. simpl. by intros ?%list_elem_of_singleton.
  - split; [simpl; lia|]. vm_compute. reflexivity.
Qed.

Definition sample_acts : list action :=
  [pipe_spsc_enqueue 7; AProducer None; AProducer None; AProducer None;
   pipe_spsc_enqueue 8; AProducer None; pipe_spsc_try_dequeue; AConsumer; AProducer None; AConsumer;
   AProducer None; AProducer (Some (200, [0; 0; 0; 0])); AConsumer; AProducer None; AConsumer; AProducer None].

Definition sample_end : sys :=
  mk_sys (mk_queue (list_to_map [(100, mk_block 1 1 1 0 200 1 [7; 0]); (200, mk_block 0 1 1 0 100 3 [8; 0; 0; 0])])
            100 200 4) PIdle CIdle true.

Lemma sample_run : run_from sample_queue sample_acts sample_end
  [EvEnqueued 7; EvConsumed TryDequeue (Some 7); EvEnqueued 8].
Proof. vm_compute. reflexivity. Qed.

Lemma spsc_fifo_witness :
  enqueued [EvEnqueued 7; EvConsumed TryDequeue (Some 7); EvEnqueued 8] =
  dequeued [EvEnqueued 7; EvConsumed TryDequeue (Some 7); EvEnqueued 8] ++ queue_view (sys_q sample_end).
Proof. exact (spsc_fifo 1 _ _ _ _ sample_constructed sample_run). Defined.

Definition sample_start : sys := mk_sys sample_queue PIdle CIdle false.

(** A [peek] on the empty queue while an enqueue is between its store and its
    publication. *)
Definition sample_mid : list action :=
  [AConsumer; pipe_spsc_enqueue 7; AProducer None; AProducer None; AConsumer; AProducer None].
Definition sample_before : sys :=
  mk_sys (mk_queue {[ 100 := mk_block 0 0 1 0 100 1 [7; 0] ]} 100 100 2) PIdle (CCheckTail Peek 100) true.
Definition sample_after : sys :=
  mk_sys (mk_queue {[ 100 := mk_block 0 0 1 0 100 1 [7; 0] ]} 100 100 2) PIdle CIdle true.

Lemma spsc_consumer_results_witness :
  queue_view (sys_q sample_after) = [7] /\
  exists mid1 mid2 s evs, ACallConsumer Peek :: sample_mid = mid1 ++ mid2 /\
    execute mid1 sample_start = Some (s, evs) /\ queue_view (sys_q s) = [].
Proof.
  destruct (spsc_consumer_results 1 sample_queue [] sample_mid sample_start sample_before sample_after
    [] [EvEnqueued 7] Peek Peek None) as (Hv & mid1 & mid2 & s & evs & E1 & E2 & _ & E3).
  - exact sample_constructed.
  - reflexivity.
  - reflexivity.
  - vm_compute. reflexivity.
  - vm_compute. reflexivity.
  - split; [reflexivity|]. by exists mid1, mid2, s, evs.
Defined.

Lemma spsc_wait_free_witness : is_Some (sys_act sample_before AConsumer).
Proof.
  refine (proj1 (proj2 (spsc_wait_free 1 sample_queue (ACallConsumer Peek :: sample_mid) sample_before
    [EvEnqueued 7] sample_constructed _)) _); [vm_compute; reflexivity|done].
Defined.

Lemma spsc_construct_witness :
  let replies := map (fun k => (4096 * Z.of_nat k, replicate 512 0)) (seq 1 5) in
  exists q, ReaderWriterQueue_new 2000 replies = Some q /\ size_approx q = Some 0 /\ dom (blocks q) = {[ 4096; 8192; 12288; 16384; 20480 ]}.
Proof.
  intros replies. destruct (spsc_construct 2000) as (count & size & Hs & _ & Hn); [lia|].
  assert (count = 5 /\ size = 512) as [-> ->] by (split; [apply (f_equal (fun o => match o with Some (c, _) => c | None => count end)) in Hs|
    apply (f_equal (fun o => match o with Some (_, c) => c | None => size end)) in Hs]; symmetry; exact Hs).
  destruct (Hn replies) as (first & Hh & Hq & _ & Ha).
  - split; [apply (bool_decide_unpack _); vm_compute; exact I|].
    split; [apply (bool_decide_unpack _); vm_compute; exact I|].
    apply Forall_forall. intros x Hx. subst replies. apply list_elem_of_fmap in Hx as (k & -> & _). reflexivity.
  - injection Hh as <-. eexists. split; [exact Hq|]. split; [exact Ha|]. apply (bool_decide_unpack _). vm_compute. exact I.
Defined.

Lemma spsc_count_and_delete_witness :
  exists freed, ReaderWriterQueue_delete (sys_q sample_end) = Some ([8], freed) /\ freed ≡ₚ base.elements (dom (blocks (sys_q sample_end))).
Proof.
  exact (proj2 (spsc_count_and_delete 1 sample_queue sample_acts sample_end _ sample_constructed sample_run eq_refl)).
Defined.
