(* ===== verification/WeakMem.v ===== *)
(** * Relaxed memory (src/lib/spsc-queue/atomicops.h)

    [weak_atomic] variables are loaded and stored with relaxed order; only the
    calls of [fence] order them.  Here two threads share a memory that keeps all
    the messages ever stored to a variable.  A load may return any message that is
    not older than what its thread already knows of the variable.  A thread knows
    three views of the memory: what it has seen ([cur]), what it will have seen
    after an acquire fence ([acq]), and what it had seen at its last release fence
    ([rel]), which its stores pass on.  This is the release-acquire fragment of
    the C++ memory model, for variables that one thread alone stores to.

    Ordinary variables must not be subject to data races: an access that is not
    ordered after the last write, and a write that is not ordered after all reads,
    is [Undefined].  So are accesses outside the allocated blocks, stores to
    another thread's atomic variable and loads from uninitialised memory.

    [fences_synchronise] is the use of the fences: what a thread did before a
    release fence and a store is ordered before what another thread does after it
    has loaded that value and executed an acquire fence. *)
From S2P Require Import Prelude.

Local Open Scope nat_scope.

Inductive memory_order :=
| memory_order_relaxed | memory_order_acquire | memory_order_release
| memory_order_acq_rel | memory_order_seq_cst.

Inductive tid := Producer | Consumer.
Definition other (t : tid) : tid := match t with Producer => Consumer | Consumer => Producer end.
#[export] Instance tid_eq_dec : EqDecision tid.
Proof. solve_decision. Defined.

(** What a call does: it continues, the environment cannot choose so, or the
    program has undefined behaviour. *)
Inductive outcome (A : Type) := Done (a : A) | Disallowed | Undefined.
Arguments Done {A} a.
Arguments Disallowed {A}.
Arguments Undefined {A}.

(** Where a variable lives: in static memory, or in an allocated block, as one of
    its members or as an element of its array. *)
Inductive place := Static | Member (block : Z) | Element (block : Z) (i : Z).

Class Vars (L : Type) := {
  vars_eq_dec :: EqDecision L;
  home : L -> place;
  (** declared [weak_atomic], and by whom it is stored to *)
  is_atomic : L -> bool;
  owner : L -> tid
}.

(** ** Views *)
Inductive access (L : Type) := W (l : L) | R (t : tid) (l : L).
Arguments W {L} l.
Arguments R {L} t l.
#[export] Instance access_eq_dec `{EqDecision L} : EqDecision (access L).
Proof. solve_decision. Defined.

(** How many of the messages of a variable, and of the reads of an ordinary
    variable by a thread, are known. *)
Definition view (L : Type) : Type := access L -> nat.
Definition below {L} (U V : view L) : Prop := forall x, U x <= V x.
Definition join {L} (U V : view L) : view L := fun x => Nat.max (U x) (V x).

Section memory.
Context `{Vars L}.

Definition just (x : access L) (n : nat) : view L := fun y => if decide (y = x) then n else 0.
Definition learn (x : access L) (n : nat) (V : view L) : view L := join V (just x n).

Record memory := {
  heap : gmap Z Z;                       (* the allocated blocks and their sizes *)
  msgs : L -> list (Z * view L);         (* the values stored, oldest first *)
  reads : tid -> L -> nat                (* how often a thread has read an ordinary variable *)
}.
Record views := { cur : view L; acq : view L; rel : view L }.

Definition count (m : memory) (l : L) : nat := length (msgs m l).

Definition put {A B} `{EqDecision A} (a : A) (b : B) (f : A -> B) : A -> B :=
  fun x => if decide (x = a) then b else f x.
Definition push (l : L) (x : Z * view L) (m : memory) : memory :=
  {| heap := heap m; msgs := put l (msgs m l ++ [x]) (msgs m); reads := reads m |}.
Definition note_read (t : tid) (l : L) (m : memory) : memory :=
  {| heap := heap m; msgs := msgs m; reads := put t (put l (S (reads m t l)) (reads m t)) (reads m) |}.
Definition allocate (a n : Z) (m : memory) : memory :=
  {| heap := <[a := n]> (heap m); msgs := msgs m; reads := reads m |}.

Definition valid (m : memory) (l : L) : bool :=
  match home l with
  | Static => true
  | Member a => match heap m !! a with Some _ => true | None => false end
  | Element a i => match heap m !! a with Some n => (0 <=? i)%Z && (i <? n)%Z | None => false end
  end.

(** ** The operations *)
Inductive op :=
| Load (l : L)                   (* weak_atomic::load *)
| Store (l : L) (v : Z)          (* weak_atomic::operator= *)
| Fence (order : memory_order)
| CompilerFence (order : memory_order)
| Read (l : L)                   (* an ordinary variable, or the member of an atomic one that is initialised *)
| Write (l : L) (v : Z)
| Malloc (n : Z).

Definition fence (order : memory_order) (w : views) : views :=
  match order with
  | memory_order_relaxed => w
  | memory_order_acquire => {| cur := acq w; acq := acq w; rel := rel w |}
  | memory_order_release => {| cur := cur w; acq := acq w; rel := cur w |}
  | memory_order_acq_rel | memory_order_seq_cst => {| cur := acq w; acq := acq w; rel := acq w |}
  end.

(** It orders nothing between threads. *)
Definition compiler_fence (order : memory_order) (w : views) : views := w.

(** A thread's views after it has done an access itself, and after it has loaded
    the message with number [i], which passes on [V]. *)
Definition did (x : access L) (n : nat) (w : views) : views :=
  {| cur := learn x n (cur w); acq := learn x n (acq w); rel := rel w |}.
Definition received (l : L) (i : nat) (V : view L) (w : views) : views :=
  {| cur := learn (W l) (S i) (cur w); acq := join (learn (W l) (S i) (acq w)) V; rel := rel w |}.

Definition load (l : L) (i : nat) (m : memory) (w : views) : outcome (Z * memory * views) :=
  if negb (valid m l && is_atomic l) || (cur w (W l) =? 0) then Undefined
  else if S i <? cur w (W l) then Disallowed
  else match msgs m l !! i with
       | None => Disallowed
       | Some (v, V) => Done (v, m, received l i V w)
       end.

Definition store (t : tid) (l : L) (v : Z) (m : memory) (w : views) : outcome (Z * memory * views) :=
  let n := count m l in
  if negb (valid m l && is_atomic l && bool_decide (owner l = t)) || (n =? 0) || negb (cur w (W l) =? n)
  then Undefined
  else Done (0%Z, push l (v, learn (W l) (S n) (rel w)) m, did (W l) (S n) w).

Definition read (t : tid) (l : L) (m : memory) (w : views) : outcome (Z * memory * views) :=
  if negb (valid m l && negb (is_atomic l) && (cur w (W l) =? count m l)) then Undefined
  else match last (msgs m l) with
       | None => Undefined
       | Some (v, _) =>
           let n := S (reads m t l) in
           Done (v, note_read t l m, did (R t l) n w)
       end.

(** An atomic variable is written once in this way, by its constructor. *)
Definition write (t : tid) (l : L) (v : Z) (m : memory) (w : views) : outcome (Z * memory * views) :=
  let n := count m l in
  if negb (valid m l && (cur w (W l) =? n) && (reads m (other t) l <=? cur w (R (other t) l))) ||
     (is_atomic l && negb (n =? 0))
  then Undefined
  else Done (0%Z, push l (v, just (W l) (S n)) m, did (W l) (S n) w).

(** [choice]: the number of the message that a load returns, or the address that
    [malloc] returns. *)
Definition exec (t : tid) (choice : Z) (o : op) (m : memory) (w : views) : outcome (Z * memory * views) :=
  match o with
  | Load l => load l (Z.to_nat choice) m w
  | Store l v => store t l v m w
  | Fence order => Done (0%Z, m, fence order w)
  | CompilerFence order => Done (0%Z, m, compiler_fence order w)
  | Read l => read t l m w
  | Write l v => write t l v m w
  | Malloc n =>
      if (choice =? NULL)%Z then Done (NULL, m, w)
      else match heap m !! choice with
           | Some _ => Disallowed
           | None => Done (choice, allocate choice n m, w)
           end
  end.

(** ** Programs *)
Inductive prog (A : Type) :=
| Ret (a : A)
| AssertionFails
| Step (o : op) (k : Z -> prog A).
End memory.

Arguments Ret {L A} a.
Arguments AssertionFails {L A}.
Arguments Step {L A} o k.
Arguments memory L : clear implicits.
Arguments views L : clear implicits.
Arguments op L : clear implicits.


Declare Scope prog_scope.
Delimit Scope prog_scope with prog.
Notation "x <- o ;; k" := (Step o (fun x => k%prog)) (at level 20, o at level 99, k at level 200) : prog_scope.
Notation "o ;; k" := (Step o (fun _ => k%prog)) (at level 100, k at level 200, right associativity) : prog_scope.

(** ** Well-formed memories

    Views never run ahead of the memory; a message never passes on more than its
    thread knew at its last release fence; who knows a message of the other thread
    through an acquire fence knows all that the message passes on. *)
Section facts.
Context `{Vars L}.
Implicit Types (m : memory L) (w : views L) (U V : view L) (l : L) (t : tid).

Lemma below_refl U : below U U.
Proof. intros x. lia. Qed.
Lemma below_trans U V V' : below U V -> below V V' -> below U V'.
Proof. intros H1 H2 x. specialize (H1 x). specialize (H2 x). lia. Qed.
Lemma join_le U V V' : below (join U V) V' <-> below U V' /\ below V V'.
Proof.
  split.
  - intros Hj. split; intros x; specialize (Hj x); unfold join in Hj; lia.
  - intros [H1 H2] x. specialize (H1 x). specialize (H2 x). unfold join. lia.
Qed.
Lemma join_l U V : below U (join U V).
Proof. intros x. unfold join. lia. Qed.
Lemma join_r U V : below V (join U V).
Proof. intros x. unfold join. lia. Qed.
Lemma learn_l x n U : below U (learn x n U).
Proof. apply join_l. Qed.
Lemma just_le x n U : below (just x n) U <-> n <= U x.
Proof.
  unfold just. split.
  - intros Hj. specialize (Hj x). cbv beta in Hj. by rewrite decide_True in Hj.
  - intros Hn y. case_decide; [by subst|lia].
Qed.
Lemma learn_le x n U V : below (learn x n U) V <-> below U V /\ n <= V x.
Proof. unfold learn. by rewrite join_le, just_le. Qed.
Lemma learn_mono x n U V : below U V -> below (learn x n U) (learn x n V).
Proof. intros Hl y. specialize (Hl y). unfold learn, join. lia. Qed.
Lemma learn_eq x n U : learn x n U x = Nat.max (U x) n.
Proof. unfold learn, join, just. by rewrite decide_True. Qed.
Lemma learn_ne x n U y : y <> x -> learn x n U y = U y.
Proof. intros. unfold learn, join, just. rewrite decide_False by done. lia. Qed.
Lemma put_eq {A B} `{EqDecision A} (a : A) (b : B) f : put a b f a = b.
Proof. unfold put. by rewrite decide_True. Qed.
Lemma put_ne {A B} `{EqDecision A} (a a' : A) (b : B) f : a' <> a -> put a b f a' = f a'.
Proof. intros. unfold put. by rewrite decide_False. Qed.

Definition bounded m U : Prop := forall l, U (W l) <= count m l /\ forall t, U (R t l) <= reads m t l.

(** [U] has all that the first messages of [l], as many as it knows, pass on. *)
Definition closed m (l : L) U : Prop :=
  forall i v V, i < U (W l) -> msgs m l !! i = Some (v, V) -> below V U.

Record wf m (vs : tid -> views L) : Prop := {
  wf_rel : forall t, below (rel (vs t)) (cur (vs t));
  wf_cur : forall t, below (cur (vs t)) (acq (vs t));
  wf_bound : forall t, bounded m (acq (vs t));
  wf_msg : forall l i v V, msgs m l !! i = Some (v, V) ->
    S i <= V (W l) /\ below V (learn (W l) (S i) (rel (vs (owner l))));
  wf_passed : forall l i v V, is_atomic l = true -> msgs m l !! i = Some (v, V) ->
    forall l', is_atomic l' = true -> owner l' = owner l -> closed m l' V;
  wf_acquired : forall t l, is_atomic l = true -> owner l <> t -> closed m l (acq (vs t))
}.

(** Accesses only add to what a thread has seen. *)
Lemma received_below l i V w : below (cur w) (cur (received l i V w)) /\ below (acq w) (acq (received l i V w)).
Proof. split; [apply learn_l|]. eapply below_trans; [apply learn_l|apply join_l]. Qed.
Lemma did_below x n w : below (cur w) (cur (did x n w)) /\ below (acq w) (acq (did x n w)).
Proof. split; apply learn_l. Qed.

Lemma bounded_below m U V : below U V -> bounded m V -> bounded m U.
Proof.
  intros Hb HV l. destruct (HV l) as [H1 H2]. split.
  - specialize (Hb (W l)). lia.
  - intros t. specialize (H2 t). specialize (Hb (R t l)). lia.
Qed.

Lemma bounded_learn m U l n : bounded m U -> n <= count m l -> bounded m (learn (W l) n U).
Proof.
  intros HU Hn l'. destruct (HU l') as [H1 H2]. split.
  - destruct (decide (l' = l)) as [->|Hl]; [rewrite learn_eq; lia|by rewrite learn_ne by congruence].
  - intros t. by rewrite learn_ne by done.
Qed.

Lemma bounded_join m U V : bounded m U -> bounded m V -> bounded m (join U V).
Proof.
  intros HU HV l. destruct (HU l) as [H1 H2], (HV l) as [H3 H4]. unfold join. split; [lia|].
  intros t. specialize (H2 t). specialize (H4 t). lia.
Qed.

Lemma closed_join m l U V : closed m l U -> closed m l V -> closed m l (join U V).
Proof.
  intros HU HV i v V' Hi Hm. unfold join in Hi.
  destruct (Nat.max_spec (U (W l)) (V (W l))) as [[_ E]|[_ E]]; rewrite E in Hi.
  - eapply below_trans; [by eapply HV|apply join_r].
  - eapply below_trans; [by eapply HU|apply join_l].
Qed.

Section wf.
Context m vs (Hwf : wf m vs).

Lemma known_bounded t l : cur (vs t) (W l) <= count m l.
Proof. pose proof (wf_cur _ _ Hwf t (W l)). pose proof (proj1 (wf_bound _ _ Hwf t l)). lia. Qed.

Lemma fence_below t o : below (cur (vs t)) (cur (fence o (vs t))) /\ below (acq (vs t)) (acq (fence o (vs t))).
Proof. pose proof (wf_cur _ _ Hwf t). destruct o; split; simpl; try apply below_refl; done. Qed.

Lemma msg_bounded l i v V : msgs m l !! i = Some (v, V) -> bounded m V.
Proof.
  intros Hm. destruct (wf_msg _ _ Hwf _ _ _ _ Hm) as [_ Hb]. eapply bounded_below; [exact Hb|].
  apply bounded_learn; [|by apply lookup_lt_Some in Hm].
  eapply bounded_below; [|apply (wf_bound _ _ Hwf)].
  eapply below_trans; [apply (wf_rel _ _ Hwf)|apply (wf_cur _ _ Hwf)].
Qed.

(** What a thread has seen of its own messages it had passed on. *)
Lemma own_closed l U t :
  owner l = t -> below (rel (vs t)) U -> closed m l U.
Proof.
  intros Ho HU i v V Hi Hm. destruct (wf_msg _ _ Hwf _ _ _ _ Hm) as [_ Hb]. eapply below_trans; [exact Hb|].
  apply learn_le. by rewrite Ho.
Qed.

(** A thread learns something about the memory. *)
Lemma wf_views t w :
  below (rel (vs t)) (rel w) -> below (rel w) (cur w) -> below (cur w) (acq w) -> bounded m (acq w) ->
  (forall l, is_atomic l = true -> owner l <> t -> closed m l (acq w)) -> wf m (put t w vs).
Proof.
  intros H1 H2 H3 H4 H5. split; try (intros t'; destruct (decide (t' = t)) as [->|Ht];
    [by rewrite put_eq|rewrite put_ne by done; apply Hwf]).
  - intros l i v V Hm. destruct (wf_msg _ _ Hwf _ _ _ _ Hm) as [Hi Hb]. split; [done|].
    destruct (decide (owner l = t)) as [<-|Ht]; [|by rewrite put_ne].
    rewrite put_eq. eapply below_trans; [exact Hb|by apply learn_mono].
  - apply Hwf.
Qed.

Lemma wf_fence t o : wf m (put t (fence o (vs t)) vs).
Proof.
  pose proof (wf_rel _ _ Hwf t) as H1. pose proof (wf_cur _ _ Hwf t) as H2.
  pose proof (below_trans _ _ _ H1 H2) as H3.
  apply wf_views; destruct o; simpl; auto using below_refl; try apply Hwf.
Qed.

(** A message of another thread is received. *)
Lemma received_closed t l i v V :
  is_atomic l = true -> msgs m l !! i = Some (v, V) ->
  forall l', is_atomic l' = true -> owner l' <> t -> closed m l' (join (learn (W l) (S i) (acq (vs t))) V).
Proof.
  intros Ha Hm l' Ha' Ho'. pose proof (wf_acquired _ _ Hwf t l' Ha' Ho') as Hacq.
  destruct (wf_msg _ _ Hwf _ _ _ _ Hm) as [Hi Hb].
  assert (closed m l' (join (acq (vs t)) V)) as Hj.
  { destruct (decide (owner l' = owner l)) as [Ho|Ho].
    - apply closed_join; [done|]. exact (wf_passed _ _ Hwf l i v V Ha Hm l' Ha' Ho).
    - assert (owner l = t) as <- by (destruct (owner l'), (owner l), t; congruence).
      assert (below V (learn (W l) (S i) (acq (vs (owner l))))) as Hb'.
      { eapply below_trans; [exact Hb|]. apply learn_mono.
        eapply below_trans; [apply (wf_rel _ _ Hwf)|apply (wf_cur _ _ Hwf)]. }
      intros i' v' V' Hi' Hm'. eapply below_trans; [|apply join_l]. apply (Hacq i' v'); [|done].
      unfold join in Hi'. specialize (Hb' (W l')). rewrite learn_ne in Hb' by congruence. lia. }
  intros i' v' V' Hi' Hm'. eapply below_trans; [apply (Hj i' v')|]; [|done|].
  - unfold learn, join, just in *. destruct (decide (W l' = W l)) as [E|]; [injection E as ->|]; lia.
  - apply join_le. split; [eapply below_trans; [apply learn_l|apply join_l]|apply join_r].
Qed.

Lemma wf_load t l i v m' w' :
  load l i m (vs t) = Done (v, m', w') -> m' = m /\ wf m (put t w' vs).
Proof.
  unfold load. intros Hl. case_match eqn:E1; [done|]. case_match; [done|]. case_match eqn:Em; [|done].
  destruct p as [v' V]. injection Hl as <- <- <-. split; [done|].
  apply orb_false_iff in E1 as [[_ Ha]%negb_false_iff%andb_true_iff _].
  apply wf_views; simpl.
  - apply below_refl.
  - eapply below_trans; [apply (wf_rel _ _ Hwf)|apply learn_l].
  - eapply below_trans; [apply learn_mono, (wf_cur _ _ Hwf)|apply join_l].
  - apply bounded_join; [|by eapply msg_bounded].
    apply bounded_learn; [apply Hwf|by apply lookup_lt_Some in Em].
  - intros l' Ha' Ho'. by eapply received_closed.
Qed.

(** A message is added. *)
Lemma msgs_push l x l' i v V : msgs (push l x m) l' !! i = Some (v, V) ->
  msgs m l' !! i = Some (v, V) \/ l' = l /\ i = count m l /\ x = (v, V).
Proof.
  simpl. unfold put. case_decide as El; [|by left]. subst l'. rewrite lookup_app_Some. intros [E|[Hn E]]; [by left|].
  right. apply list_lookup_singleton_Some in E as [E ->]. split; [done|]. split; [unfold count; lia|done].
Qed.

Lemma count_push l x l' : count (push l x m) l' = if decide (l' = l) then S (count m l) else count m l'.
Proof. unfold count. simpl. unfold put. case_decide; [|done]. rewrite length_app. simpl. lia. Qed.

Lemma bounded_push l x U : bounded m U -> bounded (push l x m) U.
Proof. intros HU l'. destruct (HU l') as [H1 H2]. rewrite count_push. split; [|done]. case_decide; subst; lia. Qed.

Lemma closed_push l x l' U : (l' = l -> U (W l) <= count m l) -> closed m l' U -> closed (push l x m) l' U.
Proof.
  intros Hb HU i v V Hi Hm. apply msgs_push in Hm as [Hm|(-> & -> & _)]; [by eapply HU|].
  specialize (Hb eq_refl). lia.
Qed.

Lemma wf_push t l v V w' :
  S (count m l) <= V (W l) -> below V (learn (W l) (S (count m l)) (rel (vs (owner l)))) ->
  (is_atomic l = true -> forall l', is_atomic l' = true -> owner l' = owner l -> closed (push l (v, V) m) l' V) ->
  w' = did (W l) (S (count m l)) (vs t) ->
  (is_atomic l = true -> owner l <> t -> count m l = 0 /\ below V (learn (W l) (S (count m l)) (acq (vs t)))) ->
  wf (push l (v, V) m) (put t w' vs).
Proof.
  intros HV Hb Hc -> Ht.
  assert (forall t', rel (put t (did (W l) (S (count m l)) (vs t)) vs t') = rel (vs t')) as Hrel.
  { intros t'. unfold put. by case_decide; subst. }
  assert (forall U, bounded m U -> bounded (push l (v, V) m) (learn (W l) (S (count m l)) U)) as Hbd.
  { intros U HU. apply bounded_learn; [by apply bounded_push|]. rewrite count_push. by rewrite decide_True. }
  split.
  - intros t'. rewrite Hrel. unfold put. case_decide; [|apply Hwf]. subst. simpl.
    eapply below_trans; [apply (wf_rel _ _ Hwf)|apply learn_l].
  - intros t'. unfold put. case_decide; [|apply Hwf]. simpl. apply learn_mono, Hwf.
  - intros t'. unfold put. case_decide; simpl; [apply Hbd, Hwf|apply bounded_push, Hwf].
  - intros l' i v' V' Hm. rewrite Hrel. apply msgs_push in Hm as [Hm|(-> & -> & [= -> ->])]; [|done].
    by eapply (wf_msg _ _ Hwf).
  - intros l' i v' V' Ha Hm l'' Ha'' Ho. apply msgs_push in Hm as [Hm|(-> & -> & [= -> ->])]; [|auto].
    apply closed_push; [|exact (wf_passed _ _ Hwf l' i v' V' Ha Hm l'' Ha'' Ho)]. intros ->.
    apply (msg_bounded _ _ _ _ Hm).
  - intros t' l' Ha Ho. unfold put. case_decide as Et; simpl.
    + subst t'. intros i v' V' Hi Hm. apply msgs_push in Hm as [Hm|(-> & -> & [= -> ->])]; [|by apply Ht].
      eapply below_trans; [|apply learn_l]. eapply (wf_acquired _ _ Hwf); [done..| |exact Hm].
      destruct (decide (l' = l)) as [->|Hl]; [|by rewrite learn_ne in Hi by congruence].
      destruct (Ht Ha Ho) as [Hc0 _]. apply lookup_lt_Some in Hm. unfold count in Hc0. lia.
    + apply closed_push; [|by apply Hwf]. intros ->. apply (wf_bound _ _ Hwf).
Qed.

Lemma wf_store t l x v m' w' :
  store t l x m (vs t) = Done (v, m', w') -> wf m' (put t w' vs).
Proof.
  unfold store. intros Hs. case_match eqn:E; [done|]. injection Hs as <- <- <-.
  apply orb_false_iff in E as [[E1 E2]%orb_false_iff E3]. apply negb_false_iff in E1, E3.
  apply andb_true_iff in E1 as [[_ Ha]%andb_true_iff Ho%bool_decide_eq_true]. apply Nat.eqb_eq in E3.
  set (V := learn (W l) (S (count m l)) (rel (vs t))).
  assert (below (rel (vs t)) (acq (vs t))) as Hra
    by (eapply below_trans; [apply (wf_rel _ _ Hwf)|apply (wf_cur _ _ Hwf)]).
  apply wf_push; [| | |done|].
  - unfold V. rewrite learn_eq. lia.
  - rewrite Ho. apply below_refl.
  - intros _ l' Ha' Ho' i v' V' Hi Hm. apply msgs_push in Hm as [Hm|(-> & -> & [= <- <-])]; [|apply below_refl].
    destruct (decide (l' = l)) as [->|Hl].
    + destruct (wf_msg _ _ Hwf _ _ _ _ Hm) as [_ Hb]. eapply below_trans; [exact Hb|]. rewrite Ho.
      apply learn_le. split; [apply learn_l|]. unfold V. rewrite learn_eq. apply lookup_lt_Some in Hm. unfold count. lia.
    + unfold V in Hi. rewrite learn_ne in Hi by congruence.
      eapply below_trans; [|apply learn_l]. eapply (own_closed l' _ t); [congruence|apply below_refl|exact Hi|exact Hm].
  - intros _ Hne. done.
Qed.

Lemma wf_write t l x v m' w' :
  write t l x m (vs t) = Done (v, m', w') -> wf m' (put t w' vs).
Proof.
  unfold write. intros Hs. case_match eqn:E; [done|]. injection Hs as <- <- <-.
  apply orb_false_iff in E as [_ E2].
  assert (is_atomic l = true -> count m l = 0) as Hc.
  { intros Ha. rewrite Ha in E2. by apply negb_false_iff, Nat.eqb_eq in E2. }
  assert (forall U, below (just (W l) (S (count m l))) (learn (W l) (S (count m l)) U)) as Hj
    by (intros U; apply just_le; rewrite learn_eq; lia).
  apply wf_push; [|done| |done|by split; [apply Hc|]].
  - unfold just. rewrite decide_True by done. lia.
  - intros Ha l' Ha' Ho' i v' V' Hi Hm. apply msgs_push in Hm as [Hm|(-> & -> & [= <- <-])]; [|apply below_refl].
    unfold just in Hi. case_decide as El; [|lia]. injection El as ->. apply lookup_lt_Some in Hm. unfold count in Hc.
    rewrite (Hc Ha) in Hm. lia.
Qed.

Lemma wf_read t l v m' w' :
  read t l m (vs t) = Done (v, m', w') -> wf m' (put t w' vs).
Proof.
  unfold read. intros Hs. case_match eqn:E; [done|]. case_match; [|done]. destruct p as [x X]. injection Hs as <- <- <-.
  assert (forall U, bounded m U -> bounded (note_read t l m) U) as Hb.
  { intros U HU l'. destruct (HU l') as [H1 H2]. split; [done|]. intros t'. specialize (H2 t'). simpl. unfold put.
    repeat case_decide; subst; lia. }
  assert (forall U, bounded m U -> bounded (note_read t l m) (learn (R t l) (S (reads m t l)) U)) as Hb'.
  { intros U HU l'. destruct (Hb U HU l') as [H1 H2]. split; [by rewrite learn_ne by done|]. intros t'.
    destruct (decide (R t' l' = R t l)) as [[= -> ->]|Hne]; [|by rewrite learn_ne].
    rewrite learn_eq. specialize (H2 t). simpl in *. rewrite !put_eq in *. lia. }
  assert (wf (note_read t l m) vs) as Hwf'.
  { destruct Hwf as [H1 H2 H3 H4 H5 H6]. split; try done. intros t'. by apply Hb. }
  split; try (intros t'; destruct (decide (t' = t)) as [->|Ht];
    [rewrite put_eq; simpl|rewrite put_ne by done; apply Hwf']).
  - eapply below_trans; [apply (wf_rel _ _ Hwf)|apply learn_l].
  - apply learn_mono, Hwf.
  - apply Hb', Hwf.
  - intros l' i v' V' Hm. destruct (wf_msg _ _ Hwf' _ _ _ _ Hm) as [Hi Hbm]. split; [done|].
    unfold put. by case_decide as Et; [rewrite Et in Hbm|].
  - apply Hwf'.
  - intros l' Ha Ho. apply closed_join; [by apply Hwf'|]. intros i v' V' Hi. unfold just in Hi. by case_decide; [|lia].
Qed.

(** A thread that learns all that the other one has seen: what a lock, the start
    of a task or another synchronisation outside the program achieves. *)
Definition synchronise t : views L :=
  {| cur := join (cur (vs t)) (cur (vs (other t))); acq := join (acq (vs t)) (cur (vs (other t))); rel := rel (vs t) |}.

Lemma wf_synchronise t : wf m (put t (synchronise t) vs).
Proof.
  assert (forall U V V', below U V -> below (join U V') (join V V')) as Hjm.
  { intros U V V' HU x. specialize (HU x). unfold join. lia. }
  apply wf_views; simpl.
  - apply below_refl.
  - eapply below_trans; [apply (wf_rel _ _ Hwf)|apply join_l].
  - apply Hjm, Hwf.
  - apply bounded_join; [apply Hwf|]. eapply bounded_below; [apply Hwf|apply Hwf].
  - intros l Ha Ho. apply closed_join; [by apply Hwf|]. apply (own_closed l _ (other t)); [by destruct (owner l), t|apply Hwf].
Qed.
End wf.

(** ** What the operations do when they are defined *)
Definition after {A} (r : outcome A) (Q : A -> Prop) : Prop :=
  match r with Done a => Q a | Disallowed => True | Undefined => False end.

Lemma load_after l i m w (Q : Z * memory L * views L -> Prop) :
  valid m l = true -> is_atomic l = true -> 1 <= cur w (W l) ->
  (forall v V, msgs m l !! i = Some (v, V) -> cur w (W l) <= S i -> Q (v, m, received l i V w)) ->
  after (load l i m w) Q.
Proof.
  intros Hv Ha Hc HQ. unfold load. rewrite Hv, Ha. simpl. destruct (Nat.eqb_spec (cur w (W l)) 0); [lia|].
  destruct (Nat.ltb_spec (S i) (cur w (W l))); [done|]. destruct (msgs m l !! i) as [[v V]|] eqn:E; [|done]. by apply HQ.
Qed.

Lemma store_after t l v m w (Q : Z * memory L * views L -> Prop) :
  valid m l = true -> is_atomic l = true -> owner l = t -> 1 <= count m l -> cur w (W l) = count m l ->
  Q (0%Z, push l (v, learn (W l) (S (count m l)) (rel w)) m, did (W l) (S (count m l)) w) ->
  after (store t l v m w) Q.
Proof.
  intros Hv Ha Ho Hc Hw HQ. unfold store. rewrite Hv, Ha, bool_decide_true, Hw, Nat.eqb_refl by done. simpl.
  destruct (Nat.eqb_spec (count m l) 0); [lia|done].
Qed.

Lemma read_after t l v m w (Q : Z * memory L * views L -> Prop) :
  valid m l = true -> is_atomic l = false -> cur w (W l) = count m l -> last (msgs m l).*1 = Some v ->
  Q (v, note_read t l m, did (R t l) (S (reads m t l)) w) -> after (read t l m w) Q.
Proof.
  intros Hv Ha Hw Hl HQ. unfold read. rewrite Hv, Ha, Hw, Nat.eqb_refl. simpl.
  rewrite fmap_last in Hl. destruct (last (msgs m l)) as [[x X]|]; [|done]. by injection Hl as ->.
Qed.

Lemma write_after t l v m w (Q : Z * memory L * views L -> Prop) :
  valid m l = true -> cur w (W l) = count m l -> reads m (other t) l <= cur w (R (other t) l) ->
  (is_atomic l = true -> count m l = 0) ->
  Q (0%Z, push l (v, just (W l) (S (count m l))) m, did (W l) (S (count m l)) w) -> after (write t l v m w) Q.
Proof.
  intros Hv Hw Hr Ha HQ. unfold write. rewrite Hv, Hw, Nat.eqb_refl, (proj2 (Nat.leb_le _ _) Hr). simpl.
  destruct (is_atomic l); simpl; [|done]. destruct (Nat.eqb_spec (count m l) 0) as [|Hn]; [done|]. by destruct Hn, Ha.
Qed.

(** Every operation keeps a memory and the views of its threads well-formed. *)
Lemma exec_wf m vs t choice o v m' w' :
  wf m vs -> exec t choice o m (vs t) = Done (v, m', w') -> wf m' (put t w' vs).
Proof.
  intros Hwf He. destruct o; simpl in He.
  - by destruct (wf_load m vs Hwf _ _ _ _ _ _ He) as [-> Hw].
  - by eapply wf_store.
  - injection He as <- <- <-. by apply wf_fence.
  - injection He as <- <- <-. apply (wf_fence m vs Hwf t memory_order_relaxed).
  - by eapply wf_read.
  - by eapply wf_write.
  - pose proof (wf_fence m vs Hwf t memory_order_relaxed) as Hw. simpl in Hw.
    repeat case_match; try done; injection He as <- <- <-; [done|].
    destruct Hw. by split.
Qed.

(** What a thread has seen it does not forget. *)
Lemma exec_grows m vs t choice o v m' w' :
  wf m vs -> exec t choice o m (vs t) = Done (v, m', w') -> below (cur (vs t)) (cur w').
Proof.
  intros Hwf He. pose proof (wf_cur _ _ Hwf t) as Hc.
  destruct o as [l|l x|o|o|l|l x|n]; simpl in He; unfold load, store, read, write in He;
    repeat case_match; simplify_eq; try apply below_refl; try apply learn_l.
  destruct o; simpl; try apply below_refl; done.
Qed.

(** Some choice lets a defined operation happen. *)
Lemma exec_enabled m vs t o :
  wf m vs -> (forall choice, exec t choice o m (vs t) <> Undefined) -> exists choice r, exec t choice o m (vs t) = Done r.
Proof.
  intros Hwf Hu. destruct o as [l|l x|o|o|l|l x|n]; simpl in Hu |- *.
  - exists (Z.of_nat (count m l - 1)). rewrite Nat2Z.id. specialize (Hu (Z.of_nat (count m l - 1))). rewrite Nat2Z.id in Hu.
    unfold load in *. destruct (_ || _) eqn:E; [done|]. apply orb_false_iff in E as [_ E%Nat.eqb_neq].
    pose proof (wf_cur _ _ Hwf t (W l)). pose proof (proj1 (wf_bound _ _ Hwf t l)).
    destruct (Nat.ltb_spec (S (count m l - 1)) (cur (vs t) (W l))); [lia|].
    destruct (lookup_lt_is_Some_2 (msgs m l) (count m l - 1)) as [[v V] ->]; [unfold count in *; lia|]. by eexists.
  - exists 0%Z. specialize (Hu 0%Z). unfold store in *. case_match; [done|]. by eexists.
  - exists 0%Z. by eexists.
  - exists 0%Z. by eexists.
  - exists 0%Z. specialize (Hu 0%Z). unfold read in *. case_match; [done|]. case_match; [|done]. case_match. by eexists.
  - exists 0%Z. specialize (Hu 0%Z). unfold write in *. case_match; [done|]. by eexists.
  - exists NULL. by eexists.
Qed.

(** ** Any sequence of operations *)
Fixpoint execs (ops : list (tid * Z * op L)) (m : memory L) (vs : tid -> views L) : outcome (memory L * (tid -> views L)) :=
  match ops with
  | [] => Done (m, vs)
  | (t, choice, o) :: ops =>
      match exec t choice o m (vs t) with
      | Done (_, m, w) => execs ops m (put t w vs)
      | Disallowed => Disallowed
      | Undefined => Undefined
      end
  end.

(** A property of memory and views that the allowed operations keep. *)
Lemma execs_keep (P : memory L -> (tid -> views L) -> Prop) (allowed : op L -> Prop) :
  (forall m vs t choice o v m' w', wf m vs -> P m vs -> allowed o -> exec t choice o m (vs t) = Done (v, m', w') -> P m' (put t w' vs)) ->
  forall ops m vs m' vs', wf m vs -> P m vs -> Forall (fun x => allowed x.2) ops -> execs ops m vs = Done (m', vs') -> wf m' vs' /\ P m' vs'.
Proof.
  intros Hkeep ops. induction ops as [|[[t choice] o] ops IH]; intros m vs m' vs' Hwf HP Hall He; simpl in He.
  { by injection He as <- <-. }
  apply Forall_cons in Hall as [Ho Hall]. destruct (exec t choice o m (vs t)) as [[[v m1] w]| |] eqn:E; [|done|done].
  eapply (IH m1 (put t w vs)); [by eapply exec_wf|by eapply Hkeep|done|done].
Qed.

Lemma execs_app ops1 ops2 m vs m' vs' : execs (ops1 ++ ops2) m vs = Done (m', vs') ->
  exists m1 vs1, execs ops1 m vs = Done (m1, vs1) /\ execs ops2 m1 vs1 = Done (m', vs').
Proof.
  revert m vs. induction ops1 as [|[[t choice] o] ops1 IH]; intros m vs He; simpl in *; [by eauto|].
  destruct (exec t choice o m (vs t)) as [[[v m1] w]| |]; [by apply IH|done|done].
Qed.

Lemma execs_one t choice o ops m vs m' vs' : execs ((t, choice, o) :: ops) m vs = Done (m', vs') ->
  exists v m1 w, exec t choice o m (vs t) = Done (v, m1, w) /\ execs ops m1 (put t w vs) = Done (m', vs').
Proof. simpl. destruct (exec t choice o m (vs t)) as [[[v m1] w]| |]; [|done|done]. by eauto. Qed.

(** ** What the fences are for *)
Definition is_release (o : memory_order) : bool :=
  match o with memory_order_release | memory_order_acq_rel | memory_order_seq_cst => true | _ => false end.
Definition is_acquire (o : memory_order) : bool :=
  match o with memory_order_acquire | memory_order_acq_rel | memory_order_seq_cst => true | _ => false end.

(** The views of a thread only grow. *)
Definition more (w w' : views L) : Prop := below (cur w) (cur w') /\ below (acq w) (acq w') /\ below (rel w) (rel w').

Lemma exec_more m vs t choice o v m' w' : wf m vs -> exec t choice o m (vs t) = Done (v, m', w') -> more (vs t) w'.
Proof.
  intros Hwf He. split; [by eapply exec_grows|]. pose proof (wf_cur _ _ Hwf t) as Hc. pose proof (wf_rel _ _ Hwf t) as Hr.
  pose proof (below_trans _ _ _ Hr Hc) as Hra.
  destruct o as [l|l x|o|o|l|l x|n]; simpl in He; unfold load, store, read, write in He; repeat case_match; simplify_eq;
    try (split; [apply below_refl || apply learn_l|apply below_refl]);
    try (split; [eapply below_trans; [apply learn_l|apply join_l]|apply below_refl]).
  destruct o; simpl; split; try apply below_refl; done.
Qed.

Lemma put_more m vs t choice o v m' w' u : wf m vs -> exec t choice o m (vs t) = Done (v, m', w') -> more (vs u) (put t w' vs u).
Proof.
  intros Hwf He. unfold put. case_decide as Eu; [|split_and!; apply below_refl]. subst u. by eapply exec_more.
Qed.

Lemma valid_kept t choice o m w v m' w' d : exec t choice o m w = Done (v, m', w') -> valid m d = true -> valid m' d = true.
Proof.
  intros He. assert (forall a n, heap m !! a = Some n -> heap m' !! a = Some n) as Hh.
  { intros a n Ha. destruct o as [l|l x|o|o|l|l x|k]; simpl in He; unfold load, store, read, write in He; repeat case_match; simplify_eq; try done.
    simpl. rewrite lookup_insert_ne; [done|]. congruence. }
  unfold valid. destruct (home d) as [|b|b i]; [done|..]; (destruct (heap m !! b) eqn:Eb; [|done]); by rewrite (Hh _ _ Eb).
Qed.

(** No write to an ordinary variable changes what it holds. *)
Lemma msgs_kept t choice o m w v m' w' d :
  is_atomic d = false -> (forall x, o <> Write d x) -> exec t choice o m w = Done (v, m', w') -> msgs m' d = msgs m d.
Proof.
  intros Hd Hw He. destruct o as [l|l x|o|o|l|l x|k]; simpl in He; unfold load, store, read, write in He.
  - repeat case_match; by simplify_eq.
  - case_match eqn:Eb; [done|]. injection He as _ <- _. simpl. unfold put. destruct (decide (d = l)) as [El|]; [|done]. rewrite <- El, Hd, andb_false_r in Eb. done.
  - by simplify_eq.
  - by simplify_eq.
  - repeat case_match; by simplify_eq.
  - case_match eqn:Eb; [done|]. injection He as _ <- _. simpl. unfold put. destruct (decide (d = l)) as [El|]; [|done]. by destruct (Hw x); rewrite El.
  - repeat case_match; by simplify_eq.
Qed.

(** What every operation keeps. *)
Definition kept (P : memory L -> (tid -> views L) -> Prop) : Prop :=
  forall m vs t choice o v m' w', wf m vs -> P m vs -> exec t choice o m (vs t) = Done (v, m', w') -> P m' (put t w' vs).

Lemma views_kept t U :
  kept (fun _ vs => below U (cur (vs t))) /\ kept (fun _ vs => below U (acq (vs t))) /\ kept (fun _ vs => below U (rel (vs t))).
Proof.
  split_and!; intros m vs t' choice o v m' w' Hwf HP He; (eapply below_trans; [exact HP|]); by eapply (put_more _ _ _ _ _ _ _ _ t Hwf He).
Qed.

(** From number [n] on the messages of [l] pass on [U]. *)
Definition passes (t : tid) (l : L) (n : nat) (U : view L) (m : memory L) (vs : tid -> views L) : Prop :=
  below U (rel (vs t)) /\ is_atomic l = true /\ owner l = t /\ n < count m l /\
  forall i v V, n <= i -> msgs m l !! i = Some (v, V) -> below U V.

Lemma passes_kept t l n U : kept (passes t l n U).
Proof.
  intros m vs t' choice o v m' w' Hwf (HU & Ha & Ho & Hn & Hm) He.
  assert (below U (rel (put t' w' vs t))) as HU' by (eapply below_trans; [exact HU|]; by eapply (put_more _ _ _ _ _ _ _ _ t Hwf He)).
  split; [done|]. split; [done|]. split; [done|].
  assert (count m l <= count m' l /\ forall i v V, n <= i -> msgs m' l !! i = Some (v, V) -> below U V) as [Hc Hx]; [|split; [lia|exact Hx]].
  destruct o as [k|k x|o|o|k|k x|z]; simpl in He; unfold load, store, read, write in He; repeat case_match; simplify_eq; try (by split).
  - rewrite count_push. split; [destruct (decide (l = k)); subst; lia|]. intros i y V Hi [Hl|(-> & -> & [= <- <-])]%msgs_push; [by eapply Hm|].
    match goal with E : _ || _ = false |- _ => apply orb_false_iff in E as [[E1%negb_false_iff _]%orb_false_iff _] end.
    apply andb_true_iff in E1 as [_ Ho'%bool_decide_eq_true]. eapply below_trans; [|apply learn_l]. by rewrite <- Ho'.
  - rewrite count_push. split; [destruct (decide (l = k)); subst; lia|]. intros i y V Hi [Hl|(-> & -> & [= <- <-])]%msgs_push; [by eapply Hm|].
    match goal with E : _ || _ = false |- _ => apply orb_false_iff in E as [_ E2] end.
    rewrite Ha in E2. apply negb_false_iff, Nat.eqb_eq in E2. lia.
Qed.

(** The last write to [d], the one with number [n], wrote [x]. *)
Definition written (d : L) (n : nat) (x : Z) (m : memory L) : Prop :=
  valid m d = true /\ count m d = n /\ exists V, last (msgs m d) = Some (x, V).
Definition spares (d : L) (o : op L) : Prop := forall y, o <> Write d y.

(** Operations that do not write to [d] keep what it holds, and a property of the threads' views
    and messages that every operation keeps. *)
Lemma execs_spare (P : memory L -> (tid -> views L) -> Prop) d n x ops m vs m' vs' :
  kept P -> is_atomic d = false -> wf m vs -> written d n x m -> P m vs -> Forall (fun o => spares d o.2) ops -> execs ops m vs = Done (m', vs') ->
  wf m' vs' /\ written d n x m' /\ P m' vs'.
Proof.
  intros Hkeep Hd Hwf Hw HP Hops He.
  apply (execs_keep (fun m vs => written d n x m /\ P m vs) (spares d)) with (ops := ops) (m := m) (vs := vs); try done.
  clear -Hkeep Hd. intros m vs t choice o v m' w' Hwf [(Hv & Hn & V & Hl) HP] Ho He. split; [|by eapply Hkeep].
  split; [by eapply valid_kept|]. unfold count. rewrite (msgs_kept _ _ _ _ _ _ _ _ _ Hd Ho He). split; [done|by exists V].
Qed.

Lemma written_step d n x t choice o m w v m' w' :
  is_atomic d = false -> spares d o -> written d n x m -> exec t choice o m w = Done (v, m', w') -> written d n x m'.
Proof.
  intros Hd Ho (Hv & Hn & V & Hl) He. split; [by eapply valid_kept|]. unfold count. rewrite (msgs_kept _ _ _ _ _ _ _ _ _ Hd Ho He).
  split; [done|by exists V].
Qed.

(** The first half: the write, a release fence, a store. *)
Lemma release_store m m1 vs vs1 t d l x v release c1 c2 c3 ops1 ops2 :
  wf m vs -> is_atomic d = false -> is_release release = true -> Forall (fun o => spares d o.2) ops1 -> Forall (fun o => spares d o.2) ops2 ->
  execs ([(t, c1, Write d x)] ++ ops1 ++ [(t, c2, Fence release)] ++ ops2 ++ [(t, c3, Store l v)]) m vs = Done (m1, vs1) ->
  wf m1 vs1 /\ exists n, written d n x m1 /\ passes t l (count m1 l - 1) (just (W d) n) m1 vs1.
Proof.
  intros Hwf Hd Hrel A1 A2 E. apply execs_one in E as (v1 & ma & wa & Ea & E). pose proof (exec_wf _ _ _ _ _ _ _ _ Hwf Ea) as Hwfa.
  set (n := S (count m d)). assert (written d n x ma /\ n <= cur wa (W d)) as [Hw Hc].
  { simpl in Ea. unfold write in Ea. case_match eqn:Eb; [done|]. injection Ea as _ <- <-. split; [|simpl; rewrite learn_eq; unfold n; lia].
    apply orb_false_iff in Eb as [Eb _]. apply negb_false_iff, andb_true_iff in Eb as [[Hv _]%andb_true_iff _].
    split; [done|]. rewrite count_push, decide_True by done. split; [done|]. simpl. rewrite put_eq, last_snoc. by eexists. }
  apply execs_app in E as (mb & vsb & Eb & E).
  assert (below (just (W d) n) (cur (put t wa vs t))) as Hca by (rewrite put_eq; by apply just_le).
  destruct (execs_spare _ d n x _ _ _ _ _ (proj1 (views_kept t _)) Hd Hwfa Hw Hca A1 Eb) as (Hwfb & Hwb & Hcb).
  apply execs_one in E as (v2 & mc & wc & Ec & E). pose proof (exec_wf _ _ _ _ _ _ _ _ Hwfb Ec) as Hwfc.
  injection Ec as _ <- <-. apply execs_app in E as (md & vsd & Ed & E).
  assert (below (just (W d) n) (rel (put t (fence release (vsb t)) vsb t))) as Hcc.
  { rewrite put_eq. destruct release; try done; simpl; (eapply below_trans; [exact Hcb|apply (wf_cur _ _ Hwfb)]). }
  destruct (execs_spare _ d n x _ _ _ _ _ (proj2 (proj2 (views_kept t _))) Hd Hwfc Hwb Hcc A2 Ed) as (Hwfd & Hwd & Hcd).
  apply execs_one in E as (v3 & me & we & Ee & E). pose proof (exec_wf _ _ _ _ _ _ _ _ Hwfd Ee) as Hwfe. simpl in E. injection E as <- <-.
  split; [done|]. exists n. split; [by eapply (written_step _ _ _ _ _ (Store l v))|].
  simpl in Ee. unfold store in Ee. case_match eqn:Es; [done|]. injection Ee as _ <- <-.
  apply orb_false_iff in Es as [[Es%negb_false_iff _]%orb_false_iff _]. apply andb_true_iff in Es as [[_ Hal]%andb_true_iff Hol%bool_decide_eq_true].
  rewrite count_push, decide_True by done. split; [by rewrite put_eq|]. split; [done|]. split; [done|]. split; [rewrite count_push, decide_True by done; lia|].
  intros i y V Hi [Hm|(_ & _ & [= <- <-])]%msgs_push; [apply lookup_lt_Some in Hm; unfold count in Hi; lia|].
  eapply below_trans; [exact Hcd|apply learn_l].
Qed.

End facts.
