(* ===== verification/SpscWeak.v ===== *)
(** * The single-producer single-consumer queue on relaxed memory

    [enqueue], [try_enqueue] and [try_dequeue] of
    src/lib/spsc-queue/readerwriterqueue.h, the ones that src/src/pipe.cpp calls,
    access by access on the memory of WeakMem.v, with the fences where the source
    has them.  Spsc.v is the same queue under sequential consistency.

    The value of an assignment is the value assigned, it is not read back.  The
    pointer [data] of a block, which never changes, is not a variable: an element
    has its place by block and index.  Of the two loads that one condition of
    [inner_enqueue] compares, whose order C++ leaves open, [next] comes first; the
    order of a block's allocation and initialisation is that of the declarations.
    Elements are the pointers that pipe.cpp stores. *)
From S2P Require Import Prelude Spsc WeakMem.

(** ** Variables *)
Inductive var :=
| Front (b : Z) | LocalTail (b : Z) | Tail (b : Z) | LocalFront (b : Z) | Next (b : Z)
| SizeMask (b : Z) | Cell (b i : Z)
| FrontBlock | TailBlock | LargestBlockSize.

#[export] Instance queue_vars : Vars var := {
  vars_eq_dec := ltac:(solve_decision);
  home l := match l with
            | Front b | LocalTail b | Tail b | LocalFront b | Next b | SizeMask b => Member b
            | Cell b i => Element b i
            | FrontBlock | TailBlock | LargestBlockSize => Static
            end;
  is_atomic l := match l with Front _ | Tail _ | Next _ | FrontBlock | TailBlock => true | _ => false end;
  owner l := match l with Front _ | LocalTail _ | FrontBlock => Consumer | _ => Producer end
}.

Notation program A := (prog (L := var) A).
Open Scope prog_scope.

(** ** [inner_enqueue] *)
Definition enqueue_here (element : ptr) (tailBlock_ blockTail nextBlockTail : Z) : program bool :=
  Fence memory_order_acquire ;;
  Write (Cell tailBlock_ blockTail) element ;;
  Fence memory_order_release ;;
  Store (Tail tailBlock_) nextBlockTail ;;
  Ret true.

Definition fill_next_block (element : ptr) (tailBlockNext nextBlockFront nextBlockTail : Z) : program bool :=
  Write (LocalFront tailBlockNext) nextBlockFront ;;
  Write (Cell tailBlockNext nextBlockTail) element ;;
  sizeMask <- Read (SizeMask tailBlockNext) ;;
  Store (Tail tailBlockNext) (Z.land (u64 (nextBlockTail + 1)) sizeMask) ;;
  Fence memory_order_release ;;
  Store TailBlock tailBlockNext ;;
  Ret true.

Definition enqueue_next (element : ptr) (tailBlock_ : Z) : program bool :=
  Fence memory_order_acquire ;;
  tailBlockNext <- Load (Next tailBlock_) ;;
  nextBlockFront <- Load (Front tailBlockNext) ;;
  Write (LocalFront tailBlockNext) nextBlockFront ;;
  nextBlockTail <- Load (Tail tailBlockNext) ;;
  Fence memory_order_acquire ;;
  if negb (nextBlockFront =? nextBlockTail) then AssertionFails
  else fill_next_block element tailBlockNext nextBlockFront nextBlockTail.

(** The constructor of [Block]: its members in the order of their declaration. *)
Fixpoint write_all (ws : list (var * Z)) (k : program bool) : program bool :=
  match ws with
  | [] => k
  | (l, v) :: ws => Write l v ;; write_all ws k
  end.
Definition make_block (newBlock size : Z) : list (var * Z) :=
  [(Front newBlock, 0); (LocalTail newBlock, 0); (Tail newBlock, 0); (LocalFront newBlock, 0);
   (Next newBlock, NULL); (SizeMask newBlock, size - 1)].

Definition link_block (tailBlock_ newBlock : Z) : program bool :=
  Write (LocalTail newBlock) 1 ;;
  Store (Tail newBlock) 1 ;;
  next <- Load (Next tailBlock_) ;;
  Store (Next newBlock) next ;;
  Store (Next tailBlock_) newBlock ;;
  Fence memory_order_release ;;
  Store TailBlock newBlock ;;
  Ret true.

Definition check_new_block (tailBlock_ newBlock : Z) : program bool :=
  front <- Load (Front newBlock) ;;
  if negb (front =? 0) then AssertionFails else link_block tailBlock_ newBlock.

Definition enqueue_new (element : ptr) (tailBlock_ : Z) : program bool :=
  largestBlockSize <- Read LargestBlockSize ;;
  let newBlockSize := if MAX_BLOCK_SIZE <=? largestBlockSize then largestBlockSize
                      else u64 (largestBlockSize * 2) in
  newBlock <- Malloc newBlockSize ;;
  if newBlock =? NULL then Ret false
  else
    write_all (make_block newBlock newBlockSize ++ [(LargestBlockSize, newBlockSize); (Cell newBlock 0, element)])
      (check_new_block tailBlock_ newBlock).

Definition enqueue_full (canAlloc : bool) (element : ptr) (tailBlock_ : Z) : program bool :=
  Fence memory_order_acquire ;;
  next <- Load (Next tailBlock_) ;;
  frontBlock <- Load FrontBlock ;;
  if negb (next =? frontBlock) then enqueue_next element tailBlock_
  else if canAlloc then enqueue_new element tailBlock_
  else Ret false.

Definition enqueue_recheck (canAlloc : bool) (element : ptr) (tailBlock_ blockTail nextBlockTail : Z) : program bool :=
  front <- Load (Front tailBlock_) ;;
  Write (LocalFront tailBlock_) front ;;
  if negb (nextBlockTail =? front) then enqueue_here element tailBlock_ blockTail nextBlockTail
  else enqueue_full canAlloc element tailBlock_.

Definition inner_enqueue (canAlloc : bool) (element : ptr) : program bool :=
  tailBlock_ <- Load TailBlock ;;
  blockFront <- Read (LocalFront tailBlock_) ;;
  blockTail <- Load (Tail tailBlock_) ;;
  sizeMask <- Read (SizeMask tailBlock_) ;;
  let nextBlockTail := Z.land (u64 (blockTail + 1)) sizeMask in
  if negb (nextBlockTail =? blockFront) then enqueue_here element tailBlock_ blockTail nextBlockTail
  else enqueue_recheck canAlloc element tailBlock_ blockTail nextBlockTail.

(** ** [try_dequeue] *)
Definition take_element (frontBlock_ blockFront : Z) : program (option ptr) :=
  element <- Read (Cell frontBlock_ blockFront) ;;
  sizeMask <- Read (SizeMask frontBlock_) ;;
  Fence memory_order_release ;;
  Store (Front frontBlock_) (Z.land (u64 (blockFront + 1)) sizeMask) ;;
  Ret (Some element).

Definition non_empty_front_block (frontBlock_ blockFront : Z) : program (option ptr) :=
  Fence memory_order_acquire ;; take_element frontBlock_ blockFront.

Definition advance (nextBlock nextBlockFront : Z) : program (option ptr) :=
  Fence memory_order_release ;;
  Store FrontBlock nextBlock ;;
  CompilerFence memory_order_release ;;
  take_element nextBlock nextBlockFront.

Definition next_block (frontBlock_ : Z) : program (option ptr) :=
  nextBlock <- Load (Next frontBlock_) ;;
  nextBlockFront <- Load (Front nextBlock) ;;
  nextBlockTail <- Load (Tail nextBlock) ;;
  Write (LocalTail nextBlock) nextBlockTail ;;
  Fence memory_order_acquire ;;
  if nextBlockFront =? nextBlockTail then AssertionFails else advance nextBlock nextBlockFront.

Definition look_again : program (option ptr) :=
  Fence memory_order_acquire ;;
  frontBlock_ <- Load FrontBlock ;;
  blockTail <- Load (Tail frontBlock_) ;;
  Write (LocalTail frontBlock_) blockTail ;;
  blockFront <- Load (Front frontBlock_) ;;
  Fence memory_order_acquire ;;
  if negb (blockFront =? blockTail) then take_element frontBlock_ blockFront
  else next_block frontBlock_.

Definition check_tailBlock (frontBlock_ : Z) : program (option ptr) :=
  tailBlock_ <- Load TailBlock ;;
  if negb (frontBlock_ =? tailBlock_) then look_again else Ret None.

Definition check_tail (frontBlock_ blockFront : Z) : program (option ptr) :=
  tail <- Load (Tail frontBlock_) ;;
  Write (LocalTail frontBlock_) tail ;;
  if negb (blockFront =? tail) then non_empty_front_block frontBlock_ blockFront
  else check_tailBlock frontBlock_.

Definition try_dequeue : program (option ptr) :=
  frontBlock_ <- Load FrontBlock ;;
  blockTail <- Read (LocalTail frontBlock_) ;;
  blockFront <- Load (Front frontBlock_) ;;
  if negb (blockFront =? blockTail) then non_empty_front_block frontBlock_ blockFront
  else check_tail frontBlock_ blockFront.

(** ** The two threads *)
Record sys := {
  mem : memory var;
  vws : tid -> views var;
  producing : option (ptr * program bool);          (* the element and what is left of the call *)
  consuming : option (program (option ptr))
}.

Inductive action :=
| Enqueue (canAlloc : bool) (element : ptr)   (* a call of enqueue or try_enqueue *)
| TryDequeue
| Run (t : tid) (choice : Z)                  (* an access of a thread *)
| Synchronise (t : tid).                      (* between its calls, the thread learns what the other one has seen *)

Inductive event :=
| Enqueued (element : ptr)
| NotEnqueued (element : ptr)
| Dequeued (result : option ptr).

Definition act (s : sys) (a : action) : outcome (sys * list event) :=
  match a with
  | Enqueue canAlloc element =>
      match producing s with
      | None => Done ({| mem := mem s; vws := vws s; producing := Some (element, inner_enqueue canAlloc element);
                         consuming := consuming s |}, [])
      | Some _ => Disallowed
      end
  | TryDequeue =>
      match consuming s with
      | None => Done ({| mem := mem s; vws := vws s; producing := producing s; consuming := Some try_dequeue |}, [])
      | Some _ => Disallowed
      end
  | Run Producer choice =>
      match producing s with
      | Some (element, Step o k) =>
          match exec Producer choice o (mem s) (vws s Producer) with
          | Done (v, m, w) =>
              let vs := put Producer w (vws s) in
              match k v with
              | Ret r => Done ({| mem := m; vws := vs; producing := None; consuming := consuming s |},
                               [if r then Enqueued element else NotEnqueued element])
              | p => Done ({| mem := m; vws := vs; producing := Some (element, p); consuming := consuming s |}, [])
              end
          | Disallowed => Disallowed
          | Undefined => Undefined
          end
      | Some (_, _) => Undefined
      | None => Disallowed
      end
  | Run Consumer choice =>
      match consuming s with
      | Some (Step o k) =>
          match exec Consumer choice o (mem s) (vws s Consumer) with
          | Done (v, m, w) =>
              let vs := put Consumer w (vws s) in
              match k v with
              | Ret r => Done ({| mem := m; vws := vs; producing := producing s; consuming := None |}, [Dequeued r])
              | c => Done ({| mem := m; vws := vs; producing := producing s; consuming := Some c |}, [])
              end
          | Disallowed => Disallowed
          | Undefined => Undefined
          end
      | Some _ => Undefined
      | None => Disallowed
      end
  | Synchronise t =>
      if match t with Producer => bool_decide (producing s = None) | Consumer => bool_decide (consuming s = None) end
      then Done ({| mem := mem s; vws := put t (synchronise (vws s) t) (vws s); producing := producing s;
                    consuming := consuming s |}, [])
      else Disallowed
  end.

Fixpoint run (acts : list action) (s : sys) : outcome (sys * list event) :=
  match acts with
  | [] => Done (s, [])
  | a :: acts =>
      match act s a with
      | Done (s, ev) => match run acts s with Done (s, evs) => Done (s, ev ++ evs) | r => r end
      | Disallowed => Disallowed
      | Undefined => Undefined
      end
  end.

Definition enqueued (evs : list event) : list ptr :=
  omap (fun e => match e with Enqueued x => Some x | _ => None end) evs.
Definition dequeued (evs : list event) : list ptr :=
  omap (fun e => match e with Dequeued r => r | _ => None end) evs.

(** The memory after the constructor (ReaderWriterQueue_new of Spsc.v), whose full
    fence and the start of the threads let both see all of it. *)
Definition initial_msgs (q : queue) (l : var) : list (Z * view var) :=
  let value := match l with
               | Front b => Spsc.front <$> blocks q !! b
               | LocalTail b => Spsc.localTail <$> blocks q !! b
               | Tail b => Spsc.tail <$> blocks q !! b
               | LocalFront b => Spsc.localFront <$> blocks q !! b
               | Next b => Spsc.next <$> blocks q !! b
               | SizeMask b => Spsc.sizeMask <$> blocks q !! b
               | Cell _ _ => None
               | FrontBlock => Some (frontBlock q)
               | TailBlock => Some (tailBlock q)
               | LargestBlockSize => Some (largestBlockSize q)
               end in
  match value with Some v => [(v, just (W l) 1)] | None => [] end.
Definition initial_memory (q : queue) : memory var :=
  {| heap := block_size <$> blocks q; msgs := initial_msgs q; reads := fun _ _ => 0%nat |}.
Definition initial_views (q : queue) : views var :=
  let all := fun x : access var => match x with W l => length (initial_msgs q l) | R _ _ => 0%nat end in
  {| cur := all; acq := all; rel := all |}.
Definition start (q : queue) : sys :=
  {| mem := initial_memory q; vws := fun _ => initial_views q; producing := None; consuming := None |}.
