(* ===== verification/SpscWeakInv.v ===== *)
(** * The invariant of the queue on relaxed memory

    The elements of a block are numbered from 0 in the order in which they are put
    there; [Front] and [Tail] of the block count them modulo its size, so that the
    number of a message is what it counts.  [TailBlock] has passed through a list
    of blocks, and [FrontBlock] follows through the same list.  What a thread may
    do without a race is what its views cover; the invariant says for each message
    what it passes on. *)
From S2P Require Import Prelude Spsc WeakMem SpscWeak.

Local Open Scope nat_scope.

Definition block_of (l : var) : option Z :=
  match l with
  | Front b | LocalTail b | Tail b | LocalFront b | Next b | SizeMask b | Cell b _ => Some b
  | FrontBlock | TailBlock | LargestBlockSize => None
  end.

(** What is not in the memory: the elements of each block so far, the blocks behind
    the tail block that the producer knows to be free, and the number of blocks
    the producer knows the front to have left. *)
Record ghost := { elems : Z -> list Z; spare : list Z; left : nat }.

Section definitions.
Context (m : memory var).

Definition vals (l : var) : list Z := (msgs m l).*1.
(** What message [i] of [l] passes on. *)
Definition passes (l : var) (i : nat) (P : view var -> Prop) : Prop :=
  forall v V, msgs m l !! i = Some (v, V) -> P V.

Definition Fn (a : Z) : nat := count m (Front a) - 1.
Definition Tn (a : Z) : nat := count m (Tail a) - 1.
Definition sz (a : Z) : nat := match heap m !! a with Some n => Z.to_nat n | None => 0 end.
Definition cell (a : Z) (e : nat) : var := Cell a (Z.of_nat (e mod sz a)).

Record block_ok (lg : list Z) (a : Z) : Prop := {
  b_heap : heap m !! a = Some (Z.of_nat (sz a)) /\ a <> NULL;
  b_size : exists k, 1 <= k <= 10 /\ sz a = 2 ^ k;
  b_front : 1 <= count m (Front a) /\ forall i v, vals (Front a) !! i = Some v -> v = Z.of_nat (i mod sz a);
  b_tail : 1 <= count m (Tail a) /\ forall i v, vals (Tail a) !! i = Some v -> v = Z.of_nat (i mod sz a);
  b_counts : Fn a <= Tn a /\ Tn a <= length lg <= S (Tn a) /\ length lg < Fn a + sz a;
  b_cells : forall c i, c < sz a -> vals (Cell a (Z.of_nat c)) !! i = lg !! (i * sz a + c);
  b_mask : vals (SizeMask a) = [(Z.of_nat (sz a) - 1)%Z];
  b_rest : 1 <= count m (Next a) /\ 1 <= count m (LocalFront a) /\ 1 <= count m (LocalTail a);
  (** passing on that an element was taken passes on the reads of its cell *)
  b_taken : forall e, length lg <= e + sz a -> S e <= Fn a ->
    passes (Front a) (S e) (fun V => reads m Consumer (cell a e) <= V (R Consumer (cell a e)))
}.

(** All that the consumer did with a block. *)
Definition freed (a : Z) (U : view var) : Prop :=
  count m (Front a) <= U (W (Front a)) /\ count m (LocalTail a) <= U (W (LocalTail a)) /\
  forall c, reads m Consumer (Cell a c) <= U (R Consumer (Cell a c)).
Definition quiet (lg : list Z) (a : Z) : Prop := length lg = Tn a.
Definition empty (lg : list Z) (a : Z) : Prop := Fn a = Tn a /\ quiet lg a.
(** All that the producer did with a block it has left. *)
Definition full_view (a : Z) (U : view var) : Prop :=
  count m (Tail a) <= U (W (Tail a)) /\ count m (Next a) <= U (W (Next a)).
(** What the consumer must know to take element [e]. *)
Definition cell_known (a : Z) (e : nat) (U : view var) : Prop := S (e / sz a) <= U (W (cell a e)).
(** The block the tail has moved to, with one element the consumer can take. *)
Definition entered (a : Z) (U : view var) : Prop :=
  1 <= U (W (SizeMask a)) /\ Fn a + 2 <= U (W (Tail a)) /\ cell_known a (Fn a) U.

Definition vis : list Z := vals TailBlock.
Definition Kn : nat := count m FrontBlock - 1.
Definition Mn : nat := count m TailBlock - 1.

Section shared.
Context (g : ghost).

(** The blocks in a circle: those the front has left without the producer knowing,
    those with elements, the free ones. *)
Definition ring : list Z := drop (left g) vis ++ spare g.

Record shared : Prop := {
  s_front : 1 <= count m FrontBlock /\ vals FrontBlock = take (S Kn) vis /\ Kn < length vis;
  s_left : left g <= Kn;
  s_nodup : NoDup ring;
  s_links : forall i a b, ring !! i = Some a -> (ring ++ take 1 ring) !! S i = Some b -> last (vals (Next a)) = Some b;
  s_blocks : forall a, a ∈ ring -> block_ok (elems g a) a;
  s_private : (forall a, reads m Producer (LocalTail a) = 0 /\ (forall c, reads m Producer (Cell a c) = 0) /\
                reads m Consumer (LocalFront a) = 0) /\ reads m Consumer LargestBlockSize = 0;
  s_unread : forall l t, count m l = 0 -> reads m t l = 0;
  s_fresh : forall l a, block_of l = Some a -> heap m !! a = None -> count m l = 0;
  (** blocks the front has left *)
  s_freed : forall k a, left g <= k < Kn -> vis !! k = Some a -> empty (elems g a) a /\ passes FrontBlock (S k) (freed a);
  (** blocks the tail has left, and the ones it came to *)
  s_full : forall k a, Kn <= k < Mn -> vis !! k = Some a -> quiet (elems g a) a /\ passes TailBlock (S k) (full_view a);
  s_later : forall k a, Kn < k <= Mn -> vis !! k = Some a -> Fn a < Tn a /\ passes TailBlock k (entered a) /\
    forall e, Fn a < e < Tn a -> passes (Tail a) (S e) (cell_known a e)
}.

(** ** The producer's knowledge *)
Record producer_ok (w : views var) (free : list Z) : Prop := {
  p_own : forall l, owner l = Producer -> count m l <= cur w (W l);
  p_known : (forall a, a ∈ ring -> 1 <= cur w (W (Front a))) /\ S (left g) <= cur w (W FrontBlock);
  p_free : forall a, a ∈ free -> empty (elems g a) a /\ freed a (acq w);
  p_localFront : forall t, vis !! Mn = Some t -> exists lf,
    last (vals (LocalFront t)) = Some (Z.of_nat (lf mod sz t)) /\ lf <= Fn t /\ Tn t < lf + sz t /\
    S lf <= cur w (W (Front t));
  p_largest : exists k, 1 <= k <= 10 /\ last (vals LargestBlockSize) = Some (2 ^ Z.of_nat k)%Z
}.

(** ** The consumer's knowledge *)
Record consumer_ok (w : views var) (f : Z) : Prop := {
  c_front : vis !! Kn = Some f;
  c_own : count m FrontBlock <= cur w (W FrontBlock) /\ count m (Front f) <= cur w (W (Front f)) /\
    count m (LocalTail f) <= cur w (W (LocalTail f));
  c_known : 1 <= cur w (W (SizeMask f)) /\ S (Fn f) <= cur w (W (Tail f)) /\ S Kn <= cur w (W TailBlock);
  c_reads : forall l, reads m Consumer l <= cur w (R Consumer l);
  c_localTail : exists lt, last (vals (LocalTail f)) = Some (Z.of_nat (lt mod sz f)) /\ Fn f <= lt <= Tn f /\
    S lt <= acq w (W (Tail f));
  c_cells : forall e, Fn f <= e < Tn f -> cell_known f e (cur w) \/ passes (Tail f) (S e) (cell_known f e);
  c_later : forall k a, Kn < k <= Mn -> vis !! k = Some a ->
    passes TailBlock k (fun V => count m (Front a) <= Nat.max (cur w (W (Front a))) (V (W (Front a))) /\
      count m (LocalTail a) <= Nat.max (cur w (W (LocalTail a))) (V (W (LocalTail a))))
}.
End shared.
End definitions.

(** ** Counting modulo the size of a block *)
Lemma mod_close a b s : a <= b -> b < a + s -> a mod s = b mod s -> a = b.
Proof.
  intros Hab Hb E. assert (s <> 0) as Hs by lia.
  pose proof (Nat.div_mod_eq a s). pose proof (Nat.div_mod_eq b s).
  assert (a / s = b / s) by nia. nia.
Qed.

Lemma mod_lt a s : 0 < s -> a mod s < s.
Proof. intros. apply Nat.mod_upper_bound. lia. Qed.

Lemma size_range s : (exists k, 1 <= k <= 10 /\ s = 2 ^ k) -> 2 <= s <= 1024.
Proof.
  intros (k & Hk & ->). change 2 with (2 ^ 1) at 1. change 1024 with (2 ^ 10).
  split; apply Nat.pow_le_mono_r; lia.
Qed.

(** [(i + 1) & sizeMask]. *)
Lemma index_step n s : (exists k, 1 <= k <= 10 /\ s = 2 ^ k) ->
  Z.land (u64 (Z.of_nat (n mod s) + 1)) (Z.of_nat s - 1) = Z.of_nat (S n mod s).
Proof.
  intros Hs. pose proof (size_range s Hs) as Hr. destruct Hs as (k & Hk & ->). set (s := 2 ^ k) in *.
  pose proof (mod_lt n s ltac:(lia)) as Hm. rewrite u64_small by (unfold is_u64; lia).
  assert (Z.of_nat s = 2 ^ Z.of_nat k)%Z as Es by (unfold s; rewrite Nat2Z.inj_pow; done).
  rewrite Es. replace (2 ^ Z.of_nat k - 1)%Z with (Z.ones (Z.of_nat k)) by (rewrite Z.ones_equiv; lia).
  rewrite Z.land_ones, <- Es by lia. rewrite (Nat2Z.inj_mod n s), Zplus_mod_idemp_l.
  replace (Z.of_nat n + 1)%Z with (Z.of_nat (S n)) by lia. by rewrite <- Nat2Z.inj_mod.
Qed.

(** A list that holds every [s]-th element of another one. *)
Lemma strided_length {A} (xs lg : list A) s c n :
  (forall i, xs !! i = lg !! (i * s + c)) -> (n = 0 \/ (n - 1) * s + c < length lg) -> length lg <= n * s + c -> length xs = n.
Proof.
  intros Hx Hn Hg. assert (length xs <= n).
  { apply lookup_ge_None. rewrite Hx. by apply lookup_ge_None. }
  destruct Hn as [->|Hn]; [lia|]. destruct (decide (n = 0)) as [->|]; [lia|].
  assert (n - 1 < length xs); [|lia]. apply lookup_lt_is_Some. rewrite Hx. by apply lookup_lt_is_Some.
Qed.

Lemma strided_snoc {A} (xs lg : list A) s x :
  0 < s -> (forall i, xs !! i = lg !! (i * s + length lg mod s)) ->
  forall i, (xs ++ [x]) !! i = (lg ++ [x]) !! (i * s + length lg mod s).
Proof.
  intros Hs Hx i. pose proof (Nat.div_mod_eq (length lg) s) as Hd.
  assert (length xs = length lg / s) as Hl.
  { apply (strided_length xs lg s (length lg mod s)); [done| |lia].
    destruct (decide (length lg / s = 0)) as [E|E]; [by left|right; nia]. }
  destruct (Nat.lt_trichotomy i (length lg / s)) as [Hi|[Hi|Hi]].
  - rewrite !lookup_app_l by nia. apply Hx.
  - replace (i * s + length lg mod s) with (length lg) by nia.
    rewrite !lookup_app_r by lia. by rewrite Hi, Hl, !Nat.sub_diag.
  - rewrite !lookup_app_r by nia. transitivity (@None A); [|symmetry]; apply lookup_ge_None; simpl; nia.
Qed.

Lemma strided_other {A} (xs lg : list A) s c x :
  c < s -> c <> length lg mod s -> (forall i, xs !! i = lg !! (i * s + c)) ->
  forall i, xs !! i = (lg ++ [x]) !! (i * s + c).
Proof.
  intros Hc Hne Hx i. rewrite Hx. destruct (Nat.lt_trichotomy (i * s + c) (length lg)) as [Hi|[Hi|Hi]].
  - by rewrite lookup_app_l.
  - destruct Hne. rewrite <- Hi, Nat.add_comm, Nat.Div0.mod_add. by rewrite Nat.mod_small.
  - transitivity (@None A); [|symmetry]; apply lookup_ge_None; rewrite ?length_app; simpl; lia.
Qed.

(** ** One block *)
Lemma vals_length m l : length (vals m l) = count m l.
Proof. unfold vals, count. apply length_fmap. Qed.

Lemma vals_lookup m l i v V : msgs m l !! i = Some (v, V) -> vals m l !! i = Some v.
Proof. intros Hm. unfold vals. by rewrite list_lookup_fmap, Hm. Qed.

Lemma vals_push m l x l' : vals (push l x m) l' = if decide (l' = l) then vals m l ++ [x.1] else vals m l'.
Proof. unfold vals. simpl. unfold put. case_decide; [by rewrite fmap_app|done]. Qed.

Section block.
Context (m : memory var) (lg : list Z) (a : Z) (Hb : block_ok m lg a).

Lemma block_size : 2 <= sz m a <= 1024.
Proof. by destruct (size_range _ (b_size _ _ _ Hb)). Qed.

Lemma cell_valid e : valid m (cell m a e) = true.
Proof.
  pose proof block_size. pose proof (mod_lt e (sz m a) ltac:(lia)). unfold valid, cell. simpl.
  destruct (b_heap _ _ _ Hb) as [-> _]. apply andb_true_iff. rewrite Z.leb_le, Z.ltb_lt. lia.
Qed.

Lemma cell_vals e i : vals m (cell m a e) !! i = lg !! (i * sz m a + e mod sz m a).
Proof. pose proof block_size. unfold cell. apply (b_cells _ _ _ Hb), mod_lt. lia. Qed.

(** The cell of an element that is there and has not been overwritten. *)
Lemma cell_count e : e < length lg -> length lg <= e + sz m a -> count m (cell m a e) = S (e / sz m a).
Proof.
  intros He Hlg. pose proof (Nat.div_mod_eq e (sz m a)). rewrite <- vals_length.
  apply (strided_length _ lg (sz m a) (e mod sz m a)); [apply cell_vals|right|]; simpl; nia.
Qed.

Lemma cell_last e v : lg !! e = Some v -> length lg <= e + sz m a -> last (vals m (cell m a e)) = Some v.
Proof.
  intros He Hlg. apply lookup_lt_Some in He as Hlt. rewrite last_lookup, vals_length, cell_count by done.
  pose proof (Nat.div_mod_eq e (sz m a)). simpl. rewrite cell_vals. by replace (e / sz m a * sz m a + e mod sz m a) with e by nia.
Qed.

(** The cell the next element goes to. *)
Lemma next_cell_count : count m (cell m a (length lg)) = length lg / sz m a.
Proof.
  pose proof block_size. pose proof (Nat.div_mod_eq (length lg) (sz m a)). rewrite <- vals_length.
  apply (strided_length _ lg (sz m a) (length lg mod sz m a)); [apply cell_vals| |nia].
  destruct (decide (length lg / sz m a = 0)) as [E|E]; [by left|right; nia].
Qed.

(** The counters. *)
Lemma counter_value l i v V : l = Front a \/ l = Tail a -> msgs m l !! i = Some (v, V) -> v = Z.of_nat (i mod sz m a).
Proof. intros [->| ->] Hm; apply vals_lookup in Hm; [by eapply (b_front _ _ _ Hb)|by eapply (b_tail _ _ _ Hb)]. Qed.

Lemma counter_last l : l = Front a \/ l = Tail a -> last (vals m l) = Some (Z.of_nat ((count m l - 1) mod sz m a)).
Proof.
  intros Hl. assert (1 <= count m l) as Hc by (destruct Hl as [-> | ->]; [apply (b_front _ _ _ Hb)|apply (b_tail _ _ _ Hb)]).
  rewrite last_lookup, vals_length. destruct (vals m l !! Nat.pred (count m l)) as [v|] eqn:E.
  - f_equal. replace (count m l - 1) with (Nat.pred (count m l)) by lia.
    destruct Hl as [-> | ->]; [by eapply (b_front _ _ _ Hb)|by eapply (b_tail _ _ _ Hb)].
  - apply lookup_ge_None in E. rewrite vals_length in E. lia.
Qed.
End block.

(** The part of the memory that belongs to a block. *)
Definition same_block (m m' : memory var) (a : Z) : Prop :=
  heap m' !! a = heap m !! a /\
  forall l, block_of l = Some a -> msgs m' l = msgs m l /\ reads m' Consumer l = reads m Consumer l.

Section same_block.
Context (m m' : memory var) (a : Z) (Hs : same_block m m' a).

Lemma same_count l : block_of l = Some a -> count m' l = count m l.
Proof. intros Hl. unfold count. by rewrite (proj1 (proj2 Hs l Hl)). Qed.
Lemma same_vals l : block_of l = Some a -> vals m' l = vals m l.
Proof. intros Hl. unfold vals. by rewrite (proj1 (proj2 Hs l Hl)). Qed.
Lemma same_passes l i P : block_of l = Some a -> passes m' l i P <-> passes m l i P.
Proof. intros Hl. unfold passes. by rewrite (proj1 (proj2 Hs l Hl)). Qed.
Lemma same_reads l : block_of l = Some a -> reads m' Consumer l = reads m Consumer l.
Proof. intros Hl. by rewrite (proj2 (proj2 Hs l Hl)). Qed.
Lemma same_Fn : Fn m' a = Fn m a.
Proof. unfold Fn. by rewrite same_count. Qed.
Lemma same_Tn : Tn m' a = Tn m a.
Proof. unfold Tn. by rewrite same_count. Qed.
Lemma same_sz : sz m' a = sz m a.
Proof. unfold sz. by rewrite (proj1 Hs). Qed.
Lemma same_cell e : cell m' a e = cell m a e.
Proof. unfold cell. by rewrite same_sz. Qed.

Lemma same_block_ok lg : block_ok m lg a -> block_ok m' lg a.
Proof.
  intros [H1 H2 H3 H4 H5 H6 H7 H8 H9]. split; rewrite ?same_sz, ?same_Fn, ?same_Tn; try done.
  - by rewrite (proj1 Hs).
  - by rewrite same_count, same_vals.
  - by rewrite same_count, same_vals.
  - intros c i Hc. rewrite same_vals by done. by apply H6.
  - by rewrite same_vals.
  - by rewrite !same_count.
  - intros e He Hf. rewrite same_cell, same_passes, same_reads by done. by apply H9.
Qed.

Lemma same_freed U : freed m a U -> freed m' a U.
Proof.
  intros (H1 & H2 & H3). unfold freed. rewrite !same_count by done. split; [done|]. split; [done|].
  intros c. by rewrite same_reads.
Qed.
Lemma same_empty lg : empty m lg a -> empty m' lg a.
Proof. unfold empty, quiet. by rewrite same_Fn, same_Tn. Qed.
Lemma same_full_view U : full_view m a U -> full_view m' a U.
Proof. unfold full_view. by rewrite !same_count. Qed.
Lemma same_cell_known e U : cell_known m a e U -> cell_known m' a e U.
Proof. unfold cell_known. by rewrite same_sz, same_cell. Qed.
Lemma same_entered U : entered m a U -> entered m' a U.
Proof. unfold entered. rewrite same_Fn. intros (H1 & H2 & H3). split; [done|]. split; [done|by apply same_cell_known]. Qed.
End same_block.

Lemma passes_impl m l i (P Q : view var -> Prop) : (forall V, P V -> Q V) -> passes m l i P -> passes m l i Q.
Proof. intros Hi Hp v V Hm. eauto. Qed.

(** ** Positions in the ring *)
Section positions.
Context (m : memory var) (g : ghost) (Hsh : shared m g).

Lemma Kn_le_Mn : Kn m <= Mn m /\ S (Mn m) = count m TailBlock.
Proof. destruct (s_front _ _ Hsh) as (_ & _ & Hl). unfold Mn, vis in *. rewrite vals_length in Hl. lia. Qed.

Lemma vis_length : length (vis m) = S (Mn m).
Proof. unfold vis. rewrite vals_length. by destruct Kn_le_Mn. Qed.

Lemma vis_ring k a : left g <= k -> vis m !! k = Some a -> ring m g !! (k - left g) = Some a.
Proof.
  intros Hk Ha. unfold ring. rewrite lookup_app_l.
  - rewrite lookup_drop. by replace (left g + (k - left g)) with k by lia.
  - rewrite length_drop. apply lookup_lt_Some in Ha. lia.
Qed.

Lemma vis_in_ring k a : left g <= k -> vis m !! k = Some a -> a ∈ ring m g.
Proof. intros Hk Ha. eapply list_elem_of_lookup_2. by apply (vis_ring k). Qed.

Lemma vis_index k k' a : left g <= k -> left g <= k' -> vis m !! k = Some a -> vis m !! k' = Some a -> k = k'.
Proof.
  intros Hk Hk' Ha Ha'. apply vis_ring in Ha, Ha'; [|done..].
  pose proof (NoDup_lookup _ _ _ _ (s_nodup _ _ Hsh) Ha Ha'). lia.
Qed.

Lemma vis_not_spare k a : left g <= k -> vis m !! k = Some a -> a ∉ spare g.
Proof.
  intros Hk Ha Hs. pose proof (s_nodup _ _ Hsh) as (_ & Hd & _)%NoDup_app. apply (Hd a); [|done].
  apply list_elem_of_lookup. exists (k - left g). rewrite lookup_drop. by replace (left g + (k - left g)) with k by lia.
Qed.

Lemma spare_in_ring a : a ∈ spare g -> a ∈ ring m g.
Proof. intros Ha. apply elem_of_app. by right. Qed.

Lemma ring_ok a : a ∈ ring m g -> block_ok m (elems g a) a.
Proof. apply (s_blocks _ _ Hsh). Qed.

Lemma ring_field l a : a ∈ ring m g -> home l = Member a -> valid m l = true.
Proof. intros Ha Hl. unfold valid. rewrite Hl. by destruct (b_heap _ _ _ (ring_ok _ Ha)) as [-> _]. Qed.

Lemma front_value k v V : msgs m FrontBlock !! k = Some (v, V) -> vis m !! k = Some v /\ k <= Kn m.
Proof.
  intros Hm. apply lookup_lt_Some in Hm as Hl. apply vals_lookup in Hm.
  destruct (s_front _ _ Hsh) as (Hc & E & _). rewrite E in Hm. apply lookup_take_Some in Hm as [Hm Hk]. split; [done|lia].
Qed.

Lemma tail_block_value k v V : msgs m TailBlock !! k = Some (v, V) -> vis m !! k = Some v.
Proof. apply vals_lookup. Qed.

(** The block behind the tail block. *)
Lemma tail_link t n : vis m !! Mn m = Some t -> head (spare g ++ take 1 (drop (left g) (vis m))) = Some n ->
  last (vals m (Next t)) = Some n.
Proof.
  intros Ht Hn. pose proof Kn_le_Mn as [HKM _]. pose proof (s_left _ _ Hsh) as Hl.
  assert (length (drop (left g) (vis m)) = S (Mn m - left g)) as Hd by (rewrite length_drop, vis_length; lia).
  apply (s_links _ _ Hsh (Mn m - left g) t n); [by apply vis_ring; [lia|]|].
  unfold ring. rewrite <- app_assoc, lookup_app_r by lia. rewrite Hd.
  replace (S (Mn m - left g) - S (Mn m - left g)) with 0 by lia. rewrite <- head_lookup, <- Hn.
  destruct (spare g); simpl; [|done]. rewrite app_nil_r. by destruct (drop (left g) (vis m)).
Qed.

(** The block behind another one that the front has not left. *)
Lemma next_link k a n : left g <= k -> vis m !! k = Some a -> vis m !! S k = Some n -> last (vals m (Next a)) = Some n.
Proof.
  intros Hk Ha Hn. apply (s_links _ _ Hsh (k - left g) a n); [by apply vis_ring|].
  apply vis_ring in Hn; [|lia]. replace (S (k - left g)) with (S k - left g) by lia. by apply lookup_app_l_Some.
Qed.
End positions.

(** ** The front moves on, for all that the producer knows *)
Lemma cyclic_next {A} (l : list A) i : i < length l -> (l ++ take 1 l) !! S i = l !! (S i mod length l).
Proof.
  intros Hi. destruct (decide (S i = length l)) as [E|E].
  - rewrite lookup_app_r, E, Nat.sub_diag, Nat.Div0.mod_same by lia. by destruct l.
  - rewrite lookup_app_l, Nat.mod_small by lia. done.
Qed.

Lemma rotated_lookup {A} (l1 l2 : list A) i :
  i < length (l1 ++ l2) -> (l2 ++ l1) !! i = (l1 ++ l2) !! ((i + length l1) mod length (l1 ++ l2)).
Proof.
  rewrite length_app. intros Hi. destruct (decide (i < length l2)) as [Hl|Hl].
  - rewrite lookup_app_l, Nat.mod_small, lookup_app_r by lia. f_equal. lia.
  - replace (i + length l1) with (i - length l2 + 1 * (length l1 + length l2)) by lia.
    rewrite Nat.Div0.mod_add, Nat.mod_small, lookup_app_r, lookup_app_l by lia. done.
Qed.

Lemma rotated_links {A} (l1 l2 : list A) (P : A -> A -> Prop) :
  (forall i a b, (l1 ++ l2) !! i = Some a -> ((l1 ++ l2) ++ take 1 (l1 ++ l2)) !! S i = Some b -> P a b) ->
  forall i a b, (l2 ++ l1) !! i = Some a -> ((l2 ++ l1) ++ take 1 (l2 ++ l1)) !! S i = Some b -> P a b.
Proof.
  intros Hl i a b Ha Hb. apply lookup_lt_Some in Ha as Hi. assert (length (l2 ++ l1) = length (l1 ++ l2)) as El by (rewrite !length_app; lia).
  rewrite cyclic_next in Hb by done. rewrite rotated_lookup in Ha, Hb by (rewrite El in *; try apply Nat.mod_upper_bound; lia).
  apply (Hl _ a b Ha). rewrite cyclic_next by (apply Nat.mod_upper_bound; lia). rewrite <- Hb. f_equal.
  rewrite El, Nat.Div0.add_mod_idemp_l. rewrite <- Nat.add_1_r, Nat.Div0.add_mod_idemp_l. f_equal. lia.
Qed.

Definition rotate (m : memory var) (j : nat) (g : ghost) : ghost :=
  {| elems := elems g; spare := spare g ++ take (j - left g) (drop (left g) (vis m)); left := j |}.

Lemma shared_rotate m g j : shared m g -> left g <= j <= Kn m -> shared m (rotate m j g) /\ ring m (rotate m j g) ≡ₚ ring m g.
Proof.
  intros Hsh Hj. set (A := take (j - left g) (drop (left g) (vis m))).
  assert (drop (left g) (vis m) = A ++ drop j (vis m)) as Ed.
  { unfold A. rewrite <- (take_drop (j - left g) (drop (left g) (vis m))) at 1. rewrite drop_drop. do 2 f_equal. lia. }
  assert (ring m g = A ++ (drop j (vis m) ++ spare g)) as E1 by (unfold ring; by rewrite Ed, app_assoc).
  assert (ring m (rotate m j g) = (drop j (vis m) ++ spare g) ++ A) as E2 by (unfold ring; simpl; by rewrite app_assoc).
  assert (ring m (rotate m j g) ≡ₚ ring m g) as Hp by (rewrite E1, E2; apply Permutation_app_comm).
  split; [|done]. destruct Hsh as [H1 H2 H3 H4 H5 H6 H7 H8 H9 H10 H11]. split; try done.
  - simpl. lia.
  - by rewrite Hp.
  - rewrite E2. apply (rotated_links A _ (fun a b => last (vals m (Next a)) = Some b)). by rewrite <- E1.
  - intros a. rewrite Hp. apply H5.
  - intros k a Hk. apply H9. simpl in Hk. lia.
Qed.

(** ** Changes of the memory *)

(** A change that is confined to one block which the front has not left; the
    elements of that block may change with it. *)
Record confined (m m' : memory var) (a : Z) : Prop := {
  f_heap : heap m' = heap m;
  f_statics : forall l, block_of l = None -> msgs m' l = msgs m l;
  f_blocks : forall b, b <> a -> same_block m m' b;
  f_next : last (vals m' (Next a)) = last (vals m (Next a))
}.

Section confined.
Context (m m' : memory var) (a : Z) (Hc : confined m m' a).

Lemma confined_count l : block_of l = None -> count m' l = count m l.
Proof. intros Hl. unfold count. by rewrite (f_statics _ _ _ Hc). Qed.
Lemma confined_vals l : block_of l = None -> vals m' l = vals m l.
Proof. intros Hl. unfold vals. by rewrite (f_statics _ _ _ Hc). Qed.
Lemma confined_passes l i P : block_of l = None -> passes m' l i P <-> passes m l i P.
Proof. intros Hl. unfold passes. by rewrite (f_statics _ _ _ Hc). Qed.
Lemma confined_vis : vis m' = vis m.
Proof. unfold vis. by apply confined_vals. Qed.
Lemma confined_Kn : Kn m' = Kn m.
Proof. unfold Kn. by rewrite confined_count. Qed.
Lemma confined_Mn : Mn m' = Mn m.
Proof. unfold Mn. by rewrite confined_count. Qed.
Lemma confined_sz b : sz m' b = sz m b.
Proof. unfold sz. by rewrite (f_heap _ _ _ Hc). Qed.
Lemma confined_ring g g' : spare g' = spare g -> left g' = left g -> ring m' g' = ring m g.
Proof. intros E1 E2. unfold ring. by rewrite confined_vis, E1, E2. Qed.
End confined.

Definition privates (m : memory var) : Prop :=
  (forall a, reads m Producer (LocalTail a) = 0 /\ (forall c, reads m Producer (Cell a c) = 0) /\
     reads m Consumer (LocalFront a) = 0) /\ reads m Consumer LargestBlockSize = 0.

Lemma shared_confined m m' g g' a :
  shared m g -> confined m m' a ->
  spare g' = spare g -> left g' = left g -> (forall b, b <> a -> elems g' b = elems g b) ->
  block_ok m' (elems g' a) a -> privates m' -> (forall l t, count m' l = 0 -> reads m' t l = 0) ->
  (forall k, left g <= k < Kn m -> vis m !! k <> Some a) ->
  (forall k, Kn m <= k < Mn m -> vis m !! k = Some a ->
     quiet m (elems g a) a -> quiet m' (elems g' a) a /\ forall U, full_view m a U -> full_view m' a U) ->
  (forall k, Kn m < k <= Mn m -> vis m !! k = Some a -> Fn m a < Tn m a -> passes m TailBlock k (entered m a) ->
     (forall e, Fn m a < e < Tn m a -> passes m (Tail a) (S e) (cell_known m a e)) ->
     Fn m' a < Tn m' a /\ passes m TailBlock k (entered m' a) /\
     forall e, Fn m' a < e < Tn m' a -> passes m' (Tail a) (S e) (cell_known m' a e)) ->
  shared m' g'.
Proof.
  intros Hsh Hc Es El Ee Hb Hp Hu Hfr Hfu Hla.
  pose proof (confined_vis _ _ _ Hc) as Ev. pose proof (confined_Kn _ _ _ Hc) as EK. pose proof (confined_Mn _ _ _ Hc) as EM.
  pose proof (confined_ring _ _ _ Hc g g' Es El) as Er. pose proof (f_blocks _ _ _ Hc) as Hsame.
  assert (forall l i P, block_of l = None -> passes m' l i P <-> passes m l i P) as Hps
    by (intros; by apply (confined_passes _ _ _ Hc)).
  destruct Hsh as [H1 H2 H3 H4 H5 H6 H7 H8 H9 H10 H11]. split; rewrite ?Er, ?Ev, ?EK, ?EM, ?El; try done.
  - rewrite (confined_count _ _ _ Hc), (confined_vals _ _ _ Hc FrontBlock) by done. done.
  - intros i x b Hx Hb'. specialize (H4 i x b Hx Hb'). destruct (decide (x = a)) as [->|Hne].
    + by rewrite (f_next _ _ _ Hc).
    + by rewrite (same_vals _ _ _ (Hsame x Hne)).
  - intros x Hx. destruct (decide (x = a)) as [->|Hne]; [done|]. rewrite Ee by done.
    apply (same_block_ok m); auto.
  - intros l x Hx Hh. rewrite (f_heap _ _ _ Hc) in Hh. destruct (decide (x = a)) as [->|Hne].
    + exfalso. destruct (b_heap _ _ _ Hb) as [E _]. rewrite (f_heap _ _ _ Hc), Hh in E. done.
    + rewrite (same_count _ _ _ (Hsame x Hne)) by done. eauto.
  - intros k x Hk Hx. assert (x <> a) as Hne by (intros ->; by apply (Hfr k)). destruct (H9 k x Hk Hx) as [He Hpf].
    rewrite Ee by done. split; [by apply (same_empty m); auto|]. rewrite Hps by done.
    eapply passes_impl; [|exact Hpf]. intros V. apply same_freed. auto.
  - intros k x Hk Hx. destruct (H10 k x Hk Hx) as [Hq Hpf]. destruct (decide (x = a)) as [->|Hne].
    + destruct (Hfu k Hk Hx Hq) as [Hq' HU]. split; [done|]. rewrite Hps by done. by eapply passes_impl.
    + rewrite Ee by done. unfold quiet. rewrite (same_Tn _ _ _ (Hsame x Hne)). split; [done|]. rewrite Hps by done.
      eapply passes_impl; [|exact Hpf]. intros V. apply same_full_view. auto.
  - intros k x Hk Hx. destruct (H11 k x Hk Hx) as (Hq & Hpf & Hpe). destruct (decide (x = a)) as [->|Hne].
    + rewrite Hps by done. by apply Hla.
    + rewrite (same_Fn _ _ _ (Hsame x Hne)), (same_Tn _ _ _ (Hsame x Hne)). split; [done|]. rewrite Hps by done. split.
      * eapply passes_impl; [|exact Hpf]. intros V. apply same_entered. auto.
      * intros e He. rewrite (same_passes _ _ _ (Hsame x Hne)) by done. eapply passes_impl; [|by apply Hpe].
        intros V. apply same_cell_known. auto.
Qed.

(** The stores of a thread to a variable of a block, and its reads. *)
Lemma confined_push m l x a : block_of l = Some a -> (forall b, l <> Next b) -> confined m (push l x m) a.
Proof.
  intros Hl Hn. split; [done| | |].
  - intros l' Hl'. simpl. rewrite put_ne; [done|congruence].
  - intros b Hb. split; [done|]. intros l' Hl'. simpl. rewrite put_ne; [done|congruence].
  - rewrite vals_push, decide_False; [done|]. intros E. by destruct (Hn a).
Qed.

Lemma confined_read m t l a : block_of l = Some a -> confined m (note_read t l m) a.
Proof.
  intros Hl. split; [done|done| |done]. intros b Hb. split; [done|]. intros l' Hl'. split; [done|].
  simpl. unfold put. repeat case_decide; subst; congruence.
Qed.

(** How a block changes with a store to one of its variables. *)
Section push.
Context (m : memory var) (l : var) (x : Z * view var).

Lemma count_push_ne l' : l' <> l -> count (push l x m) l' = count m l'.
Proof. intros. rewrite count_push. by rewrite decide_False. Qed.
Lemma count_push_eq : count (push l x m) l = S (count m l).
Proof. rewrite count_push. by rewrite decide_True. Qed.
Lemma vals_push_ne l' : l' <> l -> vals (push l x m) l' = vals m l'.
Proof. intros. rewrite vals_push. by rewrite decide_False. Qed.
Lemma vals_push_eq : vals (push l x m) l = vals m l ++ [x.1].
Proof. rewrite vals_push. by rewrite decide_True. Qed.
Lemma passes_push_ne l' i P : l' <> l -> passes (push l x m) l' i P <-> passes m l' i P.
Proof. intros. unfold passes. simpl. by rewrite put_ne. Qed.
Lemma passes_push_old i P : i < count m l -> passes (push l x m) l i P <-> passes m l i P.
Proof. intros Hi. unfold passes. simpl. rewrite put_eq, lookup_app_l by done. done. Qed.
Lemma passes_push_new P : passes (push l x m) l (count m l) P <-> P x.2.
Proof.
  unfold passes. simpl. rewrite put_eq, lookup_app_r by done. unfold count. rewrite Nat.sub_diag. destruct x as [v V]. simpl.
  split; [by intros Hp; eapply Hp|]. by intros Hp ? ? [= <- <-].
Qed.
Lemma sz_push a : sz (push l x m) a = sz m a.
Proof. done. Qed.
Lemma cell_push a e : cell (push l x m) a e = cell m a e.
Proof. done. Qed.
Lemma unread_push : (forall l' t, count m l' = 0 -> reads m t l' = 0) ->
  forall l' t, count (push l x m) l' = 0 -> reads (push l x m) t l' = 0.
Proof. intros Hu l' t. rewrite count_push. case_decide; [done|]. apply Hu. Qed.
End push.

(** ** How the stores change a block *)
Lemma Fn_push m l x a : l <> Front a -> Fn (push l x m) a = Fn m a.
Proof. intros. unfold Fn. by rewrite count_push_ne. Qed.
Lemma Tn_push m l x a : l <> Tail a -> Tn (push l x m) a = Tn m a.
Proof. intros. unfold Tn. by rewrite count_push_ne. Qed.

(** The counters read back as the source computes them. *)
Lemma counter_push {s} (xs : list Z) v :
  (forall i x, xs !! i = Some x -> x = Z.of_nat (i mod s)) -> v = Z.of_nat (length xs mod s) ->
  forall i x, (xs ++ [v]) !! i = Some x -> x = Z.of_nat (i mod s).
Proof.
  intros Hx -> i x Hi. apply lookup_app_Some in Hi as [Hi|[Hl Hi]]; [by apply Hx|].
  apply list_lookup_singleton_Some in Hi as [Hi <-]. by replace i with (length xs) by lia.
Qed.

Section stores.
Context (m : memory var) (lg : list Z) (a : Z) (Hb : block_ok m lg a).

Lemma local_push_ok l x : l = LocalTail a \/ l = LocalFront a -> block_ok (push l x m) lg a.
Proof.
  intros Hl. destruct Hb as [H1 H2 H3 H4 H5 H6 H7 H8 H9].
  assert (forall l', l' <> LocalTail a -> l' <> LocalFront a -> l' <> l) as Hne by (intros l' ? ? ->; naive_solver).
  split; rewrite ?sz_push, ?Fn_push, ?Tn_push by (intros ->; naive_solver); try done.
  - by rewrite count_push_ne, vals_push_ne by by apply Hne.
  - by rewrite count_push_ne, vals_push_ne by by apply Hne.
  - intros c i Hc. rewrite vals_push_ne by by apply Hne. by apply H6.
  - by rewrite vals_push_ne by by apply Hne.
  - rewrite !count_push. repeat case_decide; lia.
  - intros e He Hf. rewrite passes_push_ne by by apply Hne. by apply H9.
Qed.

Lemma noted_ok t l : (t = Consumer -> forall c, l <> Cell a c) -> block_ok (note_read t l m) lg a.
Proof.
  intros Hl. destruct Hb as [H1 H2 H3 H4 H5 H6 H7 H8 H9]. split; try done.
  intros e He Hf. eapply passes_impl; [|by apply (H9 e)]. intros V HV. simpl in *. unfold put.
  change (cell (note_read t l m) a e) with (cell m a e). case_decide as Et; [|done]. subst t. case_decide as El; [|done].
  by destruct (Hl eq_refl (Z.of_nat (e mod sz m a))).
Qed.

(** The consumer reads the first element. *)
Lemma take_read_ok : Fn m a < Tn m a -> block_ok (note_read Consumer (cell m a (Fn m a)) m) lg a.
Proof.
  intros HFT. destruct Hb as [H1 H2 H3 H4 H5 H6 H7 H8 H9]. split; try done.
  intros e He Hf. change (S e <= Fn m a) in Hf. change (length lg <= e + sz m a) in He.
  eapply passes_impl; [|by apply (H9 e)]. intros V HV. simpl in *. rewrite put_eq. rewrite put_ne; [done|].
  unfold cell. intros [= E%Nat2Z.inj]. apply mod_close in E; [lia|lia|]. change (sz _ a) with (sz m a) in *. lia.
Qed.

(** The producer writes the next element, ... *)
Lemma cell_push_ok x V :
  quiet m lg a -> S (Tn m a) < Fn m a + sz m a -> block_ok (push (cell m a (Tn m a)) (x, V) m) (lg ++ [x]) a.
Proof.
  intros Hq Hr. unfold quiet in Hq. pose proof (block_size m lg a Hb) as Hs. pose proof Hb as [H1 H2 H3 H4 H5 H6 H7 H8 H9].
  assert (forall l', (forall c, l' <> Cell a c) -> l' <> cell m a (Tn m a)) as Hne by (intros l' Hl' ->; by eapply Hl').
  split; rewrite ?sz_push, ?Fn_push, ?Tn_push by (apply not_eq_sym, Hne; done); try done.
  - rewrite length_app. simpl. lia.
  - intros c i Hc. rewrite vals_push. unfold cell. rewrite <- Hq. case_decide as El.
    + injection El as ->%Nat2Z.inj. simpl. apply strided_snoc; [lia|]. intros. by apply H6.
    + apply strided_other; [done| |intros; by apply H6]. intros ->. by destruct El.
  - intros e He Hf. rewrite length_app in He. simpl in He. rewrite passes_push_ne by by apply Hne.
    apply (H9 e); lia.
Qed.

(** ... and publishes it. *)
Lemma tail_push_ok v V :
  length lg = S (Tn m a) -> v = Z.of_nat (S (Tn m a) mod sz m a) -> block_ok (push (Tail a) (v, V) m) lg a.
Proof.
  intros Hq Hv. destruct Hb as [H1 H2 H3 H4 H5 H6 H7 H8 H9].
  assert (Tn (push (Tail a) (v, V) m) a = S (Tn m a)) as HT by (unfold Tn; rewrite count_push_eq; lia).
  split; rewrite ?HT, ?sz_push, ?Fn_push by done; try done.
  - split; [rewrite count_push_eq; lia|]. rewrite vals_push_eq. apply counter_push; [apply H4|].
    rewrite vals_length. simpl. rewrite Hv. unfold Tn. do 2 f_equal. lia.
  - lia.
Qed.

(** The consumer publishes that it took the first element. *)
Lemma front_push_ok v V :
  Fn m a < Tn m a -> v = Z.of_nat (S (Fn m a) mod sz m a) ->
  reads m Consumer (cell m a (Fn m a)) <= V (R Consumer (cell m a (Fn m a))) -> block_ok (push (Front a) (v, V) m) lg a.
Proof.
  intros HFT Hv HV. destruct Hb as [H1 H2 H3 H4 H5 H6 H7 H8 H9].
  assert (Fn (push (Front a) (v, V) m) a = S (Fn m a)) as HF by (unfold Fn; rewrite count_push_eq; lia).
  split; rewrite ?HF, ?sz_push, ?Tn_push by done; try done.
  - split; [rewrite count_push_eq; lia|]. rewrite vals_push_eq. apply counter_push; [apply H3|].
    rewrite vals_length. simpl. rewrite Hv. unfold Fn. do 2 f_equal. lia.
  - lia.
  - intros e He Hf. destruct (decide (e = Fn m a)) as [->|Hne].
    + replace (S (Fn m a)) with (count m (Front a)) by (unfold Fn in *; lia). by apply passes_push_new.
    + rewrite passes_push_old by (unfold Fn in *; lia). apply (H9 e); [done|lia].
Qed.
End stores.
