(* ===== verification/SpscWeakConsumer.v ===== *)
(** * The consumer on relaxed memory

    The points of [try_dequeue], what the consumer knows there, that the producer
    does not disturb it, and the consumer's accesses: none is a race, and each
    keeps the invariant. *)
From S2P Require Import Prelude Spsc WeakMem SpscWeak SpscWeakInv.

Local Open Scope nat_scope.

(** What is left of a program after accesses that returned these values. *)
Fixpoint resume {A} (p : program A) (vs : list Z) {struct vs} : program A :=
  match vs, p with
  | v :: vs, Step o k => resume (k v) vs
  | _, _ => p
  end.

Section points.
Context (m : memory var) (g : ghost) (w : views var) (f : Z).

(** [localTail] is beyond the first element, and that was seen. *)
Definition ahead (a : Z) (U : view var) : Prop :=
  exists i, last (vals m (LocalTail a)) = Some (Z.of_nat (i mod sz m a)) /\ Fn m a < i <= Tn m a /\ S i <= U (W (Tail a)).
(** The first element may be taken. *)
Definition take_ready : Prop := ahead f (cur w) /\ cell_known m f (Fn m f) (cur w).
(** The tail is known to have left the front block. *)
Definition tail_left : Prop := Kn m < Mn m /\ passes m TailBlock (S (Kn m)) (fun V => below V (cur w)).
(** The next block, when its [localTail] has been set. *)
Definition next_ready (n : Z) (U : view var) : Prop := vis m !! S (Kn m) = Some n /\ ahead n U.

Notation front_value := (Z.of_nat (Fn m f mod sz m f)).
Notation tail_value := (Z.of_nat (Tn m f mod sz m f)).
Notation next_front n := (Z.of_nat (Fn m n mod sz m n)).

Inductive cpoint : program (option ptr) -> Prop :=
| C_start : cpoint try_dequeue
| C_block : cpoint (resume try_dequeue [f])
| C_localTail v : last (vals m (LocalTail f)) = Some v -> cpoint (resume try_dequeue [f; v])
| C_check : cpoint (check_tail f front_value)
| C_tail i : Fn m f <= i <= Tn m f -> cur w (W (Tail f)) = S i ->
    cpoint (resume (check_tail f front_value) [Z.of_nat (i mod sz m f)])
| C_tailBlock : cur w (W (Tail f)) = S (Fn m f) -> cpoint (check_tailBlock f)
| C_nonempty : ahead f (acq w) -> cpoint (non_empty_front_block f front_value)
| C_take : take_ready -> cpoint (take_element f front_value)
| C_taken x : ahead f (cur w) -> elems g f !! Fn m f = Some x -> cpoint (resume (take_element f front_value) [x])
| C_masked x : ahead f (cur w) -> elems g f !! Fn m f = Some x ->
    cpoint (resume (take_element f front_value) [x; (Z.of_nat (sz m f) - 1)%Z])
| C_release x : ahead f (cur w) -> elems g f !! Fn m f = Some x -> freed m f (rel w) ->
    cpoint (resume (take_element f front_value) [x; (Z.of_nat (sz m f) - 1)%Z; 0%Z])
| C_again : S (S (Kn m)) <= acq w (W TailBlock) -> cpoint look_again
| C_again_block : tail_left -> cpoint (resume look_again [0%Z])
| C_again_tail : tail_left -> cpoint (resume look_again [0%Z; f])
| C_again_write : tail_left -> S (Tn m f) <= cur w (W (Tail f)) -> cpoint (resume look_again [0%Z; f; tail_value])
| C_again_front : tail_left -> S (Tn m f) <= cur w (W (Tail f)) -> last (vals m (LocalTail f)) = Some tail_value ->
    cpoint (resume look_again [0%Z; f; tail_value; 0%Z])
| C_again_fence : tail_left -> S (Tn m f) <= cur w (W (Tail f)) -> last (vals m (LocalTail f)) = Some tail_value ->
    cpoint (resume look_again [0%Z; f; tail_value; 0%Z; front_value])
| C_next : tail_left -> Fn m f = Tn m f -> cpoint (next_block f)
| C_next_front n : tail_left -> Fn m f = Tn m f -> vis m !! S (Kn m) = Some n -> cpoint (resume (next_block f) [n])
| C_next_tail n : tail_left -> Fn m f = Tn m f -> vis m !! S (Kn m) = Some n ->
    cpoint (resume (next_block f) [n; next_front n])
| C_next_write n i : tail_left -> Fn m f = Tn m f -> vis m !! S (Kn m) = Some n ->
    Fn m n < i <= Tn m n -> S i <= cur w (W (Tail n)) ->
    cpoint (resume (next_block f) [n; next_front n; Z.of_nat (i mod sz m n)])
| C_next_fence n i : tail_left -> Fn m f = Tn m f -> next_ready n (acq w) -> Fn m n < i <= Tn m n ->
    cpoint (resume (next_block f) [n; next_front n; Z.of_nat (i mod sz m n); 0%Z])
| C_advance n : tail_left -> Fn m f = Tn m f -> next_ready n (cur w) -> cpoint (advance n (next_front n))
| C_advance_store n : tail_left -> Fn m f = Tn m f -> next_ready n (cur w) -> freed m f (rel w) ->
    cpoint (resume (advance n (next_front n)) [0%Z])
| C_advanced : take_ready -> cpoint (CompilerFence memory_order_release ;; take_element f front_value).
End points.

(** ** What the producer does to the memory *)
Record produced (m m' : memory var) (g : ghost) : Prop := {
  d_heap : heap m ⊆ heap m';
  d_grow : forall l, exists ext, msgs m' l = msgs m l ++ ext;
  d_owned : forall l, owner l = Consumer -> (forall a, block_of l = Some a -> a ∈ ring m g) -> msgs m' l = msgs m l;
  d_reads : reads m' Consumer = reads m Consumer;
  d_full : forall k a, Kn m <= k < Mn m -> vis m !! k = Some a -> msgs m' (Tail a) = msgs m (Tail a);
  d_tail : forall f e, vis m !! Kn m = Some f -> Tn m f <= e < Tn m' f -> passes m' (Tail f) (S e) (cell_known m' f e);
  d_tailBlock : forall k a, Mn m < k <= Mn m' -> vis m' !! k = Some a ->
    passes m' TailBlock k (fun V => count m' (Front a) <= V (W (Front a)) /\ count m' (LocalTail a) <= V (W (LocalTail a)))
}.

Section produced.
Context (m m' : memory var) (g : ghost) (Hsh : shared m g) (Hd : produced m m' g).

Lemma grown_lookup l i x : msgs m l !! i = Some x -> msgs m' l !! i = Some x.
Proof. intros Hi. destruct (d_grow _ _ _ Hd l) as [ext ->]. by apply lookup_app_l_Some. Qed.
Lemma grown_count l : count m l <= count m' l.
Proof. unfold count. destruct (d_grow _ _ _ Hd l) as [ext ->]. rewrite length_app. lia. Qed.
Lemma grown_passes l i P : i < count m l -> passes m l i P -> passes m' l i P.
Proof.
  intros Hi Hp v V Hm. apply (Hp v). unfold count in Hi. destruct (d_grow _ _ _ Hd l) as [ext E].
  rewrite E, lookup_app_l in Hm by done. done.
Qed.
Lemma grown_vis k a : vis m !! k = Some a -> vis m' !! k = Some a.
Proof.
  unfold vis, vals. rewrite !list_lookup_fmap. intros (x & Hx & ->)%fmap_Some. by rewrite (grown_lookup _ _ _ Hx).
Qed.
Lemma grown_sz a : a ∈ ring m g -> sz m' a = sz m a.
Proof.
  intros Ha. destruct (b_heap _ _ _ (ring_ok _ _ Hsh _ Ha)) as [Hh _]. unfold sz.
  by rewrite Hh, (lookup_weaken _ _ _ _ Hh (d_heap _ _ _ Hd)).
Qed.
Lemma produced_Kn : Kn m' = Kn m.
Proof. unfold Kn, count. by rewrite (d_owned _ _ _ Hd). Qed.
Lemma produced_Mn : Mn m <= Mn m'.
Proof. unfold Mn. pose proof (grown_count TailBlock). lia. Qed.

Section member.
Context (a : Z) (Ha : a ∈ ring m g).
Lemma produced_owned l : owner l = Consumer -> block_of l = Some a -> msgs m' l = msgs m l.
Proof. intros Ho Hl. apply (d_owned _ _ _ Hd); [done|]. intros b. rewrite Hl. by intros [= <-]. Qed.
Lemma produced_Fn : Fn m' a = Fn m a.
Proof. unfold Fn, count. by rewrite produced_owned. Qed.
Lemma produced_Tn : Tn m a <= Tn m' a.
Proof. unfold Tn. pose proof (grown_count (Tail a)). lia. Qed.
Lemma produced_cell e : cell m' a e = cell m a e.
Proof. unfold cell. by rewrite grown_sz. Qed.
Lemma produced_known e U : cell_known m a e U -> cell_known m' a e U.
Proof. unfold cell_known. by rewrite produced_cell, grown_sz. Qed.
Lemma produced_freed U : freed m a U -> freed m' a U.
Proof. unfold freed, count. rewrite !produced_owned by done. by rewrite (d_reads _ _ _ Hd). Qed.
End member.

(** The producer does not disturb what the consumer knows, ... *)
Lemma produced_consumer w f : consumer_ok m w f -> consumer_ok m' w f.
Proof.
  intros [H1 H2 H3 H4 H5 H6 H7]. pose proof (Kn_le_Mn _ _ Hsh) as [HKM HMc].
  assert (f ∈ ring m g) as Hf by (apply (vis_in_ring _ _ (Kn m)); [apply Hsh|done]).
  split; rewrite ?produced_Kn, ?produced_Fn by done.
  - by apply grown_vis.
  - unfold count. rewrite (d_owned _ _ _ Hd FrontBlock) by done. rewrite !(produced_owned f) by done. done.
  - done.
  - by rewrite (d_reads _ _ _ Hd).
  - destruct H5 as (lt & E & Hlt & Hacq). exists lt. unfold vals. rewrite (produced_owned f), grown_sz by done.
    pose proof (produced_Tn f). split; [done|]. split; [lia|done].
  - intros e He. destruct (decide (e < Tn m f)) as [Hlt|Hge]; [|right; apply (d_tail _ _ _ Hd); [done|lia]].
    destruct (H6 e) as [Hk|Hk]; [lia|left; by apply produced_known|right].
    apply grown_passes; [unfold Tn in *; lia|]. eapply passes_impl; [|exact Hk]. intros V. by apply produced_known.
  - intros k a Hk Hv. destruct (decide (k <= Mn m)) as [Hle|Hgt].
    + assert (vis m !! k = Some a) as Ha.
      { destruct (lookup_lt_is_Some_2 (vis m) k) as [a' Ha']; [rewrite (vis_length _ _ Hsh); lia|].
        rewrite Ha'. rewrite <- Hv. symmetry. by apply grown_vis. }
      assert (a ∈ ring m g) as Hr by (apply (vis_in_ring _ _ k); [pose proof (s_left _ _ Hsh); lia|done]).
      apply grown_passes; [lia|]. eapply passes_impl; [|apply (H7 k a); [lia|done]].
      intros V. cbv beta. unfold count. by rewrite !(produced_owned a).
    + eapply passes_impl; [|apply (d_tailBlock _ _ _ Hd k a); [lia|done]]. intros V. cbv beta. lia.
Qed.

(** ... nor where it is. *)
Lemma produced_tail_left (w : views var) : tail_left m w -> tail_left m' w.
Proof.
  intros [H1 H2]. pose proof produced_Mn. pose proof (Kn_le_Mn _ _ Hsh) as [_ Hc]. unfold tail_left. rewrite produced_Kn.
  split; [lia|]. apply grown_passes; [lia|done].
Qed.

Lemma produced_cpoint g' w f c :
  consumer_ok m w f -> elems g' f = elems g f \/ (exists x, elems g' f = elems g f ++ [x]) ->
  cpoint m g w f c -> cpoint m' g' w f c.
Proof.
  intros Hok He Hc. pose proof (c_front _ _ _ Hok) as Hv. pose proof (s_left _ _ Hsh) as Hl.
  assert (f ∈ ring m g) as Hf by by apply (vis_in_ring _ _ (Kn m)).
  pose proof (produced_Fn f Hf) as EF. pose proof (grown_sz f Hf) as Es. pose proof (produced_Tn f) as HT.
  assert (forall i x, elems g f !! i = Some x -> elems g' f !! i = Some x) as Hel.
  { intros i x Hi. destruct He as [->|[y ->]]; [done|by apply lookup_app_l_Some]. }
  assert (vals m' (LocalTail f) = vals m (LocalTail f)) as Elt by (unfold vals; by rewrite (produced_owned f)).
  assert (forall a U, a ∈ ring m g -> ahead m a U -> ahead m' a U) as Hah.
  { intros a U Ha (i & H1 & H2 & H3). exists i. rewrite (produced_Fn a), (grown_sz a) by done. pose proof (produced_Tn a).
    unfold vals. rewrite (produced_owned a) by done. split; [done|]. split; [lia|done]. }
  assert (take_ready m w f -> take_ready m' w f) as Htr.
  { intros [H1 H2]. unfold take_ready. rewrite EF. split; [by apply Hah|by apply produced_known]. }
  assert (tail_left m w -> Tn m' f = Tn m f) as ETl.
  { intros [HK _]. unfold Tn, count. rewrite (d_full _ _ _ Hd (Kn m) f); [done|lia|done]. }
  assert (forall n, vis m !! S (Kn m) = Some n -> n ∈ ring m g) as Hn by (intros n; apply vis_in_ring; lia).
  assert (forall n U, next_ready m n U -> next_ready m' n U) as Hnr.
  { intros n U [H1 H2]. unfold next_ready. rewrite produced_Kn. split; [by apply grown_vis|auto]. }
  destruct Hc; rewrite <- ?EF, <- ?Es, ?produced_Kn;
  try match goal with Hx : tail_left m w |- _ => rewrite <- ?(ETl Hx); pose proof (ETl Hx); pose proof (produced_tail_left _ Hx) end;
  try match goal with Hx : next_ready m ?n _ |- _ => pose proof (Hn n (proj1 Hx)) end;
  try match goal with Hx : vis m !! S (Kn m) = Some ?n |- _ => pose proof (Hn n Hx) end;
  try match goal with Hx : ?n ∈ ring m g |- context [Fn m ?n] => rewrite <- ?(produced_Fn n Hx), <- ?(grown_sz n Hx);
    pose proof (produced_Fn n Hx); pose proof (grown_vis (S (Kn m)) n); pose proof (produced_Tn n) end;
  try (econstructor; rewrite ?EF, ?Es, ?produced_Kn, ?Elt; auto; fail).
  all: try (econstructor; rewrite ?EF, ?Es, ?produced_Kn, ?Elt; eauto; lia).
  - apply C_release; [auto|rewrite EF; auto|by apply produced_freed].
  - apply C_again_front; [done|lia|]. by rewrite Elt, (ETl H), Es.
  - apply C_again_fence; [done|lia|]. by rewrite Elt, (ETl H), Es.
  - apply C_next_front; [done|lia|]. rewrite produced_Kn. by apply grown_vis.
  - apply C_advance_store; [done|lia|auto|by apply produced_freed].
Qed.
End produced.

(** ** What the consumer does to the memory *)
Record consumed (m m' : memory var) (g : ghost) : Prop := {
  e_heap : heap m' = heap m;
  e_owned : forall l, owner l = Producer -> msgs m' l = msgs m l;
  e_grow : forall l, exists ext, msgs m' l = msgs m l ++ ext;
  e_other : forall a, a ∉ drop (left g) (vis m) -> same_block m m' a
}.

(** The elements in the queue. *)
Definition items (m : memory var) (g : ghost) (a : Z) : list ptr := drop (Fn m a) (take (Tn m a) (elems g a)).
Definition fview (m : memory var) (g : ghost) : list ptr := concat (map (items m g) (drop (Kn m) (vis m))).

Lemma consumed_refl m g : consumed m m g.
Proof. split; try done. intros l. exists []. by rewrite app_nil_r. Qed.

Lemma consumed_read m g l f : block_of l = Some f -> f ∈ drop (left g) (vis m) -> consumed m (note_read Consumer l m) g.
Proof.
  intros Hl Hf. split; try done.
  - intros l'. exists []. by rewrite app_nil_r.
  - intros a Ha. apply (f_blocks _ _ _ (confined_read m Consumer l f Hl)). congruence.
Qed.

Lemma consumed_push m g l x : owner l = Consumer -> (forall a, block_of l = Some a -> a ∈ drop (left g) (vis m)) -> consumed m (push l x m) g.
Proof.
  intros Ho Hf. split; try done.
  - intros l' Hl'. simpl. rewrite put_ne; [done|congruence].
  - intros l'. simpl. unfold put. case_decide as El; [subst; by eexists|]. exists []. by rewrite app_nil_r.
  - intros a Ha. split; [done|]. intros l' Hl'. simpl. rewrite put_ne; [done|]. intros ->. by apply Ha, Hf.
Qed.

(** A message that is loaded is not older than what is known. *)
Lemma exact_load m (w : views var) l i v V :
  count m l <= cur w (W l) -> msgs m l !! i = Some (v, V) -> cur w (W l) <= S i -> last (vals m l) = Some v /\ S i = count m l.
Proof.
  intros Hc Hm Hi. apply lookup_lt_Some in Hm as Hl. unfold count in *. assert (S i = length (msgs m l)) as E by lia.
  split; [|done]. rewrite last_lookup, vals_length. unfold count. rewrite <- E. simpl. by eapply vals_lookup.
Qed.

Lemma cell_known_mono m a e U V : below U V -> cell_known m a e U -> cell_known m a e V.
Proof. intros Hb Hk. unfold cell_known in *. specialize (Hb (W (cell m a e))). lia. Qed.

Lemma freed_mono m a U V : below U V -> freed m a U -> freed m a V.
Proof.
  intros Hb (H1 & H2 & H3). split; [|split].
  - specialize (Hb (W (Front a))). lia.
  - specialize (Hb (W (LocalTail a))). lia.
  - intros c. specialize (Hb (R Consumer (Cell a c))). specialize (H3 c). lia.
Qed.

Lemma consumer_ok_mono m w w' f :
  consumer_ok m w f -> below (cur w) (cur w') -> below (acq w) (acq w') -> consumer_ok m w' f.
Proof.
  intros [H1 H2 H3 H4 H5 H6 H7] Hc Ha.
  assert (forall x, cur w x <= cur w' x) as Hx by (intros x; apply Hc). split.
  - done.
  - pose proof (Hx (W FrontBlock)). pose proof (Hx (W (Front f))). pose proof (Hx (W (LocalTail f))). lia.
  - pose proof (Hx (W (SizeMask f))). pose proof (Hx (W (Tail f))). pose proof (Hx (W TailBlock)). lia.
  - intros l. pose proof (Hx (R Consumer l)). specialize (H4 l). lia.
  - destruct H5 as (lt & E & Hlt & Hacq). exists lt. specialize (Ha (W (Tail f))). split; [done|]. split; [done|lia].
  - intros e He. destruct (H6 e He) as [Hk|Hk]; [left; by eapply cell_known_mono|by right].
  - intros k a Hk Hv. eapply passes_impl; [|by apply (H7 k a)]. intros V. cbv beta.
    pose proof (Hx (W (Front a))). pose proof (Hx (W (LocalTail a))). lia.
Qed.

Section consumer.
Context (m : memory var) (g : ghost) (vs : tid -> views var) (f : Z).
Notation w := (vs Consumer).
Context (Hwf : wf m vs) (Hsh : shared m g) (Hok : consumer_ok m w f).

Definition c_post (k : Z -> program (option ptr)) (r : Z * memory var * views var) : Prop :=
  let '(v, m', w') := r in
  consumed m m' g /\ shared m' g /\
  exists f', consumer_ok m' w' f' /\
    match k v with
    | Ret (Some x) => fview m g = x :: fview m' g
    | Ret None => m' = m /\ cur w' (W (Tail f)) = S (Fn m f) /\ cur w' (W TailBlock) = S (Kn m)
    | p => fview m' g = fview m g /\ cpoint m' g w' f' p
    end.

Lemma front_left : left g <= Kn m.
Proof. apply Hsh. Qed.
Lemma front_in_ring : f ∈ ring m g.
Proof. apply (vis_in_ring _ _ (Kn m)); [apply front_left|apply (c_front _ _ _ Hok)]. Qed.
Lemma visited k a : Kn m <= k -> vis m !! k = Some a -> a ∈ drop (left g) (vis m).
Proof.
  intros Hk Ha. pose proof front_left. apply list_elem_of_lookup. exists (k - left g). rewrite lookup_drop.
  by replace (left g + (k - left g)) with k by lia.
Qed.
Lemma front_visited : f ∈ drop (left g) (vis m).
Proof. by apply (visited (Kn m)), (c_front _ _ _ Hok). Qed.
Lemma front_ok : block_ok m (elems g f) f.
Proof. apply (ring_ok _ _ Hsh), front_in_ring. Qed.
Lemma acq_bounded l : acq w (W l) <= count m l.
Proof. apply (wf_bound _ _ Hwf). Qed.

(** A step that only adds to the views. *)
Lemma c_views k v w' p :
  k v = p -> below (cur w) (cur w') -> below (acq w) (acq w') ->
  match p with Ret (Some _) => False | Ret None => cur w' (W (Tail f)) = S (Fn m f) /\ cur w' (W TailBlock) = S (Kn m)
  | _ => cpoint m g w' f p end -> c_post k (v, m, w').
Proof.
  intros Ek Hc Ha Hp. split; [apply consumed_refl|]. split; [done|]. exists f. split; [by eapply consumer_ok_mono|].
  rewrite Ek. by destruct p as [[]| |].
Qed.

Lemma cpoint_step m' w' f' c : cpoint m' g w' f' c -> exists o k, c = Step o k.
Proof. intros []; by do 2 eexists. Qed.

Lemma c_point k v w' :
  below (cur w) (cur w') -> below (acq w) (acq w') -> cpoint m g w' f (k v) -> c_post k (v, m, w').
Proof.
  intros Hc Ha Hp. apply (c_views k v w' (k v)); try done. by destruct (cpoint_step _ _ _ _ Hp) as (o & k' & E); rewrite E in *.
Qed.

(** Loads of what only this thread stores, or nobody stores any more. *)
Lemma c_load_exact l v k choice :
  valid m l = true -> is_atomic l = true -> 1 <= count m l <= cur w (W l) -> last (vals m l) = Some v ->
  (forall w', below (cur w) (cur w') -> below (acq w) (acq w') -> rel w' = rel w -> cpoint m g w' f (k v)) ->
  after (load l choice m w) (c_post k).
Proof.
  intros Hv Ha [Hc1 Hc2] Hl Hp. apply load_after; [done|done|lia|]. intros v' V Hm Hi.
  destruct (exact_load m w l choice v' V Hc2 Hm Hi) as [E _]. rewrite Hl in E. injection E as <-.
  destruct (received_below l choice V w) as [B1 B2]. apply c_point; [done|done|]. by apply Hp.
Qed.

Lemma front_last : last (vals m (Front f)) = Some (Z.of_nat (Fn m f mod sz m f)).
Proof. apply (counter_last m (elems g f) f); [by apply front_ok|by left]. Qed.

Lemma frontBlock_last : last (vals m FrontBlock) = Some f.
Proof.
  destruct (s_front _ _ Hsh) as (Hc & E & Hl). rewrite last_lookup, vals_length, E.
  replace (Nat.pred (count m FrontBlock)) with (Kn m) by (unfold Kn; lia).
  rewrite lookup_take_lt by lia. apply (c_front _ _ _ Hok).
Qed.

Lemma ahead_mono a U V : below U V -> ahead m a U -> ahead m a V.
Proof. intros Hb (i & H1 & H2 & H3). exists i. specialize (Hb (W (Tail a))). split; [done|]. split; [done|lia]. Qed.

Lemma tail_left_mono (w' : views var) : below (cur w) (cur w') -> tail_left m w -> tail_left m w'.
Proof. intros Hc [H1 H2]. split; [done|]. eapply passes_impl; [|exact H2]. intros V HV. exact (below_trans _ _ _ HV Hc). Qed.

Lemma ahead_less a U : ahead m a U -> Fn m a < Tn m a.
Proof. intros (i & _ & Hi & _). lia. Qed.

(** Steps that only look. *)
Lemma c_start_ok choice : after (exec Consumer choice (Load FrontBlock) m w) (c_post (fun v => resume try_dequeue [v])).
Proof.
  pose proof (c_own _ _ _ Hok) as (H1 & _). pose proof (s_front _ _ Hsh) as (Hc & _).
  eapply c_load_exact; [done|done|lia|apply frontBlock_last|]. intros. apply C_block.
Qed.

Lemma c_localTail_ok choice v :
  last (vals m (LocalTail f)) = Some v ->
  after (exec Consumer choice (Load (Front f)) m w) (c_post (fun b => resume try_dequeue [f; v; b])).
Proof.
  intros Hv. pose proof (c_own _ _ _ Hok) as (_ & H2 & _). pose proof (b_front _ _ _ front_ok) as [Hc _].
  pose proof (b_counts _ _ _ front_ok) as Hn. eapply c_load_exact; [by eapply ring_field; [|apply front_in_ring|]|done|lia|apply front_last|].
  intros w' Hw1 Hw2 _. cbn [resume try_dequeue]. destruct (c_localTail _ _ _ Hok) as (lt & E & Hlt & Ha).
  rewrite Hv in E. injection E as ->. destruct (Z.eqb_spec (Z.of_nat (Fn m f mod sz m f)) (Z.of_nat (lt mod sz m f))) as [E|E]; simpl.
  - apply C_check.
  - apply C_nonempty. exists lt. specialize (Hw2 (W (Tail f))). assert (Fn m f <> lt) by congruence. split; [done|lia].
Qed.

Lemma c_check_ok choice :
  after (exec Consumer choice (Load (Tail f)) m w)
    (c_post (fun v => resume (check_tail f (Z.of_nat (Fn m f mod sz m f))) [v])).
Proof.
  pose proof (c_known _ _ _ Hok) as (_ & H2 & _). pose proof (b_tail _ _ _ front_ok) as [Hc _].
  apply load_after; [by eapply ring_field; [|apply front_in_ring|]|done|lia|]. intros v V Hm Hi.
  apply (counter_value m (elems g f) f) in Hm as Hv; [|by apply front_ok|by right]. subst v. apply lookup_lt_Some in Hm.
  destruct (received_below (Tail f) (Z.to_nat choice) V w) as [B1 B2]. apply c_point; [done|done|].
  apply C_tail; [unfold Tn, count in *; lia|]. simpl. rewrite learn_eq. lia.
Qed.

Lemma c_tailBlock_ok choice :
  cur w (W (Tail f)) = S (Fn m f) ->
  after (exec Consumer choice (Load TailBlock) m w) (c_post (fun v => resume (check_tailBlock f) [v])).
Proof.
  intros Ht. pose proof (c_known _ _ _ Hok) as (_ & _ & H3). apply load_after; [done|done|lia|]. intros v V Hm Hi.
  destruct (received_below TailBlock (Z.to_nat choice) V w) as [B1 B2]. set (k := Z.to_nat choice) in *.
  pose proof (tail_block_value _ _ _ _ Hm) as Hv. cbn [resume check_tailBlock].
  pose proof (c_front _ _ _ Hok) as Hf. pose proof front_left as Hl.
  eapply c_views; [done|done|done|]. simpl. destruct (Z.eqb_spec f v) as [<-|Hne]; simpl.
  - assert (k = Kn m) as -> by (by eapply (vis_index m g Hsh); [lia|lia| |]).
    split; [by rewrite learn_ne by done|]. rewrite learn_eq. lia.
  - apply C_again. simpl. unfold join. rewrite learn_eq. assert (k <> Kn m) by congruence. lia.
Qed.

Lemma c_again_block_ok choice :
  tail_left m w -> after (exec Consumer choice (Load FrontBlock) m w) (c_post (fun v => resume look_again [0%Z; v])).
Proof.
  intros Hl. pose proof (c_own _ _ _ Hok) as (H1 & _). pose proof (s_front _ _ Hsh) as (Hc & _).
  eapply c_load_exact; [done|done|lia|apply frontBlock_last|]. intros. apply C_again_tail. by eapply tail_left_mono.
Qed.

(** When the tail has left the block, nothing more is put there. *)
Lemma left_full : tail_left m w -> full_view m f (cur w) /\ quiet m (elems g f) f.
Proof.
  intros [HK Hp]. destruct (s_full _ _ Hsh (Kn m) f ltac:(lia) (c_front _ _ _ Hok)) as [Hq Hpf]. split; [|done].
  destruct (lookup_lt_is_Some_2 (msgs m TailBlock) (S (Kn m))) as [[v V] Hm].
  { pose proof (Kn_le_Mn _ _ Hsh) as [_ E]. unfold count in E. lia. }
  destruct (Hpf v V Hm) as [H1 H2]. pose proof (Hp v V Hm) as HV. unfold full_view.
  pose proof (HV (W (Tail f))). pose proof (HV (W (Next f))). lia.
Qed.

Lemma c_again_tail_ok choice :
  tail_left m w -> after (exec Consumer choice (Load (Tail f)) m w) (c_post (fun v => resume look_again [0%Z; f; v])).
Proof.
  intros Hl. destruct (left_full Hl) as [[H1 _] _]. pose proof (b_tail _ _ _ front_ok) as [Hc _].
  eapply c_load_exact; [by eapply ring_field; [|apply front_in_ring|]|done|lia|apply (counter_last m (elems g f) f); [by apply front_ok|by right]|].
  intros w' Hw _ _. apply C_again_write; [by eapply tail_left_mono|]. specialize (Hw (W (Tail f))). unfold Tn. lia.
Qed.

Lemma c_again_front_ok choice :
  tail_left m w -> S (Tn m f) <= cur w (W (Tail f)) -> last (vals m (LocalTail f)) = Some (Z.of_nat (Tn m f mod sz m f)) ->
  after (exec Consumer choice (Load (Front f)) m w)
    (c_post (fun v => resume look_again [0%Z; f; Z.of_nat (Tn m f mod sz m f); 0%Z; v])).
Proof.
  intros Hl Ht HlT. pose proof (c_own _ _ _ Hok) as (_ & H2 & _). pose proof (b_front _ _ _ front_ok) as [Hc _].
  eapply c_load_exact; [by eapply ring_field; [|apply front_in_ring|]|done|lia|apply front_last|].
  intros w' Hw _ _. apply C_again_fence; [by eapply tail_left_mono| |done]. specialize (Hw (W (Tail f))). lia.
Qed.

(** *** Fences *)
Lemma tail_message e : e < count m (Tail f) -> exists v V, msgs m (Tail f) !! e = Some (v, V).
Proof. intros He. destruct (lookup_lt_is_Some_2 (msgs m (Tail f)) e He) as [[v V] E]. by exists v, V. Qed.

(** What an acquire fence gives when the tail has been seen beyond an element. *)
Lemma acquired_cell e : Fn m f <= e < Tn m f -> S (S e) <= acq w (W (Tail f)) -> cell_known m f e (acq w).
Proof.
  intros He Ha. destruct (c_cells _ _ _ Hok e He) as [Hk|Hk]; [eapply cell_known_mono; [apply (wf_cur _ _ Hwf)|done]|].
  destruct (tail_message (S e)) as (v & V & Hm); [pose proof (acq_bounded (Tail f)); lia|].
  eapply cell_known_mono; [|by apply (Hk v V)].
  eapply (wf_acquired _ _ Hwf Consumer (Tail f)); [done|done| |exact Hm]. lia.
Qed.

Lemma acquired_take : ahead m f (acq w) -> take_ready m (fence memory_order_acquire w) f.
Proof.
  intros Ha. pose proof Ha as (i & _ & H1 & H2). split; [done|]. apply acquired_cell; lia.
Qed.

Lemma c_nonempty_ok choice :
  ahead m f (acq w) ->
  after (exec Consumer choice (Fence memory_order_acquire) m w)
    (c_post (fun v => resume (non_empty_front_block f (Z.of_nat (Fn m f mod sz m f))) [v])).
Proof.
  intros Ha. destruct (fence_below _ _ Hwf Consumer memory_order_acquire) as [B1 B2]. apply c_point; [done|done|].
  apply C_take. by apply acquired_take.
Qed.

Lemma c_again_ok choice :
  S (S (Kn m)) <= acq w (W TailBlock) ->
  after (exec Consumer choice (Fence memory_order_acquire) m w) (c_post (fun v => resume look_again [0%Z])).
Proof.
  intros Ha. destruct (fence_below _ _ Hwf Consumer memory_order_acquire) as [B1 B2]. apply c_point; [done|done|].
  apply C_again_block. pose proof (acq_bounded TailBlock). pose proof (Kn_le_Mn _ _ Hsh) as [_ E]. split; [lia|].
  intros v V Hm. eapply (wf_acquired _ _ Hwf Consumer TailBlock); [done|done| |exact Hm]. lia.
Qed.

Lemma c_again_fence_ok choice :
  tail_left m w -> S (Tn m f) <= cur w (W (Tail f)) -> last (vals m (LocalTail f)) = Some (Z.of_nat (Tn m f mod sz m f)) ->
  after (exec Consumer choice (Fence memory_order_acquire) m w)
    (c_post (fun v => resume look_again
       [0%Z; f; Z.of_nat (Tn m f mod sz m f); 0%Z; Z.of_nat (Fn m f mod sz m f); v])).
Proof.
  intros Hl Ht HlT. destruct (fence_below _ _ Hwf Consumer memory_order_acquire) as [B1 B2]. apply c_point; [done|done|].
  cbn [resume look_again]. pose proof (b_counts _ _ _ front_ok) as Hn.
  destruct (Z.eqb_spec (Z.of_nat (Fn m f mod sz m f)) (Z.of_nat (Tn m f mod sz m f))) as [E|E]; simpl.
  - apply Nat2Z.inj, mod_close in E; [|lia|lia]. apply C_next; [by eapply tail_left_mono|done].
  - assert (Fn m f <> Tn m f) by congruence. apply C_take, acquired_take.
    pose proof (wf_cur _ _ Hwf Consumer (W (Tail f))). exists (Tn m f). split; [done|lia].
Qed.

Lemma c_next_fence_ok choice n i :
  tail_left m w -> Fn m f = Tn m f -> next_ready m n (acq w) -> Fn m n < i <= Tn m n ->
  after (exec Consumer choice (Fence memory_order_acquire) m w)
    (c_post (fun v => resume (next_block f)
       [n; Z.of_nat (Fn m n mod sz m n); Z.of_nat (i mod sz m n); 0%Z; v])).
Proof.
  intros Hl He Hn Hi. destruct (fence_below _ _ Hwf Consumer memory_order_acquire) as [B1 B2]. apply c_point; [done|done|].
  cbn [resume next_block].
  assert (n ∈ ring m g) as Hr by (apply (vis_in_ring m g (S (Kn m))); [pose proof front_left; lia|apply Hn]).
  pose proof (b_counts _ _ _ (ring_ok _ _ Hsh _ Hr)) as Hc.
  destruct (Z.eqb_spec (Z.of_nat (Fn m n mod sz m n)) (Z.of_nat (i mod sz m n))) as [E|E].
  - apply Nat2Z.inj, mod_close in E; lia.
  - apply C_advance; [by eapply tail_left_mono|done|done].
Qed.

Lemma released : freed m f (rel (fence memory_order_release w)).
Proof.
  pose proof (c_own _ _ _ Hok) as (_ & H2 & H3). split; [done|]. split; [done|]. intros c. apply (c_reads _ _ _ Hok).
Qed.

Lemma c_advance_ok choice n :
  tail_left m w -> Fn m f = Tn m f -> next_ready m n (cur w) ->
  after (exec Consumer choice (Fence memory_order_release) m w)
    (c_post (fun v => resume (advance n (Z.of_nat (Fn m n mod sz m n))) [0%Z])).
Proof.
  intros Hl He Hn. destruct (fence_below _ _ Hwf Consumer memory_order_release) as [B1 B2]. apply c_point; [done|done|].
  apply C_advance_store; [done|done|done|apply released].
Qed.

Lemma c_masked_ok choice x :
  ahead m f (cur w) -> elems g f !! Fn m f = Some x ->
  after (exec Consumer choice (Fence memory_order_release) m w)
    (c_post (fun v => resume (take_element f (Z.of_nat (Fn m f mod sz m f))) [x; (Z.of_nat (sz m f) - 1)%Z; 0%Z])).
Proof.
  intros Hn Hx. destruct (fence_below _ _ Hwf Consumer memory_order_release) as [B1 B2]. apply c_point; [done|done|].
  apply C_release; [done|done|apply released].
Qed.

Lemma c_advanced_ok choice :
  take_ready m w f -> after (exec Consumer choice (CompilerFence memory_order_release) m w)
    (c_post (fun v => take_element f (Z.of_nat (Fn m f mod sz m f)))).
Proof. intros Ht. apply c_point; [apply below_refl|apply below_refl|]. by apply C_take. Qed.

(** *** The next block *)
Section next.
Context (n : Z) (Hl : tail_left m w) (Hn : vis m !! S (Kn m) = Some n).

Lemma next_in_ring : n ∈ ring m g.
Proof. apply (vis_in_ring m g (S (Kn m))); [pose proof front_left; lia|done]. Qed.

Lemma next_not_front : n <> f.
Proof.
  intros ->. pose proof front_left.
  pose proof (vis_index m g Hsh (S (Kn m)) (Kn m) f ltac:(lia) ltac:(lia) Hn (c_front _ _ _ Hok)). lia.
Qed.

(** What the consumer knows of it. *)
Lemma next_known :
  count m (Front n) <= cur w (W (Front n)) /\ count m (LocalTail n) <= cur w (W (LocalTail n)) /\
  entered m n (cur w) /\ Fn m n < Tn m n.
Proof.
  pose proof Hl as [HK Hp]. destruct (s_later _ _ Hsh (S (Kn m)) n ltac:(lia) Hn) as (HF & He & _).
  destruct (lookup_lt_is_Some_2 (msgs m TailBlock) (S (Kn m))) as [[v V] Hm].
  { pose proof (Kn_le_Mn _ _ Hsh) as [_ E]. unfold count in E. lia. }
  pose proof (Hp v V Hm) as HV. destruct (c_later _ _ _ Hok (S (Kn m)) n ltac:(lia) Hn v V Hm) as [H1 H2].
  pose proof (HV (W (Front n))). pose proof (HV (W (LocalTail n))). split; [lia|]. split; [lia|]. split; [|done].
  destruct (He v V Hm) as (E1 & E2 & E3). split; [|split].
  - specialize (HV (W (SizeMask n))). lia.
  - specialize (HV (W (Tail n))). lia.
  - exact (cell_known_mono _ _ _ _ _ HV E3).
Qed.
End next.

Lemma c_next_ok choice :
  tail_left m w -> Fn m f = Tn m f ->
  after (exec Consumer choice (Load (Next f)) m w) (c_post (fun v => resume (next_block f) [v])).
Proof.
  intros Hl He. destruct (left_full Hl) as [[_ H2] _]. pose proof (b_rest _ _ _ front_ok) as (Hc & _).
  destruct (lookup_lt_is_Some_2 (vis m) (S (Kn m))) as [n Hn].
  { pose proof (vis_length _ _ Hsh). destruct Hl as [HK _]. lia. }
  eapply c_load_exact; [by eapply ring_field; [|apply front_in_ring|]|done|lia| |].
  - eapply (next_link m g Hsh (Kn m)); [apply front_left|apply (c_front _ _ _ Hok)|exact Hn].
  - intros w' Hw _ _. apply C_next_front; [by eapply tail_left_mono|done|done].
Qed.

Lemma c_next_front_ok choice n :
  tail_left m w -> Fn m f = Tn m f -> vis m !! S (Kn m) = Some n ->
  after (exec Consumer choice (Load (Front n)) m w) (c_post (fun v => resume (next_block f) [n; v])).
Proof.
  intros Hl He Hn. destruct (next_known n Hl Hn) as (H1 & _). pose proof (ring_ok _ _ Hsh _ (next_in_ring n Hn)) as Hb.
  pose proof (b_front _ _ _ Hb) as [Hc _].
  eapply c_load_exact; [by eapply ring_field; [|by apply next_in_ring|]|done|lia|apply (counter_last m (elems g n) n); [done|by left]|].
  intros w' Hw _ _. apply C_next_tail; [by eapply tail_left_mono|done|done].
Qed.

Lemma c_next_tail_ok choice n :
  tail_left m w -> Fn m f = Tn m f -> vis m !! S (Kn m) = Some n ->
  after (exec Consumer choice (Load (Tail n)) m w)
    (c_post (fun v => resume (next_block f) [n; Z.of_nat (Fn m n mod sz m n); v])).
Proof.
  intros Hl He Hn. destruct (next_known n Hl Hn) as (_ & _ & (_ & H2 & _) & _).
  pose proof (ring_ok _ _ Hsh _ (next_in_ring n Hn)) as Hb.
  apply load_after; [by eapply ring_field; [|by apply next_in_ring|]|done|lia|]. intros v V Hm Hi.
  apply (counter_value m (elems g n) n) in Hm as Hv; [|done|by right]. subst v. apply lookup_lt_Some in Hm.
  destruct (received_below (Tail n) (Z.to_nat choice) V w) as [B1 B2]. apply c_point; [done|done|].
  apply C_next_write; [by eapply tail_left_mono|done|done|unfold Tn, count in *; lia|]. simpl. rewrite learn_eq. lia.
Qed.

(** *** Steps that change a block *)

(** A change of a block with elements, of nothing the producer stores to. *)
Lemma shared_taken m' a k :
  vis m !! k = Some a -> Kn m <= k -> confined m m' a -> block_ok m' (elems g a) a -> privates m' ->
  (forall l t, count m' l = 0 -> reads m' t l = 0) ->
  (forall l, owner l = Producer -> msgs m' l = msgs m l) -> (Kn m < k -> msgs m' (Front a) = msgs m (Front a)) ->
  shared m' g.
Proof.
  intros Ha Hk Hc Hb Hp Hu Ho HF. pose proof front_left as Hl.
  assert (Tn m' a = Tn m a) as ET by (unfold Tn, count; by rewrite Ho).
  apply (shared_confined m m' g g a); try done.
  - intros k' Hk' Ha'. pose proof (vis_index m g Hsh k k' a ltac:(lia) ltac:(lia) Ha Ha'). lia.
  - intros k' Hk' Ha' Hq. unfold quiet, full_view, count. rewrite ET, !Ho by done. done.
  - intros k' Hk' Ha' HFT Hpe Hpt. assert (k' = k) as -> by (eapply (vis_index m g Hsh); [lia|lia|done|done]).
    assert (Fn m' a = Fn m a) as EF by (unfold Fn, count; rewrite HF by lia; done).
    rewrite EF, ET. split; [done|]. unfold entered, cell_known, passes, cell. rewrite (confined_sz _ _ _ Hc), EF, !Ho by done. done.
Qed.

Lemma privates_read l : (forall a, l <> LocalFront a) -> l <> LargestBlockSize -> privates (note_read Consumer l m).
Proof.
  intros H1 H2. destruct (s_private _ _ Hsh) as [Hp HL]. split.
  - intros a. destruct (Hp a) as (E1 & E2 & E3). simpl. rewrite put_eq, !(put_ne Consumer Producer) by done.
    split; [done|]. split; [done|]. by rewrite put_ne by (by apply not_eq_sym).
  - simpl. rewrite put_eq. by rewrite put_ne by (by apply not_eq_sym).
Qed.

Lemma unread_read l : 1 <= count m l -> forall l' t, count (note_read Consumer l m) l' = 0 -> reads (note_read Consumer l m) t l' = 0.
Proof.
  intros Hc l' t Hl'. change (count (note_read Consumer l m) l') with (count m l') in Hl'.
  pose proof (s_unread _ _ Hsh l' t Hl') as E. simpl. unfold put. case_decide; [subst|done]. case_decide; [subst; lia|done].
Qed.

Lemma shared_read l :
  block_of l = Some f -> (forall a, l <> LocalFront a) -> 1 <= count m l ->
  block_ok (note_read Consumer l m) (elems g f) f -> shared (note_read Consumer l m) g.
Proof.
  intros Hl Hn Hc Hb. apply (shared_taken _ f (Kn m)); try done.
  - apply (c_front _ _ _ Hok).
  - by apply confined_read.
  - apply privates_read; [done|]. by intros ->.
  - by apply unread_read.
Qed.

Lemma consumer_ok_read l :
  consumer_ok (note_read Consumer l m) (did (R Consumer l) (S (reads m Consumer l)) w) f.
Proof.
  destruct (consumer_ok_mono m w (did (R Consumer l) (S (reads m Consumer l)) w) f Hok) as [H1 H2 H3 H4 H5 H6 H7]; [apply did_below..|].
  split; try done. intros l'. simpl. rewrite put_eq. unfold put. case_decide as El; [subst; rewrite learn_eq; lia|].
  rewrite learn_ne by congruence. apply (c_reads _ _ _ Hok).
Qed.

(** A read of the front block. *)
Lemma c_read l v k choice :
  block_of l = Some f -> (forall a, l <> LocalFront a) -> valid m l = true -> is_atomic l = false ->
  1 <= count m l <= cur w (W l) -> last (vals m l) = Some v -> block_ok (note_read Consumer l m) (elems g f) f ->
  cpoint (note_read Consumer l m) g (did (R Consumer l) (S (reads m Consumer l)) w) f (k v) ->
  after (exec Consumer choice (Read l) m w) (c_post k).
Proof.
  intros Hl Hn Hv Ha Hc Hla Hb Hp. pose proof (known_bounded _ _ Hwf Consumer l).
  apply (read_after Consumer l v); [done|done|lia|done|]. split; [by eapply consumed_read; [|apply front_visited]|].
  split; [apply shared_read; try done; lia|]. exists f. split; [apply consumer_ok_read|].
  destruct (cpoint_step _ _ _ _ Hp) as (o & k' & E). rewrite E in *. done.
Qed.

Lemma c_block_ok choice :
  after (exec Consumer choice (Read (LocalTail f)) m w) (c_post (fun v => resume try_dequeue [f; v])).
Proof.
  pose proof (c_own _ _ _ Hok) as (_ & _ & H3). pose proof (b_rest _ _ _ front_ok) as (_ & _ & Hc).
  destruct (last (vals m (LocalTail f))) as [v|] eqn:E.
  - apply (c_read (LocalTail f) v); try done; [by eapply ring_field; [|apply front_in_ring|]|by apply (noted_ok _ _ _ front_ok)|by apply C_localTail].
  - apply last_None in E. rewrite <- vals_length, E in Hc. simpl in Hc. lia.
Qed.

Lemma c_take_ok choice :
  take_ready m w f ->
  after (exec Consumer choice (Read (cell m f (Fn m f))) m w)
    (c_post (fun v => resume (take_element f (Z.of_nat (Fn m f mod sz m f))) [v])).
Proof.
  intros [Hah Hk]. pose proof (ahead_less _ _ Hah) as HFT. pose proof (b_counts _ _ _ front_ok) as Hn.
  destruct (lookup_lt_is_Some_2 (elems g f) (Fn m f)) as [x Hx]; [lia|].
  pose proof (cell_count m _ f front_ok (Fn m f) ltac:(lia) ltac:(lia)) as Hc. unfold cell_known in Hk.
  apply (c_read _ x); try done.
  - by eapply cell_valid, front_ok.
  - lia.
  - apply (cell_last m (elems g f) f); [by apply front_ok|done|lia].
  - by apply take_read_ok; [apply front_ok|].
  - apply (C_taken (note_read Consumer (cell m f (Fn m f)) m)); [|done].
    eapply ahead_mono; [|exact Hah]. apply learn_l.
Qed.

Lemma c_taken_ok choice x :
  ahead m f (cur w) -> elems g f !! Fn m f = Some x ->
  after (exec Consumer choice (Read (SizeMask f)) m w)
    (c_post (fun v => resume (take_element f (Z.of_nat (Fn m f mod sz m f))) [x; v])).
Proof.
  intros HFT Hx. pose proof (c_known _ _ _ Hok) as (H1 & _). pose proof (b_mask _ _ _ front_ok) as Hm.
  assert (count m (SizeMask f) = 1) as Hc by (by rewrite <- vals_length, Hm).
  apply (c_read (SizeMask f) (Z.of_nat (sz m f) - 1)%Z); try done.
  - by eapply ring_field; [|apply front_in_ring|].
  - lia.
  - by rewrite Hm.
  - by apply (noted_ok _ _ _ front_ok).
  - apply (C_masked (note_read Consumer (SizeMask f) m)); [|done].
    eapply ahead_mono; [|exact HFT]. apply learn_l.
Qed.

(** The queue holds the same elements. *)
Lemma fview_same m' :
  vis m' = vis m -> Kn m' = Kn m -> (forall a, Fn m' a = Fn m a) -> (forall a, Tn m' a = Tn m a) -> fview m' g = fview m g.
Proof.
  intros Ev EK EF ET. unfold fview. rewrite Ev, EK. f_equal. apply map_ext. intros a. unfold items. by rewrite EF, ET.
Qed.

(** A write of [localTail], of the front block or of the next one. *)
Lemma c_localTail_write a k v p choice :
  vis m !! k = Some a -> Kn m <= k <= Mn m -> count m (LocalTail a) <= cur w (W (LocalTail a)) ->
  (a = f -> exists i, v = Z.of_nat (i mod sz m f) /\ Fn m f <= i <= Tn m f /\ S i <= acq w (W (Tail f))) ->
  (let m' := push (LocalTail a) (v, just (W (LocalTail a)) (S (count m (LocalTail a)))) m in
   let w' := did (W (LocalTail a)) (S (count m (LocalTail a))) w in
   below (cur w) (cur w') -> below (acq w) (acq w') -> cpoint m' g w' f (p 0%Z)) ->
  after (exec Consumer choice (Write (LocalTail a) v) m w) (c_post p).
Proof.
  intros Ha Hk Hc Hi Hp. pose proof front_left as Hl. pose proof (known_bounded _ _ Hwf Consumer (LocalTail a)) as Hb.
  destruct (did_below (W (LocalTail a)) (S (count m (LocalTail a))) w) as [B1 B2].
  assert (a ∈ ring m g) as Hr by (apply (vis_in_ring m g k); [lia|done]).
  assert (privates m) as Hpr by apply (s_private _ _ Hsh).
  apply write_after; [by eapply ring_field|lia| |done|].
  { change (reads m Producer (LocalTail a) <= cur w (R Producer (LocalTail a))). rewrite (proj1 (proj1 Hpr a)). lia. }
  set (x := (v, just (W (LocalTail a)) (S (count m (LocalTail a))))) in *.
  set (w' := did (W (LocalTail a)) (S (count m (LocalTail a))) w) in *. specialize (Hp B1 B2). split; [|split].
  - apply consumed_push; [done|]. intros b [= <-]. by apply (visited k); [lia|].
  - apply (shared_taken _ a k); try done.
    + lia.
    + by apply confined_push.
    + apply local_push_ok; [|by left]. by apply (ring_ok _ _ Hsh).
    + apply unread_push, Hsh.
    + intros l Ho. simpl. apply put_ne. by intros ->.
  - exists f. assert (fview (push (LocalTail a) x m) g = fview m g) as E.
    { apply fview_same; [by apply vals_push_ne|by unfold Kn; rewrite count_push_ne| |]; intros b; [by apply Fn_push|by apply Tn_push]. }
    split; [|destruct (cpoint_step _ _ _ _ Hp) as (o & k' & Ek); by rewrite Ek in *].
    destruct (consumer_ok_mono m w w' f Hok B1 B2) as [H1 H2 H3 H4 H5 H6 H7].
    assert (vis (push (LocalTail a) x m) = vis m) as Ev by by apply vals_push_ne.
    assert (forall b, count (push (LocalTail a) x m) (LocalTail b) <= Nat.max (count m (LocalTail b)) (cur w' (W (LocalTail b)))) as Hlt.
    { intros b. rewrite count_push. case_decide as Eb; [injection Eb as ->|lia]. simpl. rewrite learn_eq. lia. }
    split; rewrite ?Ev; unfold Kn, Mn; rewrite ?count_push_ne, ?Fn_push, ?Tn_push, ?sz_push by done; try done.
    + pose proof (Hlt f). lia.
    + rewrite vals_push. case_decide as Ea; [injection Ea as <-|done]. rewrite last_snoc.
      destruct (Hi eq_refl) as (i & -> & Hi1 & Hi2). exists i. specialize (B2 (W (Tail f))). split; [done|]. split; [done|lia].
    + intros k' b Hk' Hv. rewrite passes_push_ne, count_push_ne by done. eapply passes_impl; [|by apply (H7 k' b)].
      intros V. cbv beta. pose proof (Hlt b). lia.
Qed.

Lemma c_tail_ok choice i :
  Fn m f <= i <= Tn m f -> cur w (W (Tail f)) = S i ->
  after (exec Consumer choice (Write (LocalTail f) (Z.of_nat (i mod sz m f))) m w)
    (c_post (fun v => resume (check_tail f (Z.of_nat (Fn m f mod sz m f))) [Z.of_nat (i mod sz m f); v])).
Proof.
  intros Hi Ht. pose proof (wf_cur _ _ Hwf Consumer (W (Tail f))) as Hca. pose proof (Kn_le_Mn _ _ Hsh) as [HKM _].
  pose proof (b_counts _ _ _ front_ok) as Hn.
  apply (c_localTail_write f (Kn m)); [apply (c_front _ _ _ Hok)|lia|apply (c_own _ _ _ Hok)|intros _; exists i; split_and!; [done|lia..]|].
  intros m' w' B1 B2. cbn [resume check_tail].
  destruct (Z.eqb_spec (Z.of_nat (Fn m f mod sz m f)) (Z.of_nat (i mod sz m f))) as [E|E]; simpl.
  - apply Nat2Z.inj, mod_close in E; [|lia|lia]. apply C_tailBlock. simpl. rewrite learn_ne by done.
    unfold m'. rewrite Fn_push by done. lia.
  - assert (Fn m f <> i) by congruence. replace (Fn m f) with (Fn m' f) by (by apply Fn_push).
    replace (sz m f) with (sz m' f) by done. apply C_nonempty. exists i. unfold m'.
    rewrite Fn_push, Tn_push, vals_push_eq, last_snoc by done. specialize (B2 (W (Tail f))). split; [done|lia].
Qed.

Lemma tail_left_push a x (w' : views var) :
  below (cur w) (cur w') -> tail_left m w -> tail_left (push (LocalTail a) x m) w'.
Proof.
  intros Hc Hl. destruct (tail_left_mono _ Hc Hl) as [H1 H2]. unfold tail_left, Kn, Mn in *.
  rewrite !count_push_ne, passes_push_ne by done. done.
Qed.

Lemma c_again_write_ok choice :
  tail_left m w -> S (Tn m f) <= cur w (W (Tail f)) ->
  after (exec Consumer choice (Write (LocalTail f) (Z.of_nat (Tn m f mod sz m f))) m w)
    (c_post (fun v => resume look_again [0%Z; f; Z.of_nat (Tn m f mod sz m f); v])).
Proof.
  intros Hl Ht. pose proof (wf_cur _ _ Hwf Consumer (W (Tail f))) as Hca. pose proof (b_counts _ _ _ front_ok) as Hn.
  pose proof (Kn_le_Mn _ _ Hsh) as [HKM _].
  apply (c_localTail_write f (Kn m)); [apply (c_front _ _ _ Hok)|lia|apply (c_own _ _ _ Hok)| |].
  { intros _. exists (Tn m f). split; [done|lia]. }
  intros m' w' B1 B2. assert (Tn m' f = Tn m f) as ET by by apply Tn_push.
  rewrite <- ET. change (sz m f) with (sz m' f). apply C_again_front; [by apply tail_left_push| |].
  - rewrite ET. specialize (B1 (W (Tail f))). lia.
  - unfold m'. rewrite vals_push_eq, last_snoc. by rewrite Tn_push.
Qed.

Lemma c_next_write_ok choice n i :
  tail_left m w -> Fn m f = Tn m f -> vis m !! S (Kn m) = Some n -> Fn m n < i <= Tn m n -> S i <= cur w (W (Tail n)) ->
  after (exec Consumer choice (Write (LocalTail n) (Z.of_nat (i mod sz m n))) m w)
    (c_post (fun v => resume (next_block f) [n; Z.of_nat (Fn m n mod sz m n); Z.of_nat (i mod sz m n); v])).
Proof.
  intros Hl He Hn Hi Ht. pose proof (wf_cur _ _ Hwf Consumer (W (Tail n))) as Hca.
  destruct (next_known n Hl Hn) as (_ & Hc & _). pose proof (next_not_front n Hn) as Hne.
  pose proof (proj1 Hl) as HKM.
  apply (c_localTail_write n (S (Kn m))); [done|lia|lia|done|].
  intros m' w' B1 B2. assert (Fn m' n = Fn m n) as EF by by apply Fn_push.
  rewrite <- EF. change (sz m n) with (sz m' n). apply C_next_fence; [by apply tail_left_push|unfold m'; by rewrite Fn_push, Tn_push| |].
  - unfold m', next_ready, vis, Kn. rewrite vals_push_ne, count_push_ne by done. split; [done|]. exists i.
    rewrite vals_push_eq, last_snoc, Fn_push, Tn_push by done. specialize (B2 (W (Tail n))). split; [done|lia].
  - unfold m'. by rewrite Fn_push, Tn_push.
Qed.

(** The blocks behind the front block. *)
Lemma later_blocks a : a ∈ drop (S (Kn m)) (vis m) -> exists k, Kn m < k <= Mn m /\ vis m !! k = Some a /\ a <> f.
Proof.
  intros (i & Hi)%list_elem_of_lookup. rewrite lookup_drop in Hi. exists (S (Kn m) + i).
  apply lookup_lt_Some in Hi as Hlt. rewrite (vis_length _ _ Hsh) in Hlt. split; [lia|]. split; [done|]. intros ->.
  pose proof front_left. pose proof (vis_index m g Hsh (S (Kn m) + i) (Kn m) f ltac:(lia) ltac:(lia) Hi (c_front _ _ _ Hok)). lia.
Qed.

Lemma fview_split m' g' :
  vis m' = vis m -> Kn m' = Kn m -> (forall a, a <> f -> items m' g' a = items m g a) ->
  fview m' g' = items m' g' f ++ concat (map (items m g) (drop (S (Kn m)) (vis m))).
Proof.
  intros Ev EK Hi. unfold fview. rewrite Ev, EK, (drop_S _ f) by apply (c_front _ _ _ Hok). simpl. do 2 f_equal.
  apply map_ext_in. intros a Ha%list_elem_of_In. destruct (later_blocks a Ha) as (k & _ & _ & Hne). auto.
Qed.

(** An element leaves the queue. *)
Lemma c_release_ok choice x :
  ahead m f (cur w) -> elems g f !! Fn m f = Some x -> freed m f (rel w) ->
  after (exec Consumer choice (Store (Front f) (Z.land (u64 (Z.of_nat (Fn m f mod sz m f) + 1)) (Z.of_nat (sz m f) - 1))) m w)
    (c_post (fun _ => Ret (Some x))).
Proof.
  intros Hah Hx (HrF & HrL & HrR). pose proof (b_size _ _ _ front_ok) as Hs. rewrite (index_step _ _ Hs).
  pose proof (c_own _ _ _ Hok) as (_ & H2 & _). pose proof (b_front _ _ _ front_ok) as [Hc _]. pose proof (known_bounded _ _ Hwf Consumer (Front f)).
  pose proof (ahead_less _ _ Hah) as HFT.
  apply store_after; [by eapply ring_field; [|apply front_in_ring|]|done|done|lia|lia|].
  destruct (did_below (W (Front f)) (S (count m (Front f))) w) as [B1 B2].
  set (V := learn (W (Front f)) (S (count m (Front f))) (rel w)). set (m' := push _ _ m). set (w' := did _ _ w) in *.
  assert (vis m' = vis m) as Ev by by apply vals_push_ne.
  assert (Kn m' = Kn m) as EK by (unfold Kn, m'; by rewrite count_push_ne).
  assert (Fn m' f = S (Fn m f)) as EF by (unfold Fn, m'; rewrite count_push_eq; lia).
  assert (forall a, Tn m' a = Tn m a) as ET by (intros; by apply Tn_push).
  assert (forall a, a <> f -> Fn m' a = Fn m a) as EFn by (intros; apply Fn_push; congruence).
  split; [|split; [|exists f; split]].
  - apply consumed_push; [done|]. intros b [= <-]. apply front_visited.
  - apply (shared_taken _ f (Kn m)); try done.
    + apply (c_front _ _ _ Hok).
    + by apply confined_push.
    + apply front_push_ok; [apply front_ok|done|done|]. unfold V. etransitivity; [apply HrR|apply learn_l].
    + apply (s_private _ _ Hsh).
    + apply unread_push, Hsh.
    + intros l Ho. simpl. apply put_ne. by intros ->.
    + lia.
  - destruct (consumer_ok_mono m w w' f Hok B1 B2) as [I1 I2 I3 I4 I5 I6 I7].
    split; rewrite ?Ev, ?EK, ?EF, ?ET; try done.
    + unfold m'. rewrite count_push_eq, !count_push_ne by done. split; [apply I2|]. split; [|apply I2].
      simpl. rewrite learn_eq. lia.
    + split; [apply I3|]. split; [|apply I3]. destruct Hah as (i & _ & Hi). specialize (B1 (W (Tail f))). lia.
    + destruct Hah as (i & Hi1 & Hi2 & Hi3). exists i. unfold m'. rewrite vals_push_ne by done. split; [done|].
      specialize (B1 (W (Tail f))). pose proof (wf_cur _ _ Hwf Consumer (W (Tail f))). specialize (B2 (W (Tail f))). lia.
    + intros e He. unfold m'. rewrite passes_push_ne by done. apply (I6 e). lia.
    + unfold Mn, m'. rewrite count_push_ne by done. intros k a Hk Ha. pose proof front_left.
      assert (a <> f) by (intros ->; pose proof (vis_index m g Hsh k (Kn m) f ltac:(lia) ltac:(lia) Ha (c_front _ _ _ Hok)); lia).
      rewrite passes_push_ne, !count_push_ne by congruence. by apply (I7 k a).
  - rewrite (fview_split m' g Ev EK), (fview_split m g eq_refl eq_refl);
      [|done|intros a Ha; unfold items; by rewrite EFn, ET].
    unfold items. rewrite EF, ET, (drop_S _ x (Fn m f)); [done|]. by rewrite lookup_take_lt.
Qed.

(** The front block is left. *)
Section advance.
Context (n : Z) (Hl : tail_left m w) (He : Fn m f = Tn m f) (Hn : vis m !! S (Kn m) = Some n).
Context (V : view var) (HV : freed m f V).
Let m' := push FrontBlock (n, V) m.

Lemma advance_same a : same_block m m' a.
Proof. split; [done|]. intros l Hb. simpl. rewrite put_ne; [done|]. by intros ->. Qed.

Lemma advance_vis : vis m' = vis m.
Proof. by apply vals_push_ne. Qed.
Lemma advance_Kn : Kn m' = S (Kn m).
Proof. unfold Kn, m'. rewrite count_push_eq. pose proof (s_front _ _ Hsh). lia. Qed.
Lemma advance_Mn : Mn m' = Mn m.
Proof. unfold Mn, m'. by rewrite count_push_ne. Qed.

Lemma shared_advance : shared m' g.
Proof.
  pose proof advance_vis as Ev. pose proof advance_Kn as EK. pose proof advance_Mn as EM. pose proof (proj2 (left_full Hl)) as Hq.
  assert (ring m' g = ring m g) as Er by (unfold ring; by rewrite Ev).
  assert (count m FrontBlock = S (Kn m)) as Ec by (unfold Kn; pose proof (s_front _ _ Hsh); lia).
  destruct Hsh as [H1 H2 H3 H4 H5 H6 H7 H8 H9 H10 H11]. split; rewrite ?Er, ?Ev, ?EK, ?EM; try done.
  - unfold m'. rewrite count_push_eq, vals_push_eq. destruct H1 as (H0 & E & Hlt). simpl. split; [lia|].
    rewrite E, (take_S_r _ (S (Kn m)) n) by done. split; [done|]. by apply lookup_lt_Some in Hn.
  - lia.
  - intros a Ha. eapply same_block_ok; [apply advance_same|auto].
  - apply unread_push, H7.
  - intros l a Hb Hh. unfold m'. rewrite count_push_ne by (by intros ->). by apply (H8 l a).
  - intros k a Hk Ha. pose proof (advance_same a) as Hs. destruct (decide (k = Kn m)) as [->|].
    + rewrite (c_front _ _ _ Hok) in Ha. injection Ha as <-. split; [by apply (same_empty _ _ _ Hs)|].
      rewrite <- Ec. apply passes_push_new. by apply (same_freed _ _ _ Hs).
    + destruct (H9 k a ltac:(lia) Ha) as [E1 E2]. split; [by apply (same_empty _ _ _ Hs)|].
      apply passes_push_old; [lia|]. eapply passes_impl; [|exact E2]. intros U. by apply same_freed.
  - intros k a Hk Ha. pose proof (advance_same a) as Hs. destruct (H10 k a ltac:(lia) Ha) as [E1 E2].
    unfold quiet. rewrite (same_Tn _ _ _ Hs). split; [done|]. apply passes_push_ne; [done|].
    eapply passes_impl; [|exact E2]. intros U. by apply same_full_view.
  - intros k a Hk Ha. pose proof (advance_same a) as Hs. destruct (H11 k a ltac:(lia) Ha) as (E1 & E2 & E3).
    rewrite (same_Fn _ _ _ Hs), (same_Tn _ _ _ Hs). split; [done|]. split.
    + apply passes_push_ne; [done|]. eapply passes_impl; [|exact E2]. intros U. by apply same_entered.
    + intros e Hee. apply passes_push_ne; [done|]. eapply passes_impl; [|by apply E3]. intros U. by apply same_cell_known.
Qed.

Lemma fview_advance : fview m' g = fview m g.
Proof.
  unfold fview. rewrite advance_vis, advance_Kn, (drop_S _ f (Kn m)) by apply (c_front _ _ _ Hok). simpl.
  unfold items at 2. rewrite He, skipn_firstn_comm, Nat.sub_diag. done.
Qed.

Lemma consumer_advance :
  ahead m n (cur w) -> let w' := did (W FrontBlock) (S (count m FrontBlock)) w in
  consumer_ok m' w' n /\ take_ready m' w' n.
Proof.
  intros Hah w'. destruct (did_below (W FrontBlock) (S (count m FrontBlock)) w) as [B1 B2].
  fold w' in B1, B2. pose proof (advance_same n) as Hs. destruct (next_known n Hl Hn) as (N1 & N2 & (N3 & N4 & N5) & N6).
  pose proof Hl as [HK Hp]. destruct (s_later _ _ Hsh (S (Kn m)) n ltac:(lia) Hn) as (_ & _ & Hcells).
  destruct (lookup_lt_is_Some_2 (msgs m TailBlock) (S (Kn m))) as [[v U] Hm].
  { pose proof (Kn_le_Mn _ _ Hsh) as [_ E]. unfold count in E. lia. }
  pose proof (proj1 (wf_msg _ _ Hwf _ _ _ _ Hm)) as HU. pose proof (Hp v U Hm (W TailBlock)) as HUw.
  destruct (consumer_ok_mono m w w' f Hok B1 B2) as [I1 I2 I3 I4 I5 I6 I7].
  assert (forall x, cur w x <= cur w' x) as Hx by (intros x; apply B1). pose proof (fun x => wf_cur _ _ Hwf Consumer x) as Hca.
  assert (ahead m' n (cur w')) as Hah'.
  { destruct Hah as (i & Hi1 & Hi2 & Hi3). exists i. rewrite (same_vals _ _ _ Hs), (same_Fn _ _ _ Hs), (same_Tn _ _ _ Hs) by done.
    pose proof (Hx (W (Tail n))). split; [done|]. split; [done|lia]. }
  split; [|split; [done|]].
  - split; rewrite ?advance_Kn, ?advance_vis, ?advance_Mn, ?(same_Fn _ _ _ Hs), ?(same_Tn _ _ _ Hs); try done.
    + unfold m'. rewrite count_push_eq, !count_push_ne by done. pose proof (Hx (W (Front n))). pose proof (Hx (W (LocalTail n))).
      split; [simpl; rewrite learn_eq; lia|]. lia.
    + pose proof (Hx (W (SizeMask n))). pose proof (Hx (W (Tail n))). pose proof (Hx (W TailBlock)). lia.
    + destruct Hah as (i & Hi1 & Hi2 & Hi3). exists i. rewrite (same_vals _ _ _ Hs) by done. split; [done|].
      specialize (B2 (W (Tail n))). specialize (Hca (W (Tail n))). simpl in *. lia.
    + intros e Hee. destruct (decide (e = Fn m n)) as [->|].
      * left. apply (same_cell_known _ _ _ Hs). by eapply cell_known_mono.
      * right. apply passes_push_ne; [done|]. eapply passes_impl; [|apply (Hcells e); lia]. intros U'. by apply same_cell_known.
    + intros k a Hk Ha. apply passes_push_ne; [done|]. unfold m'. rewrite !count_push_ne by done. apply (I7 k a); [lia|done].
  - rewrite (same_Fn _ _ _ Hs). apply (same_cell_known _ _ _ Hs). by eapply cell_known_mono.
Qed.
End advance.

Lemma c_advance_store_ok choice n :
  tail_left m w -> Fn m f = Tn m f -> next_ready m n (cur w) -> freed m f (rel w) ->
  after (exec Consumer choice (Store FrontBlock n) m w)
    (c_post (fun v => resume (advance n (Z.of_nat (Fn m n mod sz m n))) [0%Z; v])).
Proof.
  intros Hl He [Hn Hah] Hfr. pose proof (c_own _ _ _ Hok) as (H1 & _). pose proof (s_front _ _ Hsh) as (Hc & _).
  pose proof (known_bounded _ _ Hwf Consumer FrontBlock). set (V := learn (W FrontBlock) (S (count m FrontBlock)) (rel w)).
  assert (freed m f V) as HV by (eapply freed_mono; [apply learn_l|done]).
  apply store_after; [done|done|done|lia|lia|]. destruct (consumer_advance n Hl He Hn V Hah) as [Hok' Ht].
  split; [by apply consumed_push|]. split; [by apply shared_advance|]. exists n. split; [done|].
  split; [by apply fview_advance|]. assert (Fn (push FrontBlock (n, V) m) n = Fn m n) as <- by by apply Fn_push.
  exact (C_advanced _ g _ n Ht).
Qed.

(** ** All steps of [try_dequeue] *)
Lemma consumer_step choice o k :
  cpoint m g w f (Step o k) -> after (exec Consumer choice o m w) (c_post k).
Proof.
  inversion 1; subst.
  - apply c_start_ok.
  - apply c_block_ok.
  - by apply (c_localTail_ok choice v).
  - apply c_check_ok.
  - by apply (c_tail_ok choice i).
  - by apply c_tailBlock_ok.
  - by apply c_nonempty_ok.
  - by apply c_take_ok.
  - by apply (c_taken_ok choice x).
  - by apply (c_masked_ok choice x).
  - by apply (c_release_ok choice x).
  - by apply c_again_ok.
  - by apply c_again_block_ok.
  - by apply c_again_tail_ok.
  - by apply c_again_write_ok.
  - by apply c_again_front_ok.
  - by apply c_again_fence_ok.
  - by apply c_next_ok.
  - by apply (c_next_front_ok choice n).
  - by apply (c_next_tail_ok choice n).
  - by apply (c_next_write_ok choice n i).
  - by apply (c_next_fence_ok choice n i).
  - by apply (c_advance_ok choice n).
  - by apply (c_advance_store_ok choice n).
  - by apply c_advanced_ok.
Qed.
End consumer.
