(* ===== verification/SpscWeakProducer.v ===== *)
(** * The producer on relaxed memory

    The points of [inner_enqueue], what the producer knows there, that the consumer
    does not disturb it, and the producer's accesses: none is a race, and each keeps
    the invariant. *)
From S2P Require Import Prelude Spsc WeakMem SpscWeak SpscWeakInv SpscWeakConsumer.

Local Open Scope nat_scope.

(** The values that a list of writes leaves in a variable that had none. *)
Definition written (l : var) (log : list (var * Z)) : list Z := (filter (fun e => e.1 = l) log).*2.

Lemma written_cons l l' v log : written l ((l', v) :: log) = (if decide (l' = l) then [v] else []) ++ written l log.
Proof. unfold written. rewrite filter_cons. simpl. by case_decide. Qed.
Lemma written_snoc l l' v log : written l (log ++ [(l', v)]) = written l log ++ (if decide (l' = l) then [v] else []).
Proof. unfold written. rewrite filter_app, fmap_app, filter_cons. simpl. by case_decide. Qed.

Section points.
Context (m : memory var) (g : ghost) (w : views var) (t : Z) (canAlloc : bool) (x : ptr).

Notation tail_value := (Z.of_nat (Tn m t mod sz m t)).
Notation next_value := (Z.of_nat (S (Tn m t) mod sz m t)).
Notation front_of n := (Z.of_nat (Fn m n mod sz m n)).
Notation mask_of n := (Z.of_nat (sz m n) - 1)%Z.

(** A front that the producer has seen, not too far behind. *)
Definition seen_front (lf : nat) : Prop := lf <= Fn m t /\ Tn m t < lf + sz m t /\ S lf <= cur w (W (Front t)).
(** It is the one in [localFront]. *)
Definition known_front (lf : nat) : Prop := last (vals m (LocalFront t)) = Some (Z.of_nat (lf mod sz m t)) /\ seen_front lf.
Definition room (lf : nat) : Prop := known_front lf /\ S (Tn m t) < lf + sz m t.
(** An element is in block [n] that has not been published. *)
Definition pending (n : Z) : Prop := length (elems g n) = S (Tn m n) /\ elems g n !! Tn m n = Some x.
(** A free block. *)
Definition next_free (n : Z) (rest : list Z) : Prop := spare g = n :: rest /\ freed m n (cur w) /\ empty m (elems g n) n.
(** It holds the element, and the producer alone knows. *)
Definition filled (n : Z) : Prop :=
  Tn m n = S (Fn m n) /\ quiet m (elems g n) n /\ elems g n !! Fn m n = Some x /\ freed m n (cur w) /\
  last (vals m (LocalFront n)) = Some (front_of n).
(** A new block, with what has been written there. *)
Record made (n : Z) (size : Z) (log : list (var * Z)) : Prop := {
  m_heap : heap m !! n = Some size /\ n <> NULL;
  m_size : exists k, 1 <= k <= 10 /\ size = (2 ^ Z.of_nat k)%Z;
  m_new : n ∉ ring m g;
  m_vals : forall l, block_of l = Some n -> vals m l = written l log;
  m_known : forall l, block_of l = Some n -> count m l <= cur w (W l) /\ reads m Consumer l = 0
}.
Definition new_log (n size : Z) : list (var * Z) := make_block n size ++ [(LargestBlockSize, size); (Cell n 0, x)].

(** The points, with the number of elements in the tail block that are not yet
    published and the free blocks that have not been touched. *)
Inductive ppoint : nat -> list Z -> program bool -> Prop :=
| P_start : ppoint 0 (spare g) (inner_enqueue canAlloc x)
| P_block : ppoint 0 (spare g) (resume (inner_enqueue canAlloc x) [t])
| P_localFront lf : known_front lf -> ppoint 0 (spare g) (resume (inner_enqueue canAlloc x) [t; Z.of_nat (lf mod sz m t)])
| P_tail lf : known_front lf ->
    ppoint 0 (spare g) (resume (inner_enqueue canAlloc x) [t; Z.of_nat (lf mod sz m t); tail_value])
| P_recheck : ppoint 0 (spare g) (enqueue_recheck canAlloc x t tail_value next_value)
| P_front lf : seen_front lf ->
    ppoint 0 (spare g) (resume (enqueue_recheck canAlloc x t tail_value next_value) [Z.of_nat (lf mod sz m t)])
(* there is room in the tail block *)
| P_here lf : room lf -> ppoint 0 (spare g) (enqueue_here x t tail_value next_value)
| P_write lf : room lf -> closed m (Front t) (cur w) ->
    ppoint 0 (spare g) (resume (enqueue_here x t tail_value next_value) [0%Z])
| P_written lf : pending t -> room lf -> ppoint 1 (spare g) (resume (enqueue_here x t tail_value next_value) [0; 0]%Z)
| P_publish lf : pending t -> room lf -> cell_known m t (Tn m t) (rel w) ->
    ppoint 1 (spare g) (resume (enqueue_here x t tail_value next_value) [0; 0; 0]%Z)
(* the tail block is full *)
| P_full : ppoint 0 (spare g) (enqueue_full canAlloc x t)
| P_full_next : ppoint 0 (spare g) (resume (enqueue_full canAlloc x t) [0%Z])
| P_full_front nx : head (spare g ++ take 1 (drop (left g) (vis m))) = Some nx ->
    ppoint 0 (spare g) (resume (enqueue_full canAlloc x t) [0%Z; nx])
(* the next block is free *)
| P_next n rest : spare g = n :: rest -> ppoint 0 (spare g) (enqueue_next x t)
| P_next_link n rest : next_free n rest -> ppoint 0 (spare g) (resume (enqueue_next x t) [0%Z])
| P_next_front n rest : next_free n rest -> ppoint 0 (spare g) (resume (enqueue_next x t) [0%Z; n])
| P_next_write n rest : next_free n rest -> ppoint 0 (spare g) (resume (enqueue_next x t) [0%Z; n; front_of n])
| P_next_tail n rest : next_free n rest -> ppoint 0 (spare g) (resume (enqueue_next x t) [0%Z; n; front_of n; 0%Z])
| P_next_fence n rest : next_free n rest ->
    ppoint 0 (spare g) (resume (enqueue_next x t) [0%Z; n; front_of n; 0%Z; Z.of_nat (Tn m n mod sz m n)])
| P_fill n rest : next_free n rest ->
    ppoint 0 (spare g) (fill_next_block x n (front_of n) (Z.of_nat (Tn m n mod sz m n)))
| P_fill_cell n rest : next_free n rest -> last (vals m (LocalFront n)) = Some (front_of n) ->
    ppoint 0 (spare g) (resume (fill_next_block x n (front_of n) (Z.of_nat (Tn m n mod sz m n))) [0%Z])
| P_fill_mask n rest : spare g = n :: rest -> pending n -> Fn m n = Tn m n -> freed m n (cur w) ->
    last (vals m (LocalFront n)) = Some (front_of n) ->
    ppoint 0 rest (resume (fill_next_block x n (front_of n) (Z.of_nat (Tn m n mod sz m n))) [0; 0]%Z)
| P_fill_tail n rest : spare g = n :: rest -> pending n -> Fn m n = Tn m n -> freed m n (cur w) ->
    last (vals m (LocalFront n)) = Some (front_of n) ->
    ppoint 0 rest (resume (fill_next_block x n (front_of n) (Z.of_nat (Tn m n mod sz m n))) [0; 0; mask_of n]%Z)
(* a block with the element is linked behind the tail block *)
| P_link n rest : spare g = n :: rest -> filled n ->
    ppoint 0 rest (Fence memory_order_release ;; Store TailBlock n ;; Ret true)
| P_link_store n rest : spare g = n :: rest -> filled n ->
    (forall l, owner l = Producer -> count m l <= rel w (W l)) -> freed m n (rel w) ->
    ppoint 0 rest (Store TailBlock n ;; Ret true)
(* a block is made *)
| P_new : spare g = [] -> ppoint 0 [] (enqueue_new x t)
| P_new_size k : spare g = [] -> 1 <= k <= 10 -> last (vals m LargestBlockSize) = Some (2 ^ Z.of_nat k)%Z ->
    ppoint 0 [] (resume (enqueue_new x t) [2 ^ Z.of_nat k]%Z)
| P_new_write n size i : spare g = [] -> made n size (take i (new_log n size)) -> i < 8 ->
    ppoint 0 [] (write_all (drop i (new_log n size)) (check_new_block t n))
| P_new_check n size : spare g = [] -> made n size (new_log n size) -> ppoint 0 [] (check_new_block t n)
| P_new_local n size : spare g = [] -> made n size (new_log n size) -> ppoint 0 [] (link_block t n)
| P_new_tail n size : spare g = [] -> made n size (new_log n size ++ [(LocalTail n, 1%Z)]) ->
    ppoint 0 [] (resume (link_block t n) [0%Z])
| P_new_next n size : spare g = [] -> made n size (new_log n size ++ [(LocalTail n, 1%Z); (Tail n, 1%Z)]) ->
    ppoint 0 [] (resume (link_block t n) [0; 0]%Z)
| P_new_own n size nx : spare g = [] -> made n size (new_log n size ++ [(LocalTail n, 1%Z); (Tail n, 1%Z)]) ->
    vis m !! left g = Some nx -> ppoint 0 [] (resume (link_block t n) [0; 0; nx]%Z)
| P_new_link n size nx : spare g = [] ->
    made n size (new_log n size ++ [(LocalTail n, 1%Z); (Tail n, 1%Z); (Next n, nx)]) ->
    vis m !! left g = Some nx -> ppoint 0 [] (resume (link_block t n) [0; 0; nx; 0]%Z).

(** What holds between two steps of a call. *)
Definition producer_at (p : program bool) : Prop :=
  exists d free, producer_ok m g w free /\ length (elems g t) = d + Tn m t /\ ppoint d free p.
End points.

(** What a log leaves in a variable. *)
Ltac read_log :=
  unfold new_log, make_block; cbn [app take drop]; rewrite ?written_cons;
  repeat (case_decide; try congruence); reflexivity.

Definition producer_idle (m : memory var) (g : ghost) (w : views var) (t : Z) : Prop :=
  vis m !! Mn m = Some t /\ producer_ok m g w (spare g) /\ quiet m (elems g t) t.

(** ** The consumer does not disturb the producer *)
Section consumed.
Context (m m' : memory var) (g : ghost) (Hsh : shared m g) (Hc : consumed m m' g).

Lemma consumed_vals l : owner l = Producer -> vals m' l = vals m l.
Proof. intros Ho. unfold vals. by rewrite (e_owned _ _ _ Hc). Qed.
Lemma consumed_count l : owner l = Producer -> count m' l = count m l.
Proof. intros Ho. unfold count. by rewrite (e_owned _ _ _ Hc). Qed.
Lemma consumed_vis : vis m' = vis m.
Proof. by apply consumed_vals. Qed.
Lemma consumed_Mn : Mn m' = Mn m.
Proof. unfold Mn. by rewrite consumed_count. Qed.
Lemma consumed_Tn a : Tn m' a = Tn m a.
Proof. unfold Tn. by rewrite consumed_count. Qed.
Lemma consumed_grow l : count m l <= count m' l.
Proof. unfold count. destruct (e_grow _ _ _ Hc l) as [ext ->]. rewrite length_app. lia. Qed.
Lemma consumed_Fn a : Fn m a <= Fn m' a.
Proof. unfold Fn. pose proof (consumed_grow (Front a)). lia. Qed.
Lemma consumed_sz a : sz m' a = sz m a.
Proof. unfold sz. by rewrite (e_heap _ _ _ Hc). Qed.
Lemma consumed_ring : ring m' g = ring m g.
Proof. unfold ring. by rewrite consumed_vis. Qed.
Lemma consumed_other a : a ∉ ring m g -> same_block m m' a.
Proof. intros Ha. apply (e_other _ _ _ Hc). intros Hv. apply Ha, elem_of_app. by left. Qed.
Lemma consumed_spare a : a ∈ spare g -> same_block m m' a.
Proof.
  intros Ha. apply (e_other _ _ _ Hc). intros Hv. pose proof (s_nodup _ _ Hsh) as (_ & Hd & _)%NoDup_app. by apply (Hd a).
Qed.

Lemma consumed_seen_front w t lf : seen_front m w t lf -> seen_front m' w t lf.
Proof. intros (H1 & H2 & H3). unfold seen_front. rewrite consumed_Tn, consumed_sz. pose proof (consumed_Fn t). split; [lia|done]. Qed.

Lemma consumed_producer w free : (forall a, a ∈ free -> a ∈ spare g) -> producer_ok m g w free -> producer_ok m' g w free.
Proof.
  intros Hfree [H1 H2 H3 H4 H5]. split; rewrite ?consumed_ring, ?consumed_vis, ?consumed_Mn; try done.
  - intros l Ho. rewrite consumed_count by done. auto.
  - intros a Ha. destruct (H3 a Ha) as [E1 E2]. pose proof (consumed_spare a (Hfree a Ha)) as Hs.
    split; [by apply (same_empty _ _ _ Hs)|by apply (same_freed _ _ _ Hs)].
  - intros t Ht. destruct (H4 t Ht) as (lf & E & Hlf). exists lf.
    split; [by rewrite consumed_vals, consumed_sz|by apply consumed_seen_front].
  - by rewrite consumed_vals.
Qed.

Lemma consumed_made w n size log : made m g w n size log -> made m' g w n size log.
Proof.
  intros [H1 H2 H3 H4 H5]. pose proof (consumed_other n H3) as Hs.
  split; [by rewrite (e_heap _ _ _ Hc)|done|by rewrite consumed_ring| |].
  - intros l Hl. rewrite (same_vals _ _ _ Hs) by done. auto.
  - intros l Hl. rewrite (same_count _ _ _ Hs), (same_reads _ _ _ Hs) by done. auto.
Qed.
Lemma consumed_next_free w n rest : next_free m g w n rest -> next_free m' g w n rest /\ Fn m' n = Fn m n.
Proof.
  intros (Hs & Hf & He). assert (same_block m m' n) as Hb by (apply consumed_spare; rewrite Hs; by left).
  split; [|by apply same_Fn]. split; [done|]. split; [by apply (same_freed _ _ _ Hb)|by apply (same_empty _ _ _ Hb)].
Qed.

Lemma consumed_filled w x n rest : spare g = n :: rest -> filled m g w x n -> filled m' g w x n.
Proof.
  intros Hs (H1 & H2 & H3 & H4 & H5). assert (same_block m m' n) as Hb by (apply consumed_spare; rewrite Hs; by left).
  unfold filled, quiet. rewrite consumed_Tn, (same_Fn _ _ _ Hb), consumed_vals, consumed_sz by done.
  split_and!; try done. by apply (same_freed _ _ _ Hb).
Qed.

Lemma consumed_known_front w t lf : known_front m w t lf -> known_front m' w t lf.
Proof. intros [H1 H2]. split; [by rewrite consumed_vals, consumed_sz|by apply consumed_seen_front]. Qed.
Lemma consumed_room w t lf : room m w t lf -> room m' w t lf.
Proof. intros [H1 H2]. split; [by apply consumed_known_front|by rewrite consumed_Tn, consumed_sz]. Qed.

Lemma consumed_pending x n : pending m g x n -> pending m' g x n.
Proof. unfold pending. by rewrite consumed_Tn. Qed.

Lemma consumed_closed l U : U (W l) <= count m l -> closed m l U -> closed m' l U.
Proof.
  intros Hb HU i v V Hi Hm. apply (HU i v V Hi). destruct (e_grow _ _ _ Hc l) as [ext E]. rewrite E in Hm.
  unfold count in Hb. by rewrite lookup_app_l in Hm by lia.
Qed.

Lemma consumed_ppoint w t c x d free p :
  cur w (W (Front t)) <= count m (Front t) -> ppoint m g w t c x d free p -> ppoint m' g w t c x d free p.
Proof.
  intros Hb Hp.
  destruct Hp; rewrite <- ?(consumed_sz t), <- ?(consumed_Tn t);
  try match goal with Hx : next_free m g w ?n _ |- _ => destruct (consumed_next_free _ _ _ Hx) as [? EF] end;
  try match goal with Hx : spare g = ?n :: _ |- _ => assert (same_block m m' n) as Hs by (apply consumed_spare; rewrite Hx; by left);
    pose proof (same_Fn _ _ _ Hs) as EF; pose proof (same_freed _ _ _ Hs (cur w)); pose proof (same_freed _ _ _ Hs (rel w)) end;
  try match goal with EF : Fn m' ?n = _ |- _ => rewrite <- ?EF, <- ?(consumed_sz n), <- ?(consumed_Tn n) end;
  try (econstructor; rewrite ?EF, ?consumed_sz, ?consumed_Tn, ?consumed_vals, ?consumed_vis by done;
    eauto using consumed_seen_front, consumed_known_front, consumed_room, consumed_made, consumed_filled, consumed_pending; fail).
  - eapply P_write; [by apply consumed_room|by apply consumed_closed].
  - eapply P_publish; [by apply consumed_pending|by apply consumed_room|]. unfold cell_known, cell. by rewrite consumed_Tn, consumed_sz.
  - eapply P_link_store; [done|by eapply consumed_filled| |auto]. intros l Ho. rewrite consumed_count by done. auto.
Qed.
End consumed.

Lemma ppoint_free m g w t c x d free p a : ppoint m g w t c x d free p -> a ∈ free -> a ∈ spare g.
Proof.
  intros [] Ha; try done; try (by apply elem_of_nil in Ha);
  match goal with Hs : spare g = _ :: _ |- _ => rewrite Hs; by right end.
Qed.

Lemma consumed_at m m' g w t c x p :
  shared m g -> consumed m m' g -> cur w (W (Front t)) <= count m (Front t) ->
  producer_at m g w t c x p -> producer_at m' g w t c x p.
Proof.
  intros Hsh Hc Hb (d & free & H1 & H2 & H3). exists d, free. split; [|split].
  - eapply consumed_producer; [done|done| |done]. intros a. by eapply ppoint_free.
  - by rewrite (consumed_Tn _ _ _ Hc).
  - by eapply consumed_ppoint.
Qed.

Lemma consumed_idle m m' g w t : shared m g -> consumed m m' g -> producer_idle m g w t -> producer_idle m' g w t.
Proof.
  intros Hsh Hc (H1 & H2 & H3). split; [|split].
  - by rewrite (consumed_vis _ _ _ Hc), (consumed_Mn _ _ _ Hc).
  - by eapply consumed_producer.
  - unfold quiet. by rewrite (consumed_Tn _ _ _ Hc).
Qed.

(** ** What the producer's accesses change *)
Lemma produced_refl m g : produced m m g.
Proof.
  split; try done.
  - intros l. exists []. by rewrite app_nil_r.
  - intros. lia.
  - intros. lia.
Qed.

Lemma produced_read m g l : produced m (note_read Producer l m) g.
Proof.
  split; try done.
  - intros l'. exists []. by rewrite app_nil_r.
  - intros f e Hf. change (Tn (note_read Producer l m) f) with (Tn m f). lia.
  - intros k a. change (Mn (note_read Producer l m)) with (Mn m). lia.
Qed.

Lemma produced_push m g l y :
  (owner l = Producer \/ exists n, block_of l = Some n /\ n ∉ ring m g) -> l <> TailBlock ->
  (forall a, l = Tail a -> (forall k, Kn m <= k < Mn m -> vis m !! k <> Some a) /\
     (vis m !! Kn m = Some a -> cell_known m a (Tn m a) y.2)) ->
  produced m (push l y m) g.
Proof.
  intros Ho HT Hta. split; try done.
  - intros l'. simpl. unfold put. case_decide as El; [subst; by eexists|]. exists []. by rewrite app_nil_r.
  - intros l' Ho' Hr. simpl. apply put_ne. intros ->. destruct Ho as [Ho|(n & Hn & Hnr)]; [congruence|]. by apply Hnr, Hr.
  - intros k a Hk Ha. simpl. apply put_ne. intros <-. by apply (proj1 (Hta a eq_refl) k).
  - intros f e Hf He. destruct (decide (l = Tail f)) as [->|Hl].
    + unfold Tn in He. rewrite count_push_eq in He. destruct (Hta f eq_refl) as [_ Hk]. specialize (Hk Hf). unfold Tn in Hk.
      destruct (decide (count m (Tail f) = 0)) as [E|E].
      * rewrite E in He. lia.
      * replace (S e) with (count m (Tail f)) by lia. apply passes_push_new. by replace e with (count m (Tail f) - 1) by lia.
    + rewrite Tn_push in He by done. lia.
  - intros k a Hk. unfold Mn in Hk. rewrite count_push_ne in Hk by done. lia.
Qed.

(** The elements in the queue do not change unless blocks with elements do. *)
Lemma fview_eq m m' g g' :
  vis m' = vis m -> Kn m' = Kn m -> (forall a, a ∈ drop (Kn m) (vis m) -> items m' g' a = items m g a) ->
  fview m' g' = fview m g.
Proof.
  intros Ev EK Hi. unfold fview. rewrite Ev, EK. f_equal. apply map_ext_in. intros a Ha%list_elem_of_In. auto.
Qed.

Section producer.
Context (m : memory var) (g : ghost) (vs : tid -> views var) (t : Z) (canAlloc : bool) (x : ptr).
Notation w := (vs Producer).
Context (Hwf : wf m vs) (Hsh : shared m g) (Ht : vis m !! Mn m = Some t).

Definition p_post (k : Z -> program bool) (r : Z * memory var * views var) : Prop :=
  let '(v, m', w') := r in
  exists g', produced m m' g /\ shared m' g' /\
    (forall a, a ∈ ring m g -> elems g' a = elems g a \/ exists y, elems g' a = elems g a ++ [y]) /\
    match k v with
    | Ret b => (exists t', producer_idle m' g' w' t') /\ fview m' g' = fview m g ++ if b then [x] else []
    | p => fview m' g' = fview m g /\ vis m' !! Mn m' = Some t /\ producer_at m' g' w' t canAlloc x p
    end.

Lemma left_le_Mn : left g <= Mn m.
Proof. pose proof (Kn_le_Mn _ _ Hsh) as [HKM _]. pose proof (s_left _ _ Hsh). lia. Qed.
Lemma tail_in_ring : t ∈ ring m g.
Proof. by apply (vis_in_ring m g (Mn m)); [apply left_le_Mn|]. Qed.
Lemma tail_ok : block_ok m (elems g t) t.
Proof. by apply (ring_ok _ _ Hsh), tail_in_ring. Qed.
Lemma tail_unique k : left g <= k -> vis m !! k = Some t -> k = Mn m.
Proof. intros Hk Hv. eapply (vis_index m g Hsh); [done|apply left_le_Mn|done|done]. Qed.

Lemma producer_ok_mono g' w' free :
  below (cur w) (cur w') -> below (acq w) (acq w') -> producer_ok m g' w free -> producer_ok m g' w' free.
Proof.
  intros Hc Ha [H1 H2 H3 H4 H5]. assert (forall y, cur w y <= cur w' y) as Hx by (intros y; apply Hc). split.
  - intros l Ho. specialize (H1 l Ho). specialize (Hx (W l)). lia.
  - destruct H2 as [H2 H2']. pose proof (Hx (W FrontBlock)). split; [|lia].
    intros a Har. specialize (H2 a Har). specialize (Hx (W (Front a))). lia.
  - intros a Haf. destruct (H3 a Haf) as [E1 E2]. split; [done|]. by eapply freed_mono.
  - intros t' Ht'. destruct (H4 t' Ht') as (lf & E & Hlf). exists lf. split; [done|]. specialize (Hx (W (Front t'))). lia.
  - done.
Qed.

Definition is_step {A} (p : program A) : Prop := match p with Step _ _ => True | _ => False end.

Lemma ppoint_step m' g' w' t' d free p : ppoint m' g' w' t' canAlloc x d free p -> is_step p.
Proof.
  intros []; try done. destruct i as [|[|[|[|[|[|[|[|]]]]]]]]; try done. lia.
Qed.

(** The step ends at a point of the call. *)
Lemma p_at k v m' w' g' d free :
  produced m m' g -> shared m' g' ->
  (forall a, a ∈ ring m g -> elems g' a = elems g a \/ exists y, elems g' a = elems g a ++ [y]) ->
  fview m' g' = fview m g -> vis m' !! Mn m' = Some t ->
  producer_ok m' g' w' free -> length (elems g' t) = d + Tn m' t -> ppoint m' g' w' t canAlloc x d free (k v) ->
  p_post k (v, m', w').
Proof.
  intros H1 H2 H3 H4 H5 H6 H7 H8. exists g'. split; [done|]. split; [done|]. split; [done|].
  pose proof (ppoint_step _ _ _ _ _ _ _ H8) as Hs. destruct (k v) eqn:E; [done|done|]. rewrite <- E in *.
  split; [done|]. split; [done|]. by exists d, free.
Qed.

Section at_point.
Context (d : nat) (free : list Z) (Hok : producer_ok m g w free) (Hd : length (elems g t) = d + Tn m t).

Lemma p_point k v w' :
  below (cur w) (cur w') -> below (acq w) (acq w') -> ppoint m g w' t canAlloc x d free (k v) -> p_post k (v, m, w').
Proof.
  intros Hc Ha Hp. eapply p_at; try done; [apply produced_refl|by left|by eapply producer_ok_mono].
Qed.

Lemma own_known l : owner l = Producer -> cur w (W l) = count m l.
Proof. clear Hd. intros Ho. pose proof (p_own _ _ _ _ Hok l Ho). pose proof (known_bounded _ _ Hwf Producer l). lia. Qed.

(** Loads of what only this thread stores, or nobody stores any more. *)
Lemma p_load_exact l v k choice :
  valid m l = true -> is_atomic l = true -> 1 <= count m l <= cur w (W l) -> last (vals m l) = Some v ->
  (forall w', below (cur w) (cur w') -> below (acq w) (acq w') -> ppoint m g w' t canAlloc x d free (k v)) ->
  after (load l choice m w) (p_post k).
Proof.
  intros Hv Ha [Hc1 Hc2] Hl Hp. apply load_after; [done|done|lia|]. intros v' V Hm Hi.
  destruct (exact_load m w l choice v' V Hc2 Hm Hi) as [E _]. rewrite Hl in E. injection E as <-.
  destruct (received_below l choice V w) as [B1 B2]. apply p_point; [done|done|]. by apply Hp.
Qed.

Lemma p_fence o k choice :
  (below (cur w) (cur (fence o w)) -> ppoint m g (fence o w) t canAlloc x d free (k 0%Z)) ->
  after (exec Producer choice (Fence o) m w) (p_post k).
Proof. intros Hp. destruct (fence_below _ _ Hwf Producer o) as [B1 B2]. apply p_point; auto. Qed.

(** The producer reads variables that it alone writes. *)
Lemma shared_noted l : (forall a, l <> LocalTail a) -> (forall a c, l <> Cell a c) -> 1 <= count m l -> shared (note_read Producer l m) g.
Proof.
  intros H1 H2 Hc. destruct Hsh as [I1 I2 I3 I4 I5 I6 I7 I8 I9 I10 I11]. split; try done.
  - intros a Ha. apply noted_ok; [auto|done].
  - destruct I6 as [I6 I6']. split; [|done]. intros a. destruct (I6 a) as (E1 & E2 & E3). split; [|split; [|done]].
    + simpl. by rewrite put_eq, put_ne by (by apply not_eq_sym).
    + intros c. simpl. by rewrite put_eq, put_ne by (by apply not_eq_sym).
  - intros l' t' Hl'. change (count m l' = 0) in Hl'. simpl. unfold put. repeat case_decide; subst; [lia|auto|auto].
Qed.

Lemma p_read l v k choice :
  valid m l = true -> is_atomic l = false -> owner l = Producer -> (forall a, l <> LocalTail a) -> (forall a c, l <> Cell a c) ->
  last (vals m l) = Some v ->
  (forall w', below (cur w) (cur w') -> below (acq w) (acq w') -> ppoint m g w' t canAlloc x d free (k v)) ->
  after (exec Producer choice (Read l) m w) (p_post k).
Proof.
  intros Hv Ha Ho H1 H2 Hl Hp. assert (1 <= count m l) as Hc.
  { rewrite <- vals_length. destruct (vals m l); [done|simpl; lia]. }
  apply (read_after Producer l v); [done|done|by apply own_known|done|].
  set (w' := did _ _ w). assert (below (cur w) (cur w')) as B1 by apply learn_l.
  assert (below (acq w) (acq w')) as B2 by apply learn_l. specialize (Hp w' B1 B2).
  pose proof (ppoint_step _ _ _ _ _ _ _ Hp) as Hs.
  exists g. split; [apply produced_read|]. split; [by apply shared_noted|]. split; [by left|].
  assert (producer_ok (note_read Producer l m) g w' free) as Hok' by (destruct (producer_ok_mono g w' free B1 B2 Hok); by split).
  assert (ppoint (note_read Producer l m) g w' t canAlloc x d free (k v)) as Hp'.
  { apply (consumed_ppoint m); [done| |simpl; rewrite learn_ne by done; apply (known_bounded _ _ Hwf)|done].
    split; try done. intros l'. exists []. by rewrite app_nil_r. }
  destruct (k v) eqn:E; [done|done|]. rewrite <- E in *. split; [done|]. split; [done|]. by exists d, free.
Qed.
End at_point.

Lemma seen_front_mono lf (w' : views var) : below (cur w) (cur w') -> seen_front m w t lf -> seen_front m w' t lf.
Proof. intros Hc (H1 & H2 & H3). specialize (Hc (W (Front t))). split; [done|]. split; [done|lia]. Qed.

Lemma room_mono lf (w' : views var) : below (cur w) (cur w') -> room m w t lf -> room m w' t lf.
Proof. intros Hc [[H0 H1] H2]. split; [split; [done|by apply seen_front_mono]|done]. Qed.

Lemma known_front_mono lf (w' : views var) : below (cur w) (cur w') -> known_front m w t lf -> known_front m w' t lf.
Proof. intros Hc [H1 H2]. split; [done|by apply seen_front_mono]. Qed.

(** The test that finds room. *)
Lemma room_test lf (w' : views var) :
  seen_front m w' t lf -> Z.of_nat (S (Tn m t) mod sz m t) <> Z.of_nat (lf mod sz m t) -> S (Tn m t) < lf + sz m t.
Proof.
  intros (H1 & H2 & H3) Hne. pose proof (b_counts _ _ _ tail_ok) as (H4 & _).
  destruct (decide (S (Tn m t) = lf + sz m t)) as [E|E]; [|lia]. destruct Hne. rewrite E.
  rewrite <- (Nat.mul_1_l (sz m t)) at 1. by rewrite Nat.Div0.mod_add.
Qed.

(** *** Steps that only look: the tail block *)
Section quiet.
Context (Hok : producer_ok m g w (spare g)) (Hq : length (elems g t) = 0 + Tn m t).

Lemma p_start_ok choice :
  after (exec Producer choice (Load TailBlock) m w) (p_post (fun v => resume (inner_enqueue canAlloc x) [v])).
Proof.
  pose proof (own_known _ Hok TailBlock eq_refl) as Hk. pose proof (Kn_le_Mn _ _ Hsh) as [_ Hc].
  eapply (p_load_exact 0 (spare g)); [done|done|done|done|lia| |].
  - rewrite last_lookup, vals_length. replace (Nat.pred (count m TailBlock)) with (Mn m) by lia. exact Ht.
  - intros. apply P_block.
Qed.

Lemma p_block_ok choice :
  after (exec Producer choice (Read (LocalFront t)) m w) (p_post (fun v => resume (inner_enqueue canAlloc x) [t; v])).
Proof.
  destruct (p_localFront _ _ _ _ Hok t Ht) as (lf & E & Hlf).
  apply (p_read 0 (spare g) Hok Hq (LocalFront t) (Z.of_nat (lf mod sz m t))); try done.
  - by eapply ring_field; [|apply tail_in_ring|].
  - intros w' Hc _. by apply P_localFront, known_front_mono.
Qed.

Lemma p_localFront_ok choice lf :
  known_front m w t lf ->
  after (exec Producer choice (Load (Tail t)) m w)
    (p_post (fun v => resume (inner_enqueue canAlloc x) [t; Z.of_nat (lf mod sz m t); v])).
Proof.
  intros Hs. pose proof (own_known _ Hok (Tail t) eq_refl) as Hk. pose proof (b_tail _ _ _ tail_ok) as [Hc _].
  eapply (p_load_exact 0 (spare g) Hok Hq); [by eapply ring_field; [|apply tail_in_ring|]|done|lia| |].
  - apply (counter_last m (elems g t) t); [apply tail_ok|by right].
  - intros w' Hw _. by apply P_tail, known_front_mono.
Qed.

Lemma p_tail_ok choice lf :
  known_front m w t lf ->
  after (exec Producer choice (Read (SizeMask t)) m w)
    (p_post (fun v => resume (inner_enqueue canAlloc x) [t; Z.of_nat (lf mod sz m t); Z.of_nat (Tn m t mod sz m t); v])).
Proof.
  intros Hs. apply (p_read 0 (spare g) Hok Hq (SizeMask t) (Z.of_nat (sz m t) - 1)%Z); try done.
  - by eapply ring_field; [|apply tail_in_ring|].
  - by rewrite (b_mask _ _ _ tail_ok).
  - intros w' Hc _. cbn [resume inner_enqueue]. rewrite (index_step _ _ (b_size _ _ _ tail_ok)).
    case_match eqn:E; [|by apply P_recheck]. apply negb_true_iff, Z.eqb_neq in E.
    apply (P_here _ _ _ _ _ _ lf). split; [by apply known_front_mono|]. apply (room_test lf w'); [|done].
    by apply seen_front_mono; [|apply Hs].
Qed.

Lemma p_recheck_ok choice :
  after (exec Producer choice (Load (Front t)) m w)
    (p_post (fun v => resume (enqueue_recheck canAlloc x t (Z.of_nat (Tn m t mod sz m t)) (Z.of_nat (S (Tn m t) mod sz m t))) [v])).
Proof.
  destruct (p_localFront _ _ _ _ Hok t Ht) as (lf & _ & H1 & H2 & H3).
  apply load_after; [by eapply ring_field; [|apply tail_in_ring|]|done|lia|]. intros v V Hm Hi.
  apply (counter_value m (elems g t) t) in Hm as Hv; [|by apply tail_ok|by left]. subst v. apply lookup_lt_Some in Hm.
  destruct (received_below (Front t) (Z.to_nat choice) V w) as [B1 B2]. apply (p_point 0 (spare g)); [done|done|done|done|].
  apply P_front. split; [unfold Fn, count in *; lia|]. split; [lia|]. simpl. rewrite learn_eq. lia.
Qed.

Lemma p_here_ok choice lf :
  room m w t lf ->
  after (exec Producer choice (Fence memory_order_acquire) m w)
    (p_post (fun v => resume (enqueue_here x t (Z.of_nat (Tn m t mod sz m t)) (Z.of_nat (S (Tn m t) mod sz m t))) [v])).
Proof.
  intros Hr. apply (p_fence 0 (spare g) Hok Hq). intros Hc. apply (P_write _ _ _ _ _ _ lf); [by apply room_mono|].
  by apply (wf_acquired _ _ Hwf Producer (Front t)).
Qed.

(** The tail block is full. *)
Lemma p_full_ok choice :
  after (exec Producer choice (Fence memory_order_acquire) m w) (p_post (fun v => resume (enqueue_full canAlloc x t) [v])).
Proof. apply (p_fence 0 (spare g) Hok Hq). intros _. apply P_full_next. Qed.

Lemma next_last : exists nx, head (spare g ++ take 1 (drop (left g) (vis m))) = Some nx /\ last (vals m (Next t)) = Some nx.
Proof.
  clear Hok Hq. destruct (head (spare g ++ take 1 (drop (left g) (vis m)))) as [nx|] eqn:E.
  - exists nx. split; [done|]. by apply (tail_link m g Hsh).
  - pose proof left_le_Mn. destruct (spare g); [|done]. destruct (drop (left g) (vis m)) eqn:Ed; [|done].
    apply (f_equal length) in Ed. rewrite length_drop, (vis_length _ _ Hsh) in Ed. simpl in Ed. lia.
Qed.

Lemma next_load d free k nx choice :
  producer_ok m g w free -> length (elems g t) = d + Tn m t -> last (vals m (Next t)) = Some nx ->
  (forall w', below (cur w) (cur w') -> ppoint m g w' t canAlloc x d free (k nx)) ->
  after (exec Producer choice (Load (Next t)) m w) (p_post k).
Proof.
  clear Hok Hq. intros Hok' Hd Hl Hp. pose proof (own_known _ Hok' (Next t) eq_refl) as Hk. pose proof (b_rest _ _ _ tail_ok) as (Hc & _).
  eapply (p_load_exact d free Hok' Hd); [by eapply ring_field; [|apply tail_in_ring|]|done|lia|exact Hl|]. auto.
Qed.

Lemma p_full_next_ok choice :
  after (exec Producer choice (Load (Next t)) m w) (p_post (fun v => resume (enqueue_full canAlloc x t) [0%Z; v])).
Proof. destruct next_last as (nx & Hh & Hl). eapply next_load; [done|done|exact Hl|]. intros. by apply P_full_front. Qed.

(** The producer learns how far the front has come. *)
Lemma producer_rotate j V v :
  msgs m FrontBlock !! j = Some (v, V) -> cur w (W FrontBlock) <= S j ->
  let g' := rotate m j g in let w' := received FrontBlock j V w in
  left g <= j <= Kn m /\ vis m !! j = Some v /\ producer_ok m g' w' (spare g').
Proof.
  intros Hm Hi g' w'. destruct (front_value _ _ Hsh _ _ _ Hm) as [Hv Hj].
  pose proof (p_known _ _ _ _ Hok) as [_ Hk]. assert (left g <= j <= Kn m) as Hlj by lia.
  destruct (received_below FrontBlock j V w) as [B1 B2]. fold w' in B1, B2.
  destruct (shared_rotate m g j Hsh Hlj) as [_ Hperm]. fold g' in Hperm. split; [done|]. split; [done|].
  pose proof (producer_ok_mono g w' (spare g) B1 B2 Hok) as [I1 I2 I3 I4 I5]. split; try done.
  - split; [|simpl; rewrite learn_eq; lia]. intros a. rewrite Hperm. apply I2.
  - intros a. simpl. rewrite elem_of_app. intros [Ha|Ha]; [by apply I3|].
    apply list_elem_of_lookup in Ha as (i & Ha). apply lookup_take_Some in Ha as [Ha Hij]. rewrite lookup_drop in Ha.
    destruct (s_freed _ _ Hsh (left g + i) a ltac:(lia) Ha) as [He Hp]. split; [done|].
    destruct (lookup_lt_is_Some_2 (msgs m FrontBlock) (S (left g + i))) as [[v' V'] Hm'].
    { apply lookup_lt_Some in Hm. lia. }
    eapply freed_mono; [|by apply (Hp v' V')].
    assert (wf m (put Producer w' vs)) as Hwf'.
    { apply (wf_load m vs Hwf Producer FrontBlock j v m w'). unfold load. rewrite Hm. simpl.
      destruct (Nat.eqb_spec (cur w (W FrontBlock)) 0); [lia|].
      destruct (Nat.ltb_spec (S j) (cur w (W FrontBlock))); [lia|done]. }
    pose proof (wf_acquired _ _ Hwf' Producer FrontBlock eq_refl ltac:(done)) as Hcl. rewrite put_eq in Hcl.
    apply (Hcl (S (left g + i)) v' V'); [|done]. simpl. unfold join. rewrite learn_eq. lia.
Qed.

(** Whether the block behind the tail block is the front block tells whether there
    is a free one. *)
Lemma rotate_spare j nx v :
  head (spare g ++ take 1 (drop (left g) (vis m))) = Some nx -> left g <= j <= Kn m -> vis m !! j = Some v ->
  (nx = v <-> spare (rotate m j g) = []) /\ (nx <> v -> exists rest, spare (rotate m j g) = nx :: rest).
Proof.
  intros Hh Hj Hv. simpl. destruct (decide (j = left g)) as [->|Hne].
  - rewrite Nat.sub_diag, app_nil_r. destruct (spare g) as [|n rest] eqn:Es; simpl in Hh.
    + rewrite head_lookup, lookup_take_lt, lookup_drop, Nat.add_0_r, Hv in Hh by lia. injection Hh as ->. done.
    + injection Hh as ->. split; [split; [intros ->|done]|by exists rest].
      destruct (vis_not_spare m g Hsh (left g) v ltac:(lia) Hv). rewrite Es. by left.
  - assert (exists rest, spare g ++ take (j - left g) (drop (left g) (vis m)) = nx :: rest) as [rest E].
    { destruct (spare g) as [|n rest]; simpl in *; [|injection Hh as ->; by eexists].
      destruct (drop (left g) (vis m)) as [|a as']; [done|]. injection Hh as ->.
      destruct (j - left g) eqn:Ej; [lia|]. by eexists. }
    split; [|by exists rest]. rewrite E. split; [intros ->|done]. exfalso.
    assert (v ∈ spare (rotate m j g)) as Hs by (simpl; rewrite E; by left).
    destruct (shared_rotate m g j Hsh Hj) as [Hsh' _]. by apply (vis_not_spare m _ Hsh' j v).
Qed.

Lemma p_full_front_ok choice nx :
  head (spare g ++ take 1 (drop (left g) (vis m))) = Some nx ->
  after (exec Producer choice (Load FrontBlock) m w) (p_post (fun v => resume (enqueue_full canAlloc x t) [0%Z; nx; v])).
Proof.
  intros Hh. pose proof (p_known _ _ _ _ Hok) as [_ Hk]. apply load_after; [done|done|lia|]. intros v V Hm Hi.
  set (j := Z.to_nat choice) in *. destruct (producer_rotate j V v Hm Hi) as (Hj & Hv & Hok').
  destruct (rotate_spare j nx v Hh Hj Hv) as [Hempty Hfree]. destruct (shared_rotate m g j Hsh Hj) as [Hsh' _].
  exists (rotate m j g). split; [apply produced_refl|]. split; [done|]. split; [by left|].
  cbn [resume enqueue_full]. destruct (Z.eqb_spec nx v) as [E|E]; simpl.
  - destruct Hempty as [He _]. specialize (He E). destruct canAlloc; simpl.
    + split; [done|]. split; [done|]. exists 0, []. rewrite He in Hok'. split; [done|]. split; [done|by apply P_new].
    + rewrite app_nil_r. split; [|done]. by exists t.
  - destruct (Hfree E) as [rest Er]. split; [done|]. split; [done|].
    exists 0, (spare (rotate m j g)). split; [done|]. split; [done|by eapply P_next].
Qed.

(** *** Steps that only look: the next block *)
Section next.
Context (n : Z) (rest : list Z).

Lemma next_free_mono (w' : views var) : below (cur w) (cur w') -> next_free m g w n rest -> next_free m g w' n rest.
Proof. intros Hc (H1 & H2 & H3). split; [done|]. split; [by eapply freed_mono|done]. Qed.

Lemma next_member : spare g = n :: rest -> n ∈ ring m g.
Proof. intros Hs. apply spare_in_ring. rewrite Hs. by left. Qed.

Lemma p_next_ok choice :
  spare g = n :: rest ->
  after (exec Producer choice (Fence memory_order_acquire) m w) (p_post (fun v => resume (enqueue_next x t) [v])).
Proof.
  intros Hs. apply (p_fence 0 (spare g) Hok Hq). intros _. apply (P_next_link _ _ _ _ _ _ n rest).
  destruct (p_free _ _ _ _ Hok n) as [He Hf]; [rewrite Hs; by left|]. by split; [|split].
Qed.

Context (Hn : next_free m g w n rest).

Lemma p_next_link_ok choice :
  after (exec Producer choice (Load (Next t)) m w) (p_post (fun v => resume (enqueue_next x t) [0%Z; v])).
Proof.
  destruct next_last as (nx & Hh & Hl). destruct Hn as (Hs & _). rewrite Hs in Hh. injection Hh as <-.
  eapply (next_load 0 (spare g)); [done|done|exact Hl|]. intros w' Hc. by apply (P_next_front _ _ _ _ _ _ n rest), next_free_mono.
Qed.

Lemma p_next_front_ok choice :
  after (exec Producer choice (Load (Front n)) m w) (p_post (fun v => resume (enqueue_next x t) [0%Z; n; v])).
Proof.
  destruct Hn as (Hs & (Hf & _) & _). pose proof (next_member Hs) as Hr. pose proof (ring_ok _ _ Hsh n Hr) as Hb.
  pose proof (b_front _ _ _ Hb) as [Hc _].
  eapply (p_load_exact 0 (spare g) Hok Hq); [by eapply ring_field|done|lia|by apply (counter_last m (elems g n) n); [|by left]|].
  intros w' Hw _. by apply (P_next_write _ _ _ _ _ _ n rest), next_free_mono.
Qed.

Lemma p_next_tail_ok choice :
  after (exec Producer choice (Load (Tail n)) m w)
    (p_post (fun v => resume (enqueue_next x t) [0%Z; n; Z.of_nat (Fn m n mod sz m n); 0%Z; v])).
Proof.
  destruct Hn as (Hs & _ & _). pose proof (next_member Hs) as Hr. pose proof (ring_ok _ _ Hsh n Hr) as Hb.
  pose proof (b_tail _ _ _ Hb) as [Hc _]. pose proof (own_known _ Hok (Tail n) eq_refl).
  eapply (p_load_exact 0 (spare g) Hok Hq); [by eapply ring_field|done|lia|by apply (counter_last m (elems g n) n); [|by right]|].
  intros w' Hw _. by apply (P_next_fence _ _ _ _ _ _ n rest), next_free_mono.
Qed.

Lemma p_next_fence_ok choice :
  after (exec Producer choice (Fence memory_order_acquire) m w)
    (p_post (fun v => resume (enqueue_next x t)
       [0%Z; n; Z.of_nat (Fn m n mod sz m n); 0%Z; Z.of_nat (Tn m n mod sz m n); v])).
Proof.
  apply (p_fence 0 (spare g) Hok Hq). intros Hc. cbn [resume enqueue_next]. destruct Hn as (_ & _ & [HFT _]).
  rewrite HFT, Z.eqb_refl. simpl. rewrite <- HFT at 1. by apply (P_fill _ _ _ _ _ _ n rest), next_free_mono.
Qed.
End next.
End quiet.

(** *** Steps that only look: the element is in a block behind the tail block *)
Section behind.
Context (n : Z) (rest : list Z) (Hs : spare g = n :: rest).
Context (Hok : producer_ok m g w rest) (Hq : length (elems g t) = 0 + Tn m t).

Lemma p_fill_mask_ok choice :
  pending m g x n -> Fn m n = Tn m n -> freed m n (cur w) -> last (vals m (LocalFront n)) = Some (Z.of_nat (Fn m n mod sz m n)) ->
  after (exec Producer choice (Read (SizeMask n)) m w)
    (p_post (fun v => resume (fill_next_block x n (Z.of_nat (Fn m n mod sz m n)) (Z.of_nat (Tn m n mod sz m n))) [0; 0; v]%Z)).
Proof.
  intros H1 H2 H3 H4. pose proof (next_member n rest Hs) as Hr. pose proof (ring_ok _ _ Hsh n Hr) as Hb.
  apply (p_read 0 rest Hok Hq (SizeMask n) (Z.of_nat (sz m n) - 1)%Z); try done.
  - by eapply ring_field.
  - by rewrite (b_mask _ _ _ Hb).
  - intros w' Hc _. apply (P_fill_tail _ _ _ _ _ _ n rest); try done. by eapply freed_mono.
Qed.

Lemma filled_mono (w' : views var) : below (cur w) (cur w') -> filled m g w x n -> filled m g w' x n.
Proof. intros Hc (H1 & H2 & H3 & H4 & H5). unfold filled. split_and!; try done. by eapply freed_mono. Qed.

Lemma p_link_ok choice :
  filled m g w x n ->
  after (exec Producer choice (Fence memory_order_release) m w) (p_post (fun _ => Store TailBlock n ;; Ret true)).
Proof.
  intros Hf. apply (p_fence 0 rest Hok Hq). intros Hc. apply (P_link_store _ _ _ _ _ _ n rest); [done|by apply filled_mono| |].
  - simpl. apply (p_own _ _ _ _ Hok).
  - simpl. apply Hf.
Qed.
End behind.

(** *** Steps that only look: the element is in the tail block *)
Lemma p_written_ok choice lf :
  producer_ok m g w (spare g) -> length (elems g t) = 1 + Tn m t -> pending m g x t -> room m w t lf ->
  after (exec Producer choice (Fence memory_order_release) m w)
    (p_post (fun v => resume (enqueue_here x t (Z.of_nat (Tn m t mod sz m t)) (Z.of_nat (S (Tn m t) mod sz m t))) [0; 0; v]%Z)).
Proof.
  intros Hok Hq Hp Hr. apply (p_fence 1 (spare g) Hok Hq). intros Hc. apply (P_publish _ _ _ _ _ _ lf); [done|by apply room_mono|].
  destruct Hp as [Hl _]. pose proof (b_counts _ _ _ tail_ok) as Hn. pose proof (p_own _ _ _ _ Hok (cell m t (Tn m t)) eq_refl) as Ho.
  rewrite (cell_count m _ t tail_ok) in Ho by lia. simpl. exact Ho.
Qed.

(** *** Stores to a block of the ring *)
Definition with_elems (a : Z) (lg : list Z) : ghost :=
  {| elems := put a lg (elems g); spare := spare g; left := left g |}.

Section push.
Context (a : Z) (l : var) (v : Z) (V : view var) (lg : list Z) (free free' : list Z).
Let m' := push l (v, V) m.
Let g' := with_elems a lg.
Let w' := did (W l) (S (count m l)) w.
Context (Ha : a = t \/ a ∈ spare g) (Hl : block_of l = Some a) (Ho : owner l = Producer) (Hnext : forall b, l <> Next b).
Context (Hlg : lg = elems g a \/ exists y, lg = elems g a ++ [y]) (Hb : block_ok m' lg a).
Context (Hcell : l = Tail a -> a = t -> cell_known m a (Tn m a) V).
Context (Hok : producer_ok m g w free).
Context (Hfree : forall b, b ∈ free' -> b ∈ free /\ (b = a -> lg = elems g a /\ l <> Tail a)).
Context (Hlf : exists lf, last (vals m' (LocalFront t)) = Some (Z.of_nat (lf mod sz m t)) /\ seen_front m' w' t lf).

Lemma pushed_place k : left g <= k -> vis m !! k = Some a -> a = t /\ k = Mn m.
Proof.
  clear -Ha Ht Hsh. intros Hk Hv. destruct Ha as [->|Hs]; [split; [done|by apply tail_unique]|].
  by destruct (vis_not_spare m g Hsh k a Hk Hv).
Qed.

Lemma pushed_not_front b : l <> Front b.
Proof. clear -Ho. by intros ->. Qed.

Lemma pushed_shared : shared m' g'.
Proof.
  pose proof (s_left _ _ Hsh) as Hle. apply (shared_confined m m' g g' a); try done.
  - by apply confined_push.
  - intros b Hne. simpl. by rewrite put_ne.
  - simpl. by rewrite put_eq.
  - apply (s_private _ _ Hsh).
  - apply unread_push, Hsh.
  - intros k Hk Hv. destruct (pushed_place k ltac:(lia) Hv) as [-> ->]. pose proof (Kn_le_Mn _ _ Hsh). lia.
  - intros k Hk Hv. destruct (pushed_place k ltac:(lia) Hv) as [-> ->]. lia.
  - intros k Hk Hv HFT He Hp. destruct (pushed_place k ltac:(lia) Hv) as [-> ->].
    assert (Fn m' t = Fn m t) as EF by apply Fn_push, pushed_not_front.
    unfold entered, cell_known. rewrite EF. destruct (decide (l = Tail t)) as [El|El].
    + subst l. assert (Tn m' t = S (Tn m t)) as ET by (unfold Tn, m'; rewrite count_push_eq; pose proof (b_tail _ _ _ tail_ok); lia).
      rewrite ET. split; [lia|]. split; [done|]. intros e Hee. destruct (decide (e = Tn m t)) as [->|].
      * replace (S (Tn m t)) with (count m (Tail t)) by (unfold Tn; pose proof (b_tail _ _ _ tail_ok); lia).
        apply passes_push_new. by apply Hcell.
      * apply passes_push_old; [unfold Tn in *; lia|]. apply Hp. lia.
    + assert (Tn m' t = Tn m t) as -> by by apply Tn_push. split; [done|]. split; [done|]. intros e Hee.
      apply passes_push_ne; [by apply not_eq_sym|]. by apply Hp.
Qed.

Lemma pushed_produced : produced m m' g.
Proof.
  apply produced_push; [by left|by intros ->|]. intros b ->. injection Hl as ->. pose proof (s_left _ _ Hsh). split.
  - intros k Hk Hv. destruct (pushed_place k ltac:(lia) Hv) as [-> ->]. lia.
  - intros Hv. destruct (pushed_place (Kn m) ltac:(lia) Hv) as [-> _]. by apply Hcell.
Qed.

Lemma pushed_elems b : elems g' b = elems g b \/ exists y, elems g' b = elems g b ++ [y].
Proof. simpl. unfold put. case_decide; [by subst|by left]. Qed.

Lemma pushed_at : vis m' = vis m /\ Kn m' = Kn m /\ Mn m' = Mn m.
Proof.
  clear -Hl. assert (l <> TailBlock /\ l <> FrontBlock) as [H1 H2] by (split; by intros ->).
  unfold vis, Kn, Mn, m'. by rewrite vals_push_ne, !count_push_ne by by apply not_eq_sym.
Qed.

Lemma pushed_known : below (cur w) (cur w') /\ below (acq w) (acq w').
Proof. split; apply learn_l. Qed.

Lemma pushed_ok : producer_ok m' g' w' free'.
Proof.
  destruct pushed_known as [B1 B2]. destruct pushed_at as (Ev & EK & EM).
  destruct (producer_ok_mono g w' free B1 B2 Hok) as [I1 I2 I3 I4 I5].
  split; unfold ring; rewrite ?Ev, ?EM; try done.
  - intros l' Ho'. unfold m'. rewrite count_push. case_decide as El; [subst; simpl; rewrite learn_eq; lia|auto].
  - intros b Hbf. destruct (Hfree b Hbf) as [Hbf' Hba]. destruct (I3 b Hbf') as [He Hf].
    assert (l <> LocalTail b) as HLT by (by intros ->).
    unfold freed, m'. rewrite !count_push_ne by (by apply not_eq_sym; try apply pushed_not_front).
    split; [|done]. destruct (decide (b = a)) as [->|Hne].
    + destruct (Hba eq_refl) as [E1 E2]. simpl. rewrite put_eq. unfold empty, quiet, m'.
      rewrite Fn_push, Tn_push, E1 by (done || apply pushed_not_front). done.
    + simpl. rewrite put_ne by done. unfold empty, quiet, m'. rewrite Fn_push, Tn_push; [done| |apply pushed_not_front].
      intros ->. by injection Hl.
  - intros t' Ht'. rewrite Ht in Ht'. by injection Ht' as <-.
  - unfold m'. rewrite vals_push_ne; [done|]. by intros <-.
Qed.

(** The elements in the queue. *)
Lemma pushed_fview : l <> Tail t -> fview m' g' = fview m g.
Proof.
  intros HlT. destruct pushed_at as (Ev & EK & EM). apply fview_eq; [done|done|]. intros b (i & Hi)%list_elem_of_lookup.
  rewrite lookup_drop in Hi. pose proof (s_left _ _ Hsh). unfold items. unfold m' at 1.
  rewrite Fn_push by apply pushed_not_front. simpl. unfold put. case_decide as Eb.
  - subst b. destruct (pushed_place (Kn m + i) ltac:(lia) Hi) as [-> _]. unfold m'. rewrite Tn_push by done.
    destruct Hlg as [->|[y ->]]; [done|]. rewrite take_app_le; [done|]. pose proof (b_counts _ _ _ tail_ok). lia.
  - unfold m'. rewrite Tn_push; [done|]. intros ->. by injection Hl.
Qed.

Lemma pushed_post k r d :
  l <> Tail t -> length (elems g' t) = d + Tn m t -> ppoint m' g' w' t canAlloc x d free' (k r) -> p_post k (r, m', w').
Proof.
  intros HlT Hlen Hp. destruct pushed_at as (Ev & EK & EM).
  apply (p_at k r m' w' g' d free'); [apply pushed_produced|apply pushed_shared|intros b _; apply pushed_elems|
    by apply pushed_fview|by rewrite Ev, EM|apply pushed_ok| |done].
  rewrite Hlen. unfold m'. by rewrite Tn_push.
Qed.
End push.

Lemma localFront_write_ok choice free k a v :
  a ∈ ring m g -> producer_ok m g w free -> (forall V, p_post k (0%Z, push (LocalFront a) (v, V) m, did (W (LocalFront a)) (S (count m (LocalFront a))) w)) ->
  after (exec Producer choice (Write (LocalFront a) v) m w) (p_post k).
Proof.
  intros Ha Hok Hp. apply write_after; [by eapply ring_field|by apply (own_known free Hok)| |done|apply Hp].
  destruct (s_private _ _ Hsh) as [Hpr _]. destruct (Hpr a) as (_ & _ & E).
  change (reads m Consumer (LocalFront a) <= cur w (R Consumer (LocalFront a))). rewrite E. lia.
Qed.

(** A front that the producer has seen stays so. *)
Lemma localFront_kept free l y (w' : views var) :
  producer_ok m g w free -> l <> LocalFront t -> l <> Tail t -> owner l = Producer -> below (cur w) (cur w') ->
  exists lf, last (vals (push l y m) (LocalFront t)) = Some (Z.of_nat (lf mod sz m t)) /\ seen_front (push l y m) w' t lf.
Proof.
  intros Hok H1 H2 Ho Hc. destruct (p_localFront _ _ _ _ Hok t Ht) as (lf & E & Hlf). exists lf.
  rewrite vals_push_ne by by apply not_eq_sym. split; [done|]. apply (seen_front_mono lf w') in Hlf; [|done].
  unfold seen_front. rewrite Fn_push, Tn_push; [done|done|]. by intros ->.
Qed.

Lemma p_front_ok choice lf :
  producer_ok m g w (spare g) -> length (elems g t) = 0 + Tn m t -> seen_front m w t lf ->
  after (exec Producer choice (Write (LocalFront t) (Z.of_nat (lf mod sz m t))) m w)
    (p_post (fun v => resume (enqueue_recheck canAlloc x t (Z.of_nat (Tn m t mod sz m t)) (Z.of_nat (S (Tn m t) mod sz m t)))
       [Z.of_nat (lf mod sz m t); v])).
Proof.
  intros Hok Hq Hs. apply (localFront_write_ok choice (spare g)); [apply tail_in_ring|done|]. intros V.
  set (w' := did _ _ w). assert (below (cur w) (cur w')) as B1 by apply learn_l.
  pose proof (seen_front_mono lf w' B1 Hs) as Hs'. set (m' := push _ _ m).
  assert (Fn m' t = Fn m t) as EF by by apply Fn_push. assert (Tn m' t = Tn m t) as ET by by apply Tn_push.
  assert (seen_front m' w' t lf) as Hsm by (unfold seen_front; by rewrite EF, ET).
  apply (pushed_post t (LocalFront t) _ V (elems g t) (spare g) (spare g)) with (d := 0); try done.
  - by left.
  - by left.
  - by apply local_push_ok; [apply tail_ok|right].
  - exists lf. split; [|done]. by rewrite vals_push_eq, last_snoc.
  - simpl. by rewrite put_eq.
  - cbn [resume enqueue_recheck]. rewrite <- ET. change (sz m t) with (sz m' t).
    case_match eqn:E; [|by apply (P_full m' (with_elems t (elems g t)))].
    apply negb_true_iff, Z.eqb_neq in E. apply (P_here m' (with_elems t (elems g t)) _ _ _ _ lf).
    split; [split; [by unfold m'; rewrite vals_push_eq, last_snoc|done]|]. rewrite ET. change (sz m' t) with (sz m t).
    apply (room_test lf w' Hs'). by rewrite ET in E.
Qed.

(** The free block that comes next. *)
Section free_block.
Context (n : Z) (rest : list Z) (Hs : spare g = n :: rest).

Lemma free_in : n ∈ spare g.
Proof. rewrite Hs. by left. Qed.
Lemma free_ok : block_ok m (elems g n) n.
Proof. by apply (ring_ok _ _ Hsh), (next_member n rest). Qed.
Lemma free_not_tail : n <> t.
Proof. pose proof free_in as Hf. intros E. rewrite E in Hf. by apply (vis_not_spare m g Hsh (Mn m) t); [apply left_le_Mn| |]. Qed.
Lemma free_rest : n ∉ rest.
Proof.
  pose proof (s_nodup _ _ Hsh) as (_ & _ & Hnd)%NoDup_app. rewrite Hs in Hnd. by apply NoDup_cons in Hnd as [? _].
Qed.

Lemma free_localFront_ok choice k :
  producer_ok m g w (spare g) -> length (elems g t) = 0 + Tn m t -> next_free m g w n rest ->
  (forall m' g' w', next_free m' g' w' n rest -> spare g' = spare g -> Fn m' n = Fn m n -> Tn m' n = Tn m n -> sz m' n = sz m n ->
     last (vals m' (LocalFront n)) = Some (Z.of_nat (Fn m n mod sz m n)) ->
     ppoint m' g' w' t canAlloc x 0 (spare g) (k 0%Z)) ->
  after (exec Producer choice (Write (LocalFront n) (Z.of_nat (Fn m n mod sz m n))) m w) (p_post k).
Proof.
  intros Hok Hq Hn Hp. apply (localFront_write_ok choice (spare g)); [by apply (next_member n rest)|done|]. intros V.
  pose proof free_not_tail as Hnt.
  apply (pushed_post n (LocalFront n) _ V (elems g n) (spare g) (spare g)) with (d := 0); try done.
  - right. apply free_in.
  - by left.
  - by apply local_push_ok; [apply free_ok|right].
  - apply (localFront_kept (spare g)); try done; [congruence|apply learn_l].
  - simpl. by rewrite put_ne by (by apply not_eq_sym).
  - apply Hp; try done; [|by rewrite vals_push_eq, last_snoc].
    destruct Hn as (_ & Hf & He). split; [done|]. split.
    + eapply freed_mono; [apply learn_l|]. unfold freed. by rewrite !count_push_ne.
    + unfold empty, quiet. simpl. by rewrite put_eq, Fn_push, Tn_push.
Qed.

Lemma p_next_write_ok choice :
  producer_ok m g w (spare g) -> length (elems g t) = 0 + Tn m t -> next_free m g w n rest ->
  after (exec Producer choice (Write (LocalFront n) (Z.of_nat (Fn m n mod sz m n))) m w)
    (p_post (fun v => resume (enqueue_next x t) [0%Z; n; Z.of_nat (Fn m n mod sz m n); v])).
Proof.
  intros Hok Hq Hn. apply free_localFront_ok; [done|done|done|]. intros m' g' w' Hn' Eg EF ET Es _.
  rewrite <- Eg, <- EF, <- Es. by apply (P_next_tail m' g' w' t canAlloc x n rest).
Qed.

Lemma p_fill_ok choice :
  producer_ok m g w (spare g) -> length (elems g t) = 0 + Tn m t -> next_free m g w n rest ->
  after (exec Producer choice (Write (LocalFront n) (Z.of_nat (Fn m n mod sz m n))) m w)
    (p_post (fun v => resume (fill_next_block x n (Z.of_nat (Fn m n mod sz m n)) (Z.of_nat (Tn m n mod sz m n))) [v])).
Proof.
  intros Hok Hq Hn. apply free_localFront_ok; [done|done|done|]. intros m' g' w' Hn' Eg EF ET Es E.
  rewrite <- Eg, <- EF, <- ET, <- Es in *. by apply (P_fill_cell m' g' w' t canAlloc x n rest).
Qed.

Lemma p_fill_cell_ok choice :
  producer_ok m g w (spare g) -> length (elems g t) = 0 + Tn m t -> next_free m g w n rest ->
  last (vals m (LocalFront n)) = Some (Z.of_nat (Fn m n mod sz m n)) ->
  after (exec Producer choice (Write (cell m n (Tn m n)) x) m w)
    (p_post (fun v => resume (fill_next_block x n (Z.of_nat (Fn m n mod sz m n)) (Z.of_nat (Tn m n mod sz m n))) [0%Z; v])).
Proof.
  intros Hok Hq (_ & Hf & HFT & Hqn) HlF. pose proof free_not_tail as Hnt. pose proof (block_size _ _ _ free_ok) as Hsz.
  apply write_after; [by eapply cell_valid, free_ok|by apply (own_known (spare g) Hok)|apply Hf|done|].
  set (l := cell m n (Tn m n)). set (V := just _ _). set (w' := did _ _ w). set (m' := push _ _ m).
  assert (Fn m' n = Fn m n) as EF by by apply Fn_push. assert (Tn m' n = Tn m n) as ET by by apply Tn_push.
  apply (pushed_post n l x V (elems g n ++ [x]) (spare g) rest) with (d := 0); try done.
  - right. apply free_in.
  - right. by exists x.
  - by apply cell_push_ok; [apply free_ok|done|lia].
  - intros b Hbr. split; [rewrite Hs; by right|]. intros ->. by destruct free_rest.
  - apply (localFront_kept (spare g)); try done. apply learn_l.
  - simpl. by rewrite put_ne by (by apply not_eq_sym).
  - rewrite <- EF, <- ET. apply (P_fill_mask m' (with_elems n (elems g n ++ [x])) w' t canAlloc x n rest); try done.
    + unfold pending. simpl. rewrite put_eq, ET, length_app. unfold quiet in Hqn. simpl. split; [lia|].
      by apply list_lookup_middle.
    + eapply freed_mono; [apply learn_l|]. unfold freed, m'. by rewrite !count_push_ne.
Qed.

Lemma p_fill_tail_ok choice :
  producer_ok m g w rest -> length (elems g t) = 0 + Tn m t -> pending m g x n -> Fn m n = Tn m n -> freed m n (cur w) ->
  last (vals m (LocalFront n)) = Some (Z.of_nat (Fn m n mod sz m n)) ->
  after (exec Producer choice (Store (Tail n) (Z.land (u64 (Z.of_nat (Tn m n mod sz m n) + 1)) (Z.of_nat (sz m n) - 1))) m w)
    (p_post (fun _ => Fence memory_order_release ;; Store TailBlock n ;; Ret true)).
Proof.
  intros Hok Hq [Hpl Hpx] HFT Hf HlF. pose proof free_not_tail as Hnt. rewrite (index_step _ _ (b_size _ _ _ free_ok)).
  pose proof (b_tail _ _ _ free_ok) as [Hc _].
  apply store_after; [by eapply ring_field; [|by apply (next_member n rest)|]|done|done|done|by apply (own_known rest Hok)|].
  set (V := learn _ _ _). set (w' := did _ _ w). set (m' := push _ _ m).
  assert (Fn m' n = Fn m n) as EF by by apply Fn_push.
  assert (Tn m' n = S (Tn m n)) as ET by (unfold Tn, m'; rewrite count_push_eq; lia).
  apply (pushed_post n (Tail n) _ V (elems g n) rest rest) with (d := 0); try done.
  - right. apply free_in.
  - by left.
  - by apply tail_push_ok; [apply free_ok|..].
  - intros b Hbr. split; [done|]. intros ->. by destruct free_rest.
  - apply (localFront_kept rest); try done; [congruence|apply learn_l].
  - congruence.
  - simpl. by rewrite put_ne by (by apply not_eq_sym).
  - apply (P_link m' (with_elems n (elems g n)) w' t canAlloc x n rest); [done|]. unfold filled, quiet. simpl.
    rewrite put_eq, EF, ET, HFT. split; [done|]. split; [done|]. split; [done|]. split.
    + eapply freed_mono; [apply learn_l|]. unfold freed, m'. by rewrite !count_push_ne.
    + unfold m'. rewrite vals_push_ne by done. by rewrite <- HFT.
Qed.
End free_block.

(** *** The tail block has room *)

(** The consumer's last read of the cell is known. *)
Lemma cell_known_free lf :
  room m w t lf -> closed m (Front t) (cur w) -> quiet m (elems g t) t ->
  reads m Consumer (cell m t (Tn m t)) <= cur w (R Consumer (cell m t (Tn m t))).
Proof.
  intros [[_ (H1 & H2 & H3)] Hr] Hcl Hq. unfold quiet in Hq. pose proof (block_size _ _ _ tail_ok) as Hs.
  destruct (decide (Tn m t < sz m t)) as [Hlt|Hge].
  - rewrite (s_unread _ _ Hsh); [lia|]. rewrite <- Hq, (next_cell_count m _ t tail_ok), Hq. by apply Nat.div_small.
  - set (e := Tn m t - sz m t). assert (cell m t (Tn m t) = cell m t e) as ->.
    { unfold cell. do 2 f_equal. replace (Tn m t) with (e + 1 * sz m t) by (unfold e; lia). by rewrite Nat.Div0.mod_add. }
    destruct (lookup_lt_is_Some_2 (msgs m (Front t)) (S e)) as [[v V] Hm].
    { pose proof (known_bounded _ _ Hwf Producer (Front t)). unfold count in *. unfold e. lia. }
    pose proof (b_taken _ _ _ tail_ok e ltac:(unfold e; lia) ltac:(unfold e; lia) v V Hm) as HV. cbv beta in HV.
    pose proof (Hcl (S e) v V ltac:(unfold e; lia) Hm (R Consumer (cell m t e))). lia.
Qed.

Lemma p_write_ok choice lf :
  producer_ok m g w (spare g) -> length (elems g t) = 0 + Tn m t -> room m w t lf -> closed m (Front t) (cur w) ->
  after (exec Producer choice (Write (cell m t (Tn m t)) x) m w)
    (p_post (fun v => resume (enqueue_here x t (Z.of_nat (Tn m t mod sz m t)) (Z.of_nat (S (Tn m t) mod sz m t))) [0%Z; v])).
Proof.
  intros Hok Hq Hr Hcl. pose proof (block_size _ _ _ tail_ok) as Hsz.
  apply write_after; [by eapply cell_valid, tail_ok|by apply (own_known (spare g) Hok)|by apply (cell_known_free lf)|done|].
  set (l := cell m t (Tn m t)). set (V := just _ _). set (w' := did _ _ w). set (m' := push _ _ m).
  assert (Fn m' t = Fn m t) as EF by by apply Fn_push. assert (Tn m' t = Tn m t) as ET by by apply Tn_push.
  apply (pushed_post t l x V (elems g t ++ [x]) (spare g) (spare g)) with (d := 1); try done.
  - by left.
  - right. by exists x.
  - apply cell_push_ok; [apply tail_ok|done|]. destruct Hr as [[_ (H1 & _)] H2]. lia.
  - intros b Hbr. split; [done|]. intros ->. destruct (vis_not_spare m g Hsh (Mn m) t left_le_Mn Ht Hbr).
  - apply (localFront_kept (spare g)); try done. apply learn_l.
  - simpl. rewrite put_eq, length_app. simpl. lia.
  - rewrite <- ET. apply (P_written m' (with_elems t (elems g t ++ [x])) w' t canAlloc x lf);
      [|apply (room_mono lf w') in Hr; [|apply learn_l]; destruct Hr as [[H0 H1] H2]; by unfold room, known_front, seen_front; rewrite EF, ET].
    unfold pending. simpl. rewrite put_eq, ET, length_app. simpl in *. split; [lia|]. by apply list_lookup_middle.
Qed.

(** An element enters the queue. *)
Lemma fview_tail m' g' lg :
  vis m' = vis m -> Kn m' = Kn m -> (forall a, a <> t -> items m' g' a = items m g a) ->
  items m' g' t = items m g t ++ lg -> fview m' g' = fview m g ++ lg.
Proof.
  intros Ev EK Hi Hit. unfold fview. rewrite Ev, EK. pose proof (vis_length _ _ Hsh) as Hlen.
  pose proof (Kn_le_Mn _ _ Hsh) as [HKM _]. pose proof (s_left _ _ Hsh) as Hl.
  assert (vis m = take (Mn m) (vis m) ++ [t]) as E by (rewrite <- take_S_r by done; by rewrite take_ge by lia).
  assert (forall a, a ∈ drop (Kn m) (take (Mn m) (vis m)) -> a <> t) as Hne.
  { intros a Ha ->. apply list_elem_of_lookup in Ha as (i & Ha). rewrite lookup_drop in Ha.
    apply lookup_take_Some in Ha as [Ha Hik]. pose proof (tail_unique (Kn m + i) ltac:(lia) Ha). lia. }
  rewrite E, drop_app_le by (rewrite length_take; lia). rewrite !map_app, !concat_app. simpl. rewrite !app_nil_r, Hit, app_assoc.
  do 2 f_equal. f_equal. apply map_ext_in. intros a Ha%list_elem_of_In. auto.
Qed.

Lemma p_publish_ok choice lf :
  producer_ok m g w (spare g) -> length (elems g t) = 1 + Tn m t -> pending m g x t -> cell_known m t (Tn m t) (rel w) ->
  room m w t lf ->
  after (exec Producer choice (Store (Tail t) (Z.of_nat (S (Tn m t) mod sz m t))) m w) (p_post (fun _ => Ret true)).
Proof.
  intros Hok Hq [_ Hpx] Hk Hr. pose proof (b_tail _ _ _ tail_ok) as [Hc _].
  apply store_after; [by eapply ring_field; [|apply tail_in_ring|]|done|done|done|by apply (own_known (spare g) Hok)|].
  set (V := learn _ _ _). set (w' := did _ _ w). set (v := Z.of_nat _). set (m' := push _ _ m).
  assert (below (cur w) (cur w')) as B1 by apply learn_l.
  assert (Tn m' t = S (Tn m t)) as ET by (unfold Tn, m'; rewrite count_push_eq; lia).
  assert (Fn m' t = Fn m t) as EF by by apply Fn_push.
  assert (exists lf, last (vals m' (LocalFront t)) = Some (Z.of_nat (lf mod sz m t)) /\ seen_front m' w' t lf) as Hlf.
  { exists lf. unfold m' at 1. rewrite vals_push_ne by done. apply (room_mono lf w' B1) in Hr.
    destruct Hr as [[H0 (H1 & H2 & H3)] H4]. unfold seen_front. rewrite EF, ET. done. }
  assert (block_ok m' (elems g t) t) as Hb by (by apply tail_push_ok; [apply tail_ok|..]).
  assert (cell_known m t (Tn m t) V) as HkV by (eapply cell_known_mono; [apply learn_l|done]).
  assert (forall b, b ∈ spare g -> b ∈ spare g /\ (b = t -> elems g t = elems g t /\ Tail t <> Tail t)) as Hfree.
  { intros b Hbr. split; [done|]. intros ->. destruct (vis_not_spare m g Hsh (Mn m) t left_le_Mn Ht Hbr). }
  exists (with_elems t (elems g t)). split; [|split; [|split; [|split]]].
  - eapply (pushed_produced t (Tail t) v V); try done; by left.
  - eapply (pushed_shared t (Tail t) v V); try done; by left.
  - intros b _. apply (pushed_elems t (elems g t)). by left.
  - exists t. destruct (pushed_at t (Tail t) v V eq_refl) as (Ev & EK & EM). fold m' in Ev, EK, EM. split; [by rewrite Ev, EM|]. split.
    + eapply (pushed_ok t (Tail t) v V (elems g t) (spare g)); try done; by left.
    + unfold quiet. simpl. rewrite put_eq, ET. lia.
  - destruct (pushed_at t (Tail t) v V eq_refl) as (Ev & EK & _). fold m' in Ev, EK. apply fview_tail; [done|done| |].
    + intros a Ha. unfold items. simpl. rewrite put_ne by done. unfold m'. rewrite Fn_push, Tn_push; [done|congruence|done].
    + unfold items. simpl. rewrite put_eq, ET, EF. pose proof (b_counts _ _ _ tail_ok).
      rewrite (take_S_r _ (Tn m t) x) by done. rewrite drop_app_le; [done|]. rewrite length_take. lia.
Qed.

(** *** The tail moves to the next block *)
Section enter.
Context (n : Z) (rest : list Z) (Hs : spare g = n :: rest) (Hq : quiet m (elems g t) t).
Context (Hf : filled m g w x n) (Hrel : forall l, owner l = Producer -> count m l <= rel w (W l)) (Hfr : freed m n (rel w)).
Let V := learn (W TailBlock) (S (count m TailBlock)) (rel w).
Let m' := push TailBlock (n, V) m.
Let g' := {| elems := elems g; spare := rest; left := left g |}.

Lemma enter_same a : same_block m m' a.
Proof. split; [done|]. intros l Hb. simpl. rewrite put_ne; [done|]. by intros ->. Qed.
Lemma enter_vis : vis m' = vis m ++ [n].
Proof. apply vals_push_eq. Qed.
Lemma enter_Kn : Kn m' = Kn m.
Proof. unfold Kn, m'. by rewrite count_push_ne. Qed.
Lemma enter_Mn : Mn m' = S (Mn m).
Proof. unfold Mn, m'. rewrite count_push_eq. pose proof (Kn_le_Mn _ _ Hsh) as [_ E]. unfold Mn in E. lia. Qed.
Lemma enter_ring : ring m' g' = ring m g.
Proof.
  unfold ring. rewrite enter_vis, Hs. simpl. rewrite drop_app_le, <- app_assoc; [done|].
  rewrite (vis_length _ _ Hsh). pose proof left_le_Mn. lia.
Qed.
Lemma enter_lookup k a : vis m' !! k = Some a -> vis m !! k = Some a /\ k <= Mn m \/ k = S (Mn m) /\ a = n.
Proof.
  rewrite enter_vis, lookup_app_Some, (vis_length _ _ Hsh). intros [H|[Hk H]].
  - left. split; [done|]. apply lookup_lt_Some in H. rewrite (vis_length _ _ Hsh) in H. lia.
  - apply list_lookup_singleton_Some in H as [H <-]. right. split; [lia|done].
Qed.

Lemma enter_count : count m TailBlock = S (Mn m).
Proof. by destruct (Kn_le_Mn _ _ Hsh) as [_ <-]. Qed.

Lemma enter_full_view : full_view m' t V.
Proof.
  apply (same_full_view _ _ _ (enter_same t)). pose proof (Hrel (Tail t) eq_refl). pose proof (Hrel (Next t) eq_refl).
  unfold full_view, V. by rewrite !learn_ne.
Qed.

Lemma enter_entered : entered m' n V.
Proof.
  apply (same_entered _ _ _ (enter_same n)). destruct Hf as (ET & Hqn & _). pose proof (free_ok n rest Hs) as Hb.
  pose proof (Hrel (SizeMask n) eq_refl) as H1. rewrite <- vals_length, (b_mask _ _ _ Hb) in H1.
  pose proof (Hrel (Tail n) eq_refl) as H2. pose proof (Hrel (cell m n (Fn m n)) eq_refl) as H3. unfold quiet in Hqn.
  pose proof (block_size _ _ _ Hb). rewrite (cell_count m _ n Hb) in H3 by lia.
  split; [|split].
  - unfold V. by rewrite learn_ne.
  - unfold V. rewrite learn_ne by done. unfold Tn in ET. pose proof (b_tail _ _ _ Hb). lia.
  - unfold cell_known, V. by rewrite learn_ne.
Qed.

Lemma shared_enter : shared m' g'.
Proof.
  pose proof enter_vis as Ev. pose proof enter_Kn as EK. pose proof enter_Mn as EM. pose proof enter_ring as Er. pose proof enter_count as Ec.
  pose proof (Kn_le_Mn _ _ Hsh) as [HKM _]. pose proof (vis_length _ _ Hsh) as Hlen. pose proof left_le_Mn.
  pose proof Hsh as [H1 H2 H3 H4 H5 H6 H7 H8 H9 H10 H11]. split; rewrite ?Er, ?EK, ?EM; try done.
  - destruct H1 as (E1 & E2 & E3). unfold m'. rewrite count_push_ne, vals_push_ne by done. fold m'. rewrite Ev, length_app, take_app_le by lia.
    split; [done|]. split; [done|lia].
  - intros a Ha. eapply (same_block_ok m); [apply enter_same|]. by apply H5.
  - apply unread_push, H7.
  - intros l a Hb Hh. unfold m'. rewrite count_push_ne by (by intros ->). by apply (H8 l a).
  - intros k a Hk Ha. pose proof (enter_same a) as Hsame. destruct (enter_lookup k a Ha) as [[Ha' _]|[-> _]]; [|lia].
    destruct (H9 k a Hk Ha') as [E1 E2]. split; [by apply (same_empty _ _ _ Hsame)|]. apply passes_push_ne; [done|].
    eapply passes_impl; [|exact E2]. intros U. by apply same_freed.
  - intros k a Hk Ha. pose proof (enter_same a) as Hsame. destruct (enter_lookup k a Ha) as [[Ha' Hle]|[-> _]]; [|lia].
    destruct (decide (k = Mn m)) as [->|Hne].
    + rewrite Ht in Ha'. injection Ha' as <-. unfold quiet. rewrite (same_Tn _ _ _ Hsame). split; [done|].
      rewrite <- Ec. apply passes_push_new, enter_full_view.
    + destruct (H10 k a ltac:(lia) Ha') as [E1 E2]. unfold quiet. rewrite (same_Tn _ _ _ Hsame). split; [done|].
      apply passes_push_old; [lia|]. eapply passes_impl; [|exact E2]. intros U. by apply same_full_view.
  - intros k a Hk Ha. pose proof (enter_same a) as Hsame. rewrite (same_Fn _ _ _ Hsame), (same_Tn _ _ _ Hsame).
    destruct (enter_lookup k a Ha) as [[Ha' Hle]|[-> ->]].
    + destruct (H11 k a ltac:(lia) Ha') as (E1 & E2 & E3). split; [done|]. split.
      * apply passes_push_old; [lia|]. eapply passes_impl; [|exact E2]. intros U. by apply same_entered.
      * intros e He. apply passes_push_ne; [done|]. eapply passes_impl; [|by apply E3]. intros U. by apply same_cell_known.
    + destruct Hf as (ET & _). split; [lia|]. split; [|intros; lia]. rewrite <- Ec. apply passes_push_new, enter_entered.
Qed.

Lemma produced_enter : produced m m' g.
Proof.
  split; try done.
  - intros l'. simpl. unfold put. case_decide as El; [subst; by eexists|]. exists []. by rewrite app_nil_r.
  - intros l' Ho _. simpl. apply put_ne. by intros ->.
  - intros f e _ He. rewrite (same_Tn _ _ _ (enter_same f)) in He. lia.
  - intros k a Hk Ha. rewrite enter_Mn in Hk. destruct (enter_lookup k a Ha) as [[_ Hle]|[-> ->]]; [lia|].
    rewrite <- enter_count. apply passes_push_new. destruct Hfr as (E1 & E2 & _).
    rewrite !(same_count _ _ _ (enter_same n)) by done. unfold V. simpl. by rewrite !learn_ne.
Qed.

Lemma fview_enter : fview m' g' = fview m g ++ [x].
Proof.
  destruct Hf as (ET & _ & Hx & _). pose proof (Kn_le_Mn _ _ Hsh) as [HKM _].
  unfold fview. rewrite enter_Kn, enter_vis, drop_app_le by (rewrite (vis_length _ _ Hsh); lia). rewrite map_app, concat_app. f_equal.
  simpl. rewrite app_nil_r. unfold items. rewrite (same_Fn _ _ _ (enter_same n)), (same_Tn _ _ _ (enter_same n)), ET. simpl.
  rewrite (drop_S _ x) by (by rewrite lookup_take_lt by lia). by rewrite skipn_firstn_comm, Nat.sub_diag.
Qed.

Lemma idle_enter : producer_ok m g w rest -> producer_idle m' g' (did (W TailBlock) (S (count m TailBlock)) w) n.
Proof.
  intros Hok. set (w' := did _ _ w). assert (below (cur w) (cur w')) as B1 by apply learn_l.
  assert (below (acq w) (acq w')) as B2 by apply learn_l. pose proof (enter_same n) as Hsame. pose proof Hf as (ET & Hqn & _ & Hfn & HlF).
  assert (vis m' !! Mn m' = Some n) as Hv by (rewrite enter_vis, enter_Mn; apply list_lookup_middle; by rewrite (vis_length _ _ Hsh)).
  split; [done|]. split; [|unfold quiet; simpl; by rewrite (same_Tn _ _ _ Hsame)].
  destruct (producer_ok_mono g w' rest B1 B2 Hok) as [I1 I2 I3 I4 I5]. split; rewrite ?enter_ring; try done.
  - intros l Ho. unfold m'. rewrite count_push. case_decide as El; [subst; simpl; rewrite learn_eq; lia|auto].
  - intros t' Ht'. rewrite Hv in Ht'. injection Ht' as <-. exists (Fn m n). pose proof (block_size _ _ _ (free_ok n rest Hs)).
    rewrite (same_vals _ _ _ Hsame), (same_Fn _ _ _ Hsame), (same_Tn _ _ _ Hsame) by done. split; [done|]. split; [done|].
    split; [rewrite ET; change (sz m' n) with (sz m n); lia|]. destruct Hfn as (E1 & _). specialize (B1 (W (Front n))).
    pose proof (b_front _ _ _ (free_ok n rest Hs)). unfold Fn. lia.
Qed.

Lemma p_link_store_ok choice :
  producer_ok m g w rest -> after (exec Producer choice (Store TailBlock n) m w) (p_post (fun _ => Ret true)).
Proof.
  intros Hok. pose proof (own_known rest Hok TailBlock eq_refl) as Hk. pose proof enter_count.
  apply store_after; [done|done|done|lia|done|]. exists g'.
  split; [apply produced_enter|]. split; [apply shared_enter|]. split; [by left|]. split; [exists n; by apply idle_enter|apply fview_enter].
Qed.
End enter.

(** *** Changes outside the ring *)
Section outside.
Context (m' : memory var) (w' : views var) (Hsame : forall a, a ∈ ring m g -> same_block m m' a).
Context (HF : msgs m' FrontBlock = msgs m FrontBlock) (HT : msgs m' TailBlock = msgs m TailBlock).

Lemma outside_vis : vis m' = vis m /\ Kn m' = Kn m /\ Mn m' = Mn m /\ ring m' g = ring m g.
Proof. unfold ring, vis, vals, Kn, Mn, count. by rewrite HF, HT. Qed.

Lemma shared_outside :
  privates m' -> (forall l t', count m' l = 0 -> reads m' t' l = 0) ->
  (forall l a, block_of l = Some a -> heap m' !! a = None -> count m' l = 0) -> shared m' g.
Proof.
  intros Hp Hu Hfr. destruct outside_vis as (Ev & EK & EM & Er).
  assert (forall k a, left g <= k -> vis m !! k = Some a -> same_block m m' a) as Hv by (intros; eapply Hsame, vis_in_ring; eauto).
  assert (forall i P, passes m' TailBlock i P <-> passes m TailBlock i P) as HpT by (intros; unfold passes; by rewrite HT).
  assert (forall i P, passes m' FrontBlock i P <-> passes m FrontBlock i P) as HpF by (intros; unfold passes; by rewrite HF).
  destruct Hsh as [H1 H2 H3 H4 H5 H6 H7 H8 H9 H10 H11]. split; rewrite ?Er, ?Ev, ?EK, ?EM; try done.
  - unfold count, vals in *. by rewrite HF.
  - intros i a b Ha Hb. rewrite (same_vals m m' a) by (try done; by eapply Hsame, list_elem_of_lookup_2). by apply (H4 i).
  - intros a Ha. apply (same_block_ok m); auto.
  - intros k a Hk Ha. pose proof (Hv k a ltac:(lia) Ha) as Hs. destruct (H9 k a Hk Ha) as [E1 E2].
    split; [by apply (same_empty _ _ _ Hs)|]. apply HpF. eapply passes_impl; [|exact E2]. intros U. by apply same_freed.
  - intros k a Hk Ha. pose proof (Hv k a ltac:(lia) Ha) as Hs. destruct (H10 k a Hk Ha) as [E1 E2].
    unfold quiet. rewrite (same_Tn _ _ _ Hs). split; [done|]. apply HpT. eapply passes_impl; [|exact E2]. intros U. by apply same_full_view.
  - intros k a Hk Ha. pose proof (Hv k a ltac:(lia) Ha) as Hs. destruct (H11 k a Hk Ha) as (E1 & E2 & E3).
    rewrite (same_Fn _ _ _ Hs), (same_Tn _ _ _ Hs). split; [done|]. split.
    + apply HpT. eapply passes_impl; [|exact E2]. intros U. by apply same_entered.
    + intros e He. rewrite (same_passes _ _ _ Hs) by done. eapply passes_impl; [|by apply E3]. intros U. by apply same_cell_known.
Qed.

Lemma producer_ok_outside :
  below (cur w) (cur w') -> below (acq w) (acq w') -> (forall l, owner l = Producer -> count m' l <= cur w' (W l)) ->
  (exists k, 1 <= k <= 10 /\ last (vals m' LargestBlockSize) = Some (2 ^ Z.of_nat k)%Z) ->
  producer_ok m g w [] -> producer_ok m' g w' [].
Proof.
  intros B1 B2 Ho Hk Hok. destruct outside_vis as (Ev & EK & EM & Er).
  destruct (producer_ok_mono g w' [] B1 B2 Hok) as [I1 I2 I3 I4 I5]. split; rewrite ?Er, ?Ev, ?EM; try done.
  - intros a Ha. by apply elem_of_nil in Ha.
  - intros t' Ht'. rewrite Ht in Ht'. injection Ht' as <-. destruct (I4 t Ht) as (lf & E & Hlf). exists lf.
    pose proof (Hsame t tail_in_ring) as Hs.
    rewrite (same_vals _ _ _ Hs), (same_Fn _ _ _ Hs), (same_Tn _ _ _ Hs), (same_sz _ _ _ Hs) by done. done.
Qed.

Lemma fview_outside : fview m' g = fview m g.
Proof.
  destruct outside_vis as (Ev & EK & _). apply fview_eq; [done|done|]. intros a (i & Hi)%list_elem_of_lookup.
  rewrite lookup_drop in Hi. pose proof (s_left _ _ Hsh).
  assert (same_block m m' a) as Hs by (eapply Hsame, vis_in_ring; [|exact Hi]; lia).
  unfold items. by rewrite (same_Fn _ _ _ Hs), (same_Tn _ _ _ Hs).
Qed.

Lemma outside_post k v p :
  produced m m' g -> privates m' -> (forall l t', count m' l = 0 -> reads m' t' l = 0) ->
  (forall l a, block_of l = Some a -> heap m' !! a = None -> count m' l = 0) ->
  below (cur w) (cur w') -> below (acq w) (acq w') -> (forall l, owner l = Producer -> count m' l <= cur w' (W l)) ->
  (exists k, 1 <= k <= 10 /\ last (vals m' LargestBlockSize) = Some (2 ^ Z.of_nat k)%Z) ->
  producer_ok m g w [] -> length (elems g t) = 0 + Tn m t ->
  k v = p -> ppoint m' g w' t canAlloc x 0 [] p -> p_post k (v, m', w').
Proof.
  intros H1 H2 H3 H4 H5 H6 H7 H8 H9 H10 <- H11. destruct outside_vis as (Ev & EK & EM & Er).
  apply (p_at k v m' w' g 0 []); [done|by apply shared_outside|by left|apply fview_outside|by rewrite Ev, EM|
    by apply producer_ok_outside|by rewrite (same_Tn m m' t) by (apply Hsame, tail_in_ring)|done].
Qed.
End outside.

(** *** A new block *)
Section new_block.
Context (Hs : spare g = []) (Hok : producer_ok m g w []) (Hq : length (elems g t) = 0 + Tn m t).

Lemma p_new_ok choice :
  after (exec Producer choice (Read LargestBlockSize) m w) (p_post (fun v => resume (enqueue_new x t) [v])).
Proof.
  destruct (p_largest _ _ _ _ Hok) as (k & Hk & E).
  apply (p_read 0 [] Hok Hq LargestBlockSize (2 ^ Z.of_nat k)%Z); try done. intros w' _ _. by apply P_new_size.
Qed.

Lemma new_size k : 1 <= k <= 10 -> exists k', 1 <= k' <= 10 /\
  (if (MAX_BLOCK_SIZE <=? 2 ^ Z.of_nat k)%Z then 2 ^ Z.of_nat k else u64 (2 ^ Z.of_nat k * 2))%Z = (2 ^ Z.of_nat k')%Z.
Proof.
  intros Hk. unfold MAX_BLOCK_SIZE. case_match eqn:E; [by exists k|]. apply Z.leb_gt in E. exists (S k).
  assert (Z.of_nat k < 9)%Z by (apply (Z.pow_lt_mono_r_iff 2); lia). split; [lia|].
  assert (2 ^ Z.of_nat (S k) = 2 ^ Z.of_nat k * 2)%Z as -> by (rewrite Nat2Z.inj_succ, Z.pow_succ_r by lia; lia).
  apply u64_small. unfold is_u64. lia.
Qed.

Lemma not_in_ring n : heap m !! n = None -> n ∉ ring m g.
Proof. intros Hn Hr. destruct (b_heap _ _ _ (ring_ok _ _ Hsh _ Hr)) as [E _]. by rewrite Hn in E. Qed.

Lemma p_new_size_ok choice k :
  1 <= k <= 10 -> last (vals m LargestBlockSize) = Some (2 ^ Z.of_nat k)%Z ->
  after (exec Producer choice (Malloc (if (MAX_BLOCK_SIZE <=? 2 ^ Z.of_nat k)%Z then 2 ^ Z.of_nat k else u64 (2 ^ Z.of_nat k * 2))%Z) m w)
    (p_post (fun v => resume (enqueue_new x t) [2 ^ Z.of_nat k; v]%Z)).
Proof.
  intros Hk Hla. destruct (new_size k Hk) as (k' & Hk' & Es). cbn [resume enqueue_new]. rewrite Es. simpl.
  set (size := (2 ^ Z.of_nat k')%Z). destruct (Z.eqb_spec choice NULL) as [->|Hne].
  - exists g. split; [apply produced_refl|]. split; [done|]. split; [by left|]. simpl. rewrite app_nil_r. split; [|done].
    exists t. split; [done|]. by rewrite Hs.
  - destruct (heap m !! choice) as [|] eqn:E; [done|]. set (n := choice) in *. pose proof (not_in_ring n E) as Hnr.
    cbn [after]. assert ((n =? NULL)%Z = false) as En by by apply Z.eqb_neq.
    eapply (outside_post (allocate n size m)); [|done|done| |apply (s_private _ _ Hsh)|apply (s_unread _ _ Hsh)| |
      apply below_refl|apply below_refl|apply Hok|apply Hok|done|done|cbv beta; rewrite En; reflexivity|].
    + intros a Ha. split; [|done]. simpl. rewrite lookup_insert_ne; [done|]. by intros ->.
    + split; try done.
      * simpl. by apply insert_subseteq.
      * intros l. exists []. by rewrite app_nil_r.
      * intros f e Hf. change (Tn (allocate n size m) f) with (Tn m f). lia.
      * intros j a. change (Mn (allocate n size m)) with (Mn m). lia.
    + intros l a Hl Hh. simpl in Hh. apply lookup_insert_None in Hh as [Hh _]. by eapply (s_fresh _ _ Hsh).
    + apply (P_new_write (allocate n size m) g w t canAlloc x n size 0); [done| |lia]. split.
      * simpl. by rewrite lookup_insert_eq.
      * by exists k'.
      * done.
      * intros l Hl. pose proof (s_fresh _ _ Hsh l n Hl E) as Hc. rewrite <- vals_length in Hc.
        change (vals (allocate n size m) l) with (vals m l). by destruct (vals m l).
      * intros l Hl. pose proof (s_fresh _ _ Hsh l n Hl E) as Hc. change (count (allocate n size m) l) with (count m l).
        rewrite Hc. split; [lia|]. by apply (s_unread _ _ Hsh).
Qed.

(** What is known of a new block. *)
Section made_facts.
Context (n size : Z) (log : list (var * Z)) (Hm : made m g w n size log) (l : var).

Lemma made_count : block_of l = Some n -> count m l = length (written l log).
Proof. intros El. by rewrite <- vals_length, (m_vals _ _ _ _ _ _ Hm l El). Qed.

Lemma made_valid : block_of l = Some n -> (forall i, l = Cell n i -> i = 0%Z) -> valid m l = true.
Proof.
  intros El Hi. destruct (m_heap _ _ _ _ _ _ Hm) as [Hh _]. destruct (m_size _ _ _ _ _ _ Hm) as (k & Hk & ->).
  destruct l; simplify_eq/=; unfold valid; simpl; rewrite Hh; try done. rewrite (Hi i eq_refl).
  apply andb_true_iff. split; [done|]. apply Z.ltb_lt. lia.
Qed.

Context (Hl : block_of l = Some n \/ l = LargestBlockSize).
Lemma made_cur : cur w (W l) = count m l.
Proof.
  pose proof (known_bounded _ _ Hwf Producer l). destruct Hl as [El| ->]; [|by apply (own_known [] Hok)].
  destruct (m_known _ _ _ _ _ _ Hm l El). lia.
Qed.

Lemma made_unread : reads m Consumer l = 0.
Proof. destruct Hl as [El| ->]; [by apply (m_known _ _ _ _ _ _ Hm)|apply (s_private _ _ Hsh)]. Qed.
End made_facts.

(** Writes to the new block. *)
Section fill.
Context (n size : Z) (log : list (var * Z)) (Hm : made m g w n size log).
Context (l : var) (v : Z) (V : view var) (Hl : block_of l = Some n \/ l = LargestBlockSize /\ v = size).
Let m' := push l (v, V) m.
Let w' := did (W l) (S (count m l)) w.

Lemma made_push : made m' g w' n size (log ++ [(l, v)]).
Proof.
  destruct Hm as [H1 H2 H3 H4 H5]. split; try done.
  - assert (ring m' g = ring m g) as Er; [|by rewrite Er]. unfold ring, vis, m'. rewrite vals_push_ne; [done|].
    intros <-. by destruct Hl as [|[]].
  - intros l' Hl'. unfold m'. rewrite vals_push, written_snoc. simpl.
    repeat case_decide; try congruence; [subst l'; by rewrite (H4 l Hl')|by rewrite app_nil_r, (H4 l' Hl')].
  - intros l' Hl'. destruct (H5 l' Hl') as [E1 E2]. split; [|done]. unfold m', w'. rewrite count_push. simpl.
    case_decide as El; [subst; rewrite learn_eq; lia|]. rewrite learn_ne by congruence. done.
Qed.

Lemma new_post k r :
  ppoint m' g w' t canAlloc x 0 [] (k r) -> p_post k (r, m', w').
Proof.
  intros Hp. destruct Hm as [H1 H2 H3 H4 H5].
  assert (forall l', l' <> l -> msgs m' l' = msgs m l') as Hne by (intros l' Hne; simpl; by apply put_ne).
  apply (outside_post m' w') with (p := k r); try done.
  - intros a Ha. split; [done|]. intros l' Hl'. split; [|done]. apply Hne. intros ->.
    destruct Hl as [El|[-> _]]; [|done]. rewrite El in Hl'. by injection Hl' as ->.
  - apply Hne. intros <-. by destruct Hl as [|[]].
  - apply Hne. intros <-. by destruct Hl as [|[]].
  - apply produced_push.
    + destruct Hl as [El|[-> _]]; [right; by exists n|by left].
    + intros ->. by destruct Hl as [|[]].
    + intros a ->. destruct Hl as [El|[? _]]; [|done]. injection El as ->. pose proof (s_left _ _ Hsh).
      split; [intros k' Hk' Ha|intros Ha]; destruct H3; (eapply vis_in_ring; [|exact Ha]); lia.
  - apply (s_private _ _ Hsh).
  - apply unread_push, (s_unread _ _ Hsh).
  - intros l' a Hl' Hh. unfold m'. rewrite count_push_ne; [by eapply (s_fresh _ _ Hsh)|]. intros ->.
    destruct Hl as [El|[-> _]]; [|done]. rewrite El in Hl'. injection Hl' as ->. destruct H1 as [E _].
    change (heap m !! a = None) in Hh. by rewrite E in Hh.
  - apply learn_l.
  - apply learn_l.
  - intros l' Ho. unfold m', w'. rewrite count_push. simpl. case_decide as El; [subst; rewrite learn_eq; lia|].
    rewrite learn_ne by congruence. by apply (p_own _ _ _ _ Hok).
  - unfold m'. rewrite vals_push. case_decide as El; [|apply Hok]. destruct Hl as [E|[_ ->]]; [by rewrite <- El in E|].
    destruct H2 as (k' & Hk' & ->). exists k'. split; [done|]. by rewrite last_snoc.
Qed.

End fill.

Lemma new_log_entry n size i l v :
  new_log x n size !! i = Some (l, v) ->
  (block_of l = Some n \/ l = LargestBlockSize /\ v = size) /\ (forall c, l = Cell n c -> c = 0%Z) /\
  (is_atomic l = true -> written l (take i (new_log x n size)) = []).
Proof.
  unfold new_log, make_block. simpl. intros Hi.
  do 8 (destruct i as [|i]; [injection Hi as <- <-; split_and!; [first [by left|by right]|by intros c [= <-]|intros _; try done; read_log]|]).
  done.
Qed.

Lemma p_new_write_ok choice n size i l v :
  made m g w n size (take i (new_log x n size)) -> new_log x n size !! i = Some (l, v) ->
  after (exec Producer choice (Write l v) m w)
    (p_post (fun _ => write_all (drop (S i) (new_log x n size)) (check_new_block t n))).
Proof.
  intros Hm Hi. destruct (new_log_entry n size i l v Hi) as (Hl & Hcell & Hat).
  apply write_after.
  - destruct Hl as [El|[-> _]]; [by eapply made_valid|done].
  - apply (made_cur n size _ Hm l). destruct Hl as [|[]]; [by left|by right].
  - change (reads m Consumer l <= cur w (R Consumer l)). rewrite (made_unread n size _ Hm l); [lia|]. destruct Hl as [|[]]; [by left|by right].
  - intros Ha. destruct Hl as [El|[-> _]]; [|done]. by rewrite (made_count n size _ Hm l El), (Hat Ha).
  - apply (new_post n size _ Hm l v _ Hl). set (V := just _ _).
    pose proof (made_push n size _ Hm l v V Hl) as Hm'. rewrite <- (take_S_r _ _ _ Hi) in Hm'.
    destruct (decide (S i < 8)) as [Hlt|Hge]; [by apply P_new_write|].
    assert (i = 7) as ->; [|by apply (P_new_check _ _ _ _ _ _ n size)].
    apply lookup_lt_Some in Hi. simpl in Hi. lia.
Qed.

Section made.
Context (n size : Z).
Notation log0 := (new_log x n size).

Lemma p_new_check_ok choice :
  made m g w n size log0 ->
  after (exec Producer choice (Load (Front n)) m w)
    (p_post (fun front => if negb (front =? 0)%Z then AssertionFails else link_block t n)).
Proof.
  intros Hm. assert (written (Front n) log0 = [0%Z]) as E by read_log.
  pose proof (made_count n size log0 Hm (Front n) eq_refl) as Hc. rewrite E in Hc.
  pose proof (made_cur n size log0 Hm (Front n) ltac:(by left)) as Hw.
  eapply (p_load_exact 0 [] Hok Hq); [by eapply made_valid|done|rewrite Hw, Hc; simpl; lia| |].
  - by rewrite (m_vals _ _ _ _ _ _ Hm (Front n) eq_refl), E.
  - intros w' Hcw _. simpl. apply (P_new_local _ _ _ _ _ _ n size); [done|]. destruct Hm as [H1 H2 H3 H4 H5]. split; try done.
    intros l Hl. destruct (H5 l Hl). specialize (Hcw (W l)). split; [lia|done].
Qed.

Lemma p_new_local_ok choice :
  made m g w n size log0 ->
  after (exec Producer choice (Write (LocalTail n) 1) m w) (p_post (fun v => resume (link_block t n) [v])).
Proof.
  intros Hm. assert (block_of (LocalTail n) = Some n \/ LocalTail n = LargestBlockSize /\ 1%Z = size) as Hl by by left.
  apply write_after; [by eapply made_valid|by eapply made_cur; [|left]| |done|].
  - change (reads m Consumer (LocalTail n) <= cur w (R Consumer (LocalTail n))). rewrite (made_unread n size _ Hm); [lia|by left].
  - apply (new_post n size _ Hm _ _ _ Hl). apply (P_new_tail _ _ _ _ _ _ n size); [done|by apply made_push].
Qed.

Lemma p_new_tail_ok choice :
  made m g w n size (log0 ++ [(LocalTail n, 1%Z)]) ->
  after (exec Producer choice (Store (Tail n) 1) m w) (p_post (fun v => resume (link_block t n) [0%Z; v])).
Proof.
  intros Hm. assert (block_of (Tail n) = Some n \/ Tail n = LargestBlockSize /\ 1%Z = size) as Hl by by left.
  assert (written (Tail n) (log0 ++ [(LocalTail n, 1%Z)]) = [0%Z]) as E by (unfold new_log; read_log).
  apply store_after; [by eapply made_valid|done|done| |by eapply made_cur; [|left]|].
  - by rewrite (made_count n size _ Hm (Tail n) eq_refl), E.
  - apply (new_post n size _ Hm _ _ _ Hl). apply (P_new_next _ _ _ _ _ _ n size); [done|].
    apply (made_push _ _ _ Hm _ _ (learn (W (Tail n)) (S (count m (Tail n))) (rel w))) in Hl. by rewrite <- app_assoc in Hl.
Qed.

Lemma p_new_next_ok choice :
  made m g w n size (log0 ++ [(LocalTail n, 1%Z); (Tail n, 1%Z)]) ->
  after (exec Producer choice (Load (Next t)) m w) (p_post (fun v => resume (link_block t n) [0%Z; 0%Z; v])).
Proof.
  intros Hm. destruct next_last as (nx & Hh & HlN). rewrite Hs in Hh. simpl in Hh.
  eapply (next_load 0 []); [done|done|exact HlN|]. intros w' Hcw. apply (P_new_own _ _ _ _ _ _ n size nx); [done| |].
  - destruct Hm as [H1 H2 H3 H4 H5]. split; try done. intros l Hl. destruct (H5 l Hl). specialize (Hcw (W l)). split; [lia|done].
  - rewrite head_lookup, lookup_take_lt, lookup_drop, Nat.add_0_r in Hh by lia. done.
Qed.

Lemma p_new_own_ok choice nx :
  made m g w n size (log0 ++ [(LocalTail n, 1%Z); (Tail n, 1%Z)]) -> vis m !! left g = Some nx ->
  after (exec Producer choice (Store (Next n) nx) m w) (p_post (fun v => resume (link_block t n) [0%Z; 0%Z; nx; v])).
Proof.
  intros Hm Hnx. assert (block_of (Next n) = Some n \/ Next n = LargestBlockSize /\ nx = size) as Hl by by left.
  assert (written (Next n) (log0 ++ [(LocalTail n, 1%Z); (Tail n, 1%Z)]) = [NULL]) as E by (unfold new_log; read_log).
  apply store_after; [by eapply made_valid|done|done| |by eapply made_cur; [|left]|].
  - by rewrite (made_count n size _ Hm (Next n) eq_refl), E.
  - apply (new_post n size _ Hm _ _ _ Hl). apply (P_new_link _ _ _ _ _ _ n size nx); [done| |].
    + apply (made_push _ _ _ Hm _ _ (learn (W (Next n)) (S (count m (Next n))) (rel w))) in Hl. by rewrite <- app_assoc in Hl.
    + unfold vis. by rewrite vals_push_ne.
Qed.
End made.

(** The new block joins the ring. *)
Section link.
Context (n size nx : Z) (V : view var).
Let log := new_log x n size ++ [(LocalTail n, 1%Z); (Tail n, 1%Z); (Next n, nx)].
Context (Hm : made m g w n size log) (Hnx : vis m !! left g = Some nx).
Let m' := push (Next t) (n, V) m.
Let g' := {| elems := put n [x] (elems g); spare := [n]; left := left g |}.
Let w' := did (W (Next t)) (S (count m (Next t))) w.

Lemma made_size : Z.of_nat (sz m n) = size /\ exists k, 1 <= k <= 10 /\ sz m n = 2 ^ k.
Proof.
  destruct (m_heap _ _ _ _ _ _ Hm) as [Hh _]. destruct (m_size _ _ _ _ _ _ Hm) as (k & Hk & ->).
  unfold sz. rewrite Hh. assert (2 ^ Z.of_nat k = Z.of_nat (2 ^ k))%Z as -> by (by rewrite Nat2Z.inj_pow).
  rewrite Nat2Z.id. split; [done|]. by exists k.
Qed.

Lemma link_not_tail : n <> t.
Proof. intros E. apply (m_new _ _ _ _ _ _ Hm). rewrite E. apply tail_in_ring. Qed.

Lemma made_read l vs' : block_of l = Some n -> written l log = vs' -> vals m l = vs' /\ count m l = length vs'.
Proof. intros Hl E. rewrite <- vals_length, (m_vals _ _ _ _ _ _ Hm l Hl), E. done. Qed.

Lemma made_counts : Fn m n = 0 /\ Tn m n = 1.
Proof.
  unfold Fn, Tn. destruct (made_read (Front n) [0%Z] eq_refl) as [_ ->]; [unfold log; read_log|].
  destruct (made_read (Tail n) [0%Z; 1%Z] eq_refl) as [_ ->]; [unfold log; read_log|]. done.
Qed.

Lemma made_cells c i : vals m (Cell n (Z.of_nat c)) !! i = [x] !! (i * sz m n + c).
Proof.
  destruct made_size as (_ & Hk). apply size_range in Hk. destruct (decide (c = 0)) as [->|Hc].
  - destruct (made_read (Cell n 0) [x] eq_refl) as [E _]; [unfold log; read_log|]. change (Z.of_nat 0) with 0%Z. rewrite E.
    destruct i as [|i]; [done|]. symmetry. simpl. by rewrite lookup_ge_None_2 by (simpl; lia).
  - assert (Cell n 0 <> Cell n (Z.of_nat c)) as Hne by (intros [= E]; lia).
    destruct (made_read (Cell n (Z.of_nat c)) [] eq_refl) as [E _]; [unfold log; read_log|].
    rewrite E. symmetry. simpl. by rewrite lookup_ge_None_2 by (simpl; lia).
Qed.

Lemma made_block_ok : block_ok m [x] n.
Proof.
  destruct made_size as (Esz & Hk). pose proof (size_range _ Hk) as Hr. destruct made_counts as [EF ET].
  destruct (made_read (Front n) [0%Z] eq_refl) as [Ef Ecf]; [unfold log; read_log|].
  destruct (made_read (Tail n) [0%Z; 1%Z] eq_refl) as [Et Ect]; [unfold log; read_log|].
  split.
  - rewrite Esz. apply (m_heap _ _ _ _ _ _ Hm).
  - done.
  - rewrite Ecf, Ef. split; [done|]. intros [|i] v Hi; simplify_eq/=. by rewrite Nat.Div0.mod_0_l.
  - rewrite Ect, Et. split; [simpl; lia|]. intros [|[|i]] v Hi; simplify_eq/=; [by rewrite Nat.Div0.mod_0_l|by rewrite Nat.mod_small by lia].
  - rewrite EF, ET. simpl. lia.
  - intros c i _. apply made_cells.
  - rewrite Esz. apply (made_read (SizeMask n)); [done|unfold log; read_log].
  - destruct (made_read (Next n) [NULL; nx] eq_refl) as [_ ->]; [unfold log; read_log|].
    destruct (made_read (LocalFront n) [0%Z] eq_refl) as [_ ->]; [unfold log; read_log|].
    destruct (made_read (LocalTail n) [0%Z; 1%Z] eq_refl) as [_ ->]; [unfold log; read_log|]. simpl. lia.
  - intros e _ He. rewrite EF in He. lia.
Qed.

Lemma link_same a : a <> t -> same_block m m' a.
Proof. intros Ha. split; [done|]. intros l Hl. simpl. rewrite put_ne; [done|]. intros ->. apply Ha. by injection Hl. Qed.

Lemma next_push_ok lg a : block_ok m lg a -> block_ok m' lg a.
Proof.
  destruct (decide (a = t)) as [->|Ha]; [|by apply same_block_ok, link_same].
  intros [H1 H2 H3 H4 H5 H6 H7 H8 H9]. split; try done. unfold m'. rewrite count_push_eq, !count_push_ne by done. lia.
Qed.

Lemma link_at : vis m' = vis m /\ Kn m' = Kn m /\ Mn m' = Mn m /\ ring m' g' = ring m g ++ [n].
Proof.
  assert (vis m' = vis m) as Ev by by apply vals_push_ne.
  unfold Kn, Mn, ring, m'. rewrite !count_push_ne by done. fold m'. rewrite Ev, Hs, app_nil_r. done.
Qed.

Lemma link_elems a : a ∈ ring m g -> elems g' a = elems g a.
Proof. intros Ha. simpl. apply put_ne. intros ->. by apply (m_new _ _ _ _ _ _ Hm). Qed.

Lemma link_links i a b :
  (ring m g ++ [n]) !! i = Some a -> ((ring m g ++ [n]) ++ take 1 (ring m g ++ [n])) !! S i = Some b -> last (vals m' (Next a)) = Some b.
Proof.
  pose proof left_le_Mn as HlM. pose proof (s_left _ _ Hsh).
  assert (ring m g = drop (left g) (vis m)) as Er by (unfold ring; by rewrite Hs, app_nil_r).
  assert (length (ring m g) = S (Mn m - left g)) as Hlen by (rewrite Er, length_drop, (vis_length _ _ Hsh); lia).
  assert (ring m g !! (Mn m - left g) = Some t) as Htr by by apply vis_ring; [lia|].
  assert (head (ring m g) = Some nx) as Hh by (by rewrite Er, head_lookup, lookup_drop, Nat.add_0_r).
  intros Ha Hb. destruct (decide (i < length (ring m g))) as [Hi|Hi].
  - rewrite lookup_app_l in Ha by done. destruct (decide (i = Mn m - left g)) as [->|Hne].
    + rewrite Htr in Ha. injection Ha as <-. unfold m'. rewrite vals_push_eq, last_snoc. rewrite <- Hb.
      rewrite lookup_app_l by (rewrite length_app; simpl; lia). rewrite lookup_app_r by lia.
      by replace (S (Mn m - left g) - length (ring m g)) with 0 by lia.
    + assert (a <> t) as Hat by (intros ->; pose proof (NoDup_lookup _ _ _ _ (s_nodup _ _ Hsh) Ha Htr); lia).
      rewrite (same_vals _ _ _ (link_same a Hat)) by done. apply (s_links _ _ Hsh i a b Ha). rewrite <- Hb.
      by rewrite !lookup_app_l by (rewrite ?length_app; simpl; lia).
  - assert (i = length (ring m g)) as ->.
    { apply lookup_lt_Some in Ha. rewrite length_app in Ha. simpl in Ha. lia. }
    rewrite list_lookup_middle in Ha by done. injection Ha as <-.
    rewrite (same_vals _ _ _ (link_same n link_not_tail)) by done.
    destruct (made_read (Next n) [NULL; nx] eq_refl) as [-> _]; [unfold log; read_log|]. rewrite <- Hb.
    rewrite lookup_app_r by (rewrite length_app; simpl; lia). rewrite length_app. simpl.
    replace (S (length (ring m g)) - (length (ring m g) + 1)) with 0 by lia.
    destruct (ring m g) as [|r rs]; [done|]. simpl in *. by injection Hh as ->.
Qed.

Lemma shared_link : shared m' g'.
Proof.
  destruct link_at as (Ev & EK & EM & Er). pose proof (m_new _ _ _ _ _ _ Hm) as Hnew. pose proof (s_left _ _ Hsh) as Hl.
  assert (forall k a, left g <= k -> vis m !! k = Some a -> elems g' a = elems g a) as Hel by (intros; eapply link_elems, vis_in_ring; eauto).
  pose proof link_links as Hlinks. pose proof Hsh as [H1 H2 H3 H4 H5 H6 H7 H8 H9 H10 H11]. split; rewrite ?Er, ?Ev, ?EK, ?EM; try done.
  - apply NoDup_app. split; [done|]. split; [|apply NoDup_singleton]. intros a Ha ->%list_elem_of_singleton. done.
  - intros a [Ha| ->%list_elem_of_singleton]%elem_of_app; apply next_push_ok.
    + rewrite link_elems by done. auto.
    + simpl. rewrite put_eq. apply made_block_ok.
  - apply unread_push, H7.
  - intros l a Hb Hh. unfold m'. rewrite count_push_ne; [by apply (H8 l a)|]. intros ->. injection Hb as <-.
    destruct (b_heap _ _ _ tail_ok) as [E _]. change (heap m !! t = None) in Hh. by rewrite E in Hh.
  - intros k a Hk Ha. change (left g <= k < Kn m) in Hk. rewrite (Hel k a) by (lia || done). exact (H9 k a Hk Ha).
  - intros k a Hk Ha. rewrite (Hel k a) by (lia || done). destruct (H10 k a Hk Ha) as [E1 E2]. split; [done|].
    apply passes_push_ne; [done|]. eapply passes_impl; [|exact E2]. intros U. apply same_full_view, link_same. intros ->.
    pose proof (tail_unique k ltac:(lia) Ha). lia.
Qed.

Lemma link_ok : producer_ok m' g' w' [].
Proof.
  destruct link_at as (Ev & EK & EM & Er). assert (below (cur w) (cur w')) as B1 by apply learn_l.
  assert (below (acq w) (acq w')) as B2 by apply learn_l. destruct (producer_ok_mono g w' [] B1 B2 Hok) as [I1 I2 I3 I4 I5].
  split; rewrite ?Er, ?Ev, ?EM; try done.
  - intros l Ho. unfold m'. rewrite count_push. case_decide as El; [subst; simpl; rewrite learn_eq; lia|auto].
  - destruct I2 as [I2 I2']. split; [|done]. intros a [Ha| ->%list_elem_of_singleton]%elem_of_app; [auto|].
    destruct (made_read (Front n) [0%Z] eq_refl) as [_ Ec]; [unfold log; read_log|].
    destruct (m_known _ _ _ _ _ _ Hm (Front n) eq_refl) as [Hk _]. specialize (B1 (W (Front n))). simpl in *. lia.
  - intros a Ha. by apply elem_of_nil in Ha.
Qed.

Lemma link_filled : filled m' g' w' x n.
Proof.
  pose proof (link_same n link_not_tail) as Hsm. destruct made_counts as [EF ET].
  unfold filled, quiet. simpl. rewrite put_eq, (same_Fn _ _ _ Hsm), (same_Tn _ _ _ Hsm), (same_vals _ _ _ Hsm), EF, ET by done.
  split; [done|]. split; [done|]. split; [done|]. split.
  - apply (same_freed _ _ _ Hsm). eapply freed_mono; [apply learn_l|]. split; [|split].
    + by apply (m_known _ _ _ _ _ _ Hm).
    + by apply (m_known _ _ _ _ _ _ Hm).
    + intros c. destruct (m_known _ _ _ _ _ _ Hm (Cell n c) eq_refl) as [_ ->]. lia.
  - destruct (made_read (LocalFront n) [0%Z] eq_refl) as [-> _]; [unfold log; read_log|]. by rewrite Nat.Div0.mod_0_l.
Qed.
End link.

Lemma p_new_link_ok choice n size nx :
  made m g w n size (new_log x n size ++ [(LocalTail n, 1%Z); (Tail n, 1%Z); (Next n, nx)]) -> vis m !! left g = Some nx ->
  after (exec Producer choice (Store (Next t) n) m w) (p_post (fun _ => Fence memory_order_release ;; Store TailBlock n ;; Ret true)).
Proof.
  intros Hm Hnx. pose proof (b_rest _ _ _ tail_ok) as (Hc & _).
  apply store_after; [by eapply ring_field; [|apply tail_in_ring|]|done|done|done|by apply (own_known [] Hok)|].
  set (V := learn _ _ _). destruct (link_at n V) as (Ev & EK & EM & _).
  eapply (p_at _ _ _ _ {| elems := put n [x] (elems g); spare := [n]; left := left g |} 0 []).
  - apply produced_push; [by left|done|done].
  - by apply (shared_link n size nx).
  - intros a Ha. left. by apply (link_elems n size nx).
  - apply fview_eq; [done|done|]. intros a (i & Hi)%list_elem_of_lookup. rewrite lookup_drop in Hi. pose proof (s_left _ _ Hsh).
    unfold items. simpl. rewrite put_ne; [done|]. intros ->. apply (m_new _ _ _ _ _ _ Hm). eapply vis_in_ring; [|exact Hi]. lia.
  - by rewrite Ev, EM.
  - by apply (link_ok n size nx).
  - simpl. rewrite put_ne; [done|]. apply not_eq_sym. by eapply (link_not_tail n size nx).
  - apply (P_link _ _ _ _ _ _ n []); [done|]. by apply (link_filled n size nx).
Qed.
End new_block.

(** ** All steps of [inner_enqueue] *)
Lemma producer_step choice p o k :
  producer_at m g w t canAlloc x p -> p = Step o k -> after (exec Producer choice o m w) (p_post k).
Proof.
  intros (d & free & Hok & Hq & Hp) Ep. destruct Hp; try (injection Ep as <- <-);
    try match goal with Hx : next_free _ _ _ _ _ |- _ => pose proof (proj1 Hx) end.
  - by apply p_start_ok.
  - by apply p_block_ok.
  - by apply p_localFront_ok with (lf := lf).
  - by apply p_tail_ok with (lf := lf).
  - by apply p_recheck_ok.
  - by apply p_front_ok with (lf := lf).
  - by apply p_here_ok with (lf := lf).
  - by apply p_write_ok with (lf := lf).
  - by apply p_written_ok with (lf := lf).
  - by apply p_publish_ok with (lf := lf).
  - by apply p_full_ok.
  - by apply p_full_next_ok.
  - by apply p_full_front_ok with (nx := nx).
  - by apply p_next_ok with (n := n) (rest := rest).
  - by apply p_next_link_ok with (n := n) (rest := rest).
  - by apply p_next_front_ok with (n := n) (rest := rest).
  - by apply p_next_write_ok with (n := n) (rest := rest).
  - by apply p_next_tail_ok with (n := n) (rest := rest).
  - by apply p_next_fence_ok with (n := n) (rest := rest).
  - by apply p_fill_ok with (n := n) (rest := rest).
  - by apply p_fill_cell_ok with (n := n) (rest := rest).
  - by apply p_fill_mask_ok with (n := n) (rest := rest).
  - by apply p_fill_tail_ok with (n := n) (rest := rest).
  - by apply p_link_ok with (n := n) (rest := rest).
  - by apply p_link_store_ok with (n := n) (rest := rest).
  - by apply p_new_ok.
  - by apply p_new_size_ok with (k := k0).
  - destruct (lookup_lt_is_Some_2 (new_log x n size) i) as [[l v] Hi]; [simpl; lia|].
    rewrite (drop_S _ _ _ Hi) in Ep. injection Ep as <- <-. by apply p_new_write_ok.
  - by apply p_new_check_ok with (n := n) (size := size).
  - by apply p_new_local_ok with (n := n) (size := size).
  - by apply p_new_tail_ok with (n := n) (size := size).
  - by apply p_new_next_ok with (n := n) (size := size).
  - by apply p_new_own_ok with (n := n) (size := size) (nx := nx).
  - by apply p_new_link_ok with (n := n) (size := size) (nx := nx).
Qed.
End producer.
