(* ===== verification/SpscWeakTheorems.v ===== *)
(** * The queue on relaxed memory is a queue

    From a freshly constructed queue, in every interleaving of the two threads'
    accesses and for every choice of the messages that their loads return, nothing
    is undefined (no data race, no failed assertion, no access outside the blocks),
    the elements come out as they went in, no call gets stuck or makes more accesses than it may, and a consumer that
    has synchronised with the producer finds what was enqueued before. *)
From S2P Require Import Prelude Spsc SpscCorrect SpscTheorems WeakMem SpscWeak SpscWeakInv SpscWeakConsumer SpscWeakProducer.

Local Open Scope nat_scope.
Notation count := WeakMem.count.
Notation sys := SpscWeak.sys.
Notation act := SpscWeak.act.
Notation fview := SpscWeakConsumer.fview.
Notation enqueued := SpscWeak.enqueued.
Notation dequeued := SpscWeak.dequeued.

(** ** The constructed queue *)
Section start.
Definition blank (size : Z) (b : block) : Prop :=
  Spsc.front b = 0%Z /\ Spsc.localTail b = 0%Z /\ Spsc.tail b = 0%Z /\ Spsc.localFront b = 0%Z /\ Spsc.sizeMask b = (size - 1)%Z.

Lemma init_blocks_blank n : forall replies size heap firstBlock lastBlock heap' firstBlock',
  map_Forall (fun a b => a <> NULL /\ blank size b) heap -> NULL ∉ map fst replies ->
  init_blocks n replies size heap firstBlock lastBlock = Some (heap', firstBlock') ->
  map_Forall (fun a b => a <> NULL /\ blank size b) heap'.
Proof.
  induction n as [|n IH]; intros replies size heap fb lb heap' fb' Hh Hr He; simpl in He; [by simplify_eq|].
  destruct replies as [|[a raw] replies]; [done|]. apply not_elem_of_cons in Hr as [Ha Hr].
  assert (forall nx, a <> NULL /\ blank size (set_next nx (new_block size raw))) as Hb by done.
  case_match.
  - eapply IH in He; [done| |done]. apply map_Forall_insert_2; [done|]. by apply map_Forall_insert_2.
  - destruct (<[a:=new_block size raw]> heap !! lb) as [last|] eqn:El; simpl in He; [|done].
    assert (map_Forall (fun a b => a <> NULL /\ blank size b) (<[a:=new_block size raw]> heap)) as H1 by by apply map_Forall_insert_2.
    destruct (H1 lb last El) as [H2 H3].
    eapply IH in He; [done| |done]. apply map_Forall_insert_2; [done|]. by apply map_Forall_insert_2.
Qed.

Lemma constructed_ring maxSize q :
  constructed maxSize q -> exists size gs,
    (exists k, 1 <= k <= 10 /\ size = (2 ^ Z.of_nat k)%Z) /\ (exists k, 1 <= k <= 10 /\ largestBlockSize q = (2 ^ Z.of_nat k)%Z) /\
    tailBlock q = frontBlock q /\ NoDup (frontBlock q :: gs) /\ linked (blocks q) (frontBlock q :: gs ++ [frontBlock q]) /\
    (forall a, a ∈ frontBlock q :: gs -> exists b, blocks q !! a = Some b) /\
    map_Forall (fun a b => a <> NULL /\ blank size b) (blocks q).
Proof.
  intros Hq. destruct (constructed_inv _ _ Hq) as [_ (fs & gs & Hcore & _)].
  destruct Hq as (replies & cnt & size & Hm & Hs & Hr & Hc & E). exists size, gs.
  destruct (initial_shape_spec _ _ _ Hm Hs) as (_ & k & Hk & Esz). unfold ReaderWriterQueue_new in E. rewrite Hs in E. simpl in E.
  destruct (init_blocks _ _ _ _ _ _) as [[heap fb]|] eqn:Ei; simpl in E; [|done]. injection E as <-. simpl in *.
  destruct Hcore as [C1 C2 C3 C4 C5 C6 C7]. simpl in *.
  assert (fs = [fb]) as ->.
  { destruct fs as [|a fs]; [done|]. injection C2 as ->. apply NoDup_app in C1 as [C1 _]. apply NoDup_cons in C1 as [C1 _].
    destruct fs as [|b fs]; [done|]. exfalso. apply C1. rewrite last_cons_cons in C3. by apply last_Some_elem_of in C3. }
  split; [exists (Z.to_nat k); rewrite Z2Nat.id by lia; split; [lia|done]|].
  split; [destruct C7 as (k' & Hk' & ->); exists (Z.to_nat k'); rewrite Z2Nat.id by lia; split; [lia|done]|].
  split; [done|]. split; [done|]. split; [done|]. split.
  - intros a Ha. destruct (C4 a Ha) as (b & Hb & _). by exists b.
  - eapply init_blocks_blank; [|apply Hr|exact Ei]. apply map_Forall_empty.
Qed.

Lemma linked_lookup heap l i a b :
  linked heap l -> l !! i = Some a -> l !! S i = Some b -> exists bl, heap !! a = Some bl /\ Spsc.next bl = b.
Proof.
  revert i. induction l as [|c [|c' l] IH]; intros i Hl Ha Hb; [done|by destruct i|].
  destruct Hl as [H1 H2]. destruct i as [|i]; [|by apply (IH i)]. injection Ha as <-. by injection Hb as <-.
Qed.

Lemma linked_circle (heap : gmap Z block) (r : list Z) (a0 : Z) i a b :
  linked heap (r ++ [a0]) -> head r = Some a0 -> r !! i = Some a -> (r ++ take 1 r) !! S i = Some b ->
  exists bl, heap !! a = Some bl /\ Spsc.next bl = b.
Proof.
  intros Hl Hh Ha Hb. destruct r as [|c r]; [done|]. injection Hh as ->. simpl take in Hb.
  eapply (linked_lookup heap _ i); [exact Hl| |exact Hb]. by apply lookup_app_l_Some.
Qed.

Context (q : queue).

Lemma initial_lookup l i v V :
  initial_msgs q l !! i = Some (v, V) -> i = 0 /\ V = just (W l) 1 /\ length (initial_msgs q l) = 1.
Proof. unfold initial_msgs. case_match; [|done]. intros [-> [= <- <-]]%list_lookup_singleton_Some. done. Qed.

Lemma initial_wf : wf (initial_memory q) (fun _ => initial_views q).
Proof.
  split; simpl.
  - intros _. apply below_refl.
  - intros _. apply below_refl.
  - intros _ l. split; [done|]. intros t. simpl. lia.
  - intros l i v V (-> & -> & _)%initial_lookup. split; [unfold just; by rewrite decide_True|].
    apply just_le. rewrite learn_eq. lia.
  - intros l i v V _ (-> & -> & _)%initial_lookup l' _ _ i' v' V' Hi (-> & -> & _)%initial_lookup.
    unfold just in Hi. case_decide as E; [injection E as ->; apply below_refl|lia].
  - intros _ l _ _ i v V _ (-> & -> & Hl)%initial_lookup. apply just_le. simpl. lia.
Qed.

Context (size : Z) (gs : list Z).
Context (Hsize : exists k, 1 <= k <= 10 /\ size = (2 ^ Z.of_nat k)%Z).
Context (Hlargest : exists k, 1 <= k <= 10 /\ largestBlockSize q = (2 ^ Z.of_nat k)%Z).
Context (HTB : tailBlock q = frontBlock q) (Hnd : NoDup (frontBlock q :: gs)).
Context (Hlinked : linked (blocks q) (frontBlock q :: gs ++ [frontBlock q])).
Context (Hblocks : forall a, a ∈ frontBlock q :: gs -> exists b, blocks q !! a = Some b).
Context (Hblank : map_Forall (fun a b => a <> NULL /\ blank size b) (blocks q)).

Definition initial_ghost : ghost := {| elems := fun _ => []; spare := gs; left := 0 |}.
Notation m0 := (initial_memory q).
Notation f0 := (frontBlock q).

Lemma initial_block a : a ∈ f0 :: gs -> exists b, blocks q !! a = Some b /\ a <> NULL /\ blank size b.
Proof. intros Ha. destruct (Hblocks a Ha) as [b Hb]. exists b. split; [done|]. by apply Hblank. Qed.

Lemma initial_vals a b : blocks q !! a = Some b -> blank size b ->
  vals m0 (Front a) = [0%Z] /\ vals m0 (LocalTail a) = [0%Z] /\ vals m0 (Tail a) = [0%Z] /\ vals m0 (LocalFront a) = [0%Z] /\
  vals m0 (SizeMask a) = [(size - 1)%Z] /\ vals m0 (Next a) = [Spsc.next b] /\ heap m0 !! a = Some size.
Proof.
  intros Hb (H1 & H2 & H3 & H4 & H5). unfold vals. simpl. unfold initial_msgs. rewrite lookup_fmap, Hb. simpl.
  rewrite H1, H2, H3, H4, H5. unfold Spsc.block_size. rewrite H5. split_and!; try done. f_equal. lia.
Qed.

Lemma initial_counts a : a ∈ f0 :: gs ->
  count m0 (Front a) = 1 /\ count m0 (Tail a) = 1 /\ Fn m0 a = 0 /\ Tn m0 a = 0 /\ Z.of_nat (sz m0 a) = size /\
  (exists k, 1 <= k <= 10 /\ sz m0 a = 2 ^ k).
Proof.
  intros Ha. destruct (initial_block a Ha) as (b & Hb & _ & Hbl). destruct (initial_vals a b Hb Hbl) as (E1 & _ & E3 & _ & _ & _ & E7).
  unfold Fn, Tn, sz. rewrite <- !vals_length, E1, E3, E7. destruct Hsize as (k & Hk & ->).
  assert (2 ^ Z.of_nat k = Z.of_nat (2 ^ k))%Z as -> by (by rewrite Nat2Z.inj_pow). rewrite Nat2Z.id. split_and!; try done. by exists k.
Qed.

Lemma initial_block_ok a : a ∈ f0 :: gs -> block_ok m0 [] a.
Proof.
  intros Ha. destruct (initial_block a Ha) as (b & Hb & Hn & Hbl).
  destruct (initial_vals a b Hb Hbl) as (E1 & E2 & E3 & E4 & E5 & E6 & E7).
  destruct (initial_counts a Ha) as (C1 & C2 & EF & ET & Es & Hs). pose proof (size_range _ Hs).
  split; try done.
  - by rewrite Es.
  - rewrite E1, C1. split; [done|]. intros [|i] v Hi; simplify_eq/=. by rewrite Nat.Div0.mod_0_l.
  - rewrite E3, C2. split; [done|]. intros [|i] v Hi; simplify_eq/=. by rewrite Nat.Div0.mod_0_l.
  - rewrite EF, ET. simpl. lia.
  - by rewrite E5, Es.
  - rewrite <- !vals_length, E2, E4, E6. simpl. lia.
  - intros e _ He. rewrite EF in He. lia.
Qed.

Lemma initial_statics : vals m0 FrontBlock = [f0] /\ vals m0 TailBlock = [f0] /\ vals m0 LargestBlockSize = [largestBlockSize q] /\
  Kn m0 = 0 /\ Mn m0 = 0.
Proof. unfold vals, Kn, Mn, count. simpl. by rewrite HTB. Qed.

Lemma initial_ring : ring m0 initial_ghost = f0 :: gs.
Proof. unfold ring, vis. destruct initial_statics as (_ & -> & _). done. Qed.

Lemma initial_shared : shared m0 initial_ghost.
Proof.
  destruct initial_statics as (S1 & S2 & S3 & SK & SM). pose proof initial_ring as Er.
  split; rewrite ?Er, ?SK, ?SM; unfold vis; rewrite ?S1, ?S2; try done.
  - rewrite <- vals_length, S1. simpl. split; [done|]. split; [done|lia].
  - intros i a b Ha Hb. destruct (linked_circle (blocks q) (f0 :: gs) f0 i a b) as (bl & Hbl & Hn); try done.
    assert (a ∈ f0 :: gs) as Hin by by eapply list_elem_of_lookup_2. destruct (Hblank a bl Hbl) as [_ Hbk].
    destruct (initial_vals a bl Hbl Hbk) as (_ & _ & _ & _ & _ & -> & _). simpl. by rewrite Hn.
  - intros a Ha. by apply initial_block_ok.
  - intros l a Hl Hh. simpl in Hh. rewrite lookup_fmap in Hh. apply fmap_None in Hh.
    unfold count. simpl. unfold initial_msgs. destruct l; simplify_eq/=; by rewrite ?Hh.
  - intros k a Hk. lia.
  - intros k a Hk. lia.
  - intros k a Hk. lia.
Qed.

Lemma initial_known l : cur (initial_views q) (W l) = count m0 l.
Proof. done. Qed.

Lemma initial_consumer : consumer_ok m0 (initial_views q) f0.
Proof.
  destruct initial_statics as (S1 & S2 & S3 & SK & SM). assert (f0 ∈ f0 :: gs) as Hin by by left.
  destruct (initial_block f0 Hin) as (b & Hb & Hn & Hbl). destruct (initial_vals f0 b Hb Hbl) as (E1 & E2 & E3 & E4 & E5 & E6 & E7).
  destruct (initial_counts f0 Hin) as (C1 & C2 & EF & ET & Es & Hs).
  split; rewrite ?SK, ?SM, ?EF, ?ET; try done.
  - unfold vis. by rewrite S2.
  - rewrite !initial_known, C2, <- !vals_length, E5, S2. done.
  - exists 0. rewrite E2. split; [by rewrite Nat.Div0.mod_0_l|]. split; [done|]. change (1 <= count m0 (Tail f0)). by rewrite C2.
  - intros e He. lia.
  - intros k a Hk. lia.
Qed.

Lemma initial_producer : producer_idle m0 initial_ghost (initial_views q) f0.
Proof.
  destruct initial_statics as (S1 & S2 & S3 & SK & SM). assert (f0 ∈ f0 :: gs) as Hin by by left.
  destruct (initial_counts f0 Hin) as (C1 & C2 & EF & ET & Es & Hs). pose proof (size_range _ Hs).
  assert (vis m0 !! Mn m0 = Some f0) as Hv by (unfold vis; by rewrite SM, S2).
  split; [done|]. split; [|done]. split; try done.
  - split.
    + intros a Ha. rewrite initial_ring in Ha. rewrite initial_known. destruct (initial_counts a Ha) as (-> & _). done.
    + rewrite initial_known, <- vals_length, S1. done.
  - intros a Ha. assert (a ∈ f0 :: gs) as Hr by by right. destruct (initial_counts a Hr) as (_ & _ & EFa & ETa & _).
    split; [unfold empty, quiet; by rewrite EFa, ETa|]. done.
  - intros t Ht. rewrite Hv in Ht. injection Ht as <-. exists 0. rewrite EF, ET.
    destruct (initial_block f0 Hin) as (b & Hb & _ & Hbl). destruct (initial_vals f0 b Hb Hbl) as (_ & _ & _ & -> & _).
    split; [by rewrite Nat.Div0.mod_0_l|]. split; [done|]. split; [lia|]. rewrite initial_known, C1. done.
  - rewrite S3. destruct Hlargest as (k & Hk & ->). by exists k.
Qed.

Lemma initial_fview : fview m0 initial_ghost = [].
Proof.
  unfold fview, vis. destruct initial_statics as (_ & -> & _ & -> & _). simpl. rewrite app_nil_r. unfold items. simpl.
  by rewrite take_nil, drop_nil.
Qed.
End start.

(** ** The invariant of the two threads *)
Definition consumer_inv (m : memory var) (g : ghost) (w : views var) (c : option (program (option ptr))) : Prop :=
  exists f, consumer_ok m w f /\ match c with Some p => cpoint m g w f p | None => True end.

Definition producer_inv (m : memory var) (g : ghost) (w : views var) (p : option (ptr * program bool)) : Prop :=
  exists t, match p with
            | Some (x, pr) => vis m !! Mn m = Some t /\ exists canAlloc, producer_at m g w t canAlloc x pr
            | None => producer_idle m g w t
            end.

Record sys_ok (s : sys) (g : ghost) : Prop := {
  i_wf : wf (mem s) (vws s);
  i_shared : shared (mem s) g;
  i_consumer : consumer_inv (mem s) g (vws s Consumer) (consuming s);
  i_producer : producer_inv (mem s) g (vws s Producer) (producing s)
}.

Lemma start_ok maxSize q : constructed maxSize q -> exists g, sys_ok (start q) g /\ fview (mem (start q)) g = [].
Proof.
  intros Hq. destruct (constructed_ring _ _ Hq) as (size & gs & H1 & H2 & H3 & H4 & H5 & H6 & H7).
  exists (initial_ghost gs). split; [split|by apply initial_fview].
  - apply initial_wf.
  - by apply (initial_shared q size gs).
  - exists (frontBlock q). split; [|done]. by apply (initial_consumer q size gs).
  - exists (frontBlock q). by apply (initial_producer q size gs).
Qed.

(** ** Elements up to a place

    The place of an element is the position [M] of its block in what [TailBlock]
    has passed through and its number there, below [T]. *)
Section older.
Definition cnt (m : memory var) (a : Z) : nat := Tn m a - Fn m a.
Definition total (m : memory var) (l : list Z) : nat := sum_list (map (cnt m) l).
Definition placed (m : memory var) (M T : nat) : Prop :=
  M <= Mn m /\ forall a, vis m !! M = Some a -> Kn m <= M -> T <= Tn m a.
(** The elements in the queue before the place, and from it on. *)
Definition older (m : memory var) (M T : nat) : nat :=
  if decide (Kn m <= M)
  then total m (take (M - Kn m) (drop (Kn m) (vis m))) + match vis m !! M with Some a => T - Fn m a | None => 0 end
  else 0.
Definition newer (m : memory var) (M T : nat) : nat :=
  if decide (Kn m <= M)
  then match vis m !! M with Some a => Tn m a - Nat.max (Fn m a) T | None => 0 end + total m (drop (S M) (vis m))
  else total m (drop (Kn m) (vis m)).

Lemma total_app m l1 l2 : total m (l1 ++ l2) = total m l1 + total m l2.
Proof. unfold total. induction l1; simpl; lia. Qed.

Lemma cnt_total_le m m' l : (forall a, a ∈ l -> cnt m a <= cnt m' a) -> total m l <= total m' l.
Proof.
  unfold total. induction l as [|a l IH]; intros Hl; simpl; [lia|].
  pose proof (Hl a ltac:(by left)). pose proof (IH ltac:(intros; apply Hl; by right)). lia.
Qed.

Lemma total_drop m l i j : i <= j -> total m (drop j l) <= total m (drop i l).
Proof.
  intros Hij. rewrite <- (take_drop (j - i) (drop i l)), drop_drop, total_app. replace (i + (j - i)) with j by lia. lia.
Qed.

Lemma window_split m g M a :
  shared m g -> Kn m <= M -> vis m !! M = Some a ->
  drop (Kn m) (vis m) = take (M - Kn m) (drop (Kn m) (vis m)) ++ a :: drop (S M) (vis m).
Proof.
  intros Hsh HK Ha. rewrite <- (take_drop (M - Kn m) (drop (Kn m) (vis m))) at 1. f_equal. rewrite drop_drop.
  replace (Kn m + (M - Kn m)) with M by lia. by apply drop_S.
Qed.

Lemma fview_length m g : shared m g -> length (fview m g) = total m (drop (Kn m) (vis m)).
Proof.
  intros Hsh. assert (forall a, a ∈ drop (Kn m) (vis m) -> length (items m g a) = cnt m a) as Hi.
  { intros a (i & Hi)%list_elem_of_lookup. rewrite lookup_drop in Hi. pose proof (s_left _ _ Hsh).
    assert (a ∈ ring m g) as Hr by (eapply vis_in_ring; [|exact Hi]; lia).
    pose proof (b_counts _ _ _ (ring_ok _ _ Hsh a Hr)). unfold items, cnt. rewrite length_drop, length_take.
    change (@length ptr (elems g a)) with (length (elems g a)). lia. }
  unfold fview, total. revert Hi. generalize (drop (Kn m) (vis m)) as l. induction l as [|a l IH]; intros Hi; [done|].
  simpl. rewrite length_app, Hi by by left. rewrite IH; [done|]. intros. apply Hi. by right.
Qed.

Lemma older_newer m g M T : shared m g -> placed m M T -> length (fview m g) = older m M T + newer m M T.
Proof.
  intros Hsh [HM HT]. rewrite (fview_length m g Hsh). unfold older, newer. case_decide as HK; [|done].
  destruct (lookup_lt_is_Some_2 (vis m) M) as [a Ha]; [rewrite (vis_length _ _ Hsh); lia|]. rewrite Ha.
  rewrite (window_split m g M a Hsh HK Ha) at 1. rewrite total_app. specialize (HT a Ha HK).
  assert (a ∈ ring m g) as Hr by (eapply vis_in_ring; [|exact Ha]; pose proof (s_left _ _ Hsh); lia).
  pose proof (b_counts _ _ _ (ring_ok _ _ Hsh a Hr)).
  change (total m (a :: drop (S M) (vis m))) with (cnt m a + total m (drop (S M) (vis m))). unfold cnt. lia.
Qed.

(** The consumer takes elements from the front. *)
Lemma consumed_placed m m' g M T : consumed m m' g -> Kn m <= Kn m' -> placed m M T -> placed m' M T.
Proof.
  intros Hc HK [H1 H2]. split; [by rewrite (consumed_Mn _ _ _ Hc)|]. intros a. rewrite (consumed_vis _ _ _ Hc), (consumed_Tn _ _ _ Hc).
  intros Ha Hle. apply H2; [done|lia].
Qed.

Lemma consumed_Kn m m' g : consumed m m' g -> Kn m <= Kn m'.
Proof. intros Hc. unfold Kn. pose proof (consumed_grow _ _ _ Hc FrontBlock). lia. Qed.

Lemma consumed_newer m m' g M T : consumed m m' g -> newer m' M T <= newer m M T.
Proof.
  intros Hc. pose proof (consumed_Kn _ _ _ Hc) as HK.
  assert (forall l, total m' l <= total m l) as Ht.
  { intros l. apply cnt_total_le. intros a _. unfold cnt. rewrite (consumed_Tn _ _ _ Hc). pose proof (consumed_Fn _ _ _ Hc a). lia. }
  unfold newer. rewrite (consumed_vis _ _ _ Hc). case_decide as H1; case_decide as H2; try lia.
  - pose proof (Ht (drop (S M) (vis m))). case_match; [|lia]. rewrite (consumed_Tn _ _ _ Hc).
    pose proof (consumed_Fn _ _ _ Hc z). lia.
  - pose proof (Ht (drop (Kn m') (vis m))). pose proof (total_drop m (vis m) (S M) (Kn m') ltac:(lia)). lia.
  - pose proof (Ht (drop (Kn m') (vis m))). pose proof (total_drop m (vis m) (Kn m) (Kn m') ltac:(lia)). lia.
Qed.

(** The producer puts elements behind. *)
Lemma produced_vis m m' g : produced m m' g -> vis m `prefix_of` vis m'.
Proof. intros Hp. destruct (d_grow _ _ _ Hp TailBlock) as [ext E]. unfold vis, vals. rewrite E, fmap_app. by eexists. Qed.

Lemma produced_placed m m' g M T : shared m g -> produced m m' g -> placed m M T -> placed m' M T /\ older m' M T = older m M T.
Proof.
  intros Hsh Hp [HM HT]. pose proof (produced_Kn _ _ _ Hp) as EK. pose proof (produced_Mn _ _ _ Hp) as EM.
  destruct (lookup_lt_is_Some_2 (vis m) M) as [a Ha]; [rewrite (vis_length _ _ Hsh); lia|].
  pose proof (grown_vis _ _ _ Hp M a Ha) as Ha'. pose proof (s_left _ _ Hsh) as Hl. split.
  - split; [lia|]. rewrite Ha', EK. intros ? [= <-] HK. specialize (HT a Ha HK). pose proof (produced_Tn _ _ _ Hp a). lia.
  - unfold older. rewrite EK, Ha, Ha'. case_decide as HK; [|done].
    assert (a ∈ ring m g) as Hr by (eapply vis_in_ring; [|exact Ha]; lia). rewrite (produced_Fn _ _ _ Hp a Hr). f_equal.
    destruct (produced_vis _ _ _ Hp) as [ext Ev].
    pose proof (vis_length _ _ Hsh). rewrite Ev, drop_app_le, take_app_le by (rewrite ?length_drop; lia).
    assert (forall b, b ∈ take (M - Kn m) (drop (Kn m) (vis m)) -> cnt m' b = cnt m b) as Hcnt.
    { intros b (i & Hi)%list_elem_of_lookup. apply lookup_take_Some in Hi as [Hi HiM]. rewrite lookup_drop in Hi.
      assert (b ∈ ring m g) as Hrb by (eapply vis_in_ring; [|exact Hi]; lia).
      unfold cnt. rewrite (produced_Fn _ _ _ Hp b Hrb). unfold Tn, count. rewrite (d_full _ _ _ Hp (Kn m + i) b); [done|lia|done]. }
    apply Nat.le_antisymm; apply cnt_total_le; intros b Hb; by rewrite Hcnt.
Qed.
End older.

(** What an accepted action does to the queue; [dequeued] and [enqueued] say it all. *)
Definition moved (s : sys) (g : ghost) (s' : sys) (g' : ghost) (evs : list event) : Prop :=
  fview (mem s) g ++ enqueued evs = dequeued evs ++ fview (mem s') g'.
(** The consumer does not forget, and what is older than some place leaves only
    by being dequeued. *)
Definition kept (s s' : sys) (evs : list event) : Prop :=
  below (cur (vws s Consumer)) (cur (vws s' Consumer)) /\ vis (mem s) `prefix_of` vis (mem s') /\
  forall M T, placed (mem s) M T ->
    placed (mem s') M T /\ older (mem s) M T <= length (dequeued evs) + older (mem s') M T.
(** What the consumer has seen when it finds the queue empty. *)
Definition found_empty (s' : sys) (evs : list event) : Prop :=
  Dequeued None ∈ evs -> exists f, vis (mem s') !! Kn (mem s') = Some f /\
    cur (vws s' Consumer) (W (Tail f)) = S (Fn (mem s') f) /\ cur (vws s' Consumer) (W TailBlock) = S (Kn (mem s')).
Definition step_ok (s : sys) (g : ghost) (s' : sys) (evs : list event) : Prop :=
  exists g', sys_ok s' g' /\ moved s g s' g' evs /\ kept s s' evs /\ found_empty s' evs.

Lemma kept_still (s s' : sys) evs :
  mem s' = mem s -> below (cur (vws s Consumer)) (cur (vws s' Consumer)) -> kept s s' evs.
Proof. intros Em Hc. split; [done|]. split; [by rewrite Em|]. intros M T HP. rewrite Em. split; [done|lia]. Qed.

Lemma found_empty_not s' evs : Dequeued None ∉ evs -> found_empty s' evs.
Proof. intros Hn Hin. done. Qed.

Section step.
Context (s : sys) (g : ghost) (Hok : sys_ok s g).
Notation m := (mem s).

(** The producer's facts survive the consumer's steps, and the other way round. *)
Lemma producer_inv_consumed m' :
  consumed m m' g -> producer_inv m' g (vws s Producer) (producing s).
Proof.
  intros Hc. pose proof (i_wf _ _ Hok) as Hwf. pose proof (i_shared _ _ Hok) as Hsh. destruct (i_producer _ _ Hok) as [t Hp].
  exists t. destruct (producing s) as [[x p]|]; [|by eapply consumed_idle].
  destruct Hp as (Hv & ca & Hp). split; [by rewrite (consumed_vis _ _ _ Hc), (consumed_Mn _ _ _ Hc)|]. exists ca.
  eapply consumed_at; [done|done| |done]. by apply (known_bounded _ _ Hwf).
Qed.

Lemma consumer_inv_produced m' g' :
  produced m m' g -> (forall a, a ∈ ring m g -> elems g' a = elems g a \/ exists y, elems g' a = elems g a ++ [y]) ->
  consumer_inv m' g' (vws s Consumer) (consuming s).
Proof.
  intros Hp He. pose proof (i_shared _ _ Hok) as Hsh. destruct (i_consumer _ _ Hok) as (f & Hf & Hc).
  exists f. split; [by eapply produced_consumer|]. destruct (consuming s) as [c|]; [|done].
  eapply produced_cpoint; [done|done|done| |done]. apply He. apply (front_in_ring m g (vws s) f Hsh Hf).
Qed.

Lemma after_done {A} (r : outcome A) (Q : A -> Prop) : after r Q -> r = Disallowed \/ exists a, r = Done a /\ Q a.
Proof. destruct r; simpl; [right; by eexists|by left|done]. Qed.

Lemma sync_ok t : act s (Synchronise t) <> Undefined /\
  forall s' evs, act s (Synchronise t) = Done (s', evs) -> step_ok s g s' evs.
Proof.
  simpl. split; [by case_match|]. intros s' evs Ha. case_match eqn:Hidle; [|done]. injection Ha as <- <-.
  destruct Hok as [Hwf Hsh Hc Hp]. set (w' := synchronise (vws s) t).
  assert (below (cur (vws s t)) (cur w')) as B1 by apply join_l. assert (below (acq (vws s t)) (acq w')) as B2 by apply join_l.
  exists g. split; [|split; [by apply app_nil_r|split; [|by apply found_empty_not, not_elem_of_nil]]].
  2: { apply kept_still; [done|]. simpl. destruct t; [rewrite put_ne by done; apply below_refl|by rewrite put_eq]. }
  split; simpl.
  - by apply wf_synchronise.
  - done.
  - destruct t; [by rewrite put_ne|]. apply bool_decide_eq_true in Hidle. rewrite put_eq, Hidle in *.
    destruct Hc as (f & Hf & _). exists f. split; [|done]. by eapply consumer_ok_mono.
  - destruct t; [|by rewrite put_ne]. apply bool_decide_eq_true in Hidle. rewrite put_eq, Hidle in *.
    destruct Hp as (t & Ht & Hpo & Hq). exists t. split; [done|]. split; [|done].
    by apply (producer_ok_mono m (vws s)).
Qed.

Lemma run_consumer_ok choice : act s (Run Consumer choice) <> Undefined /\
  forall s' evs, act s (Run Consumer choice) = Done (s', evs) -> step_ok s g s' evs.
Proof.
  destruct Hok as [Hwf Hsh Hc Hp]. simpl. destruct (consuming s) as [p|] eqn:Ep; [|done]. destruct Hc as (f & Hf & Hc).
  destruct (cpoint_step _ _ _ _ _ Hc) as (o & k & ->).
  destruct (after_done _ _ (consumer_step m g (vws s) f Hwf Hsh Hf choice o k Hc)) as [->|([[v m'] w'] & E & Hpost)]; [done|].
  rewrite E. split; [by case_match|]. destruct Hpost as (Hcons & Hsh' & f' & Hf' & Hk).
  pose proof (exec_wf _ _ _ _ _ _ _ _ Hwf E) as Hwf'. pose proof (producer_inv_consumed m' Hcons) as Hp'.
  assert (forall c, match c with Some p => cpoint m' g w' f' p | None => True end ->
    sys_ok {| mem := m'; vws := put Consumer w' (vws s); producing := producing s; consuming := c |} g) as Hnew.
  { intros c Hcp. split; simpl; rewrite ?put_eq; [done|done|by exists f'|by rewrite put_ne]. }
  pose proof (exec_grows _ _ _ _ _ _ _ _ Hwf E) as Hgrow.
  assert (forall s' evs, mem s' = m' -> vws s' = put Consumer w' (vws s) -> sys_ok s' g -> moved s g s' g evs -> enqueued evs = [] ->
    kept s s' evs) as Hkept.
  { intros s' evs Em Ev Hok' Hmv He. split; [by rewrite Ev, put_eq|]. split; [by rewrite Em, (consumed_vis _ _ _ Hcons)|].
    intros M T HP. pose proof (consumed_placed _ _ _ M T Hcons (consumed_Kn _ _ _ Hcons) HP) as HP'. rewrite Em. split; [done|].
    unfold moved in Hmv. rewrite He, app_nil_r, Em in Hmv. apply (f_equal length) in Hmv. rewrite length_app in Hmv.
    rewrite (older_newer _ _ M T Hsh HP), (older_newer _ _ M T Hsh' HP') in Hmv.
    pose proof (consumed_newer _ _ _ M T Hcons). lia. }
  intros s' evs Ha. destruct (k v) as [r| |o' k'] eqn:Ek; simpl in Ha; injection Ha as <- <-; exists g.
  - assert (moved s g {| mem := m'; vws := put Consumer w' (vws s); producing := producing s; consuming := None |} g [Dequeued r]) as Hmv.
    { unfold moved. destruct r as [x|]; simpl; rewrite app_nil_r; [done|]. by destruct Hk as (-> & _). }
    split; [by apply Hnew|]. split; [done|]. split; [by apply Hkept; [..|apply Hnew| |]|].
    intros Hin%list_elem_of_singleton. injection Hin as Hr. subst r.
    destruct Hk as (Em & Hk). exists f. simpl. rewrite put_eq. rewrite Em. split; [apply Hf|done].
  - by destruct (cpoint_step _ _ _ _ _ (proj2 Hk)) as (? & ? & ?).
  - destruct Hk as [Hv Hcp].
    assert (moved s g {| mem := m'; vws := put Consumer w' (vws s); producing := producing s; consuming := Some (Step o' k') |} g []) as Hmv
      by (unfold moved; simpl; by rewrite Hv, app_nil_r).
    split; [by apply Hnew|]. split; [done|]. split; [by apply Hkept; [..|apply Hnew| |]|]. by apply found_empty_not, not_elem_of_nil.
Qed.

Lemma run_producer_ok choice : act s (Run Producer choice) <> Undefined /\
  forall s' evs, act s (Run Producer choice) = Done (s', evs) -> step_ok s g s' evs.
Proof.
  destruct Hok as [Hwf Hsh Hc Hp]. simpl. destruct (producing s) as [[x p]|] eqn:Ep; [|done]. destruct Hp as (t & Ht & ca & Hp).
  assert (exists o k, p = Step o k) as (o & k & Eok).
  { destruct Hp as (d & free & _ & _ & Hp). pose proof (ppoint_step _ _ _ _ _ _ _ _ _ Hp) as Hst.
    destruct p; [done|done|by do 2 eexists]. }
  rewrite Eok.
  destruct (after_done _ _ (producer_step m g (vws s) t ca x Hwf Hsh Ht choice p o k Hp Eok)) as [->|([[v m'] w'] & E & Hpost)]; [done|].
  rewrite E. split; [by case_match|]. destruct Hpost as (g' & Hprod & Hsh' & He & Hk).
  pose proof (exec_wf _ _ _ _ _ _ _ _ Hwf E) as Hwf'. pose proof (consumer_inv_produced m' g' Hprod He) as Hc'.
  assert (forall pr, producer_inv m' g' w' pr ->
    sys_ok {| mem := m'; vws := put Producer w' (vws s); producing := pr; consuming := consuming s |} g') as Hnew.
  { intros pr Hpr. split; simpl; rewrite ?put_eq; [done|done|by rewrite put_ne|done]. }
  assert (forall s' evs, mem s' = m' -> vws s' = put Producer w' (vws s) -> kept s s' evs) as Hkept.
  { intros s' evs Em Ev. split; [rewrite Ev, put_ne by done; apply below_refl|]. rewrite Em. split; [by apply (produced_vis _ _ _ Hprod)|].
    intros M T HP.
    destruct (produced_placed _ _ _ M T Hsh Hprod HP) as [HP' ->]. split; [done|lia]. }
  intros s' evs Ha. destruct (k v) as [b| |o' k'] eqn:Ek; simpl in Ha; injection Ha as <- <-; exists g'; simpl.
  - destruct Hk as [Hidle Hv]. split; [by apply Hnew|]. split; [unfold moved; simpl; rewrite Hv; by destruct b|].
    split; [by apply Hkept|]. apply found_empty_not. rewrite list_elem_of_singleton. by destruct b.
  - destruct Hk as (_ & _ & d & free & _ & _ & Hpp). by apply ppoint_step in Hpp.
  - destruct Hk as (Hv & Ht' & Hat). split; [apply Hnew; exists t; split; [done|by exists ca]|].
    split; [unfold moved; simpl; by rewrite Hv, app_nil_r|]. split; [by apply Hkept|]. by apply found_empty_not, not_elem_of_nil.
Qed.

Lemma act_ok a : act s a <> Undefined /\ forall s' evs, act s a = Done (s', evs) -> step_ok s g s' evs.
Proof.
  destruct a as [ca x| |[] choice|t]; [| |apply run_producer_ok|apply run_consumer_ok|apply sync_ok].
  - simpl. destruct (producing s) eqn:Ep; [done|]. split; [done|]. intros s' evs [= <- <-]. exists g.
    split; [|split; [by apply app_nil_r|split; [by apply kept_still, below_refl|by apply found_empty_not, not_elem_of_nil]]].
    destruct Hok as [Hwf Hsh Hc (t & Hp)]. split; try done. rewrite Ep in Hp.
    destruct Hp as (Ht & Hpo & Hq). exists t. simpl. split; [done|]. exists ca, 0, (spare g). split; [done|]. split; [exact Hq|apply P_start].
  - simpl. destruct (consuming s) eqn:Ec; [done|]. split; [done|]. intros s' evs [= <- <-]. exists g.
    split; [|split; [by apply app_nil_r|split; [by apply kept_still, below_refl|by apply found_empty_not, not_elem_of_nil]]].
    destruct Hok as [Hwf Hsh (f & Hf & _) Hp]. split; try done. exists f. split; [done|]. apply C_start.
Qed.
End step.

Lemma enqueued_app evs1 evs2 : enqueued (evs1 ++ evs2) = enqueued evs1 ++ enqueued evs2.
Proof. apply omap_app. Qed.
Lemma dequeued_app evs1 evs2 : dequeued (evs1 ++ evs2) = dequeued evs1 ++ dequeued evs2.
Proof. apply omap_app. Qed.

Lemma weak_run_ok acts s g : sys_ok s g -> run acts s <> Undefined /\
  forall s' evs, run acts s = Done (s', evs) -> exists g', sys_ok s' g' /\ moved s g s' g' evs /\ kept s s' evs.
Proof.
  revert s g. induction acts as [|a acts IH]; intros s g Hok; simpl.
  { split; [done|]. intros s' evs [= <- <-]. exists g. split; [done|]. split; [by apply app_nil_r|by apply kept_still, below_refl]. }
  destruct (act_ok s g Hok a) as [Hu Hs]. destruct (act s a) as [[s1 ev]| |]; [|done|done].
  destruct (Hs s1 ev eq_refl) as (g1 & Hok1 & E1 & (K1 & P1 & K1') & _). destruct (IH s1 g1 Hok1) as [Hu' Hs'].
  destruct (run acts s1) as [[s2 evs2]| |]; [|done|done]. split; [done|]. intros s' evs [= <- <-].
  destruct (Hs' s2 evs2 eq_refl) as (g2 & Hok2 & E2 & (K2 & P2 & K2')). exists g2. split; [done|]. unfold moved in *. split.
  - rewrite enqueued_app, dequeued_app, app_assoc, E1, <- app_assoc, E2, app_assoc. done.
  - split; [by eapply below_trans|]. split; [by etransitivity|]. intros M T HP. destruct (K1' M T HP) as [HP1 L1]. destruct (K2' M T HP1) as [HP2 L2].
    split; [done|]. rewrite dequeued_app, length_app. lia.
Qed.

(** ** Calls are short *)

(** The most accesses of a call. *)
Definition bound (t : tid) : nat := match t with Producer => 27 | Consumer => 24 end.

(** How many accesses a call may have made when it returns this. *)
Definition enqueue_durations (r : bool) : list nat := if r then [8; 10; 21; 27] else [9; 11].
Definition dequeue_durations (r : option ptr) : list nat := match r with Some _ => [8; 10; 16; 24] | None => [6] end.
Definition durations (e : event) : list nat :=
  match e with
  | Enqueued _ => enqueue_durations true
  | NotEnqueued _ => enqueue_durations false
  | Dequeued r => dequeue_durations r
  end.

(** The program, after [n] accesses of a call, returns within [b] accesses, whatever they
    give, and each result after one of its numbers of accesses. *)
Fixpoint lasts {A} (b : nat) (d : A -> list nat) (n : nat) (p : program A) : Prop :=
  match p with
  | Ret r => n ∈ d r
  | Step o k => n < b /\ forall v, lasts b d (S n) (k v)
  | _ => True
  end.

Lemma lasts_Step {A} b (d : A -> list nat) n o (k : Z -> program A) :
  n < b -> (forall v, lasts b d (S n) (k v)) -> lasts b d n (Step o k).
Proof. done. Qed.

Ltac walk :=
  unfold bound; cbv beta zeta delta [try_dequeue check_tail check_tailBlock look_again next_block advance
    non_empty_front_block take_element inner_enqueue enqueue_recheck enqueue_full enqueue_new enqueue_next fill_next_block
    enqueue_here check_new_block link_block write_all make_block app];
  repeat (cbv beta iota; match goal with
  | |- lasts _ _ _ (if ?b then _ else _) => destruct b
  | |- lasts _ _ _ (Step _ _) => apply lasts_Step; [lia|intros ?]
  | |- lasts _ _ _ (Ret _) => simpl; repeat (first [by left|right])
  | |- lasts _ _ _ _ => exact I
  end).

Lemma try_dequeue_lasts : lasts (bound Consumer) dequeue_durations 0 try_dequeue.
Proof. walk. Qed.
Lemma inner_enqueue_lasts canAlloc x : lasts (bound Producer) enqueue_durations 0 (inner_enqueue canAlloc x).
Proof. walk. Qed.

Definition in_call (t : tid) (s : sys) : bool :=
  match t with
  | Producer => match producing s with Some _ => true | None => false end
  | Consumer => match consuming s with Some _ => true | None => false end
  end.
(** The calls of a thread, its accesses and its returns. *)
Definition is_call (t : tid) (a : action) : bool :=
  match t, a with Producer, Enqueue _ _ | Consumer, TryDequeue => true | _, _ => false end.
Definition accesses (t : tid) (acts : list action) : nat :=
  sum_list (map (fun a => match a with Run t' _ => if decide (t' = t) then 1 else 0 | _ => 0 end) acts).
Definition returns (t : tid) (evs : list event) : nat :=
  sum_list (map (fun e => match t, e with
                          | Producer, (Enqueued _ | NotEnqueued _) => 1
                          | Consumer, Dequeued _ => 1
                          | _, _ => 0
                          end) evs).

(** A thread has made [n] accesses of its call. *)
Definition spent (t : tid) (s : sys) (n : nat) : Prop :=
  match t with
  | Producer => match producing s with Some (_, p) => lasts (bound t) enqueue_durations n p | None => False end
  | Consumer => match consuming s with Some p => lasts (bound t) dequeue_durations n p | None => False end
  end.

Lemma returns_app t evs1 evs2 : returns t (evs1 ++ evs2) = returns t evs1 + returns t evs2.
Proof. unfold returns. induction evs1; simpl; lia. Qed.

Lemma call_spent t a s s' evs : is_call t a = true -> act s a = Done (s', evs) -> evs = [] /\ spent t s' 0.
Proof.
  intros Hc Ha. destruct t, a; try done; simpl in Ha.
  - destruct (producing s); [done|]. injection Ha as <- <-. split; [done|]. apply inner_enqueue_lasts.
  - destruct (consuming s); [done|]. injection Ha as <- <-. split; [done|]. apply try_dequeue_lasts.
Qed.

(** An action with the thread in a call: the call goes on, or it returns on time. *)
Lemma act_spent t a s s' evs n :
  act s a = Done (s', evs) -> spent t s n ->
  (returns t evs = 0 -> spent t s' (n + accesses t [a])) /\
  (forall choice e, a = Run t choice -> evs = [e] -> S n ∈ durations e).
Proof.
  intros Ha Hs. destruct a as [ca x| |[] choice|u]; simpl in Ha.
  - destruct (producing s) eqn:Ep; [done|]. injection Ha as <- <-. split; [|done]. simpl. rewrite Nat.add_0_r.
    destruct t; simpl in *; [by rewrite Ep in Hs|done].
  - destruct (consuming s) eqn:Ec; [done|]. injection Ha as <- <-. split; [|done]. simpl. rewrite Nat.add_0_r.
    destruct t; simpl in *; [done|by rewrite Ec in Hs].
  - destruct (producing s) as [[x [| |o k]]|] eqn:Ep; try done. destruct (exec _ _ _ _ _) as [[[v m'] w']| |]; try done.
    destruct t.
    + simpl in Hs. rewrite Ep in Hs. destruct Hs as [_ Hs]. specialize (Hs v).
      change (accesses Producer [Run Producer choice]) with 1. rewrite Nat.add_1_r.
      destruct (k v) as [b| |o' k'] eqn:Ek; injection Ha as <- <-; (split; [|]).
      * by destruct b.
      * intros _ e _ [= <-]. by destruct b.
      * intros _. exact Hs.
      * intros _ e _ H. done.
      * intros _. exact Hs.
      * intros _ e _ H. done.
    + simpl. rewrite Nat.add_0_r. assert (consuming s' = consuming s) as -> by (by destruct (k v); injection Ha as <- _). split; [done|by intros ? ? [=]].
  - destruct (consuming s) as [[| |o k]|] eqn:Ec; try done. destruct (exec _ _ _ _ _) as [[[v m'] w']| |]; try done.
    destruct t.
    + simpl. rewrite Nat.add_0_r. assert (producing s' = producing s) as -> by (by destruct (k v); injection Ha as <- _). split; [done|by intros ? ? [=]].
    + simpl in Hs. rewrite Ec in Hs. destruct Hs as [_ Hs]. specialize (Hs v).
      change (accesses Consumer [Run Consumer choice]) with 1. rewrite Nat.add_1_r.
      destruct (k v) as [b| |o' k'] eqn:Ek; injection Ha as <- <-; (split; [|]).
      * done.
      * intros _ e _ [= <-]. done.
      * intros _. exact Hs.
      * intros _ e _ H. done.
      * intros _. exact Hs.
      * intros _ e _ H. done.
  - match type of Ha with (if ?b then _ else _) = _ => destruct b; [|done] end. injection Ha as <- <-. split; [|done].
    simpl. by rewrite Nat.add_0_r.
Qed.

Lemma run_spent t acts : forall s s' evs n,
  run acts s = Done (s', evs) -> returns t evs = 0 -> spent t s n -> spent t s' (n + accesses t acts).
Proof.
  induction acts as [|a acts IH]; intros s s' evs n Hr Hret Hn; simpl in Hr.
  { injection Hr as <- <-. simpl. by rewrite Nat.add_0_r. }
  destruct (act s a) as [[s1 ev]| |] eqn:Ea; [|done|done]. destruct (run acts s1) as [[s2 evs2]| |] eqn:Er; [|done|done].
  injection Hr as <- <-. rewrite returns_app in Hret. destruct (act_spent _ _ _ _ _ _ Ea Hn) as [Hn1 _].
  assert (accesses t (a :: acts) = accesses t [a] + accesses t acts) as -> by (unfold accesses; simpl; lia).
  rewrite Nat.add_assoc. eapply IH; [exact Er|lia|]. apply Hn1. lia.
Qed.

(** ** The elements in the memory *)

(** From [FrontBlock] to [TailBlock], the cells from [Front] to [Tail]. *)
Definition contents (m : memory var) : list ptr :=
  concat (map (fun a => omap (fun e => last (vals m (cell m a e))) (seq (Fn m a) (Tn m a - Fn m a))) (drop (Kn m) (vis m))).

Lemma omap_seq {A} (h : nat -> option A) (lg : list A) n : forall i,
  i + n <= length lg -> (forall e, i <= e < i + n -> h e = lg !! e) -> drop i (take (i + n) lg) = omap h (seq i n).
Proof.
  induction n as [|n IH]; intros i Hn Hh; simpl.
  { by rewrite Nat.add_0_r, skipn_firstn_comm, Nat.sub_diag. }
  destruct (lookup_lt_is_Some_2 lg i) as [x Hx]; [lia|]. rewrite (Hh i), Hx by lia.
  rewrite (drop_S _ x) by (rewrite lookup_take_lt by lia; done). f_equal.
  rewrite <- IH; [|lia|intros; apply Hh; lia]. by replace (S i + n) with (i + S n) by lia.
Qed.

Lemma contents_fview m g : shared m g -> contents m = fview m g.
Proof.
  intros Hsh. unfold contents, fview. f_equal. apply map_ext_in. intros a Ha%list_elem_of_In.
  apply list_elem_of_lookup in Ha as (i & Hi). rewrite lookup_drop in Hi. pose proof (s_left _ _ Hsh).
  assert (a ∈ ring m g) as Hr by (eapply vis_in_ring; [|exact Hi]; lia). pose proof (ring_ok _ _ Hsh a Hr) as Hb.
  pose proof (b_counts _ _ _ Hb) as Hc. unfold items. symmetry.
  replace (Tn m a) with (Fn m a + (Tn m a - Fn m a)) at 1 by lia. apply omap_seq.
  - change (@length ptr (elems g a)) with (length (elems g a)). lia.
  - intros e He. destruct (lookup_lt_is_Some_2 (elems g a) e) as [x Hx]; [lia|]. rewrite (cell_last m _ a Hb e x Hx) by lia. exact (eq_sym Hx).
Qed.

(** ** The contract *)

(** C3. No behaviour is undefined: whatever the calls, the interleaving of the
    accesses and the messages that the relaxed loads return, no ordinary variable
    is subject to a data race, no access leaves the blocks, no thread stores to the
    other one's atomic variables, nothing uninitialised is loaded, and no assertion
    of the source fails. *)
Theorem weak_spsc_safe (maxSize : Z) (q : queue) (acts : list action) :
  constructed maxSize q -> run acts (start q) <> Undefined.
Proof.
  intros Hq. destruct (start_ok _ _ Hq) as (g & Hok & _). by destruct (weak_run_ok acts _ _ Hok).
Qed.

(** C2. On relaxed memory the queue is first in, first out: the elements dequeued so
    far, in the order of the returns, are the first of the elements whose enqueue
    returned [true], in the order of those returns; the others are, in this order, the latest values of
    the cells between [Front] and [Tail] of the blocks from [FrontBlock] to [TailBlock]. *)
Theorem weak_spsc_fifo (maxSize : Z) (q : queue) (acts : list action) (s : sys) (evs : list event) :
  constructed maxSize q -> run acts (start q) = Done (s, evs) ->
  enqueued evs = dequeued evs ++ contents (mem s).
Proof.
  intros Hq Hr. destruct (start_ok _ _ Hq) as (g & Hok & Hv). destruct (weak_run_ok acts _ _ Hok) as [_ Hrun].
  destruct (Hrun _ _ Hr) as (g' & Hok' & Hm & _). rewrite (contents_fview _ g' (i_shared _ _ Hok')). unfold moved in Hm. by rewrite Hv in Hm.
Qed.

(** The place behind all elements that are in the queue. *)
Lemma all_older m g : shared m g -> exists T, placed m (Mn m) T /\ older m (Mn m) T = length (fview m g) /\
  forall a, vis m !! Mn m = Some a -> T = Tn m a.
Proof.
  intros Hsh. pose proof (Kn_le_Mn _ _ Hsh) as [HK _].
  destruct (lookup_lt_is_Some_2 (vis m) (Mn m)) as [a Ha]; [rewrite (vis_length _ _ Hsh); lia|]. exists (Tn m a).
  assert (placed m (Mn m) (Tn m a)) as HP by (split; [done|]; intros b Hb _; rewrite Ha in Hb; by injection Hb as <-).
  split; [done|]. split; [|intros b Hb; rewrite Ha in Hb; by injection Hb as <-].
  rewrite (older_newer m g (Mn m) (Tn m a) Hsh HP). unfold newer. rewrite decide_True, Ha by done.
  rewrite (drop_ge (vis m) (S (Mn m))) by (rewrite (vis_length _ _ Hsh); lia). unfold total. simpl. lia.
Qed.

(** What the producer stored it knows. *)
Lemma producer_knows s g l : sys_ok s g -> owner l = Producer -> count (mem s) l <= cur (vws s Producer) (W l).
Proof.
  intros [_ _ _ (t & Hp)] Ho. destruct (producing s) as [[x p]|].
  - destruct Hp as (_ & ca & d & free & Hok & _). by apply (p_own _ _ _ _ Hok).
  - destruct Hp as (_ & Hok & _). by apply (p_own _ _ _ _ Hok).
Qed.

(** The consumer that has seen a place finds the queue empty only when nothing before
    it is left. *)
Lemma found_older s' evs M T :
  found_empty s' evs -> Dequeued None ∈ evs ->
  S M <= cur (vws s' Consumer) (W TailBlock) ->
  (forall a, vis (mem s') !! M = Some a -> S T <= cur (vws s' Consumer) (W (Tail a))) -> older (mem s') M T = 0.
Proof.
  intros Hf Hin HM HT. destruct (Hf Hin) as (f & Hv & E1 & E2). unfold older. case_decide as HK; [|done].
  assert (M = Kn (mem s')) as -> by lia. rewrite Nat.sub_diag, Hv. specialize (HT f Hv). unfold total. simpl. lia.
Qed.

(** C4. Nothing that was enqueued before the consumer synchronised with the producer
    is overlooked: a later [try_dequeue] that finds the queue empty comes after all
    those elements have been dequeued. *)
Theorem weak_spsc_synchronised (maxSize : Z) (q : queue) (acts1 acts2 : list action) (a : action)
  (s1 s2 s3 : sys) (evs1 evs2 : list event) :
  constructed maxSize q -> run acts1 (start q) = Done (s1, evs1) ->
  run (Synchronise Consumer :: acts2) s1 = Done (s2, evs2) -> act s2 a = Done (s3, [Dequeued None]) ->
  enqueued evs1 `prefix_of` dequeued (evs1 ++ evs2).
Proof.
  intros Hq H1 H2 H3. destruct (start_ok _ _ Hq) as (g0 & Hok0 & Hv0).
  destruct (proj2 (weak_run_ok acts1 _ _ Hok0) _ _ H1) as (g1 & Hok1 & M1 & _).
  destruct (all_older (mem s1) g1 (i_shared _ _ Hok1)) as (T & HP & Hold & HT).
  cbn [run] in H2. destruct (act s1 (Synchronise Consumer)) as [[s1' ev]| |] eqn:Es; [|done|done].
  destruct (run acts2 s1') as [[s2' evs2']| |] eqn:Er; [|done|done]. injection H2 as -> <-.
  destruct (proj2 (sync_ok s1 g1 Hok1 Consumer) _ _ Es) as (g1' & Hok1' & M1' & _).
  destruct (proj2 (weak_run_ok acts2 _ _ Hok1') _ _ Er) as (g2 & Hok2 & M2 & K2 & P2 & K2').
  destruct (proj2 (act_ok s2 g2 Hok2 a) _ _ H3) as (g3 & Hok3 & M3 & (K3 & P3 & K3') & Hf).
  simpl in Es. destruct (bool_decide _); [|done]. injection Es as <- <-. simpl in *.
  destruct (K2' (Mn (mem s1)) T HP) as [HP2 L2]. destruct (K3' _ _ HP2) as [HP3 L3].
  assert (forall l, owner l = Producer -> count (mem s1) l <= cur (vws s3 Consumer) (W l)) as Hknown.
  { intros l Ho. pose proof (producer_knows s1 g1 l Hok1 Ho). specialize (K2 (W l)). specialize (K3 (W l)).
    simpl in K2. unfold join in K2. lia. }
  pose proof (Kn_le_Mn _ _ (i_shared _ _ Hok1)) as [_ Hc].
  assert (older (mem s3) (Mn (mem s1)) T = 0) as H0.
  { eapply found_older; [exact Hf|by left| |].
    - rewrite Hc. by apply Hknown.
    - intros b Hb. destruct (lookup_lt_is_Some_2 (vis (mem s1)) (Mn (mem s1))) as [b' Hb']; [rewrite (vis_length _ _ (i_shared _ _ Hok1)); lia|].
      assert (b = b') as ->.
      { pose proof (prefix_lookup_Some _ _ _ _ (prefix_lookup_Some _ _ _ _ Hb' P2) P3). naive_solver. }
      rewrite (HT b' Hb'). pose proof (Hknown (Tail b') eq_refl). unfold Tn.
      assert (b' ∈ ring (mem s1) g1) as Hr by (eapply vis_in_ring; [|exact Hb']; apply (left_le_Mn _ _ (i_shared _ _ Hok1))).
      pose proof (b_tail _ _ _ (ring_ok _ _ (i_shared _ _ Hok1) b' Hr)). lia. }
  unfold moved in *. simpl in *. rewrite Hv0 in M1. simpl in M1. rewrite app_nil_r in M1'.
  assert (enqueued (evs1 ++ evs2') = dequeued (evs1 ++ evs2') ++ fview (mem s2) g2) as Hall
    by (rewrite enqueued_app, dequeued_app, M1, <- !app_assoc, M1', M2; done).
  assert (length (enqueued evs1) <= length (dequeued (evs1 ++ evs2'))) as Hlen
    by (rewrite M1, dequeued_app, !length_app; lia).
  rewrite enqueued_app in Hall.
  assert (enqueued evs1 `prefix_of` dequeued (evs1 ++ evs2') \/ dequeued (evs1 ++ evs2') `prefix_of` enqueued evs1) as [Hx|Hx].
  { apply (prefix_weak_total _ _ (enqueued evs1 ++ enqueued evs2')); [by eexists|rewrite Hall; by eexists]. }
  - done.
  - by rewrite (prefix_length_eq _ _ Hx Hlen).
Qed.

(** A thread in a call can make its next access, with some choice. *)
Lemma next_access s g t : sys_ok s g -> in_call t s = true -> exists choice s' evs', act s (Run t choice) = Done (s', evs').
Proof.
  intros Hok Hin. pose proof (i_wf _ _ Hok) as Hwf.
  assert (forall choice, act s (Run t choice) <> Undefined) as Hu by (intros choice; apply (act_ok s g Hok)).
  destruct t; simpl in Hin, Hu |- *.
  - destruct (producing s) as [[x [| |o k]]|]; [by destruct (Hu 0%Z)|by destruct (Hu 0%Z)| |done].
    destruct (exec_enabled _ _ Producer o Hwf) as (choice & [[v m'] w'] & E).
    { intros choice E. apply (Hu choice). by rewrite E. }
    exists choice. rewrite E. case_match; by do 2 eexists.
  - destruct (consuming s) as [[| |o k]|]; [by destruct (Hu 0%Z)|by destruct (Hu 0%Z)| |done].
    destruct (exec_enabled _ _ Consumer o Hwf) as (choice & [[v m'] w'] & E).
    { intros choice E. apply (Hu choice). by rewrite E. }
    exists choice. rewrite E. case_match; by do 2 eexists.
Qed.

(** C5. Every call is wait-free: in any reachable state, after the beginning of a
    call of [enqueue] or [try_enqueue] (by the producer) or of [try_dequeue] (by the
    consumer) and any accesses of both threads, a call that has not returned has
    made fewer than 27 accesses, or 24, of its own, and there is a choice with which its next one is
    done.  When that one makes it return, the call has made one of a few numbers of
    accesses in all, according to its result: 8, 10, 21 or 27 for an element put in
    (into the tail block with the known or the reloaded [front], into the next block, into a
    new one), 9 or 11 for one that was not (nothing may be, or was, allocated), 6
    for an empty queue, and 8, 10, 16 or 24 for an element taken. *)
Theorem weak_spsc_wait_free (maxSize : Z) (q : queue) (acts acts' : list action) (call : action) (s s1 : sys) (evs evs1 : list event) (t : tid) :
  constructed maxSize q -> run acts (start q) = Done (s, evs) ->
  is_call t call = true -> run (call :: acts') s = Done (s1, evs1) -> returns t evs1 = 0 ->
  accesses t acts' < bound t /\
  (exists choice s2 evs2, act s1 (Run t choice) = Done (s2, evs2)) /\
  (forall choice s2 e, act s1 (Run t choice) = Done (s2, [e]) -> S (accesses t acts') ∈ durations e).
Proof.
  intros Hq Hr Hc Hr1 Hret. destruct (start_ok _ _ Hq) as (g & Hok & _). destruct (proj2 (weak_run_ok acts _ _ Hok) _ _ Hr) as (g' & Hok' & _).
  destruct (proj2 (weak_run_ok _ _ _ Hok') _ _ Hr1) as (g1 & Hok1 & _). simpl in Hr1.
  destruct (act s call) as [[s0 evs0]| |] eqn:Ea; [|done|done]. destruct (run acts' s0) as [[s1' evs1']| |] eqn:Er; [|done|done].
  injection Hr1 as -> <-. destruct (call_spent _ _ _ _ _ Hc Ea) as [-> Hs]. pose proof (run_spent _ _ _ _ _ _ Er Hret Hs) as Hs1. simpl in Hs1.
  assert (in_call t s1 = true) as Hin by (destruct t; simpl in *; by case_match).
  destruct (next_access _ _ _ Hok1 Hin) as (choice & s2 & evs2 & E). split; [|split; [by eauto|]].
  - destruct t; simpl in Hs1, E.
    + destruct (producing s1) as [[x [| |o k]]|]; [done|done| |done]. apply Hs1.
    + destruct (consuming s1) as [[| |o k]|]; [done|done| |done]. apply Hs1.
  - intros c s3 e E3. exact (proj2 (act_spent t _ _ _ _ _ E3 Hs1) c e eq_refl eq_refl).
Qed.

(** ** Examples *)
Definition is_done {A} (r : outcome A) : bool := match r with Done _ => true | _ => false end.
Lemma is_done_spec {A} (r : outcome A) : is_done r = true -> exists a, r = Done a.
Proof. destruct r; [by eexists|done|done]. Qed.

(** One enqueue; a [try_dequeue] whose load of [tail] returns the old value and that
    therefore finds nothing, although the enqueue has returned. *)
Definition stale : list action :=
  Enqueue true 7%Z :: replicate 8 (Run Producer 0) ++ TryDequeue :: replicate 6 (Run Consumer 0).
Example stale_outcome : match run stale (start sample_queue) with Done (_, evs) => evs | _ => [] end = [Enqueued 7%Z; Dequeued None].
Proof. vm_compute. reflexivity. Qed.

(** After synchronising the consumer takes the element, and finds nothing more. *)
Definition fresh : list action :=
  TryDequeue :: Run Consumer 0 :: Run Consumer 0 :: Run Consumer 0 :: Run Consumer 1 :: replicate 6 (Run Consumer 0) ++
  TryDequeue :: Run Consumer 0 :: Run Consumer 0 :: Run Consumer 1 :: Run Consumer 1 :: [Run Consumer 0].
Example fresh_outcome :
  match run (stale ++ Synchronise Consumer :: fresh ++ [Run Consumer 0]) (start sample_queue) with Done (_, evs) => evs | _ => [] end =
  [Enqueued 7%Z; Dequeued None; Dequeued (Some 7%Z); Dequeued None].
Proof. vm_compute. reflexivity. Qed.

Lemma runs_spec acts1 acts2 a s evs :
  match run acts1 s with
  | Done (s1, _) => match run acts2 s1 with
                    | Done (s2, _) => match act s2 a with Done (_, evs3) => Some evs3 | _ => None end
                    | _ => None
                    end
  | _ => None
  end = Some evs ->
  exists s1 s2 s3 evs1 evs2, run acts1 s = Done (s1, evs1) /\ run acts2 s1 = Done (s2, evs2) /\ act s2 a = Done (s3, evs).
Proof.
  intros E. destruct (run acts1 s) as [[s1 evs1]| |] eqn:E1; [|done|done].
  destruct (run acts2 s1) as [[s2 evs2]| |] eqn:E2; [|done|done]. destruct (act s2 a) as [[s3 evs3]| |] eqn:E3; [|done|done].
  injection E as <-. by exists s1, s2, s3, evs1, evs2.
Qed.

Lemma weak_spsc_safe_witness :
  constructed 1 sample_queue /\ run (stale ++ Synchronise Consumer :: fresh) (start sample_queue) <> Undefined.
Proof. split; [exact sample_constructed|exact (weak_spsc_safe 1 sample_queue _ sample_constructed)]. Defined.

Lemma weak_spsc_fifo_witness :
  exists s evs, run (stale ++ Synchronise Consumer :: fresh) (start sample_queue) = Done (s, evs) /\
    enqueued evs = dequeued evs ++ contents (mem s).
Proof.
  destruct (is_done_spec (run (stale ++ Synchronise Consumer :: fresh) (start sample_queue))) as [[s evs] E].
  - vm_compute. reflexivity.
  - exists s, evs. exact (conj E (weak_spsc_fifo 1 sample_queue _ s evs sample_constructed E)).
Defined.

Lemma weak_spsc_synchronised_witness :
  exists s1 s2 s3 evs1 evs2, run stale (start sample_queue) = Done (s1, evs1) /\
    run (Synchronise Consumer :: fresh) s1 = Done (s2, evs2) /\ act s2 (Run Consumer 0) = Done (s3, [Dequeued None]) /\
    enqueued evs1 `prefix_of` dequeued (evs1 ++ evs2).
Proof.
  destruct (runs_spec stale (Synchronise Consumer :: fresh) (Run Consumer 0) (start sample_queue) [Dequeued None])
    as (s1 & s2 & s3 & evs1 & evs2 & E1 & E2 & E3); [vm_compute; reflexivity|].
  exists s1, s2, s3, evs1, evs2. split; [exact E1|]. split; [exact E2|]. split; [exact E3|].
  exact (weak_spsc_synchronised 1 sample_queue stale fresh (Run Consumer 0) s1 s2 s3 evs1 evs2 sample_constructed E1 E2 E3).
Defined.

Lemma weak_spsc_wait_free_witness :
  exists s1 evs1, run (TryDequeue :: replicate 5 (Run Consumer 0)) (start sample_queue) = Done (s1, evs1) /\
    (exists choice s2 evs2, act s1 (Run Consumer choice) = Done (s2, evs2)) /\
    forall choice s2 e, act s1 (Run Consumer choice) = Done (s2, [e]) -> 6 ∈ durations e.
Proof.
  destruct (is_done_spec (run (TryDequeue :: replicate 5 (Run Consumer 0)) (start sample_queue))) as [[s1 evs1] E]; [vm_compute; reflexivity|].
  assert (match run (TryDequeue :: replicate 5 (Run Consumer 0)) (start sample_queue) with Done (_, evs) => returns Consumer evs | _ => 1 end = 0) as Hret
    by (vm_compute; reflexivity).
  rewrite E in Hret. exists s1, evs1. split; [exact E|].
  exact (proj2 (weak_spsc_wait_free 1 sample_queue [] (replicate 5 (Run Consumer 0)) TryDequeue _ s1 [] evs1 Consumer sample_constructed
    (eq_refl : run [] (start sample_queue) = Done (start sample_queue, [])) eq_refl E Hret)).
Defined.

(** What the consumer does after the producer has put an element into its cell. *)
Definition take (order : op var) : list (tid * Z * op var) :=
  [(Consumer, 0%Z, Read (LocalTail 100))] ++ [(Consumer, 1%Z, Load (Tail 100))] ++ [] ++ [(Consumer, 0%Z, order)] ++ [].
Definition give (order : op var) : list (tid * Z * op var) :=
  [(Producer, 0%Z, Write (Cell 100 0) 7%Z)] ++ [(Consumer, 0%Z, Load (Tail 100))] ++ [(Producer, 0%Z, order)] ++ [] ++
  [(Producer, 0%Z, Store (Tail 100) 1%Z)].
Definition given (release acquire : op var) : outcome (memory var * (tid -> views var)) :=
  match execs (give release) (initial_memory sample_queue) (fun _ => initial_views sample_queue) with
  | Done (m, vs) => execs (take acquire) m vs
  | r => r
  end.
Definition taken (release acquire : op var) : outcome Z :=
  match given release acquire with
  | Done (m, vs) => match exec Consumer 0 (Read (Cell 100 0)) m (vs Consumer) with Done (v, _, _) => Done v | Disallowed => Disallowed | Undefined => Undefined end
  | Disallowed => Disallowed
  | Undefined => Undefined
  end.

(** Neither fence can be left out, and a compiler fence is none. *)
Example fences_needed :
  (taken (Fence memory_order_release) (Fence memory_order_acquire), taken (Fence memory_order_acquire) (Fence memory_order_acquire),
   taken (Fence memory_order_release) (CompilerFence memory_order_acquire), taken (CompilerFence memory_order_release) (Fence memory_order_acquire)) =
  (Done 7%Z, Undefined, Undefined, Undefined).
Proof. vm_compute. reflexivity. Qed.

