(* ===== verification/Effects.v ===== *)
(** * Programs that call their environment

    Code that talks to a library, a kernel or a device is a function in a small
    state monad: the state is the record of the calls made so far with their
    answers, newest first, and the environment [answer] chooses the next answer
    from that record.  Quantifying over the environment covers every behaviour
    the other side can have. *)
From S2P Require Import Prelude.

(** [C]: the calls; [A]: the answers. *)
Class Env (C A : Type) := answer : list (C * A) -> C -> A.

Definition M (C A R : Type) : Type := list (C * A) -> R * list (C * A).

Definition ret {C A R} (r : R) : M C A R := fun t => (r, t).
Definition bind {C A R S} (m : M C A R) (k : R -> M C A S) : M C A S :=
  fun t => let '(r, t') := m t in k r t'.
Definition call {C A} `{Env C A} (c : C) : M C A A :=
  fun t => let a := answer t c in (a, (c, a) :: t).
(** A call whose answer is not used. *)
Definition do {C A} `{Env C A} (c : C) : M C A () := fun t => ((), (c, answer t c) :: t).

Declare Scope eff_scope.
Delimit Scope eff_scope with eff.
Notation "x <- m ;; k" := (bind m (fun x => k)) (at level 20, m at level 99, k at level 200) : eff_scope.
Notation "' p <- m ;; k" := (bind m (fun x => let 'p := x in k))
  (at level 20, p pattern, m at level 99, k at level 200) : eff_scope.
Notation "m ;; k" := (bind m (fun _ => k)) (at level 100, k at level 200, right associativity) : eff_scope.

Create HintDb eff.

(** ** Accounts

    What the calls of a trace add to and take from an account: a resource that
    is acquired and released, a lock, a counter. *)
Section balance.
Context {C A : Type} (effect : C -> A -> Z).

Fixpoint balance (t : list (C * A)) : Z :=
  match t with
  | [] => 0
  | (c, a) :: t => effect c a + balance t
  end.

Lemma balance_cons c a t : balance ((c, a) :: t) = effect c a + balance t.
Proof. done. Qed.

Lemma balance_app t1 t2 : balance (t1 ++ t2) = balance t1 + balance t2.
Proof. induction t1 as [|[c a] t1 IH]; simpl; [done|]. rewrite IH. lia. Qed.
End balance.

(** How much of a resource [r] is held after the calls of a trace; [effect] says
    what a call with its answer acquires (positive) or releases (negative). *)
Definition held_of {R C A} (effect : R -> C -> A -> Z) (r : R) (t : list (C * A)) : Z := balance (effect r) t.
#[global] Arguments held_of : simpl never.

Lemma held_cons {R C A} (effect : R -> C -> A -> Z) r c a t :
  held_of effect r ((c, a) :: t) = effect r c a + held_of effect r t.
Proof. done. Qed.

(** ** Reasoning *)
Lemma bind_ret {C A R S} (r : R) (k : R -> M C A S) t : bind (ret r) k t = k r t.
Proof. done. Qed.

Lemma bind_do {C A S} `{Env C A} (c : C) (k : () -> M C A S) t : bind (do c) k t = k () ((c, answer t c) :: t).
Proof. done. Qed.

Lemma bind_assoc {C A R S T} (m : M C A R) (k : R -> M C A S) (l : S -> M C A T) t :
  bind (bind m k) l t = bind m (fun x => bind (k x) l) t.
Proof. unfold bind. by destruct (m t). Qed.

(** Runs a program on a symbolic trace: every call becomes a fresh answer. *)
Ltac run_step :=
  match goal with
  | |- context [answer ?t ?c] => let a := fresh "a" in generalize (answer t c); intros a
  end.

(** Programs only extend the trace. *)
Definition extends {C A R} (m : M C A R) : Prop := forall t, exists t', (m t).2 = t' ++ t.

Lemma extends_ret {C A R} (r : R) : extends (C := C) (A := A) (ret r).
Proof. intros t. by exists []. Qed.
Lemma extends_call {C A} `{Env C A} (c : C) : extends (call c).
Proof. intros t. by exists [(c, answer t c)]. Qed.
Lemma extends_do {C A} `{Env C A} (c : C) : extends (do c).
Proof. intros t. by exists [(c, answer t c)]. Qed.
Lemma extends_bind {C A R S} (m : M C A R) (k : R -> M C A S) :
  extends m -> (forall r, extends (k r)) -> extends (bind m k).
Proof.
  intros Hm Hk t. unfold bind. destruct (Hm t) as [t1 E]. destruct (m t) as [r t'] eqn:Em. simpl in E.
  destruct (Hk r t') as [t2 E2]. exists (t2 ++ t1). by rewrite E2, E, app_assoc.
Qed.
#[export] Hint Resolve extends_ret extends_call extends_do extends_bind : eff.
