(* ===== verification/Native.v ===== *)
(** * System memory, the time stamp counter and exported DPDK functions

    The functions by which scripts reach the operating system, the processor and
    the inline functions of DPDK: [alloc_huge], [free_huge] and [fence] of
    src/src/memory.c, [free_ring] of ring.c, [read_rdtsc] of util.c and rdtsc.h,
    the field for time stamps of timestamping.c, the signal handlers of
    lifecycle.cpp, and the exports of memory.c, util.c and device.c.  Theorems:
    what a script holds of huge pages, the value the halves of the counter make
    up, and when the time stamp field exists. *)
From S2P Require Import Prelude Effects Bytes.

(** The constants of sys/mman.h. *)
Class Mman := {
  PROT_READ : Z; PROT_WRITE : Z;
  MAP_NORESERVE : Z; MAP_PRIVATE : Z; MAP_ANONYMOUS : Z;
  MADV_HUGEPAGE : Z;
  MAP_FAILED : ptr
}.

(** The name DPDK gives to the time stamp field of packets. *)
Class RteMbufDyn := { RTE_MBUF_DYNFIELD_TIMESTAMP_NAME : string }.

(** [Rdtsc] and [Rdtscp] are the instructions; their answer has the two
    registers.  [DynRxTimestampRegister] answers with its result and what it
    stores through the pointer, if anything.  [Signal] installs [handler] of
    lifecycle.cpp (Device.v). *)
Inductive ncall :=
| Mmap (addr : ptr) (size prot flags fd offset : Z)
| Madvise (addr : ptr) (size advice : Z)
| Munmap (addr : ptr) (size : Z)
| SyncSynchronize
| Rdtsc | Rdtscp
| RteRingFree (r : ptr)
| PktmbufAlloc (mp : ptr) | PktmbufFree (m : ptr)
| MbufRefcntRead (m : ptr) | MbufRefcntUpdate (m : ptr) (value : Z)
| PktmbufAdj (m : ptr) (len : Z) | PktmbufTrim (m : ptr) (len : Z)
| LcoreId | SocketId | LcoreToSocketId (lcore_id : Z)
| DelayMs (ms : Z) | DelayUs (us : Z)
| EthRxBurst (port_id queue_id : Z) (rx_pkts : ptr) (nb_pkts : Z)
| EthTxBurst (port_id queue_id : Z) (tx_pkts : ptr) (nb_pkts : Z)
| DynfieldLookup (name : string) | DynRxTimestampRegister
| Signal (signum : Z)
| EthTxPrepare (port_id queue_id : Z) (tx_pkts : ptr) (nb_pkts : Z)
| PrintfPtr (p : ptr).

Record nans := { value : Z; eax : Z; edx : Z; field_offset : option Z }.

Section code.
Context `{Mman} `{RteMbufDyn} `{Env ncall nans}.
Local Open Scope eff_scope.

(** ** src/src/memory.c *)
Definition alloc_huge (size : Z) : M ncall nans ptr :=
  a <- call (Mmap NULL size (Z.lor PROT_READ PROT_WRITE)
               (Z.lor (Z.lor MAP_NORESERVE MAP_PRIVATE) MAP_ANONYMOUS) (-1) 0) ;;
  let mem := value a in
  do (Madvise mem size MADV_HUGEPAGE) ;;
  ret mem.

Definition free_huge (p : ptr) (size : Z) : M ncall nans Z :=
  a <- call (Munmap p size) ;; ret (i32 (value a)).

Definition fence : M ncall nans () := do SyncSynchronize.

Definition rte_pktmbuf_alloc_export (mp : ptr) : M ncall nans ptr :=
  a <- call (PktmbufAlloc mp) ;; ret (value a).
Definition rte_mbuf_refcnt_read_export (m : ptr) : M ncall nans Z :=
  a <- call (MbufRefcntRead m) ;; ret (u16 (value a)).
Definition rte_mbuf_refcnt_update_export (m : ptr) (v : Z) : M ncall nans Z :=
  a <- call (MbufRefcntUpdate m v) ;; ret (u16 (value a)).
Definition rte_pktmbuf_adj_export (m : ptr) (len : Z) : M ncall nans ptr :=
  a <- call (PktmbufAdj m len) ;; ret (value a).
Definition rte_pktmbuf_trim_export (m : ptr) (len : Z) : M ncall nans Z :=
  a <- call (PktmbufTrim m len) ;; ret (i32 (value a)).

(** ** src/src/ring.c *)
Definition free_ring (r : ptr) : M ncall nans () := do (RteRingFree r).

(** ** src/src/device.c *)
Definition rte_eth_rx_burst_export (port_id queue_id : Z) (rx_pkts : ptr) (nb_pkts : Z) : M ncall nans Z :=
  a <- call (EthRxBurst port_id queue_id rx_pkts nb_pkts) ;; ret (u16 (value a)).
Definition rte_eth_tx_burst_export (port_id queue_id : Z) (tx_pkts : ptr) (nb_pkts : Z) : M ncall nans Z :=
  a <- call (EthTxBurst port_id queue_id tx_pkts nb_pkts) ;; ret (u16 (value a)).
Definition rte_eth_tx_prepare_export (port_id queue_id : Z) (tx_pkts : ptr) (nb_pkts : Z) : M ncall nans Z :=
  a <- call (EthTxPrepare port_id queue_id tx_pkts nb_pkts) ;; ret (u16 (value a)).
Definition rte_pktmbuf_free_export (m : ptr) : M ncall nans () := do (PktmbufFree m).
Definition rte_delay_ms_export (ms : Z) : M ncall nans () := do (DelayMs ms).
Definition rte_delay_us_export (us : Z) : M ncall nans () := do (DelayUs us).

(** ** src/src/timestamping.c

    The result is the new value of the variable [timestamp_field_offset]; the
    result of the registration is not looked at. *)
Definition init_timestamp_dynfield_offset : M ncall nans Z :=
  a <- call (DynfieldLookup RTE_MBUF_DYNFIELD_TIMESTAMP_NAME) ;;
  let timestamp_field_offset := i32 (value a) in
  if timestamp_field_offset <? 0 then
    a <- call DynRxTimestampRegister ;;
    ret (default timestamp_field_offset (field_offset a))
  else ret timestamp_field_offset.

(** ** src/src/lifecycle.cpp *)
Definition SIGINT : Z := 2.
Definition SIGTERM : Z := 15.
Definition install_signal_handlers : M ncall nans () := do (Signal SIGINT) ;; do (Signal SIGTERM).

(** ** src/src/util.c *)
Definition print_ptr (p : ptr) : M ncall nans () := do (PrintfPtr p).
Definition get_current_core : M ncall nans Z := a <- call LcoreId ;; ret (u32 (value a)).
Definition get_current_socket : M ncall nans Z := a <- call SocketId ;; ret (u32 (value a)).
Definition rte_lcore_to_socket_id_export (lcore_id : Z) : M ncall nans Z :=
  a <- call (LcoreToSocketId lcore_id) ;; ret (u32 (value a)).
End code.

(** ** The union of the two views of the counter

    Eight bytes, the low half first; the anonymous structure's members are at
    offsets 0 and 4. *)
Definition tsc_t : Type := list Z.
Definition store_half (off : Z) (v : Z) (u : tsc_t) : option tsc_t := st_bytes u off (le32 v).
Definition tsc_64 (u : tsc_t) : option Z :=
  lo ← ld32 u 0; hi ← ld32 u 4; Some (lo + 4294967296 * hi).

Section rdtsc.
Context `{Env ncall nans} (garbage : tsc_t).
Local Open Scope eff_scope.

(** util.c names the registers as outputs, low half first; rdtsc.h moves them,
    high half first.  The local variable starts as whatever the stack holds. *)
Definition read_rdtsc_util : M ncall nans (option Z) :=
  a <- call Rdtsc ;;
  ret (tsc ← store_half 0 (eax a) garbage; tsc ← store_half 4 (edx a) tsc; tsc_64 tsc).

Definition read_with (instruction : ncall) : M ncall nans (option Z) :=
  a <- call instruction ;;
  ret (tsc ← store_half 4 (edx a) garbage; tsc ← store_half 0 (eax a) tsc; tsc_64 tsc).
Definition read_rdtsc : M ncall nans (option Z) := read_with Rdtsc.
Definition read_rdtscp : M ncall nans (option Z) := read_with Rdtscp.
End rdtsc.

(** ** The counter *)
Lemma tsc_halves (u : tsc_t) : length u = 8%nat ->
  exists l h, u = l ++ h /\ length l = 4%nat /\ length h = 4%nat.
Proof.
  intros. exists (take 4 u), (drop 4 u). rewrite take_drop, length_take, length_drop. split; [done|lia].
Qed.

Lemma store_low l h v : length l = 4%nat -> store_half 0 v (l ++ h) = Some (le32 v ++ h).
Proof. intros Hl. exact (st_bytes_app [] l (le32 v) h 0 Hl eq_refl). Qed.

Lemma store_high l h v : length l = 4%nat -> length h = 4%nat -> store_half 4 v (l ++ h) = Some (l ++ le32 v).
Proof.
  intros Hl Hh. pose proof (st_bytes_app l h (le32 v) [] 4 Hh ltac:(lia)) as E.
  by rewrite !app_nil_r in E.
Qed.

Lemma tsc_64_halves lo hi : is_u32 lo -> is_u32 hi -> tsc_64 (le32 lo ++ le32 hi) = Some (lo + 4294967296 * hi).
Proof.
  intros. assert (Z.of_nat (length (le32 lo)) = 4) as Hl by reflexivity. unfold tsc_64.
  rewrite (ld32_app_l _ _ 0) by (rewrite Hl; lia). rewrite le32_value by done. cbn [mbind option_bind].
  rewrite (ld32_app_r _ _ 4) by (rewrite Hl; lia). rewrite Hl. change (4 - 4) with 0. by rewrite le32_value.
Qed.

(** The registers the instruction leaves when the counter is [t]. *)
Definition registers_of (t : Z) (a : nans) : Prop := eax a = u32 t /\ edx a = Z.shiftr t 32.

Section counter.
Context `{Env ncall nans} (garbage : tsc_t).

(** Both versions of [read_rdtsc] and [read_rdtscp] return the counter, whatever
    was on the stack: the order in which the halves are stored does not matter. *)
Lemma read_rdtsc_counter tr t :
  length garbage = 8%nat -> is_u64 t ->
  (registers_of t (answer tr Rdtsc) ->
   (read_rdtsc garbage tr).1 = Some t /\ (read_rdtsc_util garbage tr).1 = Some t) /\
  (registers_of t (answer tr Rdtscp) -> (read_rdtscp garbage tr).1 = Some t).
Proof.
  intros (l & h & -> & Hl & Hh)%tsc_halves Ht.
  assert (is_u32 (u32 t)) as H1 by word.
  assert (is_u32 (Z.shiftr t 32)) as H2 by (rewrite Z.shiftr_div_pow2 by lia; change (2 ^ 32) with 4294967296; word).
  assert (u32 t + 4294967296 * Z.shiftr t 32 = t) as E
    by (rewrite Z.shiftr_div_pow2 by lia; change (2 ^ 32) with 4294967296; word).
  assert (forall c, registers_of t (answer tr c) -> (read_with (l ++ h) c tr).1 = Some t) as Hr.
  { intros c [Ea Ed]. unfold read_with, bind, call, ret. cbn [fst snd]. rewrite Ea, Ed, store_high by done.
    cbn [mbind option_bind]. rewrite store_low by done. cbn [mbind option_bind].
    by rewrite tsc_64_halves, E. }
  split; [|apply Hr]. intros Hreg. split; [by apply Hr|]. destruct Hreg as [Ea Ed].
  unfold read_rdtsc_util, bind, call, ret. cbn [fst snd]. rewrite Ea, Ed, store_low by done.
  cbn [mbind option_bind]. rewrite store_high by done. cbn [mbind option_bind].
  by rewrite tsc_64_halves, E.
Qed.
End counter.

(** ** Huge pages *)
Section huge.
Context `{Mman} `{Env ncall nans}.

(** Bytes of mapped memory at address [p]. *)
Definition mapped (p : ptr) (c : ncall) (a : nans) : Z :=
  match c with
  | Mmap _ size _ _ _ _ => if negb (value a =? MAP_FAILED) && (value a =? p) then size else 0
  | Munmap q size => if (i32 (value a) =? 0) && (q =? p) then - size else 0
  | _ => 0
  end.

(** Either the request fails and nothing is mapped anywhere, or [size] more bytes
    are mapped at the result and nowhere else.  Advice is given in both cases, on
    [MAP_FAILED] too. *)
Lemma alloc_huge_spec size t :
  let '(mem, t') := alloc_huge size t in
  (forall p, held_of mapped p t' =
     held_of mapped p t + (if (mem =? MAP_FAILED) || negb (mem =? p) then 0 else size)) /\
  (exists a, t' !! 0%nat = Some (Madvise mem size MADV_HUGEPAGE, a)).
Proof.
  unfold alloc_huge, bind, call, do, ret. run_step. split; [|by eexists].
  intros p. rewrite !held_cons. simpl. destruct (value a =? MAP_FAILED), (value a =? p); simpl; lia.
Qed.

(** Freeing an allocation with its size, as memory.lua does, unmaps it unless the
    system refuses, and touches no other mapping. *)
Lemma free_huge_spec q size t :
  let '(r, t') := free_huge q size t in
  forall p, held_of mapped p t' = held_of mapped p t - (if (r =? 0) && (q =? p) then size else 0).
Proof.
  unfold free_huge, bind, call, ret. run_step. intros p. rewrite held_cons. simpl. case_match; lia.
Qed.

(** An allocation that is freed leaves everything as it was. *)
Lemma alloc_free_huge size t :
  let '(mem, t1) := alloc_huge size t in
  let '(r, t2) := free_huge mem size t1 in
  mem <> MAP_FAILED -> r = 0 -> forall p, held_of mapped p t2 = held_of mapped p t.
Proof.
  pose proof (alloc_huge_spec size t) as Ha. destruct (alloc_huge size t) as [mem t1].
  pose proof (free_huge_spec mem size t1) as Hf. destruct (free_huge mem size t1) as [r t2].
  intros Hm -> p. destruct Ha as [Ha _]. rewrite Hf, Ha, (proj2 (Z.eqb_neq _ _) Hm). simpl.
  destruct (mem =? p); simpl; lia.
Qed.
End huge.

(** ** The time stamp field

    What rte_mbuf_dyn.h documents of the two calls: the offset of an existing
    field or -1, and an offset stored exactly when the registration succeeds. *)
Definition lookup_documented (a : nans) : Prop := value a = -1 \/ 0 <= value a < 2147483648.
Definition register_documented (a : nans) : Prop :=
  match field_offset a with Some off => value a = 0 /\ 0 <= off < 2147483648 | None => value a < 0 end.

Section timestamp_field.
Context `{RteMbufDyn} `{Env ncall nans}.

(** The offset is that of the field that exists or of the one registered now.
    Only when both calls fail it is -1, and [get_timestamp_dynfield] and
    [set_timestamp_dynfield] would then address the byte before the packet. *)
Lemma init_timestamp_dynfield_offset_spec t :
  let found := answer t (DynfieldLookup RTE_MBUF_DYNFIELD_TIMESTAMP_NAME) in
  let added := answer ((DynfieldLookup RTE_MBUF_DYNFIELD_TIMESTAMP_NAME, found) :: t) DynRxTimestampRegister in
  lookup_documented found -> register_documented added ->
  (init_timestamp_dynfield_offset t).1 =
    (if 0 <=? value found then value found else default (-1) (field_offset added)) /\
  ((init_timestamp_dynfield_offset t).1 < 0 <-> value found = -1 /\ value added < 0).
Proof.
  intros found added Hf Ha.
  assert (i32 (value found) = value found) as E by (apply i32_small; unfold lookup_documented in Hf; word).
  assert ((init_timestamp_dynfield_offset t).1 =
    if value found <? 0 then default (value found) (field_offset added) else value found) as ->.
  { unfold init_timestamp_dynfield_offset, bind, call. fold found. rewrite E. by destruct (value found <? 0). }
  unfold lookup_documented, register_documented in *.
  destruct (Z.ltb_spec (value found) 0), (Z.leb_spec 0 (value found)); try lia.
  assert (value found = -1) as -> by lia. split; [done|]. destruct (field_offset added); simpl; lia.
Qed.
End timestamp_field.

(** ** A concrete machine *)
Module Sample.
#[local] Instance mman : Mman := {|
  PROT_READ := 1; PROT_WRITE := 2; MAP_NORESERVE := 16384; MAP_PRIVATE := 2; MAP_ANONYMOUS := 32;
  MADV_HUGEPAGE := 14; MAP_FAILED := 18446744073709551615 |}.
#[local] Instance dyn : RteMbufDyn := {| RTE_MBUF_DYNFIELD_TIMESTAMP_NAME := "timestamp" |}.
(** A counter that advances by [2^32 - 1] with every call; memory at 0x200000. *)
#[local] Instance env : Env ncall nans := fun t c =>
  let tsc := 5 + 4294967295 * Z.of_nat (length t) in
  match c with
  | Mmap _ size _ _ _ _ => {| value := if size =? 0 then MAP_FAILED else 2097152; eax := 0; edx := 0; field_offset := None |}
  | DynfieldLookup _ => {| value := -1; eax := 0; edx := 0; field_offset := None |}
  | DynRxTimestampRegister => {| value := 0; eax := 0; edx := 0; field_offset := Some 72 |}
  | Rdtsc | Rdtscp => {| value := 0; eax := u32 tsc; edx := Z.shiftr tsc 32; field_offset := None |}
  | _ => {| value := 0; eax := 0; edx := 0; field_offset := None |}
  end.

Example tsc_twice :
  (read_rdtsc (replicate 8 170) []).1 = Some 5 /\
  (read_rdtsc_util (replicate 8 170) (read_rdtsc (replicate 8 170) []).2).1 = Some 4294967300.
Proof. vm_compute. done. Qed.

Example huge_failure : (alloc_huge 0 []).1 = MAP_FAILED /\ held_of mapped MAP_FAILED (alloc_huge 0 []).2 = 0.
Proof. vm_compute. done. Qed.

Example field_registered : (init_timestamp_dynfield_offset []).1 = 72.
Proof. vm_compute. done. Qed.
End Sample.
