(* ===== verification/IgbUio.v ===== *)
(** * The igb_uio kernel module (src/deps/dpdk-kmods/linux/igb_uio)

    The driver that hands a PCI device to user space: it maps the BARs, picks an
    interrupt mode and reference-counts the openers of the device file.  The
    kernel is the environment; its calls are [kcall], its answers integers
    (0 is also the null pointer). *)
From S2P Require Import Prelude Effects.

Definition EINVAL : Z := 22.
Definition ENODEV : Z := 19.
Definition ENOMEM : Z := 12.
Definition ENOENT : Z := 2.

(** The macros of compat.h that depend on the kernel version. *)
Class KernelConfig := {
  HAVE_PCI_IS_BRIDGE_API : bool;
  HAVE_PCI_MSI_MASK_IRQ : bool;
  HAVE_ALLOC_IRQ_VECTORS : bool;
  (* CONFIG_LOCK_DOWN_KERNEL *)
  LOCK_DOWN_KERNEL : bool
}.

(** Module parameters: [wc_activate] and [intr_mode]. *)
Inductive rte_intr_mode := MODE_NONE | MODE_LEGACY | MODE_MSI | MODE_MSIX.

#[export] Instance rte_intr_mode_eq_dec : EqDecision rte_intr_mode.
Proof. solve_decision. Defined.

(** What the driver reads from the device's configuration. *)
Class PciDev := {
  pci_resource_start : Z -> Z;
  pci_resource_len : Z -> Z;
  pci_resource_flags : Z -> Z
}.

Definition IORESOURCE_IO : Z := 256.
Definition IORESOURCE_MEM : Z := 512.
Definition MAX_UIO_MAPS : Z := 5.
Definition MAX_UIO_PORT_REGIONS : Z := 5.
Definition UIO_IRQ_NONE : Z := 0.
Definition IRQF_SHARED : Z := 128.
Definition IRQF_NO_THREAD : Z := 65536.

Inductive kcall :=
| PciIsBridge
| Kzalloc
| Kfree (p : ptr)
| PciEnableDevice
| PciDisableDevice
| PciSetMaster
| PciClearMaster
| Ioremap (addr len : Z)
| Iounmap (p : ptr)
| DmaSetMask
| SysfsCreateGroup
| SysfsRemoveGroup
| UioRegisterDevice
| UioUnregisterDevice
| DmaAllocCoherent
| DmaFreeCoherent (p : ptr)
| AllocIrqVectors (msix : bool)     (* pci_alloc_irq_vectors(pdev, 1, 1, ...) *)
| IrqVector                         (* pci_irq_vector(pdev, 0) *)
| FreeIrqVectors
| EnableMsix                        (* pci_enable_msix *)
| MsixVector                        (* the vector it stored in msix_entry *)
| EnableMsi
| DisableMsix
| DisableMsi
| PdevIrq                           (* pdev->irq *)
| IntxMaskSupported
| RequestIrq (irq flags : Z)
| FreeIrq (irq : Z)
| CfgAccessLock
| CfgAccessUnlock
| MsiUnmaskIrq
| MsiMaskIrq
| PciIntx (enable : bool)
| CheckAndMaskIntx
| UioEventNotify
| Writel (val addr : Z)
| Readl (addr : Z)
| WriteConfigDword (pos val : Z)
| DisableSriov
| NumVf
| EnableSriov (n : Z)
| KernelIsLockedDown
| RegisterDriver
| UnregisterDriver.

(** ** Data *)
Record uio_mem := { mem_name : string; mem_addr : Z; internal_addr : ptr; mem_size : Z; memtype : Z }.
Record uio_port := { port_name : string; port_start : Z; port_size : Z; porttype : Z }.

Definition UIO_MEM_PHYS : Z := 1.
Definition UIO_PORT_X86 : Z := 1.

Record uio_info := mk_info {
  mem : list uio_mem;
  port : list uio_port;
  irq : Z;
  irq_flags : Z
}.

Record rte_uio_pci_dev := mk_udev {
  udev_addr : ptr;
  info : uio_info;
  mode : rte_intr_mode;
  refcnt : Z            (* atomic_t *)
}.

Definition zero_mem : uio_mem := {| mem_name := ""; mem_addr := 0; internal_addr := NULL; mem_size := 0; memtype := 0 |}.
Definition zero_port : uio_port := {| port_name := ""; port_start := 0; port_size := 0; porttype := 0 |}.

(** The structure as [kzalloc] leaves it. *)
Definition zero_info : uio_info :=
  mk_info (replicate (Z.to_nat MAX_UIO_MAPS) zero_mem) (replicate (Z.to_nat MAX_UIO_PORT_REGIONS) zero_port) 0 0.

Definition set_mem (n : Z) (m : uio_mem) (i : uio_info) : uio_info :=
  mk_info (<[Z.to_nat n := m]> (mem i)) (port i) (irq i) (irq_flags i).
Definition set_port (n : Z) (p : uio_port) (i : uio_info) : uio_info :=
  mk_info (mem i) (<[Z.to_nat n := p]> (port i)) (irq i) (irq_flags i).
Definition set_irq (n flags : Z) (i : uio_info) : uio_info := mk_info (mem i) (port i) n flags.
Definition set_info (i : uio_info) (u : rte_uio_pci_dev) : rte_uio_pci_dev :=
  mk_udev (udev_addr u) i (mode u) (refcnt u).
Definition set_mode (m : rte_intr_mode) (u : rte_uio_pci_dev) : rte_uio_pci_dev :=
  mk_udev (udev_addr u) (info u) m (refcnt u).
Definition set_refcnt (n : Z) (u : rte_uio_pci_dev) : rte_uio_pci_dev :=
  mk_udev (udev_addr u) (info u) (mode u) n.

Open Scope eff_scope.

Section code.
Context `{KernelConfig} `{PciDev} `{Env kcall Z}.
Context (wc_activate : Z).

(** ** BARs *)
Definition igbuio_pci_setup_iomem (i : uio_info) (n pci_bar : Z) (name : string) : M kcall Z (Z * uio_info) :=
  if Z.of_nat (length (mem i)) <=? n then ret (- EINVAL, i)
  else
    let addr := pci_resource_start pci_bar in
    let len := pci_resource_len pci_bar in
    if (addr =? 0) || (len =? 0) then ret (-1, i)
    else if wc_activate =? 0 then
      internal <- call (Ioremap addr len) ;;
      if internal =? NULL then ret (-1, i)
      else ret (0, set_mem n {| mem_name := name; mem_addr := addr; internal_addr := internal;
                                mem_size := len; memtype := UIO_MEM_PHYS |} i)
    else ret (0, set_mem n {| mem_name := name; mem_addr := addr; internal_addr := NULL;
                              mem_size := len; memtype := UIO_MEM_PHYS |} i).

Definition igbuio_pci_setup_ioport (i : uio_info) (n pci_bar : Z) (name : string) : M kcall Z (Z * uio_info) :=
  if Z.of_nat (length (port i)) <=? n then ret (- EINVAL, i)
  else
    let addr := pci_resource_start pci_bar in
    let len := pci_resource_len pci_bar in
    if (addr =? 0) || (len =? 0) then ret (- EINVAL, i)
    else ret (0, set_port n {| port_name := name; port_start := addr; port_size := len; porttype := UIO_PORT_X86 |} i).

(** The loop of [igbuio_pci_release_iomem] over the memory slots. *)
Fixpoint release_iomem (ms : list uio_mem) : M kcall Z () :=
  match ms with
  | [] => ret ()
  | m :: ms => if internal_addr m =? NULL then release_iomem ms
               else do (Iounmap (internal_addr m)) ;; release_iomem ms
  end.
Definition igbuio_pci_release_iomem (i : uio_info) : M kcall Z () := release_iomem (mem i).

Definition bar_names : list string := ["BAR0"; "BAR1"; "BAR2"; "BAR3"; "BAR4"; "BAR5"].

(** The loop of [igbuio_setup_bars] from bar [b] on; [r] is the variable [ret],
    which is not initialised. *)
Fixpoint setup_bars (names : list string) (b iom iop r : Z) (i : uio_info) : M kcall Z (Z * uio_info) :=
  match names with
  | [] => ret (if negb (iom =? 0) || negb (iop =? 0) then r else - ENOENT, i)
  | name :: names =>
      if negb (pci_resource_len b =? 0) && negb (pci_resource_start b =? 0) then
        let flags := pci_resource_flags b in
        if c_true (Z.land flags IORESOURCE_MEM) then
          '(r, i) <- igbuio_pci_setup_iomem i iom b name ;;
          if c_true r then ret (r, i) else setup_bars names (b + 1) (iom + 1) iop r i
        else if c_true (Z.land flags IORESOURCE_IO) then
          '(r, i) <- igbuio_pci_setup_ioport i iop b name ;;
          if c_true r then ret (r, i) else setup_bars names (b + 1) iom (iop + 1) r i
        else setup_bars names (b + 1) iom iop r i
      else setup_bars names (b + 1) iom iop r i
  end.

Definition igbuio_setup_bars (uninit : Z) (i : uio_info) : M kcall Z (Z * uio_info) :=
  setup_bars bar_names 0 0 0 uninit i.

(** ** Interrupts *)

(** The [switch] of [igbuio_pci_enable_interrupts]; a case that fails falls
    through to the next. *)
Definition use_none (u : rte_uio_pci_dev) : M kcall Z rte_uio_pci_dev :=
  ret (set_mode MODE_NONE (set_info (set_irq UIO_IRQ_NONE (irq_flags (info u)) (info u)) u)).

Definition try_legacy (u : rte_uio_pci_dev) : M kcall Z rte_uio_pci_dev :=
  ok <- call IntxMaskSupported ;;
  if c_true ok then
    n <- call PdevIrq ;;
    ret (set_mode MODE_LEGACY (set_info (set_irq n (Z.lor IRQF_SHARED IRQF_NO_THREAD) (info u)) u))
  else use_none u.

Definition try_msi (u : rte_uio_pci_dev) : M kcall Z rte_uio_pci_dev :=
  if HAVE_ALLOC_IRQ_VECTORS then
    k <- call (AllocIrqVectors false) ;;
    if k =? 1 then
      n <- call IrqVector ;;
      ret (set_mode MODE_MSI (set_info (set_irq n IRQF_NO_THREAD (info u)) u))
    else try_legacy u
  else
    k <- call EnableMsi ;;
    if k =? 0 then
      n <- call PdevIrq ;;
      ret (set_mode MODE_MSI (set_info (set_irq n IRQF_NO_THREAD (info u)) u))
    else try_legacy u.

Definition try_msix (u : rte_uio_pci_dev) : M kcall Z rte_uio_pci_dev :=
  if HAVE_ALLOC_IRQ_VECTORS then
    k <- call (AllocIrqVectors true) ;;
    if k =? 1 then
      n <- call IrqVector ;;
      ret (set_mode MODE_MSIX (set_info (set_irq n IRQF_NO_THREAD (info u)) u))
    else try_msi u
  else
    k <- call EnableMsix ;;
    if k =? 0 then
      n <- call MsixVector ;;
      ret (set_mode MODE_MSIX (set_info (set_irq n IRQF_NO_THREAD (info u)) u))
    else try_msi u.

Definition select_mode (preferred : rte_intr_mode) (u : rte_uio_pci_dev) : M kcall Z rte_uio_pci_dev :=
  match preferred with
  | MODE_MSIX => try_msix u
  | MODE_MSI => try_msi u
  | MODE_LEGACY => try_legacy u
  | MODE_NONE => use_none u
  end.

Definition igbuio_pci_enable_interrupts (preferred : rte_intr_mode) (u : rte_uio_pci_dev)
  : M kcall Z (Z * rte_uio_pci_dev) :=
  u <- select_mode preferred u ;;
  if negb (irq (info u) =? UIO_IRQ_NONE) then
    err <- call (RequestIrq (irq (info u)) (irq_flags (info u))) ;; ret (err, u)
  else ret (0, u).

Definition igbuio_pci_disable_interrupts (u : rte_uio_pci_dev) : M kcall Z rte_uio_pci_dev :=
  u <- (if c_true (irq (info u)) then
          do (FreeIrq (irq (info u))) ;;
          ret (set_info (set_irq 0 (irq_flags (info u)) (info u)) u)
        else ret u) ;;
  if HAVE_ALLOC_IRQ_VECTORS then
    match mode u with
    | MODE_MSIX | MODE_MSI => do FreeIrqVectors ;; ret u
    | _ => ret u
    end
  else
    (match mode u with MODE_MSIX => do DisableMsix | _ => ret () end) ;;
    (match mode u with MODE_MSI => do DisableMsi | _ => ret () end) ;;
    ret u.

(** [uio_info.open] and [uio_info.release]. *)
Definition igbuio_pci_open (preferred : rte_intr_mode) (u : rte_uio_pci_dev) : M kcall Z (Z * rte_uio_pci_dev) :=
  let u := set_refcnt (refcnt u + 1) u in
  if negb (refcnt u =? 1) then ret (0, u)
  else
    do PciSetMaster ;;
    '(err, u) <- igbuio_pci_enable_interrupts preferred u ;;
    if c_true err then ret (err, set_refcnt (refcnt u - 1) u)
    else ret (err, u).

Definition igbuio_pci_release (u : rte_uio_pci_dev) : M kcall Z rte_uio_pci_dev :=
  let u := set_refcnt (refcnt u - 1) u in
  if refcnt u =? 0 then
    u <- igbuio_pci_disable_interrupts u ;;
    do PciClearMaster ;;
    ret u
  else ret u.

(** ** Masking *)
Record msi_desc := { masked : Z; entry_nr : Z; mask_base : Z; desc_irq : Z; maskbit : bool; mask_pos : Z }.

Definition PCI_MSIX_ENTRY_SIZE : Z := 16.
Definition PCI_MSIX_ENTRY_VECTOR_CTRL : Z := 12.
Definition PCI_MSIX_ENTRY_CTRL_MASKBIT : Z := 1.

Definition set_masked (v : Z) (d : msi_desc) : msi_desc :=
  {| masked := v; entry_nr := entry_nr d; mask_base := mask_base d; desc_irq := desc_irq d;
     maskbit := maskbit d; mask_pos := mask_pos d |}.

(** [x & ~m] and [x | m] on [u32]. *)
Definition clear_bits (x m : Z) : Z := u32 (Z.land x (Z.lnot m)).
Definition set_bits (x m : Z) : Z := u32 (Z.lor x m).

Definition igbuio_msix_mask_irq (d : msi_desc) (state : Z) : M kcall Z msi_desc :=
  let offset := u32 (entry_nr d * PCI_MSIX_ENTRY_SIZE + PCI_MSIX_ENTRY_VECTOR_CTRL) in
  let mask_bits := if c_true state then clear_bits (masked d) PCI_MSIX_ENTRY_CTRL_MASKBIT
                   else set_bits (masked d) PCI_MSIX_ENTRY_CTRL_MASKBIT in
  if negb (mask_bits =? masked d) then
    do (Writel mask_bits (mask_base d + offset)) ;;
    do (Readl (mask_base d)) ;;
    ret (set_masked mask_bits d)
  else ret d.

Definition igbuio_msi_mask_irq (pdev_irq : Z) (d : msi_desc) (state : Z) : M kcall Z msi_desc :=
  let offset := u32 (desc_irq d - pdev_irq) in
  let mask := u32 (Z.shiftl 1 offset) in
  if negb (maskbit d) then ret d
  else
    let mask_bits := if c_true state then clear_bits (masked d) mask else set_bits (masked d) mask in
    if negb (mask_bits =? masked d) then
      do (WriteConfigDword (mask_pos d) mask_bits) ;; ret (set_masked mask_bits d)
    else ret d.

(** [list_for_each_entry] over the device's MSI descriptors. *)
Fixpoint for_each_desc (f : msi_desc -> M kcall Z msi_desc) (ds : list msi_desc) : M kcall Z (list msi_desc) :=
  match ds with
  | [] => ret []
  | d :: ds => d <- f d ;; ds <- for_each_desc f ds ;; ret (d :: ds)
  end.

Definition igbuio_mask_irq (pdev_irq : Z) (m : rte_intr_mode) (irq_state : Z) (ds : list msi_desc)
  : M kcall Z (list msi_desc) :=
  match m with
  | MODE_MSIX => for_each_desc (fun d => igbuio_msix_mask_irq d irq_state) ds
  | MODE_MSI => for_each_desc (fun d => igbuio_msi_mask_irq pdev_irq d irq_state) ds
  | _ => ret ds
  end.

Definition igbuio_pci_irqcontrol (u : rte_uio_pci_dev) (pdev_irq irq_state : Z) (ds : list msi_desc)
  : M kcall Z (Z * list msi_desc) :=
  do CfgAccessLock ;;
  ds <- (match mode u with
         | MODE_MSIX | MODE_MSI =>
             if HAVE_PCI_MSI_MASK_IRQ then
               if irq_state =? 1 then do MsiUnmaskIrq ;; ret ds else do MsiMaskIrq ;; ret ds
             else igbuio_mask_irq pdev_irq (mode u) irq_state ds
         | _ => ret ds
         end) ;;
  (match mode u with MODE_LEGACY => do (PciIntx (c_true irq_state)) | _ => ret () end) ;;
  do CfgAccessUnlock ;;
  ret (0, ds).

Definition IRQ_NONE : Z := 0.
Definition IRQ_HANDLED : Z := 1.

Definition igbuio_pci_irqhandler (u : rte_uio_pci_dev) : M kcall Z Z :=
  ours <- (match mode u with MODE_LEGACY => call CheckAndMaskIntx | _ => ret 1 end) ;;
  if c_true ours then do UioEventNotify ;; ret IRQ_HANDLED else ret IRQ_NONE.

(** ** Probe and remove *)
Definition fail_free (udev : ptr) (err : Z) : M kcall Z (Z * option rte_uio_pci_dev) :=
  do (Kfree udev) ;; ret (err, None).
Definition fail_release_iomem (udev : ptr) (i : uio_info) (err : Z) : M kcall Z (Z * option rte_uio_pci_dev) :=
  igbuio_pci_release_iomem i ;;
  do PciDisableDevice ;;
  fail_free udev err.
Definition fail_remove_group (udev : ptr) (i : uio_info) (err : Z) : M kcall Z (Z * option rte_uio_pci_dev) :=
  do SysfsRemoveGroup ;; fail_release_iomem udev i err.

Definition igbuio_pci_probe (uninit : Z) : M kcall Z (Z * option rte_uio_pci_dev) :=
  bridge <- (if HAVE_PCI_IS_BRIDGE_API then call PciIsBridge else ret 0) ;;
  if c_true bridge then ret (- ENODEV, None)
  else
    udev <- call Kzalloc ;;
    if udev =? NULL then ret (- ENOMEM, None)
    else
      err <- call PciEnableDevice ;;
      if c_true err then fail_free udev err
      else
        do PciSetMaster ;;
        '(err, i) <- igbuio_setup_bars uninit zero_info ;;
        if c_true err then fail_release_iomem udev i err
        else
          err <- call DmaSetMask ;;
          if c_true err then fail_release_iomem udev i err
          else
            err <- call SysfsCreateGroup ;;
            if c_true err then fail_release_iomem udev i err
            else
              err <- call UioRegisterDevice ;;
              if c_true err then fail_remove_group udev i err
              else
                map_addr <- call DmaAllocCoherent ;;
                (if map_addr =? NULL then ret () else do (DmaFreeCoherent map_addr)) ;;
                ret (0, Some (mk_udev udev i MODE_NONE 0)).

Definition igbuio_pci_remove (u : rte_uio_pci_dev) : M kcall Z () :=
  u <- igbuio_pci_release u ;;
  do SysfsRemoveGroup ;;
  do UioUnregisterDevice ;;
  igbuio_pci_release_iomem (info u) ;;
  do PciDisableDevice ;;
  do (Kfree (udev_addr u)).

(** ** Sysfs and module *)

(** [parsed]: the result of [kstrtoul], [None] when it fails. *)
Definition store_max_vfs (parsed : option Z) (count : Z) : M kcall Z Z :=
  match parsed with
  | None => ret (- EINVAL)
  | Some max_vfs =>
      err <- (if 0 =? max_vfs then do DisableSriov ;; ret 0
              else n <- call NumVf ;;
                   if 0 =? n then call (EnableSriov max_vfs) else ret (- EINVAL)) ;;
      ret (if c_true err then err else count)
  end.

Definition igbuio_config_intr_mode (intr_str : option string) (preferred : rte_intr_mode) : Z * rte_intr_mode :=
  match intr_str with
  | None => (0, preferred)
  | Some s =>
      if String.eqb s "msix" then (0, MODE_MSIX)
      else if String.eqb s "msi" then (0, MODE_MSI)
      else if String.eqb s "legacy" then (0, MODE_LEGACY)
      else (- EINVAL, preferred)
  end.

Definition igbuio_kernel_is_locked_down : M kcall Z Z :=
  if LOCK_DOWN_KERNEL then call KernelIsLockedDown else ret 0.

Definition igbuio_pci_init_module (intr_mode : option string) (preferred : rte_intr_mode)
  : M kcall Z (Z * rte_intr_mode) :=
  locked <- igbuio_kernel_is_locked_down ;;
  if c_true locked then ret (- EINVAL, preferred)
  else
    let '(r, preferred) := igbuio_config_intr_mode intr_mode preferred in
    if r <? 0 then ret (r, preferred)
    else r <- call RegisterDriver ;; ret (r, preferred).

Definition igbuio_pci_exit_module : M kcall Z () := do UnregisterDriver.
End code.

(** ** compat.h: INTx masking on kernels before 3.3

    The accesses to the command/status dword are calls of their own. *)
Inductive ccall := BlockCfg | UnblockCfg | ReadWord | ReadDword | WriteWord (v : Z).

Definition PCI_COMMAND_INTX_DISABLE : Z := 1024.
Definition PCI_STATUS_INTERRUPT : Z := 8.

Section compat.
Context `{Env ccall Z}.

Definition pci_intx_mask_supported : M ccall Z bool :=
  do BlockCfg ;;
  orig <- call ReadWord ;;
  do (WriteWord (Z.lxor orig PCI_COMMAND_INTX_DISABLE)) ;;
  new <- call ReadWord ;;
  supported <- (if c_true (Z.land (Z.lxor new orig) (Z.lnot PCI_COMMAND_INTX_DISABLE)) then ret false
                else if c_true (Z.land (Z.lxor new orig) PCI_COMMAND_INTX_DISABLE) then
                  do (WriteWord orig) ;; ret true
                else ret false) ;;
  do UnblockCfg ;;
  ret supported.

Definition pci_check_and_mask_intx : M ccall Z bool :=
  do BlockCfg ;;
  status <- call ReadDword ;;
  let pending := c_true (Z.land (Z.shiftr status 16) PCI_STATUS_INTERRUPT) in
  (if pending then
     let old := u16 status in
     let new := if c_true status then u16 (Z.land old (Z.lnot PCI_COMMAND_INTX_DISABLE))
                else u16 (Z.lor old PCI_COMMAND_INTX_DISABLE) in
     if negb (old =? new) then do (WriteWord new) else ret ()
   else ret ()) ;;
  do UnblockCfg ;;
  ret pending.
End compat.

(** ** Resources *)
Inductive resource :=
| RUdev (p : ptr)       (* kzalloc *)
| REnabled              (* the PCI device *)
| RIomap (p : ptr)      (* ioremap *)
| RGroup                (* sysfs *)
| RUio                  (* the uio device *)
| RDma (p : ptr)
| RVectors              (* message-signalled interrupts *)
| RIrq (n : Z).         (* request_irq *)

Definition one (b : bool) : Z := if b then 1 else 0.

(** What a call with its answer acquires (1) or releases (-1). *)
Definition effect (r : resource) (c : kcall) (a : Z) : Z :=
  match r, c with
  | RUdev p, Kzalloc => one (negb (a =? NULL) && (a =? p))
  | RUdev p, Kfree p' => - one (p' =? p)
  | REnabled, PciEnableDevice => one (a =? 0)
  | REnabled, PciDisableDevice => -1
  | RIomap p, Ioremap _ _ => one (negb (a =? NULL) && (a =? p))
  | RIomap p, Iounmap p' => - one (p' =? p)
  | RGroup, SysfsCreateGroup => one (a =? 0)
  | RGroup, SysfsRemoveGroup => -1
  | RUio, UioRegisterDevice => one (a =? 0)
  | RUio, UioUnregisterDevice => -1
  | RDma p, DmaAllocCoherent => one (negb (a =? NULL) && (a =? p))
  | RDma p, DmaFreeCoherent p' => - one (p' =? p)
  | RVectors, AllocIrqVectors _ => one (a =? 1)
  | RVectors, (EnableMsix | EnableMsi) => one (a =? 0)
  | RVectors, (FreeIrqVectors | DisableMsix | DisableMsi) => -1
  | RIrq n, RequestIrq n' _ => one ((a =? 0) && (n' =? n))
  | RIrq n, FreeIrq n' => - one (n' =? n)
  | _, _ => 0
  end.

(** How much of a resource is held after the calls of a trace. *)
#[local] Abbreviation held := (held_of effect).

Section proofs.
Context `{KernelConfig} `{PciDev} `{Env kcall Z}.
Context (wc_activate : Z).

(** The memory maps a list of slots stands for. *)
Definition maps (r : resource) (ms : list uio_mem) : Z :=
  zsum (map (fun m => match r with RIomap p => one (negb (internal_addr m =? NULL) && (internal_addr m =? p)) | _ => 0 end) ms).

Lemma release_iomem_held r ms t : held r (release_iomem ms t).2 = held r t - maps r ms.
Proof.
  revert t. induction ms as [|m ms IH]; intros t; simpl.
  { unfold maps. simpl. lia. }
  unfold maps in *. simpl. destruct (Z.eqb_spec (internal_addr m) NULL) as [E|E]; simpl.
  - rewrite IH. destruct r; simpl; lia.
  - unfold bind, do. rewrite IH, held_cons. destruct r; simpl; lia.
Qed.

Lemma maps_insert r ms n m m0 :
  ms !! n = Some m0 -> internal_addr m0 = NULL -> maps r (<[n := m]> ms) = maps r ms + maps r [m].
Proof.
  intros En Em. unfold maps. revert n En. induction ms as [|x ms IH]; intros [|n] En; simpl in *; [done|done|..].
  - injection En as ->. rewrite Em. simpl. destruct r; simpl; lia.
  - rewrite (IH n En). lia.
Qed.

Lemma maps_single r m :
  maps r [m] = match r with RIomap p => one (negb (internal_addr m =? NULL) && (internal_addr m =? p)) | _ => 0 end.
Proof. unfold maps. simpl. lia. Qed.

(** The slots from [n] on are as [kzalloc] left them. *)
Definition unmapped_from (n : Z) (i : uio_info) : Prop :=
  forall k m, mem i !! k = Some m -> n <= Z.of_nat k -> internal_addr m = NULL.

Lemma setup_iomem_held r i n b name t :
  0 <= n -> unmapped_from n i ->
  let '((rc, i'), t') := igbuio_pci_setup_iomem wc_activate i n b name t in
  held r t' - maps r (mem i') = held r t - maps r (mem i) /\ unmapped_from (n + 1) i'.
Proof.
  intros Hn Hu. unfold igbuio_pci_setup_iomem.
  assert (unmapped_from (n + 1) i) as Hu1 by (intros k m Ek Hk; eapply Hu; [done|lia]).
  destruct (Z.leb_spec (Z.of_nat (length (mem i))) n) as [Hl|Hl]; [done|].
  destruct ((pci_resource_start b =? 0) || (pci_resource_len b =? 0)); [done|].
  assert (exists m0, mem i !! Z.to_nat n = Some m0) as (m0 & Em) by (apply lookup_lt_is_Some; lia).
  assert (internal_addr m0 = NULL) as Hm0 by (eapply Hu; [done|lia]).
  assert (forall m, unmapped_from (n + 1) (set_mem n m i)) as Hset.
  { intros m k x Ek Hk. simpl in Ek. rewrite list_lookup_insert_ne in Ek by lia. eapply Hu; [done|lia]. }
  destruct (wc_activate =? 0).
  - unfold bind, call. generalize (answer t (Ioremap (pci_resource_start b) (pci_resource_len b))). intros a.
    destruct (Z.eqb_spec a NULL) as [Ea|Ea]; simpl.
    + split; [|done]. rewrite held_cons. destruct r; simpl; try lia. rewrite Ea. simpl. lia.
    + split; [|done]. rewrite held_cons, (maps_insert r _ _ _ m0) by done.
      rewrite maps_single. apply Z.eqb_neq in Ea.
      destruct r; simpl; rewrite ?Ea; simpl; lia.
  - simpl. split; [|done]. rewrite (maps_insert r _ _ _ m0) by done. rewrite maps_single. destruct r; simpl; lia.
Qed.

Lemma setup_ioport_mem i n b name t :
  let '((rc, i'), t') := igbuio_pci_setup_ioport i n b name t in t' = t /\ mem i' = mem i.
Proof.
  unfold igbuio_pci_setup_ioport. destruct (_ <=? n); [done|]. by destruct ((pci_resource_start b =? 0) || _).
Qed.

Lemma setup_bars_held r names : forall b iom iop rc i t,
  0 <= iom -> unmapped_from iom i ->
  let '((rc', i'), t') := setup_bars wc_activate names b iom iop rc i t in
  held r t' - maps r (mem i') = held r t - maps r (mem i).
Proof.
  induction names as [|name names IH]; intros b iom iop rc i t Hi Hu; simpl; [done|].
  destruct (negb _ && negb _); [|by apply IH].
  destruct (c_true (Z.land (pci_resource_flags b) IORESOURCE_MEM)); [|destruct (c_true (Z.land _ IORESOURCE_IO))].
  - unfold bind. pose proof (setup_iomem_held r i iom b name t Hi Hu) as Hs.
    destruct (igbuio_pci_setup_iomem wc_activate i iom b name t) as [[r1 i1] t1]. destruct Hs as [Hs Hu1].
    destruct (c_true r1); [done|]. pose proof (IH (b + 1) (iom + 1) iop r1 i1 t1 ltac:(lia) Hu1) as Hr.
    destruct (setup_bars wc_activate names (b + 1) (iom + 1) iop r1 i1 t1) as [[r2 i2] t2]. lia.
  - unfold bind. pose proof (setup_ioport_mem i iop b name t) as Hs.
    destruct (igbuio_pci_setup_ioport i iop b name t) as [[r1 i1] t1]. destruct Hs as [-> Hm].
    destruct (c_true r1); [simpl; by rewrite Hm|].
    assert (unmapped_from iom i1) as Hu1 by (unfold unmapped_from; by rewrite Hm).
    pose proof (IH (b + 1) iom (iop + 1) r1 i1 t Hi Hu1) as Hr.
    destruct (setup_bars wc_activate names (b + 1) iom (iop + 1) r1 i1 t) as [[r2 i2] t2]. by rewrite Hr, Hm.
  - by apply IH.
Qed.

Lemma zero_unmapped : unmapped_from 0 zero_info.
Proof.
  intros k m Ek _. unfold zero_info in Ek. cbn [mem] in Ek. apply lookup_replicate in Ek as [-> _]. done.
Qed.

Lemma maps_zero r : maps r (mem zero_info) = 0.
Proof. unfold maps. destruct r; reflexivity. Qed.

(** The failure paths give everything back: the maps, the enabled device and the
    structure. *)
Lemma fail_release_iomem_held r udev i err t :
  held r (fail_release_iomem udev i err t).2 =
  held r t - maps r (mem i) + effect r PciDisableDevice 0 + effect r (Kfree udev) 0.
Proof.
  unfold fail_release_iomem, fail_free, igbuio_pci_release_iomem, bind, do, ret.
  pose proof (release_iomem_held r (mem i) t) as Hr. destruct (release_iomem (mem i) t) as [[] t1]. simpl in Hr.
  simpl. rewrite !held_cons, Hr. destruct r; simpl; lia.
Qed.

Lemma fail_release_iomem_result udev i err t : (fail_release_iomem udev i err t).1 = (err, None).
Proof.
  unfold fail_release_iomem, fail_free, igbuio_pci_release_iomem, bind, do, ret. by destruct (release_iomem (mem i) t).
Qed.

Lemma c_true_false x : c_true x = false -> x = 0.
Proof. unfold c_true. by destruct (Z.eqb_spec x 0). Qed.
Lemma c_true_true x : c_true x = true -> x <> 0.
Proof. unfold c_true. by destruct (Z.eqb_spec x 0). Qed.

(** Every acquisition between the structure and the failing call is undone. *)
Lemma fail_release_ok r udev i err t t0 :
  udev <> NULL ->
  held r t = held r t0 + effect r Kzalloc udev + effect r PciEnableDevice 0 + maps r (mem i) ->
  held r (fail_release_iomem udev i err t).2 = held r t0.
Proof.
  intros Hu Hh. rewrite fail_release_iomem_held, Hh. apply Z.eqb_neq in Hu.
  destruct r; simpl; rewrite ?Hu; simpl; lia.
Qed.

(** Removing a device that nobody has open. *)
Lemma remove_held r u t :
  refcnt u = 0 ->
  held r (igbuio_pci_remove u t).2 =
  held r t + effect r SysfsRemoveGroup 0 + effect r UioUnregisterDevice 0 - maps r (mem (info u)) +
  effect r PciDisableDevice 0 + effect r (Kfree (udev_addr u)) 0.
Proof.
  intros Hr. unfold igbuio_pci_remove, igbuio_pci_release, igbuio_pci_release_iomem, bind, do, ret. simpl. rewrite Hr.
  simpl. match goal with |- context [release_iomem ?ms ?tt] =>
    pose proof (release_iomem_held r ms tt) as Hh; destruct (release_iomem ms tt) as [[] t1] end.
  simpl in *. rewrite !held_cons in *. destruct r; simpl in *; lia.
Qed.

(** What a probe that started with [t] owes: nothing after a failure, and nothing
    after a success followed by a remove. *)
Definition probe_balanced (t : list (kcall * Z)) (out : Z * option rte_uio_pci_dev * list (kcall * Z)) : Prop :=
  let '((err, u), t1) := out in
  match u with
  | None => err <> 0 /\ forall r, held r t1 = held r t
  | Some u => err = 0 /\ refcnt u = 0 /\ forall r, held r (igbuio_pci_remove u t1).2 = held r t
  end.

Lemma probe_release_balanced udev i e tt t3 t :
  udev <> NULL -> e <> 0 ->
  (forall r, held r t3 = held r t + effect r Kzalloc udev + effect r PciEnableDevice 0 + maps r (mem i)) ->
  (forall r, held r tt = held r t3) -> probe_balanced t (fail_release_iomem udev i e tt).
Proof.
  intros Hu He H3 Htt. pose proof (fail_release_iomem_result udev i e tt) as Hr.
  pose proof (fun r => fail_release_ok r udev i e tt t Hu) as Hh.
  destruct (fail_release_iomem udev i e tt) as [[e1 u1] tt1]. simpl in *. injection Hr as -> ->.
  split; [done|]. intros r. apply Hh. by rewrite Htt.
Qed.

(** The steps of the probe after the BARs are mapped. *)
Lemma probe_register_balanced udev i t3 t :
  udev <> NULL ->
  (forall r, held r t3 = held r t + effect r Kzalloc udev + effect r PciEnableDevice 0 + maps r (mem i)) ->
  probe_balanced t
    ((err <- call DmaSetMask ;;
      if c_true err then fail_release_iomem udev i err
      else
        err <- call SysfsCreateGroup ;;
        if c_true err then fail_release_iomem udev i err
        else
          err <- call UioRegisterDevice ;;
          if c_true err then fail_remove_group udev i err
          else
            map_addr <- call DmaAllocCoherent ;;
            (if map_addr =? NULL then ret () else do (DmaFreeCoherent map_addr)) ;;
            ret (0, Some (mk_udev udev i MODE_NONE 0))) t3).
Proof.
  intros Hu Ht3.
  unfold bind at 1, call at 1. generalize (answer t3 DmaSetMask). intros e2. set (t4 := (DmaSetMask, e2) :: t3).
  destruct (c_true e2) eqn:Ee2.
  { eapply probe_release_balanced; [done|by apply c_true_true|exact Ht3|]. intros r. unfold t4. rewrite held_cons. destruct r; simpl; lia. }
  unfold bind at 1, call at 1. generalize (answer t4 SysfsCreateGroup). intros e3. set (t5 := (SysfsCreateGroup, e3) :: t4).
  destruct (c_true e3) eqn:Ee3.
  { apply c_true_true in Ee3. eapply probe_release_balanced; [done|done|exact Ht3|]. intros r. unfold t5, t4. rewrite !held_cons.
    apply Z.eqb_neq in Ee3. destruct r; simpl; rewrite ?Ee3; simpl; lia. }
  apply c_true_false in Ee3 as ->. unfold bind at 1, call at 1. generalize (answer t5 UioRegisterDevice). intros e4.
  destruct (c_true e4) eqn:Ee4.
  { apply c_true_true in Ee4. unfold fail_remove_group, bind, do. eapply probe_release_balanced; [done|done|exact Ht3|].
    intros r. unfold t5, t4. rewrite !held_cons. apply Z.eqb_neq in Ee4. destruct r; simpl; rewrite ?Ee4; simpl; lia. }
  apply c_true_false in Ee4 as ->. set (t6 := (UioRegisterDevice, 0) :: t5).
  unfold bind at 1, call at 1. generalize (answer t6 DmaAllocCoherent). intros ma.
  unfold bind at 1. assert (exists t7, (if ma =? NULL then ret () else do (DmaFreeCoherent ma)) ((DmaAllocCoherent, ma) :: t6)
    = ((), t7) /\ forall r, held r t7 = held r t6) as (t7 & -> & Ht7).
  { destruct (Z.eqb_spec ma NULL) as [Em|Em]; eexists; (split; [done|]); intros r; rewrite ?held_cons.
    - destruct r; simpl; rewrite ?Em; simpl; lia.
    - apply Z.eqb_neq in Em. destruct r; simpl; rewrite ?Em; simpl; lia. }
  split; [done|]. split; [done|]. intros r. rewrite remove_held by done. simpl. rewrite Ht7. unfold t6, t5, t4.
  rewrite !held_cons, Ht3. apply Z.eqb_neq in Hu. destruct r; simpl; rewrite ?Hu; simpl; lia.
Qed.

(** C33. Probe and remove are balanced, whatever the kernel answers: a probe that
    fails has given back everything it acquired (the structure, the enabled
    device, every mapped BAR, the sysfs group, the DMA buffer), and a successful
    probe followed by a remove has, too; nothing is released twice. *)
Theorem igbuio_probe_remove_balanced (uninit : Z) (t : list (kcall * Z)) :
  let '((err, u), t1) := igbuio_pci_probe wc_activate uninit t in
  match u with
  | None => err <> 0 /\ forall r, held r t1 = held r t
  | Some u => err = 0 /\ refcnt u = 0 /\ forall r, held r (igbuio_pci_remove u t1).2 = held r t
  end.
Proof.
  change (probe_balanced t (igbuio_pci_probe wc_activate uninit t)).
  unfold igbuio_pci_probe. unfold bind at 1.
  assert (exists b t0, (if HAVE_PCI_IS_BRIDGE_API then call PciIsBridge else ret 0) t = (b, t0) /\
    forall r, held r t0 = held r t) as (b & t0 & -> & Ht0).
  { destruct HAVE_PCI_IS_BRIDGE_API; eexists _, _; (split; [done|]); [|done].
    intros r. rewrite held_cons. destruct r; simpl; lia. }
  destruct (c_true b); [split; [done|exact Ht0]|].
  unfold bind at 1, call at 1. generalize (answer t0 Kzalloc). intros udev. set (t1 := (Kzalloc, udev) :: t0).
  destruct (Z.eqb_spec udev NULL) as [Hu|Hu].
  { split; [done|]. intros r. unfold t1. rewrite held_cons, Ht0, Hu. destruct r; simpl; lia. }
  unfold bind at 1, call at 1. generalize (answer t1 PciEnableDevice). intros err.
  destruct (c_true err) eqn:Ee.
  { split; [by apply c_true_true|]. intros r. unfold t1. simpl. rewrite !held_cons, Ht0. apply c_true_true in Ee.
    apply Z.eqb_neq in Ee, Hu. destruct r; simpl; rewrite ?Ee, ?Hu; simpl; lia. }
  apply c_true_false in Ee as ->. unfold bind at 1, do at 1. set (t2 := (PciSetMaster, _) :: (PciEnableDevice, 0) :: t1).
  unfold bind at 1. pose proof (fun r => setup_bars_held r bar_names 0 0 0 uninit zero_info t2 (Z.le_refl 0) zero_unmapped) as Hb.
  unfold igbuio_setup_bars. destruct (setup_bars wc_activate bar_names 0 0 0 uninit zero_info t2) as [[err i] t3].
  assert (forall r, held r t3 = held r t + effect r Kzalloc udev + effect r PciEnableDevice 0 + maps r (mem i)) as Ht3.
  { intros r. specialize (Hb r). rewrite maps_zero in Hb. subst t2 t1. rewrite !held_cons, Ht0 in Hb.
    destruct r; simpl in *; lia. }
  destruct (c_true err) eqn:Ee; [|by apply probe_register_balanced].
  eapply probe_release_balanced; [done|by apply c_true_true|exact Ht3|done].
Qed.

(** *** Opening and releasing the device file *)

Definition vectors (m : rte_intr_mode) : Z := match m with MODE_MSIX | MODE_MSI => 1 | _ => 0 end.

(** What choosing an interrupt mode does: message-signalled modes hold vectors,
    nothing else of the device changes. *)
Definition selected (u : rte_uio_pci_dev) (t : list (kcall * Z)) (res : rte_uio_pci_dev * list (kcall * Z)) : Prop :=
  held RVectors res.2 = held RVectors t + vectors (mode res.1) /\
  (forall n, held (RIrq n) res.2 = held (RIrq n) t) /\
  refcnt res.1 = refcnt u /\ mem (info res.1) = mem (info u) /\ udev_addr res.1 = udev_addr u.

Lemma use_none_selected u t t0 :
  held RVectors t = held RVectors t0 -> (forall n, held (RIrq n) t = held (RIrq n) t0) -> selected u t0 (use_none u t).
Proof. intros Hv Hq. split; [simpl; lia|]. by split. Qed.

Lemma try_legacy_selected u t t0 :
  held RVectors t = held RVectors t0 -> (forall n, held (RIrq n) t = held (RIrq n) t0) -> selected u t0 (try_legacy u t).
Proof.
  intros Hv Hq. unfold try_legacy, bind, call. generalize (answer t IntxMaskSupported). intros a.
  destruct (c_true a).
  - split; [simpl; rewrite !held_cons, Hv; simpl; lia|]. split; [|done].
    intros n. simpl. rewrite !held_cons, Hq. simpl; lia.
  - apply use_none_selected; [rewrite held_cons; simpl; lia|]. intros n. rewrite held_cons, Hq. simpl; lia.
Qed.

Lemma try_msi_selected u t t0 :
  held RVectors t = held RVectors t0 -> (forall n, held (RIrq n) t = held (RIrq n) t0) -> selected u t0 (try_msi u t).
Proof.
  intros Hv Hq. unfold try_msi. destruct HAVE_ALLOC_IRQ_VECTORS; unfold bind, call.
  - generalize (answer t (AllocIrqVectors false)). intros a. destruct (a =? 1) eqn:Ea.
    + split; [simpl; rewrite !held_cons, Hv; simpl; rewrite Ea; simpl; lia|]. split; [|done].
      intros n. simpl. rewrite !held_cons, Hq. simpl; lia.
    + apply try_legacy_selected; [rewrite held_cons; simpl; rewrite Ea; simpl; lia|].
      intros n. rewrite held_cons, Hq. simpl; lia.
  - generalize (answer t EnableMsi). intros a. destruct (a =? 0) eqn:Ea.
    + split; [simpl; rewrite !held_cons, Hv; simpl; rewrite Ea; simpl; lia|]. split; [|done].
      intros n. simpl. rewrite !held_cons, Hq. simpl; lia.
    + apply try_legacy_selected; [rewrite held_cons; simpl; rewrite Ea; simpl; lia|].
      intros n. rewrite held_cons, Hq. simpl; lia.
Qed.

Lemma try_msix_selected u t t0 :
  held RVectors t = held RVectors t0 -> (forall n, held (RIrq n) t = held (RIrq n) t0) -> selected u t0 (try_msix u t).
Proof.
  intros Hv Hq. unfold try_msix. destruct HAVE_ALLOC_IRQ_VECTORS; unfold bind, call.
  - generalize (answer t (AllocIrqVectors true)). intros a. destruct (a =? 1) eqn:Ea.
    + split; [simpl; rewrite !held_cons, Hv; simpl; rewrite Ea; simpl; lia|]. split; [|done].
      intros n. simpl. rewrite !held_cons, Hq. simpl; lia.
    + apply try_msi_selected; [rewrite held_cons; simpl; rewrite Ea; simpl; lia|].
      intros n. rewrite held_cons, Hq. simpl; lia.
  - generalize (answer t EnableMsix). intros a. destruct (a =? 0) eqn:Ea.
    + split; [simpl; rewrite !held_cons, Hv; simpl; rewrite Ea; simpl; lia|]. split; [|done].
      intros n. simpl. rewrite !held_cons, Hq. simpl; lia.
    + apply try_msi_selected; [rewrite held_cons; simpl; rewrite Ea; simpl; lia|].
      intros n. rewrite held_cons, Hq. simpl; lia.
Qed.

Lemma select_mode_selected preferred u t : selected u t (select_mode preferred u t).
Proof.
  destruct preferred; simpl.
  - by apply use_none_selected.
  - by apply try_legacy_selected.
  - by apply try_msi_selected.
  - by apply try_msix_selected.
Qed.

(** Opening a device nobody has open. *)
Lemma first_open preferred u t :
  refcnt u = 0 ->
  let '((err, u'), t') := igbuio_pci_open preferred u t in
  refcnt u' = one (err =? 0) /\ mem (info u') = mem (info u) /\ udev_addr u' = udev_addr u /\
  held RVectors t' = held RVectors t + vectors (mode u') /\
  (forall n, held (RIrq n) t' = held (RIrq n) t + one ((err =? 0) && negb (irq (info u') =? 0) && (irq (info u') =? n))).
Proof.
  intros Hr. unfold igbuio_pci_open. simpl. rewrite Hr. simpl. unfold bind at 1, do at 1.
  set (t1 := (PciSetMaster, _) :: t). unfold igbuio_pci_enable_interrupts. unfold bind at 2.
  unfold bind at 1. change (set_refcnt (0 + 1) u) with (set_refcnt 1 u). set (u1 := set_refcnt 1 u).
  destruct (select_mode_selected preferred u1 t1) as (S1 & S2 & S3 & S4 & S5).
  destruct (select_mode preferred u1 t1) as [u2 t2]. cbn [fst snd] in S1, S2, S3, S4, S5.
  assert (held RVectors t1 = held RVectors t /\ forall n, held (RIrq n) t1 = held (RIrq n) t) as [E1 E2].
  { unfold t1. split; [rewrite held_cons; simpl; lia|]. intros n. rewrite held_cons. simpl; lia. }
  unfold UIO_IRQ_NONE. destruct (Z.eqb_spec (irq (info u2)) 0) as [Ei|Ei]; simpl.
  - split; [done|]. split; [done|]. split; [done|]. split; [lia|]. intros n. rewrite Ei, S2, E2. simpl. lia.
  - unfold bind, call. generalize (answer t2 (RequestIrq (irq (info u2)) (irq_flags (info u2)))). intros a.
    destruct (c_true a) eqn:Ea; simpl.
    + apply c_true_true, Z.eqb_neq in Ea. rewrite Ea. simpl. split; [rewrite S3; unfold u1; simpl; lia|].
      split; [done|]. split; [done|]. split; [rewrite held_cons; simpl; lia|].
      intros n. rewrite held_cons, S2, E2. simpl. rewrite Ea. simpl. lia.
    + apply c_true_false in Ea as ->. simpl. split; [done|]. split; [done|]. split; [done|].
      split; [rewrite held_cons; simpl; lia|]. intros n. rewrite held_cons, S2, E2. apply Z.eqb_neq in Ei. rewrite Ei.
      simpl. lia.
Qed.

(** The last release. *)
Lemma last_release u t :
  refcnt u = 1 ->
  let '(u', t') := igbuio_pci_release u t in
  refcnt u' = 0 /\ held RVectors t' = held RVectors t - vectors (mode u) /\
  (forall n, held (RIrq n) t' = held (RIrq n) t - one (negb (irq (info u) =? 0) && (irq (info u) =? n))).
Proof.
  intros Hr. unfold igbuio_pci_release. simpl. rewrite Hr. simpl. unfold igbuio_pci_disable_interrupts. simpl.
  unfold bind, do, ret, c_true. destruct (Z.eqb_spec (irq (info u)) 0) as [Ei|Ei]; simpl;
    destruct HAVE_ALLOC_IRQ_VECTORS; destruct (mode u); simpl;
    (split; [done|]); split; try (intros n); rewrite ?held_cons; simpl; try lia.
Qed.

(** A user of the device file. *)
Inductive user_op := UOpen | URelease.

(** Opens and releases in any order, with the number of successful opens that
    have not been released; nobody releases what he has not opened. *)
Fixpoint sessions (preferred : rte_intr_mode) (ops : list user_op) (holders : Z) (u : rte_uio_pci_dev)
  : M kcall Z (Z * rte_uio_pci_dev) :=
  match ops with
  | [] => ret (holders, u)
  | UOpen :: ops =>
      '(err, u) <- igbuio_pci_open preferred u ;;
      sessions preferred ops (if err =? 0 then holders + 1 else holders) u
  | URelease :: ops =>
      if 0 <? holders then u <- igbuio_pci_release u ;; sessions preferred ops (holders - 1) u
      else sessions preferred ops holders u
  end.

(** The interrupt the device holds. *)
Definition irq_held (holders : Z) (u : rte_uio_pci_dev) (n : Z) : Z :=
  one ((0 <? holders) && negb (irq (info u) =? 0) && (irq (info u) =? n)).

Lemma sessions_ok preferred ops : forall holders u t t0,
  0 <= holders -> refcnt u = holders ->
  (forall n, held (RIrq n) t = held (RIrq n) t0 + irq_held holders u n) ->
  let '((holders', u'), t') := sessions preferred ops holders u t in
  0 <= holders' /\ refcnt u' = holders' /\
  (forall n, held (RIrq n) t' = held (RIrq n) t0 + irq_held holders' u' n).
Proof.
  induction ops as [|[|] ops IH]; intros holders u t t0 Hh Hr Hn; [done|..].
  - cbn [sessions]. unfold bind at 1. destruct (decide (holders = 0)) as [->|Hne].
    + pose proof (first_open preferred u t Hr) as Ho.
      destruct (igbuio_pci_open preferred u t) as [[err u1] t1]. destruct Ho as (R1 & _ & _ & _ & R2).
      apply IH; [destruct (err =? 0); lia|rewrite R1; by destruct (err =? 0)|]. intros n. rewrite R2, Hn. unfold irq_held at 1. simpl.
      unfold irq_held. destruct (err =? 0); simpl; lia.
    + unfold igbuio_pci_open. simpl. rewrite (proj2 (Z.eqb_neq (refcnt u + 1) 1)) by lia. simpl.
      apply IH; [lia|simpl; lia|]. intros n. rewrite Hn. unfold irq_held.
      rewrite !(proj2 (Z.ltb_lt _ _)) by lia. done.
  - cbn [sessions]. destruct (Z.ltb_spec 0 holders) as [Hp|Hp]; [|by apply IH].
    unfold bind at 1. destruct (decide (holders = 1)) as [->|Hne].
    + pose proof (last_release u t Hr) as Ho. destruct (igbuio_pci_release u t) as [u1 t1].
      destruct Ho as (R1 & _ & R2). apply IH; [lia|lia|]. intros n. rewrite R2, Hn. unfold irq_held. simpl. lia.
    + unfold igbuio_pci_release. simpl. rewrite (proj2 (Z.eqb_neq (refcnt u - 1) 0)) by lia. simpl.
      apply IH; [lia|simpl; lia|]. intros n. rewrite Hn. unfold irq_held. simpl.
      rewrite !(proj2 (Z.ltb_lt _ _)) by lia. done.
Qed.

(** C34. Reference counting: after any sequence of opens, of which the kernel may
    fail any, and releases, the count is the number of holders, and the driver
    holds exactly its own interrupt when there is a holder (and the mode has an
    interrupt) and no interrupt when there is none. *)
Theorem igbuio_sessions (preferred : rte_intr_mode) (ops : list user_op) (u : rte_uio_pci_dev) (t : list (kcall * Z)) :
  refcnt u = 0 ->
  let '((holders, u'), t') := sessions preferred ops 0 u t in
  refcnt u' = holders /\ 0 <= holders /\
  forall n, held (RIrq n) t' =
    held (RIrq n) t + one ((0 <? holders) && negb (irq (info u') =? 0) && (irq (info u') =? n)).
Proof.
  intros Hr. pose proof (sessions_ok preferred ops 0 u t t (Z.le_refl 0) Hr) as Hs.
  destruct (sessions preferred ops 0 u t) as [[holders u'] t']. destruct Hs as (Hv' & Hq & Hk).
  - intros n. unfold irq_held. simpl. lia.
  - done.
Qed.

(** An open that fails because the interrupt cannot be requested leaves the
    message-signalled vectors allocated: they are still held after the device is
    removed. *)
Theorem igbuio_failed_open_leaks (preferred : rte_intr_mode) (u : rte_uio_pci_dev) (t : list (kcall * Z)) :
  refcnt u = 0 ->
  let '((err, u'), t') := igbuio_pci_open preferred u t in
  err <> 0 ->
  refcnt u' = 0 /\ held RVectors (igbuio_pci_remove u' t').2 = held RVectors t + vectors (mode u').
Proof.
  intros Hr. pose proof (first_open preferred u t Hr) as Ho.
  destruct (igbuio_pci_open preferred u t) as [[err u'] t']. destruct Ho as (R1 & _ & _ & R2 & _).
  intros He. apply Z.eqb_neq in He. rewrite He in R1. split; [done|]. rewrite remove_held by done. simpl. rewrite R2.
  unfold maps. assert (forall l : list uio_mem, zsum (map (fun _ => 0) l) = 0) as ->; [|lia].
  intros l. induction l as [|x l IH]; simpl; lia.
Qed.
(** *** Mapping the BARs *)

(** What user space sees of a slot. *)
Definition mem_view (m : uio_mem) : string * Z * Z * Z := (mem_name m, mem_addr m, mem_size m, memtype m).

Definition bar_present (b : Z) : bool := negb (pci_resource_len b =? 0) && negb (pci_resource_start b =? 0).
Definition bar_is_mem (b : Z) : bool := bar_present b && c_true (Z.land (pci_resource_flags b) IORESOURCE_MEM).
Definition bar_is_io (b : Z) : bool := bar_present b && negb (bar_is_mem b) && c_true (Z.land (pci_resource_flags b) IORESOURCE_IO).

(** The BARs from [b] on, with their names. *)
Fixpoint bars (names : list string) (b : Z) : list (string * Z) :=
  match names with
  | [] => []
  | name :: names => (name, b) :: bars names (b + 1)
  end.
Definition mem_bars (l : list (string * Z)) : list (string * Z) := List.filter (fun nb => bar_is_mem nb.2) l.
Definition io_bars (l : list (string * Z)) : list (string * Z) := List.filter (fun nb => bar_is_io nb.2) l.
Definition mem_slot (nb : string * Z) : string * Z * Z * Z :=
  (nb.1, pci_resource_start nb.2, pci_resource_len nb.2, UIO_MEM_PHYS).
Definition io_slot (nb : string * Z) : uio_port :=
  {| port_name := nb.1; port_start := pci_resource_start nb.2; port_size := pci_resource_len nb.2;
     porttype := UIO_PORT_X86 |}.

(** The slots hold [done_] and are free from there on. *)
Definition slots_hold (ml : list (string * Z)) (il : list (string * Z)) (i : uio_info) : Prop :=
  map mem_view (mem i) = map mem_slot ml ++ replicate (5 - length ml) (mem_view zero_mem) /\
  port i = map io_slot il ++ replicate (5 - length il) zero_port /\
  (length ml <= 5)%nat /\ (length il <= 5)%nat.

Definition ioremap_works : Prop :=
  wc_activate <> 0 \/ forall t addr len, answer (A := Z) t (Ioremap addr len) <> NULL.

Lemma length_slots ml il i : slots_hold ml il i -> length (mem i) = 5%nat /\ length (port i) = 5%nat.
Proof.
  intros (Em & Ep & Hm & Hi). rewrite <- (length_map mem_view), Em, Ep, !length_app, !length_map, !length_replicate. lia.
Qed.

Lemma setup_iomem_spec i name b t ml il :
  ioremap_works -> slots_hold ml il i -> bar_present b = true ->
  let '((rc, i'), t') := igbuio_pci_setup_iomem wc_activate i (Z.of_nat (length ml)) b name t in
  if (length ml <? 5)%nat then rc = 0 /\ slots_hold (ml ++ [(name, b)]) il i' else rc = - EINVAL.
Proof.
  intros Hw Hs Hp. pose proof (length_slots _ _ _ Hs) as [Hl _]. unfold igbuio_pci_setup_iomem. rewrite Hl.
  destruct (Nat.ltb_spec (length ml) 5) as [H5|H5].
  - destruct (Z.leb_spec (Z.of_nat 5) (Z.of_nat (length ml))); [lia|].
    assert ((pci_resource_start b =? 0) || (pci_resource_len b =? 0) = false) as ->.
    { unfold bar_present in Hp. destruct (pci_resource_start b =? 0), (pci_resource_len b =? 0); done. }
    assert (forall a, slots_hold (ml ++ [(name, b)]) il
      (set_mem (Z.of_nat (length ml)) {| mem_name := name; mem_addr := pci_resource_start b; internal_addr := a;
         mem_size := pci_resource_len b; memtype := UIO_MEM_PHYS |} i)) as Hset.
    { intros a. destruct Hs as (Em & Ep & Hm & Hi). unfold slots_hold. rewrite length_app. cbn [length].
      split; [|split; [exact Ep|lia]]. cbn [set_mem mem]. rewrite Nat2Z.id, list_fmap_insert.
      change (mem_view <$> mem i) with (map mem_view (mem i)). rewrite Em, <- (length_map mem_slot ml).
      rewrite replicate_insert by (rewrite length_map; lia). rewrite map_app, length_map. f_equal. f_equal. lia. }
    destruct (Z.eqb_spec wc_activate 0) as [Ew|Ew]; [|split; [done|apply Hset]].
    destruct Hw as [Hw|Hw]; [done|]. unfold bind, call.
    specialize (Hw t (pci_resource_start b) (pci_resource_len b)).
    apply Z.eqb_neq in Hw. rewrite Hw. split; [done|apply Hset].
  - by destruct (Z.leb_spec (Z.of_nat 5) (Z.of_nat (length ml))); [|lia].
Qed.

Lemma setup_ioport_spec i name b t ml il :
  slots_hold ml il i -> bar_present b = true ->
  let '((rc, i'), t') := igbuio_pci_setup_ioport i (Z.of_nat (length il)) b name t in
  if (length il <? 5)%nat then rc = 0 /\ slots_hold ml (il ++ [(name, b)]) i' else rc = - EINVAL.
Proof.
  intros Hs Hp. pose proof (length_slots _ _ _ Hs) as [_ Hl]. unfold igbuio_pci_setup_ioport. rewrite Hl.
  destruct (Nat.ltb_spec (length il) 5) as [H5|H5].
  - destruct (Z.leb_spec (Z.of_nat 5) (Z.of_nat (length il))); [lia|].
    assert ((pci_resource_start b =? 0) || (pci_resource_len b =? 0) = false) as ->.
    { unfold bar_present in Hp. destruct (pci_resource_start b =? 0), (pci_resource_len b =? 0); done. }
    split; [done|]. destruct Hs as (Em & Ep & Hm & Hi). unfold slots_hold. rewrite length_app. cbn [length].
    split; [exact Em|]. split; [|lia]. cbn [set_port port]. rewrite Nat2Z.id, Ep, <- (length_map io_slot il).
    rewrite replicate_insert by (rewrite length_map; lia). rewrite map_app, length_map. f_equal. f_equal. lia.
  - by destruct (Z.leb_spec (Z.of_nat 5) (Z.of_nat (length il))); [|lia].
Qed.

(** The return value for the BARs found. *)
Definition bars_result (ml il : list (string * Z)) : Z :=
  if (5 <? length ml)%nat || (5 <? length il)%nat then - EINVAL
  else if (length ml + length il =? 0)%nat then - ENOENT else 0.

Lemma bars_result_full ml il : (5 < length ml \/ 5 < length il)%nat -> bars_result ml il = - EINVAL.
Proof.
  intros Hl. unfold bars_result. destruct (Nat.ltb_spec 5 (length ml)); [done|].
  destruct (Nat.ltb_spec 5 (length il)); [done|lia].
Qed.

Lemma setup_bars_spec names : forall b r i t ml il,
  ioremap_works -> slots_hold ml il i -> ((0 < length ml + length il)%nat -> r = 0) ->
  let ml' := ml ++ mem_bars (bars names b) in
  let il' := il ++ io_bars (bars names b) in
  let '((rc, i'), t') := setup_bars wc_activate names b (Z.of_nat (length ml)) (Z.of_nat (length il)) r i t in
  rc = bars_result ml' il' /\ (rc = 0 -> slots_hold ml' il' i').
Proof.
  induction names as [|name names IH]; intros b r i t ml il Hw Hs Hr.
  - cbn. rewrite !app_nil_r. split; [|done]. destruct Hs as (_ & _ & Hm & Hi). unfold bars_result.
    destruct (Nat.ltb_spec 5 (length ml)); [lia|]. destruct (Nat.ltb_spec 5 (length il)); [lia|]. simpl.
    destruct (Nat.eqb_spec (length ml + length il) 0).
    + by rewrite !(proj2 (Z.eqb_eq _ _)) by lia.
    + rewrite Hr by lia. by repeat case_Z; try lia.
  - cbn [setup_bars bars mem_bars io_bars List.filter snd]. fold (bar_present b).
    change (negb (pci_resource_len b =? 0) && negb (pci_resource_start b =? 0)) with (bar_present b).
    fold (mem_bars (bars names (b + 1))). fold (io_bars (bars names (b + 1))).
    unfold bar_is_io, bar_is_mem. destruct (bar_present b) eqn:Hp; cbn [andb negb]; [|by apply IH].
    destruct (c_true (Z.land (pci_resource_flags b) IORESOURCE_MEM)) eqn:Em; cbn [andb negb];
      [|destruct (c_true (Z.land (pci_resource_flags b) IORESOURCE_IO)) eqn:Ei; [|by apply IH]].
    + unfold bind. pose proof (setup_iomem_spec i name b t ml il Hw Hs Hp) as Hb.
      destruct (igbuio_pci_setup_iomem wc_activate i (Z.of_nat (length ml)) b name t) as [[rc i1] t1].
      destruct (Nat.ltb_spec (length ml) 5).
      * destruct Hb as [-> Hb]. cbn [c_true Z.eqb negb].
        replace (Z.of_nat (length ml) + 1) with (Z.of_nat (length (ml ++ [(name, b)]))) by (rewrite length_app; simpl; lia).
        specialize (IH (b + 1) 0 i1 t1 _ _ Hw Hb (fun _ => eq_refl)). by rewrite <- app_assoc in IH.
      * subst rc. cbn. rewrite bars_result_full; [split; [done|discriminate]|rewrite !length_app; simpl; lia].
    + unfold bind. pose proof (setup_ioport_spec i name b t ml il Hs Hp) as Hb.
      destruct (igbuio_pci_setup_ioport i (Z.of_nat (length il)) b name t) as [[rc i1] t1].
      destruct (Nat.ltb_spec (length il) 5).
      * destruct Hb as [-> Hb]. cbn [c_true Z.eqb negb].
        replace (Z.of_nat (length il) + 1) with (Z.of_nat (length (il ++ [(name, b)]))) by (rewrite length_app; simpl; lia).
        specialize (IH (b + 1) 0 i1 t1 _ _ Hw Hb (fun _ => eq_refl)). by rewrite <- app_assoc in IH.
      * subst rc. cbn. rewrite bars_result_full; [split; [done|discriminate]|rewrite !length_app; simpl; lia].
Qed.

(** When the BARs can be mapped, [igbuio_setup_bars] gives the memory BARs,
    in the order of the device, the first memory slots and the port BARs the
    first port slots, leaving the rest free; it fails with [-ENOENT] exactly for
    a device without BARs and with [-EINVAL] exactly when there are more than
    five of one kind; the uninitialised variable is never returned. *)
Theorem igbuio_setup_bars_spec (uninit : Z) (t : list (kcall * Z)) :
  ioremap_works ->
  let ml := mem_bars (bars bar_names 0) in
  let il := io_bars (bars bar_names 0) in
  let '((rc, i), t') := igbuio_setup_bars wc_activate uninit zero_info t in
  rc = bars_result ml il /\
  (rc = 0 -> map mem_view (mem i) = map mem_slot ml ++ replicate (5 - length ml) (mem_view zero_mem) /\
             port i = map io_slot il ++ replicate (5 - length il) zero_port).
Proof.
  intros Hw. assert (slots_hold [] [] zero_info) as Hz by (split; [done|]; split; [done|]; simpl; lia).
  pose proof (setup_bars_spec bar_names 0 uninit zero_info t [] [] Hw Hz ltac:(simpl; lia)) as Hs.
  cbv zeta in Hs. unfold igbuio_setup_bars. cbn [length app] in Hs. change (Z.of_nat 0) with 0 in Hs.
  destruct (setup_bars wc_activate bar_names 0 0 0 uninit zero_info t) as [[rc i] t']. destruct Hs as [Hrc Hi].
  split; [done|]. intros E. by destruct (Hi E) as (? & ? & _).
Qed.

(** *** Masking *)

(** The bit that masks a descriptor's interrupt, and whether it has one. *)
Definition mask_bit (pdev_irq : Z) (m : rte_intr_mode) (d : msi_desc) : Z :=
  match m with MODE_MSI => u32 (desc_irq d - pdev_irq) | _ => 0 end.
Definition maskable (m : rte_intr_mode) (d : msi_desc) : bool :=
  match m with MODE_MSI => maskbit d | _ => true end.
Definition desc_ok (pdev_irq : Z) (m : rte_intr_mode) (d : msi_desc) : Prop :=
  is_u32 (masked d) /\ mask_bit pdev_irq m d < 32.

(** [d'] is [d] with its interrupt masked when [state] is 0 and unmasked otherwise. *)
Definition switched (pdev_irq state : Z) (m : rte_intr_mode) (d d' : msi_desc) : Prop :=
  d' = set_masked (masked d') d /\
  forall k, 0 <= k < 32 -> Z.testbit (masked d') k =
    if maskable m d && (k =? mask_bit pdev_irq m d) then state =? 0 else Z.testbit (masked d) k.

(** The device accesses that switch [d] to [d']. *)
Definition mask_writes (m : rte_intr_mode) (d d' : msi_desc) : list kcall :=
  if masked d' =? masked d then []
  else match m with
       | MODE_MSI => [WriteConfigDword (mask_pos d) (masked d')]
       | _ => [Writel (masked d') (mask_base d + u32 (entry_nr d * 16 + 12)); Readl (mask_base d)]
       end.

Lemma switch_bits x b state k :
  0 <= b < 32 -> 0 <= k < 32 ->
  Z.testbit (if c_true state then clear_bits x (u32 (Z.shiftl 1 b)) else set_bits x (u32 (Z.shiftl 1 b))) k =
  if k =? b then state =? 0 else Z.testbit x k.
Proof.
  intros Hb Hk. assert (Z.testbit (u32 (Z.shiftl 1 b)) k = (k =? b)) as Em.
  { rewrite u32_testbit, Z.shiftl_1_l, Z.pow2_bits_eqb, Z.eqb_sym by lia. done. }
  unfold c_true, clear_bits, set_bits. destruct (state =? 0); cbn [negb].
  - rewrite u32_testbit, Z.lor_spec, Em by lia. destruct (k =? b); [by rewrite orb_true_r|by rewrite orb_false_r].
  - rewrite u32_testbit, Z.land_spec, Z.lnot_spec, Em by lia.
    destruct (k =? b); [by rewrite andb_false_r|by rewrite andb_true_r].
Qed.

(** The calls of a trace. *)
Definition calls (t : list (kcall * Z)) : list kcall := map fst t.

Definition mask_one (pdev_irq state : Z) (m : rte_intr_mode) (d : msi_desc) : M kcall Z msi_desc :=
  match m with MODE_MSI => igbuio_msi_mask_irq pdev_irq d state | _ => igbuio_msix_mask_irq d state end.

Lemma mask_one_ok pdev_irq state m d t :
  desc_ok pdev_irq m d ->
  let '(d', t') := mask_one pdev_irq state m d t in
  switched pdev_irq state m d d' /\ calls t' = rev (mask_writes m d d') ++ calls t.
Proof.
  intros [Hd Hb]. assert (0 <= mask_bit pdev_irq m d < 32) as Hb'.
  { split; [|done]. destruct m; simpl; try done. apply u32_range. }
  pose proof (fun k => switch_bits (masked d) (mask_bit pdev_irq m d) state k Hb') as Hs. unfold mask_one.
  assert (forall x, switched pdev_irq state m d (set_masked x d) <->
    forall k, 0 <= k < 32 -> Z.testbit x k =
      if maskable m d && (k =? mask_bit pdev_irq m d) then state =? 0 else Z.testbit (masked d) k) as Hsw.
  { intros x. unfold switched. split; [by intros [_ ?]|]. done. }
  assert (forall x, maskable m d = true ->
    (forall k, 0 <= k < 32 -> Z.testbit x k = if k =? mask_bit pdev_irq m d then state =? 0 else Z.testbit (masked d) k) ->
    switched pdev_irq state m d (set_masked x d)) as Hyes by (intros x Hy; by rewrite Hsw, Hy).
  assert (forall x, (x =? masked d) = true -> set_masked x d = d) as Hsame
    by (intros x ->%Z.eqb_eq; by destruct d).
  assert (forall x, mask_writes m d (set_masked x d) = if x =? masked d then [] else mask_writes m d (set_masked x d)) as Hw.
  { intros x. unfold mask_writes. cbn [set_masked masked]. by destruct (x =? masked d). }
  destruct m; unfold igbuio_msi_mask_irq, igbuio_msix_mask_irq, bind, do, ret; cbn [mask_bit maskable] in *.
  3: destruct (maskbit d) eqn:Emb; cbn [negb];
     [|split; [split; [by destruct d|]; intros k _; cbn [maskable]; by rewrite Emb
              |unfold mask_writes; by rewrite Z.eqb_refl]].
  all: try change (u32 (Z.shiftl 1 0)) with PCI_MSIX_ENTRY_CTRL_MASKBIT in Hs;
    specialize (Hyes _ ltac:(done) Hs);
    match type of Hyes with context [set_masked ?y _] => revert Hyes; generalize y end; intros x Hyes; specialize (Hsame x); specialize (Hw x); destruct (x =? masked d) eqn:Ex; cbn [negb];
    [rewrite Hsame in Hyes, Hw by done; split; [done|by rewrite Hw]|split; [done|];
     unfold mask_writes; cbn [set_masked masked]; by rewrite Ex].
Qed.

Lemma for_each_desc_ok pdev_irq state m ds : forall t,
  Forall (desc_ok pdev_irq m) ds ->
  let '(ds', t') := for_each_desc (mask_one pdev_irq state m) ds t in
  Forall2 (switched pdev_irq state m) ds ds' /\
  calls t' = rev (concat (zip_with (mask_writes m) ds ds')) ++ calls t.
Proof.
  induction ds as [|d ds IH]; intros t Hok; simpl; [by split|]. inversion_clear Hok as [|? ? Hd Hds].
  unfold bind. pose proof (mask_one_ok pdev_irq state m d t Hd) as Ho.
  destruct (mask_one pdev_irq state m d t) as [d' t1]. destruct Ho as [Hs Hc].
  specialize (IH t1 Hds). destruct (for_each_desc (mask_one pdev_irq state m) ds t1) as [ds' t2].
  destruct IH as [IH1 IH2]. simpl. split; [by constructor|]. rewrite IH2, Hc, rev_app_distr, app_assoc. done.
Qed.

(** On kernels without the generic mask functions, enabling (state 1) or
    disabling (state 0) the interrupt of a device in MSI or MSI-X mode sets the
    mask bit of every maskable descriptor accordingly and no other bit; the
    device is accessed for exactly the descriptors that change, with the value
    recorded in the descriptor, and under the configuration-access lock. *)
Theorem igbuio_irqcontrol_masks (u : rte_uio_pci_dev) (pdev_irq state : Z) (ds : list msi_desc) (t : list (kcall * Z)) :
  HAVE_PCI_MSI_MASK_IRQ = false -> mode u = MODE_MSIX \/ mode u = MODE_MSI ->
  Forall (desc_ok pdev_irq (mode u)) ds ->
  let '((rc, ds'), t') := igbuio_pci_irqcontrol u pdev_irq state ds t in
  rc = 0 /\ Forall2 (switched pdev_irq state (mode u)) ds ds' /\
  calls t' = CfgAccessUnlock :: rev (concat (zip_with (mask_writes (mode u)) ds ds')) ++ CfgAccessLock :: calls t.
Proof.
  intros Hk Hm Hok. unfold igbuio_pci_irqcontrol. rewrite Hk. unfold bind at 1, do at 1.
  assert (igbuio_mask_irq pdev_irq (mode u) state ds = for_each_desc (mask_one pdev_irq state (mode u)) ds) as Ef.
  { unfold igbuio_mask_irq, mask_one. by destruct Hm as [-> | ->]. }
  pose proof (for_each_desc_ok pdev_irq state (mode u) ds ((CfgAccessLock, answer t CfgAccessLock) :: t) Hok) as Hd.
  rewrite <- Ef in Hd. unfold bind at 1.
  destruct Hm as [Hm|Hm]; rewrite Hm in *;
    destruct (igbuio_mask_irq _ _ _ _ _) as [ds' t']; destruct Hd as [Hs Hc];
    (split; [done|]); (split; [done|]); simpl; unfold calls in *; by rewrite Hc.
Qed.
End proofs.

(** ** compat.h on a PCI function

    The command register of a PCI function: a write changes the writable bits
    only, the status half changes by itself. *)
Section compat_proofs.
Context (status : Z) (writable init : Z).

Fixpoint command (t : list (ccall * Z)) : Z :=
  match t with
  | [] => init
  | (WriteWord v, _) :: t => Z.lor (Z.land (command t) (Z.lnot writable)) (Z.land v writable)
  | _ :: t => command t
  end.

#[local] Instance pci_function : Env ccall Z := fun t c =>
  match c with
  | ReadWord => command t
  | ReadDword => Z.lor (Z.shiftl status 16) (command t)
  | _ => 0
  end.


Lemma bit10 x k : 0 <= k -> Z.testbit (Z.lxor x PCI_COMMAND_INTX_DISABLE) k = xorb (Z.testbit x k) (k =? 10).
Proof.
  intros Hk. rewrite Z.lxor_spec. f_equal. change PCI_COMMAND_INTX_DISABLE with (2 ^ 10).
  rewrite Z.pow2_bits_eqb, Z.eqb_sym by lia. done.
Qed.

Lemma testbit_1024 k : 0 <= k -> Z.testbit 1024 k = (k =? 10).
Proof. intros Hk. change 1024 with (2 ^ 10). rewrite Z.pow2_bits_eqb, Z.eqb_sym by lia. done. Qed.

(** What a write of [v] leaves in a register with value [x]. *)
Definition written (x v : Z) : Z := Z.lor (Z.land x (Z.lnot writable)) (Z.land v writable).

Lemma written_bits x v k : 0 <= k ->
  Z.testbit (written x v) k = if Z.testbit writable k then Z.testbit v k else Z.testbit x k.
Proof.
  intros Hk. unfold written. rewrite Z.lor_spec, !Z.land_spec, Z.lnot_spec by lia.
  by destruct (Z.testbit x k), (Z.testbit v k), (Z.testbit writable k).
Qed.

(** Flipping the bit changes the register exactly when the bit can be written. *)
Lemma written_flip x :
  Z.lxor (written x (Z.lxor x PCI_COMMAND_INTX_DISABLE)) x = if Z.testbit writable 10 then 1024 else 0.
Proof.
  apply Z.bits_inj'. intros k Hk. rewrite Z.lxor_spec, written_bits, bit10 by lia.
  destruct (Z.eqb_spec k 10) as [->|Hne].
  - by destruct (Z.testbit writable 10), (Z.testbit x 10).
  - assert (Z.testbit (if Z.testbit writable 10 then 1024 else 0) k = false) as ->.
    { destruct (Z.testbit writable 10); [|apply Z.bits_0]. rewrite testbit_1024 by lia. by apply Z.eqb_neq. }
    destruct (Z.testbit writable k); [rewrite xorb_false_r|]; apply xorb_nilpotent.
Qed.

Lemma written_back x v : written (written x v) x = x.
Proof.
  apply Z.bits_inj'. intros k Hk. rewrite !written_bits by lia. by destruct (Z.testbit writable k).
Qed.

(** The probe for INTx masking answers whether the device implements the
    INTX_DISABLE bit, and leaves the command register as it was. *)
Theorem pci_intx_mask_supported_correct (t : list (ccall * Z)) :
  let '(supported, t') := pci_intx_mask_supported t in
  supported = Z.testbit writable 10 /\ command t' = command t.
Proof.
  unfold pci_intx_mask_supported, bind, do, call, answer, pci_function. cbn [command].
  fold (written (command t) (Z.lxor (command t) PCI_COMMAND_INTX_DISABLE)).
  rewrite written_flip. destruct (Z.testbit writable 10) eqn:Ew.
  - change (c_true (Z.land 1024 (Z.lnot PCI_COMMAND_INTX_DISABLE))) with false.
    change (c_true (Z.land 1024 PCI_COMMAND_INTX_DISABLE)) with true. cbn. split; [done|].
    apply written_back.
  - change (c_true (Z.land 0 (Z.lnot PCI_COMMAND_INTX_DISABLE))) with false.
    change (c_true (Z.land 0 PCI_COMMAND_INTX_DISABLE)) with false. cbn. split; [done|].
    apply Z.lxor_eq. pose proof (written_flip (command t)) as Hf. rewrite Ew in Hf. exact Hf.
Qed.

(** On kernels before 3.3 the interrupt handler of a legacy interrupt reports
    whether the interrupt is the device's own, but never masks it: the status
    word of a pending interrupt is not 0, so the branch that would set
    INTX_DISABLE is not reached, and a set bit is cleared instead. *)
Theorem pci_check_and_mask_intx_unmasks (t : list (ccall * Z)) :
  is_u16 status -> is_u16 (command t) -> Z.testbit writable 10 = true ->
  let '(pending, t') := pci_check_and_mask_intx t in
  pending = Z.testbit status 3 /\
  Z.testbit (command t') 10 = negb pending && Z.testbit (command t) 10.
Proof.
  intros Hs Hc Hw. unfold pci_check_and_mask_intx, bind, do, call, ret, answer, pci_function. cbn [command].
  set (dw := Z.lor (Z.shiftl status 16) (command t)).
  assert (forall k, 0 <= k < 16 -> Z.testbit dw k = Z.testbit (command t) k) as Hlow.
  { intros k Hk. unfold dw. rewrite Z.lor_spec, Z.shiftl_spec_low by lia. done. }
  assert (Z.shiftr dw 16 = status) as Hhi.
  { unfold dw. rewrite Z.shiftr_lor, Z.shiftr_shiftl_l by lia. change (16 - 16) with 0. rewrite Z.shiftl_0_r.
    replace (Z.shiftr (command t) 16) with 0; [by rewrite Z.lor_0_r|].
    rewrite Z.shiftr_div_pow2 by lia. symmetry. by apply Z.div_small. }
  rewrite Hhi. assert (c_true (Z.land status PCI_STATUS_INTERRUPT) = Z.testbit status 3) as ->.
  { change PCI_STATUS_INTERRUPT with (2 ^ 3). by apply c_true_land_pow2. }
  destruct (Z.testbit status 3) eqn:E3; [|by split].
  assert (c_true dw = true) as ->.
  { unfold c_true. destruct (Z.eqb_spec dw 0) as [E|E]; [|done]. rewrite E, Z.shiftr_0_l in Hhi.
    rewrite <- Hhi in E3. by rewrite Z.bits_0 in E3. }
  assert (Z.testbit (u16 (Z.land (u16 dw) (Z.lnot PCI_COMMAND_INTX_DISABLE))) 10 = false) as Hn.
  { rewrite u16_testbit, Z.land_spec, Z.lnot_spec by lia. by rewrite testbit_1024, andb_false_r by lia. }
  assert (Z.testbit (u16 dw) 10 = Z.testbit (command t) 10) as Ho by (rewrite u16_testbit, Hlow by lia; done).
  destruct (Z.eqb_spec (u16 dw) (u16 (Z.land (u16 dw) (Z.lnot PCI_COMMAND_INTX_DISABLE)))) as [E|E]; cbn [negb].
  - split; [done|]. cbn [command andb]. rewrite <- Ho, E. exact Hn.
  - split; [done|]. cbn [command andb]. etrans; [apply (written_bits (command t)); lia|]. rewrite Hw. exact Hn.
Qed.
End compat_proofs.

(** ** Witnesses *)
Section witnesses.

(** A device with one memory BAR and one port BAR on a recent kernel that grants
    every request except the interrupt, and a kernel without [pci_alloc_irq_vectors]. *)
#[local] Instance new_kernel : KernelConfig :=
  {| HAVE_PCI_IS_BRIDGE_API := true; HAVE_PCI_MSI_MASK_IRQ := true; HAVE_ALLOC_IRQ_VECTORS := true;
     LOCK_DOWN_KERNEL := false |}.
#[local] Instance nic : PciDev :=
  {| pci_resource_start := fun b => if b <? 2 then 65536 * (b + 1) else 0;
     pci_resource_len := fun b => if b <? 2 then 4096 else 0;
     pci_resource_flags := fun b => if b =? 0 then IORESOURCE_MEM else IORESOURCE_IO |}.

Definition granting (irq_answer : Z) : Env kcall Z := fun _ c =>
  match c with
  | AllocIrqVectors _ => 1
  | IrqVector => 33
  | Ioremap _ _ => 4096
  | RequestIrq _ _ => irq_answer
  | Kzalloc => 8192
  | _ => 0
  end.

Definition fresh : rte_uio_pci_dev := mk_udev 8192 zero_info MODE_NONE 0.

Lemma igbuio_sessions_witness :
  let '((holders, u), t) := sessions (H1 := granting 0) MODE_MSIX [UOpen; UOpen; URelease] 0 fresh [] in
  refcnt u = 1 /\ held (RIrq 33) t = 1.
Proof.
  pose proof (igbuio_sessions (H1 := granting 0) MODE_MSIX [UOpen; UOpen; URelease] fresh [] eq_refl) as Hs.
  cbv in Hs. destruct Hs as (Hr & _ & Hn). split; [exact Hr|]. exact (Hn 33).
Defined.

Lemma igbuio_failed_open_leaks_witness :
  let '((err, u), t) := igbuio_pci_open (H1 := granting (-16)) MODE_MSIX fresh [] in
  err = -16 /\ held RVectors (igbuio_pci_remove (H1 := granting (-16)) u t).2 = 1.
Proof.
  pose proof (igbuio_failed_open_leaks (H1 := granting (-16)) MODE_MSIX fresh [] eq_refl) as Hs.
  cbv in Hs |- *. split; [reflexivity|]. apply Hs. discriminate.
Defined.

(** A kernel without [pci_msi_mask_irq], and a device with two MSI-X vectors,
    the second of them masked already. *)
Definition old_kernel : KernelConfig :=
  {| HAVE_PCI_IS_BRIDGE_API := false; HAVE_PCI_MSI_MASK_IRQ := false; HAVE_ALLOC_IRQ_VECTORS := false;
     LOCK_DOWN_KERNEL := false |}.
Definition two_vectors : list msi_desc :=
  [ {| masked := 0; entry_nr := 0; mask_base := 4096; desc_irq := 40; maskbit := true; mask_pos := 0 |};
    {| masked := 1; entry_nr := 1; mask_base := 4096; desc_irq := 41; maskbit := true; mask_pos := 0 |} ].

Lemma igbuio_setup_bars_spec_witness :
  let '((rc, i), t') := igbuio_setup_bars (H1 := granting 0) 0 7 zero_info [] in
  rc = 0 /\ map mem_addr (mem i) = [65536; 0; 0; 0; 0].
Proof.
  assert (ioremap_works (H1 := granting 0) 0) as Hw by (right; discriminate).
  pose proof (igbuio_setup_bars_spec (H1 := granting 0) 0 7 [] Hw) as Hs. cbv in Hs |- *.
  destruct Hs as [Hrc Hi]. split; [exact Hrc|]. destruct (Hi Hrc) as [Hm _]. congruence.
Defined.

Lemma igbuio_irqcontrol_masks_witness :
  let '((rc, ds), t) := igbuio_pci_irqcontrol (H := old_kernel) (H1 := granting 0)
    (mk_udev 8192 zero_info MODE_MSIX 1) 40 0 two_vectors [] in
  rc = 0 /\ map masked ds = [1; 1] /\ calls t = [CfgAccessUnlock; Readl 4096; Writel 1 4108; CfgAccessLock].
Proof.
  assert (Forall (desc_ok 40 MODE_MSIX) two_vectors) as Hok by (repeat constructor; done).
  pose proof (igbuio_irqcontrol_masks (H := old_kernel) (H1 := granting 0)
    (mk_udev 8192 zero_info MODE_MSIX 1) 40 0 two_vectors [] eq_refl (or_introl eq_refl) Hok) as Hs.
  cbv -[switched] in Hs |- *. destruct Hs as (Hrc & _ & Hc). split; [exact Hrc|]. split; [reflexivity|exact Hc].
Defined.

(** A pending interrupt (bit 3 of the status) with INTX_DISABLE clear. *)
Lemma pci_check_and_mask_intx_unmasks_witness :
  let '(pending, t) := pci_check_and_mask_intx (H := pci_function 8 1024 6) [] in
  pending = true /\ Z.testbit (command 1024 6 t) 10 = false.
Proof.
  assert (is_u16 8) as Hs by (split; reflexivity || discriminate).
  assert (is_u16 (command 1024 6 [])) as Hc by (split; reflexivity || discriminate).
  pose proof (pci_check_and_mask_intx_unmasks 8 1024 6 [] Hs Hc eq_refl) as Hp. cbv in Hp |- *. exact Hp.
Defined.
End witnesses.
