(* ===== verification/Virt2phys.v ===== *)
(** * The virt2phys driver (src/deps/dpdk-kmods/windows/virt2phys)

    The Windows driver that gives a process the physical addresses of its own
    memory and keeps that memory locked until the process ends.  Calls of the
    driver run concurrently; what they share is the list of processes, which
    they read and change under a spin lock.  A translation is split at the lock
    into the three parts that other calls can come between. *)
From S2P Require Import Prelude Effects.

Definition STATUS_SUCCESS : Z := 0.
Definition STATUS_UNSUCCESSFUL : Z := -1073741823.
Definition STATUS_INSUFFICIENT_RESOURCES : Z := -1073741670.
Definition STATUS_QUOTA_EXCEEDED : Z := -1073741756.
Definition STATUS_NOT_SUPPORTED : Z := -1073741637.
Definition STATUS_OBJECT_NAME_NOT_FOUND : Z := -1073741772.
Definition NT_SUCCESS (status : Z) : bool := 0 <=? status.

Definition PAGE_SIZE : Z := 4096.
Definition MEM_COMMIT : Z := 4096.
Definition MEM_PRIVATE : Z := 131072.

(** ** The kernel *)

(** A memory descriptor list, with what the accessors [MmGetMdl...] answer. *)
Record MDL := {
  mdl_ptr : ptr;
  StartVa : Z;
  MmGetMdlVirtualAddress : Z;
  MmGetMdlByteCount : Z;
  MmGetMdlPfnArray : list Z
}.

Record MEMORY_BASIC_INFORMATION := { AllocationBase : Z; RegionSize : Z; State : Z; Type_ : Z }.

Inductive vcall :=
| ZwQueryVirtualMemory (virt : Z)
| IoAllocateMdl (virt len : Z)
| MmProbeAndLockPages (mdl : ptr)
| MmUnlockPages (mdl : ptr)
| IoFreeMdl (mdl : ptr)
| ExAllocatePoolZero (tag : string)
| ExFreePool (p : ptr)
| KeAcquireSpinLock
| KeReleaseSpinLock
| WdfDriverCreate
| WdfDriverOpenParametersRegistryKey
| WdfRegistryQueryULong (name : string)
| WdfRegistryClose
| PsSetCreateProcessNotifyRoutine (remove : bool)
| WdfDeviceCreate
| WdfDeviceCreateDeviceInterface
| WdfRequestRetrieveInputBuffer (min : Z)
| WdfRequestRetrieveOutputBuffer (min : Z)
| WdfRequestSetInformation (n : Z)
| WdfRequestComplete (status : Z).

(** An answer: a status or pointer ([val]); a value stored through a pointer
    ([out]); what a query fills in; the MDL that is allocated; the page frames
    found when its pages are locked. A probe that raises an exception answers a
    [val] other than 0. *)
Record kans := { val : Z; out : Z; minfo : MEMORY_BASIC_INFORMATION; new_mdl : MDL; pfns : list Z }.

(** ** Data *)
Record virt2phys_params := { process_count_limit : Z; process_memory_limit : Z }.
Record virt2phys_block := mk_block { block_ptr : ptr; mdl : MDL }.
Record virt2phys_process := mk_process { process_ptr : ptr; id : Z; blocks : list virt2phys_block; memory : Z }.

(** The static variables; [g_processes] starts at [Flink] of the list head. *)
Record globals := mk_globals {
  g_params : virt2phys_params;
  g_processes : list virt2phys_process;
  g_process_count : Z
}.

Definition set_processes (l : list virt2phys_process) (g : globals) : globals :=
  mk_globals (g_params g) l (g_process_count g).
Definition set_count (n : Z) (g : globals) : globals := mk_globals (g_params g) (g_processes g) n.
Definition lock_frames (l : list Z) (m : MDL) : MDL :=
  {| mdl_ptr := mdl_ptr m; StartVa := StartVa m; MmGetMdlVirtualAddress := MmGetMdlVirtualAddress m;
     MmGetMdlByteCount := MmGetMdlByteCount m; MmGetMdlPfnArray := l |}.

Open Scope eff_scope.

Section code.
Context `{Env vcall kans}.

(** ** Blocks and processes *)
Definition virt2phys_block_create (m : MDL) : M vcall kans (option virt2phys_block) :=
  a <- call (ExAllocatePoolZero "bp2v") ;;
  ret (if val a =? NULL then None else Some (mk_block (val a) m)).

Definition virt2phys_block_free (b : virt2phys_block) (unmap : bool) : M vcall kans () :=
  (if unmap then do (MmUnlockPages (mdl_ptr (mdl b))) else ret ()) ;;
  do (IoFreeMdl (mdl_ptr (mdl b))) ;;
  do (ExFreePool (block_ptr b)).

(** [pfn[0]] of an array that has no element would be read out of bounds; the
    default stands for that. *)
Definition virt2phys_block_translate (b : virt2phys_block) (virt : Z) : Z :=
  i64 (u64 (nth 0 (MmGetMdlPfnArray (mdl b)) 0 * PAGE_SIZE + (virt - MmGetMdlVirtualAddress (mdl b)))).

Definition virt2phys_process_create (process_id : Z) : M vcall kans (option virt2phys_process) :=
  a <- call (ExAllocatePoolZero "pp2v") ;;
  ret (if val a =? NULL then None else Some (mk_process (val a) process_id [] 0)).

Fixpoint free_blocks (bs : list virt2phys_block) (unmap : bool) : M vcall kans () :=
  match bs with
  | [] => ret ()
  | b :: bs => virt2phys_block_free b unmap ;; free_blocks bs unmap
  end.
Definition virt2phys_process_free (p : virt2phys_process) (unmap : bool) : M vcall kans () :=
  free_blocks (blocks p) unmap ;; do (ExFreePool (process_ptr p)).

Fixpoint virt2phys_process_find (process_id : Z) (l : list virt2phys_process) : option virt2phys_process :=
  match l with
  | [] => None
  | cur :: l => if id cur =? process_id then Some cur else virt2phys_process_find process_id l
  end.

Fixpoint find_block (bs : list virt2phys_block) (virt : Z) : option virt2phys_block :=
  match bs with
  | [] => None
  | cur :: bs => if StartVa (mdl cur) =? virt then Some cur else find_block bs virt
  end.
Definition virt2phys_process_find_block (p : virt2phys_process) (virt : Z) : option virt2phys_block :=
  find_block (blocks p) virt.

(** Returns the block and the process ([*process]). *)
Fixpoint virt2phys_find_block (process_id virt : Z) (l : list virt2phys_process)
  : option virt2phys_block * option virt2phys_process :=
  match l with
  | [] => (None, None)
  | cur :: l => if id cur =? process_id then (virt2phys_process_find_block cur virt, Some cur)
                else virt2phys_find_block process_id virt l
  end.

(** [RemoveEntryList] of the process [virt2phys_process_find] finds. *)
Fixpoint virt2phys_process_detach (process_id : Z) (l : list virt2phys_process)
  : option virt2phys_process * list virt2phys_process :=
  match l with
  | [] => (None, [])
  | cur :: l => if id cur =? process_id then (Some cur, l)
                else let '(p, l) := virt2phys_process_detach process_id l in (p, cur :: l)
  end.

Definition virt2phys_init (params : virt2phys_params) (g : globals) : M vcall kans (Z * globals) :=
  a <- call (ExAllocatePoolZero "gp2v") ;;
  if val a =? NULL then ret (STATUS_INSUFFICIENT_RESOURCES, g)
  else ret (STATUS_SUCCESS, mk_globals params [] (g_process_count g)).

(** The loop of [virt2phys_cleanup]: the lock is held on entry. *)
Fixpoint cleanup_processes (l : list virt2phys_process) : M vcall kans () :=
  match l with
  | [] => ret ()
  | p :: l =>
      do KeReleaseSpinLock ;;
      virt2phys_process_free p false ;;
      do KeAcquireSpinLock ;;
      cleanup_processes l
  end.
Definition virt2phys_cleanup (g : globals) : M vcall kans globals :=
  do KeAcquireSpinLock ;;
  cleanup_processes (g_processes g) ;;
  do KeReleaseSpinLock ;;
  ret (set_processes [] g).

(** [virt2phys_process_cleanup] is split at the end of its critical section. *)
Definition process_cleanup_detach (process_id : Z) (g : globals) : M vcall kans (option virt2phys_process * globals) :=
  do KeAcquireSpinLock ;;
  let '(p, l) := virt2phys_process_detach process_id (g_processes g) in
  do KeReleaseSpinLock ;;
  ret (p, set_processes l g).
Definition process_cleanup_free (p : virt2phys_process) (g : globals) : M vcall kans globals :=
  virt2phys_process_free p true ;;
  ret (set_count (i32 (g_process_count g - 1)) g).
Definition virt2phys_process_cleanup (process_id : Z) (g : globals) : M vcall kans globals :=
  '(p, g) <- process_cleanup_detach process_id g ;;
  match p with
  | Some p => process_cleanup_free p g
  | None => ret g
  end.

(** ** Limits *)
Definition virt2phys_exceeeds (count limit : Z) : bool := (0 <? limit) && (i64 limit <? count).

(** Applies [f] to the process with this id. *)
Fixpoint update_process (process_id : Z) (f : virt2phys_process -> virt2phys_process) (l : list virt2phys_process)
  : list virt2phys_process :=
  match l with
  | [] => []
  | cur :: l => if id cur =? process_id then f cur :: l else cur :: update_process process_id f l
  end.
Definition push_block (b : virt2phys_block) (size : Z) (p : virt2phys_process) : virt2phys_process :=
  mk_process (process_ptr p) (id p) (b :: blocks p) (u64 (memory p + size)).

(** Returns the status and [*process_exists]. *)
Definition virt2phys_add_block (process : virt2phys_process) (b : virt2phys_block) (g : globals)
  : (Z * bool) * globals :=
  let existing := virt2phys_process_find (id process) (g_processes g) in
  let process_exists := match existing with Some _ => true | None => false end in
  let add (process : virt2phys_process) (g : globals) :=
    let size := MmGetMdlByteCount (mdl b) in
    if virt2phys_exceeeds (i64 (u64 (memory process + size))) (process_memory_limit (g_params g)) then
      ((STATUS_QUOTA_EXCEEDED, process_exists), g)
    else
      ((STATUS_SUCCESS, process_exists),
       set_processes (update_process (id process) (push_block b size) (g_processes g)) g) in
  match existing with
  | None =>
      if virt2phys_exceeeds (i32 (g_process_count g + 1)) (process_count_limit (g_params g)) then
        ((STATUS_QUOTA_EXCEEDED, process_exists), g)
      else
        add process (set_count (i32 (g_process_count g + 1)) (set_processes (process :: g_processes g) g))
  | Some existing => add existing g
  end.

(** ** Memory *)
Definition virt2phys_query_memory (virt : Z) : M vcall kans (Z * Z * Z) :=
  a <- call (ZwQueryVirtualMemory virt) ;;
  ret (val a, AllocationBase (minfo a), RegionSize (minfo a)).

Definition ADDRESS_AND_SIZE_TO_SPAN_PAGES (va size : Z) : Z := (va mod PAGE_SIZE + size + (PAGE_SIZE - 1)) / PAGE_SIZE.

(** [pfn[i] == pfn[i - 1] + 1] for [i] from 1 to [n - 1]. *)
Fixpoint successive (n : nat) (pfn : list Z) : bool :=
  match n, pfn with
  | S n, p :: pfn =>
      match n, pfn with
      | S _, q :: _ => (q =? p + 1) && successive n pfn
      | _, _ => true
      end
  | _, _ => true
  end.
Definition virt2phys_is_contiguous (m : MDL) : bool :=
  successive (Z.to_nat (ADDRESS_AND_SIZE_TO_SPAN_PAGES (MmGetMdlVirtualAddress m) (MmGetMdlByteCount m)))
    (MmGetMdlPfnArray m).

Definition virt2phys_check_memory (m : MDL) : M vcall kans Z :=
  if negb (virt2phys_is_contiguous m) then ret STATUS_UNSUCCESSFUL
  else
    let virt := MmGetMdlVirtualAddress m in
    let size := MmGetMdlByteCount m in
    a <- call (ZwQueryVirtualMemory virt) ;;
    let info := minfo a in
    if negb (NT_SUCCESS (val a)) then ret (val a)
    else if negb (AllocationBase info =? virt) || negb (RegionSize info =? size) then ret STATUS_UNSUCCESSFUL
    else if negb (State info =? MEM_COMMIT) then ret STATUS_UNSUCCESSFUL
    else if negb (Type_ info =? MEM_PRIVATE) then ret STATUS_UNSUCCESSFUL
    else ret (val a).

(** Returns the status and [*mdl]. *)
Definition virt2phys_lock_memory (virt size : Z) : M vcall kans (Z * option MDL) :=
  a <- call (IoAllocateMdl virt (u32 size)) ;;
  let m := new_mdl a in
  if mdl_ptr m =? NULL then ret (STATUS_INSUFFICIENT_RESOURCES, None)
  else
    a <- call (MmProbeAndLockPages (mdl_ptr m)) ;;
    if c_true (val a) then do (IoFreeMdl (mdl_ptr m)) ;; ret (STATUS_UNSUCCESSFUL, None)
    else ret (STATUS_SUCCESS, Some (lock_frames (pfns a) m)).

Definition virt2phys_unlock_memory (m : MDL) : M vcall kans () :=
  do (MmUnlockPages (mdl_ptr m)) ;; do (IoFreeMdl (mdl_ptr m)).

(** ** Translation *)

(** Where a call of [virt2phys_translate] is. [TRefused]: it returned an error
    of [virt2phys_add_block], and nothing refers to its block, and to a process it
    created that is not in the list, any more (the model keeps them to account
    for them). *)
Inductive tstate :=
| TStart (virt : Z)
| TMissed (virt base size : Z) (process : option virt2phys_process)
| TReady (virt : Z) (b : virt2phys_block) (process : virt2phys_process) (created : bool)
| TRefused (status : Z) (b : virt2phys_block) (process : option virt2phys_process)
| TDone (status : Z) (phys : option Z).

(** Up to the end of the first critical section. *)
Definition translate_find (process_id virt : Z) (g : globals) : M vcall kans tstate :=
  '(status, base, size) <- virt2phys_query_memory virt ;;
  if negb (NT_SUCCESS status) then ret (TDone status None)
  else
    do KeAcquireSpinLock ;;
    let '(block, process) := virt2phys_find_block process_id base (g_processes g) in
    do KeReleaseSpinLock ;;
    match block with
    | Some block => ret (TDone STATUS_SUCCESS (Some (virt2phys_block_translate block virt)))
    | None => ret (TMissed virt base size process)
    end.

(** Between the critical sections. *)
Definition translate_lock (process_id virt base size : Z) (process : option virt2phys_process) : M vcall kans tstate :=
  '(status, m) <- virt2phys_lock_memory base size ;;
  match m with
  | None => ret (TDone status None)
  | Some m =>
      status <- virt2phys_check_memory m ;;
      if negb (NT_SUCCESS status) then virt2phys_unlock_memory m ;; ret (TDone status None)
      else
        block <- virt2phys_block_create m ;;
        match block with
        | None => virt2phys_unlock_memory m ;; ret (TDone STATUS_INSUFFICIENT_RESOURCES None)
        | Some block =>
            match process with
            | Some process => ret (TReady virt block process false)
            | None =>
                process <- virt2phys_process_create process_id ;;
                match process with
                | None => virt2phys_block_free block true ;; ret (TDone STATUS_INSUFFICIENT_RESOURCES None)
                | Some process => ret (TReady virt block process true)
                end
            end
        end
  end.

(** The second critical section and the rest. *)
Definition translate_add (virt : Z) (b : virt2phys_block) (process : virt2phys_process) (created : bool) (g : globals)
  : M vcall kans (tstate * globals) :=
  do KeAcquireSpinLock ;;
  let '((status, tracked), g) := virt2phys_add_block process b g in
  do KeReleaseSpinLock ;;
  (if tracked && created then virt2phys_process_free process false else ret ()) ;;
  if NT_SUCCESS status then ret (TDone status (Some (virt2phys_block_translate b virt)), g)
  else ret (TRefused status b (match virt2phys_process_find (id process) (g_processes g) with
                               | None => if created then Some process else None
                               | Some _ => None
                               end), g).

(** One part of a translation by a thread of [process_id]. *)
Definition translate_step (process_id : Z) (s : tstate) (g : globals) : M vcall kans (tstate * globals) :=
  match s with
  | TStart virt => s <- translate_find process_id virt g ;; ret (s, g)
  | TMissed virt base size process => s <- translate_lock process_id virt base size process ;; ret (s, g)
  | TReady virt b process created => translate_add virt b process created g
  | TRefused _ _ _ | TDone _ _ => ret (s, g)
  end.

(** The whole function; the result is the last state. *)
Definition virt2phys_translate (process_id virt : Z) (g : globals) : M vcall kans (tstate * globals) :=
  '(s, g) <- translate_step process_id (TStart virt) g ;;
  '(s, g) <- translate_step process_id s g ;;
  translate_step process_id s g.
Definition result_of (s : tstate) : Z * option Z :=
  match s with
  | TDone status phys => (status, phys)
  | TRefused status _ _ => (status, None)
  | _ => (STATUS_UNSUCCESSFUL, None)
  end.

(** ** The driver (virt2phys.c) *)
Definition PROCESS_COUNT_LIMIT_DEF : Z := Z.shiftl 1 4.
Definition PROCESS_MEMORY_LIMIT_DEF : Z := 16 * Z.shiftl 1 10.

(** [value]: what [*value] was before; the result is the status and [*value]. *)
Definition virt2phys_read_param (name : string) (value def : Z) : M vcall kans (Z * Z) :=
  a <- call (WdfRegistryQueryULong name) ;;
  if val a =? STATUS_OBJECT_NAME_NOT_FOUND then ret (STATUS_SUCCESS, def)
  else ret (val a, if NT_SUCCESS (val a) then u32 (out a) else value).

Definition virt2phys_read_mb (name : string) (bytes def_mb : Z) : M vcall kans (Z * Z) :=
  '(status, mb) <- virt2phys_read_param name 0 def_mb ;;
  ret (status, if NT_SUCCESS status then u64 (mb * Z.shiftl 1 20) else bytes).

Definition virt2phys_load_params (params : virt2phys_params) : M vcall kans (Z * virt2phys_params) :=
  a <- call WdfDriverOpenParametersRegistryKey ;;
  if negb (NT_SUCCESS (val a)) then ret (val a, params)
  else
    '(status, n) <- virt2phys_read_param "ProcessCountLimit" (process_count_limit params) PROCESS_COUNT_LIMIT_DEF ;;
    let params := {| process_count_limit := n; process_memory_limit := process_memory_limit params |} in
    if negb (NT_SUCCESS status) then do WdfRegistryClose ;; ret (status, params)
    else
      '(status, bytes) <- virt2phys_read_mb "ProcessMemoryLimitMB" (process_memory_limit params) PROCESS_MEMORY_LIMIT_DEF ;;
      let params := {| process_count_limit := process_count_limit params; process_memory_limit := bytes |} in
      do WdfRegistryClose ;; ret (status, params).

(** [params]: the uninitialised local variable. *)
Definition DriverEntry (params : virt2phys_params) (g : globals) : M vcall kans (Z * globals) :=
  a <- call WdfDriverCreate ;;
  if negb (NT_SUCCESS (val a)) then ret (val a, g)
  else
    '(status, params) <- virt2phys_load_params params ;;
    if negb (NT_SUCCESS status) then ret (status, g)
    else
      '(status, g) <- virt2phys_init params g ;;
      if negb (NT_SUCCESS status) then ret (status, g)
      else a <- call (PsSetCreateProcessNotifyRoutine false) ;; ret (val a, g).

Definition virt2phys_driver_unload (g : globals) : M vcall kans globals :=
  do (PsSetCreateProcessNotifyRoutine true) ;; virt2phys_cleanup g.

Definition virt2phys_driver_EvtDeviceAdd : M vcall kans Z :=
  a <- call WdfDeviceCreate ;;
  if negb (NT_SUCCESS (val a)) then ret (val a)
  else
    a <- call WdfDeviceCreateDeviceInterface ;;
    if negb (NT_SUCCESS (val a)) then ret (val a) else ret STATUS_SUCCESS.

(** [CTL_CODE(VIRT2PHYS_DEVTYPE, 0x800, METHOD_BUFFERED, FILE_ANY_ACCESS)]. *)
Definition IOCTL_VIRT2PHYS_TRANSLATE : Z := Z.lor (Z.shiftl 32768 16) (Z.shiftl 2048 2).

(** [device_control]: the request has the type [WdfRequestTypeDeviceControl];
    [virt]: the contents of the input buffer.  Returns the contents of the output
    buffer when the function stores it. *)
Definition virt2phys_device_EvtIoInCallerContext (process_id : Z) (device_control : bool) (code virt : Z) (g : globals)
  : M vcall kans (option Z * globals) :=
  if negb device_control then do (WdfRequestComplete STATUS_NOT_SUPPORTED) ;; ret (None, g)
  else if negb (code =? IOCTL_VIRT2PHYS_TRANSLATE) then do (WdfRequestComplete STATUS_NOT_SUPPORTED) ;; ret (None, g)
  else
    a <- call (WdfRequestRetrieveInputBuffer 8) ;;
    if negb (NT_SUCCESS (val a)) then do (WdfRequestComplete (val a)) ;; ret (None, g)
    else
      a <- call (WdfRequestRetrieveOutputBuffer 8) ;;
      if negb (NT_SUCCESS (val a)) then do (WdfRequestComplete (val a)) ;; ret (None, g)
      else
        '(s, g) <- virt2phys_translate process_id virt g ;;
        let '(status, phys) := result_of s in
        (if NT_SUCCESS status then do (WdfRequestSetInformation 8) else ret ()) ;;
        do (WdfRequestComplete status) ;;
        ret (phys, g).

Definition virt2phys_on_process_event (process_id : Z) (create : bool) (g : globals) : M vcall kans globals :=
  if create then ret g else virt2phys_process_cleanup process_id g.

(** ** Concurrent runs

    Calls of the driver by the threads of the system: a request starts, a request
    executes its next part, a process ends (Windows reports that after its last
    thread is gone) and the clean-up of an ended process completes. *)
Record config := mk_config {
  shared : globals;
  threads : list (Z * tstate);              (* process and state of each request *)
  exiting : list virt2phys_process          (* detached, not yet freed *)
}.

Inductive event :=
| Request (process_id virt : Z)
| Continue (thread : nat)
| ProcessEnd (process_id : Z)
| Finish (i : nat).

Definition finished (s : tstate) : bool :=
  match s with TRefused _ _ _ | TDone _ _ => true | _ => false end.

Definition step (e : event) (c : config) : M vcall kans config :=
  match e with
  | Request process_id virt => ret (mk_config (shared c) (threads c ++ [(process_id, TStart virt)]) (exiting c))
  | Continue i =>
      match threads c !! i with
      | Some (process_id, s) =>
          '(s, g) <- translate_step process_id s (shared c) ;;
          ret (mk_config g (<[i := (process_id, s)]> (threads c)) (exiting c))
      | None => ret c
      end
  | ProcessEnd process_id =>
      if forallb (fun th => negb (th.1 =? process_id) || finished th.2) (threads c) then
        '(p, g) <- process_cleanup_detach process_id (shared c) ;;
        ret (mk_config g (threads c) (match p with Some p => p :: exiting c | None => exiting c end))
      else ret c
  | Finish i =>
      match exiting c !! i with
      | None => ret c
      | Some p => g <- process_cleanup_free p (shared c) ;; ret (mk_config g (threads c) (delete i (exiting c)))
      end
  end.

Fixpoint run (es : list event) (c : config) : M vcall kans config :=
  match es with
  | [] => ret c
  | e :: es => c <- step e c ;; run es c
  end.
End code.

(** ** Resources *)
Inductive resource :=
| RPool (p : ptr)       (* ExAllocatePoolZero *)
| RMdl (p : ptr)        (* IoAllocateMdl *)
| RPages (p : ptr)      (* the pages of an MDL, locked *)
| RSpin                 (* g_lock, held *)
| RCompleted.           (* completed requests *)

Definition one (b : bool) : Z := if b then 1 else 0.

Definition effect (r : resource) (c : vcall) (a : kans) : Z :=
  match r, c with
  | RPool p, ExAllocatePoolZero _ => one (negb (val a =? NULL) && (val a =? p))
  | RPool p, ExFreePool q => - one (q =? p)
  | RMdl p, IoAllocateMdl _ _ => one (negb (mdl_ptr (new_mdl a) =? NULL) && (mdl_ptr (new_mdl a) =? p))
  | RMdl p, IoFreeMdl q => - one (q =? p)
  | RPages p, MmProbeAndLockPages q => one (negb (c_true (val a)) && (q =? p))
  | RPages p, MmUnlockPages q => - one (q =? p)
  | RSpin, KeAcquireSpinLock => 1
  | RSpin, KeReleaseSpinLock => -1
  | RCompleted, WdfRequestComplete _ => 1
  | _, _ => 0
  end.
#[local] Abbreviation held := (held_of effect).

(** What the objects of the driver stand for. *)
Definition own_mdl (r : resource) (m : MDL) : Z :=
  match r with RMdl p | RPages p => one (mdl_ptr m =? p) | _ => 0 end.
Definition own_pool (r : resource) (q : ptr) : Z := match r with RPool p => one (q =? p) | _ => 0 end.
Definition own_block (r : resource) (b : virt2phys_block) : Z := own_mdl r (mdl b) + own_pool r (block_ptr b).
Definition own_process (r : resource) (p : virt2phys_process) : Z :=
  zsum (map (own_block r) (blocks p)) + own_pool r (process_ptr p).
Definition own_thread (r : resource) (th : Z * tstate) : Z :=
  match th.2 with
  | TReady _ b p created => own_block r b + (if created then own_process r p else 0)
  | TRefused _ b p => own_block r b + match p with Some p => own_process r p | None => 0 end
  | _ => 0
  end.
Definition owned (r : resource) (c : config) : Z :=
  zsum (map (own_process r) (g_processes (shared c))) + zsum (map (own_thread r) (threads c)) +
  zsum (map (own_process r) (exiting c)).

Ltac prog := unfold bind, do, call, ret; cbv beta iota zeta.
Ltac account := unfold own_thread; rewrite ?held_cons; match goal with r : resource |- _ => destruct r end; simpl; try lia.

Section proofs.
Context `{Env vcall kans}.

(** *** The parts of a translation *)
Lemma block_free_held r b t : held r (virt2phys_block_free b true t).2 = held r t - own_block r b.
Proof. unfold virt2phys_block_free, own_block. prog. simpl. account. Qed.

Lemma free_blocks_held r bs : forall t,
  held r (free_blocks bs true t).2 = held r t - zsum (map (own_block r) bs).
Proof.
  induction bs as [|b bs IH]; intros t; simpl; [lia|]. unfold bind at 1.
  pose proof (block_free_held r b t) as Hb. destruct (virt2phys_block_free b true t) as [[] t1].
  simpl in Hb. rewrite IH. lia.
Qed.

Lemma process_free_held r p t : held r (virt2phys_process_free p true t).2 = held r t - own_process r p.
Proof.
  unfold virt2phys_process_free, own_process, bind. pose proof (free_blocks_held r (blocks p) t) as Hb.
  destruct (free_blocks (blocks p) true t) as [[] t1]. simpl in *. rewrite held_cons, Hb. destruct r; simpl; lia.
Qed.

(** A process without blocks. *)
Lemma process_free_empty r p unmap t :
  blocks p = [] -> held r (virt2phys_process_free p unmap t).2 = held r t - own_process r p.
Proof.
  intros E. unfold virt2phys_process_free, own_process. rewrite E. prog. simpl. account.
Qed.

Lemma unlock_memory_held r m t : held r (virt2phys_unlock_memory m t).2 = held r t - own_mdl r m.
Proof. unfold virt2phys_unlock_memory. prog. simpl. account. Qed.

Lemma check_memory_held r m t : held r (virt2phys_check_memory m t).2 = held r t.
Proof.
  unfold virt2phys_check_memory. destruct (negb _); [done|]. prog.
  match goal with |- context [answer t ?c] => set (a := answer t c) end.
  assert (held r ((ZwQueryVirtualMemory (MmGetMdlVirtualAddress m), a) :: t) = held r t) as E by account.
  repeat (case_match; [exact E|]). exact E.
Qed.

(** The calls that lock [len] bytes at [base] after the calls [t], and the MDL the
    kernel gives for them. *)
Definition lock_calls (t : list (vcall * kans)) (base len : Z) : list (vcall * kans) :=
  let a := answer t (IoAllocateMdl base len) in
  let t1 := (IoAllocateMdl base len, a) :: t in
  (MmProbeAndLockPages (mdl_ptr (new_mdl a)), answer t1 (MmProbeAndLockPages (mdl_ptr (new_mdl a)))) :: t1.
Definition mdl_for (t : list (vcall * kans)) (base len : Z) : MDL :=
  let a := answer t (IoAllocateMdl base len) in
  let m := new_mdl a in
  lock_frames (pfns (answer ((IoAllocateMdl base len, a) :: t) (MmProbeAndLockPages (mdl_ptr m)))) m.

(** What the kernel says of the memory of an MDL: one region, as large as the MDL,
    at the start of an allocation, committed and private. *)
Definition checked (m : MDL) (a : kans) : Prop :=
  NT_SUCCESS (val a) = true /\ AllocationBase (minfo a) = MmGetMdlVirtualAddress m /\
  RegionSize (minfo a) = MmGetMdlByteCount m /\ State (minfo a) = MEM_COMMIT /\ Type_ (minfo a) = MEM_PRIVATE.

(** In the history [T]: bytes at [base] were locked, [m] is what the kernel gave for
    them, and when it was asked about them next it said that they are what
    [checked] asks for. *)
Context (T : list (vcall * kans)).

Definition locked_at (m : MDL) (base : Z) : Prop :=
  exists t len, m = mdl_for t base len /\
    let calls := lock_calls t base len in
    let query := ZwQueryVirtualMemory (MmGetMdlVirtualAddress m) in
    checked m (answer calls query) /\ (query, answer calls query) :: calls `suffix_of` T.

(** The MDLs that a translation can have locked: for the allocation base of some
    address, checked and contiguous. *)
Definition locked_mdl (m : MDL) : Prop :=
  virt2phys_is_contiguous m = true /\
  exists t virt, locked_at m (AllocationBase (minfo (answer t (ZwQueryVirtualMemory virt)))).

Lemma lock_memory_held virt size t :
  let '((status, m), t') := virt2phys_lock_memory virt size t in
  match m with
  | None => NT_SUCCESS status = false /\ forall r, held r t' = held r t
  | Some m => (forall r, held r t' = held r t + own_mdl r m) /\
      m = mdl_for t virt (u32 size) /\ t' = lock_calls t virt (u32 size)
  end.
Proof.
  unfold virt2phys_lock_memory. prog. set (a := answer t (IoAllocateMdl virt (u32 size))).
  destruct (Z.eqb_spec (mdl_ptr (new_mdl a)) NULL) as [E|E].
  { split; [done|]. intros r. account. rewrite E. simpl. lia. }
  apply Z.eqb_neq in E. set (t1 := (IoAllocateMdl virt (u32 size), a) :: t).
  set (a2 := answer t1 (MmProbeAndLockPages (mdl_ptr (new_mdl a)))). destruct (c_true (val a2)) eqn:E2.
  - split; [done|]. intros r. unfold t1. account; rewrite ?E, ?E2; simpl; lia.
  - split; [|done]. intros r. unfold t1. account; rewrite ?E, ?E2; simpl; lia.
Qed.

Lemma block_create_held m t :
  let '(b, t') := virt2phys_block_create m t in
  match b with
  | None => forall r, held r t' = held r t
  | Some b => mdl b = m /\ forall r, held r t' + own_mdl r m = held r t + own_block r b
  end.
Proof.
  unfold virt2phys_block_create. prog. set (a := answer t _). destruct (Z.eqb_spec (val a) NULL) as [E|E].
  - intros r. account. rewrite E. simpl. lia.
  - apply Z.eqb_neq in E. split; [done|]. intros r. unfold own_block. account. rewrite E. simpl. lia.
Qed.

Lemma process_create_held pid t :
  let '(p, t') := virt2phys_process_create pid t in
  match p with
  | None => forall r, held r t' = held r t
  | Some p => id p = pid /\ blocks p = [] /\ memory p = 0 /\ forall r, held r t' = held r t + own_process r p
  end.
Proof.
  unfold virt2phys_process_create. prog. set (a := answer t _). destruct (Z.eqb_spec (val a) NULL) as [E|E].
  - intros r. account. rewrite E. simpl. lia.
  - apply Z.eqb_neq in E. split; [done|]. split; [done|]. split; [done|]. intros r. unfold own_process. account.
    rewrite E. simpl. lia.
Qed.

Lemma check_memory_checked m t :
  NT_SUCCESS (virt2phys_check_memory m t).1 = true ->
  let query := ZwQueryVirtualMemory (MmGetMdlVirtualAddress m) in
  virt2phys_is_contiguous m = true /\ checked m (answer t query) /\ (virt2phys_check_memory m t).2 = (query, answer t query) :: t.
Proof.
  unfold virt2phys_check_memory. destruct (virt2phys_is_contiguous m); [|done]. cbn [negb]. prog.
  set (a := answer t (ZwQueryVirtualMemory (MmGetMdlVirtualAddress m))). intros Hs. split; [done|].
  split; [|repeat case_match; done]. unfold checked.
  destruct (NT_SUCCESS (val a)) eqn:Ea; cbn [negb] in Hs; [|simpl in Hs; congruence].
  destruct (Z.eqb_spec (AllocationBase (minfo a)) (MmGetMdlVirtualAddress m)); [|done].
  destruct (Z.eqb_spec (RegionSize (minfo a)) (MmGetMdlByteCount m)); [|done].
  destruct (Z.eqb_spec (State (minfo a)) MEM_COMMIT); [|done].
  by destruct (Z.eqb_spec (Type_ (minfo a)) MEM_PRIVATE).
Qed.

(** *** The state

    [bytes]: what a process has locked. *)
Definition bytes (bs : list virt2phys_block) : Z := zsum (map (fun b => MmGetMdlByteCount (mdl b)) bs).

(** [MmGetMdlByteCount] is a [ULONG]. *)
Definition typed_answers : Prop := forall t c, is_u32 (MmGetMdlByteCount (new_mdl (answer t c))).

Definition ids (g : globals) : list Z := map id (g_processes g).

Definition process_ok (limit : Z) (p : virt2phys_process) : Prop :=
  Forall (fun b => locked_mdl (mdl b)) (blocks p) /\ memory p = u64 (bytes (blocks p)) /\
  (typed_answers -> 0 < limit < 2 ^ 62 -> 0 <= bytes (blocks p) <= limit).

(** The process a translation found is still there: a process is only removed
    when it has no running translation. *)
Definition thread_ok (g : globals) (th : Z * tstate) : Prop :=
  match th.2 with
  | TMissed _ base _ p =>
      (exists t virt, base = AllocationBase (minfo (answer t (ZwQueryVirtualMemory virt)))) /\
      match p with Some p => id p = th.1 /\ th.1 ∈ ids g | None => True end
  | TReady _ b p created =>
      locked_mdl (mdl b) /\ id p = th.1 /\
      (if created then blocks p = [] /\ memory p = 0 else th.1 ∈ ids g)
  | _ => True
  end.

Definition count_ok (limit n : Z) (count : Z) : Prop :=
  count = i32 n /\ (0 < limit < 2147483647 -> n <= limit).

Record inv (params : virt2phys_params) (c : config) : Prop := {
  inv_params : g_params (shared c) = params;
  inv_ids : NoDup (ids (shared c));
  inv_processes : Forall (process_ok (process_memory_limit params)) (g_processes (shared c));
  inv_threads : Forall (thread_ok (shared c)) (threads c);
  inv_count : count_ok (process_count_limit params)
    (Z.of_nat (length (g_processes (shared c))) + Z.of_nat (length (exiting c))) (g_process_count (shared c))
}.

(** A part of a request on the shared state: [n] processes are being freed. *)
Record good (params : virt2phys_params) (n : Z) (g : globals) : Prop := {
  good_params : g_params g = params;
  good_ids : NoDup (ids g);
  good_processes : Forall (process_ok (process_memory_limit params)) (g_processes g);
  good_count : count_ok (process_count_limit params) (Z.of_nat (length (g_processes g)) + n) (g_process_count g)
}.

Definition tracked (r : resource) (g : globals) : Z := zsum (map (own_process r) (g_processes g)).

Lemma find_id pid l p : virt2phys_process_find pid l = Some p -> p ∈ l /\ id p = pid.
Proof.
  induction l as [|q l IH]; simpl; [done|]. destruct (Z.eqb_spec (id q) pid) as [E|E].
  - intros [= ->]. split; [by left|done].
  - intros Hp. destruct (IH Hp). split; [by right|done].
Qed.

Lemma find_none pid l : virt2phys_process_find pid l = None <-> pid ∉ map id l.
Proof.
  induction l as [|q l IH]; simpl.
  - split; [intros _ ?%elem_of_nil|]; done.
  - rewrite not_elem_of_cons, <- IH. destruct (Z.eqb_spec (id q) pid) as [E|E]; [split; [done|by intros []]|].
    split; [done|by intros []].
Qed.

Lemma find_block_process pid base l b p :
  virt2phys_find_block pid base l = (b, p) ->
  p = virt2phys_process_find pid l /\ b = match p with Some p => find_block (blocks p) base | None => None end.
Proof.
  induction l as [|q l IH]; simpl; [by intros [= <- <-]|].
  destruct (id q =? pid); [by intros [= <- <-]|done].
Qed.

Lemma update_ids pid f l : (forall p, id (f p) = id p) -> map id (update_process pid f l) = map id l.
Proof. intros Hf. induction l as [|q l IH]; simpl; [done|]. destruct (id q =? pid); simpl; by rewrite ?Hf, ?IH. Qed.

Lemma update_length pid f l : length (update_process pid f l) = length l.
Proof. induction l as [|q l IH]; simpl; [done|]. destruct (id q =? pid); simpl; by rewrite ?IH. Qed.

(** Updates the process that a search finds. *)
Lemma update_forall (P : virt2phys_process -> Prop) pid f l p :
  virt2phys_process_find pid l = Some p -> Forall P l -> (P p -> P (f p)) -> Forall P (update_process pid f l).
Proof.
  intros Hp Hl Hf. induction Hl as [|q l Hq Hl IH]; simpl in *; [done|].
  destruct (id q =? pid); [injection Hp as ->; constructor; auto|constructor; auto].
Qed.

Lemma update_sum (f : virt2phys_process -> Z) pid u l p :
  virt2phys_process_find pid l = Some p ->
  zsum (map f (update_process pid u l)) = zsum (map f l) - f p + f (u p).
Proof.
  intros Hp. induction l as [|q l IH]; simpl in *; [done|].
  destruct (id q =? pid); simpl; [injection Hp as ->; lia|]. rewrite IH by done. lia.
Qed.

Lemma own_push r b size p : own_process r (push_block b size p) = own_process r p + own_block r b.
Proof. unfold own_process. simpl. lia. Qed.

Lemma exceeds_false n limit :
  virt2phys_exceeeds n limit = false -> 0 < limit < 9223372036854775808 -> n <= limit.
Proof.
  unfold virt2phys_exceeeds. intros Hn Hl. assert (i64 limit = limit) as E by word. rewrite E in Hn.
  destruct (Z.ltb_spec 0 limit); [|lia]. destruct (Z.ltb_spec limit n); [done|lia].
Qed.

Lemma push_ok limit p b :
  process_ok limit p -> locked_mdl (mdl b) ->
  virt2phys_exceeeds (i64 (u64 (memory p + MmGetMdlByteCount (mdl b)))) limit = false ->
  process_ok limit (push_block b (MmGetMdlByteCount (mdl b)) p).
Proof.
  intros (Hb & Hm & Hl) Hmdl Hx. split; [by constructor|]. simpl. unfold bytes in *. simpl. split.
  - rewrite Hm. unfold u64. rewrite Zplus_mod_idemp_l. f_equal. lia.
  - intros Ht Hlim. specialize (Hl Ht Hlim). change (2 ^ 62) with 4611686018427387904 in *.
    assert (is_u32 (MmGetMdlByteCount (mdl b))) as Hu by (destruct Hmdl as (_ & ? & ? & ? & ? & -> & _); apply Ht).
    apply exceeds_false in Hx; [|lia]. rewrite Hm in Hx. unfold is_u32 in Hu.
    rewrite (u64_small (zsum _)) in Hx by (unfold is_u64; lia).
    rewrite u64_small in Hx by (unfold is_u64; lia). unfold i64 in Hx. rewrite u64_small in Hx by (unfold is_u64; lia).
    destruct (Z.ltb_spec (zsum (map (fun b => MmGetMdlByteCount (mdl b)) (blocks p)) + MmGetMdlByteCount (mdl b)) 9223372036854775808); lia.
Qed.

(** [virt2phys_add_block]: what becomes of the block and of a process that is
    offered with it. *)
Definition offered (process : virt2phys_process) (g : globals) : Prop :=
  id process ∈ ids g \/ (blocks process = [] /\ memory process = 0).

Lemma push_good params n g b p :
  good params n g -> locked_mdl (mdl b) -> virt2phys_process_find (id p) (g_processes g) = Some p ->
  virt2phys_exceeeds (i64 (u64 (memory p + MmGetMdlByteCount (mdl b)))) (process_memory_limit params) = false ->
  let g' := set_processes (update_process (id p) (push_block b (MmGetMdlByteCount (mdl b))) (g_processes g)) g in
  good params n g' /\ ids g' = ids g /\
  (exists p', virt2phys_process_find (id p) (g_processes g') = Some p' /\ b ∈ blocks p') /\
  forall r, tracked r g' = tracked r g + own_block r b.
Proof.
  intros [G1 G2 G3 G4] Hb Hp Hx. cbv zeta.
  assert (ids (set_processes (update_process (id p) (push_block b (MmGetMdlByteCount (mdl b))) (g_processes g)) g) = ids g) as Ei
    by (by apply update_ids).
  split; [constructor|].
  - done.
  - by rewrite Ei.
  - simpl. eapply update_forall; [done|done|]. intros Hok. by apply push_ok.
  - simpl. by rewrite update_length.
  - split; [done|]. split.
    + exists (push_block b (MmGetMdlByteCount (mdl b)) p). split; [|by left]. simpl. clear -Hp.
      induction (g_processes g) as [|q l IH]; simpl in *; [done|]. destruct (id q =? id p) eqn:E; simpl; rewrite E; [congruence|].
      by apply IH.
    + intros r. unfold tracked. simpl. erewrite update_sum by done. rewrite own_push. lia.
Qed.

Lemma join_good params n g p :
  good params n g -> 0 <= n -> id p ∉ ids g -> blocks p = [] -> memory p = 0 ->
  virt2phys_exceeeds (i32 (g_process_count g + 1)) (process_count_limit params) = false ->
  good params n (set_count (i32 (g_process_count g + 1)) (set_processes (p :: g_processes g) g)).
Proof.
  intros [G1 G2 G3 [G4 G5]] Hn Hid Hb Hm Hx. constructor; simpl.
  - done.
  - unfold ids. simpl. by constructor.
  - constructor; [|done]. split; [by rewrite Hb|]. rewrite Hb, Hm. split; [done|]. unfold bytes. simpl. lia.
  - rewrite G4 in *. set (k := Z.of_nat (length (g_processes g)) + n) in *.
    replace (Z.of_nat (S (length (g_processes g))) + n) with (k + 1) by (unfold k; lia).
    assert (i32 (i32 k + 1) = i32 (k + 1)) as E by word.
    split; [done|]. intros Hl. rewrite E in Hx. apply exceeds_false in Hx; [|lia]. specialize (G5 Hl).
    assert (0 <= k) by (unfold k; lia). rewrite i32_small in Hx by (unfold is_i32; lia). lia.
Qed.

Lemma add_block_ok params n process b g :
  good params n g -> 0 <= n -> locked_mdl (mdl b) -> offered process g ->
  let '((status, was), g') := virt2phys_add_block process b g in
  good params n g' /\ (was = true <-> id process ∈ ids g) /\ (forall pid, pid ∈ ids g -> pid ∈ ids g') /\
  if NT_SUCCESS status then
    (exists p, virt2phys_process_find (id process) (g_processes g') = Some p /\ b ∈ blocks p) /\
    forall r, tracked r g' = tracked r g + own_block r b + (if was then 0 else own_process r process)
  else forall r, tracked r g' = tracked r g +
    (if was then 0 else match virt2phys_process_find (id process) (g_processes g') with Some _ => own_process r process | None => 0 end).
Proof.
  intros Hg Hn Hb Ho. unfold virt2phys_add_block. cbv zeta.
  destruct (virt2phys_process_find (id process) (g_processes g)) as [p|] eqn:Ef.
  - destruct (find_id _ _ _ Ef) as [Hin Hid].
    assert (id process ∈ ids g) as Hi by (rewrite <- Hid; by apply list_elem_of_fmap_2). rewrite (good_params _ _ _ Hg).
    destruct (virt2phys_exceeeds (i64 _) _) eqn:Ex; simpl NT_SUCCESS; cbv iota.
    + split; [done|]. split; [done|]. split; [done|]. intros r. lia.
    + rewrite <- Hid in Ef. destruct (push_good params n g b p Hg Hb Ef Ex) as (P1 & P2 & P3 & P4).
      split; [done|]. split; [done|]. split; [by intros; rewrite P2|]. split; [by rewrite <- Hid|].
      intros r. rewrite P4. lia.
  - apply find_none in Ef. assert (blocks process = [] /\ memory process = 0) as [Hpb Hpm] by (by destruct Ho).
    assert (false = true <-> id process ∈ ids g) as Hw by (split; [done|intros ?; by destruct Ef]).
    rewrite (good_params _ _ _ Hg). destruct (virt2phys_exceeeds (i32 _) _) eqn:Ec; cbv iota.
    { split; [done|]. split; [done|]. split; [done|]. intros r. apply find_none in Ef. simpl. rewrite Ef. lia. }
    pose proof (join_good params n g process Hg Hn Ef Hpb Hpm Ec) as Hj.
    set (g1 := set_count (i32 (g_process_count g + 1)) (set_processes (process :: g_processes g) g)) in *.
    assert (virt2phys_process_find (id process) (g_processes g1) = Some process) as Hf by (simpl; by rewrite Z.eqb_refl).
    assert (forall r, tracked r g1 = tracked r g + own_process r process) as Ht by (intros r; unfold tracked; simpl; lia).
    assert (forall pid, pid ∈ ids g -> pid ∈ ids g1) as Hids by (intros pid ?; by right).
    change (g_params g1) with (g_params g). rewrite (good_params _ _ _ Hg).
    destruct (virt2phys_exceeeds (i64 _) _) eqn:Ex; simpl NT_SUCCESS; cbv iota.
    + split; [done|]. split; [done|]. split; [done|]. intros r. rewrite Hf, Ht. done.
    + destruct (push_good params n g1 b process Hj Hb Hf Ex) as (P1 & P2 & P3 & P4).
      split; [done|]. split; [done|]. split; [intros; rewrite P2; auto|]. split; [done|].
      intros r. rewrite P4, Ht. lia.
Qed.

(** *** Every part keeps the state in order and accounts for what it takes *)
Definition step_spec (params : virt2phys_params) (n : Z) (pid : Z) (s : tstate) (g : globals)
    (t : list (vcall * kans)) (s' : tstate) (g' : globals) (t' : list (vcall * kans)) : Prop :=
  good params n g' /\ thread_ok g' (pid, s') /\ (forall i, i ∈ ids g -> i ∈ ids g') /\
  forall r, held r t' - tracked r g' - own_thread r (pid, s') = held r t - tracked r g - own_thread r (pid, s).

Lemma translate_find_ok params n pid virt g t :
  good params n g ->
  let '(s', t') := translate_find pid virt g t in step_spec params n pid (TStart virt) g t s' g t'.
Proof.
  intros Hg. unfold translate_find, virt2phys_query_memory. prog. set (a := answer t (ZwQueryVirtualMemory virt)).
  destruct (negb (NT_SUCCESS (val a))).
  { split; [done|]. split; [done|]. split; [done|]. intros r. account. }
  destruct (virt2phys_find_block pid (AllocationBase (minfo a)) (g_processes g)) as [b p] eqn:Ef.
  destruct (find_block_process _ _ _ _ _ Ef) as [Hp Hb]. destruct b as [b|].
  - split; [done|]. split; [done|]. split; [done|]. intros r. account.
  - split; [done|]. split; [|split; [done|intros r; account]]. split; [by exists t, virt|].
    destruct p as [p|]; [|done]. symmetry in Hp. apply find_id in Hp as [Hin <-].
    split; [done|]. by apply (list_elem_of_fmap_2 id).
Qed.

(** The calls of the parts only follow those before. *)
Ltac extend :=
  repeat (first [solve [auto] | apply extends_ret | apply extends_call | apply extends_do | apply extends_bind; [|intros ?]]
    || match goal with |- extends (match ?x with _ => _ end) => destruct x end).

Lemma block_free_extends b unmap : extends (virt2phys_block_free b unmap).
Proof. unfold virt2phys_block_free, virt2phys_unlock_memory. extend. Qed.
Lemma free_blocks_extends bs unmap : extends (free_blocks bs unmap).
Proof. pose proof block_free_extends. induction bs as [|b bs IH]; simpl; extend; auto. Qed.
Lemma process_free_extends p unmap : extends (virt2phys_process_free p unmap).
Proof. unfold virt2phys_process_free. pose proof (free_blocks_extends (blocks p) unmap). extend. Qed.
Lemma block_create_extends m : extends (virt2phys_block_create m).
Proof. unfold virt2phys_block_create. extend. Qed.
Lemma process_create_extends pid : extends (virt2phys_process_create pid).
Proof. unfold virt2phys_process_create. extend. Qed.

Lemma translate_step_extends pid s g : extends (translate_step pid s g).
Proof.
  pose proof block_free_extends. pose proof process_free_extends. pose proof block_create_extends. pose proof (process_create_extends pid).
  destruct s; simpl; unfold translate_find, virt2phys_query_memory, translate_lock, virt2phys_lock_memory, virt2phys_check_memory,
    virt2phys_unlock_memory, translate_add; extend; auto.
Qed.

Lemma step_extends e c : extends (step e c).
Proof.
  pose proof process_free_extends. pose proof translate_step_extends.
  destruct e; simpl; unfold process_cleanup_detach, process_cleanup_free; extend; auto.
Qed.

Lemma run_extends es : forall c, extends (run es c).
Proof. induction es as [|e es IH]; intros c; simpl; [extend|]. pose proof (step_extends e c). extend. Qed.

(** What came before is in the history. *)
Lemma extends_before {R} (m : M vcall kans R) (t t' : list (vcall * kans)) r : extends m -> m t = (r, t') -> t' `suffix_of` T -> t `suffix_of` T.
Proof.
  intros Hm E Hs. destruct (Hm t) as [t1 E1]. rewrite E in E1. simpl in E1. subst t'. etransitivity; [|exact Hs]. by exists t1.
Qed.

(** A block that is ready is locked, checked and contiguous. *)
Lemma translate_lock_checked pid virt base size p t :
  let '(s', t') := translate_lock pid virt base size p t in
  t' `suffix_of` T -> match s' with TReady _ b _ _ => virt2phys_is_contiguous (mdl b) = true /\ locked_at (mdl b) base | _ => True end.
Proof.
  unfold translate_lock. unfold bind at 1. pose proof (lock_memory_held base size t) as Hl.
  destruct (virt2phys_lock_memory base size t) as [[status m] t1]. destruct m as [m|]; [|done].
  destruct Hl as (_ & Hm & ->). unfold bind at 1. pose proof (check_memory_checked m (lock_calls t base (u32 size))) as Hc.
  destruct (virt2phys_check_memory m (lock_calls t base (u32 size))) as [st t2]. simpl in Hc.
  destruct (NT_SUCCESS st); cbn [negb]; [|unfold bind; by destruct (virt2phys_unlock_memory m t2)].
  destruct (Hc eq_refl) as (Hcg & Hck & Ht2). unfold bind at 1.
  pose proof (block_create_held m t2) as Hb. destruct (virt2phys_block_create m t2) as [b t3] eqn:E3.
  destruct b as [b|]; [|unfold bind; by destruct (virt2phys_unlock_memory m t3)]. destruct Hb as [Em _].
  assert (t3 `suffix_of` T -> virt2phys_is_contiguous (mdl b) = true /\ locked_at (mdl b) base) as Hdone.
  { intros Hs. rewrite Em. split; [done|]. exists t, (u32 size). split; [done|]. cbv zeta. split; [done|].
    rewrite <- Ht2. exact (extends_before _ _ _ _ (block_create_extends m) E3 Hs). }
  destruct p as [p|]; [exact Hdone|]. unfold bind at 1. destruct (virt2phys_process_create pid t3) as [q t4] eqn:E4.
  destruct q as [q|]; [|unfold bind; by destruct (virt2phys_block_free b true t4)].
  intros Hs. apply Hdone. exact (extends_before _ _ _ _ (process_create_extends pid) E4 Hs).
Qed.

Lemma translate_lock_held pid virt base size p g t :
  match p with Some p => id p = pid /\ pid ∈ ids g | None => True end ->
  let '(s', t') := translate_lock pid virt base size p t in
  match s' with
  | TReady _ _ q created => id q = pid /\ (if created then blocks q = [] /\ memory q = 0 else pid ∈ ids g)
  | TDone _ _ => True
  | _ => False
  end /\ forall r, held r t' - own_thread r (pid, s') = held r t.
Proof.
  intros Hp. unfold translate_lock. unfold bind at 1. pose proof (lock_memory_held base size t) as Hl.
  destruct (virt2phys_lock_memory base size t) as [[status m] t1]. destruct m as [m|].
  2: { destruct Hl as [_ Hl]. split; [done|]. intros r. rewrite Hl. unfold own_thread. simpl. lia. }
  destruct Hl as (Hl & Hm & _). unfold bind at 1. pose proof (fun r => check_memory_held r m t1) as Hc.
  destruct (virt2phys_check_memory m t1) as [st t2]. simpl in Hc. destruct (NT_SUCCESS st); cbn [negb].
  2: { pose proof (fun r => unlock_memory_held r m t2) as Hu. unfold bind, ret.
       destruct (virt2phys_unlock_memory m t2) as [[] t3]. simpl in Hu.
       split; [done|]. intros r. rewrite Hu, Hc, Hl. unfold own_thread. simpl. lia. }
  unfold bind at 1. pose proof (block_create_held m t2) as Hb. destruct (virt2phys_block_create m t2) as [b t3].
  destruct b as [b|].
  2: { pose proof (fun r => unlock_memory_held r m t3) as Hu. unfold bind, ret.
       destruct (virt2phys_unlock_memory m t3) as [[] t4]. simpl in Hu.
       split; [done|]. intros r. rewrite Hu, Hb, Hc, Hl. unfold own_thread. simpl. lia. }
  destruct Hb as [Em Hb]. destruct p as [p|].
  - split; [done|]. intros r. specialize (Hb r). rewrite Hc, Hl in Hb. unfold own_thread. simpl. lia.
  - unfold bind at 1. pose proof (process_create_held pid t3) as Hpc. destruct (virt2phys_process_create pid t3) as [p t4].
    destruct p as [p|].
    + destruct Hpc as (Hid & Hpb & Hpm & Hpc). split; [done|].
      intros r. specialize (Hb r). rewrite Hc, Hl in Hb. simpl. rewrite Hpc. unfold own_thread. simpl. lia.
    + pose proof (fun r => block_free_held r b t4) as Hu. unfold bind, ret.
      destruct (virt2phys_block_free b true t4) as [[] t5]. simpl in Hu.
      split; [done|]. intros r. specialize (Hb r). rewrite Hc, Hl in Hb.
      rewrite Hu, Hpc. unfold own_thread. simpl. lia.
Qed.

Lemma translate_lock_ok params n pid virt base size p g t :
  good params n g -> thread_ok g (pid, TMissed virt base size p) ->
  let '(s', t') := translate_lock pid virt base size p t in
  t' `suffix_of` T -> step_spec params n pid (TMissed virt base size p) g t s' g t'.
Proof.
  intros Hg [Hbase Hp]. pose proof (translate_lock_held pid virt base size p g t Hp) as Hh.
  pose proof (translate_lock_checked pid virt base size p t) as Hc. destruct (translate_lock pid virt base size p t) as [s' t'].
  intros Hs. destruct Hh as [Hsh Hh]. split; [done|]. split; [|split; [done|intros r; rewrite <- Hh; unfold own_thread at 3; simpl; lia]].
  destruct s' as [| |virt' b q created| |]; try done. destruct (Hc Hs) as [Hcg Hl]. split; [|done].
  split; [done|]. destruct Hbase as (t1 & v & ->). by exists t1, v.
Qed.

Lemma translate_add_ok params n pid virt b p created g t :
  good params n g -> 0 <= n -> thread_ok g (pid, TReady virt b p created) ->
  let '((s', g'), t') := translate_add virt b p created g t in
  step_spec params n pid (TReady virt b p created) g t s' g' t'.
Proof.
  intros Hg Hn (Hmdl & Hid & Hp). unfold translate_add.
  assert (offered p g) as Ho by (unfold offered; rewrite Hid; destruct created; [by right|by left]).
  pose proof (add_block_ok params n p b g Hg Hn Hmdl Ho) as Ha. unfold bind at 1, do at 1. cbv beta iota.
  destruct (virt2phys_add_block p b g) as [[status was] g']. destruct Ha as (Hg' & Hw & Hids & Hs).
  unfold bind at 1, do at 1. set (t1 := _ :: _ :: t).
  assert (forall r, held r t1 = held r t) as Ht1 by (intros r; unfold t1; account). clearbody t1.
  unfold bind at 1.
  assert (exists t2, (if was && created then virt2phys_process_free p false else ret ()) t1 = ((), t2) /\
    forall r, held r t2 = held r t - (if was && created then own_process r p else 0)) as (t2 & -> & Ht2).
  { destruct was, created; simpl.
    - pose proof (fun r => process_free_empty r p false t1 (proj1 Hp)) as Hf.
      destruct (virt2phys_process_free p false t1) as [[] t2]. exists t2. split; [done|]. intros r.
      rewrite <- Ht1. apply Hf.
    - exists t1. split; [done|]. intros r. rewrite Ht1. lia.
    - exists t1. split; [done|]. intros r. rewrite Ht1. lia.
    - exists t1. split; [done|]. intros r. rewrite Ht1. lia. }
  assert (created = false -> was = true) as Hcw.
  { intros ->. apply Hw. by rewrite Hid. }
  destruct (NT_SUCCESS status); cbv beta iota; unfold ret.
  - split; [done|]. split; [done|]. split; [done|]. intros r. destruct Hs as [_ Hs]. rewrite Ht2, Hs.
    unfold own_thread. simpl. destruct created; simpl; [destruct was; simpl; lia|]. rewrite Hcw by done. simpl. lia.
  - split; [done|]. split; [done|]. split; [done|]. intros r. rewrite Ht2, Hs. unfold own_thread. simpl.
    destruct was eqn:Ew.
    + assert (id p ∈ ids g') as Hi by (apply Hids; by apply Hw).
      destruct (virt2phys_process_find (id p) (g_processes g')) eqn:Ef; [|by apply find_none in Ef].
      destruct created; simpl; lia.
    + destruct created; [|by specialize (Hcw eq_refl)]. simpl.
      destruct (virt2phys_process_find (id p) (g_processes g')); lia.
Qed.

Lemma translate_step_ok params n pid s g t :
  good params n g -> 0 <= n -> thread_ok g (pid, s) ->
  let '((s', g'), t') := translate_step pid s g t in t' `suffix_of` T -> step_spec params n pid s g t s' g' t'.
Proof.
  intros Hg Hn Hs. destruct s as [virt|virt base size p|virt b p created| | ]; simpl.
  - unfold bind, ret. pose proof (translate_find_ok params n pid virt g t Hg) as Ho. by destruct (translate_find pid virt g t).
  - unfold bind, ret. pose proof (translate_lock_ok params n pid virt base size p g t Hg Hs) as Ho.
    by destruct (translate_lock pid virt base size p t).
  - pose proof (translate_add_ok params n pid virt b p created g t Hg Hn Hs) as Ho.
    by destruct (translate_add virt b p created g t) as [[s' g'] t'].
  - done.
  - done.
Qed.

(** *** Runs *)
Lemma inv_good params c :
  inv params c <-> good params (Z.of_nat (length (exiting c))) (shared c) /\ Forall (thread_ok (shared c)) (threads c).
Proof.
  split; [intros [I1 I2 I3 I4 I5]; split; [by constructor|done]|intros [[I1 I2 I3 I5] I4]; by constructor].
Qed.

Lemma thread_ok_mono g g' th : (forall i, i ∈ ids g -> i ∈ ids g') -> thread_ok g th -> thread_ok g' th.
Proof.
  intros Hi. unfold thread_ok. destruct th.2 as [|virt base size [p|]|virt b p created| |]; try done.
  - intros (? & ? & ?). auto.
  - intros (? & ? & Hc). split; [done|]. split; [done|]. destruct created; auto.
Qed.

Lemma detach_spec pid l :
  let '(p, l') := virt2phys_process_detach pid l in
  match p with
  | None => l' = l
  | Some p => id p = pid /\ l ≡ₚ p :: l'
  end.
Proof.
  induction l as [|q l IH]; simpl; [done|]. destruct (Z.eqb_spec (id q) pid) as [E|E]; [done|].
  destruct (virt2phys_process_detach pid l) as [[p|] l']; [|by rewrite IH].
  destruct IH as [Hp Hl]. split; [done|]. rewrite Hl. apply Permutation_swap.
Qed.

Lemma tracked_perm r l p l' :
  l ≡ₚ p :: l' -> zsum (map (own_process r) l) = own_process r p + zsum (map (own_process r) l').
Proof. intros Hl. rewrite (zsum_perm _ _ (Permutation_map (own_process r) Hl)). done. Qed.

Lemma process_end_ok params pid c t :
  inv params c ->
  let '(c', t') := step (ProcessEnd pid) c t in
  inv params c' /\ forall r, held r t' - owned r c' = held r t - owned r c.
Proof.
  intros Hi. simpl. destruct (forallb _ (threads c)) eqn:Eall; [|done]. apply Is_true_true, forallb_True in Eall.
  unfold process_cleanup_detach. prog. pose proof (detach_spec pid (g_processes (shared c))) as Hd.
  destruct (virt2phys_process_detach pid (g_processes (shared c))) as [[p|] l]; cycle 1.
  { subst l. unfold ret. split; [by destruct Hi|]. intros r. unfold owned. simpl. account. }
  destruct Hd as [Hp Hl]. destruct Hi as [I1 I2 I3 I4 [I5 I6]]. unfold ret.
  assert (ids (shared c) ≡ₚ id p :: map id l) as Hids by (unfold ids; by rewrite Hl).
  split; [constructor; simpl|].
  - done.
  - rewrite Hids in I2. by apply NoDup_cons in I2 as [_ ?].
  - rewrite Hl in I3. by inversion I3.
  - apply Forall_forall. intros [i s] Hin. rewrite Forall_forall in I4, Eall. specialize (I4 _ Hin). specialize (Eall _ Hin).
    simpl in Eall. destruct (Z.eqb_spec i pid) as [->|Hne]; [destruct s; done|].
    assert (i ∈ ids (shared c) -> i ∈ map id l) as Hstay by (rewrite Hids; intros [?|?]%elem_of_cons; [congruence|done]).
    unfold thread_ok in *. simpl in *. destruct s as [|virt base size [q|]|virt b q created| |]; try done.
    + destruct I4 as (? & ? & ?). split; [done|]. split; [done|]. by apply Hstay.
    + destruct I4 as (? & ? & Hc). split; [done|]. split; [done|]. destruct created; [done|]. by apply Hstay.
  - rewrite Hl in I5, I6. simpl in I5, I6. unfold count_ok.
    replace (Z.of_nat (length l) + Z.of_nat (S (length (exiting c))))
      with (Z.of_nat (S (length l)) + Z.of_nat (length (exiting c))) by lia. done.
  - intros r. unfold owned. simpl. rewrite (tracked_perm r _ _ _ Hl). account.
Qed.

Lemma step_ok params e c t :
  inv params c ->
  let '(c', t') := step e c t in t' `suffix_of` T -> inv params c' /\ forall r, held r t' - owned r c' = held r t - owned r c.
Proof.
  intros Hi. destruct e as [pid virt|i|pid|i].
  3: { pose proof (process_end_ok params pid c t Hi) as Ho. by destruct (step (ProcessEnd pid) c t). }
  all: simpl.
  - apply inv_good in Hi as [Hg Ht]. unfold ret. intros _. split.
    + apply inv_good. split; [done|]. apply Forall_app. split; [done|]. by constructor.
    + intros r. unfold owned. simpl. rewrite map_app, zsum_app. simpl. unfold own_thread at 2. simpl. lia.
  - destruct (threads c !! i) as [[pid s]|] eqn:Ei; [|done]. apply inv_good in Hi as [Hg Ht].
    pose proof (Forall_lookup_1 _ _ _ _ Ht Ei) as Hs. unfold bind, ret.
    pose proof (translate_step_ok params _ pid s (shared c) t Hg ltac:(lia) Hs) as Ho.
    destruct (translate_step pid s (shared c) t) as [[s' g'] t']. intros HT. destruct (Ho HT) as (G' & T' & Hids & Hh). split.
    + apply inv_good. split; [done|]. simpl. apply Forall_insert; [|done].
      eapply Forall_impl; [exact Ht|]. intros th. by apply thread_ok_mono.
    + intros r. specialize (Hh r). unfold owned, tracked in *. simpl. rewrite (zsum_map_insert _ _ _ _ _ Ei). lia.
  - destruct (exiting c !! i) as [p|] eqn:Ei; [|done]. unfold process_cleanup_free, bind, ret.
    pose proof (fun r => process_free_held r p t) as Hf. destruct (virt2phys_process_free p true t) as [[] t']. simpl in Hf.
    destruct Hi as [I1 I2 I3 I4 [I5 I6]]. pose proof (lookup_lt_Some _ _ _ Ei) as Hlt. intros _. split; [constructor; simpl; try done|].
    + rewrite length_delete by done. unfold count_ok. rewrite I5. split; [|intros Hl; specialize (I6 Hl); lia].
      replace (Z.of_nat (length (g_processes (shared c))) + Z.of_nat (length (exiting c) - 1))
        with (Z.of_nat (length (g_processes (shared c))) + Z.of_nat (length (exiting c)) - 1) by lia. word.
    + intros r. rewrite Hf. unfold owned. simpl. rewrite (zsum_map_delete _ _ _ _ Ei). lia.
Qed.

Lemma run_ok params es : forall c t,
  inv params c ->
  let '(c', t') := run es c t in t' `suffix_of` T -> inv params c' /\ forall r, held r t' - owned r c' = held r t - owned r c.
Proof.
  induction es as [|e es IH]; intros c t Hi; simpl; [done|]. unfold bind.
  pose proof (step_ok params e c t Hi) as Hs. destruct (step e c t) as [c1 t1]. specialize (IH c1 t1).
  destruct (run es c1 t1) as [c2 t2] eqn:E2. intros HT.
  destruct (Hs (extends_before _ _ _ _ (run_extends es c1) E2 HT)) as [Hi1 Hs1]. destruct (IH Hi1 HT) as [Hi2 Hr]. split; [done|].
  intros r. rewrite Hr. apply Hs1.
Qed.

(** The state after [virt2phys_init]. *)
Definition initial (params : virt2phys_params) : config := mk_config (mk_globals params [] 0) [] [].

Lemma initial_inv params : inv params (initial params).
Proof. constructor; simpl; try done; [apply NoDup_nil_2|]. split; [done|]. simpl. lia. Qed.

(** *** The physical address *)
Lemma successive_nth l : forall n k,
  successive n l = true -> (k < n)%nat -> (n <= length l)%nat -> nth k l 0 = nth 0 l 0 + Z.of_nat k.
Proof.
  induction l as [|p l IH]; intros [|n] [|k] Hs Hk Hn; cbn [length] in *; try lia.
  destruct n as [|n]; [lia|]. destruct l as [|q l]; [simpl in Hn; lia|].
  cbn [successive] in Hs. apply andb_true_iff in Hs as [Hq Hs]. apply Z.eqb_eq in Hq.
  change (nth (S k) (p :: q :: l) 0) with (nth k (q :: l) 0).
  rewrite (IH (S n) k Hs) by (simpl in *; lia). cbn [nth]. lia.
Qed.

(** The documented behaviour of the kernel: allocation bases are aligned to
    pages; an MDL describes the range it is allocated for, and once its pages are
    locked it has a frame number, of a physical address below 2^52, for each. *)
Definition kernel_ok : Prop :=
  (forall t virt, AllocationBase (minfo (answer t (ZwQueryVirtualMemory virt))) mod PAGE_SIZE = 0) /\
  (forall t va len, let m := mdl_for t va len in
     MmGetMdlVirtualAddress m = va /\ StartVa m = va - va mod PAGE_SIZE /\ MmGetMdlByteCount m = u32 len /\
     (Z.to_nat (ADDRESS_AND_SIZE_TO_SPAN_PAGES va (u32 len)) <= length (MmGetMdlPfnArray m))%nat /\
     Forall (fun f => 0 <= f < 2 ^ 40) (MmGetMdlPfnArray m)).

(** The physical address of a byte of a locked range. *)
Definition frame_address (m : MDL) (virt : Z) : Z :=
  nth (Z.to_nat ((virt - StartVa m) / PAGE_SIZE)) (MmGetMdlPfnArray m) 0 * PAGE_SIZE + virt mod PAGE_SIZE.

Lemma block_translate_ok b virt :
  kernel_ok -> locked_mdl (mdl b) ->
  StartVa (mdl b) <= virt < StartVa (mdl b) + MmGetMdlByteCount (mdl b) ->
  virt2phys_block_translate b virt = frame_address (mdl b) virt.
Proof.
  intros [Hk1 Hk2] (Hc & t1 & v & t2 & len & Em & _) Hv. set (m := mdl b) in *.
  set (base := AllocationBase (minfo (answer t1 (ZwQueryVirtualMemory v)))) in *.
  assert (base mod PAGE_SIZE = 0) as Hb by apply Hk1.
  destruct (Hk2 t2 base len) as (Hva & Hst & Hcount & Hlen & Hf). rewrite <- Em in *. rewrite Hb, Z.sub_0_r in Hst.
  unfold virt2phys_block_translate, frame_address. fold m. rewrite Hva, Hst in *. rewrite Hcount in Hv.
  unfold virt2phys_is_contiguous in Hc. rewrite Hva, Hcount in Hc.
  unfold ADDRESS_AND_SIZE_TO_SPAN_PAGES, PAGE_SIZE in *. pose proof (u32_range len) as Hu. unfold is_u32 in Hu.
  rewrite Hb in *. set (d := virt - base) in *.
  assert (0 <= d / 4096 < (0 + u32 len + (4096 - 1)) / 4096) as Hd by (unfold d; dlia).
  rewrite (successive_nth _ _ (Z.to_nat (d / 4096)) Hc) by lia. rewrite Z2Nat.id by lia.
  assert (0 <= nth 0 (MmGetMdlPfnArray m) 0 < 1099511627776) as Hp.
  { change 1099511627776 with (2 ^ 40). apply (Forall_nth (fun f => 0 <= f < 2 ^ 40) 0 (MmGetMdlPfnArray m)); [done|lia]. }
  set (f0 := nth 0 (MmGetMdlPfnArray m) 0) in *. clearbody f0. assert (virt mod 4096 = d mod 4096) as -> by (unfold d; dlia).
  assert (0 <= d < 4294967296) by (unfold d; lia). clearbody d. clear -Hp H0. word.
Qed.

Lemma translate_lock_result pid virt base size p t :
  kernel_ok -> base mod PAGE_SIZE = 0 ->
  match (translate_lock pid virt base size p t).1 with
  | TReady virt' b _ _ => virt' = virt /\ StartVa (mdl b) = base
  | TDone _ phys => phys = None
  | _ => False
  end.
Proof.
  intros [_ Hk] Hb. unfold translate_lock. unfold bind at 1. pose proof (lock_memory_held base size t) as Hl.
  destruct (virt2phys_lock_memory base size t) as [[status m] t1]. destruct m as [m|]; [|done].
  destruct Hl as (_ & -> & _). destruct (Hk t base (u32 size)) as (_ & Hst & _). rewrite Hb, Z.sub_0_r in Hst.
  unfold bind at 1. destruct (virt2phys_check_memory _ t1) as [st t2].
  destruct (negb (NT_SUCCESS st)); [unfold bind; by destruct (virt2phys_unlock_memory _ t2)|].
  unfold bind at 1. pose proof (block_create_held (mdl_for t base (u32 size)) t2) as Hc.
  destruct (virt2phys_block_create _ t2) as [b0 t3].
  destruct b0 as [b0|]; [|unfold bind; by destruct (virt2phys_unlock_memory _ t3)].
  destruct Hc as [Em _]. destruct p as [p|]; [by rewrite <- Em in Hst|].
  unfold bind at 1. destruct (virt2phys_process_create pid t3) as [q t4].
  destruct q as [q|]; [by rewrite <- Em in Hst|]. unfold bind. by destruct (virt2phys_block_free b0 true t4).
Qed.

(** Where a successful result comes from. *)
Definition result_spec (pid virt base : Z) (g' : globals) (s : tstate) : Prop :=
  forall phys, result_of s = (STATUS_SUCCESS, Some phys) ->
  exists p b, virt2phys_process_find pid (g_processes g') = Some p /\ b ∈ blocks p /\ StartVa (mdl b) = base /\
    locked_mdl (mdl b) /\ phys = virt2phys_block_translate b virt.

Lemma find_block_in bs va b : find_block bs va = Some b -> b ∈ bs /\ StartVa (mdl b) = va.
Proof.
  induction bs as [|c bs IH]; simpl; [done|]. destruct (Z.eqb_spec (StartVa (mdl c)) va) as [E|E].
  - intros [= ->]. split; [by left|done].
  - intros Hb. destruct (IH Hb). split; [by right|done].
Qed.

Lemma translate_find_result params n pid virt g t :
  good params n g ->
  let base := AllocationBase (minfo (answer t (ZwQueryVirtualMemory virt))) in
  let '(s, t') := translate_find pid virt g t in
  match s with
  | TMissed virt' base' _ _ => virt' = virt /\ base' = base
  | TDone _ _ => result_spec pid virt base g s
  | _ => False
  end.
Proof.
  intros Hg. cbv zeta. unfold translate_find, virt2phys_query_memory. prog. set (a := answer t (ZwQueryVirtualMemory virt)).
  destruct (NT_SUCCESS (val a)) eqn:Ea; cbn [negb]; [|by intros phys].
  destruct (virt2phys_find_block pid (AllocationBase (minfo a)) (g_processes g)) as [b p] eqn:Ef.
  destruct (find_block_process _ _ _ _ _ Ef) as [Hp Hb]. destruct b as [b|]; [|done].
  destruct p as [p|]; [|done]. symmetry in Hb, Hp. destruct (find_block_in _ _ _ Hb) as [Hin Hva].
  destruct (find_id _ _ _ Hp) as [Hpin _]. pose proof (good_processes _ _ _ Hg) as Hps.
  rewrite Forall_forall in Hps. destruct (Hps _ Hpin) as [Hbs _]. rewrite Forall_forall in Hbs.
  intros phys [= <-]. exists p, b. split; [done|]. split; [done|]. split; [done|]. split; [by apply Hbs|done].
Qed.

Lemma translate_add_result params n pid virt b p created g t :
  good params n g -> 0 <= n -> thread_ok g (pid, TReady virt b p created) ->
  let '((s, g'), t') := translate_add virt b p created g t in result_spec pid virt (StartVa (mdl b)) g' s.
Proof.
  intros Hg Hn (Hmdl & Hid & Hp). unfold translate_add.
  assert (offered p g) as Ho by (unfold offered; rewrite Hid; destruct created; [by right|by left]).
  pose proof (add_block_ok params n p b g Hg Hn Hmdl Ho) as Ha. unfold bind at 1, do at 1. cbv beta iota.
  destruct (virt2phys_add_block p b g) as [[status was] g']. destruct Ha as (_ & _ & _ & Hs).
  unfold bind at 1, do at 1. unfold bind at 1. match goal with |- context [(if was && created then ?x else ?y) ?u] =>
    destruct ((if was && created then x else y) u) as [[] t2] end.
  destruct (NT_SUCCESS status) eqn:Es; unfold ret; intros phys E; simpl in E.
  - injection E as _ <-. destruct Hs as [(q & Hq & Hb) _]. exists q, b. simpl in Hid. by rewrite <- Hid.
  - done.
Qed.

(** All parts of a translation, one after the other. *)
Lemma translate_ok params n pid virt g t :
  good params n g -> 0 <= n ->
  let '((s, g'), t') := virt2phys_translate pid virt g t in t' `suffix_of` T -> step_spec params n pid (TStart virt) g t s g' t'.
Proof.
  intros Hg Hn. unfold virt2phys_translate, bind.
  pose proof (translate_step_ok params n pid (TStart virt) g t Hg Hn I) as H1.
  destruct (translate_step pid (TStart virt) g t) as [[s1 g1] t1].
  pose proof (fun G T => translate_step_ok params n pid s1 g1 t1 G Hn T) as H2. destruct (translate_step pid s1 g1 t1) as [[s2 g2] t2] eqn:X2.
  pose proof (fun G T => translate_step_ok params n pid s2 g2 t2 G Hn T) as H3. destruct (translate_step pid s2 g2 t2) as [[s3 g3] t3] eqn:X3.
  intros HT3. pose proof (extends_before _ _ _ _ (translate_step_extends pid s2 g2) X3 HT3) as HT2.
  pose proof (extends_before _ _ _ _ (translate_step_extends pid s1 g1) X2 HT2) as HT1.
  destruct (H1 HT1) as (G1 & T1 & M1 & E1). destruct (H2 G1 T1 HT2) as (G2 & T2 & M2 & E2). destruct (H3 G2 T2 HT3) as (G3 & T3 & M3 & E3).
  split; [done|]. split; [done|]. split; [auto|]. intros r. by rewrite E3, E2.
Qed.

Lemma translate_result params n pid virt g t :
  kernel_ok -> good params n g -> 0 <= n ->
  let base := AllocationBase (minfo (answer t (ZwQueryVirtualMemory virt))) in
  let '((s, g'), t') := virt2phys_translate pid virt g t in t' `suffix_of` T -> result_spec pid virt base g' s.
Proof.
  intros Hk Hg Hn. cbv zeta. set (base := AllocationBase (minfo (answer t (ZwQueryVirtualMemory virt)))).
  unfold virt2phys_translate. cbn [translate_step]. unfold bind at 1 2.
  pose proof (translate_find_ok params n pid virt g t Hg) as Hf1.
  pose proof (translate_find_result params n pid virt g t Hg) as Hf2. cbv zeta in Hf2. fold base in Hf2.
  destruct (translate_find pid virt g t) as [s t1]. destruct Hf1 as (_ & Hth & _).
  unfold ret at 1. cbv beta iota. destruct s as [|virt' base' size p| | |status phys]; try done; [|exact (fun _ => Hf2)].
  destruct Hf2 as [-> ->]. cbn [translate_step]. unfold bind at 1 2.
  pose proof (translate_lock_ok params n pid virt base size p g t1 Hg Hth) as Hl1.
  pose proof (translate_lock_result pid virt base size p t1 Hk (proj1 Hk _ _)) as Hl2.
  destruct (translate_lock pid virt base size p t1) as [s2 t2]. simpl in Hl2.
  unfold ret at 1. cbv beta iota. destruct s2 as [| |virt' b q created| |status phys]; try done.
  - destruct Hl2 as [-> <-]. cbn [translate_step].
    pose proof (fun Hth => translate_add_result params n pid virt b q created g t2 Hg Hn Hth) as Ha.
    destruct (translate_add virt b q created g t2) as [[s3 g3] t3] eqn:E3. intros HT. apply Ha.
    by apply (Hl1 (extends_before _ _ _ _ (translate_step_extends pid (TReady virt b q created) g) E3 HT)).
  - subst phys. intros _. by intros phys.
Qed.

(** Objects stand for no less than nothing. *)
Lemma own_block_nonneg r b : 0 <= own_block r b.
Proof. unfold own_block, own_mdl, own_pool, one. destruct r; repeat case_match; lia. Qed.
Lemma own_process_nonneg r p : 0 <= own_process r p.
Proof.
  unfold own_process, own_pool, one. assert (0 <= zsum (map (own_block r) (blocks p))); [|destruct r; repeat case_match; lia].
  apply zsum_nonneg, Forall_forall. intros x (b & <- & _)%list_elem_of_In%in_map_iff. apply own_block_nonneg.
Qed.
Lemma own_thread_nonneg r th : 0 <= own_thread r th.
Proof.
  unfold own_thread. destruct th.2 as [| |v b p c|st b [p|]|]; try done;
    pose proof (own_block_nonneg r b); try (pose proof (own_process_nonneg r p)); try case_match; lia.
Qed.
Lemma owned_tracked r c : tracked r (shared c) <= owned r c.
Proof.
  unfold owned, tracked. assert (forall {A} (f : A -> Z) l, (forall x, 0 <= f x) -> 0 <= zsum (map f l)) as Hs.
  { intros A f l Hf. induction l as [|x l IH]; simpl; [done|]. specialize (Hf x). lia. }
  pose proof (Hs _ (own_thread r) (threads c) (own_thread_nonneg r)).
  pose proof (Hs _ (own_process r) (exiting c) (own_process_nonneg r)). lia.
Qed.

Lemma zsum_member {A} (f : A -> Z) l x : (forall y, 0 <= f y) -> x ∈ l -> f x <= zsum (map f l).
Proof.
  intros Hf Hx. induction l as [|y l IH]; [by apply elem_of_nil in Hx|]. simpl. pose proof (Hf y).
  apply elem_of_cons in Hx as [->|Hx].
  - assert (0 <= zsum (map f l)); [|lia]. clear -Hf. induction l as [|z l IH]; simpl; [done|]. pose proof (Hf z). lia.
  - specialize (IH Hx). lia.
Qed.

(** The pages of a block in the list are locked. *)
Lemma tracked_block r g p b : p ∈ g_processes g -> b ∈ blocks p -> own_block r b <= tracked r g.
Proof.
  intros Hp Hb. unfold tracked. etransitivity; [|apply (zsum_member (own_process r) _ p); [apply own_process_nonneg|done]].
  unfold own_process. pose proof (zsum_member (own_block r) (blocks p) b (own_block_nonneg r) Hb).
  assert (0 <= own_pool r (process_ptr p)); [|lia]. unfold own_pool, one. destruct r; repeat case_match; lia.
Qed.

Lemma translate_extends pid virt g : extends (virt2phys_translate pid virt g).
Proof. pose proof translate_step_extends. unfold virt2phys_translate. extend. Qed.
End proofs.

Section theorems.
Context `{Env vcall kans}.

(** C23. A translation that succeeds, after any interleaving of calls of the driver
    since it was loaded, answers from a block of the calling process: the block
    starts at the allocation of the address, its pages are locked, they are
    physically contiguous, and when they were locked, in this history, the kernel said that they are
    one committed and private region that is as large as the block; if the address
    lies in the block then the answer is the physical address of its page frame
    plus the offset in the page. *)
Theorem virt2phys_translate_correct (params : virt2phys_params) (es : list event) (pid virt : Z) :
  kernel_ok ->
  let '(c, t) := run es (initial params) [] in
  let base := AllocationBase (minfo (answer t (ZwQueryVirtualMemory virt))) in
  let '((s, g'), t') := virt2phys_translate pid virt (shared c) t in
  forall phys, result_of s = (STATUS_SUCCESS, Some phys) ->
  exists p b, virt2phys_process_find pid (g_processes g') = Some p /\ b ∈ blocks p /\ StartVa (mdl b) = base /\
    0 < held (RPages (mdl_ptr (mdl b))) t' /\ virt2phys_is_contiguous (mdl b) = true /\ locked_at t' (mdl b) base /\
    (base <= virt < base + MmGetMdlByteCount (mdl b) -> phys = frame_address (mdl b) virt).
Proof.
  intros Hk. pose proof (fun T => run_ok T params es (initial params) [] (initial_inv T params)) as Hr.
  destruct (run es (initial params) []) as [c t]. pose proof (translate_extends pid virt (shared c) t) as Hx.
  pose proof (fun T Hg => translate_ok T params (Z.of_nat (length (exiting c))) pid virt (shared c) t Hg (Nat2Z.is_nonneg _)) as Ho.
  pose proof (fun T Hg => translate_result T params (Z.of_nat (length (exiting c))) pid virt (shared c) t Hk Hg (Nat2Z.is_nonneg _)) as Hs. cbv zeta in *.
  set (base := AllocationBase (minfo (answer t (ZwQueryVirtualMemory virt)))) in *.
  destruct (virt2phys_translate pid virt (shared c) t) as [[s g'] t']. simpl in Hx.
  destruct (Hr t' Hx) as [Hi Hh]. apply inv_good in Hi as [Hg _]. destruct (Ho t' Hg (reflexivity t')) as (_ & _ & _ & Ho').
  intros phys E. destruct (Hs t' Hg (reflexivity t') phys E) as (p & b & Hp & Hb & Hst & Hm & ->). exists p, b.
  split; [done|]. split; [done|]. split; [done|]. split.
  { set (r := RPages (mdl_ptr (mdl b))). specialize (Ho' r). specialize (Hh r). pose proof (owned_tracked r c) as Hc.
    destruct (find_id _ _ _ Hp) as [Hpin _]. pose proof (tracked_block r g' p b Hpin Hb) as Ht.
    assert (1 <= own_block r b) as H1 by (unfold own_block, r; simpl; rewrite Z.eqb_refl; simpl; lia).
    pose proof (own_thread_nonneg r (pid, s)) as Hn. change (own_thread r (pid, TStart virt)) with 0 in Ho'.
    change (owned r (initial params)) with 0 in Hh. change (held r []) with 0 in Hh. lia. }
  split; [apply Hm|]. split; [|intros Hv; eapply block_translate_ok; [done|done|by rewrite Hst]].
  destruct Hm as (_ & t1 & v & t0 & len & Em & Hck). set (base0 := AllocationBase (minfo (answer t1 (ZwQueryVirtualMemory v)))) in *.
  assert (base0 mod PAGE_SIZE = 0) as Hb0 by apply (proj1 Hk).
  destruct (proj2 Hk t0 base0 len) as (_ & Hsv & _). rewrite <- Em, Hb0, Z.sub_0_r, Hst in Hsv.
  exists t0, len. by rewrite Hsv.
Qed.

(** C22. Accounting under concurrency: after any interleaving of requests,
    process ends and clean-ups, the processes in the list are distinct, each
    one's counter is the number of bytes of its blocks and within the memory
    limit, and the processes, those being cleaned up included, are within the
    process limit. *)
Theorem virt2phys_limits (params : virt2phys_params) (es : list event) (t : list (vcall * kans)) :
  typed_answers ->
  0 < process_count_limit params < 2147483647 -> 0 < process_memory_limit params < 2 ^ 62 ->
  let '(c, t') := run es (initial params) t in
  NoDup (ids (shared c)) /\
  Forall (fun p => memory p = bytes (blocks p) /\ memory p <= process_memory_limit params) (g_processes (shared c)) /\
  g_process_count (shared c) = Z.of_nat (length (g_processes (shared c))) + Z.of_nat (length (exiting c)) /\
  g_process_count (shared c) <= process_count_limit params.
Proof.
  intros Ht Hc Hm. pose proof (fun T => run_ok T params es (initial params) t (initial_inv T params)) as Hr.
  destruct (run es (initial params) t) as [c t']. destruct (Hr t' (reflexivity t')) as [[I1 I2 I3 I4 [I5 I6]] _].
  split; [done|]. change (2 ^ 62) with 4611686018427387904 in *. split.
  - eapply Forall_impl; [exact I3|]. intros p (_ & Hp & Hl). specialize (Hl Ht Hm). rewrite Hp, u64_small; [lia|].
    unfold is_u64. lia.
  - specialize (I6 Hc). rewrite I5, i32_small by (unfold is_i32; lia). lia.
Qed.

Lemma idle_owned r c :
  g_processes (shared c) = [] -> exiting c = [] ->
  Forall (fun th => match th.2 with TDone _ _ => True | _ => False end) (threads c) -> owned r c = 0.
Proof.
  intros Hp He Hth. unfold owned. rewrite Hp, He. simpl. induction Hth as [|[i s] l Hs Hl IH]; [done|].
  simpl in *. by destruct s.
Qed.

(** C21. Nothing is lost or released twice under concurrency: after any
    interleaving, the memory the driver has allocated, its MDLs and the pages it
    keeps locked are exactly those of the blocks and processes in its list, in a
    running request, being cleaned up, or abandoned by a refused request, and its
    lock is free; so when all processes have ended, and none of the requests was
    refused, everything has been given back. *)
Theorem virt2phys_resources (params : virt2phys_params) (es : list event) (t : list (vcall * kans)) :
  let '(c, t') := run es (initial params) t in
  (forall r, held r t' = held r t + owned r c) /\
  (g_processes (shared c) = [] -> exiting c = [] ->
   Forall (fun th => match th.2 with TDone _ _ => True | _ => False end) (threads c) ->
   forall r, held r t' = held r t).
Proof.
  pose proof (fun T => run_ok T params es (initial params) t (initial_inv T params)) as Hr.
  destruct (run es (initial params) t) as [c t']. destruct (Hr t' (reflexivity t')) as [_ Hh].
  assert (forall r, owned r (initial params) = 0) as H0 by done.
  split; intros; specialize (Hh r); rewrite H0 in Hh; [lia|]. rewrite idle_owned in Hh by done. lia.
Qed.

(** An address of an allocation that the process already has a block for is
    answered from that block: no memory is locked again and nothing changes.  The
    address is not compared with the length of the block. *)
Theorem virt2phys_translate_hit (pid virt : Z) (g : globals) (p : virt2phys_process) (b : virt2phys_block)
    (t : list (vcall * kans)) :
  let a := answer t (ZwQueryVirtualMemory virt) in
  NT_SUCCESS (val a) = true ->
  virt2phys_process_find pid (g_processes g) = Some p -> find_block (blocks p) (AllocationBase (minfo a)) = Some b ->
  let '((s, g'), t') := virt2phys_translate pid virt g t in
  result_of s = (STATUS_SUCCESS, Some (virt2phys_block_translate b virt)) /\ g' = g /\
  map fst t' = KeReleaseSpinLock :: KeAcquireSpinLock :: ZwQueryVirtualMemory virt :: map fst t.
Proof.
  intros a Ha Hp Hb. unfold virt2phys_translate, translate_step, translate_find, virt2phys_query_memory. prog.
  fold a. rewrite Ha. cbn [negb]. destruct (virt2phys_find_block pid (AllocationBase (minfo a)) (g_processes g)) as [b' p'] eqn:Ef.
  destruct (find_block_process _ _ _ _ _ Ef) as [-> ->]. rewrite Hp, Hb. done.
Qed.

Lemma tracked_completed g : tracked RCompleted g = 0.
Proof.
  unfold tracked. induction (g_processes g) as [|p l IH]; simpl; [done|]. rewrite IH. unfold own_process. simpl.
  assert (forall bs, zsum (map (own_block RCompleted) bs) = 0) as E; [|rewrite E; lia].
  intros bs. induction bs as [|b bs IHb]; simpl; [done|]. rewrite IHb. unfold own_block. simpl. lia.
Qed.

Lemma own_thread_completed th : own_thread RCompleted th = 0.
Proof.
  assert (forall b, own_block RCompleted b = 0) as Eb by (intros; unfold own_block; simpl; lia).
  assert (forall p, own_process RCompleted p = 0) as Ep.
  { intros p. unfold own_process. simpl. induction (blocks p) as [|b bs IHb]; simpl in *; [done|]. rewrite Eb. lia. }
  unfold own_thread. destruct th.2 as [| |? b p c|? b [p|]|]; rewrite ?Eb, ?Ep; try lia. destruct c; lia.
Qed.

(** What was locked stays in the history. *)
Lemma good_later t t' params n g : t `suffix_of` t' -> good t params n g -> good t' params n g.
Proof.
  intros Ht [G1 G2 G3 G4]. constructor; [done|done| |done]. eapply Forall_impl; [exact G3|]. intros p (Hb & Hm & Hl).
  split; [|done]. eapply Forall_impl; [exact Hb|]. intros b (Hc & t1 & v & t0 & len & Em & Hck & Hs). split; [done|].
  exists t1, v, t0, len. split; [done|]. split; [done|]. by etransitivity.
Qed.

Lemma translate_completed params n pid virt g t :
  good t params n g -> 0 <= n -> held RCompleted (virt2phys_translate pid virt g t).2 = held RCompleted t.
Proof.
  intros Hg Hn. pose proof (fun T HT => translate_ok T params n pid virt g t (good_later t T params n g HT Hg) Hn) as Ho.
  pose proof (translate_extends pid virt g t) as Hx.
  destruct (virt2phys_translate pid virt g t) as [[s g'] t']. destruct (Ho t' Hx (reflexivity t')) as (_ & _ & _ & Ho'). clear Ho. rename Ho' into Ho. simpl.
  specialize (Ho RCompleted). rewrite !tracked_completed, !own_thread_completed in Ho. lia.
Qed.

(** Every device control request is completed exactly once, on every path. *)
Theorem virt2phys_request_completed (params : virt2phys_params) (n pid : Z) (device_control : bool) (code virt : Z)
    (g : globals) (t : list (vcall * kans)) :
  good t params n g -> 0 <= n ->
  held RCompleted (virt2phys_device_EvtIoInCallerContext pid device_control code virt g t).2 = held RCompleted t + 1.
Proof.
  intros Hg Hn. unfold virt2phys_device_EvtIoInCallerContext. destruct device_control; cbn [negb]; [|prog; simpl; rewrite held_cons; simpl; lia].
  destruct (code =? IOCTL_VIRT2PHYS_TRANSLATE); cbn [negb]; [|prog; simpl; rewrite held_cons; simpl; lia].
  unfold bind at 1, call at 1. set (a1 := answer t _). destruct (NT_SUCCESS (val a1)); cbn [negb].
  2: { prog. simpl. rewrite !held_cons. simpl. lia. }
  unfold bind at 1, call at 1. set (a2 := answer _ (WdfRequestRetrieveOutputBuffer 8)).
  destruct (NT_SUCCESS (val a2)); cbn [negb]; [|prog; simpl; rewrite !held_cons; simpl; lia].
  unfold bind at 1. match goal with |- context [virt2phys_translate pid virt g ?u] =>
    pose proof (translate_completed params n pid virt g u (good_later t u params n g ltac:(by do 2 apply suffix_cons_r) Hg) Hn) as Ht;
    destruct (virt2phys_translate pid virt g u) as [[s g'] t'] end.
  simpl in Ht. rewrite !held_cons in Ht. simpl in Ht. destruct (result_of s) as [status phys].
  destruct (NT_SUCCESS status); prog; simpl; rewrite !held_cons; simpl; lia.
Qed.
End theorems.

(** ** Witnesses *)
Section witnesses.

(** A kernel that grants every request; an allocation is 64 KiB aligned with one
    committed region of 8192 bytes at its start; the frames of a locked range are
    100, 101, ... *)
Definition windows : Env vcall kans := fun t c =>
  let n := Z.of_nat (length t) in
  let no_info := {| AllocationBase := 0; RegionSize := 0; State := 0; Type_ := 0 |} in
  let no_mdl := {| mdl_ptr := 0; StartVa := 0; MmGetMdlVirtualAddress := 0; MmGetMdlByteCount := 0; MmGetMdlPfnArray := [] |} in
  let answer_with (v : Z) := {| val := v; out := 0; minfo := no_info; new_mdl := no_mdl; pfns := [] |} in
  match c with
  | ZwQueryVirtualMemory v =>
      {| val := 0; out := 0;
         minfo := {| AllocationBase := v - v mod 65536; RegionSize := 8192; State := MEM_COMMIT; Type_ := MEM_PRIVATE |};
         new_mdl := no_mdl; pfns := [] |}
  | IoAllocateMdl va len =>
      {| val := 0; out := 0; minfo := no_info;
         new_mdl := {| mdl_ptr := 1000 + n; StartVa := va - va mod PAGE_SIZE; MmGetMdlVirtualAddress := va;
                       MmGetMdlByteCount := u32 len; MmGetMdlPfnArray := [] |};
         pfns := [] |}
  | MmProbeAndLockPages _ =>
      {| val := 0; out := 0; minfo := no_info; new_mdl := no_mdl;
         pfns := match t with
                 | (IoAllocateMdl va len, _) :: _ =>
                     map Z.of_nat (seq 100 (Z.to_nat (ADDRESS_AND_SIZE_TO_SPAN_PAGES va (u32 len))))
                 | _ => []
                 end |}
  | ExAllocatePoolZero _ => answer_with (2000 + n)
  | _ => answer_with 0
  end.

Lemma windows_ok : kernel_ok (H := windows).
Proof.
  split.
  - intros t virt. cbn [answer windows minfo AllocationBase]. unfold PAGE_SIZE. dlia.
  - intros t va len. cbn zeta. unfold mdl_for. cbn [answer windows new_mdl lock_frames pfns mdl_ptr].
    split; [done|]. split; [done|]. split; [done|]. cbn [MmGetMdlPfnArray lock_frames]. rewrite length_map, length_seq.
    split; [done|]. apply Forall_map, Forall_seq. intros k Hk. simpl. pose proof (u32_range len).
    unfold is_u32, ADDRESS_AND_SIZE_TO_SPAN_PAGES, PAGE_SIZE in *. change (2 ^ 40) with 1099511627776. dlia.
Qed.

Lemma windows_typed : typed_answers (H := windows).
Proof. intros t []; cbn; try done. apply u32_range. Qed.

Definition limits : virt2phys_params := {| process_count_limit := 2; process_memory_limit := 65536 |}.

(** A process with one block of two pages. *)
Definition one_block : globals :=
  shared (run (H := windows) [Request 7 65541; Continue 0; Continue 0; Continue 0] (initial limits) []).1.

Lemma virt2phys_translate_correct_witness :
  exists b t, StartVa (mdl b) = 65536 /\ 0 < held (RPages (mdl_ptr (mdl b))) t /\ 413701 = frame_address (mdl b) 69637.
Proof.
  pose proof (virt2phys_translate_correct (H := windows) limits [Request 8 65541; Continue 0; Continue 0; Continue 0] 7 69637 windows_ok) as Hs.
  destruct (run (H := windows) [Request 8 65541; Continue 0; Continue 0; Continue 0] (initial limits) []) as [c t] eqn:Ec.
  cbv zeta in Hs. destruct (virt2phys_translate (H := windows) 7 69637 (shared c) t) as [[s g'] t'] eqn:E.
  assert (result_of s = (STATUS_SUCCESS, Some 413701)) as Hr.
  { vm_compute in Ec. injection Ec as <- <-. vm_compute in E. injection E as <- _ _. reflexivity. }
  assert (AllocationBase (minfo (answer (Env := windows) t (ZwQueryVirtualMemory 69637))) = 65536) as Hbase by reflexivity.
  assert (Forall (fun p => Forall (fun b => MmGetMdlByteCount (mdl b) = 8192) (blocks p)) (g_processes g')) as Hc.
  { vm_compute in Ec. injection Ec as <- <-. vm_compute in E. injection E as _ <- _. repeat constructor. }
  destruct (Hs 413701 Hr) as (p & b & Hp & Hb & Hst & Hheld & _ & _ & Hphys). exists b, t'. split; [exact Hst|]. split; [exact Hheld|].
  apply Hphys. apply find_id in Hp as [Hp _]. rewrite Forall_forall in Hc. specialize (Hc p Hp). rewrite Forall_forall in Hc.
  rewrite (Hc b Hb). vm_compute. split; [discriminate|reflexivity].
Defined.

Lemma virt2phys_limits_witness :
  let '(c, t') := run (H := windows) [Request 7 65541; Continue 0; Continue 0; Continue 0; ProcessEnd 7] (initial limits) [] in
  g_process_count (shared c) = 1 /\ g_process_count (shared c) <= 2.
Proof.
  pose proof (virt2phys_limits (H := windows) limits
    [Request 7 65541; Continue 0; Continue 0; Continue 0; ProcessEnd 7] [] windows_typed) as Hs.
  destruct (run (H := windows) _ (initial limits) []) as [c t'] eqn:E.
  destruct Hs as (_ & _ & Hn & Hl); [split; reflexivity|split; reflexivity|]. split; [|exact Hl].
  vm_compute in E. injection E as <- _. reflexivity.
Defined.

(** The second page of the allocation is not part of the block when only its
    first 8192 bytes were committed; the address 65536 + 12288 is answered with
    frame 103, which is not the block's. *)
Lemma virt2phys_translate_hit_witness :
  exists b, MmGetMdlPfnArray (mdl b) = [100; 101] /\
    result_of (virt2phys_translate (H := windows) 7 (65536 + 12288) one_block []).1.1 = (STATUS_SUCCESS, Some (103 * 4096)) /\
    virt2phys_block_translate b (65536 + 12288) = 103 * 4096.
Proof.
  assert (exists p b, virt2phys_process_find 7 (g_processes one_block) = Some p /\
    find_block (blocks p) 65536 = Some b /\ MmGetMdlPfnArray (mdl b) = [100; 101] /\
    virt2phys_block_translate b (65536 + 12288) = 103 * 4096) as (p & b & Hp & Hb & Hf & Ht).
  { eexists _, _. split; [vm_compute; reflexivity|]. split; [vm_compute; reflexivity|].
    split; vm_compute; reflexivity. }
  exists b. split; [exact Hf|]. split; [|exact Ht].
  pose proof (virt2phys_translate_hit (H := windows) 7 (65536 + 12288) one_block p b [] eq_refl Hp Hb) as Hs.
  destruct (virt2phys_translate (H := windows) 7 (65536 + 12288) one_block []) as [[s g'] t'].
  destruct Hs as [Hs _]. simpl. rewrite Hs, Ht. reflexivity.
Defined.

Lemma virt2phys_request_completed_witness :
  held RCompleted (virt2phys_device_EvtIoInCallerContext (H := windows) 7 true IOCTL_VIRT2PHYS_TRANSLATE 65541
    (shared (initial limits)) []).2 = 1.
Proof.
  assert (good (H := windows) [] limits 0 (shared (initial limits))) as Hg
    by exact (proj1 (proj1 (inv_good (H := windows) [] limits (initial limits)) (initial_inv (H := windows) [] limits))).
  exact (virt2phys_request_completed (H := windows) limits 0 7 true IOCTL_VIRT2PHYS_TRANSLATE 65541 _ [] Hg (Z.le_refl 0)).
Defined.

(** The check that keeps the same memory from being locked twice and its use
    are not one critical section: when two threads of a process ask for the same
    allocation at once, both lock it, and its bytes are counted twice. *)
Theorem virt2phys_double_lock :
  exists (E : Env vcall kans) (es : list event),
  let '(c, t') := run (H := E) es (initial limits) [] in
  exists p b1 b2, g_processes (shared c) = [p] /\ blocks p = [b1; b2] /\
    StartVa (mdl b1) = StartVa (mdl b2) /\ MmGetMdlVirtualAddress (mdl b1) = MmGetMdlVirtualAddress (mdl b2) /\
    memory p = 2 * MmGetMdlByteCount (mdl b1) /\
    held (RPages (mdl_ptr (mdl b1))) t' = 1 /\ held (RPages (mdl_ptr (mdl b2))) t' = 1.
Proof.
  exists windows, [Request 7 65536; Request 7 65536; Continue 0; Continue 1; Continue 0; Continue 1; Continue 0; Continue 1].
  vm_compute. eexists _, _, _. repeat split.
Qed.

(** A request that the limits refuse leaves its pages locked for good: they
    are still locked after the process has ended. *)
Theorem virt2phys_refused_leaks :
  exists (E : Env vcall kans) (es : list event) (m : ptr),
  let '(c, t') := run (H := E) es (initial {| process_count_limit := 2; process_memory_limit := 4096 |}) [] in
  g_processes (shared c) = [] /\ exiting c = [] /\ forallb (fun th => finished th.2) (threads c) = true /\
  held (RPages m) t' = 1 /\ held (RMdl m) t' = 1.
Proof.
  exists windows, [Request 7 65536; Continue 0; Continue 0; Continue 0; ProcessEnd 7; Finish 0], 1003.
  vm_compute. repeat split.
Qed.
End witnesses.
