(* ===== verification/NetUio.v ===== *)
(** * The netuio driver (src/deps/dpdk-kmods/windows/netuio)

    The Windows driver that maps the BARs of a network device into a process and
    gives it access to the PCI configuration space. *)
From S2P Require Import Prelude Effects.

Definition STATUS_SUCCESS : Z := 0.
Definition STATUS_INVALID_PARAMETER : Z := -1073741811.
Definition STATUS_INVALID_DEVICE_REQUEST : Z := -1073741808.
Definition STATUS_INSUFFICIENT_RESOURCES : Z := -1073741670.
Definition STATUS_NOT_SUPPORTED : Z := -1073741637.
Definition STATUS_DEVICE_CONFIGURATION_ERROR : Z := -1073741438.
Definition NT_SUCCESS (status : Z) : bool := 0 <=? status.

Inductive ncall :=
| WdfDriverCreate
| WdfDeviceCreate
| WdfDeviceCreateDeviceInterface
| WdfFdoQueryForInterface
| WdfDeviceWdmGetPhysicalDevice
| IoGetDeviceProperty (name : string)
| WdfDeviceCreateSymbolicLink (name : string)
| WdfIoQueueCreate
| GetBusData (offset size : Z)
| SetBusData (data offset size : Z)
| MmMapIoSpace (start len : Z)
| MmUnmapIoSpace (virt : ptr) (size : Z)
| IoAllocateMdl (virt : ptr) (len : Z)
| IoFreeMdl (mdl : ptr)
| MmBuildMdlForNonPagedPool (mdl : ptr)
| MmMapLockedPagesSpecifyCache (mdl : ptr)
| MmUnmapLockedPages (user : ptr) (mdl : ptr)
| WdfDeviceEnqueueRequest
| WdfRequestRetrieveInputBuffer (min : Z)
| WdfRequestRetrieveOutputBuffer (min : Z)
| WdfRequestCompleteWithInformation (status bytes : Z).

(** An answer: a status, pointer or length ([val]); a value or the BAR words
    stored through a pointer ([out], [words]); the code of an exception, 0 when
    there is none. *)
Record nans := { val : Z; out : Z; words : list Z; exn : Z }.

(** ** Data *)
Definition PCI_MAX_BAR : nat := 6.

Record pci_bar := mk_bar { base_addr : Z; virt_addr : ptr; size : Z }.
Record mem_map_region := mk_region { mdl : ptr; mem_size : Z; user_mapped_virt_addr : ptr }.
Record NETUIO_CONTEXT_DATA := mk_ctx {
  bar : list pci_bar;
  dpdk_hw : list mem_map_region;
  bus_num : Z;
  dev_num : Z;
  func_num : Z
}.

Definition zero_bar : pci_bar := mk_bar 0 NULL 0.
Definition zero_region : mem_map_region := mk_region NULL 0 NULL.
(** [RtlZeroMemory] of both arrays. *)
Definition zero_arrays (ctx : NETUIO_CONTEXT_DATA) : NETUIO_CONTEXT_DATA :=
  mk_ctx (replicate PCI_MAX_BAR zero_bar) (replicate PCI_MAX_BAR zero_region) (bus_num ctx) (dev_num ctx) (func_num ctx).
Definition set_bar (i : nat) (b : pci_bar) (ctx : NETUIO_CONTEXT_DATA) : NETUIO_CONTEXT_DATA :=
  mk_ctx (<[i := b]> (bar ctx)) (dpdk_hw ctx) (bus_num ctx) (dev_num ctx) (func_num ctx).
Definition set_hw (l : list mem_map_region) (ctx : NETUIO_CONTEXT_DATA) : NETUIO_CONTEXT_DATA :=
  mk_ctx (bar ctx) l (bus_num ctx) (dev_num ctx) (func_num ctx).
Definition set_region (i : nat) (r : mem_map_region) (ctx : NETUIO_CONTEXT_DATA) : NETUIO_CONTEXT_DATA :=
  set_hw (<[i := r]> (dpdk_hw ctx)) ctx.
Definition set_addr (bus dev func : Z) (ctx : NETUIO_CONTEXT_DATA) : NETUIO_CONTEXT_DATA :=
  mk_ctx (bar ctx) (dpdk_hw ctx) bus dev func.

(** A descriptor of [ResourcesTranslated]: whether it is of type
    [CmResourceTypeMemory] with the flag [CM_RESOURCE_MEMORY_BAR]. *)
Record descriptor := { is_memory : bool; is_memory_bar : bool; Start : Z; Length : Z }.

Open Scope eff_scope.

Section code.
Context `{Env ncall nans}.

(** ** The device (netuio_dev.c) *)
Definition hex_digit (n : Z) : string :=
  match nth_error ["0"; "1"; "2"; "3"; "4"; "5"; "6"; "7"; "8"; "9"; "a"; "b"; "c"; "d"; "e"; "f"] (Z.to_nat n) with
  | Some s => s
  | None => ""
  end.
(** [%0<width>x]: the digits of a number, at least [width] of them. *)
Fixpoint hex (width fuel : nat) (n : Z) (acc : string) : string :=
  match fuel with
  | O => acc
  | S fuel => if (n =? 0) && (Nat.eqb width 0) then acc
              else hex (width - 1) fuel (n / 16) (hex_digit (n mod 16) +:+ acc)
  end.
Definition symbolic_link (ctx : NETUIO_CONTEXT_DATA) : string :=
  "\DosDevices\netuio_" +:+ hex 4 8 (u32 (bus_num ctx)) "" +:+ hex 2 8 (u16 (dev_num ctx)) "" +:+ hex 2 8 (u16 (func_num ctx)) "".

Definition get_pci_device_info (ctx : NETUIO_CONTEXT_DATA) : M ncall nans (Z * NETUIO_CONTEXT_DATA) :=
  a <- call WdfFdoQueryForInterface ;;
  let status := val a in
  if negb (NT_SUCCESS status) then ret (status, ctx)
  else
    pdo <- call WdfDeviceWdmGetPhysicalDevice ;;
    if val pdo =? NULL then ret (status, ctx)
    else
      a <- call (IoGetDeviceProperty "BusNumber") ;;
      let ctx := set_addr (u32 (out a)) (dev_num ctx) (func_num ctx) ctx in
      if negb (NT_SUCCESS (val a)) then ret (val a, ctx)
      else
        a <- call (IoGetDeviceProperty "Address") ;;
        if negb (NT_SUCCESS (val a)) then ret (val a, ctx)
        else
          let prop := u32 (out a) in
          ret (val a, set_addr (bus_num ctx) (Z.land (Z.shiftr prop 16) 65535) (Z.land prop 65535) ctx).

Definition create_device_specific_symbolic_link (ctx : NETUIO_CONTEXT_DATA) : M ncall nans Z :=
  a <- call (WdfDeviceCreateSymbolicLink (symbolic_link ctx)) ;; ret (val a).

Definition netuio_queue_initialize : M ncall nans Z := a <- call WdfIoQueueCreate ;; ret (val a).

Definition netuio_create_device (ctx : NETUIO_CONTEXT_DATA) : M ncall nans (Z * NETUIO_CONTEXT_DATA) :=
  a <- call WdfDeviceCreate ;;
  if negb (NT_SUCCESS (val a)) then ret (val a, ctx)
  else
    a <- call WdfDeviceCreateDeviceInterface ;;
    if negb (NT_SUCCESS (val a)) then ret (val a, ctx)
    else
      '(status, ctx) <- get_pci_device_info ctx ;;
      if negb (NT_SUCCESS status) then ret (status, ctx)
      else
        status <- create_device_specific_symbolic_link ctx ;;
        if negb (NT_SUCCESS status) then ret (status, ctx)
        else status <- netuio_queue_initialize ;; ret (status, ctx).

(** The loop of [netuio_free_hw_resources]. *)
Fixpoint free_regions (bars : list pci_bar) (hw : list mem_map_region) : M ncall nans () :=
  match bars, hw with
  | b :: bars, r :: hw =>
      (if mdl r =? NULL then ret () else do (IoFreeMdl (mdl r))) ;;
      (if virt_addr b =? NULL then ret () else do (MmUnmapIoSpace (virt_addr b) (size b))) ;;
      free_regions bars hw
  | _, _ => ret ()
  end.
Definition netuio_free_hw_resources (ctx : NETUIO_CONTEXT_DATA) : M ncall nans NETUIO_CONTEXT_DATA :=
  free_regions (bar ctx) (dpdk_hw ctx) ;; ret (zero_arrays ctx).

(** The [do ... while] loop: the next memory BAR and the descriptors after it. *)
Fixpoint next_memory (ds : list descriptor) : option (descriptor * list descriptor) :=
  match ds with
  | [] => None
  | d :: ds => if is_memory d && is_memory_bar d then Some (d, ds) else next_memory ds
  end.

Definition PCI_TYPE_64BIT : Z := 4.

(** The loop over the BAR words from [bar_index] on. *)
Fixpoint map_bars (values : list Z) (bar_index : nat) (ds : list descriptor) (ctx : NETUIO_CONTEXT_DATA)
  : M ncall nans (Z * NETUIO_CONTEXT_DATA) :=
  match values with
  | [] => ret (STATUS_SUCCESS, ctx)
  | bar_value :: values =>
      if bar_value =? 0 then map_bars values (S bar_index) ds ctx
      else
        match next_memory ds with
        | None => ret (STATUS_DEVICE_CONFIGURATION_ERROR, ctx)
        | Some (d, ds) =>
            v <- call (MmMapIoSpace (Start d) (Length d)) ;;
            let ctx := set_bar bar_index (mk_bar (Start d) (val v) (Length d)) ctx in
            if val v =? NULL then ret (STATUS_INSUFFICIENT_RESOURCES, ctx)
            else
              m <- call (IoAllocateMdl (val v) (u32 (Length d))) ;;
              if val m =? NULL then ret (STATUS_INSUFFICIENT_RESOURCES, ctx)
              else
                let ctx := set_region bar_index (mk_region (val m) (Length d) NULL) ctx in
                if c_true (Z.land bar_value PCI_TYPE_64BIT) then
                  match values with
                  | [] => ret (STATUS_SUCCESS, ctx)
                  | _ :: values => map_bars values (S (S bar_index)) ds ctx
                  end
                else map_bars values (S bar_index) ds ctx
        end
  end.

Definition sizeof_PCI_COMMON_HEADER : Z := 64.

Definition netuio_map_hw_resources (ds : list descriptor) (ctx : NETUIO_CONTEXT_DATA)
  : M ncall nans (Z * NETUIO_CONTEXT_DATA) :=
  a <- call (GetBusData 0 sizeof_PCI_COMMON_HEADER) ;;
  if negb (val a =? sizeof_PCI_COMMON_HEADER) then
    ctx <- netuio_free_hw_resources ctx ;; ret (STATUS_NOT_SUPPORTED, ctx)
  else
    '(status, ctx) <- map_bars (take PCI_MAX_BAR (words a)) 0 ds (zero_arrays ctx) ;;
    if negb (status =? STATUS_SUCCESS) then ctx <- netuio_free_hw_resources ctx ;; ret (status, ctx)
    else ret (status, ctx).

(** ** The driver (netuio_drv.c) *)
Definition DriverEntry : M ncall nans Z := a <- call WdfDriverCreate ;; ret (val a).
Definition netuio_evt_device_add (ctx : NETUIO_CONTEXT_DATA) := netuio_create_device ctx.
Definition netuio_evt_prepare_hw (ds : list descriptor) (ctx : NETUIO_CONTEXT_DATA) := netuio_map_hw_resources ds ctx.
Definition netuio_evt_release_hw (ctx : NETUIO_CONTEXT_DATA) : M ncall nans (Z * NETUIO_CONTEXT_DATA) :=
  ctx <- netuio_free_hw_resources ctx ;; ret (STATUS_SUCCESS, ctx).

(** ** Requests (netuio_queue.c) *)

(** The file objects of the device: [bMapped] of each. A request names its file
    object, or has none. *)
Definition netuio_get_usermode_mapping_flag (file : option nat) (files : list bool) : bool :=
  match file with
  | None => false
  | Some f => default false (files !! f)
  end.
Definition netuio_set_usermode_mapping_flag (file : option nat) (files : list bool) : list bool :=
  match file with
  | None => files
  | Some f => <[f := true]> files
  end.

(** The loop of [netuio_unmap_address_from_user_process]. *)
Fixpoint unmap_regions (hw : list mem_map_region) : M ncall nans (list mem_map_region) :=
  match hw with
  | [] => ret []
  | r :: hw =>
      r <- (if user_mapped_virt_addr r =? NULL then ret r
            else do (MmUnmapLockedPages (user_mapped_virt_addr r) (mdl r)) ;;
                 ret (mk_region (mdl r) (mem_size r) NULL)) ;;
      hw <- unmap_regions hw ;;
      ret (r :: hw)
  end.
Definition netuio_unmap_address_from_user_process (ctx : NETUIO_CONTEXT_DATA) : M ncall nans NETUIO_CONTEXT_DATA :=
  hw <- unmap_regions (dpdk_hw ctx) ;; ret (set_hw hw ctx).

(** The loop of [netuio_map_address_into_user_process]. *)
Fixpoint map_regions (hw : list mem_map_region) : M ncall nans (Z * list mem_map_region) :=
  match hw with
  | [] => ret (STATUS_SUCCESS, [])
  | r :: hw =>
      if mdl r =? NULL then
        '(status, hw) <- map_regions hw ;; ret (status, r :: hw)
      else
        do (MmBuildMdlForNonPagedPool (mdl r)) ;;
        a <- call (MmMapLockedPagesSpecifyCache (mdl r)) ;;
        if c_true (exn a) then ret (exn a, r :: hw)
        else
          let r := mk_region (mdl r) (mem_size r) (val a) in
          if val a =? NULL then ret (STATUS_INSUFFICIENT_RESOURCES, r :: hw)
          else '(status, hw) <- map_regions hw ;; ret (status, r :: hw)
  end.
Definition netuio_map_address_into_user_process (file : option nat) (files : list bool) (ctx : NETUIO_CONTEXT_DATA)
  : M ncall nans (Z * NETUIO_CONTEXT_DATA) :=
  if netuio_get_usermode_mapping_flag file files then ret (STATUS_SUCCESS, ctx)
  else
    '(status, hw) <- map_regions (dpdk_hw ctx) ;;
    let ctx := set_hw hw ctx in
    if negb (status =? STATUS_SUCCESS) then ctx <- netuio_unmap_address_from_user_process ctx ;; ret (status, ctx)
    else ret (status, ctx).

(** The entries of [struct device_info]: physical and user address and size. *)
Definition netuio_handle_get_hw_data_request (ctx : NETUIO_CONTEXT_DATA) : list (Z * ptr * Z) :=
  zip_with (fun b r => (base_addr b, user_mapped_virt_addr r, size b)) (bar ctx) (dpdk_hw ctx).

Definition sizeof_device_info : Z := 6 * 32.
Definition FILE_DEVICE_NETWORK : Z := 18.
(** [CTL_CODE(FILE_DEVICE_NETWORK, n, METHOD_BUFFERED, FILE_READ_ACCESS | FILE_WRITE_ACCESS)]. *)
Definition ctl_code (n : Z) : Z :=
  Z.lor (Z.lor (Z.shiftl FILE_DEVICE_NETWORK 16) (Z.shiftl 3 14)) (Z.shiftl n 2).
Definition IOCTL_NETUIO_MAP_HW_INTO_USERSPACE : Z := ctl_code 51.
Definition IOCTL_NETUIO_PCI_CONFIG_IO : Z := ctl_code 52.

(** Returns the output buffer, when it is written, the context and the file
    objects. *)
Definition netuio_evt_IO_in_caller_context (device_control : bool) (code : Z) (file : option nat) (files : list bool)
    (ctx : NETUIO_CONTEXT_DATA) : M ncall nans (option (list (Z * ptr * Z)) * NETUIO_CONTEXT_DATA * list bool) :=
  let complete (status bytes : Z) := do (WdfRequestCompleteWithInformation status bytes) in
  if negb device_control then complete STATUS_INVALID_DEVICE_REQUEST 0 ;; ret (None, ctx, files)
  else if negb (code =? IOCTL_NETUIO_MAP_HW_INTO_USERSPACE) then
    a <- call WdfDeviceEnqueueRequest ;;
    if negb (NT_SUCCESS (val a)) then complete (val a) 0 ;; ret (None, ctx, files)
    else ret (None, ctx, files)
  else
    a <- call (WdfRequestRetrieveOutputBuffer sizeof_device_info) ;;
    if negb (NT_SUCCESS (val a)) then complete (val a) 0 ;; ret (None, ctx, files)
    else
      let output_buf_size := out a in
      '(status, ctx) <- netuio_map_address_into_user_process file files ctx ;;
      if negb (NT_SUCCESS status) then complete status 0 ;; ret (None, ctx, files)
      else
        let files := netuio_set_usermode_mapping_flag file files in
        complete status output_buf_size ;;
        ret (Some (netuio_handle_get_hw_data_request ctx), ctx, files).

(** [struct dpdk_pci_config_io], the contents of the input buffer. *)
Record dpdk_pci_config_io := { offset : Z; op : Z; access_size : Z; data : Z }.
Definition PCI_IO_READ : Z := 0.
Definition PCI_IO_WRITE : Z := 1.

Definition netuio_evt_IO_device_control (IoControlCode : Z) (input : dpdk_pci_config_io) : M ncall nans (option Z) :=
  let complete (status bytes : Z) := do (WdfRequestCompleteWithInformation status bytes) in
  if negb (IoControlCode =? IOCTL_NETUIO_PCI_CONFIG_IO) then complete STATUS_INVALID_DEVICE_REQUEST 0 ;; ret None
  else
    a <- call (WdfRequestRetrieveInputBuffer 24) ;;
    if negb (NT_SUCCESS (val a)) then complete (val a) 0 ;; ret None
    else if negb (access_size input =? 1) && negb (access_size input =? 2) &&
            negb (access_size input =? 4) && negb (access_size input =? 8) then
      complete STATUS_INVALID_PARAMETER 0 ;; ret None
    else
      a <- call (WdfRequestRetrieveOutputBuffer 8) ;;
      if negb (NT_SUCCESS (val a)) then complete (val a) 0 ;; ret None
      else
        let status_for (n : Z) := if negb (n =? access_size input) then STATUS_INVALID_PARAMETER else val a in
        if op input =? PCI_IO_READ then
          a <- call (GetBusData (offset input) (access_size input)) ;;
          complete (status_for (val a)) (val a) ;;
          ret (Some (out a mod 2 ^ (8 * access_size input)))
        else if op input =? PCI_IO_WRITE then
          a <- call (SetBusData (data input) (offset input) (access_size input)) ;;
          complete (status_for (val a)) (val a) ;;
          ret None
        else complete STATUS_INVALID_PARAMETER 0 ;; ret None.

(** [netuio_evt_file_cleanup]: the last handle of a file object is closed. *)
Definition netuio_evt_file_cleanup (file : nat) (files : list bool) (ctx : NETUIO_CONTEXT_DATA)
  : M ncall nans (NETUIO_CONTEXT_DATA * list bool) :=
  if default false (files !! file) then
    ctx <- netuio_unmap_address_from_user_process ctx ;; ret (ctx, <[file := false]> files)
  else ret (ctx, files).
End code.

(** ** Resources *)
Inductive resource :=
| RIo (p : ptr)          (* MmMapIoSpace *)
| RMdl (p : ptr)         (* IoAllocateMdl *)
| RUser (p m : ptr).     (* a user-mode mapping at [p] of the MDL [m] *)

Definition one (b : bool) : Z := if b then 1 else 0.

Definition effect (r : resource) (c : ncall) (a : nans) : Z :=
  match r, c with
  | RIo p, MmMapIoSpace _ _ => one (negb (val a =? NULL) && (val a =? p))
  | RIo p, MmUnmapIoSpace q _ => - one (q =? p)
  | RMdl p, IoAllocateMdl _ _ => one (negb (val a =? NULL) && (val a =? p))
  | RMdl p, IoFreeMdl q => - one (q =? p)
  | RUser p m, MmMapLockedPagesSpecifyCache n =>
      one (negb (c_true (exn a)) && negb (val a =? NULL) && (val a =? p) && (n =? m))
  | RUser p m, MmUnmapLockedPages q n => - one ((q =? p) && (n =? m))
  | _, _ => 0
  end.
#[local] Abbreviation held := (held_of effect).

Definition own_bar (r : resource) (b : pci_bar) : Z :=
  match r with RIo p => one (negb (virt_addr b =? NULL) && (virt_addr b =? p)) | _ => 0 end.
Definition own_region (r : resource) (g : mem_map_region) : Z :=
  match r with RMdl p => one (negb (mdl g =? NULL) && (mdl g =? p)) | _ => 0 end.
Definition own_user (r : resource) (g : mem_map_region) : Z :=
  match r with
  | RUser p m => one (negb (user_mapped_virt_addr g =? NULL) && (user_mapped_virt_addr g =? p) && (mdl g =? m))
  | _ => 0
  end.
(** The hardware resources of a device, and its user-mode mappings. *)
Definition owned (r : resource) (ctx : NETUIO_CONTEXT_DATA) : Z :=
  zsum (map (own_bar r) (bar ctx)) + zsum (map (own_region r) (dpdk_hw ctx)).
Definition mapped (r : resource) (ctx : NETUIO_CONTEXT_DATA) : Z := zsum (map (own_user r) (dpdk_hw ctx)).

Section proofs.
Context `{Env ncall nans}.

Ltac prog := unfold bind, do, call, ret; cbv beta iota zeta.

(** A path that does not return [STATUS_SUCCESS]. *)
Ltac failed := cbn; intros; discriminate.

Definition well_sized (ctx : NETUIO_CONTEXT_DATA) : Prop :=
  length (bar ctx) = PCI_MAX_BAR /\ length (dpdk_hw ctx) = PCI_MAX_BAR.

Lemma free_regions_held r hw : forall bars t,
  length bars = length hw ->
  held r (free_regions bars hw t).2 = held r t - zsum (map (own_bar r) bars) - zsum (map (own_region r) hw).
Proof.
  induction hw as [|g hw IH]; intros [|b bars] t Hl; try done; [simpl; lia|]. injection Hl as Hl.
  cbn [free_regions]. prog.
  destruct (mdl g =? NULL) eqn:Em, (virt_addr b =? NULL) eqn:Ev; cbv beta iota;
    rewrite IH by done; rewrite ?held_cons; cbn [map zsum]; unfold own_bar at 2, own_region at 2;
    destruct r; simpl; rewrite ?Em, ?Ev; simpl; lia.
Qed.

Lemma free_hw_held r ctx t : well_sized ctx -> held r (netuio_free_hw_resources ctx t).2 = held r t - owned r ctx.
Proof.
  intros [Hb Hh]. unfold netuio_free_hw_resources, bind. pose proof (free_regions_held r (dpdk_hw ctx) (bar ctx) t) as Hf.
  destruct (free_regions (bar ctx) (dpdk_hw ctx) t) as [[] t']. simpl in *. rewrite Hf by congruence. unfold owned. lia.
Qed.

Lemma free_hw_result ctx t : (netuio_free_hw_resources ctx t).1 = zero_arrays ctx.
Proof. unfold netuio_free_hw_resources, bind. by destruct (free_regions (bar ctx) (dpdk_hw ctx) t) as [[] t']. Qed.

(** The slots from [i] on are free. *)
Definition free_from (i : nat) (ctx : NETUIO_CONTEXT_DATA) : Prop :=
  well_sized ctx /\
  (forall k b, bar ctx !! k = Some b -> (i <= k)%nat -> b = zero_bar) /\
  (forall k g, dpdk_hw ctx !! k = Some g -> (i <= k)%nat -> g = zero_region).

Lemma free_from_le i j ctx : (i <= j)%nat -> free_from i ctx -> free_from j ctx.
Proof.
  intros Hij (Hw & Hb & Hh). split; [done|]. split; intros k x Hx Hk; [eapply Hb|eapply Hh]; try done; lia.
Qed.

Lemma free_from_bar i b ctx : free_from i ctx -> free_from (S i) (set_bar i b ctx).
Proof.
  intros ((H1' & H2') & Hb & Hh). split; [split; simpl; by rewrite ?length_insert|]. split; simpl; intros k x Hx Hk.
  - rewrite list_lookup_insert_ne in Hx by lia. eapply Hb; [done|lia].
  - eapply Hh; [done|lia].
Qed.

Lemma free_from_region i g ctx : free_from (S i) ctx -> free_from (S i) (set_region i g ctx).
Proof.
  intros ((H1' & H2') & Hb & Hh). split; [split; simpl; by rewrite ?length_insert|]. split; simpl; intros k x Hx Hk.
  - eapply Hb; [done|lia].
  - rewrite list_lookup_insert_ne in Hx by lia. eapply Hh; [done|lia].
Qed.

Lemma own_set_bar r i b ctx :
  free_from i ctx -> (i < PCI_MAX_BAR)%nat -> owned r (set_bar i b ctx) = owned r ctx + own_bar r b.
Proof.
  intros ((Hl & _) & Hb & _) Hi. destruct (bar ctx !! i) as [b0|] eqn:E.
  - pose proof (Hb i b0 E ltac:(lia)) as ->. unfold owned. simpl. rewrite (zsum_map_insert _ _ _ _ _ E).
    assert (own_bar r zero_bar = 0) by (by destruct r). lia.
  - apply lookup_ge_None in E. lia.
Qed.

Lemma own_set_region r i g ctx :
  dpdk_hw ctx !! i = Some zero_region -> owned r (set_region i g ctx) = owned r ctx + own_region r g.
Proof.
  intros E. unfold owned. simpl. rewrite (zsum_map_insert _ _ _ _ _ E).
  assert (own_region r zero_region = 0) by (by destruct r). lia.
Qed.

Lemma free_region_lookup i ctx : free_from i ctx -> (i < PCI_MAX_BAR)%nat -> dpdk_hw ctx !! i = Some zero_region.
Proof.
  intros ((_ & Hl) & _ & Hh) Hi. destruct (dpdk_hw ctx !! i) as [g|] eqn:E.
  - f_equal. by eapply Hh.
  - apply lookup_ge_None in E. lia.
Qed.

Lemma map_bars_held r values : forall i ds ctx t,
  free_from i ctx -> (i + length values <= PCI_MAX_BAR)%nat ->
  let '((status, ctx'), t') := map_bars values i ds ctx t in
  held r t' - owned r ctx' = held r t - owned r ctx /\ well_sized ctx'.
Proof.
  induction values as [values IH] using (induction_ltof1 _ (@length Z)). unfold ltof in IH.
  intros i ds ctx t Hf Hi. destruct values as [|v values]; [split; [done|apply Hf]|]. cbn [map_bars length] in *.
  destruct (v =? 0). { apply IH; [lia| |lia]. eapply free_from_le; [|done]. lia. }
  destruct (next_memory ds) as [[d ds']|]; [|split; [done|apply Hf]].
  unfold bind at 1, call at 1. set (a1 := answer t _). set (t1 := _ :: t). set (b := mk_bar (Start d) (val a1) (Length d)).
  assert (free_from (S i) (set_bar i b ctx)) as Hf1 by (by apply free_from_bar).
  assert (held r t1 - owned r (set_bar i b ctx) = held r t - owned r ctx) as E1.
  { rewrite own_set_bar by (done || lia). unfold t1. rewrite held_cons. destruct r; simpl; lia. }
  assert (dpdk_hw (set_bar i b ctx) !! i = Some zero_region) as Er by (apply (free_region_lookup i ctx); [done|lia]).
  destruct (val a1 =? NULL); [split; [done|apply Hf1]|].
  unfold bind at 1, call at 1. set (a2 := answer t1 _). set (t2 := _ :: t1).
  destruct (val a2 =? NULL) eqn:Em.
  { split; [|apply Hf1]. rewrite <- E1. unfold t2. rewrite held_cons. destruct r; simpl; rewrite ?Em; simpl; lia. }
  set (g := mk_region (val a2) (Length d) NULL) in *.
  assert (free_from (S i) (set_region i g (set_bar i b ctx))) as Hf2 by (by apply free_from_region).
  assert (held r t2 - owned r (set_region i g (set_bar i b ctx)) = held r t - owned r ctx) as E2.
  { rewrite own_set_region by done. unfold t2. rewrite held_cons. destruct r; simpl in *; lia. }
  rewrite <- E2. destruct (c_true _).
  - destruct values as [|v' values]; [split; [done|apply Hf2]|]. simpl in *. apply IH; [lia| |lia].
    eapply free_from_le; [|done]. lia.
  - apply IH; [lia|done|lia].
Qed.

Definition no_hardware (ctx : NETUIO_CONTEXT_DATA) : Prop :=
  bar ctx = replicate PCI_MAX_BAR zero_bar /\ dpdk_hw ctx = replicate PCI_MAX_BAR zero_region.

Lemma no_hardware_free ctx : no_hardware ctx -> free_from 0 ctx.
Proof.
  intros [Hb Hh]. split; [split; [by rewrite Hb|by rewrite Hh]|]. rewrite Hb, Hh. split; intros k x Hx _;
    by apply lookup_replicate in Hx as [-> _].
Qed.

Lemma no_hardware_owned r ctx : no_hardware ctx -> owned r ctx = 0.
Proof. intros [Hb Hh]. unfold owned. rewrite Hb, Hh. by destruct r. Qed.

(** Preparing and releasing the hardware is balanced: a preparation that
    fails, for whatever reason, has unmapped every BAR and freed every MDL it
    made, and after one that succeeds the release does. *)
Theorem netuio_prepare_release_balanced (ds : list descriptor) (ctx : NETUIO_CONTEXT_DATA) (t : list (ncall * nans)) :
  no_hardware ctx ->
  let '((status, ctx1), t1) := netuio_evt_prepare_hw ds ctx t in
  if status =? STATUS_SUCCESS then
    let '((_, ctx2), t2) := netuio_evt_release_hw ctx1 t1 in
    no_hardware ctx2 /\ forall p, held (RIo p) t2 = held (RIo p) t /\ held (RMdl p) t2 = held (RMdl p) t
  else no_hardware ctx1 /\ forall p, held (RIo p) t1 = held (RIo p) t /\ held (RMdl p) t1 = held (RMdl p) t.
Proof.
  intros Hn. pose proof (no_hardware_free _ Hn) as Hf0.
  assert (forall ctx' u, well_sized ctx' ->
    (forall r, (forall p m, r <> RUser p m) -> held r u - owned r ctx' = held r t) ->
    no_hardware (netuio_free_hw_resources ctx' u).1 /\
    forall p, held (RIo p) (netuio_free_hw_resources ctx' u).2 = held (RIo p) t /\
              held (RMdl p) (netuio_free_hw_resources ctx' u).2 = held (RMdl p) t) as Hfree.
  { intros ctx' u Hw Hu. split; [by rewrite free_hw_result|]. intros p. rewrite !free_hw_held by done.
    pose proof (Hu (RIo p) ltac:(intros; discriminate)). pose proof (Hu (RMdl p) ltac:(intros; discriminate)). lia. }
  unfold netuio_evt_prepare_hw, netuio_map_hw_resources. unfold bind at 1, call at 1.
  set (a := answer t _). set (t1 := _ :: t).
  assert (forall r, held r t1 = held r t) as Ht1 by (intros r; unfold t1; rewrite held_cons; destruct r; simpl; lia).
  destruct (negb (val a =? sizeof_PCI_COMMON_HEADER)).
  { unfold bind, ret. specialize (Hfree ctx t1 (proj1 Hf0)). destruct (netuio_free_hw_resources ctx t1) as [ctx' t2].
    apply Hfree. intros r _. rewrite no_hardware_owned, Ht1 by done. lia. }
  assert (no_hardware (zero_arrays ctx)) as Hz by done.
  pose proof (fun r => map_bars_held r (take PCI_MAX_BAR (words a)) 0 ds (zero_arrays ctx) t1 (no_hardware_free _ Hz)) as Hm.
  unfold bind at 1. destruct (map_bars (take PCI_MAX_BAR (words a)) 0 ds (zero_arrays ctx) t1) as [[status ctx1] t2].
  assert (forall r, held r t2 - owned r ctx1 = held r t /\ well_sized ctx1) as Hm'.
  { intros r. destruct (Hm r) as [Hh Hw]; [rewrite length_take; lia|]. rewrite (no_hardware_owned r (zero_arrays ctx) Hz), Ht1 in Hh.
    split; [lia|done]. }
  clear Hm. pose proof (proj2 (Hm' (RIo 0))) as Hw. specialize (Hfree ctx1 t2 Hw (fun r _ => proj1 (Hm' r))).
  destruct (Z.eqb_spec status STATUS_SUCCESS) as [->|Hs]; cbn [negb].
  - unfold ret at 1. cbv beta iota. rewrite Z.eqb_refl. unfold netuio_evt_release_hw, bind, ret.
    destruct (netuio_free_hw_resources ctx1 t2) as [ctx2 t3]. exact Hfree.
  - unfold bind, ret. destruct (netuio_free_hw_resources ctx1 t2) as [ctx2 t3].
    apply Z.eqb_neq in Hs. rewrite Hs. exact Hfree.
Qed.

(** *** Which BAR goes where *)

(** The slots at which a BAR begins: a 64-bit BAR takes two. *)
Fixpoint bar_starts (values : list Z) : list bool :=
  match values with
  | [] => []
  | v :: values =>
      if v =? 0 then false :: bar_starts values
      else true :: (if c_true (Z.land v PCI_TYPE_64BIT) then
                      match values with [] => [] | _ :: values => false :: bar_starts values end
                    else bar_starts values)
  end.

(** The memory resources in order on the slots at which a BAR begins. *)
Fixpoint place (starts : list bool) (ms : list descriptor) : list (Z * Z) :=
  match starts with
  | [] => []
  | false :: starts => (0, 0) :: place starts ms
  | true :: starts =>
      match ms with
      | m :: ms => (Start m, Length m) :: place starts ms
      | [] => (0, 0) :: place starts []
      end
  end.

Definition memory_bars (ds : list descriptor) : list descriptor :=
  List.filter (fun d => is_memory d && is_memory_bar d) ds.

Lemma next_memory_spec ds :
  match next_memory ds with
  | None => memory_bars ds = []
  | Some (d, ds') => memory_bars ds = d :: memory_bars ds'
  end.
Proof. induction ds as [|d ds IH]; simpl; [done|]. by destruct (is_memory d && is_memory_bar d). Qed.

Definition bar_view (b : pci_bar) : Z * Z := (base_addr b, size b).

(** The first slots are filled with [pre], the others are free. *)
Definition filled (pre : list (Z * Z)) (ctx : NETUIO_CONTEXT_DATA) : Prop :=
  map bar_view (bar ctx) = pre ++ replicate (PCI_MAX_BAR - length pre) (0, 0) /\
  map mem_size (dpdk_hw ctx) = map snd pre ++ replicate (PCI_MAX_BAR - length pre) 0.

Lemma filled_skip pre ctx : (length pre < PCI_MAX_BAR)%nat -> filled pre ctx -> filled (pre ++ [(0, 0)]) ctx.
Proof.
  intros Hl [Hb Hh]. unfold filled. rewrite Hb, Hh, length_app, map_app, <- !app_assoc. simpl length.
  replace (PCI_MAX_BAR - length pre)%nat with (S (PCI_MAX_BAR - (length pre + 1))) by lia. done.
Qed.

Lemma filled_set pre d m v ctx :
  (length pre < PCI_MAX_BAR)%nat -> filled pre ctx ->
  filled (pre ++ [(Start d, Length d)])
    (set_region (length pre) (mk_region m (Length d) NULL) (set_bar (length pre) (mk_bar (Start d) v (Length d)) ctx)).
Proof.
  intros Hl [Hb Hh]. unfold filled. simpl.
  change (map bar_view ?l) with (bar_view <$> l). change (map mem_size ?l) with (mem_size <$> l).
  rewrite !list_fmap_insert. change (bar_view <$> bar ctx) with (map bar_view (bar ctx)).
  change (mem_size <$> dpdk_hw ctx) with (map mem_size (dpdk_hw ctx)). rewrite Hb, Hh, length_app, map_app. simpl length.
  rewrite Nat.sub_add_distr. split; [by apply (replicate_insert _ _ pre); lia|].
  rewrite <- (length_map snd pre) at 1. apply replicate_insert. lia.
Qed.

Lemma map_bars_place values : forall pre ds ctx t,
  filled pre ctx -> (length pre + length values = PCI_MAX_BAR)%nat ->
  let '((status, ctx'), t') := map_bars values (length pre) ds ctx t in
  status = STATUS_SUCCESS -> filled (pre ++ place (bar_starts values) (memory_bars ds)) ctx'.
Proof.
  induction values as [values IH] using (induction_ltof1 _ (@length Z)). unfold ltof in IH.
  intros pre ds ctx t Hf Hl. destruct values as [|v values]; [simpl; by rewrite app_nil_r|]. cbn [map_bars bar_starts length] in *.
  assert (forall x ctx ds t, filled (pre ++ [x]) ctx ->
    let '((status, ctx'), t') := map_bars values (S (length pre)) ds ctx t in
    status = STATUS_SUCCESS -> filled (pre ++ x :: place (bar_starts values) (memory_bars ds)) ctx') as IH1.
  { intros x ctx1 ds1 t1 Hf1. specialize (IH values ltac:(simpl; lia) (pre ++ [x]) ds1 ctx1 t1 Hf1).
    rewrite length_app in IH. simpl in IH. rewrite Nat.add_1_r, <- app_assoc in IH. apply IH. lia. }
  destruct (v =? 0); [apply IH1, filled_skip; [lia|done]|].
  pose proof (next_memory_spec ds) as Hd. destruct (next_memory ds) as [[d ds']|]; [|failed].
  rewrite Hd. unfold bind at 1, call at 1. set (a1 := answer t _). set (t1 := _ :: t).
  destruct (val a1 =? NULL); [failed|]. unfold bind at 1, call at 1. set (a2 := answer t1 _). set (t2 := _ :: t1).
  destruct (val a2 =? NULL); [failed|].
  pose proof (filled_set pre d (val a2) (val a1) ctx ltac:(lia) Hf) as Hf2.
  destruct (c_true _); [|by apply IH1]. destruct values as [|v' values]; [by intros _|].
  cbn [place length] in *. set (x := (Start d, Length d)) in *.
  assert (filled (pre ++ [x; (0, 0)]) (set_region (length pre) (mk_region (val a2) (Length d) NULL)
    (set_bar (length pre) (mk_bar (Start d) (val a1) (Length d)) ctx))) as Hf3.
  { change [x; (0, 0)] with ([x] ++ [(0, 0)]). rewrite app_assoc. apply filled_skip; [rewrite length_app; simpl; lia|done]. }
  specialize (IH values ltac:(simpl; lia) (pre ++ [x; (0, 0)]) ds' _ t2 Hf3). rewrite length_app in IH. simpl in IH.
  replace (length pre + 2)%nat with (S (S (length pre))) in IH by lia. rewrite <- app_assoc in IH. apply IH. lia.
Qed.

(** Where the BARs go: after a successful mapping the slots of the physical
    BAR numbers hold, in order, the memory resources of the device, a 64-bit BAR
    taking two slots of which the second stays empty, and all other slots are
    empty. *)
Theorem netuio_bars_placed (ds : list descriptor) (ctx : NETUIO_CONTEXT_DATA) (t : list (ncall * nans)) :
  let values := words (answer t (GetBusData 0 sizeof_PCI_COMMON_HEADER)) in
  length values = PCI_MAX_BAR ->
  let '((status, ctx'), t') := netuio_evt_prepare_hw ds ctx t in
  status = STATUS_SUCCESS ->
  map bar_view (bar ctx') = place (bar_starts values) (memory_bars ds) /\
  map mem_size (dpdk_hw ctx') = map snd (place (bar_starts values) (memory_bars ds)).
Proof.
  intros values Hv. unfold netuio_evt_prepare_hw, netuio_map_hw_resources. unfold bind at 1, call at 1. fold values.
  set (a := answer t _). change (words a) with values. destruct (negb _).
  { unfold bind, ret. by destruct (netuio_free_hw_resources ctx _). }
  rewrite (take_ge values) by lia. unfold bind at 1.
  match goal with |- context [map_bars values 0 ds (zero_arrays ctx) ?u] =>
    pose proof (map_bars_place values [] ds (zero_arrays ctx) u ltac:(done) Hv) as Hm; simpl length in Hm;
    destruct (map_bars values 0 ds (zero_arrays ctx) u) as [[status ctx1] t2] end.
  destruct (Z.eqb_spec status STATUS_SUCCESS) as [->|Hs]; cbn [negb].
  - unfold ret. intros _. specialize (Hm eq_refl) as [Hb Hh]. rewrite Hb, Hh. simpl app in *.
    assert (forall vs ms, length (place (bar_starts vs) ms) = length vs) as Hlen.
    { induction vs as [vs IH] using (induction_ltof1 _ (@length Z)). unfold ltof in IH. intros ms.
      destruct vs as [|v vs]; [done|]. simpl. destruct (v =? 0); simpl; [rewrite IH by (simpl; lia); done|].
      destruct ms as [|m ms]; (destruct (c_true _); [destruct vs as [|v' vs]; [done|]|]); simpl;
        rewrite IH by (simpl; lia); done. }
    rewrite Hlen, Hv, Nat.sub_diag. simpl. by rewrite !app_nil_r.
  - unfold bind, ret. destruct (netuio_free_hw_resources ctx1 t2) as [ctx2 t3]. done.
Qed.

(** *** User-mode mappings *)
Definition users (r : resource) (hw : list mem_map_region) : Z := zsum (map (own_user r) hw).
Definition unmapped (hw : list mem_map_region) : Prop := Forall (fun g => user_mapped_virt_addr g = NULL) hw.

Lemma unmap_regions_held hw : forall t,
  let '(hw', t') := unmap_regions hw t in
  unmapped hw' /\ forall r, held r t' = held r t - users r hw.
Proof.
  induction hw as [|g hw IH]; intros t; [split; [by constructor|]; intros r; unfold users; simpl; lia|].
  cbn [unmap_regions]. unfold bind at 1.
  assert (exists g' t1, (if user_mapped_virt_addr g =? NULL then ret g
      else do (MmUnmapLockedPages (user_mapped_virt_addr g) (mdl g)) ;; ret (mk_region (mdl g) (mem_size g) NULL)) t = (g', t1) /\
      user_mapped_virt_addr g' = NULL /\ forall r, held r t1 = held r t - own_user r g) as (g' & t1 & -> & Hg & Ht).
  { destruct (user_mapped_virt_addr g =? NULL) eqn:E; eexists _, _; (split; [reflexivity|]).
    - split; [by apply Z.eqb_eq|]. intros r. destruct r; simpl; rewrite ?E; simpl; lia.
    - split; [done|]. intros r. rewrite held_cons. destruct r; simpl; rewrite ?E; simpl; lia. }
  unfold bind. specialize (IH t1). destruct (unmap_regions hw t1) as [hw' t2]. destruct IH as [Hu Hh].
  split; [by constructor|]. intros r. rewrite Hh, Ht. unfold users. simpl. lia.
Qed.

Lemma map_regions_held hw : forall t,
  unmapped hw ->
  let '((status, hw'), t') := map_regions hw t in
  forall r, held r t' = held r t + users r hw'.
Proof.
  assert (forall r hw, unmapped hw -> users r hw = 0) as Hz.
  { intros r l Hl. unfold users. induction Hl as [|g l Hg Hl IH]; simpl; [done|]. rewrite IH. unfold own_user. rewrite Hg.
    destruct r; simpl; lia. }
  induction hw as [|g hw IH]; intros t Hu; [intros r; unfold users; simpl; lia|].
  inversion_clear Hu as [|? ? Hg Hhw]. cbn [map_regions].
  assert (forall r, own_user r g = 0) as Hg0 by (intros r; unfold own_user; rewrite Hg; by destruct r).
  destruct (mdl g =? NULL).
  - unfold bind. specialize (IH t Hhw). destruct (map_regions hw t) as [[status hw'] t']. intros r.
    unfold users in *. simpl. rewrite Hg0, IH. lia.
  - unfold bind at 1, do at 1. unfold bind at 1, call at 1. set (t0 := _ :: t). set (a := answer t0 _). set (t1 := _ :: t0).
    assert (forall r, held r t1 = held r t + match r with RUser p m =>
      one (negb (c_true (exn a)) && negb (val a =? NULL) && (val a =? p) && (mdl g =? m)) | _ => 0 end) as Ht1.
    { intros r. unfold t1, t0. rewrite !held_cons. destruct r; simpl; lia. }
    destruct (c_true (exn a)).
    + intros r. unfold users. simpl. rewrite Hg0, Ht1. fold (users r hw). rewrite Hz by done. destruct r; simpl; lia.
    + destruct (val a =? NULL) eqn:Ea.
      * intros r. rewrite Ht1. unfold users. simpl. fold (users r hw). rewrite Hz by done. unfold own_user. simpl. rewrite Ea.
        destruct r; simpl; lia.
      * unfold bind. specialize (IH t1 Hhw). destruct (map_regions hw t1) as [[status hw'] t2]. intros r.
        rewrite IH, Ht1. unfold users. simpl. unfold own_user at 2. simpl. rewrite Ea. destruct r; simpl; lia.
Qed.

(** A process that has the device open once: it asks for the mapping and closes
    its handle, in any order. *)
Inductive user_op := MapRequest | Close.
Fixpoint sessions (ops : list user_op) (ctx : NETUIO_CONTEXT_DATA) (files : list bool)
  : M ncall nans (NETUIO_CONTEXT_DATA * list bool) :=
  match ops with
  | [] => ret (ctx, files)
  | MapRequest :: ops =>
      '(_, ctx, files) <- netuio_evt_IO_in_caller_context true IOCTL_NETUIO_MAP_HW_INTO_USERSPACE (Some 0%nat) files ctx ;;
      sessions ops ctx files
  | Close :: ops => '(ctx, files) <- netuio_evt_file_cleanup 0 files ctx ;; sessions ops ctx files
  end.

(** What a mapping request leaves. *)
Definition session_ok (t0 : list (ncall * nans)) (ctx : NETUIO_CONTEXT_DATA) (files : list bool)
    (t : list (ncall * nans)) : Prop :=
  exists m : bool, files = [m] /\ (m = false -> unmapped (dpdk_hw ctx)) /\
    forall p l, held (RUser p l) t = held (RUser p l) t0 + mapped (RUser p l) ctx.

Lemma unmapped_users r hw : unmapped hw -> users r hw = 0.
Proof.
  intros Hl. unfold users. induction Hl as [|g l Hg Hl IH]; simpl; [done|]. rewrite IH. unfold own_user. rewrite Hg.
  destruct r; simpl; lia.
Qed.

Lemma complete_held p l status n a t : held (RUser p l) ((WdfRequestCompleteWithInformation status n, a) :: t) = held (RUser p l) t.
Proof. rewrite held_cons. simpl. lia. Qed.

Lemma map_request_ok t0 ctx files t :
  session_ok t0 ctx files t ->
  let '((_, ctx', files'), t') :=
    netuio_evt_IO_in_caller_context true IOCTL_NETUIO_MAP_HW_INTO_USERSPACE (Some 0%nat) files ctx t in
  session_ok t0 ctx' files' t'.
Proof.
  intros (m & -> & Hm & Hh). unfold netuio_evt_IO_in_caller_context. cbn [negb]. rewrite Z.eqb_refl. cbn [negb].
  unfold bind at 1, call at 1. set (a := answer t _). set (t1 := _ :: t).
  assert (forall p l, held (RUser p l) t1 = held (RUser p l) t) as Ht1 by (intros; unfold t1; rewrite held_cons; simpl; lia).
  destruct (NT_SUCCESS (val a)); cbn [negb].
  2: { exists m. split; [done|]. split; [done|]. intros p l. rewrite complete_held, Ht1. apply Hh. }
  unfold bind at 1. unfold netuio_map_address_into_user_process. change (netuio_get_usermode_mapping_flag (Some 0%nat) [m]) with m. destruct m.
  { unfold ret at 1. cbv beta iota. cbn. exists true. split; [done|]. split; [done|]. intros p l.
    rewrite complete_held, Ht1. apply Hh. }
  unfold bind at 1. pose proof (map_regions_held (dpdk_hw ctx) t1 (Hm eq_refl)) as Hr.
  destruct (map_regions (dpdk_hw ctx) t1) as [[status hw] t2].
  assert (forall p l, held (RUser p l) t2 = held (RUser p l) t0 + users (RUser p l) hw) as Ht2.
  { intros p l. rewrite Hr, Ht1, Hh. unfold mapped. fold (users (RUser p l) (dpdk_hw ctx)).
    rewrite unmapped_users by auto. lia. }
  destruct (Z.eqb_spec status STATUS_SUCCESS) as [->|Hs]; cbn [negb].
  - unfold ret at 1. cbn. exists true. split; [done|]. split; [done|]. intros p l. rewrite complete_held. apply Ht2.
  - unfold netuio_unmap_address_from_user_process. unfold bind at 1 2. cbn [dpdk_hw set_hw].
    pose proof (unmap_regions_held hw t2) as Hu. destruct (unmap_regions hw t2) as [hw' t3]. destruct Hu as [Hu Ht3].
    assert (forall p l, held (RUser p l) t3 = held (RUser p l) t0) as Ht3' by (intros p l; rewrite Ht3, Ht2; lia).
    assert (forall p l, mapped (RUser p l) (set_hw hw' (set_hw hw ctx)) = 0) as Hz
      by (intros p l; by apply unmapped_users).
    unfold ret at 1 2. cbv beta iota. destruct (NT_SUCCESS status); cbn [negb].
    + exists true. split; [done|]. split; [done|]. intros p l. rewrite complete_held, Hz, Ht3'. lia.
    + exists false. split; [done|]. split; [done|]. intros p l. rewrite complete_held, Hz, Ht3'. lia.
Qed.

Lemma close_ok t0 ctx files t :
  session_ok t0 ctx files t ->
  let '((ctx', files'), t') := netuio_evt_file_cleanup 0 files ctx t in
  session_ok t0 ctx' files' t' /\ files' = [false].
Proof.
  intros (m & -> & Hm & Hh). unfold netuio_evt_file_cleanup. simpl. destruct m; [|split; [by exists false|done]].
  unfold netuio_unmap_address_from_user_process. unfold bind.
  pose proof (unmap_regions_held (dpdk_hw ctx) t) as Hu. destruct (unmap_regions (dpdk_hw ctx) t) as [hw t1].
  destruct Hu as [Hu Ht]. unfold ret. split; [|done]. exists false. split; [done|]. split; [done|]. intros p l.
  rewrite Ht, Hh. unfold mapped, users in *. simpl. fold (users (RUser p l) hw). rewrite unmapped_users by done. lia.
Qed.

(** For a process with one handle: whatever it asks for and whatever
    mappings fail, once the handle is closed every user-mode mapping that was
    made has been removed, and none has been removed twice. *)
Theorem netuio_mapping_sessions (ops : list user_op) (ctx : NETUIO_CONTEXT_DATA) (t : list (ncall * nans)) :
  unmapped (dpdk_hw ctx) ->
  let '((ctx', files'), t') := sessions (ops ++ [Close]) ctx [false] t in
  files' = [false] /\ unmapped (dpdk_hw ctx') /\ forall p l, held (RUser p l) t' = held (RUser p l) t.
Proof.
  intros Hu.
  assert (forall ops ctx files u, session_ok t ctx files u ->
    let '((ctx', files'), t') := sessions (ops ++ [Close]) ctx files u in
    session_ok t ctx' files' t' /\ files' = [false]) as Hs.
  { clear. induction ops as [|[|] ops IH]; intros ctx files u Hok; simpl.
    - unfold bind. pose proof (close_ok t ctx files u Hok) as Hc.
      by destruct (netuio_evt_file_cleanup 0 files ctx u) as [[ctx' files'] t'].
    - unfold bind. pose proof (map_request_ok t ctx files u Hok) as Hc.
      destruct (netuio_evt_IO_in_caller_context true _ _ files ctx u) as [[[o ctx'] files'] t']. by apply IH.
    - unfold bind. pose proof (close_ok t ctx files u Hok) as Hc.
      destruct (netuio_evt_file_cleanup 0 files ctx u) as [[ctx' files'] t']. apply IH, Hc. }
  assert (session_ok t ctx [false] t) as Hok.
  { exists false. split; [done|]. split; [done|]. intros p l. unfold mapped. fold (users (RUser p l) (dpdk_hw ctx)).
    rewrite unmapped_users by done. lia. }
  specialize (Hs ops ctx [false] t Hok). destruct (sessions (ops ++ [Close]) ctx [false] t) as [[ctx' files'] t'].
  destruct Hs as [(m & Hf & Hm & Hh) ->]. injection Hf as <-. split; [done|]. split; [by apply Hm|]. intros p l.
  rewrite Hh. unfold mapped. fold (users (RUser p l) (dpdk_hw ctx')). rewrite unmapped_users by auto. lia.
Qed.

(** *** The configuration space *)
(** The completions of a trace. *)
Definition completions (t : list (ncall * nans)) : list (Z * Z) :=
  omap (fun ca => match ca.1 with WdfRequestCompleteWithInformation status n => Some (status, n) | _ => None end) t.

(** An access to the configuration space is completed exactly once, on every
    path; a status of success is only reported for an access of 1, 2, 4 or 8 bytes
    that transferred that many bytes, and the value of a read has no more. *)
Theorem netuio_config_access (code : Z) (input : dpdk_pci_config_io) (t : list (ncall * nans)) :
  0 <= access_size input ->
  let '(o, t') := netuio_evt_IO_device_control code input t in
  exists status n, completions t' = (status, n) :: completions t /\
    (NT_SUCCESS status = true -> n = access_size input /\ access_size input ∈ [1; 2; 4; 8]) /\
    (forall v, o = Some v -> op input = PCI_IO_READ /\ 0 <= v < 2 ^ (8 * access_size input)).
Proof.
  intros Hn. unfold netuio_evt_IO_device_control. cbv zeta.
  destruct (negb (code =? IOCTL_NETUIO_PCI_CONFIG_IO)); [by eexists _, _|].
  unfold bind at 1, call at 1. set (a := answer t _). destruct (NT_SUCCESS (val a)) eqn:Ea; cbn [negb].
  2: { exists (val a), 0. split; [done|]. split; [by rewrite Ea|done]. }
  destruct (_ && negb (access_size input =? 8)) eqn:Es; [by eexists _, _|].
  assert (access_size input ∈ [1; 2; 4; 8]) as Hs.
  { rewrite !elem_of_cons. repeat case_Z; auto; done. }
  unfold bind at 1, call at 1. set (t1 := _ :: t). set (a1 := answer t1 _). destruct (NT_SUCCESS (val a1)) eqn:Ea1; cbn [negb].
  2: { exists (val a1), 0. split; [done|]. split; [by rewrite Ea1|done]. }
  assert (forall n, NT_SUCCESS (if negb (n =? access_size input) then STATUS_INVALID_PARAMETER else val a1) = true ->
    n = access_size input /\ access_size input ∈ [1; 2; 4; 8]) as Hst.
  { intros n. destruct (Z.eqb_spec n (access_size input)); simpl; done. }
  destruct (Z.eqb_spec (op input) PCI_IO_READ) as [Er|Er].
  - prog. eexists _, _. split; [reflexivity|]. split; [apply Hst|]. intros v [= <-]. split; [done|].
    apply Z.mod_pos_bound. apply Z.pow_pos_nonneg; lia.
  - destruct (op input =? PCI_IO_WRITE); prog; eexists _, _; (split; [reflexivity|]); split; try done. apply Hst.
Qed.
End proofs.

(** ** Witnesses *)
Section witnesses.

(** A system that grants every request; the device has a 64-bit BAR and a 32-bit
    BAR. *)
Definition windows (values : list Z) : Env ncall nans := fun t c =>
  let v (x : Z) := {| val := x; out := 0; words := []; exn := 0 |} in
  let fresh := 4096 + Z.of_nat (length t) in
  match c with
  | GetBusData off n => {| val := n; out := 48879; words := values; exn := 0 |}
  | MmMapIoSpace _ _ | IoAllocateMdl _ _ | MmMapLockedPagesSpecifyCache _ => v fresh
  | WdfRequestRetrieveOutputBuffer n => {| val := 0; out := n; words := []; exn := 0 |}
  | _ => v 0
  end.

Definition new_ctx : NETUIO_CONTEXT_DATA :=
  mk_ctx (replicate PCI_MAX_BAR zero_bar) (replicate PCI_MAX_BAR zero_region) 0 0 0.
Definition values64 : list Z := [3221225484; 1; 3355443200; 0; 0; 0].
Definition resources2 : list descriptor :=
  [ {| is_memory := false; is_memory_bar := false; Start := 0; Length := 1 |};
    {| is_memory := true; is_memory_bar := true; Start := 8589934592; Length := 65536 |};
    {| is_memory := true; is_memory_bar := true; Start := 3355443200; Length := 4096 |} ].

Lemma netuio_prepare_release_balanced_witness :
  let '((status, ctx1), t1) := netuio_evt_prepare_hw (H := windows values64) (firstn 2 resources2) new_ctx [] in
  status = STATUS_DEVICE_CONFIGURATION_ERROR /\ no_hardware ctx1 /\ held (RIo 4097) t1 = 0.
Proof.
  assert (no_hardware new_ctx) as Hn by (split; reflexivity).
  pose proof (netuio_prepare_release_balanced (H := windows values64) (firstn 2 resources2) new_ctx [] Hn) as Hs.
  vm_compute in Hs |- *. destruct Hs as [Hc Hh]. split; [reflexivity|]. split; [exact Hc|]. exact (proj1 (Hh 4097)).
Defined.

Lemma netuio_bars_placed_witness :
  let '((status, ctx1), t1) := netuio_evt_prepare_hw (H := windows values64) resources2 new_ctx [] in
  map bar_view (bar ctx1) = [(8589934592, 65536); (0, 0); (3355443200, 4096); (0, 0); (0, 0); (0, 0)].
Proof.
  pose proof (netuio_bars_placed (H := windows values64) resources2 new_ctx [] eq_refl) as Hs.
  vm_compute in Hs |- *. exact (proj1 (Hs eq_refl)).
Defined.

Definition prepared : NETUIO_CONTEXT_DATA :=
  Eval vm_compute in (netuio_evt_prepare_hw (H := windows values64) resources2 new_ctx []).1.2.

Lemma netuio_mapping_sessions_witness :
  let '((ctx', files'), t') := sessions (H := windows values64) ([MapRequest; MapRequest] ++ [Close]) prepared [false] [] in
  files' = [false] /\ unmapped (dpdk_hw ctx').
Proof.
  assert (unmapped (dpdk_hw prepared)) as Hu by (repeat constructor).
  pose proof (netuio_mapping_sessions (H := windows values64) [MapRequest; MapRequest] prepared [] Hu) as Hs.
  destruct (sessions ([MapRequest; MapRequest] ++ [Close]) prepared [false] []) as [[ctx' files'] t'].
  destruct Hs as (Hf & Hc & _). split; [exact Hf|exact Hc].
Defined.

Lemma netuio_config_access_witness :
  exists status n, completions (netuio_evt_IO_device_control (H := windows values64) IOCTL_NETUIO_PCI_CONFIG_IO
    {| offset := 0; op := 0; access_size := 2; data := 0 |} []).2 = [(status, n)] /\ (NT_SUCCESS status = true -> n = 2).
Proof.
  pose proof (netuio_config_access (H := windows values64) IOCTL_NETUIO_PCI_CONFIG_IO
    {| offset := 0; op := 0; access_size := 2; data := 0 |} [] ltac:(discriminate)) as Hs.
  destruct (netuio_evt_IO_device_control _ _ _) as [o t']. destruct Hs as (status & n & Hc & Hn & _).
  exists status, n. split; [exact Hc|]. intros E. exact (proj1 (Hn E)).
Defined.

(** The user addresses are stored per device, the mapped flag per handle: when
    a second handle asks for a mapping the addresses of the first are
    overwritten, and after both handles are closed the first mapping still
    exists. *)
Theorem netuio_second_handle_leaks :
  exists (E : Env ncall nans) (p m : ptr),
  let '((ctx1, files1), t1) :=
    ('(_, ctx, files) <- netuio_evt_IO_in_caller_context true IOCTL_NETUIO_MAP_HW_INTO_USERSPACE (Some 0%nat) [false; false] prepared ;;
     '(_, ctx, files) <- netuio_evt_IO_in_caller_context true IOCTL_NETUIO_MAP_HW_INTO_USERSPACE (Some 1%nat) files ctx ;;
     '(ctx, files) <- netuio_evt_file_cleanup 0 files ctx ;;
     netuio_evt_file_cleanup 1 files ctx) [] in
  files1 = [false; false] /\ unmapped (dpdk_hw ctx1) /\ held (RUser p m) t1 = 1.
Proof.
  exists (windows values64), 4098, 4098. vm_compute. split; [reflexivity|]. split; [repeat constructor|reflexivity].
Qed.

(** The walk over the BAR words looks for a memory resource for every word that
    is not 0, an I/O BAR (bit 0 set) included: the I/O BAR gets the memory BAR's
    resource. *)
Example netuio_io_bar_takes_memory :
  let '((status, ctx1), _) := netuio_evt_prepare_hw (H := windows [57345; 3355443200; 0; 0; 0; 0])
    (skipn 1 resources2) new_ctx [] in
  status = STATUS_SUCCESS /\ map bar_view (bar ctx1) = [(8589934592, 65536); (3355443200, 4096); (0, 0); (0, 0); (0, 0); (0, 0)].
Proof. vm_compute. split; reflexivity. Qed.
End witnesses.
