(* ===== verification/Device.v ===== *)
(** * Devices (src/src/device.c, src/src/lifecycle.cpp)

    Configuring a network device through DPDK, sending and receiving, and the
    run-time limit that ends a program.  DPDK is the environment: its functions
    are the calls of [dcall], its flag values the parameters of [RteEthdev]. *)
From S2P Require Import Prelude Effects Mbuf.

(** ** DPDK *)

(** The values of the RTE_ETH_... constants. *)
Class RteEthdev := {
  RTE_ETH_RX_OFFLOAD_CHECKSUM : Z;
  RTE_ETH_RX_OFFLOAD_VLAN_STRIP : Z;
  RTE_ETH_RX_OFFLOAD_VLAN_EXTEND : Z;
  RTE_ETH_RX_OFFLOAD_TIMESTAMP : Z;
  RTE_ETH_RX_OFFLOAD_SCATTER : Z;
  RTE_ETH_TX_OFFLOAD_VLAN_INSERT : Z;
  RTE_ETH_TX_OFFLOAD_IPV4_CKSUM : Z;
  RTE_ETH_TX_OFFLOAD_UDP_CKSUM : Z;
  RTE_ETH_TX_OFFLOAD_TCP_CKSUM : Z;
  RTE_ETH_TX_OFFLOAD_MBUF_FAST_FREE : Z;
  RTE_ETH_MQ_RX_RSS : Z;
  RTE_ETH_MQ_RX_NONE : Z;
  RTE_ETH_MQ_TX_NONE : Z;
  RTE_ETH_LINK_SPEED_AUTONEG : Z
}.

Record rte_pci_device := { bar0_addr : ptr; function : Z; vendor_id : Z; device_id : Z; numa_node : Z }.

(** [struct rte_eth_txconf] and [struct rte_eth_rxconf]: the fields that device.c
    sets, and the others, which it only copies. *)
Record rte_eth_txconf := { tx_offloads : Z; tx_others : list Z }.
Record rte_eth_rxconf := { rx_drop_en : Z; rx_offloads : Z; rx_others : list Z }.

(** [struct rte_eth_dev_info]; [device] is the PCI device, when it is one. *)
Record rte_eth_dev_info := {
  driver_name : string;
  flow_type_rss_offloads : Z;
  rx_offload_capa : Z;
  tx_offload_capa : Z;
  max_mtu : Z;
  default_txconf : rte_eth_txconf;
  default_rxconf : rte_eth_rxconf;
  device : option rte_pci_device
}.

Record rte_eth_rss_conf := { rss_key : list Z; rss_key_len : Z; rss_hf : Z }.
Record rte_eth_conf := {
  rx_mq_mode : Z;
  rxmode_offloads : Z;
  mtu : Z;
  tx_mq_mode : Z;
  txmode_offloads : Z;
  link_speeds : Z;
  rss_conf : rte_eth_rss_conf
}.

Inductive dcall :=
| DevInfoGet (port : Z)
| DevConfigure (port rx_queues tx_queues : Z) (conf : rte_eth_conf)
| TxQueueSetup (port queue descs socket : Z) (tx_conf : rte_eth_txconf)
| RxQueueSetup (port queue descs socket : Z) (rx_conf : rte_eth_rxconf) (mempool : ptr)
| DevStart (port : Z)
| MacaddrGet (port : Z)
| TxBurst (port queue : Z) (pkts : list ptr)
| RxBurst (port queue n : Z)
| ReadRdtsc
| IsRunning
| MmioRead (width addr : Z)
| MmioWrite (width addr v : Z).

(** An answer: a return value; the device information; the address bytes; the
    received buffers. *)
Record dans := { val : Z; dev_info : rte_eth_dev_info; addr_bytes : list Z; rx_pkts : list (ptr * rte_mbuf) }.

(** ** Data *)
Record libmoon_device_config := {
  port : Z;
  mempools : list ptr;
  rx_queues : Z;
  tx_queues : Z;
  rx_descs : Z;
  tx_descs : Z;
  drop_enable : Z;
  enable_rss : Z;
  disable_offloads : Z;
  strip_vlan : Z;
  rss_mask : Z;
  enable_rss_symm : Z
}.

Definition DEFAULT_RX_DESCS : Z := 512.
Definition DEFAULT_TX_DESCS : Z := 256.
Definition SYMM_RSS_HASHKEY_LENGTH : Z := 40.
Definition symm_rss_hash_key : list Z := concat (replicate 20 [109; 90]).

Open Scope eff_scope.

Section code.
Context `{RteEthdev} `{Env dcall dans}.

(** ** Registers: [registers] is the static array of that name *)
Definition get_reg_addr (registers : gmap Z Z) (port reg : Z) : ptr := default 0 (registers !! port) + u32 reg.
Definition read_reg32 (registers : gmap Z Z) (port reg : Z) : M dcall dans Z :=
  a <- call (MmioRead 32 (get_reg_addr registers port reg)) ;; ret (u32 (val a)).
Definition write_reg32 (registers : gmap Z Z) (port reg v : Z) : M dcall dans () :=
  do (MmioWrite 32 (get_reg_addr registers port reg) (u32 v)).
Definition read_reg64 (registers : gmap Z Z) (port reg : Z) : M dcall dans Z :=
  a <- call (MmioRead 64 (get_reg_addr registers port reg)) ;; ret (u64 (val a)).
Definition write_reg64 (registers : gmap Z Z) (port reg v : Z) : M dcall dans () :=
  do (MmioWrite 64 (get_reg_addr registers port reg) (u64 v)).

(** ** Information about a device *)
Definition dpdk_get_driver_name (port : Z) : M dcall dans string :=
  a <- call (DevInfoGet port) ;; ret (driver_name (dev_info a)).

Definition dpdk_get_pci_function (port : Z) : M dcall dans Z :=
  a <- call (DevInfoGet port) ;;
  ret (match device (dev_info a) with Some d => function d | None => 0 end).

Definition dpdk_get_pci_id (port : Z) : M dcall dans Z :=
  a <- call (DevInfoGet port) ;;
  ret (match device (dev_info a) with
       | None => 0
       | Some d => u32 (Z.lor (Z.shiftl (vendor_id d) 16) (device_id d))
       end).

Definition dpdk_get_socket (port : Z) : M dcall dans Z :=
  a <- call (DevInfoGet port) ;;
  ret (match device (dev_info a) with
       | None => 0
       | Some d => u8 (if numa_node d =? -1 then 0 else numa_node d)
       end).

Definition byte_of (bytes : list Z) (i : nat) : Z := nth i bytes 0.
Definition dpdk_get_mac_addr (port : Z) : M dcall dans Z :=
  a <- call (MacaddrGet port) ;;
  let b := byte_of (addr_bytes a) in
  ret (Z.lor (Z.lor (Z.lor (Z.lor (Z.lor (b 0%nat) (Z.shiftl (b 1%nat) 8)) (Z.shiftl (b 2%nat) 16))
                    (Z.shiftl (b 3%nat) 24)) (Z.shiftl (b 4%nat) 32)) (Z.shiftl (b 5%nat) 40)).

(** ** Configuration *)
Definition is_driver (name driver : string) : bool := String.eqb name driver.

Definition offloads_rx (cfg : libmoon_device_config) (driver : string) (info : rte_eth_dev_info) : Z :=
  let is_ixgbe_device := is_driver "net_ixgbe" driver in
  let is_i40e_device := is_driver "net_i40e" driver in
  let is_igb_device := is_driver "net_e1000_igb" driver in
  let is_mlx5_device := is_driver "mlx5_pci" driver in
  let scatter := if is_mlx5_device then RTE_ETH_RX_OFFLOAD_SCATTER else 0 in
  Z.land
    (if c_true (disable_offloads cfg) then scatter
     else Z.lor (Z.lor (Z.lor (Z.lor RTE_ETH_RX_OFFLOAD_CHECKSUM
            (if c_true (strip_vlan cfg) then RTE_ETH_RX_OFFLOAD_VLAN_STRIP else 0))
            (if negb (is_ixgbe_device || is_i40e_device || is_igb_device) then RTE_ETH_RX_OFFLOAD_VLAN_EXTEND else 0))
            RTE_ETH_RX_OFFLOAD_TIMESTAMP) scatter)
    (rx_offload_capa info).

Definition offloads_tx (cfg : libmoon_device_config) (info : rte_eth_dev_info) : Z :=
  Z.land
    (if c_true (disable_offloads cfg) then RTE_ETH_TX_OFFLOAD_MBUF_FAST_FREE
     else Z.lor (Z.lor (Z.lor (Z.lor RTE_ETH_TX_OFFLOAD_VLAN_INSERT RTE_ETH_TX_OFFLOAD_IPV4_CKSUM)
            RTE_ETH_TX_OFFLOAD_UDP_CKSUM) RTE_ETH_TX_OFFLOAD_TCP_CKSUM) RTE_ETH_TX_OFFLOAD_MBUF_FAST_FREE)
    (tx_offload_capa info).

Definition no_rss : rte_eth_rss_conf := {| rss_key := []; rss_key_len := 0; rss_hf := 0 |}.

(** [port_conf] as it is passed to DPDK. *)
Definition port_conf (cfg : libmoon_device_config) (driver : string) (info : rte_eth_dev_info) : rte_eth_conf :=
  let is_iavf_device := is_driver "net_iavf" driver in
  let is_mlx5_device := is_driver "mlx5_pci" driver in
  {| rx_mq_mode := if c_true (enable_rss cfg) then RTE_ETH_MQ_RX_RSS else RTE_ETH_MQ_RX_NONE;
     rxmode_offloads := offloads_rx cfg driver info;
     mtu := if is_mlx5_device then 9000 else u32 (max_mtu info - (if is_iavf_device then 4 else 0));
     tx_mq_mode := RTE_ETH_MQ_TX_NONE;
     txmode_offloads := offloads_tx cfg info;
     link_speeds := RTE_ETH_LINK_SPEED_AUTONEG;
     rss_conf := if c_true (enable_rss cfg) then
                   {| rss_key := if c_true (enable_rss_symm cfg) then symm_rss_hash_key else [];
                      rss_key_len := if c_true (enable_rss_symm cfg) then SYMM_RSS_HASHKEY_LENGTH else 0;
                      rss_hf := Z.land (rss_mask cfg) (flow_type_rss_offloads info) |}
                 else no_rss |}.

(** The loops over the queues; [n] is the number of queues left. *)
Fixpoint setup_tx (cfg : libmoon_device_config) (tx_conf : rte_eth_txconf) (i : Z) (n : nat) : M dcall dans Z :=
  match n with
  | O => ret 0
  | S n =>
      socket <- dpdk_get_socket (port cfg) ;;
      a <- call (TxQueueSetup (port cfg) i (if c_true (tx_descs cfg) then tx_descs cfg else DEFAULT_TX_DESCS) socket tx_conf) ;;
      if c_true (val a) then ret (val a) else setup_tx cfg tx_conf (i + 1) n
  end.
Fixpoint setup_rx (cfg : libmoon_device_config) (rx_conf : rte_eth_rxconf) (i : Z) (n : nat) : M dcall dans Z :=
  match n with
  | O => ret 0
  | S n =>
      socket <- dpdk_get_socket (port cfg) ;;
      a <- call (RxQueueSetup (port cfg) i (if c_true (rx_descs cfg) then rx_descs cfg else DEFAULT_RX_DESCS) socket rx_conf
                   (nth (Z.to_nat i) (mempools cfg) 0)) ;;
      if c_true (val a) then ret (val a) else setup_rx cfg rx_conf (i + 1) n
  end.

Definition dpdk_configure_device (cfg : libmoon_device_config) (registers : gmap Z Z) : M dcall dans (Z * gmap Z Z) :=
  driver <- dpdk_get_driver_name (port cfg) ;;
  a <- call (DevInfoGet (port cfg)) ;;
  let info := dev_info a in
  let conf := port_conf cfg driver info in
  a <- call (DevConfigure (port cfg) (rx_queues cfg) (tx_queues cfg) conf) ;;
  if c_true (val a) then ret (val a, registers)
  else
    let tx_conf := {| tx_offloads := txmode_offloads conf; tx_others := tx_others (default_txconf info) |} in
    rc <- setup_tx cfg tx_conf 0 (Z.to_nat (tx_queues cfg)) ;;
    if c_true rc then ret (rc, registers)
    else
      let rx_conf := {| rx_drop_en := drop_enable cfg; rx_offloads := rxmode_offloads conf; rx_others := rx_others (default_rxconf info) |} in
      rc <- setup_rx cfg rx_conf 0 (Z.to_nat (rx_queues cfg)) ;;
      if c_true rc then ret (rc, registers)
      else
        a <- call (DevStart (port cfg)) ;;
        ret (val a, <[port cfg := match device info with Some d => bar0_addr d | None => NULL end]> registers).

(** ** Sending: the loops run until the packets are sent, [fuel] bounds them *)
Fixpoint dpdk_send_all_packets (fuel : nat) (port queue : Z) (pkts : list ptr) (num_pkts sent : Z) : M dcall dans bool :=
  match fuel with
  | O => ret false
  | S fuel =>
      a <- call (TxBurst port queue (take (Z.to_nat (u16 (num_pkts - sent))) (drop (Z.to_nat sent) pkts))) ;;
      let sent := u32 (sent + u16 (val a)) in
      if num_pkts <=? sent then ret true else dpdk_send_all_packets fuel port queue pkts num_pkts sent
  end.

Fixpoint dpdk_send_single_packet (fuel : nat) (port queue : Z) (pkt : ptr) : M dcall dans bool :=
  match fuel with
  | O => ret false
  | S fuel =>
      a <- call (TxBurst port queue [pkt]) ;;
      if 0 <? u16 (val a) then ret true else dpdk_send_single_packet fuel port queue pkt
  end.

Definition dpdk_try_send_single_packet (port queue : Z) (pkt : ptr) : M dcall dans Z :=
  a <- call (TxBurst port queue [pkt]) ;; ret (u16 (val a)).

(** ** Receiving with software time stamps; [cycles_per_byte] is computed in
    floating point from the frequency of the time stamp counter *)
Fixpoint stamp_packets (tsc prev_pkt_size cycles_per_byte : Z) (pkts : list (ptr * rte_mbuf)) : list (ptr * rte_mbuf) :=
  match pkts with
  | [] => []
  | (p, m) :: pkts =>
      (p, set_timestamp_dynfield m (tsc + u32 (prev_pkt_size * cycles_per_byte))) ::
      stamp_packets tsc (u16 (pkt_len m + 24)) cycles_per_byte pkts
  end.

Fixpoint dpdk_receive_with_timestamps_software (fuel : nat) (port queue nb_pkts cycles_per_byte : Z)
  : M dcall dans (option (list (ptr * rte_mbuf))) :=
  match fuel with
  | O => ret None
  | S fuel =>
      r <- call IsRunning ;;
      if c_true (val r) then
        a <- call ReadRdtsc ;;
        let tsc := u64 (val a) in
        a <- call (RxBurst port queue nb_pkts) ;;
        match stamp_packets tsc 0 cycles_per_byte (rx_pkts a) with
        | [] => dpdk_receive_with_timestamps_software fuel port queue nb_pkts cycles_per_byte
        | pkts => ret (Some pkts)
        end
      else ret (Some [])
  end.
End code.

(** ** Lifecycle (src/src/lifecycle.cpp)

    The two static variables; the time stamp counter and its frequency are
    arguments. *)
Module Lifecycle.
Record state := mk { stop_at : Z; signal_at : Z }.
Definition UINT64_MAX : Z := 18446744073709551615.
Definition initial : state := mk UINT64_MAX UINT64_MAX.

(** [None]: the process is aborted. *)
Definition handler (rdtsc : Z) (s : state) : option state :=
  if negb (signal_at s =? UINT64_MAX) then None else Some (mk (stop_at s) (u64 rdtsc)).
Definition is_running (tsc_hz rdtsc extra_time : Z) (s : state) : bool :=
  let extra_time_cycles := u64 (extra_time * tsc_hz) / 1000 in
  let time := u64 (rdtsc - extra_time_cycles) in
  (time <? signal_at s) && (time <? stop_at s).
Definition set_runtime (tsc_hz rdtsc run_time : Z) (s : state) : state :=
  mk (u64 (rdtsc + u64 (run_time * tsc_hz) / 1000)) (signal_at s).
End Lifecycle.

(** ** Configuring *)

(** The operations of a trace that change the device. *)
Inductive device_op :=
| OpConfigure (rxq txq : Z) (conf : rte_eth_conf)
| OpTx (queue descs : Z) (conf : rte_eth_txconf)
| OpRx (queue descs : Z) (conf : rte_eth_rxconf) (mempool : ptr)
| OpStart.

Definition device_op_of (c : dcall) : option device_op :=
  match c with
  | DevConfigure _ r t conf => Some (OpConfigure r t conf)
  | TxQueueSetup _ q d _ conf => Some (OpTx q d conf)
  | RxQueueSetup _ q d _ conf m => Some (OpRx q d conf m)
  | DevStart _ => Some OpStart
  | _ => None
  end.
(** The operations with the codes they returned, newest first. *)
Definition ops (t : list (dcall * dans)) : list (device_op * Z) :=
  omap (fun '(c, a) => o ← device_op_of c; Some (o, val a)) t.

(** [done] are operations of [l] in its order, each of which returned 0, up to and
    including the first that returned something else, which is [rc]; when none
    did, they are all of [l], and [rc] is 0. *)
Fixpoint up_to_failure (l : list device_op) (done : list (device_op * Z)) (rc : Z) : Prop :=
  match l, done with
  | [], [] => rc = 0
  | o :: l, (o', code) :: done => o' = o /\ if code =? 0 then up_to_failure l done rc else done = [] /\ rc = code
  | _, _ => False
  end.

Lemma up_to_failure_app l1 l2 d1 d2 rc :
  up_to_failure l1 d1 0 -> up_to_failure l2 d2 rc -> up_to_failure (l1 ++ l2) (d1 ++ d2) rc.
Proof.
  revert d1. induction l1 as [|o l1 IH]; intros [|[o' code] d1] H1 H2; try done.
  destruct H1 as [-> H1]. split; [done|]. destruct (Z.eqb_spec code 0); [by apply IH|]. by destruct H1 as [_ ?].
Qed.

(** A failure ends it. *)
Lemma up_to_failure_stop l1 l2 d1 rc : rc <> 0 -> up_to_failure l1 d1 rc -> up_to_failure (l1 ++ l2) d1 rc.
Proof.
  intros Hrc. revert d1. induction l1 as [|o l1 IH]; intros [|[o' code] d1] H1; try done.
  destruct H1 as [-> H1]. split; [done|]. destruct (code =? 0); [by apply IH|done].
Qed.

Section config.
Context `{RteEthdev} `{Env dcall dans}.

Fixpoint tx_ops (cfg : libmoon_device_config) (conf : rte_eth_txconf) (i : Z) (n : nat) : list device_op :=
  match n with
  | O => []
  | S n => OpTx i (if c_true (tx_descs cfg) then tx_descs cfg else DEFAULT_TX_DESCS) conf :: tx_ops cfg conf (i + 1) n
  end.
Fixpoint rx_ops (cfg : libmoon_device_config) (conf : rte_eth_rxconf) (i : Z) (n : nat) : list device_op :=
  match n with
  | O => []
  | S n => OpRx i (if c_true (rx_descs cfg) then rx_descs cfg else DEFAULT_RX_DESCS) conf
             (nth (Z.to_nat i) (mempools cfg) 0) :: rx_ops cfg conf (i + 1) n
  end.

(** A complete configuration: all queues with the device's own settings but for
    the offloads, and for receive queues the choice whether to drop. *)
Definition queue_ops (cfg : libmoon_device_config) (conf : rte_eth_conf) (info : rte_eth_dev_info) : list device_op :=
  tx_ops cfg {| tx_offloads := txmode_offloads conf; tx_others := tx_others (default_txconf info) |} 0 (Z.to_nat (tx_queues cfg)) ++
  rx_ops cfg {| rx_drop_en := drop_enable cfg; rx_offloads := rxmode_offloads conf; rx_others := rx_others (default_rxconf info) |}
    0 (Z.to_nat (rx_queues cfg)).
Definition full_ops (cfg : libmoon_device_config) (driver : string) (info : rte_eth_dev_info) : list device_op :=
  let conf := port_conf cfg driver info in
  OpConfigure (rx_queues cfg) (tx_queues cfg) conf :: queue_ops cfg conf info ++ [OpStart].

Lemma get_socket_ops port t : ops (dpdk_get_socket port t).2 = ops t.
Proof. done. Qed.

(** A setup loop performs its operations up to the first that fails. *)
Definition performs (l : list device_op) (rc : Z) (t t' : list (dcall * dans)) : Prop :=
  exists done, ops t' = rev done ++ ops t /\ up_to_failure l done rc.

Lemma performs_step o l code rc t t1 t' :
  ops t1 = (o, code) :: ops t -> (if code =? 0 then performs l rc t1 t' else t' = t1 /\ rc = code) -> performs (o :: l) rc t t'.
Proof.
  intros E Hp. destruct (code =? 0) eqn:Ec.
  - destruct Hp as (d & Hd & Hu). exists ((o, code) :: d). simpl. rewrite Ec, Hd, E, <- app_assoc. done.
  - destruct Hp as [-> ->]. exists [(o, code)]. simpl. rewrite Ec, E. done.
Qed.

Lemma performs_app l1 l2 rc t t1 t' :
  performs l1 0 t t1 -> performs l2 rc t1 t' -> performs (l1 ++ l2) rc t t'.
Proof.
  intros (d1 & E1 & H1) (d2 & E2 & H2). exists (d1 ++ d2). rewrite E2, E1, rev_app_distr, <- app_assoc.
  split; [done|by apply up_to_failure_app].
Qed.

Lemma performs_stop l1 l2 rc t t' : rc <> 0 -> performs l1 rc t t' -> performs (l1 ++ l2) rc t t'.
Proof. intros Hrc (d & E & Hu). exists d. split; [done|by apply up_to_failure_stop]. Qed.

Lemma c_true_eqb x : c_true x = negb (x =? 0).
Proof. done. Qed.

Lemma setup_tx_ops cfg conf n : forall i t,
  let '(rc, t') := setup_tx cfg conf i n t in performs (tx_ops cfg conf i n) rc t t'.
Proof.
  induction n as [|n IH]; intros i t; [by exists []|]. cbn [setup_tx tx_ops]. unfold bind at 1.
  pose proof (get_socket_ops (port cfg) t) as Hs. destruct (dpdk_get_socket (port cfg) t) as [s t1]. simpl in Hs.
  unfold bind at 1, call at 1. set (a := answer t1 _). set (t2 := _ :: t1).
  assert (ops t2 = (OpTx i (if c_true (tx_descs cfg) then tx_descs cfg else DEFAULT_TX_DESCS) conf, val a) :: ops t) as E
    by (rewrite <- Hs; done).
  rewrite (c_true_eqb (val a)). destruct (val a =? 0) eqn:Ea; cbn [negb].
  - specialize (IH (i + 1) t2). destruct (setup_tx cfg conf (i + 1) n t2) as [rc t'].
    eapply performs_step; [exact E|]. by rewrite Ea.
  - eapply performs_step; [exact E|]. by rewrite Ea.
Qed.

Lemma setup_rx_ops cfg conf n : forall i t,
  let '(rc, t') := setup_rx cfg conf i n t in performs (rx_ops cfg conf i n) rc t t'.
Proof.
  induction n as [|n IH]; intros i t; [by exists []|]. cbn [setup_rx rx_ops]. unfold bind at 1.
  pose proof (get_socket_ops (port cfg) t) as Hs. destruct (dpdk_get_socket (port cfg) t) as [s t1]. simpl in Hs.
  unfold bind at 1, call at 1. set (a := answer t1 _). set (t2 := _ :: t1).
  assert (ops t2 = (OpRx i (if c_true (rx_descs cfg) then rx_descs cfg else DEFAULT_RX_DESCS) conf
    (nth (Z.to_nat i) (mempools cfg) 0), val a) :: ops t) as E by (rewrite <- Hs; done).
  rewrite (c_true_eqb (val a)). destruct (val a =? 0) eqn:Ea; cbn [negb].
  - specialize (IH (i + 1) t2). destruct (setup_rx cfg conf (i + 1) n t2) as [rc t'].
    eapply performs_step; [exact E|]. by rewrite Ea.
  - eapply performs_step; [exact E|]. by rewrite Ea.
Qed.

Lemma offloads_capable cfg driver info :
  Z.land (rxmode_offloads (port_conf cfg driver info)) (Z.lnot (rx_offload_capa info)) = 0 /\
  Z.land (txmode_offloads (port_conf cfg driver info)) (Z.lnot (tx_offload_capa info)) = 0.
Proof.
  cbn [port_conf rxmode_offloads txmode_offloads]. unfold offloads_rx, offloads_tx.
  split; rewrite <- Z.land_assoc, Z.land_lnot_diag; apply Z.land_0_r.
Qed.

Lemma start_not_queue cfg conf info : OpStart ∉ queue_ops cfg conf info.
Proof.
  unfold queue_ops. rewrite elem_of_app. intros [Hin|Hin].
  - revert Hin. generalize 0 as i. induction (Z.to_nat (tx_queues cfg)) as [|n IH]; intros i; simpl; [by intros ?%elem_of_nil|].
    intros [?|?]%elem_of_cons; [done|by eapply IH].
  - revert Hin. generalize 0 as i. induction (Z.to_nat (rx_queues cfg)) as [|n IH]; intros i; simpl; [by intros ?%elem_of_nil|].
    intros [?|?]%elem_of_cons; [done|by eapply IH].
Qed.

(** [registers]: what is recorded when the start has been called. *)
Definition recorded (cfg : libmoon_device_config) (info : rte_eth_dev_info) (registers : gmap Z Z) : gmap Z Z :=
  <[port cfg := match device info with Some d => bar0_addr d | None => NULL end]> registers.

Definition configured (cfg : libmoon_device_config) (info : rte_eth_dev_info) (registers : gmap Z Z) (l : list device_op)
    (rc : Z) (registers' : gmap Z Z) (t t' : list (dcall * dans)) : Prop :=
  exists done, ops t' = rev done ++ ops t /\ up_to_failure l done rc /\
    (OpStart ∈ done.*1 -> registers' = recorded cfg info registers) /\ (OpStart ∉ done.*1 -> registers' = registers).

Lemma up_to_failure_ops l done rc o : up_to_failure l done rc -> o ∈ done.*1 -> o ∈ l.
Proof.
  revert done. induction l as [|o1 l IH]; intros [|[o' code] done] Hu Hx; csimpl in Hx; try by apply elem_of_nil in Hx.
  - done.
  - destruct Hu as [-> Hu]. apply elem_of_cons in Hx as [->|Hx]; [by left|]. right. destruct (code =? 0); [by eapply IH|].
    destruct Hu as [-> _]. by apply elem_of_nil in Hx.
Qed.

(** It fails before the start. *)
Lemma configured_stop cfg info registers l l' rc t t' :
  rc <> 0 -> performs l rc t t' -> OpStart ∉ l -> configured cfg info registers (l ++ l') rc registers t t'.
Proof.
  intros Hrc (d & E & Hu) Hn. exists d. split; [done|]. split; [by apply up_to_failure_stop|]. split; [|done].
  intros Hd. destruct Hn. by eapply up_to_failure_ops.
Qed.

Lemma configure_ops (cfg : libmoon_device_config) (registers : gmap Z Z) (t : list (dcall * dans)) :
  let a1 := answer t (DevInfoGet (port cfg)) in
  let a2 := answer ((DevInfoGet (port cfg), a1) :: t) (DevInfoGet (port cfg)) in
  let '((rc, registers'), t') := dpdk_configure_device cfg registers t in
  configured cfg (dev_info a2) registers (full_ops cfg (driver_name (dev_info a1)) (dev_info a2)) rc registers' t t'.
Proof.
  cbv zeta. unfold dpdk_configure_device, dpdk_get_driver_name. unfold bind at 1 2, call at 1, ret at 1.
  set (a1 := answer t (DevInfoGet (port cfg))). unfold bind at 1, call at 1.
  set (a2 := answer ((DevInfoGet (port cfg), a1) :: t) (DevInfoGet (port cfg))).
  set (t2 := (DevInfoGet (port cfg), a2) :: (DevInfoGet (port cfg), a1) :: t).
  set (info := dev_info a2). set (conf := port_conf cfg (driver_name (dev_info a1)) info).
  pose proof (start_not_queue cfg conf info) as Hns. unfold full_ops. fold conf. unfold queue_ops in *.
  set (oc := OpConfigure (rx_queues cfg) (tx_queues cfg) conf). set (tx := tx_ops _ _ _ _) in *. set (rx := rx_ops _ _ _ _) in *.
  apply not_elem_of_app in Hns as [Hnt Hnr].
  unfold bind at 1, call at 1. set (a3 := answer t2 _). set (t3 := _ :: t2).
  assert (ops t3 = (oc, val a3) :: ops t) as E3 by done. rewrite (c_true_eqb (val a3)).
  destruct (Z.eqb_spec (val a3) 0) as [E0|Hne]; cbn [negb].
  2: { apply (configured_stop cfg info registers [oc]); [done| |].
       - eapply performs_step; [exact E3|]. by rewrite (proj2 (Z.eqb_neq _ _)).
       - by intros ?%list_elem_of_singleton. }
  assert (performs [oc] 0 t t3) as P3 by (eapply performs_step; [exact E3|]; rewrite E0; by exists []).
  unfold bind at 1. set (tc := {| tx_offloads := _; tx_others := _ |}).
  pose proof (setup_tx_ops cfg tc (Z.to_nat (tx_queues cfg)) 0 t3) as Htx.
  destruct (setup_tx cfg tc 0 (Z.to_nat (tx_queues cfg)) t3) as [rc t4]. change (tx_ops cfg tc 0 (Z.to_nat (tx_queues cfg))) with tx in Htx.
  rewrite (c_true_eqb rc). destruct (Z.eqb_spec rc 0) as [->|Hrc]; cbn [negb].
  2: { rewrite <- app_assoc. apply (configured_stop cfg info registers (oc :: tx)); [done| |].
       - by apply (performs_app [oc] tx _ _ t3).
       - by intros [?|?]%elem_of_cons. }
  unfold bind at 1. set (rcf := {| rx_drop_en := _; rx_offloads := _; rx_others := _ |}).
  pose proof (setup_rx_ops cfg rcf (Z.to_nat (rx_queues cfg)) 0 t4) as Hrx.
  destruct (setup_rx cfg rcf 0 (Z.to_nat (rx_queues cfg)) t4) as [rc t5]. change (rx_ops cfg rcf 0 (Z.to_nat (rx_queues cfg))) with rx in Hrx.
  rewrite (c_true_eqb rc). destruct (Z.eqb_spec rc 0) as [->|Hrc]; cbn [negb].
  2: { apply (configured_stop cfg info registers (oc :: tx ++ rx)); [done| |].
       - apply (performs_app [oc] (tx ++ rx) _ _ t3); [done|]. by apply (performs_app tx rx _ _ t4).
       - intros [?|[?|?]%elem_of_app]%elem_of_cons; done. }
  unfold bind, call, ret. set (a6 := answer t5 _).
  destruct (performs_app [oc] (tx ++ rx) 0 t t3 t5 P3 (performs_app tx rx 0 t3 t4 t5 Htx Hrx)) as (d & Ed & Hd).
  exists (d ++ [(OpStart, val a6)]). split.
  { rewrite rev_app_distr. simpl. by rewrite <- Ed. }
  split.
  { apply (up_to_failure_app ([oc] ++ tx ++ rx) [OpStart]); [done|]. split; [done|]. by destruct (Z.eqb_spec (val a6) 0). }
  rewrite fmap_app. split; [done|]. intros Hn. destruct Hn. apply elem_of_app. right. by left.
Qed.

(** C27. Configuring a device: the operations on it are those of the complete
    configuration (the device, every transmit queue in order, every receive queue
    with its own pool, the start), in this order, each of them after the previous
    one has returned 0; the first one that returns something else is the last one,
    and its code is returned, otherwise 0.  Queues are set up with the device's
    default settings, offloads and dropping aside; only offloads the device can do
    are asked for.  The registers are recorded exactly when the start has been
    called, whatever it returns. *)
Theorem configure_device_spec (cfg : libmoon_device_config) (registers : gmap Z Z) (t : list (dcall * dans)) :
  let a1 := answer t (DevInfoGet (port cfg)) in
  let a2 := answer ((DevInfoGet (port cfg), a1) :: t) (DevInfoGet (port cfg)) in
  let info := dev_info a2 in
  let conf := port_conf cfg (driver_name (dev_info a1)) info in
  let '((rc, registers'), t') := dpdk_configure_device cfg registers t in
  (exists done, ops t' = rev done ++ ops t /\ up_to_failure (full_ops cfg (driver_name (dev_info a1)) info) done rc /\
     (OpStart ∈ done.*1 -> registers' = recorded cfg info registers) /\ (OpStart ∉ done.*1 -> registers' = registers)) /\
  Z.land (rxmode_offloads conf) (Z.lnot (rx_offload_capa info)) = 0 /\
  Z.land (txmode_offloads conf) (Z.lnot (tx_offload_capa info)) = 0.
Proof.
  cbv zeta. pose proof (configure_ops cfg registers t) as Hc. cbv zeta in Hc.
  destruct (dpdk_configure_device cfg registers t) as [[rc registers'] t'].
  split; [exact Hc|apply offloads_capable].
Qed.
End config.

(** ** Sending *)
Section sending.
Context `{Env dcall dans}.

(** The packets the device has accepted, in order. *)
Fixpoint accepted (t : list (dcall * dans)) : list ptr :=
  match t with
  | [] => []
  | (TxBurst _ _ pkts, a) :: t => accepted t ++ take (Z.to_nat (u16 (val a))) pkts
  | _ :: t => accepted t
  end.

(** How many times in a row it has accepted none. *)
Fixpoint refusals (t : list (dcall * dans)) : nat :=
  match t with
  | (TxBurst _ _ _, a) :: t => if u16 (val a) =? 0 then S (refusals t) else 0
  | _ => 0
  end.

(** The documented behaviour of [rte_eth_tx_burst]: it accepts some of the
    packets it is given; and the device makes progress: it does not refuse more
    than [K] times in a row. *)
Definition burst_ok : Prop := forall t p q pkts,
  0 <= val (answer t (TxBurst p q pkts)) <= Z.of_nat (length pkts).
Definition progress (K : nat) : Prop := forall t p q pkts,
  pkts <> [] -> (K <= refusals t)%nat -> 0 < val (answer t (TxBurst p q pkts)).

Lemma send_all_ok K port queue pkts fuel : forall sent t,
  burst_ok -> progress K -> Z.of_nat (length pkts) < 65536 -> (sent <= length pkts)%nat ->
  (0 < fuel)%nat -> ((length pkts - sent) * S K <= fuel + (refusals t `min` K))%nat ->
  let '(r, t') := dpdk_send_all_packets fuel port queue pkts (Z.of_nat (length pkts)) (Z.of_nat sent) t in
  r = true /\ accepted t' = accepted t ++ drop sent pkts.
Proof.
  induction fuel as [|fuel IH]; intros sent t Hb Hp Hlen Hs Hf0 Hf; [lia|]. cbn [dpdk_send_all_packets].
  assert (u16 (Z.of_nat (length pkts) - Z.of_nat sent) = Z.of_nat (length pkts - sent)) as ->
    by (rewrite u16_small by (unfold is_u16; lia); lia).
  rewrite !Nat2Z.id, (take_ge (drop sent pkts)) by (rewrite length_drop; lia).
  unfold bind, call. set (c := TxBurst port queue (drop sent pkts)). set (a := answer t c).
  pose proof (Hb t port queue (drop sent pkts)) as Ha. fold c a in Ha. rewrite length_drop in Ha.
  rewrite (u16_small (val a)) by (unfold is_u16; lia).
  rewrite u32_small by (unfold is_u32; lia). set (n := Z.to_nat (val a)).
  assert (accepted ((c, a) :: t) = accepted t ++ take n (drop sent pkts)) as Eacc.
  { simpl. by rewrite u16_small by (unfold is_u16; lia). }
  destruct (Z.leb_spec (Z.of_nat (length pkts)) (Z.of_nat sent + val a)) as [Hd|Hd].
  - unfold ret. split; [done|]. rewrite Eacc, take_ge; [done|]. rewrite length_drop. unfold n. lia.
  - replace (Z.of_nat sent + val a) with (Z.of_nat (sent + n)) by (unfold n; lia).
    assert ((length pkts - (sent + n)) * S K <= fuel + (refusals ((c, a) :: t) `min` K))%nat as Hf'.
    { simpl. rewrite u16_small by (unfold is_u16; lia). destruct (Z.eqb_spec (val a) 0) as [E|E].
      - assert (refusals t < K)%nat as Hr.
        { destruct (decide (refusals t < K)%nat) as [|Hge]; [done|]. assert (0 < val a); [|lia]. apply Hp; [|lia].
          intros Ed. apply (f_equal length) in Ed. rewrite length_drop in Ed. simpl in Ed. lia. }
        unfold n. rewrite E. change (Z.to_nat 0) with 0%nat. rewrite Nat.add_0_r. lia.
      - unfold n. assert (1 <= Z.to_nat (val a))%nat by lia.
        replace (length pkts - sent)%nat with (length pkts - (sent + Z.to_nat (val a)) + Z.to_nat (val a))%nat in Hf by lia.
        rewrite Nat.mul_add_distr_r in Hf. nia. }
    assert (0 < fuel)%nat as Hfp.
    { destruct fuel; [|lia]. assert (1 <= length pkts - (sent + n))%nat by (unfold n; lia). nia. }
    specialize (IH (sent + n)%nat ((c, a) :: t) Hb Hp Hlen ltac:(unfold n; lia) Hfp Hf').
    destruct (dpdk_send_all_packets fuel port queue pkts _ _ _) as [r t']. destruct IH as [-> IH]. split; [done|].
    rewrite IH, Eacc, <- app_assoc. f_equal. rewrite <- (take_drop n (drop sent pkts)) at 2. f_equal.
    rewrite drop_drop. done.
Qed.

(** C28. [dpdk_send_all_packets] returns once the device has accepted every
    packet, each of them exactly once and in order, however it splits the bursts;
    it needs at most [K + 1] calls for each packet when the device does not refuse
    more than [K] times in a row. *)
Theorem send_all_packets_correct (K : nat) (port queue : Z) (pkts : list ptr) (t : list (dcall * dans)) :
  burst_ok -> progress K -> Z.of_nat (length pkts) < 65536 ->
  let '(r, t') := dpdk_send_all_packets (1 + length pkts * S K) port queue pkts (Z.of_nat (length pkts)) 0 t in
  r = true /\ accepted t' = accepted t ++ pkts.
Proof.
  intros Hb Hp Hl.
  pose proof (send_all_ok K port queue pkts (1 + length pkts * S K) 0 t Hb Hp Hl ltac:(lia) ltac:(lia) ltac:(lia)) as Hs.
  exact Hs.
Qed.
End sending.

(** ** The run-time limit *)
Module LifecycleFacts.
Import Lifecycle.

(** The next value of a counter that does not overflow. *)
Definition no_overflow (tsc_hz rdtsc extra_time : Z) : Prop :=
  0 <= extra_time * tsc_hz < 18446744073709551616 /\ extra_time * tsc_hz / 1000 <= rdtsc < 18446744073709551616.

(** A program runs until the time of the limit or of the first signal,
    whichever comes first, plus the extra time asked for: [is_running] is true
    exactly before that moment.  So once it is false it stays false until the
    limit is set again, and a second signal aborts. *)
Theorem lifecycle_deadline (tsc_hz rdtsc extra_time : Z) (s : state) :
  no_overflow tsc_hz rdtsc extra_time ->
  (is_running tsc_hz rdtsc extra_time s = true <->
   rdtsc < Z.min (stop_at s) (signal_at s) + extra_time * tsc_hz / 1000) /\
  (forall later s', no_overflow tsc_hz later extra_time -> rdtsc <= later -> is_u64 later ->
   is_running tsc_hz rdtsc extra_time s = false ->
   s' = s \/ handler later s = Some s' -> signal_at s <= UINT64_MAX ->
   is_running tsc_hz later extra_time s' = false).
Proof.
  assert (forall r s, no_overflow tsc_hz r extra_time ->
    is_running tsc_hz r extra_time s = true <-> r < Z.min (stop_at s) (signal_at s) + extra_time * tsc_hz / 1000) as Hrun.
  { intros r st [Hm Hr]. unfold is_running. rewrite (u64_small (extra_time * tsc_hz)) by done.
    assert (0 <= extra_time * tsc_hz / 1000) by (apply Z.div_pos; lia).
    rewrite u64_small by (unfold is_u64; lia). rewrite andb_true_iff, !Z.ltb_lt. lia. }
  intros Hn. split; [by apply Hrun|]. intros later s' Hn' Hle Hu64 Hf Hs' Hmax.
  apply not_true_iff_false in Hf. rewrite Hrun in Hf by done. apply not_true_iff_false. rewrite Hrun by done.
  destruct Hs' as [->|Hs']; [lia|]. unfold handler in Hs'.
  destruct (Z.eqb_spec (signal_at s) UINT64_MAX) as [E|E]; [|done]. injection Hs' as <-. simpl.
  rewrite u64_small by done. unfold UINT64_MAX in *. destruct Hn as [? Hn]. destruct Hn' as [? Hn'].
  assert (0 <= extra_time * tsc_hz / 1000) by (apply Z.div_pos; lia). lia.
Qed.
End LifecycleFacts.

(** ** Witnesses *)
Section witnesses.

Definition no_info : rte_eth_dev_info :=
  {| driver_name := "net_null"; flow_type_rss_offloads := 0; rx_offload_capa := 0; tx_offload_capa := 0;
     max_mtu := 1500; default_txconf := {| tx_offloads := 0; tx_others := [] |};
     default_rxconf := {| rx_drop_en := 0; rx_offloads := 0; rx_others := [] |}; device := None |}.

(** A device that refuses every other burst and otherwise accepts one packet. *)
Definition slow_device : Env dcall dans := fun t c =>
  match c with
  | TxBurst _ _ pkts =>
      {| val := match pkts with [] => 0 | _ => if (refusals t =? 0)%nat then 0 else 1 end;
         dev_info := no_info; addr_bytes := []; rx_pkts := [] |}
  | _ => {| val := 0; dev_info := no_info; addr_bytes := []; rx_pkts := [] |}
  end.

Lemma send_all_packets_correct_witness :
  let '(r, t) := dpdk_send_all_packets (H0 := slow_device) 7 0 0 [10; 20; 30] 3 0 [] in
  r = true /\ accepted t = [10; 20; 30] /\ length t = 6%nat.
Proof.
  assert (burst_ok (H := slow_device)) as Hb.
  { intros t p q [|x pkts]; simpl; [lia|]. destruct (refusals t =? 0)%nat; lia. }
  assert (progress (H := slow_device) 1) as Hp.
  { intros t p q [|x pkts] Hne Hr; [done|]. simpl. destruct (Nat.eqb_spec (refusals t) 0); lia. }
  pose proof (send_all_packets_correct (H := slow_device) 1 0 0 [10; 20; 30] [] Hb Hp ltac:(simpl; lia)) as Hs.
  vm_compute in Hs |- *. destruct Hs as [Hr Ha]. split; [exact Hr|]. split; [exact Ha|reflexivity].
Defined.

Lemma lifecycle_deadline_witness :
  Lifecycle.is_running 1000000 6000000 500 (Lifecycle.set_runtime 1000000 1000000 5000 Lifecycle.initial) = true /\
  Lifecycle.is_running 1000000 6600000 500 (Lifecycle.set_runtime 1000000 1000000 5000 Lifecycle.initial) = false.
Proof.
  assert (forall r, 500000 <= r < 10000000 -> LifecycleFacts.no_overflow 1000000 r 500) as Hn
    by (intros r Hr; unfold LifecycleFacts.no_overflow; split; [split; reflexivity || discriminate|]; change (500 * 1000000 / 1000) with 500000; lia).
  pose proof (LifecycleFacts.lifecycle_deadline 1000000 6000000 500
    (Lifecycle.set_runtime 1000000 1000000 5000 Lifecycle.initial) (Hn 6000000 ltac:(lia))) as [Hrun _].
  split; [apply Hrun; vm_compute|]; reflexivity.
Defined.
End witnesses.
