(* ===== verification/SyncClocks.v ===== *)
(** * Clock synchronisation (src/src/timestamping.c)

    [libmoon_sync_clocks] sets the clocks of two network devices to the same
    time: it measures by how much they differ, seven times, and writes the median
    to the adjustment registers of the second one. *)
From S2P Require Import Prelude Effects Device.
From Stdlib Require Import Sorting Permutation Orders.

(** [qsort] with the comparison of the code. *)
Module ZOrder <: TotalLeBool.
Definition t := Z.
Definition leb := Z.leb.
Lemma leb_total x y : leb x y = true \/ leb y x = true.
Proof. unfold leb. rewrite !Z.leb_le. lia. Qed.
End ZOrder.
Module ZSort := Mergesort.Sort ZOrder.

Open Scope eff_scope.

Section code.
Context `{RteEthdev} `{Env dcall dans}.
Context (registers : gmap Z Z).

(** A read or write through [port1time] and [port2time]. *)
Definition load (addr : ptr) : M dcall dans Z := a <- call (MmioRead 32 addr) ;; ret (u32 (val a)).
Definition store (addr : ptr) (v : Z) : M dcall dans () := do (MmioWrite 32 addr v).

Definition num_runs : nat := 7.

Definition measure (port1time port2time : ptr) : M dcall dans Z :=
  x1 <- load port1time ;;
  x2 <- load port2time ;;
  y1 <- load port2time ;;
  y2 <- load port1time ;;
  let delta_t := i32 (Z.abs (Z.quot (x1 - x2 - (y2 - y1)) 2)) in
  ret (i32 (u32 (delta_t + x1 - x2))).

Fixpoint measure_all (n : nat) (port1time port2time : ptr) : M dcall dans (list Z) :=
  match n with
  | O => ret []
  | S n => offs <- measure port1time port2time ;; l <- measure_all n port1time port2time ;; ret (offs :: l)
  end.

Definition median (l : list Z) : Z := nth (num_runs / 2) (ZSort.sort l) 0.

Definition libmoon_sync_clocks (port1 port2 timl timh adjl adjh : Z) : M dcall dans () :=
  write_reg32 registers port1 timl 0 ;;
  write_reg32 registers port2 timl 0 ;;
  write_reg32 registers port1 timh 0 ;;
  write_reg32 registers port2 timh 0 ;;
  if port1 =? port2 then ret ()
  else
    let port1time := get_reg_addr registers port1 timl in
    let port2time := get_reg_addr registers port2 timl in
    store port1time 0 ;;
    store port2time 0 ;;
    offsets <- measure_all num_runs port1time port2time ;;
    let offs := median offsets in
    if c_true offs then
      write_reg32 registers port2 adjl (if offs <? 0 then u32 (- offs) else u32 offs) ;;
      write_reg32 registers port2 adjh (if offs <? 0 then u32 (Z.shiftl 1 31) else 0)
    else ret ().
End code.

(** ** The median *)
Lemma sort_sorted l : StronglySorted Z.le (ZSort.sort l).
Proof.
  assert (StronglySorted (fun x y => is_true (Z.leb x y)) (ZSort.sort l)) as Hs.
  { apply ZSort.StronglySorted_sort. intros x y z. unfold is_true, ZOrder.leb. rewrite !Z.leb_le. lia. }
  induction Hs as [|x l' Hs IH Hx]; constructor; [done|].
  eapply List.Forall_impl; [|exact Hx]. intros y Hy. by apply Z.leb_le.
Qed.

(** The number of values in an interval. *)
Fixpoint count_in (lo hi : Z) (l : list Z) : nat :=
  match l with
  | [] => 0
  | x :: l => (if (lo <=? x) && (x <=? hi) then 1 else 0) + count_in lo hi l
  end.

Lemma count_perm lo hi l l' : Permutation l l' -> count_in lo hi l = count_in lo hi l'.
Proof. induction 1; simpl; lia. Qed.

Lemma count_le lo hi l : (count_in lo hi l <= length l)%nat.
Proof. induction l as [|x l IH]; simpl; [lia|]. destruct (_ && _); lia. Qed.

Lemma count_app lo hi l l' : count_in lo hi (l ++ l') = (count_in lo hi l + count_in lo hi l')%nat.
Proof. induction l as [|x l IH]; simpl; lia. Qed.

Lemma count_none lo hi l : Forall (fun x => x < lo \/ hi < x) l -> count_in lo hi l = 0%nat.
Proof. induction 1 as [|x l Hx Hl IH]; simpl; [done|]. rewrite IH. repeat case_Z; simpl; lia. Qed.

Lemma sorted_split l k x :
  StronglySorted Z.le l -> nth_error l k = Some x ->
  Forall (fun y => y <= x) (firstn (S k) l) /\ Forall (fun y => x <= y) (skipn k l).
Proof.
  intros Hs. revert k. induction Hs as [|y l Hs IH Hy]; intros [|k] Hk; simpl in *; try done.
  - injection Hk as ->. split; [constructor; [lia|constructor]|constructor; [lia|done]].
  - destruct (IH k Hk) as [Hf Hl]. split; [|done]. constructor; [|done].
    rewrite Forall_forall in Hy. apply Hy. apply list_elem_of_In. by apply nth_error_In in Hk.
Qed.

(** More than half of the values of an odd list are in an interval: so is the
    median. *)
Lemma median_in lo hi l :
  length l = num_runs -> (num_runs / 2 < count_in lo hi l)%nat -> lo <= median l <= hi.
Proof.
  intros Hl Hc. unfold median. pose proof (ZSort.Permuted_sort l) as Hp. rewrite (count_perm _ _ _ _ Hp) in Hc.
  pose proof (sort_sorted l) as Hs. assert (length (ZSort.sort l) = num_runs) as Hl'
    by (rewrite <- Hl; symmetry; by apply Permutation_length).
  clear Hp Hl. revert Hc Hs Hl'. generalize (ZSort.sort l). intros s Hc Hs Hl. destruct (nth_error s (num_runs / 2)) as [x|] eqn:Ex.
  2: { apply nth_error_None in Ex. rewrite Hl in Ex. unfold num_runs in Ex. simpl in Ex. lia. }
  rewrite (nth_error_nth s _ 0 Ex). destruct (sorted_split s _ x Hs Ex) as [Hlow Hhigh].
  destruct (decide (lo <= x)) as [H1|H1]; [destruct (decide (x <= hi)) as [H2|H2]; [done|]|]; exfalso.
  - rewrite <- (firstn_skipn (num_runs / 2) s), count_app in Hc.
    rewrite (count_none lo hi (skipn (num_runs / 2) s)) in Hc.
    + pose proof (count_le lo hi (firstn (num_runs / 2) s)) as Hle. rewrite length_firstn in Hle. lia.
    + eapply List.Forall_impl; [|exact Hhigh]. simpl. lia.
  - rewrite <- (firstn_skipn (S (num_runs / 2)) s), count_app in Hc.
    rewrite (count_none lo hi (firstn (S (num_runs / 2)) s)) in Hc.
    + pose proof (count_le lo hi (skipn (S (num_runs / 2)) s)) as Hle. rewrite length_skipn, Hl in Hle.
      unfold num_runs in *. simpl in *. lia.
    + eapply List.Forall_impl; [|exact Hlow]. simpl. lia.
Qed.

(** ** The clocks *)
Section clocks.
Context `{RteEthdev} `{Env dcall dans}.
Context (registers : gmap Z Z) (port1 port2 timl timh adjl adjh : Z).
Context (a b : Z) (time : nat -> Z).

Let addr1 : ptr := get_reg_addr registers port1 timl.
Let addr2 : ptr := get_reg_addr registers port2 timl.

(** Two clocks that run at the same rate: at the [n]-th access, which happens at
    [time n], the first shows [a + time n] and the second [b + time n]. *)
Definition clocks : Prop := forall t,
  val (answer t (MmioRead 32 addr1)) = a + time (length t) /\
  val (answer t (MmioRead 32 addr2)) = b + time (length t).

(** Time does not run backwards, and the clocks do not overflow during the
    [4 * num_runs] accesses from [n] on. *)
Definition in_range (n : nat) : Prop := forall k, (n <= k < n + 4 * num_runs)%nat ->
  time k <= time (S k) /\ 0 <= a + time k < 2 ^ 30 /\ 0 <= b + time k < 2 ^ 30.

(** The two reads of the first clock take as long before as after those of the
    second one, up to [2 * eps]. *)
Definition even_run (eps : Z) (n : nat) : bool :=
  Z.abs (time (3 + n) - time (2 + n) - (time (1 + n) - time n)) <=? 2 * eps.

(** What a run starting at access [n] measures. *)
Definition measured (n : nat) : Z :=
  a - b + ((time (1 + n) - time n + (time (3 + n) - time (2 + n))) / 2 - (time (1 + n) - time n)).

Definition reads : list dcall := [MmioRead 32 addr1; MmioRead 32 addr2; MmioRead 32 addr2; MmioRead 32 addr1].

Lemma quot_opp_2 x : 0 <= x -> Z.abs (Z.quot (- x) 2) = x / 2.
Proof.
  intros Hx. rewrite Z.quot_opp_l, Z.abs_opp by lia. rewrite Z.quot_div_nonneg by lia.
  apply Z.abs_eq. apply Z.div_pos; lia.
Qed.

Lemma measure_value t :
  clocks ->
  (forall k, (length t <= k < length t + 4)%nat ->
     time k <= time (S k) /\ 0 <= a + time k < 2 ^ 30 /\ 0 <= b + time k < 2 ^ 30) ->
  let '(offs, t') := measure addr1 addr2 t in
  offs = measured (length t) /\ map fst t' = rev reads ++ map fst t /\ length t' = (4 + length t)%nat.
Proof.
  intros Hc Hr. unfold measure, load, bind, call, ret. cbn [fst snd].
  set (t1 := _ :: t). set (t2 := _ :: t1). set (t3 := _ :: t2).
  destruct (Hc t) as [-> _], (Hc t1) as [_ ->], (Hc t2) as [_ ->], (Hc t3) as [-> _].
  split; [|done]. set (n := length t). change (length t3) with (3 + n)%nat. change (length t2) with (2 + n)%nat.
  change (length t1) with (1 + n)%nat. change (2 ^ 30) with 1073741824 in Hr.
  pose proof (Hr n ltac:(unfold n; lia)) as (M0 & A0 & B0). pose proof (Hr (1 + n)%nat ltac:(unfold n; lia)) as (M1 & A1 & B1).
  pose proof (Hr (2 + n)%nat ltac:(unfold n; lia)) as (M2 & A2 & B2).
  pose proof (Hr (3 + n)%nat ltac:(unfold n; lia)) as (M3 & A3 & B3).
  unfold measured. change (S n) with (1 + n)%nat in *. change (S (1 + n)) with (2 + n)%nat in *.
  change (S (2 + n)) with (3 + n)%nat in *.
  generalize dependent (time (1 + n)). intros u1. generalize dependent (time (2 + n)). intros u2.
  generalize dependent (time (3 + n)). intros u3. generalize dependent (time n). intros u0. intros.
  rewrite (u32_small (a + u0)), (u32_small (b + u1)), (u32_small (a + u3)), (u32_small (b + u2)) by (unfold is_u32; lia).
  replace (a + u0 - (b + u1) - (a + u3 - (b + u2))) with (- ((u1 - u0) + (u3 - u2))) by lia.
  rewrite quot_opp_2 by lia. set (d := (u1 - u0 + (u3 - u2)) / 2).
  assert (0 <= d < 1073741824) as Hd by (unfold d; clear -M0 M2 A0 A1 A2 A3 B0 B1 B2 B3; dlia).
  rewrite (i32_small d) by (unfold is_i32; lia).
  assert (forall x, is_i32 x -> i32 (u32 x) = x) as Hi by (clear; intros; word).
  rewrite Hi by (unfold is_i32; lia). lia.
Qed.

Fixpoint values (k n : nat) : list Z :=
  match k with
  | O => []
  | S k => measured n :: values k (4 + n)
  end.

Lemma measure_all_values k : forall t,
  clocks ->
  (forall j, (length t <= j < length t + 4 * k)%nat ->
     time j <= time (S j) /\ 0 <= a + time j < 2 ^ 30 /\ 0 <= b + time j < 2 ^ 30) ->
  let '(l, t') := measure_all k addr1 addr2 t in
  l = values k (length t) /\ map fst t' = rev (concat (replicate k reads)) ++ map fst t.
Proof.
  induction k as [|k IH]; intros t Hc Hr; [done|]. cbn [measure_all]. unfold bind at 1.
  pose proof (measure_value t Hc ltac:(intros; apply Hr; lia)) as Hm.
  destruct (measure addr1 addr2 t) as [offs t1]. destruct Hm as (-> & Hf & Hl). unfold bind.
  specialize (IH t1 Hc ltac:(intros; apply Hr; lia)). destruct (measure_all k addr1 addr2 t1) as [l t2].
  destruct IH as [-> IH]. cbn [values]. rewrite Hl. split; [done|].
  rewrite IH, Hf. change (concat (replicate (S k) reads)) with (reads ++ concat (replicate k reads)).
  by rewrite rev_app_distr, <- app_assoc.
Qed.

Lemma measured_even eps n :
  time n <= time (1 + n)%nat -> time (2 + n)%nat <= time (3 + n)%nat -> even_run eps n = true ->
  a - b - eps <= measured n <= a - b + eps.
Proof. unfold even_run, measured. rewrite Z.leb_le. intros. dlia. Qed.

Fixpoint even_runs (eps : Z) (k n : nat) : nat :=
  match k with
  | O => 0
  | S k => (if even_run eps n then 1 else 0) + even_runs eps k (4 + n)
  end.

Lemma even_runs_count eps k : forall n,
  (forall j, (n <= j < n + 4 * k)%nat -> time j <= time (S j)) ->
  (even_runs eps k n <= count_in (a - b - eps)%Z (a - b + eps)%Z (values k n))%nat.
Proof.
  induction k as [|k IH]; intros n Hm; [done|]. cbn [even_runs values count_in].
  specialize (IH (4 + n)%nat ltac:(intros; apply Hm; lia)). destruct (even_run eps n) eqn:E; [|lia].
  pose proof (measured_even eps n ltac:(apply (Hm n); lia) ltac:(apply (Hm (2 + n)%nat); lia) E) as Hv.
  clear E. repeat case_Z; cbn [andb]; lia.
Qed.

(** The writes that adjust the second clock by [offs]. *)
Definition adjust (offs : Z) : list dcall :=
  if offs =? 0 then []
  else [ MmioWrite 32 (get_reg_addr registers port2 adjl) (Z.abs offs);
         MmioWrite 32 (get_reg_addr registers port2 adjh) (if offs <? 0 then 2147483648 else 0) ].

(** The writes that reset the clocks. *)
Definition resets : list dcall :=
  [ MmioWrite 32 addr1 0; MmioWrite 32 addr2 0;
    MmioWrite 32 (get_reg_addr registers port1 timh) 0; MmioWrite 32 (get_reg_addr registers port2 timh) 0;
    MmioWrite 32 addr1 0; MmioWrite 32 addr2 0 ].

Lemma median_range l : length l = num_runs -> Forall is_i32 l -> is_i32 (median l).
Proof.
  intros Hl Hr. pose proof (median_in (-2147483648) 2147483647 l Hl) as Hm. unfold is_i32.
  assert (count_in (-2147483648) 2147483647 l = length l) as Hc.
  { clear Hl Hm. induction Hr as [|x l Hx Hr IH]; [done|]. unfold is_i32 in Hx. simpl. rewrite IH. repeat case_Z; simpl; lia. }
  rewrite Hc, Hl in Hm. specialize (Hm ltac:(unfold num_runs; simpl; lia)). lia.
Qed.

(** Clock synchronisation: if in at least four of the seven runs the two
    halves of the run take equally long up to [2 * eps], then the second clock is
    adjusted, after both have been reset, by the difference of the clocks up to
    [eps]; in particular exactly by the difference when four runs are even. *)
Theorem sync_clocks_adjusts (eps : Z) (t : list (dcall * dans)) :
  port1 <> port2 -> clocks -> in_range (6 + length t) -> 0 <= eps ->
  (4 <= even_runs eps num_runs (6 + length t))%nat ->
  let '(_, t') := libmoon_sync_clocks registers port1 port2 timl timh adjl adjh t in
  exists offs, Z.abs (offs - (a - b)) <= eps /\
    map fst t' = rev (resets ++ concat (replicate num_runs reads) ++ adjust offs) ++ map fst t.
Proof.
  intros Hp Hc Hr He Hev. unfold libmoon_sync_clocks, write_reg32, store. apply Z.eqb_neq in Hp. rewrite Hp.
  do 6 (unfold bind at 1, do at 1). unfold bind at 1. fold addr1 addr2.
  set (t6 := _ :: _ :: _ :: _ :: _ :: _ :: t).
  assert (map fst t6 = rev resets ++ map fst t) as E6 by done.
  assert (length t6 = (6 + length t)%nat) as L6 by done. clearbody t6.
  pose proof (measure_all_values num_runs t6 Hc ltac:(rewrite L6; exact Hr)) as Hm.
  destruct (measure_all num_runs addr1 addr2 t6) as [l t7]. destruct Hm as [-> Hm]. rewrite L6.
  set (offs := median (values num_runs (6 + length t))).
  assert (Z.abs (offs - (a - b)) <= eps) as Ho.
  { pose proof (median_in (a - b - eps) (a - b + eps) (values num_runs (6 + length t)) eq_refl) as Hmed.
    fold offs in Hmed. pose proof (even_runs_count eps num_runs (6 + length t) ltac:(intros; by apply Hr)) as Hcount.
    unfold num_runs in *. simpl (7 / 2)%nat in Hmed. lia. }
  assert (is_i32 offs) as Hi.
  { apply median_range; [done|]. assert (forall k n, (forall j, (n <= j < n + 4 * k)%nat ->
      time j <= time (S j) /\ 0 <= a + time j < 2 ^ 30 /\ 0 <= b + time j < 2 ^ 30) -> Forall is_i32 (values k n)) as Hv.
    { clear. induction k as [|k IH]; intros n Hk; constructor; [|apply IH; intros; apply Hk; lia].
      change (2 ^ 30) with 1073741824 in Hk. pose proof (Hk n ltac:(lia)) as (? & ? & ?).
      pose proof (Hk (1 + n)%nat ltac:(lia)) as (? & ? & ?). pose proof (Hk (2 + n)%nat ltac:(lia)) as (? & ? & ?).
      pose proof (Hk (3 + n)%nat ltac:(lia)) as (? & ? & ?). unfold measured, is_i32. simpl in *. dlia. }
    apply Hv. exact Hr. }
  rewrite E6 in Hm. unfold c_true. destruct (offs =? 0) eqn:E; cbn [negb].
  - exists offs. split; [done|]. unfold adjust. rewrite E, app_nil_r, rev_app_distr, <- app_assoc. exact Hm.
  - unfold bind, do. exists offs. split; [done|]. cbn [map fst]. rewrite Hm. unfold adjust. rewrite E.
    rewrite !rev_app_distr, <- !app_assoc. cbn [rev app]. unfold is_i32 in Hi. apply Z.eqb_neq in E.
    destruct (Z.ltb_spec offs 0).
    + rewrite Z.abs_neq, (u32_small (- offs)), (u32_small (- offs)) by (unfold is_u32; lia). done.
    + rewrite Z.abs_eq, (u32_small offs), (u32_small offs) by (unfold is_u32; lia). done.
Qed.
End clocks.

(** ** Witness *)
Section witness.

(** Two devices; the first clock is ahead by 200; one run is disturbed. *)
Definition demo_registers : gmap Z Z := <[0 := 4096]> (<[1 := 65536]> ∅).
Definition demo_time (n : nat) : Z := 10 * Z.of_nat n + (if (n =? 9)%nat then 5 else 0).
Definition demo_clocks : Env dcall dans := fun t c =>
  {| val := match c with
            | MmioRead _ addr => (if addr =? 4096 + 8 then 500 else 300) + demo_time (length t)
            | _ => 0
            end;
     dev_info := no_info; addr_bytes := []; rx_pkts := [] |}.

Lemma sync_clocks_adjusts_witness :
  exists rest, map fst (libmoon_sync_clocks (H0 := demo_clocks) demo_registers 0 1 8 12 16 20 []).2 =
    MmioWrite 32 (65536 + 20) 0 :: MmioWrite 32 (65536 + 16) 200 :: rest.
Proof.
  assert (clocks (H0 := demo_clocks) demo_registers 0 1 8 500 300 demo_time) as Hc by (intros t; split; reflexivity).
  assert (in_range 500 300 demo_time (6 + 0)) as Hr.
  { intros k Hk. unfold num_runs, demo_time in *. change (2 ^ 30) with 1073741824.
    destruct (Nat.eqb_spec k 9), (Nat.eqb_spec (S k) 9); lia. }
  pose proof (sync_clocks_adjusts (H0 := demo_clocks) demo_registers 0 1 8 12 16 20 500 300 demo_time 0 []
    ltac:(discriminate) Hc Hr (Z.le_refl 0) ltac:(vm_compute; lia)) as Hs.
  destruct (libmoon_sync_clocks (H0 := demo_clocks) demo_registers 0 1 8 12 16 20 []) as [[] t].
  destruct Hs as (offs & Ho & Ht). assert (offs = 200) as -> by lia.
  eexists. simpl snd. rewrite Ht, app_nil_r, !rev_app_distr. reflexivity.
Defined.
End witness.
