(* ===== verification/Barrier.v ===== *)
(** * Barriers between tasks (src/src/barrier.cpp)

    The threads that share a barrier are interleaved step by step: taking and
    releasing the mutex, the decrement, the notification, the test of the
    predicate and the sleep on the condition variable are steps of their own, and
    a sleeping thread may wake up without having been notified. *)
From S2P Require Import Prelude.

(** A call a thread makes. *)
Inductive op :=
| barrier_wait
| barrier_reinit (n : Z).

(** Where a thread stands: outside, in [barrier_wait] before the decrement, in
    front of [notify_all], in front of the test of the predicate, asleep on the
    condition variable (and notified or not), in front of the destructor of the
    lock, in [barrier_reinit] before the assignment. *)
Inductive pc :=
| Idle
| Decrement
| NotifyAll
| Test
| Sleep (notified : bool)
| Unlock
| Assign (n : Z).

Record thread := { at_pc : pc; calls : list op }.
(** [n] is a [std::size_t]; [mutex] is the thread that holds the lock. *)
Record barrier := { n : Z; mutex : option nat; threads : list thread }.

Definition make_barrier (k : Z) (progs : list (list op)) : barrier :=
  {| n := u64 k; mutex := None; threads := map (fun p => {| at_pc := Idle; calls := p |}) progs |}.

(** [cond.notify_all()] seen by one thread. *)
Definition notify (t : thread) : thread :=
  match at_pc t with
  | Sleep _ => {| at_pc := Sleep true; calls := calls t |}
  | _ => t
  end.

Definition goto (s : barrier) (i : nat) (p : pc) (l : list op) (m : option nat) : barrier :=
  {| n := n s; mutex := m; threads := <[i := {| at_pc := p; calls := l |}]> (threads s) |}.

Definition acquire (s : barrier) (i : nat) (p : pc) (l : list op) : option barrier :=
  match mutex s with
  | None => Some (goto s i p l (Some i))
  | Some _ => None
  end.

(** The next step of thread [i]; [None] when it is blocked or has finished. *)
Definition step (i : nat) (s : barrier) : option barrier :=
  t ← threads s !! i;
  match at_pc t, calls t with
  | Idle, [] => None
  | Idle, barrier_wait :: l => acquire s i Decrement l
  | Idle, barrier_reinit k :: l => acquire s i (Assign k) l
  | Decrement, l =>
      let n' := u64 (n s - 1) in
      Some {| n := n'; mutex := mutex s;
              threads := <[i := {| at_pc := if n' =? 0 then NotifyAll else Test; calls := l |}]> (threads s) |}
  | NotifyAll, l =>
      Some {| n := n s; mutex := mutex s;
              threads := <[i := {| at_pc := Unlock; calls := l |}]> (map notify (threads s)) |}
  | Test, l =>
      if n s =? 0 then Some (goto s i Unlock l (mutex s)) else Some (goto s i (Sleep false) l None)
  | Sleep true, l => acquire s i Test l
  | Sleep false, _ => None
  | Unlock, l => Some (goto s i Idle l None)
  | Assign k, l =>
      Some {| n := u64 k; mutex := mutex s;
              threads := <[i := {| at_pc := Unlock; calls := l |}]> (threads s) |}
  end.

(** A wake-up of thread [i] that nothing caused. *)
Definition spurious_wakeup (i : nat) (s : barrier) : option barrier :=
  t ← threads s !! i;
  match at_pc t with
  | Sleep false => Some (goto s i (Sleep true) (calls t) (mutex s))
  | _ => None
  end.

Inductive event :=
| Step (i : nat)
| Wakeup (i : nat).

Definition next (e : event) (s : barrier) : option barrier :=
  match e with
  | Step i => step i s
  | Wakeup i => spurious_wakeup i s
  end.

Fixpoint run (es : list event) (s : barrier) : option barrier :=
  match es with
  | [] => Some s
  | e :: es => s' ← next e s; run es s'
  end.

(** A thread has returned from all its calls; it has still to decrement. *)
Definition returned (t : thread) : bool :=
  match at_pc t, calls t with Idle, [] => true | _, _ => false end.
Definition arriving (t : thread) : bool :=
  match at_pc t, calls t with Idle, _ :: _ => true | Decrement, _ => true | _, _ => false end.
Definition all_returned (s : barrier) : bool := forallb returned (threads s).

(** [k] threads that each wait once at a barrier made for [k] threads. *)
Definition fresh (k : nat) : barrier := make_barrier (Z.of_nat k) (replicate k [barrier_wait]).

(** ** The invariant *)
Definition thread_ok (cnt : Z) (owner : option nat) (i : nat) (t : thread) : Prop :=
  match at_pc t, calls t with
  | Idle, [barrier_wait] => owner <> Some i
  | Idle, [] => owner <> Some i /\ cnt = 0
  | Decrement, [] | Test, [] => owner = Some i
  | NotifyAll, [] | Unlock, [] => owner = Some i /\ cnt = 0
  | Sleep _, [] => owner <> Some i
  | _, _ => False
  end.

Definition count_arriving (l : list thread) : Z := zsum (map (fun t => c_bool (arriving t)) l).

Definition unnotified (s : barrier) : Prop :=
  exists j t, threads s !! j = Some t /\ at_pc t = Sleep false.
Definition notifying (s : barrier) : Prop :=
  exists j t, threads s !! j = Some t /\ at_pc t = NotifyAll.

Record Inv (s : barrier) : Prop := {
  inv_threads : forall i t, threads s !! i = Some t -> thread_ok (n s) (mutex s) i t;
  inv_count : n s = count_arriving (threads s);
  inv_size : Z.of_nat (length (threads s)) < 2 ^ 64;
  inv_owner : forall i, mutex s = Some i -> (i < length (threads s))%nat;
  inv_wakeup : n s = 0 -> unnotified s -> notifying s
}.

Lemma arriving_range t : 0 <= c_bool (arriving t) <= 1.
Proof. unfold c_bool. destruct (arriving t); lia. Qed.

Lemma count_arriving_range l : 0 <= count_arriving l <= Z.of_nat (length l).
Proof.
  unfold count_arriving. induction l as [|t l IH]; simpl; [lia|].
  pose proof (arriving_range t). lia.
Qed.

Lemma count_arriving_lookup l i t :
  l !! i = Some t -> arriving t = true -> 1 <= count_arriving l.
Proof.
  intros E Ha. pose proof (zsum_map_delete (fun t => c_bool (arriving t)) l i t E) as Hd.
  pose proof (count_arriving_range (delete i l)) as Hr. unfold count_arriving in *.
  simpl in Hd. rewrite Ha in Hd. simpl in Hd. lia.
Qed.

Lemma count_arriving_insert l i t t' :
  l !! i = Some t ->
  count_arriving (<[i:=t']> l) = count_arriving l - c_bool (arriving t) + c_bool (arriving t').
Proof. apply (zsum_map_insert (fun t => c_bool (arriving t))). Qed.

Lemma count_arriving_notify l : count_arriving (map notify l) = count_arriving l.
Proof.
  unfold count_arriving. rewrite map_map. f_equal. apply map_ext.
  intros [[| | | | | |] l']; done.
Qed.

(** Another thread's assertion survives when the counter is unchanged or was
    not yet zero, and the mutex is taken by or from the stepping thread. *)
Lemma thread_ok_frame cnt cnt' o o' i j t :
  thread_ok cnt o j t -> i <> j -> cnt' = cnt \/ cnt <> 0 ->
  o' = o \/ o = None \/ o = Some i -> o' = o \/ o' = None \/ o' = Some i -> thread_ok cnt' o' j t.
Proof.
  unfold thread_ok. destruct t as [p l]; simpl.
  destruct p, l as [|[|] [|]]; naive_solver.
Qed.

Lemma inv_update s i t t' cnt' o' :
  Inv s -> threads s !! i = Some t ->
  (mutex s = None \/ mutex s = Some i) -> (o' = None \/ o' = Some i) ->
  cnt' = n s - c_bool (arriving t) + c_bool (arriving t') ->
  cnt' = n s \/ n s <> 0 ->
  thread_ok cnt' o' i t' ->
  (cnt' = 0 -> at_pc t' = Sleep false -> False) ->
  (cnt' = 0 -> unnotified s -> at_pc t' = NotifyAll \/ (at_pc t <> NotifyAll /\ n s = 0)) ->
  Inv {| n := cnt'; mutex := o'; threads := <[i := t']> (threads s) |}.
Proof.
  intros I E Ho Ho' Hc Hz Ht Hs Hn.
  assert (i < length (threads s))%nat as Hi by (by eapply lookup_lt_Some).
  constructor; simpl.
  - intros j u. rewrite list_lookup_insert_Some. intros [[-> [-> _]]|[Hne Eu]]; [done|].
    eapply thread_ok_frame; [by eapply inv_threads|done|naive_solver..].
  - rewrite (count_arriving_insert _ _ t) by done. by rewrite <- (inv_count s I).
  - rewrite length_insert. apply (inv_size s I).
  - intros j ->. rewrite length_insert. by destruct Ho' as [|[= ->]].
  - intros -> (j & u & Eu & Eup). simpl in Eu. apply list_lookup_insert_Some in Eu.
    destruct Eu as [[-> [-> _]]|[Hne Eu]]; [by destruct Hs|].
    destruct (Hn eq_refl ltac:(by exists j, u)) as [Hp|[Hp Hz']].
    + exists i, t'. simpl. by rewrite list_lookup_insert_eq.
    + destruct (inv_wakeup s I Hz' ltac:(by exists j, u)) as (k & v & Ek & Evp).
      exists k, v. simpl. rewrite list_lookup_insert_ne; [done|]. intros ->. naive_solver.
Qed.

Lemma notify_not_asleep t : at_pc (notify t) <> Sleep false.
Proof. by destruct t as [[| | | | | |] l]. Qed.

Lemma thread_ok_notify cnt o i t : thread_ok cnt o i t -> thread_ok cnt o i (notify t).
Proof. by destruct t as [[| | | | | |] l]. Qed.

Lemma inv_notify s :
  Inv s -> Inv {| n := n s; mutex := mutex s; threads := map notify (threads s) |}.
Proof.
  intros [I1 I2 I3 I4 _]. constructor; simpl.
  - intros i t Et. rewrite lookup_map in Et.
    apply fmap_Some in Et as (u & Eu & ->). by apply thread_ok_notify, I1.
  - by rewrite count_arriving_notify.
  - by rewrite length_map.
  - intros i Ei. rewrite length_map. by apply I4.
  - intros _ (j & t & Et & Ep). simpl in Et. rewrite lookup_map in Et.
    apply fmap_Some in Et as (u & _ & ->). by apply notify_not_asleep in Ep.
Qed.

(** The counter of a barrier is never decremented below zero. *)
Lemma inv_decrement s i t :
  Inv s -> threads s !! i = Some t -> at_pc t = Decrement -> 1 <= n s /\ u64 (n s - 1) = n s - 1.
Proof.
  intros I E Ep. assert (1 <= n s) as Hn.
  { rewrite (inv_count s I). eapply count_arriving_lookup; [done|]. unfold arriving. by rewrite Ep. }
  split; [done|]. pose proof (inv_size s I). pose proof (inv_count s I).
  pose proof (count_arriving_range (threads s)). apply u64_small. unfold is_u64. lia.
Qed.

Ltac inv_side :=
  simpl; intros; try (unfold arriving; simpl; lia); try tauto; try done; naive_solver.

Lemma inv_step i s s' : Inv s -> step i s = Some s' -> Inv s'.
Proof.
  intros I Hs. unfold step, acquire, goto in Hs.
  destruct (threads s !! i) as [[p l]|] eqn:E; [|done]. simpl in Hs.
  pose proof (inv_threads s I i _ E) as Hok. unfold thread_ok in Hok. simpl in Hok.
  destruct p.
  - destruct l as [|[|] [|]]; try done. destruct (mutex s) eqn:Em; [done|]. injection Hs as <-.
    eapply (inv_update _ i _ _ _ _ I E); inv_side.
  - destruct (inv_decrement s i _ I E eq_refl) as [Hn Hu]. rewrite Hu in Hs.
    destruct l; [|done]. injection Hs as <-.
    destruct (Z.eqb_spec (n s - 1) 0); (eapply (inv_update _ i _ _ _ _ I E); inv_side).
  - destruct l; [|done]. injection Hs as <-. destruct Hok as [Hm Hz].
    pose proof (inv_notify s I) as I'. eapply (inv_update _ i _ _ _ _ I').
    + simpl. rewrite lookup_map, E. done.
    + by right.
    + by right.
    + inv_side.
    + by left.
    + done.
    + done.
    + intros _ (j & t & Et & Ep). simpl in Et. rewrite lookup_map in Et.
      apply fmap_Some in Et as (u & _ & ->). by apply notify_not_asleep in Ep.
  - destruct l; [|done]. destruct (Z.eqb_spec (n s) 0); injection Hs as <-;
      (eapply (inv_update _ i _ _ _ _ I E); inv_side).
  - destruct notified; [|done]. destruct l; [|done]. destruct (mutex s) eqn:Em; [done|]. injection Hs as <-.
    eapply (inv_update _ i _ _ _ _ I E); inv_side.
  - destruct l; [|done]. injection Hs as <-. destruct Hok as [Hm Hz].
    eapply (inv_update _ i _ _ _ _ I E); inv_side.
  - by destruct l.
Qed.

Lemma inv_spurious i s s' : Inv s -> spurious_wakeup i s = Some s' -> Inv s'.
Proof.
  intros I Hs. unfold spurious_wakeup, goto in Hs.
  destruct (threads s !! i) as [[p l]|] eqn:E; [|done]. simpl in Hs.
  pose proof (inv_threads s I i _ E) as Hok. unfold thread_ok in Hok. simpl in Hok.
  destruct p as [| | | |[|]| |]; try done. destruct l; [|done]. injection Hs as <-.
  destruct I as [I1 I2 I3 I4 I5]. constructor; simpl.
  - intros j u Eu. apply list_lookup_insert_Some in Eu as [(-> & <- & _)|[_ Eu]]; [done|by apply I1].
  - rewrite (count_arriving_insert _ _ _ _ E). unfold arriving. simpl. lia.
  - by rewrite length_insert.
  - intros j Ej. rewrite length_insert. by apply I4.
  - intros Hz (j & u & Eu & Ep). simpl in Eu.
    apply list_lookup_insert_Some in Eu as [(-> & <- & _)|[Hne Eu]]; [done|].
    destruct (I5 Hz ltac:(by exists j, u)) as (k & v & Ek & Evp).
    exists k, v. simpl. rewrite list_lookup_insert_ne; [done|]. intros ->. naive_solver.
Qed.

Lemma inv_next e s s' : Inv s -> next e s = Some s' -> Inv s'.
Proof. destruct e; simpl; eauto using inv_step, inv_spurious. Qed.

Lemma inv_run es : forall s s', Inv s -> run es s = Some s' -> Inv s'.
Proof.
  induction es as [|e es IH]; intros s s' I Hr; simpl in Hr; [by injection Hr as <-|].
  destruct (next e s) as [s1|] eqn:E; [|done]. eapply IH; [by eapply inv_next|done].
Qed.

Lemma fresh_threads k : threads (fresh k) = replicate k {| at_pc := Idle; calls := [barrier_wait] |}.
Proof. unfold fresh, make_barrier. simpl. induction k as [|k IH]; simpl; [done|]. by rewrite IH. Qed.

Lemma inv_fresh k : Z.of_nat k < 2 ^ 64 -> Inv (fresh k).
Proof.
  intros Hk. constructor; rewrite ?fresh_threads; simpl.
  - intros i t [-> Hi]%lookup_replicate. simpl. done.
  - rewrite u64_small by (unfold is_u64; lia). unfold count_arriving. clear Hk.
    induction k as [|k IH]; [done|]. simpl. rewrite <- IH. lia.
  - by rewrite length_replicate.
  - done.
  - intros _ (j & t & Et & Ep). rewrite fresh_threads in Et.
    apply lookup_replicate in Et as [-> _]. done.
Qed.

(** ** Progress *)

(** How many steps a thread can still make; the thread in front of [notify_all]
    also pays for the threads it wakes up. *)
Definition rank (k : Z) (t : thread) : Z :=
  match at_pc t, calls t with
  | Idle, [] => 0
  | Idle, _ => 2 * k + 4
  | Decrement, _ => 2 * k + 3
  | NotifyAll, _ => 2 * k + 2
  | Sleep true, _ => 3
  | Test, _ => 2
  | Sleep false, _ | Unlock, _ => 1
  | Assign _, _ => 2
  end.

Definition potential (s : barrier) : Z :=
  zsum (map (rank (Z.of_nat (length (threads s)))) (threads s)).

Lemma rank_nonneg k t : 0 <= k -> 0 <= rank k t.
Proof. intros. destruct t as [[| | | |[|]| |] [|]]; unfold rank; simpl; lia. Qed.

Lemma potential_nonneg s : 0 <= potential s.
Proof.
  apply zsum_nonneg, Forall_forall. intros x Hx. apply list_elem_of_In, in_map_iff in Hx.
  destruct Hx as (t & <- & _). apply rank_nonneg. lia.
Qed.

Lemma rank_notify_all k l :
  zsum (map (rank k) (map notify l)) <= zsum (map (rank k) l) + 2 * Z.of_nat (length l).
Proof.
  induction l as [|t l IH]; [simpl; lia|]. simpl map. simpl zsum. rewrite length_cons.
  assert (rank k (notify t) <= rank k t + 2); [|lia].
  destruct t as [[| | | |[|]| |] [|]]; unfold rank; simpl; lia.
Qed.

Lemma next_length e s s' : next e s = Some s' -> length (threads s') = length (threads s).
Proof.
  destruct e as [i|i]; simpl; unfold step, spurious_wakeup, acquire, goto; intros Hs;
    destruct (threads s !! i) as [[p l]|]; try done; simpl in Hs;
    destruct p as [| | | |[|]| |]; try done.
  all: repeat case_match; simplify_eq/=; by rewrite ?length_insert, ?length_map.
Qed.

Lemma potential_insert s i t t' cnt o :
  threads s !! i = Some t ->
  potential {| n := cnt; mutex := o; threads := <[i := t']> (threads s) |}
  = potential s - rank (Z.of_nat (length (threads s))) t + rank (Z.of_nat (length (threads s))) t'.
Proof. intros E. unfold potential. simpl. rewrite length_insert. by apply zsum_map_insert. Qed.

Lemma step_decreases i s s' : Inv s -> step i s = Some s' -> potential s' < potential s.
Proof.
  intros I. unfold step, acquire, goto. destruct (threads s !! i) as [[p l]|] eqn:E; [|done]. simpl. intros Hs.
  pose proof (inv_threads s I i _ E) as Hok. unfold thread_ok in Hok. simpl in Hok.
  destruct p as [| | | |[|]| |]; try done.
  3: {
    injection Hs as <-. unfold potential. simpl. rewrite length_insert, length_map.
    rewrite (zsum_map_insert _ _ _ (notify {| at_pc := NotifyAll; calls := l |}))
      by (by rewrite lookup_map, E).
    pose proof (rank_notify_all (Z.of_nat (length (threads s))) (threads s)).
    destruct l; [|done]. unfold rank at 2 3. simpl. lia. }
  all: destruct l as [|[|] [|]]; try done; repeat case_match; simplify_eq/=.
  all: rewrite (potential_insert _ _ _ _ _ _ E); unfold rank; simpl; lia.
Qed.

Lemma wakeup_increases i s s' : spurious_wakeup i s = Some s' -> potential s' = potential s + 2.
Proof.
  unfold spurious_wakeup, goto. destruct (threads s !! i) as [[p l]|] eqn:E; [|done]. simpl. intros Hs.
  destruct p as [| | | |[|]| |]; try done. injection Hs as <-.
  rewrite (potential_insert _ _ _ _ _ _ E). unfold rank. simpl. lia.
Qed.

Fixpoint steps (es : list event) : Z :=
  match es with [] => 0 | Step _ :: es => 1 + steps es | Wakeup _ :: es => steps es end.
Fixpoint wakeups (es : list event) : Z :=
  match es with [] => 0 | Step _ :: es => wakeups es | Wakeup _ :: es => 1 + wakeups es end.

Lemma run_potential es : forall s s',
  Inv s -> run es s = Some s' ->
  steps es + potential s' <= potential s + 2 * wakeups es /\ length (threads s') = length (threads s).
Proof.
  induction es as [|e es IH]; intros s s' I Hr; simpl in Hr; [injection Hr as <-; simpl; lia|].
  destruct (next e s) as [s1|] eqn:E; [|done]. apply IH in Hr as [Hr Hl]; [|by eapply inv_next].
  pose proof (next_length _ _ _ E). split; [|congruence].
  destruct e as [i|i]; simpl in E |- *; [apply step_decreases in E; [|done]|apply wakeup_increases in E]; lia.
Qed.

(** The holder of the mutex can always go on. *)
Lemma holder_steps s i : Inv s -> mutex s = Some i -> step i s <> None.
Proof.
  intros I Em. destruct (lookup_lt_is_Some_2 _ _ (inv_owner s I i Em)) as [t Et].
  pose proof (inv_threads s I i t Et) as Hok. unfold thread_ok in Hok. unfold step. rewrite Et. simpl.
  rewrite Em in Hok. destruct t as [[| | | |[|]| |] [|[|] [|]]]; simpl in *; try naive_solver.
  by case_match.
Qed.

Lemma blocked_thread s i t :
  Inv s -> step i s = None -> mutex s = None -> threads s !! i = Some t ->
  arriving t = false /\ (returned t = true \/ at_pc t = Sleep false) /\ at_pc t <> NotifyAll.
Proof.
  intros I Hs Em Et. pose proof (inv_threads s I i t Et) as Hok. unfold thread_ok in Hok.
  unfold step, acquire in Hs. rewrite Et in Hs. simpl in Hs. rewrite Em in Hs, Hok.
  destruct t as [[| | | |[|]| |] [|[|] [|]]]; simpl in *; try naive_solver.
Qed.

Lemma count_arriving_none l :
  (forall i t, l !! i = Some t -> arriving t = false) -> count_arriving l = 0.
Proof.
  unfold count_arriving. induction l as [|t l IH]; intros Hl; [done|]. simpl.
  rewrite (Hl 0%nat t eq_refl), IH; [done|]. intros i u Eu. apply (Hl (S i) u Eu).
Qed.

(** A state in which no thread can step is one in which all have returned. *)
Lemma no_deadlock s :
  Inv s -> (forall i, step i s = None) -> n s = 0 /\ mutex s = None /\ all_returned s = true.
Proof.
  intros I Hb. assert (mutex s = None) as Em.
  { destruct (mutex s) as [i|] eqn:Em; [|done]. by destruct (holder_steps s i I Em (Hb i)). }
  assert (n s = 0) as Hz.
  { rewrite (inv_count s I). apply count_arriving_none. intros i t Et.
    by apply (blocked_thread s i t I (Hb i) Em Et). }
  split; [done|]. split; [done|]. unfold all_returned. apply forallb_forall. intros t Ht.
  apply list_elem_of_In, list_elem_of_lookup in Ht as [i Et].
  destruct (blocked_thread s i t I (Hb i) Em Et) as (_ & [|Hp] & _); [done|]. exfalso.
  destruct (inv_wakeup s I Hz ltac:(by exists i, t)) as (j & u & Eu & Hu).
  by destruct (blocked_thread s j u I (Hb j) Em Eu) as (_ & _ & Hne).
Qed.

(** C24. [barrier_wait] is a barrier: in every interleaving of [k] threads that
    wait at a barrier made for [k], spurious wake-ups included, no thread has
    returned while another one has not yet been counted. *)
Theorem barrier_safe k es s i t :
  Z.of_nat k < 2 ^ 64 ->
  run es (fresh k) = Some s ->
  threads s !! i = Some t -> returned t = true ->
  forall j u, threads s !! j = Some u -> arriving u = false.
Proof.
  intros Hk Hr Et Hret j u Eu. pose proof (inv_run _ _ _ (inv_fresh k Hk) Hr) as I.
  pose proof (inv_threads s I i t Et) as Hok. unfold thread_ok, returned in *.
  destruct t as [[] []]; try done. simpl in Hok. destruct Hok as [_ Hz].
  destruct (arriving u) eqn:Ea; [|done]. exfalso.
  pose proof (count_arriving_lookup _ _ _ Eu Ea). pose proof (inv_count s I). lia.
Qed.

Lemma potential_fresh k : potential (fresh k) = Z.of_nat k * (2 * Z.of_nat k + 4).
Proof.
  unfold potential. rewrite fresh_threads, length_replicate. generalize (Z.of_nat k) at 1 3. intros K.
  induction k as [|k IH]; [done|]. simpl replicate. simpl map. simpl zsum. rewrite IH.
  unfold rank. simpl. lia.
Qed.

(** C25. The wait ends: in every interleaving the threads make a bounded number of
    steps (two more for each spurious wake-up), and when none can make another
    one, all have returned; the mutex is free then and the counter is zero, so
    that the barrier can be initialised again.  No notification is lost and no
    thread is left asleep. *)
Theorem barrier_live k es s :
  Z.of_nat k < 2 ^ 64 ->
  run es (fresh k) = Some s ->
  steps es <= Z.of_nat k * (2 * Z.of_nat k + 4) + 2 * wakeups es /\
  length (threads s) = k /\
  ((forall i, step i s = None) -> n s = 0 /\ mutex s = None /\ all_returned s = true).
Proof.
  intros Hk Hr. pose proof (inv_run _ _ _ (inv_fresh k Hk) Hr) as I.
  destruct (run_potential _ _ _ (inv_fresh k Hk) Hr) as [Hp Hl]. rewrite potential_fresh in Hp.
  pose proof (potential_nonneg s). rewrite fresh_threads, length_replicate in Hl.
  repeat split; [lia|done|by apply no_deadlock..].
Qed.

(** ** Using a barrier again

    [barrier_reinit] does not wait for the threads that are still leaving. *)
Definition reuse (k : Z) : barrier := make_barrier 2 [[barrier_wait; barrier_reinit k]; [barrier_wait]].

(** Thread 1 sleeps, thread 0 passes, returns and initialises the barrier again,
    then thread 1 wakes up. *)
Definition overtaking : list event :=
  [Step 1; Step 1; Step 1; Step 0; Step 0; Step 0; Step 0; Step 0; Step 0; Step 0; Step 1; Step 1]%nat.

Definition left_behind (k : Z) (s : barrier) : Prop :=
  n s = k /\ exists t, threads s = [{| at_pc := Idle; calls := [] |}; t] /\ calls t = [] /\
  ((at_pc t = Test /\ mutex s = Some 1%nat) \/ (exists b, at_pc t = Sleep b /\ mutex s = None)).

Lemma left_behind_next k e s s' : k <> 0 -> left_behind k s -> next e s = Some s' -> left_behind k s'.
Proof.
  destruct s as [m o l]. intros Hk (Hm & [p c] & Hl & Hc & Hp) Hn. simpl in *. subst.
  destruct e as [[|[|i]]|[|[|i]]]; simpl in Hn; try done;
    unfold step, spurious_wakeup, acquire, goto in Hn; simpl in Hn;
    destruct Hp as [[-> ->]|([|] & -> & ->)]; simpl in Hn; try done; [|injection Hn as <-..].
  - rewrite (proj2 (Z.eqb_neq _ _) Hk) in Hn. injection Hn as <-.
    split; [done|]. eexists. split; [done|]. split; [done|]. right. by eexists.
  - split; [done|]. eexists. split; [done|]. split; [done|]. by left.
  - split; [done|]. eexists. split; [done|]. split; [done|]. right. by eexists.
Qed.

(** C26. A [barrier_reinit] made after [barrier_wait] returned can overtake a
    thread that was counted but has not left the barrier yet: that thread then
    tests the new counter, goes to sleep again, and never returns, whatever
    steps and wake-ups follow. *)
Theorem barrier_reinit_strands k :
  0 < k < 2 ^ 64 ->
  exists s, run overtaking (reuse k) = Some s /\
    (returned <$> threads s !! 0%nat) = Some true /\
    (forall i, step i s = None) /\
    forall es s', run es s = Some s' -> (returned <$> threads s' !! 1%nat) = Some false.
Proof.
  intros Hk. eexists {| n := k; mutex := None; threads := [ {| at_pc := Idle; calls := [] |}; {| at_pc := Sleep false; calls := [] |} ] |}.
  split; [|split; [done|split]].
  - unfold overtaking, reuse, make_barrier. cbn. unfold step, acquire, goto. cbn.
    change (u64 (u64 2 - 1)) with 1. change (1 =? 0) with false. cbn.
    change (u64 (1 - 1)) with 0. cbn.
    rewrite (u64_small k) by (unfold is_u64; lia). by rewrite (proj2 (Z.eqb_neq k 0)) by lia.
  - intros [|[|i]]; done.
  - assert (forall es s s', left_behind k s -> run es s = Some s' -> left_behind k s') as Hl.
    { induction es as [|e es IH]; intros s s' Hs Hr; simpl in Hr; [by injection Hr as <-|].
      destruct (next e s) as [s1|] eqn:E; [|done]. eapply IH; [|done].
      eapply left_behind_next; [|done..]. lia. }
    intros es s' Hr. apply Hl in Hr as (_ & [p c] & Et & Hc & Hp).
    + rewrite Et. simpl in *. subst. destruct Hp as [[-> _]|(b & -> & _)]; done.
    + split; [done|]. eexists. split; [done|]. split; [done|]. right. by eexists.
Qed.

(** ** Three tasks at a barrier for three, one of them woken up too early *)
Definition meeting : list event :=
  [Step 2; Step 2; Step 2; Wakeup 2; Step 0; Step 0; Step 0; Step 2; Step 2; Step 1; Step 1; Step 1; Step 1;
   Step 0; Step 0; Step 0; Step 2; Step 2; Step 2]%nat.

Lemma barrier_safe_witness :
  exists s, run meeting (fresh 3) = Some s /\ all_returned s = true /\ steps meeting = 18 /\ wakeups meeting = 1 /\
  forall j u, threads s !! j = Some u -> arriving u = false.
Proof.
  eexists. split; [vm_compute; reflexivity|]. split; [reflexivity|]. split; [reflexivity|]. split; [reflexivity|].
  apply (barrier_safe 3 meeting _ 0 {| at_pc := Idle; calls := [] |}); vm_compute; reflexivity.
Defined.

Lemma barrier_live_witness :
  exists s, run meeting (fresh 3) = Some s /\ steps meeting <= 3 * (2 * 3 + 4) + 2 * wakeups meeting /\
  n s = 0 /\ mutex s = None.
Proof.
  eexists. split; [vm_compute; reflexivity|].
  destruct (barrier_live 3 meeting _ eq_refl eq_refl) as (Hs & _ & Hd).
  split; [exact Hs|]. destruct (Hd) as (Hn & Hm & _); [|by split].
  intros [|[|[|i]]]; vm_compute; reflexivity.
Defined.

Lemma barrier_reinit_strands_witness :
  exists s, run overtaking (reuse 2) = Some s /\ forall i, step i s = None.
Proof.
  destruct (barrier_reinit_strands 2 ltac:(lia)) as (s & Hr & _ & Hb & _). by exists s.
Defined.
