(* ===== verification/Ice.v ===== *)
(** * Intel E810 devices (src/src/tx_scheduler_ice.c, src/src/ice.c)

    The transmit scheduler of the device is a tree of nodes kept in a software
    data base, under a lock, and mirrored in the hardware through commands on
    the admin queue.  [ice_tx_sched_set_pps_port] and [_queue] switch a node
    between packets and bytes per second; [ice_read_current_timer] reads a 64-bit
    counter through two 32-bit registers. *)
From S2P Require Import Prelude Effects.

(** ** Data: the members of DPDK's structures the code uses

    [rest] stands for the sections of an element that are only copied. *)
Record ice_aqc_txsched_elem := {
  elem_type : Z; valid_sections : Z; generic : Z; flags : Z; rest : Z
}.
Record ice_aqc_txsched_elem_data := { parent_teid : Z; node_teid : Z; data : ice_aqc_txsched_elem }.
Record ice_sched_node := {
  info : ice_aqc_txsched_elem_data; agg_id : Z; parent : ptr; sibling : ptr; tc_num : Z
}.
#[local] Abbreviation nodes := (gmap Z ice_sched_node).

Record ice_aq_desc := { opcode : Z; desc_flags : Z; num_elem_req : Z }.

Record ts_func_info := { src_tmr_owned : bool; tmr_index_owned : Z }.
Record ice_hw := {
  hw_id : Z; num_tx_sched_layers : Z; sw_entry_point_layer : Z; ts_info : ts_func_info
}.
Record ice_port_info := { pi_hw : option ice_hw; sib_head : Z -> Z -> ptr; root : ptr; sched_lock : Z }.

(** A port: its [hw], [hw->port_info] (which may be [NULL]) and [pf->main_vsi->idx]. *)
Record ice_port := { hw : ice_hw; port_info : option ice_port_info; main_vsi_idx : Z }.

Inductive ice_agg_type := ICE_AGG_TYPE_VSI | ICE_AGG_TYPE_AGG | ICE_AGG_TYPE_Q | ICE_AGG_TYPE_QG | ICE_AGG_TYPE_OTHER.

(** Constants and functions of DPDK's ice driver. *)
Class IceBase := {
  ICE_AQC_ELEM_TYPE_TC : Z;
  ICE_AQC_ELEM_TYPE_LEAF : Z;
  ICE_AQC_ELEM_VALID_CIR : Z;
  ICE_AQC_ELEM_GENERIC_MODE_M : Z;
  ICE_AQ_FLAG_RD : Z;
  ice_aqc_opc_cfg_sched_elems : Z;
  ICE_AGG_LAYER_OFFSET : Z;
  ICE_ERR_PARAM : Z;
  ICE_ERR_CFG : Z;
  ICE_SUCCESS : Z;
  ICE_MAX_BW : Z;
  ICE_ERR_NONZERO : ICE_ERR_PARAM <> 0 /\ ICE_ERR_CFG <> 0;
  sizeof_elem_data : Z;
  CPU_TO_LE16 : Z -> Z;
  LE16_TO_CPU : Z -> Z;
  ice_fill_dflt_direct_cmd_desc : Z -> ice_aq_desc;
  GLTSYN_TIME_L : Z -> Z;
  GLTSYN_TIME_H : Z -> Z;
  ice_is_vsi_valid : ice_hw -> Z -> bool;
  (** the member [sched.vsi_node] of the context *)
  ice_get_vsi_ctx : ice_hw -> Z -> option (Z -> ptr);
  ice_sched_get_tc_node : nodes -> ice_port_info -> Z -> ptr;
  ice_sched_get_node : nodes -> ice_port_info -> Z -> ptr;
  ice_sched_find_node_by_teid : nodes -> ptr -> Z -> ptr;
  (** the member [q_teid] of the context *)
  ice_get_lan_q_ctx : ice_hw -> Z -> Z -> Z -> option Z
}.

Inductive icall :=
| AcquireLock (l : Z)
| ReleaseLock (l : Z)
| AqSendCmd (d : ice_aq_desc) (buf : ice_aqc_txsched_elem_data) (size : Z)
| IceDebug (msg : string)
| Printf (msg : string) (args : list Z)
| Rd32 (reg : Z)
| PtpInitTime (hw : Z)
| CfgQBwLmt (vsi tc queue rl bw : Z)
| CfgVsiBwLmt (vsi tc rl bw : Z).

(** [value]: the result; [resp]: [num_elem_resp] as the device wrote it. *)
Record ians := { value : Z; resp : Z }.

Open Scope eff_scope.

Section code.
Context `{IceBase} `{Env icall ians}.

(** ** The scheduler data base (copied from ice_sched.c) *)
Definition ice_aqc_send_sched_elem_cmd (cmd_opc elems_req : Z) (buf : ice_aqc_txsched_elem_data) (buf_size : Z) : M icall ians (Z * option Z) :=
  let desc := ice_fill_dflt_direct_cmd_desc cmd_opc in
  let desc := {| opcode := opcode desc;
                 desc_flags := u16 (Z.lor (desc_flags desc) (CPU_TO_LE16 ICE_AQ_FLAG_RD));
                 num_elem_req := CPU_TO_LE16 elems_req |} in
  a <- call (AqSendCmd desc buf buf_size) ;;
  ret (value a, if negb (c_true (value a)) then Some (LE16_TO_CPU (resp a)) else None).

Definition ice_aq_cfg_sched_elems (elems_req : Z) (buf : ice_aqc_txsched_elem_data) (buf_size : Z) : M icall ians (Z * option Z) :=
  ice_aqc_send_sched_elem_cmd ice_aqc_opc_cfg_sched_elems elems_req buf buf_size.

(** The buffer sent for [info]: reserved members are cleared. *)
Definition update_buf (node : ice_sched_node) (inf : ice_aqc_txsched_elem_data) : ice_aqc_txsched_elem_data :=
  {| parent_teid := 0; node_teid := node_teid inf;
     data := {| elem_type := 0;
                valid_sections :=
                  if elem_type (data (info node)) =? ICE_AQC_ELEM_TYPE_TC
                  then u8 (Z.land (valid_sections (data inf)) (Z.lnot ICE_AQC_ELEM_VALID_CIR))
                  else valid_sections (data inf);
                generic := generic (data inf); flags := 0; rest := rest (data inf) |} |}.

Definition set_data (node : ice_sched_node) (d : ice_aqc_txsched_elem) : ice_sched_node :=
  {| info := {| parent_teid := parent_teid (info node); node_teid := node_teid (info node); data := d |};
     agg_id := agg_id node; parent := parent node; sibling := sibling node; tc_num := tc_num node |}.

(** [node] is the node at address [p]. *)
Definition ice_sched_update_elem (m : nodes) (p : ptr) (node : ice_sched_node) (inf : ice_aqc_txsched_elem_data) : M icall ians (Z * nodes) :=
  let num_elems := 1 in
  '(status, elem_cfgd) <- ice_aq_cfg_sched_elems num_elems (update_buf node inf) sizeof_elem_data ;;
  if c_true status || negb (default 0 elem_cfgd =? num_elems) then
    do (IceDebug "Config sched elem error") ;;
    ret (ICE_ERR_CFG, m)
  else ret (status, <[p := set_data node (data inf)]> m).

Definition ice_sched_get_first_node (pi : ice_port_info) (par : ice_sched_node) (layer : Z) : ptr :=
  sib_head pi (tc_num par) layer.

Definition ice_sched_get_agg_layer (hw : ice_hw) : Z :=
  let layer := u8 (num_tx_sched_layers hw - ICE_AGG_LAYER_OFFSET) in
  if (ICE_AGG_LAYER_OFFSET + 1 <? num_tx_sched_layers hw) && (sw_entry_point_layer hw <? layer)
  then layer else sw_entry_point_layer hw.

(** The loop over the siblings, at most [fuel] of them; [None]: an address that
    is no node is read, or the fuel is used up. *)
Fixpoint find_agg (fuel : nat) (m : nodes) (p : ptr) (id : Z) : option ptr :=
  match fuel with
  | O => None
  | S fuel =>
      if p =? NULL then Some NULL
      else node ← m !! p; if agg_id node =? id then Some p else find_agg fuel m (sibling node) id
  end.

Definition ice_sched_get_agg_node (m : nodes) (pi : ice_port_info) (tc_node : ice_sched_node) (id : Z) : option ptr :=
  match pi_hw pi with
  | None => Some NULL
  | Some hw =>
      let agg_layer := ice_sched_get_agg_layer hw in
      find_agg (S (size m)) m (ice_sched_get_first_node pi tc_node agg_layer) id
  end.

(** [None]: a [NULL] pointer or an address that is no node is followed. *)
Definition ice_sched_get_node_by_id_type (m : nodes) (pi : ice_port_info) (id : Z) (ty : ice_agg_type) (tc : Z) : option ptr :=
  match ty with
  | ICE_AGG_TYPE_VSI =>
      hw ← pi_hw pi;
      let vsi_handle := u16 id in
      if negb (ice_is_vsi_valid hw vsi_handle) then Some NULL
      else match ice_get_vsi_ctx hw vsi_handle with None => Some NULL | Some vsi_node => Some (vsi_node tc) end
  | ICE_AGG_TYPE_AGG =>
      let tc_node := ice_sched_get_tc_node m pi tc in
      if tc_node =? NULL then Some NULL
      else t ← m !! tc_node; ice_sched_get_agg_node m pi t id
  | ICE_AGG_TYPE_Q => Some (ice_sched_get_node m pi id)
  | ICE_AGG_TYPE_QG =>
      let child_node := ice_sched_get_node m pi id in
      if child_node =? NULL then Some NULL else c ← m !! child_node; Some (parent c)
  | ICE_AGG_TYPE_OTHER => Some NULL
  end.

(** ** Packets or bytes per second *)

(** [buf = node->info] with the mode bit set or cleared. *)
Definition set_mode (pps : bool) (inf : ice_aqc_txsched_elem_data) : ice_aqc_txsched_elem_data :=
  let d := data inf in
  {| parent_teid := parent_teid inf; node_teid := node_teid inf;
     data := {| elem_type := elem_type d; valid_sections := valid_sections d;
                generic := if pps then u8 (Z.lor (generic d) ICE_AQC_ELEM_GENERIC_MODE_M)
                           else u8 (Z.land (generic d) (Z.lnot ICE_AQC_ELEM_GENERIC_MODE_M));
                flags := flags d; rest := rest d |} |}.

(** The end of both functions, with the message each of them prints. *)
Definition exit_set_pps (pi : ice_port_info) (status : Z) (msg : string) (args : list Z) (m : nodes) : M icall ians (option nodes) :=
  do (ReleaseLock (sched_lock pi)) ;;
  (if c_true status then do (Printf msg args) else ret ()) ;;
  ret (Some m).

Definition msg_port : string := "ice: could not set PPS scheduling on device %d!".
Definition msg_queue : string := "ice: could not set PPS scheduling on device %d for queue %d!".

(** The data base afterwards; [None]: undefined behaviour. *)
Definition ice_tx_sched_set_pps_port (ports : Z -> ice_port) (port : Z) (pps : bool) (m : nodes) : M icall ians (option nodes) :=
  let pf := ports port in
  match port_info pf with
  | None => do (Printf msg_port [port]) ;; ret (Some m)
  | Some pi =>
      do (AcquireLock (sched_lock pi)) ;;
      match ice_sched_get_node_by_id_type m pi (main_vsi_idx pf) ICE_AGG_TYPE_VSI 0 with
      | None => ret None
      | Some p =>
          if p =? NULL then
            do (IceDebug "Wrong id, agg type, or tc") ;;
            exit_set_pps pi ICE_ERR_PARAM msg_port [port] m
          else
            match m !! p with
            | None => ret None
            | Some node =>
                '(status, m) <- ice_sched_update_elem m p node (set_mode pps (info node)) ;;
                exit_set_pps pi status msg_port [port] m
            end
      end
  end.

Definition ice_tx_sched_set_pps_queue (ports : Z -> ice_port) (port queue : Z) (pps : bool) (m : nodes) : M icall ians (option nodes) :=
  let pf := ports port in
  match port_info pf with
  | None => ret None
  | Some pi =>
      match pi_hw pi with
      | None => ret None
      | Some hw =>
          if negb (ice_is_vsi_valid hw (main_vsi_idx pf)) then
            do (Printf msg_queue [port; queue]) ;; ret (Some m)
          else
            do (AcquireLock (sched_lock pi)) ;;
            match ice_get_lan_q_ctx hw (main_vsi_idx pf) 0 (u16 queue) with
            | None => exit_set_pps pi ICE_ERR_PARAM msg_queue [port; queue] m
            | Some q_teid =>
                let p := ice_sched_find_node_by_teid m (root pi) q_teid in
                if p =? NULL then
                  do (IceDebug "Wrong q_teid") ;;
                  exit_set_pps pi ICE_ERR_PARAM msg_queue [port; queue] m
                else
                  match m !! p with
                  | None => ret None
                  | Some node =>
                      if negb (elem_type (data (info node)) =? ICE_AQC_ELEM_TYPE_LEAF) then
                        exit_set_pps pi ICE_ERR_PARAM msg_queue [port; queue] m
                      else
                        '(status, m) <- ice_sched_update_elem m p node (set_mode pps (info node)) ;;
                        exit_set_pps pi status msg_queue [port; queue] m
                  end
            end
      end
  end.

(** ** Rate limits and timer (ice.c) *)
Definition ice_take_timer_ownership (ports : Z -> ice_port) (port : Z) : Z -> ice_port :=
  fun i => if i =? port then
    let h := hw (ports port) in
    {| hw := {| hw_id := hw_id h; num_tx_sched_layers := num_tx_sched_layers h;
                sw_entry_point_layer := sw_entry_point_layer h;
                ts_info := {| src_tmr_owned := true; tmr_index_owned := 0 |} |};
       port_info := port_info (ports port); main_vsi_idx := main_vsi_idx (ports port) |}
  else ports i.

Definition report (status : Z) (msg : string) (args : list Z) : M icall ians () :=
  if negb (status =? ICE_SUCCESS) then do (Printf msg args) else ret ().

Definition ice_reset_timer (ports : Z -> ice_port) (port : Z) : M icall ians () :=
  a <- call (PtpInitTime (hw_id (hw (ports port)))) ;;
  report (value a) "Error while resetting PHY and Controller time registers!" [].

Definition ice_set_q_bw_limit (ports : Z -> ice_port) (port queue bw : Z) : M icall ians () :=
  a <- call (CfgQBwLmt (main_vsi_idx (ports port)) 0 (u16 queue) ICE_MAX_BW bw) ;;
  report (value a) "Could not set max bandwidth limit for queue %d!" [queue].

Definition ice_set_bw_limit (ports : Z -> ice_port) (port bw : Z) : M icall ians () :=
  a <- call (CfgVsiBwLmt (main_vsi_idx (ports port)) 0 ICE_MAX_BW bw) ;;
  report (value a) "Could not set max bandwidth limit for port %d!" [port].

Definition rd32 (reg : Z) : M icall ians Z := a <- call (Rd32 reg) ;; ret (u32 (value a)).

Definition ice_read_current_timer (ports : Z -> ice_port) (port : Z) : M icall ians Z :=
  let tmr := tmr_index_owned (ts_info (hw (ports port))) in
  timeL <- rd32 (GLTSYN_TIME_L tmr) ;;
  timeH <- rd32 (GLTSYN_TIME_H tmr) ;;
  timeL2 <- rd32 (GLTSYN_TIME_L tmr) ;;
  if timeL2 <? timeL then
    timeL <- rd32 (GLTSYN_TIME_L tmr) ;;
    timeH <- rd32 (GLTSYN_TIME_H tmr) ;;
    ret (Z.lor (u64 (Z.shiftl timeH 32)) timeL)
  else ret (Z.lor (u64 (Z.shiftl timeH 32)) timeL).
End code.

(** ** The mode of a node *)
Section facts.
Context `{IceBase} `{Env icall ians}.

(** [nd'] is [nd] with its mode bits equal to [pps]. *)
Definition mode_only (pps : bool) (nd nd' : ice_sched_node) : Prop :=
  exists g, is_u8 g /\
    (forall k, 0 <= k < 8 -> Z.testbit g k = if Z.testbit ICE_AQC_ELEM_GENERIC_MODE_M k then pps
                                             else Z.testbit (generic (data (info nd))) k) /\
    nd' = set_data nd {| elem_type := elem_type (data (info nd)); valid_sections := valid_sections (data (info nd));
                         generic := g; flags := flags (data (info nd)); rest := rest (data (info nd)) |}.

Lemma set_mode_only pps nd : mode_only pps nd (set_data nd (data (set_mode pps (info nd)))).
Proof.
  eexists. split; [|split; [|reflexivity]].
  - destruct pps; apply u8_range.
  - intros k Hk. destruct pps; rewrite u8_testbit by done.
    + rewrite Z.lor_spec. by destruct (Z.testbit ICE_AQC_ELEM_GENERIC_MODE_M k); rewrite ?orb_true_r, ?orb_false_r.
    + rewrite Z.land_spec, Z.lnot_spec by lia.
      by destruct (Z.testbit ICE_AQC_ELEM_GENERIC_MODE_M k); rewrite ?andb_true_r, ?andb_false_r.
Qed.

(** Holding a lock; the commands sent while it was held. *)
Definition lock_effect (l : Z) (c : icall) (a : ians) : Z :=
  match c with
  | AcquireLock l' => if decide (l = l') then 1 else 0
  | ReleaseLock l' => if decide (l = l') then -1 else 0
  | _ => 0
  end.
Definition locked (l : Z) (t : list (icall * ians)) : Z := held_of lock_effect l t.

Fixpoint commands_locked (l : Z) (t : list (icall * ians)) : Prop :=
  match t with
  | [] => True
  | (AqSendCmd _ _ _, _) :: t => locked l t = 1 /\ commands_locked l t
  | _ :: t => commands_locked l t
  end.

(** A node was switched: the hardware acknowledged exactly one element, with the
    mode that the data base then has. *)
Definition switched (pps : bool) (m m' : nodes) (t t' : list (icall * ians)) : Prop :=
  exists p nd nd' d buf size a t1,
    m !! p = Some nd /\ mode_only pps nd nd' /\ m' = <[p := nd']> m /\
    t' = t1 ++ t /\ (AqSendCmd d buf size, a) ∈ t1 /\
    value a = 0 /\ LE16_TO_CPU (resp a) = 1 /\
    node_teid buf = node_teid (info nd) /\ generic (data buf) = generic (data (info nd')) /\
    parent_teid buf = 0 /\ elem_type (data buf) = 0 /\ flags (data buf) = 0.

(** Nothing was changed, and the last call is a message. *)
Definition reported (m m' : nodes) (t' : list (icall * ians)) : Prop :=
  m' = m /\ exists msg args a t1, t' = (Printf msg args, a) :: t1.

Definition pps_result (l : Z) (pps : bool) (m : nodes) (t : list (icall * ians)) (r : option nodes * list (icall * ians)) : Prop :=
  exists m', r.1 = Some m' /\ locked l r.2 = locked l t /\ commands_locked l r.2 /\
    (switched pps m m' t r.2 \/ reported m m' r.2).

Lemma locked_acquire l a t : locked l ((AcquireLock l, a) :: t) = locked l t + 1.
Proof. unfold locked. rewrite held_cons. unfold lock_effect at 1. rewrite decide_True by done. lia. Qed.
Lemma locked_release l a t : locked l ((ReleaseLock l, a) :: t) = locked l t - 1.
Proof. unfold locked. rewrite held_cons. unfold lock_effect at 1. rewrite decide_True by done. lia. Qed.
Lemma locked_other l c a t : lock_effect l c a = 0 -> locked l ((c, a) :: t) = locked l t.
Proof. intros E. unfold locked. rewrite held_cons, E. lia. Qed.

Lemma param_error : c_true ICE_ERR_PARAM = true.
Proof. unfold c_true. destruct ICE_ERR_NONZERO as [Hp _]. by rewrite (proj2 (Z.eqb_neq _ _) Hp). Qed.
Lemma cfg_error : c_true ICE_ERR_CFG = true.
Proof. unfold c_true. destruct ICE_ERR_NONZERO as [_ Hc]. by rewrite (proj2 (Z.eqb_neq _ _) Hc). Qed.

(** The ways the functions end, with the lock [sched_lock pi] held. *)
Lemma exit_reports pi status msg args pps m t0 t :
  c_true status = true -> locked (sched_lock pi) t = locked (sched_lock pi) t0 + 1 ->
  commands_locked (sched_lock pi) t ->
  pps_result (sched_lock pi) pps m t0 (exit_set_pps pi status msg args m t).
Proof.
  intros Hs Hl Hc. unfold exit_set_pps, bind, do, ret. rewrite Hs. exists m. simpl.
  split; [done|]. rewrite locked_other by done. rewrite locked_release.
  split; [lia|]. split; [done|]. right. split; [done|]. by do 4 eexists.
Qed.

Lemma exit_switches pi msg args pps m m' t1 t0 :
  locked (sched_lock pi) (t1 ++ t0) = locked (sched_lock pi) t0 + 1 -> commands_locked (sched_lock pi) (t1 ++ t0) ->
  switched pps m m' t0 (t1 ++ t0) ->
  pps_result (sched_lock pi) pps m t0 (exit_set_pps pi 0 msg args m' (t1 ++ t0)).
Proof.
  intros Hl Hc (p & nd & nd' & d & buf & size & a & t2 & Hp & Hm & Hm' & Ht & Hin & Hr).
  unfold exit_set_pps, bind, do, ret. change (c_true 0) with false. exists m'. simpl.
  split; [done|]. rewrite locked_release. split; [lia|]. split; [done|]. left.
  exists p, nd, nd', d, buf, size, a. eexists (_ :: t2). rewrite Ht. by repeat (split; [done || by right|]).
Qed.

#[local] Arguments pps_result : simpl never.
#[local] Arguments set_mode : simpl never.
#[local] Arguments set_data : simpl never.
#[local] Arguments exit_set_pps : simpl never.

Lemma update_exit pi msg args pps m p nd t1 t0 :
  m !! p = Some nd ->
  locked (sched_lock pi) (t1 ++ t0) = 1 -> locked (sched_lock pi) t0 = 0 -> commands_locked (sched_lock pi) (t1 ++ t0) ->
  pps_result (sched_lock pi) pps m t0
    (bind (ice_sched_update_elem m p nd (set_mode pps (info nd)))
          (fun x => let '(status, m') := x in exit_set_pps pi status msg args m') (t1 ++ t0)).
Proof.
  intros Hp Hl Hl0 Hc. unfold ice_sched_update_elem, ice_aq_cfg_sched_elems, ice_aqc_send_sched_elem_cmd.
  unfold bind, call, ret, do. cbv beta iota zeta. run_step.
  assert (forall c a, commands_locked (sched_lock pi) ((c, a) :: t1 ++ t0)) as Hcc.
  { intros [] b; simpl; done. }
  destruct (c_true (value a)) eqn:Ev; simpl orb; cbv beta iota zeta.
  - apply exit_reports; [apply cfg_error|..].
    + rewrite !locked_other by done. lia.
    + by split.
  - cbn [from_option id negb orb]. cbv beta iota zeta. assert (value a = 0) as Ez by (unfold c_true in Ev; lia).
    destruct (Z.eqb_spec (LE16_TO_CPU (resp a)) 1) as [E1|E1]; cbn [negb]; cbv beta iota zeta.
    + rewrite Ez. apply (exit_switches pi msg args pps m _ (_ :: t1) t0).
      * simpl. rewrite locked_other by done. lia.
      * apply Hcc.
      * eexists p, nd, _, _, _, _, a, (_ :: t1). split; [done|]. split; [apply set_mode_only|].
        split; [done|]. split; [done|]. split; [by left|]. done.
    + apply exit_reports; [apply cfg_error|..].
      * rewrite !locked_other by done. lia.
      * by split.
Qed.

(** An error after the lock was taken leaves the data base alone. *)
Lemma exit_untouched pi msg args pps m t0 t :
  locked (sched_lock pi) t = locked (sched_lock pi) t0 + 1 -> commands_locked (sched_lock pi) t ->
  let r := exit_set_pps pi ICE_ERR_PARAM msg args m t in
  pps_result (sched_lock pi) pps m t0 r /\
  (forall (p : Z) (nd : ice_sched_node), m !! p = Some nd ->
   elem_type (data (info nd)) <> ICE_AQC_ELEM_TYPE_LEAF -> forall m', r.1 = Some m' -> m' !! p = Some nd).
Proof.
  intros Hl Hc r. subst r. split; [by apply exit_reports; [apply param_error|..]|].
  unfold exit_set_pps, bind, do, ret. rewrite param_error. simpl. by intros p nd Hp _ m' [= <-].
Qed.

(** The update writes at its own address only. *)
Lemma update_other pi msg args m p q nd inf t m' :
  (bind (ice_sched_update_elem m p nd inf)
        (fun x => let '(status, m') := x in exit_set_pps pi status msg args m') t).1 = Some m' ->
  p <> q -> m' !! q = m !! q.
Proof.
  unfold ice_sched_update_elem, ice_aq_cfg_sched_elems, ice_aqc_send_sched_elem_cmd, exit_set_pps, bind, call, ret, do.
  cbv beta iota zeta. intros Hm Hne.
  destruct (_ || _); simpl in Hm; destruct (c_true _); simpl in Hm; injection Hm as <-; try done;
    by apply (lookup_insert_ne m).
Qed.

(** The pointers DPDK's functions return are null or point to nodes. *)
Definition vsi_nodes_valid (ports : Z -> ice_port) (port : Z) (m : nodes) : Prop :=
  forall pi, port_info (ports port) = Some pi -> exists h, pi_hw pi = Some h /\
  forall vn, ice_get_vsi_ctx h (u16 (main_vsi_idx (ports port))) = Some vn -> vn 0 = NULL \/ is_Some (m !! vn 0).
Definition queue_nodes_valid (ports : Z -> ice_port) (port queue : Z) (m : nodes) : Prop :=
  exists pi h, port_info (ports port) = Some pi /\ pi_hw pi = Some h /\
  forall teid, let p := ice_sched_find_node_by_teid m (root pi) teid in p = NULL \/ is_Some (m !! p).

(** C29. [ice_tx_sched_set_pps_port] returns with the scheduler lock as it found
    it and sends its command while it holds the lock.  Either the hardware has
    acknowledged the command, with all reserved members cleared, and exactly the
    mode bits of one node of the data base have changed, to what was sent; or
    nothing has changed and a message says so. *)
Theorem ice_set_pps_port_spec ports port pps m t :
  vsi_nodes_valid ports port m ->
  let l := from_option sched_lock 0 (port_info (ports port)) in
  locked l t = 0 -> commands_locked l t ->
  pps_result l pps m t (ice_tx_sched_set_pps_port ports port pps m t).
Proof.
  intros Hv l Hl Hc. unfold ice_tx_sched_set_pps_port. subst l. destruct (port_info (ports port)) as [pi|] eqn:Epi; simpl in *.
  2:{ exists m. simpl. split; [done|]. rewrite locked_other by done. split; [done|]. split; [done|].
      right. split; [done|]. by do 4 eexists. }
  destruct (Hv _ Epi) as (h & Eh & Hp). rewrite Eh. simpl.
  rewrite bind_do. run_step.
  destruct (negb _); simpl.
  { rewrite bind_do. apply exit_reports; [apply param_error|..|done].
    rewrite locked_other, locked_acquire by done. done. }
  destruct (ice_get_vsi_ctx _ _) as [vn|]; simpl.
  2:{ rewrite bind_do. apply exit_reports; [apply param_error|..|done].
    rewrite locked_other, locked_acquire by done. done. }
  destruct (Z.eqb_spec (vn 0) NULL) as [E|E].
  { rewrite bind_do. apply exit_reports; [apply param_error|..|done].
    rewrite locked_other, locked_acquire by done. done. }
  destruct (Hp vn eq_refl) as [?|[nd End]]; [done|]. rewrite End.
  apply (update_exit _ _ _ _ _ _ _ [_] t); simpl; [done| |done|done].
  rewrite locked_acquire. lia.
Qed.

(** [ice_tx_sched_set_pps_queue] keeps the same contract for the node of a
    queue, and a node that is not a leaf of the tree is never switched. *)
Theorem ice_set_pps_queue_spec ports port queue pps m t :
  queue_nodes_valid ports port queue m ->
  let l := from_option sched_lock 0 (port_info (ports port)) in
  locked l t = 0 -> commands_locked l t ->
  let r := ice_tx_sched_set_pps_queue ports port queue pps m t in
  pps_result l pps m t r /\
  (forall p nd, m !! p = Some nd -> elem_type (data (info nd)) <> ICE_AQC_ELEM_TYPE_LEAF ->
   forall m', r.1 = Some m' -> m' !! p = Some nd).
Proof.
  intros (pi & h & Epi & Eh & Hv) l Hl Hc r. subst l r. unfold ice_tx_sched_set_pps_queue.
  rewrite Epi, Eh in *. simpl in Hl, Hc |- *.
  destruct (negb _); simpl.
  { split.
    - exists m. simpl. rewrite locked_other by done. split; [done|]. split; [done|]. split; [done|].
      right. split; [done|]. by do 4 eexists.
    - by intros p nd Hp _ m' [= <-]. }
  rewrite bind_do. run_step.
  assert (locked (sched_lock pi) ((AcquireLock (sched_lock pi), a) :: t) = locked (sched_lock pi) t + 1) as Hla
    by apply locked_acquire.
  destruct (ice_get_lan_q_ctx _ _ _ _) as [teid|]; simpl; [|apply exit_untouched; done].
  specialize (Hv teid). simpl in Hv.
  destruct (Z.eqb_spec (ice_sched_find_node_by_teid m (root pi) teid) NULL) as [E|E].
  { rewrite bind_do. apply exit_untouched; [|done].
    by rewrite locked_other. }
  destruct Hv as [?|[nd End]]; [done|]. rewrite End.
  destruct (Z.eqb_spec (elem_type (data (info nd))) ICE_AQC_ELEM_TYPE_LEAF) as [El|El]; cbn [negb]; cbv iota;
    [|apply exit_untouched; done].
  split; [apply (update_exit _ _ _ _ _ _ _ [_] t); simpl; [done|lia|done|done]|].
  intros p nd' Hp Hne m' Hm'. destruct (decide (p = ice_sched_find_node_by_teid m (root pi) teid)) as [->|Hd].
  { pose proof (eq_trans (eq_sym Hp) End) as [= ->]. done. }
  transitivity (m !! p); [|exact Hp]. eapply update_other; [exact Hm'|]. by apply not_eq_sym.
Qed.

(** A null [hw->port_info] is reported for a device but followed for a queue. *)
Lemma set_pps_no_port_info ports port queue pps m t :
  port_info (ports port) = None ->
  (exists m', (ice_tx_sched_set_pps_port ports port pps m t).1 = Some m') /\
  (ice_tx_sched_set_pps_queue ports port queue pps m t).1 = None.
Proof.
  intros E. unfold ice_tx_sched_set_pps_port, ice_tx_sched_set_pps_queue. rewrite E. by split; [exists m|].
Qed.

(** ** The siblings of a node *)
Inductive siblings (m : nodes) : ptr -> list ptr -> Prop :=
| siblings_nil : siblings m NULL []
| siblings_cons (p : ptr) (nd : ice_sched_node) (l : list ptr) :
    p <> NULL -> m !! p = Some nd -> siblings m (sibling nd) l -> siblings m p (p :: l).

Lemma siblings_det m p l1 : siblings m p l1 -> forall l2, siblings m p l2 -> l1 = l2.
Proof.
  induction 1 as [|p nd l Hp E _ IH]; intros l2 H2; inversion H2 as [|? nd2 l2' ? E2 HS]; subst; [done|done|done|].
  assert (nd2 = nd) as -> by congruence. f_equal. by apply IH.
Qed.

(** A list of siblings that ends has no cycle. *)
Lemma siblings_tail m p l q : siblings m p l -> q ∈ l -> exists l1 l2, l = l1 ++ l2 /\ siblings m q l2.
Proof.
  induction 1 as [|p nd l Hp E Hs IH]; [by intros ?%elem_of_nil|]. intros [->|Hq]%elem_of_cons.
  - exists [], (p :: l). split; [done|]. by econstructor.
  - destruct (IH Hq) as (l1 & l2 & -> & H2). by exists (p :: l1), l2.
Qed.

Lemma siblings_nodup m p l : siblings m p l -> NoDup l.
Proof.
  induction 1 as [|p nd l Hp E Hs IH]; [constructor|]. constructor; [|done]. intros Hin.
  destruct (siblings_tail m _ l p Hs Hin) as (l1 & l2 & El & H2).
  pose proof (siblings_det m p _ H2 _ (siblings_cons m p nd _ Hp E Hs)) as E2.
  apply (f_equal length) in El, E2. rewrite length_app in El. simpl in E2. lia.
Qed.

Lemma siblings_length m p l : siblings m p l -> (length l <= size m)%nat.
Proof.
  intros Hs. rewrite <- (size_dom (D := gset Z)), <- (size_list_to_set (C := gset Z)) by (by eapply siblings_nodup).
  apply subseteq_size. intros q Hq%elem_of_list_to_set. apply elem_of_dom.
  destruct (siblings_tail m p l q Hs Hq) as (l1 & l2 & _ & H2).
  inversion H2 as [|? nd ? ? E]; subst; [|by exists nd].
  clear -Hs Hq. exfalso. induction Hs as [|p nd l Hp E Hs IH]; [by apply elem_of_nil in Hq|].
  apply elem_of_cons in Hq as [<-|Hq]; [done|by apply IH].
Qed.

Definition has_agg_id (m : nodes) (id : Z) (p : ptr) : bool :=
  match m !! p with Some nd => agg_id nd =? id | None => false end.

Lemma find_agg_first m id p l : siblings m p l ->
  forall fuel, (length l < fuel)%nat -> find_agg fuel m p id = Some (default NULL (List.find (has_agg_id m id) l)).
Proof.
  induction 1 as [|p nd l Hp E Hs IH]; intros [|fuel] Hf; simpl in *; [lia|done|lia|].
  rewrite (proj2 (Z.eqb_neq _ _) Hp). unfold has_agg_id at 1. rewrite E. simpl.
  destruct (agg_id nd =? id); [done|]. apply IH. lia.
Qed.

(** The loop over the siblings ends and returns the first one with the
    identifier, [NULL] if there is none. *)
Lemma agg_node_found m pi h tc_node id l :
  pi_hw pi = Some h ->
  siblings m (ice_sched_get_first_node pi tc_node (ice_sched_get_agg_layer h)) l ->
  ice_sched_get_agg_node m pi tc_node id = Some (default NULL (List.find (has_agg_id m id) l)).
Proof.
  intros Eh Hs. unfold ice_sched_get_agg_node. rewrite Eh. eapply find_agg_first; [done|].
  pose proof (siblings_length _ _ _ Hs). lia.
Qed.

(** ** Reading the timer *)
Lemma timer_value v : 0 <= v < 2 ^ 64 -> Z.lor (u64 (Z.shiftl (u32 (v / 2 ^ 32)) 32)) (u32 (v mod 2 ^ 32)) = v.
Proof.
  intros Hv. rewrite !u32_small by (unfold is_u32; dlia). rewrite Z.shiftl_mul_pow2 by lia.
  rewrite u64_small by (unfold is_u64; dlia).
  rewrite <- Z.shiftl_mul_pow2, lor_shiftl by (try lia; dlia). dlia.
Qed.

(** Two values of a counter that has advanced by less than [2^32] have the same
    upper half unless the lower half has become smaller. *)
Lemma same_upper_half v w :
  v <= w < v + 2 ^ 32 -> v mod 2 ^ 32 <= w mod 2 ^ 32 -> v / 2 ^ 32 = w / 2 ^ 32.
Proof. intros. dlia. Qed.

Lemma next_upper_half v w :
  v <= w < v + 2 ^ 32 -> w mod 2 ^ 32 < v mod 2 ^ 32 -> w / 2 ^ 32 = v / 2 ^ 32 + 1.
Proof. intros. dlia. Qed.

(** The two halves of the timer are read at different times, while it runs.
    If the timer advances by less than [2^32] ticks during the call,
    [ice_read_current_timer] returns a value that the 64-bit timer had during the
    call: never the upper half of one value with the lower half of another. *)
Theorem ice_timer_not_torn ports port (counter : nat -> Z) t :
  let i := tmr_index_owned (ts_info (hw (ports port))) in
  (forall a b, (a <= b)%nat -> 0 <= counter a <= counter b) ->
  (forall a, counter a < 2 ^ 64) ->
  counter (length t + 4)%nat < counter (length t) + 2 ^ 32 ->
  (forall t, value (answer t (Rd32 (GLTSYN_TIME_L i))) = counter (length t) mod 2 ^ 32) ->
  (forall t, value (answer t (Rd32 (GLTSYN_TIME_H i))) = counter (length t) / 2 ^ 32) ->
  let r := ice_read_current_timer ports port t in
  exists k, (length t <= k < length r.2)%nat /\ r.1 = counter k.
Proof.
  intros i Hmono Hmax Hwin HL HH r. subst r. unfold ice_read_current_timer. fold i. set (n := length t) in *.
  unfold rd32, bind, call, ret. cbv beta iota zeta. rewrite !HL, !HH. cbn [length]. change (length t) with n.
  pose proof (Hmono n (S n)). pose proof (Hmono (S n) (S (S n))). pose proof (Hmono (S (S n)) (S (S (S n)))).
  pose proof (Hmono (S (S (S n))) (S (S (S (S n))))). replace (n + 4)%nat with (S (S (S (S n)))) in Hwin by lia.
  rewrite !(u32_small (counter _ mod _)) by (unfold is_u32; dlia).
  destruct (Z.ltb_spec (counter (S (S n)) mod 2 ^ 32) (counter n mod 2 ^ 32)) as [Hroll|Hroll];
    cbv beta iota zeta; rewrite ?HL, ?HH; cbn [length fst snd]; change (length t) with n.
  - exists (S (S (S n))). split; [lia|]. specialize (Hmax (S (S (S n)))).
    pose proof (next_upper_half (counter n) (counter (S (S n))) ltac:(lia) Hroll) as Hu.
    assert (counter (S (S (S n))) / 2 ^ 32 = counter (S (S (S (S n)))) / 2 ^ 32) as <-.
    { apply same_upper_half; [lia|]. dlia. }
    etrans; [|apply timer_value; lia]. by rewrite u32_small by (unfold is_u32; dlia).
  - exists n. split; [lia|]. specialize (Hmax n).
    assert (counter (S n) / 2 ^ 32 = counter n / 2 ^ 32) as ->.
    { pose proof (same_upper_half (counter n) (counter (S (S n))) ltac:(lia) Hroll). dlia. }
    etrans; [|apply timer_value; lia]. by rewrite (u32_small (counter n mod _)) by (unfold is_u32; dlia).
Qed.
End facts.

(** ** A concrete device *)
Module IceExample.
Lemma errors_nonzero : -1 <> 0 /\ -12 <> 0.
Proof. done. Qed.

#[local] Instance ice_base : IceBase := {|
  ICE_AQC_ELEM_TYPE_TC := 2; ICE_AQC_ELEM_TYPE_LEAF := 5; ICE_AQC_ELEM_VALID_CIR := 2;
  ICE_AQC_ELEM_GENERIC_MODE_M := 1; ICE_AQ_FLAG_RD := 1024; ice_aqc_opc_cfg_sched_elems := 1027;
  ICE_AGG_LAYER_OFFSET := 6; ICE_ERR_PARAM := -1; ICE_ERR_CFG := -12; ICE_SUCCESS := 0; ICE_MAX_BW := 1;
  ICE_ERR_NONZERO := errors_nonzero;
  sizeof_elem_data := 32; CPU_TO_LE16 := fun x => x; LE16_TO_CPU := fun x => x;
  ice_fill_dflt_direct_cmd_desc := fun o => {| opcode := o; desc_flags := 0; num_elem_req := 0 |};
  GLTSYN_TIME_L := fun i => 8 * i; GLTSYN_TIME_H := fun i => 8 * i + 4;
  ice_is_vsi_valid := fun _ v => v =? 6; ice_get_vsi_ctx := fun _ _ => Some (fun _ => 4096);
  ice_sched_get_tc_node := fun _ _ _ => NULL; ice_sched_get_node := fun _ _ _ => NULL;
  ice_sched_find_node_by_teid := fun _ _ teid => if teid =? 77 then 8192 else NULL;
  ice_get_lan_q_ctx := fun _ _ _ q => if q <? 4 then Some 77 else None
|}.

(** The device acknowledges one element; its timer runs from 100 ticks before
    a rollover of the lower half, 60 ticks for each call. *)
Definition ticks (k : nat) : Z := 8589934492 + Z.of_nat (Nat.min k 10) * 60.
#[local] Instance ice_env : Env icall ians := fun t c =>
  match c with
  | AqSendCmd _ _ _ => {| value := 0; resp := 1 |}
  | Rd32 r => {| value := if r mod 8 =? 0 then ticks (length t) mod 2 ^ 32 else ticks (length t) / 2 ^ 32; resp := 0 |}
  | _ => {| value := 0; resp := 0 |}
  end.

Definition ice_hw0 : ice_hw :=
  {| hw_id := 0; num_tx_sched_layers := 9; sw_entry_point_layer := 3;
     ts_info := {| src_tmr_owned := true; tmr_index_owned := 0 |} |}.
Definition ice_ports (p : Z) : ice_port :=
  {| hw := ice_hw0; main_vsi_idx := 6;
     port_info := Some {| pi_hw := Some ice_hw0; sib_head := fun _ _ => NULL; root := 1; sched_lock := 9 |} |}.
Definition ice_node (ty teid g : Z) : ice_sched_node :=
  {| info := {| parent_teid := 3; node_teid := teid;
                data := {| elem_type := ty; valid_sections := 7; generic := g; flags := 1; rest := 500 |} |};
     agg_id := 0; parent := NULL; sibling := NULL; tc_num := 0 |}.
Definition ice_nodes : gmap Z ice_sched_node := <[4096 := ice_node 3 40 12]> {[8192 := ice_node 5 77 8]}.

Lemma ice_set_pps_port_witness :
  exists m', (ice_tx_sched_set_pps_port ice_ports 0 true ice_nodes []).1 = Some m' /\
  option_map (fun nd => generic (data (info nd))) (m' !! 4096) = Some 13 /\
  pps_result 9 true ice_nodes [] (ice_tx_sched_set_pps_port ice_ports 0 true ice_nodes []).
Proof.
  eexists. split; [vm_compute; reflexivity|]. split; [vm_compute; reflexivity|].
  apply (ice_set_pps_port_spec ice_ports 0 true ice_nodes []); [|reflexivity|exact I].
  intros pi [= <-]. exists ice_hw0. split; [reflexivity|]. intros vn [= <-]. right.
  exists (ice_node 3 40 12). vm_compute. reflexivity.
Defined.

Lemma ice_set_pps_queue_witness :
  exists m', (ice_tx_sched_set_pps_queue ice_ports 0 2 true ice_nodes []).1 = Some m' /\
  option_map (fun nd => generic (data (info nd))) (m' !! 8192) = Some 9 /\
  pps_result 9 true ice_nodes [] (ice_tx_sched_set_pps_queue ice_ports 0 2 true ice_nodes []).
Proof.
  eexists. split; [vm_compute; reflexivity|]. split; [vm_compute; reflexivity|].
  apply (ice_set_pps_queue_spec ice_ports 0 2 true ice_nodes []); [|reflexivity|exact I].
  eexists _, ice_hw0. split; [reflexivity|]. split; [reflexivity|]. intros teid. simpl.
  destruct (teid =? 77); [right|by left]. exists (ice_node 5 77 8). vm_compute. reflexivity.
Defined.

Lemma ice_timer_witness :
  (ice_read_current_timer ice_ports 0 []).1 = ticks 3 /\
  exists k, (0 <= k < length (ice_read_current_timer ice_ports 0 []).2)%nat /\
            (ice_read_current_timer ice_ports 0 []).1 = ticks k.
Proof.
  split; [vm_compute; reflexivity|].
  apply (ice_timer_not_torn ice_ports 0 ticks []).
  - intros a b Hab. unfold ticks. lia.
  - intros a. unfold ticks. lia.
  - vm_compute. reflexivity.
  - intros t. reflexivity.
  - intros t. reflexivity.
Defined.
End IceExample.
