(* ===== verification/Sharing.v ===== *)
(** * State shared by tasks (src/src/lock.cpp, src/src/namespaces.cpp,
    src/src/task-results.cpp)

    Tasks run in Lua states of their own; what they share are locks, namespaces
    (string maps with a lock each) and the results of finished tasks.  Every
    operation takes a lock for its whole duration and is therefore one step of
    the thread that calls it. *)
From S2P Require Import Prelude.

(** ** Recursive locks (lock.cpp)

    A [std::recursive_timed_mutex]: its owner and how often it holds it. *)
Record mutex := { holder : option (nat * nat) }.
Definition make_lock : mutex := {| holder := None |}.

Definition available (t : nat) (m : mutex) : bool :=
  match holder m with None => true | Some (o, _) => bool_decide (o = t) end.

(** [None]: the thread blocks. *)
Definition lock_lock (t : nat) (m : mutex) : option mutex :=
  match holder m with
  | None => Some {| holder := Some (t, 1%nat) |}
  | Some (o, k) => if decide (o = t) then Some {| holder := Some (t, S k) |} else None
  end.

(** [None]: the caller does not hold the lock, which is undefined behaviour. *)
Definition lock_unlock (t : nat) (m : mutex) : option mutex :=
  match holder m with
  | Some (o, S k) =>
      if decide (o = t) then Some {| holder := if decide (k = 0%nat) then None else Some (t, k) |} else None
  | _ => None
  end.

(** [gives_up]: the attempt fails although the lock is free, or the time is over
    before it becomes free; both are allowed by the standard. *)
Definition lock_try_lock (gives_up : bool) (t : nat) (m : mutex) : Z * mutex :=
  if gives_up then (c_bool false, m)
  else match lock_lock t m with None => (c_bool false, m) | Some m' => (c_bool true, m') end.

(** ** Namespaces (namespaces.cpp)

    [cstr]: the live buffers of the value strings, by address; an entry of a map
    is the address [c_str()] returns for it. *)
Record ns := { map : gmap string Z; lock : mutex }.
Record world := { namespaces : gmap string Z; objects : gmap Z ns; cstr : gmap Z string; next : Z }.

Definition no_namespaces : world := {| namespaces := ∅; objects := ∅; cstr := ∅; next := 1 |}.

Inductive op :=
| create_or_get_namespace (name : string)
| namespace_store (n : Z) (key value : string)
| namespace_delete (n : Z) (key : string)
| namespace_retrieve (n : Z) (key : string)
| namespace_lock (n : Z)
| namespace_unlock (n : Z).

Inductive outcome :=
| Returns (r : Z) (w : world)
| Blocks
| Undefined.

(** The operation runs under the lock of [n]; afterwards the lock is as before. *)
Definition guarded (t : nat) (n : Z) (w : world) (k : ns -> outcome) : outcome :=
  match objects w !! n with
  | None => Undefined
  | Some o => if available t (lock o) then k o else Blocks
  end.

Definition set_map (w : world) (n : Z) (o : ns) (m : gmap string Z) (c : gmap Z string) (nx : Z) : world :=
  {| namespaces := namespaces w; objects := <[n := {| map := m; lock := lock o |}]> (objects w); cstr := c; next := nx |}.
Definition set_lock (w : world) (n : Z) (o : ns) (l : mutex) : world :=
  {| namespaces := namespaces w; objects := <[n := {| map := map o; lock := l |}]> (objects w); cstr := cstr w; next := next w |}.

Section code.
(** Whether assigning the second string to the first keeps the buffer. *)
Context (in_place : string -> string -> bool).

Definition exec (t : nat) (o : op) (w : world) : outcome :=
  match o with
  | create_or_get_namespace name =>
      match namespaces w !! name with
      | Some n => Returns n w
      | None =>
          let n := next w in
          Returns n {| namespaces := <[name := n]> (namespaces w);
                       objects := <[n := {| map := ∅; lock := make_lock |}]> (objects w);
                       cstr := cstr w; next := n + 1 |}
      end
  | namespace_store n key value =>
      guarded t n w (fun o =>
        match map o !! key with
        | Some a =>
            if in_place (default "" (cstr w !! a)) value
            then Returns NULL (set_map w n o (map o) (<[a := value]> (cstr w)) (next w))
            else Returns NULL (set_map w n o (<[key := next w]> (map o)) (<[next w := value]> (delete a (cstr w))) (next w + 1))
        | None => Returns NULL (set_map w n o (<[key := next w]> (map o)) (<[next w := value]> (cstr w)) (next w + 1))
        end)
  | namespace_delete n key =>
      guarded t n w (fun o =>
        match map o !! key with
        | Some a => Returns NULL (set_map w n o (delete key (map o)) (delete a (cstr w)) (next w))
        | None => Returns NULL w
        end)
  | namespace_retrieve n key =>
      guarded t n w (fun o => match map o !! key with Some a => Returns a w | None => Returns NULL w end)
  | namespace_lock n =>
      match objects w !! n with
      | None => Undefined
      | Some o => match lock_lock t (lock o) with None => Blocks | Some l => Returns NULL (set_lock w n o l) end
      end
  | namespace_unlock n =>
      match objects w !! n with
      | None => Undefined
      | Some o => match lock_unlock t (lock o) with None => Undefined | Some l => Returns NULL (set_lock w n o l) end
      end
  end.

(** ** What the namespaces are: tables of strings *)
Definition table (w : world) (n : Z) : gmap string string :=
  match objects w !! n with Some o => omap (fun a => cstr w !! a) (map o) | None => ∅ end.

Definition spec_table (o : op) (n : Z) (tbl : gmap string string) : gmap string string :=
  match o with
  | namespace_store n' key value => if decide (n' = n) then <[key := value]> tbl else tbl
  | namespace_delete n' key => if decide (n' = n) then delete key tbl else tbl
  | _ => tbl
  end.

(** Every entry has a live buffer of its own, every name an object of its own. *)
Record Inv (w : world) : Prop := {
  inv_live : forall n o k a, objects w !! n = Some o -> map o !! k = Some a -> is_Some (cstr w !! a) /\ 0 < a < next w;
  inv_own : forall n1 o1 k1 n2 o2 k2 a,
    objects w !! n1 = Some o1 -> map o1 !! k1 = Some a ->
    objects w !! n2 = Some o2 -> map o2 !! k2 = Some a -> n1 = n2 /\ k1 = k2;
  inv_objects : forall n, is_Some (objects w !! n) -> 0 < n < next w;
  inv_names : forall name n, namespaces w !! name = Some n -> is_Some (objects w !! n);
  inv_inj : forall x y n, namespaces w !! x = Some n -> namespaces w !! y = Some n -> x = y;
  inv_next : 0 < next w
}.

Lemma inv_no_namespaces : Inv no_namespaces.
Proof. constructor; simpl; intros; rewrite ?lookup_empty in *; try done. Qed.

Lemma table_lookup w n o k : objects w !! n = Some o -> table w n !! k = map o !! k ≫= (fun a => cstr w !! a).
Proof. intros E. unfold table. rewrite E. apply lookup_omap. Qed.

(** A change of the entry [key] of [n] that leaves every other entry and its
    buffer alone. *)
Lemma table_update w n o m c nx key value :
  objects w !! n = Some o ->
  (forall k, k <> key -> m !! k = map o !! k) ->
  (m !! key ≫= (fun a => c !! a)) = value ->
  (forall n' o' k a, objects w !! n' = Some o' -> map o' !! k = Some a -> (n', k) <> (n, key) -> c !! a = cstr w !! a) ->
  forall n', table (set_map w n o m c nx) n' =
    if decide (n = n') then partial_alter (fun _ => value) key (table w n') else table w n'.
Proof.
  intros E Hm Hv Hc n'. apply map_eq. intros k. destruct (decide (n = n')) as [<-|Hn].
  - rewrite (table_lookup _ _ {| map := m; lock := lock o |}) by (simpl; apply lookup_insert_eq). simpl.
    destruct (decide (k = key)) as [->|Hk].
    + by rewrite lookup_partial_alter_eq.
    + rewrite lookup_partial_alter_ne, (table_lookup w n o), Hm by done.
      destruct (map o !! k) as [a|] eqn:Ea; [|done]. simpl. eapply Hc; [done..|]. congruence.
  - unfold table, set_map. simpl. rewrite lookup_insert_ne by done.
    destruct (objects w !! n') as [o'|] eqn:E'; [|done]. rewrite !lookup_omap.
    destruct (map o' !! k) as [a|] eqn:Ea; [|done]. simpl. eapply Hc; [done..|]. congruence.
Qed.

Lemma inv_set_map w n o m c nx key :
  Inv w -> objects w !! n = Some o -> next w <= nx ->
  (forall k a, m !! k = Some a ->
     (map o !! k = Some a /\ is_Some (c !! a)) \/ (a = next w /\ k = key /\ next w < nx /\ is_Some (c !! a))) ->
  (forall n' o' k a, n' <> n -> objects w !! n' = Some o' -> map o' !! k = Some a -> is_Some (c !! a)) ->
  Inv (set_map w n o m c nx).
Proof.
  intros I E Hnx Hm Hc. constructor; simpl.
  - intros n1 o1 k a [[<- <-]|[Hn E1]]%lookup_insert_Some Ea; simpl in Ea.
    + destruct (Hm k a Ea) as [[Eo Hl]|(-> & -> & Hlt & Hl)]; split; try done.
      * destruct (inv_live w I _ _ _ _ E Eo). lia.
      * pose proof (inv_next w I). lia.
    + split; [by eapply Hc|]. destruct (inv_live w I _ _ _ _ E1 Ea). lia.
  - intros n1 o1 k1 n2 o2 k2 a [[<- <-]|[Hn1 E1]]%lookup_insert_Some Ea1
      [[<- <-]|[Hn2 E2]]%lookup_insert_Some Ea2; simpl in *.
    + destruct (Hm _ _ Ea1) as [[Eo1 _]|(-> & -> & _)], (Hm _ _ Ea2) as [[Eo2 _]|(Eq & -> & _)]; try done.
      * by eapply (inv_own w I).
      * subst. destruct (inv_live w I _ _ _ _ E Eo1). lia.
      * destruct (inv_live w I _ _ _ _ E Eo2). lia.
    + destruct (Hm _ _ Ea1) as [[Eo1 _]|(-> & -> & _)]; [by eapply (inv_own w I)|].
      destruct (inv_live w I _ _ _ _ E2 Ea2). lia.
    + destruct (Hm _ _ Ea2) as [[Eo2 _]|(-> & -> & _)]; [by eapply (inv_own w I)|].
      destruct (inv_live w I _ _ _ _ E1 Ea1). lia.
    + by eapply (inv_own w I).
  - intros n' Hn'. assert (0 < n' < next w); [|lia]. apply (inv_objects w I).
    destruct (decide (n = n')) as [<-|Hne]; [by exists o|]. by rewrite lookup_insert_ne in Hn'.
  - intros name n' En. destruct (decide (n = n')) as [<-|Hne]; [by rewrite lookup_insert_eq|].
    rewrite lookup_insert_ne by done. by eapply (inv_names w I).
  - apply (inv_inj w I).
  - pose proof (inv_next w I). lia.
Qed.

(** The effect of one operation on the tables, and that the invariant is kept. *)
Definition implements (o : op) (w w' : world) : Prop :=
  Inv w' /\ forall n, table w' n = spec_table o n (table w n).

Lemma store_fresh w n o key value c :
  Inv w -> objects w !! n = Some o ->
  (forall n' o' k a, objects w !! n' = Some o' -> map o' !! k = Some a -> (n', k) <> (n, key) -> c !! a = cstr w !! a) ->
  implements (namespace_store n key value) w
    (set_map w n o (<[key := next w]> (map o)) (<[next w := value]> c) (next w + 1)).
Proof.
  intros I E Hc.
  assert (forall n' o' k a, objects w !! n' = Some o' -> map o' !! k = Some a -> (n', k) <> (n, key) ->
          <[next w := value]> c !! a = cstr w !! a) as Hc'.
  { intros n' o' k a E' Ea Hne. rewrite lookup_insert_ne; [by eapply Hc|]. intros <-.
    destruct (inv_live w I _ _ _ _ E' Ea). lia. }
  split.
  - apply (inv_set_map _ _ _ _ _ _ key); [done|done|lia|..].
    + intros k a [[<- <-]|[Hk Ea]]%lookup_insert_Some.
      * right. rewrite lookup_insert_eq. split; [done|]. split; [done|]. split; [lia|by eexists].
      * left. split; [done|]. erewrite Hc' by (try done; congruence). by eapply (inv_live w I).
    + intros n' o' k a Hn E' Ea. erewrite Hc' by (try done; congruence). by eapply (inv_live w I).
  - intros n'. rewrite (table_update _ _ _ _ _ _ key (Some value)); [done|done| | |done].
    + intros k Hk. by rewrite lookup_insert_ne.
    + rewrite lookup_insert_eq. simpl. by rewrite lookup_insert_eq.
Qed.

Lemma store_in_place w n o key value a :
  Inv w -> objects w !! n = Some o -> map o !! key = Some a ->
  implements (namespace_store n key value) w (set_map w n o (map o) (<[a := value]> (cstr w)) (next w)).
Proof.
  intros I E Ea. split.
  - assert (forall x, is_Some (cstr w !! x) -> is_Some (<[a := value]> (cstr w) !! x)) as Hl.
    { intros x Hx. destruct (decide (a = x)) as [<-|Hx']; [by rewrite lookup_insert_eq|by rewrite lookup_insert_ne]. }
    apply (inv_set_map _ _ _ _ _ _ key); [done|done|lia|..].
    + intros k x Ex. left. split; [done|]. by eapply Hl, (inv_live w I).
    + intros n' o' k x _ E' Ex. by eapply Hl, (inv_live w I).
  - intros n'. rewrite (table_update _ _ _ _ _ _ key (Some value)); [done|done|done| |].
    + rewrite Ea. simpl. by rewrite lookup_insert_eq.
    + intros n2 o2 k2 x E2 Ex Hne. rewrite lookup_insert_ne; [done|]. intros <-.
      destruct (inv_own w I _ _ _ _ _ _ _ E Ea E2 Ex) as [-> ->]. done.
Qed.

Lemma delete_entry w n o key a :
  Inv w -> objects w !! n = Some o -> map o !! key = Some a ->
  implements (namespace_delete n key) w (set_map w n o (delete key (map o)) (delete a (cstr w)) (next w)).
Proof.
  intros I E Ea.
  assert (forall n2 o2 k2 x, objects w !! n2 = Some o2 -> map o2 !! k2 = Some x -> (n2, k2) <> (n, key) ->
          delete a (cstr w) !! x = cstr w !! x) as Hc.
  { intros n2 o2 k2 x E2 Ex Hne. rewrite lookup_delete_ne; [done|]. intros <-.
    destruct (inv_own w I _ _ _ _ _ _ _ E Ea E2 Ex) as [-> ->]. done. }
  split.
  - apply (inv_set_map _ _ _ _ _ _ key); [done|done|lia|..].
    + intros k x [Hk Ex]%lookup_delete_Some. left. split; [done|].
      erewrite Hc by (try done; congruence). by eapply (inv_live w I).
    + intros n' o' k x Hn E' Ex. erewrite Hc by (try done; congruence). by eapply (inv_live w I).
  - intros n'. rewrite (table_update _ _ _ _ _ _ key None); [done|done| | |done].
    + intros k Hk. by rewrite lookup_delete_ne.
    + by rewrite lookup_delete_eq.
Qed.

(** Taking or releasing a lock changes no table. *)
Lemma set_lock_same w n o l op :
  Inv w -> objects w !! n = Some o -> (forall n', spec_table op n' (table w n') = table w n') ->
  implements op w (set_lock w n o l).
Proof.
  intros I E Hs.
  assert (forall n' o', objects (set_lock w n o l) !! n' = Some o' -> exists o1, objects w !! n' = Some o1 /\ map o1 = map o') as Hm.
  { simpl. intros n' o' [[<- <-]|[Hn En]]%lookup_insert_Some; [by exists o|by exists o']. }
  split.
  - destruct I as [I1 I2 I3 I4 I5 I6]. constructor; simpl; try done.
    + intros n' o' k a E' Ea. destruct (Hm _ _ E') as (o1 & E1 & Em). eapply I1; [done|]. by rewrite Em.
    + intros n1 o1 k1 n2 o2 k2 a E1 Ea1 E2 Ea2. destruct (Hm _ _ E1) as (p1 & F1 & G1), (Hm _ _ E2) as (p2 & F2 & G2).
      eapply I2; [done| |done|]; by rewrite ?G1, ?G2.
    + intros n' [o' E']. destruct (Hm _ _ E') as (o1 & E1 & _). apply I3. by exists o1.
    + intros name n' En. destruct (decide (n = n')) as [<-|Hne]; [by rewrite lookup_insert_eq|].
      rewrite lookup_insert_ne by done. by eapply I4.
  - intros n'. rewrite Hs. unfold table, set_lock. simpl.
    destruct (decide (n = n')) as [<-|Hne]; [by rewrite lookup_insert_eq, E|by rewrite lookup_insert_ne].
Qed.

Lemma create_fresh w name :
  Inv w -> namespaces w !! name = None ->
  implements (create_or_get_namespace name) w
    {| namespaces := <[name := next w]> (namespaces w);
       objects := <[next w := {| map := ∅; lock := make_lock |}]> (objects w); cstr := cstr w; next := next w + 1 |} /\
  objects w !! next w = None.
Proof.
  intros I En. assert (objects w !! next w = None) as Ef.
  { apply eq_None_not_Some. intros Hs%(inv_objects w I). lia. }
  split; [|done]. split.
  - pose proof (inv_next w I). constructor; simpl.
    + intros n o k a [[<- <-]|[Hn E]]%lookup_insert_Some Ea; [simpl in Ea; by rewrite lookup_empty in Ea|].
      destruct (inv_live w I _ _ _ _ E Ea). split; [done|lia].
    + intros n1 o1 k1 n2 o2 k2 a [[<- <-]|[Hn1 E1]]%lookup_insert_Some Ea1 [[<- <-]|[Hn2 E2]]%lookup_insert_Some Ea2;
        simpl in Ea1, Ea2; try (by rewrite lookup_empty in Ea1); try (by rewrite lookup_empty in Ea2). by eapply (inv_own w I).
    + intros n Hn. destruct (decide (next w = n)) as [<-|Hne]; [lia|]. rewrite lookup_insert_ne in Hn by done.
      apply (inv_objects w I) in Hn. lia.
    + intros x n [[<- <-]|[Hx Ex]]%lookup_insert_Some; [by rewrite lookup_insert_eq|].
      destruct (decide (next w = n)) as [<-|Hne]; [by rewrite lookup_insert_eq|]. rewrite lookup_insert_ne by done.
      by eapply (inv_names w I).
    + intros x y n [[<- <-]|[Hx Ex]]%lookup_insert_Some [[<- Ey]|[Hy Ey]]%lookup_insert_Some; try done.
      * apply (inv_names w I) in Ey. rewrite Ef in Ey. by destruct Ey.
      * apply (inv_names w I) in Ex. subst. rewrite Ef in Ex. by destruct Ex.
      * by eapply (inv_inj w I).
    + lia.
  - intros n. simpl. unfold table. simpl. destruct (decide (next w = n)) as [<-|Hne].
    + rewrite lookup_insert_eq, Ef. simpl. apply omap_empty.
    + by rewrite lookup_insert_ne.
Qed.

Lemma implements_refl o w : Inv w -> (forall n, spec_table o n (table w n) = table w n) -> implements o w w.
Proof. intros I Hs. by split. Qed.

(** What the result of an operation says. *)
Definition result_ok (o : op) (w : world) (r : Z) (w' : world) : Prop :=
  match o with
  | create_or_get_namespace name =>
      namespaces w' !! name = Some r /\
      (namespaces w !! name = Some r \/ (objects w !! r = None /\ forall x, namespaces w !! x <> Some r)) /\
      (forall x n, namespaces w !! x = Some n -> namespaces w' !! x = Some n)
  | namespace_retrieve n key =>
      match table w n !! key with Some v => r <> NULL /\ cstr w' !! r = Some v | None => r = NULL end
  | _ => namespaces w' = namespaces w
  end.

Lemma exec_implements t o w r w' : Inv w -> exec t o w = Returns r w' -> implements o w w'.
Proof.
  intros I Hx. destruct o as [name|n key value|n key|n key|n|n]; simpl in Hx; unfold guarded in Hx;
    [|destruct (objects w !! n) as [o|] eqn:E; [|done]..]; [|try (destruct (available t (lock o)); [|done])..].
  - destruct (namespaces w !! name) as [n|] eqn:En; injection Hx as <- <-; [by apply implements_refl|].
    by apply create_fresh.
  - destruct (map o !! key) as [a|] eqn:Ea; [destruct (in_place _ _)|]; injection Hx as <- <-.
    + by apply store_in_place.
    + apply store_fresh; [done|done|]. intros n' o' k x E' Ex Hne. rewrite lookup_delete_ne; [done|]. intros <-.
      destruct (inv_own w I _ _ _ _ _ _ _ E Ea E' Ex) as [-> ->]. done.
    + by apply store_fresh.
  - destruct (map o !! key) as [a|] eqn:Ea; injection Hx as <- <-; [by apply delete_entry|].
    apply implements_refl; [done|]. intros n'. simpl. case_decide as Hd; [|done]. subst. apply delete_id.
    rewrite (table_lookup w n' o) by done. by rewrite Ea.
  - destruct (map o !! key); injection Hx as <- <-; by apply implements_refl.
  - destruct (lock_lock t (lock o)) as [l|]; [|done]. injection Hx as <- <-. by apply set_lock_same.
  - destruct (lock_unlock t (lock o)) as [l|]; [|done]. injection Hx as <- <-. by apply set_lock_same.
Qed.

(** C30. The namespaces refine a family of string tables, one for each name:
    [create_or_get_namespace] returns the same namespace for the same name and a
    new, empty one for a new name, storing and deleting change exactly the entry
    of the key in the namespace, retrieving returns a pointer to the stored
    value or [NULL], and the locks change no table. *)
Theorem namespaces_refine t o w r w' :
  Inv w -> exec t o w = Returns r w' -> implements o w w' /\ result_ok o w r w'.
Proof.
  intros I Hx. split; [by eapply exec_implements|].
  destruct o as [name|n key value|n key|n key|n|n]; simpl in Hx; unfold guarded in Hx;
    [|destruct (objects w !! n) as [o|] eqn:E; [|done]..]; [|try (destruct (available t (lock o)); [|done])..].
  - destruct (namespaces w !! name) as [n|] eqn:En; injection Hx as <- <-.
    + split; [done|]. split; [by left|done].
    + destruct (create_fresh w name I En) as [_ Ef]. simpl. split; [apply lookup_insert_eq|]. split.
      * right. split; [done|]. intros x Hx. apply (inv_names w I) in Hx. rewrite Ef in Hx. by destruct Hx.
      * intros x n Hx. rewrite lookup_insert_ne; [done|]. intros <-. congruence.
  - destruct (map o !! key); [destruct (in_place _ _)|]; by injection Hx as <- <-.
  - destruct (map o !! key); by injection Hx as <- <-.
  - unfold result_ok. rewrite (table_lookup w n o) by done.
    destruct (map o !! key) as [a|] eqn:Ea; injection Hx as <- <-; simpl; [|done].
    destruct (inv_live w I _ _ _ _ E Ea) as [[v Ev] Ha]. rewrite Ev. split; [unfold NULL; lia|done].
  - destruct (lock_lock t (lock o)); [|done]. by injection Hx as <- <-.
  - destruct (lock_unlock t (lock o)); [|done]. by injection Hx as <- <-.
Qed.

(** ** The pointer [namespace_retrieve] returns

    It points into the map: it outlives the lock the function took. *)
Definition pinned (t : nat) (n : Z) (key : string) (p : Z) (v : string) (w : world) : Prop :=
  exists o c, objects w !! n = Some o /\ holder (lock o) = Some (t, c) /\ map o !! key = Some p /\ cstr w !! p = Some v.

(** Operations of several threads, one after the other; [None] when one of them
    blocks. *)
Fixpoint run (l : list (nat * op)) (w : world) : option world :=
  match l with
  | [] => Some w
  | (t, o) :: l => match exec t o w with Returns _ w' => run l w' | _ => None end
  end.

Lemma pinned_elsewhere t n key p v w n' o' m c nx :
  pinned t n key p v w -> n' <> n -> c !! p = cstr w !! p -> pinned t n key p v (set_map w n' o' m c nx).
Proof.
  intros (o & k & E & Hh & Em & Ev) Hn Hc. exists o, k. simpl.
  rewrite lookup_insert_ne by done. by rewrite Hc.
Qed.

Lemma pinned_not_available t n key p v w t' o :
  pinned t n key p v w -> t' <> t -> objects w !! n = Some o -> available t' (lock o) = false.
Proof.
  intros (o1 & c & E & Hh & _) Ht E'. assert (o1 = o) as -> by congruence. unfold available. rewrite Hh.
  apply bool_decide_eq_false. by apply not_eq_sym.
Qed.

Lemma pinned_step t n key p v w t' op r w' :
  Inv w -> pinned t n key p v w -> t' <> t -> exec t' op w = Returns r w' -> pinned t n key p v w'.
Proof.
  intros I Hp Ht Hx. pose proof Hp as (o & c & E & Hh & Em & Ev).
  destruct (inv_live w I _ _ _ _ E Em) as [_ Hlt].
  assert (forall n' o' k a, objects w !! n' = Some o' -> map o' !! k = Some a -> n' <> n -> a <> p) as Hown.
  { intros n' o' k a E' Ea Hn ->. by destruct (inv_own w I _ _ _ _ _ _ _ E Em E' Ea). }
  destruct op as [name|n' key' value|n' key'|n' key'|n'|n']; simpl in Hx; unfold guarded in Hx;
    [|destruct (objects w !! n') as [o'|] eqn:E'; [|done]..].
  1: { destruct (namespaces w !! name) as [n'|]; injection Hx as <- <-; [done|].
       exists o, c. simpl. rewrite lookup_insert_ne; [done|]. intros <-.
       assert (0 < next w < next w); [|lia]. apply (inv_objects w I). by exists o. }
  1-3: destruct (available t' (lock o')) eqn:Eav; [|done];
    assert (n' <> n) as Hn by (intros ->; rewrite (pinned_not_available _ _ _ _ _ _ _ _ Hp Ht E') in Eav; done).
  - destruct (map o' !! key') as [a|] eqn:Ea; [destruct (in_place _ _)|]; injection Hx as <- <-;
      (apply pinned_elsewhere; [done..|]).
    + by rewrite lookup_insert_ne by exact (Hown _ _ _ _ E' Ea Hn).
    + rewrite lookup_insert_ne by lia. by rewrite lookup_delete_ne by exact (Hown _ _ _ _ E' Ea Hn).
    + by rewrite lookup_insert_ne by lia.
  - destruct (map o' !! key') as [a|] eqn:Ea; injection Hx as <- <-; [|done].
    apply pinned_elsewhere; [done..|]. by rewrite lookup_delete_ne by exact (Hown _ _ _ _ E' Ea Hn).
  - destruct (map o' !! key'); injection Hx as <- <-; done.
  - destruct (decide (n' = n)) as [->|Hn].
    + assert (o' = o) as -> by congruence. unfold lock_lock in Hx. rewrite Hh in Hx. by rewrite decide_False in Hx.
    + destruct (lock_lock t' (lock o')); [|done]. injection Hx as <- <-. exists o, c. simpl. by rewrite lookup_insert_ne.
  - destruct (decide (n' = n)) as [->|Hn].
    + assert (o' = o) as -> by congruence. unfold lock_unlock in Hx. rewrite Hh in Hx.
      destruct c; [done|]. by rewrite decide_False in Hx.
    + destruct (lock_unlock t' (lock o')); [|done]. injection Hx as <- <-. exists o, c. simpl. by rewrite lookup_insert_ne.
Qed.

(** C31. A thread that holds the lock of a namespace while it retrieves a value
    can read the value through the returned pointer as long as it keeps the lock,
    whatever the other threads do in the meantime. *)
Theorem retrieved_while_locked t n key p v w l w' :
  Inv w ->
  (exists o c, objects w !! n = Some o /\ holder (lock o) = Some (t, c)) ->
  exec t (namespace_retrieve n key) w = Returns p w ->
  table w n !! key = Some v ->
  Forall (fun x => x.1 <> t) l -> run l w = Some w' ->
  cstr w' !! p = Some v.
Proof.
  intros I (o & c & E & Hh) Hx Hv Hl Hr. assert (pinned t n key p v w) as Hp.
  { exists o, c. split; [done|]. split; [done|]. rewrite (table_lookup w n o) in Hv by done.
    simpl in Hx. unfold guarded in Hx. rewrite E in Hx. destruct (available t (lock o)); [|done].
    destruct (map o !! key) as [a|]; [|done]. injection Hx as ->. by split. }
  clear Hx Hv E Hh. revert w I Hp Hr. induction l as [|[t' op] l IH]; intros w I Hp Hr; simpl in Hr.
  - injection Hr as <-. by destruct Hp as (? & ? & _ & _ & _ & Hv).
  - inversion Hl as [|? ? Ht Hl']; subst. destruct (exec t' op w) as [r w1| |] eqn:Ex; try done.
    apply (IH Hl' w1); [by eapply exec_implements|by eapply pinned_step|done].
Qed.

(** Without the lock, a store to the key by another thread frees the buffer the
    pointer points to, or overwrites it; a deletion frees it. *)
Lemma retrieved_then_changed t n key p w o :
  objects w !! n = Some o -> map o !! key = Some p -> Inv w -> available t (lock o) = true ->
  (forall value, exists w', exec t (namespace_store n key value) w = Returns NULL w' /\
     (cstr w' !! p = None \/ cstr w' !! p = Some value)) /\
  exists w', exec t (namespace_delete n key) w = Returns NULL w' /\ cstr w' !! p = None.
Proof.
  intros E Em I Ha. destruct (inv_live w I _ _ _ _ E Em) as [_ Hlt]. simpl. unfold guarded. rewrite E, Ha, Em. split.
  - intros value. destruct (in_place _ _); eexists; (split; [done|]); simpl.
    + right. apply lookup_insert_eq.
    + left. rewrite lookup_insert_ne by lia. apply lookup_delete_eq.
  - eexists. split; [done|]. simpl. apply lookup_delete_eq.
Qed.
End code.

(** ** Iterating over a namespace

    The loop copies each entry and calls back with the copy.  The lock is
    recursive, so the callback may call the other functions: [cb] gives the
    entries it stores ([Some]) and deletes ([None]).  Inserting a key may
    rehash the map and deleting the current one invalidates the iterator;
    both are undefined behaviour ([None]).  [order] is the order of the map. *)
Definition change : Type := string * option string.

Definition apply_change (c : change) (m : gmap string string) : gmap string string :=
  match c.2 with Some v => <[c.1 := v]> m | None => delete c.1 m end.
Definition change_allowed (current : string) (m : gmap string string) (c : change) : bool :=
  match c.2 with Some _ => bool_decide (is_Some (m !! c.1)) | None => negb (bool_decide (c.1 = current)) end.

Fixpoint apply_changes (current : string) (cs : list change) (m : gmap string string) : option (gmap string string) :=
  match cs with
  | [] => Some m
  | c :: cs => if change_allowed current m c then apply_changes current cs (apply_change c m) else None
  end.

(** The map afterwards and the pairs that were passed to the callback. *)
Fixpoint namespace_iterate (order : list string) (cb : string -> string -> list change) (m : gmap string string)
  : option (gmap string string * list (string * string)) :=
  match order with
  | [] => Some (m, [])
  | k :: order =>
      match m !! k with
      | None => namespace_iterate order cb m
      | Some v =>
          m' ← apply_changes k (cb k v) m;
          '(m2, seen) ← namespace_iterate order cb m';
          Some (m2, (k, v) :: seen)
      end
  end.

(** A callback that changes nothing sees every entry exactly once. *)
Lemma iterate_sees_all order m :
  order ≡ₚ (map_to_list m).*1 ->
  exists seen, namespace_iterate order (fun _ _ => []) m = Some (m, seen) /\ seen ≡ₚ map_to_list m.
Proof.
  intros Hp. assert (forall ks, Forall (fun k => is_Some (m !! k)) ks ->
    namespace_iterate ks (fun _ _ => []) m = Some (m, omap (fun k => (fun v => (k, v)) <$> m !! k) ks)) as Hi.
  { induction ks as [|k ks IH]; intros Hk; [done|]. inversion Hk as [|? ? [v Ev] Hks]; subst.
    simpl. rewrite Ev. simpl. rewrite IH by done. done. }
  assert (forall l : list (string * string), (forall k v, (k, v) ∈ l -> m !! k = Some v) ->
    omap (fun k => (fun v => (k, v)) <$> m !! k) l.*1 = l) as Ho.
  { induction l as [|[k v] l IH]; intros Hl; [done|]. csimpl. rewrite (Hl k v) by (by left). csimpl.
    f_equal. apply IH. intros; apply Hl; by right. }
  eexists. split.
  - apply Hi. rewrite Hp. apply Forall_forall. intros k Hk%list_elem_of_fmap. destruct Hk as ([k' v] & -> & Hkv).
    apply elem_of_map_to_list in Hkv. by exists v.
  - rewrite <- (Ho (map_to_list m)) at 1 by (intros k v; apply elem_of_map_to_list).
    by rewrite Hp.
Qed.

(** A callback that stores a new key while the map is iterated. *)
Lemma iterate_insert_undefined order cb m k v k' v' :
  m !! k = Some v -> cb k v = [(k', Some v')] -> m !! k' = None -> namespace_iterate (k :: order) cb m = None.
Proof.
  intros Ek Ec Ek'. simpl. rewrite Ek, Ec. simpl. unfold change_allowed. simpl.
  rewrite Ek'. by rewrite bool_decide_eq_false_2 by (by intros [? ?]).
Qed.

(** ** Results of tasks (task-results.cpp) *)
Module Results.
Record state := { results : gmap Z string; task_id_ctr : Z }.
Definition initial : state := {| results := ∅; task_id_ctr := 1 |}.

Definition task_generate_id (s : state) : Z * state :=
  (task_id_ctr s, {| results := results s; task_id_ctr := u64 (task_id_ctr s + 1) |}).

(** [emplace] does not replace a result that is already there. *)
Definition task_store_result (id : Z) (result : string) (s : state) : state :=
  {| results := match results s !! id with Some _ => results s | None => <[id := result]> (results s) end;
     task_id_ctr := task_id_ctr s |}.

(** [None] is a null pointer. *)
Definition task_get_result (id : Z) (s : state) : option string * state :=
  match results s !! id with
  | Some r => (Some r, {| results := delete id (results s); task_id_ctr := task_id_ctr s |})
  | None => (None, s)
  end.

Inductive call :=
| Generate
| Store (id : Z) (r : string)
| Get (id : Z).

(** The calls of all tasks in the order in which they take the lock; the answers:
    an identifier, or the identifier asked for and its result. *)
Inductive ret := Id (id : Z) | Result (id : Z) (r : option string).
Fixpoint run (cs : list call) (s : state) : list ret * state :=
  match cs with
  | [] => ([], s)
  | Generate :: cs => let '(id, s) := task_generate_id s in let '(l, s) := run cs s in (Id id :: l, s)
  | Store id r :: cs => run cs (task_store_result id r s)
  | Get id :: cs => let '(r, s) := task_get_result id s in let '(l, s) := run cs s in (Result id r :: l, s)
  end.

Definition generated (l : list ret) : list Z := omap (fun a => match a with Id id => Some id | _ => None end) l.
Definition results_of (id : Z) (l : list ret) : list string :=
  omap (fun a => match a with Result id' (Some r) => if decide (id' = id) then Some r else None | _ => None end) l.
Definition stored (id : Z) (cs : list call) : list string :=
  omap (fun c => match c with Store id' r => if decide (id' = id) then Some r else None | _ => None end) cs.

Fixpoint count (n : nat) (c : Z) : list Z := match n with O => [] | S n => c :: count n (u64 (c + 1)) end.

Lemma run_generated cs : forall s, generated (run cs s).1 = count (length (generated (run cs s).1)) (task_id_ctr s).
Proof.
  induction cs as [|[|id r|id] cs IH]; intros s; simpl; [done|..].
  - specialize (IH {| results := results s; task_id_ctr := u64 (task_id_ctr s + 1) |}).
    destruct (run cs _) as [l s']. simpl in *. by rewrite <- IH.
  - apply (IH (task_store_result id r s)).
  - unfold task_get_result. destruct (results s !! id) as [r|].
    + specialize (IH {| results := delete id (results s); task_id_ctr := task_id_ctr s |}).
      destruct (run cs _) as [l s']. apply IH.
    + specialize (IH s). destruct (run cs s) as [l s']. apply IH.
Qed.

Lemma count_nodup n : forall c, is_u64 c -> Z.of_nat n <= 2 ^ 64 -> NoDup (count n c) /\ forall x, x ∈ count n c -> exists i, 0 <= i < Z.of_nat n /\ x = u64 (c + i).
Proof.
  induction n as [|n IH]; intros c Hc Hn; simpl; [split; [constructor|by intros x ?%elem_of_nil]|].
  destruct (IH (u64 (c + 1)) (u64_range _) ltac:(lia)) as [Hd Hx]. split.
  - constructor; [|done]. intros Hin. apply Hx in Hin as (i & Hi & E). revert E. word.
  - intros x [->|Hin]%elem_of_cons; [exists 0; split; [lia|]; rewrite Z.add_0_r; by rewrite u64_small|].
    apply Hx in Hin as (i & Hi & ->). exists (1 + i). split; [lia|]. word.
Qed.

(** The results of an identifier come out in the order they are stored in, a
    store to an occupied identifier is lost. *)
Lemma run_results id cs : forall s,
  results_of id (run cs s).1 `sublist_of` (option_list (results s !! id) ++ stored id cs).
Proof.
  induction cs as [|[|id' r|id'] cs IH]; intros s; csimpl; [apply sublist_nil_l|..].
  - specialize (IH {| results := results s; task_id_ctr := u64 (task_id_ctr s + 1) |}).
    destruct (run cs _) as [l s']. apply IH.
  - etrans; [apply (IH (task_store_result id' r s))|]. unfold task_store_result. simpl.
    destruct (decide (id' = id)) as [->|Hne].
    + destruct (results s !! id) as [r0|] eqn:E.
      * rewrite E. simpl. apply sublist_skip. by apply sublist_cons.
      * rewrite lookup_insert_eq. simpl. done.
    + destruct (results s !! id') as [r0|] eqn:E; [done|]. by rewrite lookup_insert_ne by done.
  - unfold task_get_result. destruct (results s !! id') as [r|] eqn:E.
    + specialize (IH {| results := delete id' (results s); task_id_ctr := task_id_ctr s |}). simpl in IH.
      destruct (run cs _) as [l s']. csimpl in *. destruct (decide (id' = id)) as [->|Hne].
      * rewrite E. simpl. rewrite lookup_delete_eq in IH. by apply sublist_skip.
      * by rewrite lookup_delete_ne in IH by done.
    + specialize (IH s). destruct (run cs s) as [l s']. csimpl in *. done.
Qed.

(** The results of tasks reach the task that asks for them: the identifiers
    [task_generate_id] hands out are pairwise different for [2^64] calls, and
    for every interleaving of the calls the results returned for an identifier
    are results stored for it, in that order and none of them twice. *)
Theorem task_results_delivered cs :
  let l := (run cs initial).1 in
  (Z.of_nat (length (generated l)) <= 2 ^ 64 -> NoDup (generated l)) /\
  forall id, results_of id l `sublist_of` stored id cs.
Proof.
  intros l. split.
  - intros Hn. subst l. rewrite run_generated in Hn |- *. apply count_nodup; [done|].
    revert Hn. generalize (length (generated (run cs initial).1)). intros n.
    assert (forall c, length (count n c) = n) as -> by (induction n; intros; simpl; congruence). done.
  - intros id. apply (run_results id cs initial).
Qed.

(** The task's life: a result stored once is returned by the next [Get]. *)
Lemma result_returned id r s :
  results s !! id = None ->
  let s1 := task_store_result id r s in
  (task_get_result id s1).1 = Some r /\ results (task_get_result id s1).2 = results s.
Proof.
  intros E. unfold task_store_result, task_get_result. simpl. rewrite E, lookup_insert_eq. simpl.
  split; [done|]. by rewrite delete_insert_id.
Qed.
End Results.

(** ** Two tasks and one namespace *)
Definition no_reuse (s v : string) : bool := false.
Definition world1 : world :=
  {| namespaces := {["cfg" := 1]}; objects := {[1 := {| map := {["rate" := 2]}; lock := {| holder := Some (0, 1)%nat |} |}]};
     cstr := {[2 := "return 10"]}; next := 3 |}.

Lemma world1_reached : run no_reuse
  [(0, create_or_get_namespace "cfg"); (1, namespace_store 1 "rate" "return 10"); (0, namespace_lock 1)]%nat no_namespaces = Some world1.
Proof. vm_compute. reflexivity. Qed.

Lemma world1_inv : Inv world1.
Proof.
  assert (forall l w w', Inv w -> run no_reuse l w = Some w' -> Inv w') as Hr.
  { induction l as [|[t o] l IH]; intros w w' I Hr; simpl in Hr; [by injection Hr as <-|].
    destruct (exec _ _ _ _) as [r w1| |] eqn:E; try done. eapply IH; [|done]. by eapply exec_implements. }
  eapply Hr; [apply inv_no_namespaces|apply world1_reached].
Qed.

Lemma namespaces_refine_witness :
  exists w', exec no_reuse 0 (namespace_store 1 "rate" "return 20") world1 = Returns NULL w' /\
  table w' 1 !! "rate" = Some "return 20" /\
  implements (namespace_store 1 "rate" "return 20") world1 w'.
Proof.
  eexists. split; [vm_compute; reflexivity|]. split; [vm_compute; reflexivity|].
  apply (namespaces_refine no_reuse 0 _ world1 NULL); [apply world1_inv|vm_compute; reflexivity].
Defined.

(** Task 1 creates a namespace while task 0 holds the pointer to the value. *)
Lemma retrieved_while_locked_witness :
  exists w', run no_reuse [(1, create_or_get_namespace "log"); (1, namespace_store 3 "x" "return 1")]%nat world1 = Some w' /\
  cstr w' !! 2 = Some "return 10".
Proof.
  eexists. split; [vm_compute; reflexivity|].
  apply (retrieved_while_locked no_reuse 0 1 "rate" 2 "return 10" world1
    [(1, create_or_get_namespace "log"); (1, namespace_store 3 "x" "return 1")]%nat).
  - apply world1_inv.
  - eexists _, 1%nat. split; vm_compute; reflexivity.
  - vm_compute. reflexivity.
  - vm_compute. reflexivity.
  - repeat constructor; simpl; lia.
  - vm_compute. reflexivity.
Defined.
