(* ===== verification/Filter.v ===== *)
(** * Flow director report (src/src/filter.c)

    [fdir_get_infos] asks the i40e and then the ixgbe driver for the state of the
    flow director of a port and prints it. *)
From S2P Require Import Prelude Effects.

(** ** Data: the members of DPDK's structures that are printed *)
Record rte_eth_fdir_masks := {
  vlan_tci_mask : Z; src_ip : Z; dst_ip : Z; src_port_mask : Z; dst_port_mask : Z;
  src_ip6 : list Z; dst_ip6 : list Z
}.
Record rte_eth_flex_payload_cfg := { payload_type : Z; src_offset : list Z }.
Record rte_eth_fdir_flex_mask := { flow_type : Z; flex_bytes : list Z }.
Record rte_eth_fdir_flex_conf := {
  nb_payloads : Z; nb_flexmasks : Z;
  flex_set : list rte_eth_flex_payload_cfg; flex_mask : list rte_eth_fdir_flex_mask
}.
Record rte_eth_fdir_info := {
  mode : Z; mask : rte_eth_fdir_masks; guarant_spc : Z; best_spc : Z; flow_types_mask : Z;
  max_flexpayload : Z; flex_payload_unit : Z; max_flex_payload_segment_num : Z; flex_payload_limit : Z;
  flex_bitmask_unit : Z; max_flex_bitmask_num : Z; flex_conf : rte_eth_fdir_flex_conf
}.
Record rte_eth_fdir_stats := {
  collision : Z; free : Z; maxhash : Z; maxlen : Z; add : Z; remove : Z; f_add : Z; f_remove : Z;
  guarant_cnt : Z; best_cnt : Z
}.

(** The result of [memset(.., 0, ..)]. *)
Definition zero_masks : rte_eth_fdir_masks :=
  {| vlan_tci_mask := 0; src_ip := 0; dst_ip := 0; src_port_mask := 0; dst_port_mask := 0;
     src_ip6 := replicate 4 0; dst_ip6 := replicate 4 0 |}.
Definition zero_info : rte_eth_fdir_info :=
  {| mode := 0; mask := zero_masks; guarant_spc := 0; best_spc := 0; flow_types_mask := 0;
     max_flexpayload := 0; flex_payload_unit := 0; max_flex_payload_segment_num := 0; flex_payload_limit := 0;
     flex_bitmask_unit := 0; max_flex_bitmask_num := 0;
     flex_conf := {| nb_payloads := 0; nb_flexmasks := 0; flex_set := []; flex_mask := [] |} |}.
Definition zero_stats : rte_eth_fdir_stats :=
  {| collision := 0; free := 0; maxhash := 0; maxlen := 0; add := 0; remove := 0; f_add := 0; f_remove := 0;
     guarant_cnt := 0; best_cnt := 0 |}.

(** DPDK's constants, and its list of devices. *)
Inductive flow :=
| RAW | IPV4 | FRAG_IPV4 | NONFRAG_IPV4_TCP | NONFRAG_IPV4_UDP | NONFRAG_IPV4_SCTP | NONFRAG_IPV4_OTHER
| IPV6 | FRAG_IPV6 | NONFRAG_IPV6_TCP | NONFRAG_IPV6_UDP | NONFRAG_IPV6_SCTP | NONFRAG_IPV6_OTHER
| L2_PAYLOAD | PORT | VXLAN | GENEVE | NVGRE | VXLAN_GPE.

Class RteFdir := {
  ENOTSUP : Z;
  ENOTSUP_positive : 0 < ENOTSUP;
  RTE_ETH_FLOW : flow -> Z;
  RTE_ETH_FLOW_UNKNOWN : Z;
  RTE_ETH_FLOW_MAX : Z;
  RTE_ETH_RAW_PAYLOAD : Z; RTE_ETH_L2_PAYLOAD : Z; RTE_ETH_L3_PAYLOAD : Z; RTE_ETH_L4_PAYLOAD : Z;
  RTE_FDIR_MODE_PERFECT : Z; RTE_FDIR_MODE_PERFECT_MAC_VLAN : Z;
  RTE_FDIR_MODE_PERFECT_TUNNEL : Z; RTE_FDIR_MODE_SIGNATURE : Z;
  rte_be_to_cpu_16 : Z -> Z; rte_be_to_cpu_32 : Z -> Z;
  strerror : Z -> string;
  eth_devs : list Z
}.

Inductive arg := Num (n : Z) | Str (s : string).
(** One [printf]: its format and its arguments. *)
Definition line : Type := string * list arg.

Inductive fcall :=
| I40eGetFdirInfo (port : Z) | I40eGetFdirStats (port : Z)
| IxgbeGetFdirInfo (port : Z) | IxgbeGetFdirStats (port : Z)
| Printf (l : line).
Record fans := { rc : Z; info_of : rte_eth_fdir_info; stats_of : rte_eth_fdir_stats }.

Open Scope eff_scope.

Section code.
Context `{RteFdir} `{Env fcall fans}.

Definition printf (fmt : string) (args : list arg) : M fcall fans () := do (Printf (fmt, args)).

Fixpoint print_all (l : list line) : M fcall fans () :=
  match l with
  | [] => ret ()
  | (fmt, args) :: l => printf fmt args ;; print_all l
  end.

(** The result code, with the structures as they are afterwards. *)
Definition get_fdir_info (port : Z) (info : rte_eth_fdir_info) (stat : rte_eth_fdir_stats)
  : M fcall fans (Z * rte_eth_fdir_info * rte_eth_fdir_stats) :=
  a <- call (I40eGetFdirInfo port) ;;
  '(r, i, s) <-
    (if rc a =? 0 then b <- call (I40eGetFdirStats port) ;; ret (rc b, info_of a, stats_of b)
     else ret (rc a, info, stat)) ;;
  '(r, i, s) <-
    (if r =? - ENOTSUP then
       a <- call (IxgbeGetFdirInfo port) ;;
       if rc a =? 0 then b <- call (IxgbeGetFdirStats port) ;; ret (rc b, info_of a, stats_of b)
       else ret (rc a, i, s)
     else ret (r, i, s)) ;;
  (if r =? 0 then ret ()
   else if r =? - ENOTSUP then printf "\n FDIR is not supported on port %-2d\n" [Num port]
   else printf "programming error: (%s)\n" [Str (strerror (- r))]) ;;
  ret (r, i, s).

Definition RTE_PORT_ALL : Z := -1.

Definition port_id_is_invalid (port_id : Z) (warning : bool) : M fcall fans Z :=
  if port_id =? u16 RTE_PORT_ALL then ret 0
  else if existsb (fun pid => port_id =? pid) eth_devs then ret 0
  else (if warning then printf "Invalid port %d\n" [Num port_id] else ret ()) ;; ret 1.

Definition words (l : list Z) : option (list arg) :=
  a ← l !! 0%nat; b ← l !! 1%nat; c ← l !! 2%nat; d ← l !! 3%nat;
  Some (map (fun x => Num (rte_be_to_cpu_32 x)) [a; b; c; d]).

(** What the [print_] functions print; [None]: an array is read out of bounds. *)
Definition print_fdir_mask (m : rte_eth_fdir_masks) : option (list line) :=
  s6 ← words (src_ip6 m); d6 ← words (dst_ip6 m);
  Some [("\n    vlan_tci: 0x%04x", [Num (rte_be_to_cpu_16 (vlan_tci_mask m))]);
        (", src_ipv4: 0x%08x, dst_ipv4: 0x%08x", [Num (rte_be_to_cpu_32 (src_ip m)); Num (rte_be_to_cpu_32 (dst_ip m))]);
        ("\n    src_port: 0x%04x, dst_port: 0x%04x",
         [Num (rte_be_to_cpu_16 (src_port_mask m)); Num (rte_be_to_cpu_16 (dst_port_mask m))]);
        ("\n    src_ipv6: 0x%08x,0x%08x,0x%08x,0x%08x", s6);
        ("\n    dst_ipv6: 0x%08x,0x%08x,0x%08x,0x%08x", d6);
        ("\n", [])].

(** [for (j = 0; j < num; j++) printf(fmt, a[j])] *)
Definition print_array (fmt : string) (a : list Z) (num : Z) : option (list line) :=
  mapM (fun j => x ← a !! Z.to_nat j; Some (fmt, [Num x])) (seqZ 0 num).

Definition payload_header (ty : Z) : line :=
  if ty =? RTE_ETH_RAW_PAYLOAD then ("\n    RAW:  ", [])
  else if ty =? RTE_ETH_L2_PAYLOAD then ("\n    L2_PAYLOAD:  ", [])
  else if ty =? RTE_ETH_L3_PAYLOAD then ("\n    L3_PAYLOAD:  ", [])
  else if ty =? RTE_ETH_L4_PAYLOAD then ("\n    L4_PAYLOAD:  ", [])
  else ("\n    UNKNOWN PAYLOAD(%u):  ", [Num ty]).

Definition print_fdir_flex_payload (c : rte_eth_fdir_flex_conf) (num : Z) : option (list line) :=
  blocks ← mapM (fun i =>
    cfg ← flex_set c !! Z.to_nat i;
    offs ← print_array "  %-5u" (src_offset cfg) num;
    Some (payload_header (payload_type cfg) :: offs)) (seqZ 0 (nb_payloads c));
  Some (concat blocks ++ [("\n", [])]).

Definition flowtype_str_table : list (string * Z) :=
  [("raw", RTE_ETH_FLOW RAW);
   ("ipv4", RTE_ETH_FLOW IPV4);
   ("ipv4-frag", RTE_ETH_FLOW FRAG_IPV4);
   ("ipv4-tcp", RTE_ETH_FLOW NONFRAG_IPV4_TCP);
   ("ipv4-udp", RTE_ETH_FLOW NONFRAG_IPV4_UDP);
   ("ipv4-sctp", RTE_ETH_FLOW NONFRAG_IPV4_SCTP);
   ("ipv4-other", RTE_ETH_FLOW NONFRAG_IPV4_OTHER);
   ("ipv6", RTE_ETH_FLOW IPV6);
   ("ipv6-frag", RTE_ETH_FLOW FRAG_IPV6);
   ("ipv6-tcp", RTE_ETH_FLOW NONFRAG_IPV6_TCP);
   ("ipv6-udp", RTE_ETH_FLOW NONFRAG_IPV6_UDP);
   ("ipv6-sctp", RTE_ETH_FLOW NONFRAG_IPV6_SCTP);
   ("ipv6-other", RTE_ETH_FLOW NONFRAG_IPV6_OTHER);
   ("l2_payload", RTE_ETH_FLOW L2_PAYLOAD);
   ("port", RTE_ETH_FLOW PORT);
   ("vxlan", RTE_ETH_FLOW VXLAN);
   ("geneve", RTE_ETH_FLOW GENEVE);
   ("nvgre", RTE_ETH_FLOW NVGRE);
   ("vxlan-gpe", RTE_ETH_FLOW VXLAN_GPE)].

Definition flowtype_to_str (flow_type : Z) : option string :=
  fst <$> List.find (fun e => snd e =? flow_type) flowtype_str_table.

Definition print_fdir_flex_mask (c : rte_eth_fdir_flex_conf) (num : Z) : option (list line) :=
  blocks ← mapM (fun i =>
    m ← flex_mask c !! Z.to_nat i;
    bytes ← print_array " %02x" (flex_bytes m) num;
    Some (("\n    %s:\t", [Str (default "unknown" (flowtype_to_str (flow_type m)))]) :: bytes)) (seqZ 0 (nb_flexmasks c));
  Some (concat blocks ++ [("\n", [])]).

(** One round of the loop over the flow types. *)
Definition print_flow (flow_types_mask i : Z) : list line :=
  if negb (c_true (Z.land flow_types_mask (Z.shiftl 1 i))) then []
  else match flowtype_to_str (u16 i) with Some p => [(" %s", [Str p])] | None => [(" unknown", [])] end.

Definition print_fdir_flow_type (flow_types_mask : Z) : list line :=
  concat (map (print_flow flow_types_mask) (seqZ RTE_ETH_FLOW_UNKNOWN (RTE_ETH_FLOW_MAX - RTE_ETH_FLOW_UNKNOWN)))
  ++ [("\n", [])].

Definition fdir_stats_border : string := "########################".

Definition mode_line (m : Z) : string :=
  if m =? RTE_FDIR_MODE_PERFECT then "  PERFECT\n"
  else if m =? RTE_FDIR_MODE_PERFECT_MAC_VLAN then "  PERFECT-MAC-VLAN\n"
  else if m =? RTE_FDIR_MODE_PERFECT_TUNNEL then "  PERFECT-TUNNEL\n"
  else if m =? RTE_FDIR_MODE_SIGNATURE then "  SIGNATURE\n"
  else "  DISABLE\n".

Definition limits (i : rte_eth_fdir_info) : line :=
  ("  max_len:       %-10u  payload_limit: %-10u\n  payload_unit:  %-10u  payload_seg:   %-10u\n  bitmask_unit:  %-10u  bitmask_num:   %-10u\n",
   [Num (max_flexpayload i); Num (flex_payload_limit i); Num (flex_payload_unit i);
    Num (max_flex_payload_segment_num i); Num (flex_bitmask_unit i); Num (max_flex_bitmask_num i)]).

Definition counters (i : rte_eth_fdir_info) (s : rte_eth_fdir_stats) : list line :=
  [("  guarant_count: %-10u  best_count:    %u\n", [Num (guarant_cnt s); Num (best_cnt s)]);
   ("  guarant_space: %-10u  best_space:    %u\n", [Num (guarant_spc i); Num (best_spc i)]);
   ("  collision:     %-10u  free:          %u\n  maxhash:       %-10u  maxlen:        %u\n  add:	         %-10lu  remove:        %lu\n  f_add:         %-10lu  f_remove:      %lu\n",
    [Num (collision s); Num (free s); Num (maxhash s); Num (maxlen s);
     Num (add s); Num (remove s); Num (f_add s); Num (f_remove s)])].

(** What is printed for a port with this state. *)
Definition fdir_report (port_id : Z) (i : rte_eth_fdir_info) (s : rte_eth_fdir_stats) : option (list line) :=
  m ← print_fdir_mask (mask i);
  payload ← (if 0 <? nb_payloads (flex_conf i)
             then l ← print_fdir_flex_payload (flex_conf i) (max_flexpayload i); Some (("  FLEX PAYLOAD SRC OFFSET:", []) :: l)
             else Some []);
  masks ← (if 0 <? nb_flexmasks (flex_conf i)
           then l ← print_fdir_flex_mask (flex_conf i) (max_flexpayload i); Some (("  FLEX MASK CFG:", []) :: l)
           else Some []);
  Some ([("\n  %s FDIR infos for port %-2d     %s\n", [Str fdir_stats_border; Num port_id; Str fdir_stats_border]);
         ("  MODE: ", []); (mode_line (mode i), [])]
        ++ (if negb (mode i =? RTE_FDIR_MODE_PERFECT_MAC_VLAN) && negb (mode i =? RTE_FDIR_MODE_PERFECT_TUNNEL)
            then ("  SUPPORTED FLOW TYPE: ", []) :: print_fdir_flow_type (flow_types_mask i) else [])
        ++ [("  FLEX PAYLOAD INFO:\n", []); limits i; ("  MASK: ", [])] ++ m ++ payload ++ masks
        ++ counters i s ++ [("  %s############################%s\n", [Str fdir_stats_border; Str fdir_stats_border])]).

(** [None]: an array is read out of bounds. *)
Definition fdir_get_infos (port_id : Z) : M fcall fans (option ()) :=
  bad <- port_id_is_invalid (u16 port_id) true ;;
  if c_true bad then ret (Some ())
  else
    '(r, i, s) <- get_fdir_info (u16 port_id) zero_info zero_stats ;;
    if c_true r then ret (Some ())
    else match fdir_report port_id i s with
         | None => ret None
         | Some l => print_all l ;; ret (Some ())
         end.
End code.

(** ** Flow types *)
Section facts.
Context `{RteFdir} `{Env fcall fans}.

Lemma find_fst_inj (l : list (string * Z)) x y s :
  NoDup l.*1 -> fst <$> List.find (fun e => snd e =? x) l = Some s ->
  fst <$> List.find (fun e => snd e =? y) l = Some s -> x = y.
Proof.
  intros Hd Hx Hy.
  assert (forall z, fst <$> List.find (fun e => snd e =? z) l = Some s -> (s, z) ∈ l) as Hin.
  { intros z Hz. apply fmap_Some in Hz as ([s' z'] & Hf & ->). apply find_some in Hf as [Hi Hz].
    apply Z.eqb_eq in Hz. simpl in Hz. subst. by apply list_elem_of_In. }
  apply Hin in Hx, Hy. clear Hin. induction l as [|[s' z] l IH]; [by apply elem_of_nil in Hx|].
  csimpl in Hd. inversion Hd as [|? ? Hn Hd']; subst.
  assert (forall z1, (s, z1) ∈ l -> s <> s') as Hne.
  { intros z1 Hz <-. apply Hn. apply list_elem_of_fmap. by exists (s, z1). }
  apply elem_of_cons in Hx as [Hx|Hx], Hy as [Hy|Hy]; simplify_eq; [done|by destruct (Hne y)|by destruct (Hne x)|].
  by apply IH.
Qed.

(** A name stands for one flow type, whatever values the constants have. *)
Lemma flowtype_to_str_inj x y s : flowtype_to_str x = Some s -> flowtype_to_str y = Some s -> x = y.
Proof. apply find_fst_inj. simpl. repeat constructor; set_solver. Qed.

Lemma flow_names_no_newline x s : flowtype_to_str x = Some s -> s <> "unknown".
Proof.
  unfold flowtype_to_str. intros Hs ->. apply fmap_Some in Hs as ([s' z] & Hf & E).
  apply find_some in Hf as [Hi _]. simpl in Hi, E. subst. intuition congruence.
Qed.

Lemma land_shiftl_1 m i : 0 <= i -> c_true (Z.land m (Z.shiftl 1 i)) = Z.testbit m i.
Proof. intros Hi. rewrite Z.shiftl_mul_pow2, Z.mul_1_l by done. by apply c_true_land_pow2. Qed.

(** The flow types printed for a port are exactly those of its mask: a flow
    type with a name is printed if and only if its bit is set, and every bit
    between the first and the last flow type prints one word. *)
Theorem flow_types_printed m :
  0 <= RTE_ETH_FLOW_UNKNOWN -> RTE_ETH_FLOW_MAX <= 65536 ->
  (forall i s, RTE_ETH_FLOW_UNKNOWN <= i < RTE_ETH_FLOW_MAX -> flowtype_to_str i = Some s ->
     ((" %s", [Str s]) ∈ print_fdir_flow_type m <-> Z.testbit m i = true)) /\
  Z.of_nat (length (print_fdir_flow_type m)) =
    1 + zsum (map (fun i => c_bool (Z.testbit m i)) (seqZ RTE_ETH_FLOW_UNKNOWN (RTE_ETH_FLOW_MAX - RTE_ETH_FLOW_UNKNOWN))).
Proof.
  intros Hlo Hhi. unfold print_fdir_flow_type. set (range := seqZ _ _).
  assert (forall i, i ∈ range <-> RTE_ETH_FLOW_UNKNOWN <= i < RTE_ETH_FLOW_MAX) as Hr.
  { intros i. subst range. rewrite elem_of_seqZ. lia. }
  split.
  - intros i s Hi Hs. rewrite elem_of_app, list_elem_of_singleton. split.
    + intros [Hin|[=]]. apply list_elem_of_In, in_concat in Hin as (l & Hl & Hin). apply in_map_iff in Hl as (j & <- & Hj).
      apply list_elem_of_In, Hr in Hj. unfold print_flow in Hin. rewrite land_shiftl_1, u16_small in Hin by (unfold is_u16; lia).
      destruct (Z.testbit m j) eqn:Eb; [|done]. simpl in Hin.
      destruct (flowtype_to_str j) as [p|] eqn:Ej; [|by destruct Hin as [[=]|[]]].
      destruct Hin as [[= ->]|[]]. by rewrite (flowtype_to_str_inj i j s).
    + intros Hb. left. apply list_elem_of_In, in_concat. exists (print_flow m i). split.
      * apply in_map, list_elem_of_In, Hr, Hi.
      * unfold print_flow. rewrite land_shiftl_1, u16_small, Hb, Hs by (unfold is_u16; lia). by left.
  - rewrite length_app. simpl. rewrite Nat2Z.inj_add. change (Z.of_nat 1) with 1. rewrite Z.add_comm. f_equal.
    assert (Forall (fun i => 0 <= i) range) as Hp by (apply Forall_forall; intros i ?%Hr; lia).
    clear Hr. induction Hp as [|i l Hi _ IH]; [done|]. simpl. rewrite length_app, Nat2Z.inj_add, IH.
    f_equal. unfold print_flow. rewrite land_shiftl_1 by done. destruct (Z.testbit m i); [|done]. simpl.
    by destruct (flowtype_to_str _).
Qed.

(** ** The drivers *)
Lemma print_all_trace l t : exists tl, (print_all l t).2 = tl ++ t /\ rev (map fst tl) = map Printf l.
Proof.
  revert t. induction l as [|[fmt args] l IH]; intros t; [by exists []|].
  simpl. unfold printf. rewrite bind_do. destruct (IH ((Printf (fmt, args), answer t (Printf (fmt, args))) :: t)) as (tl & E & Er).
  exists (tl ++ [(Printf (fmt, args), answer t (Printf (fmt, args)))]). rewrite E, <- app_assoc. split; [done|].
  rewrite map_app, rev_app_distr. simpl. by rewrite Er.
Qed.


Lemma print_array_some fmt a num : num <= Z.of_nat (length a) -> is_Some (print_array fmt a num).
Proof.
  intros Hn. apply mapM_is_Some_2, Forall_forall. intros j Hj%elem_of_seqZ.
  destruct (lookup_lt_is_Some_2 a (Z.to_nat j) ltac:(lia)) as [x Ex]. unfold compose. rewrite Ex. by eexists.
Qed.

Lemma blocks_some {X} (l : list X) (f : X -> option (list line)) num :
  num <= Z.of_nat (length l) -> (forall x, x ∈ l -> is_Some (f x)) ->
  is_Some (mapM (fun i => x ← l !! Z.to_nat i; f x) (seqZ 0 num)).
Proof.
  intros Hn Hf. apply mapM_is_Some_2, Forall_forall. intros j Hj%elem_of_seqZ.
  destruct (lookup_lt_is_Some_2 l (Z.to_nat j) ltac:(lia)) as [x Ex]. unfold compose. rewrite Ex. simpl.
  apply Hf. by eapply list_elem_of_lookup_2.
Qed.

Lemma words_some l : length l = 4%nat -> is_Some (words l).
Proof. intros Hl. destruct l as [|a [|b [|c [|d [|]]]]]; try done. Qed.

(** The limits the driver reports fit the arrays it fills. *)
Definition fits (i : rte_eth_fdir_info) : Prop :=
  length (src_ip6 (mask i)) = 4%nat /\ length (dst_ip6 (mask i)) = 4%nat /\
  nb_payloads (flex_conf i) <= Z.of_nat (length (flex_set (flex_conf i))) /\
  nb_flexmasks (flex_conf i) <= Z.of_nat (length (flex_mask (flex_conf i))) /\
  (forall c, c ∈ flex_set (flex_conf i) -> max_flexpayload i <= Z.of_nat (length (src_offset c))) /\
  (forall m, m ∈ flex_mask (flex_conf i) -> max_flexpayload i <= Z.of_nat (length (flex_bytes m))).

Lemma flex_payload_some i : fits i -> is_Some (print_fdir_flex_payload (flex_conf i) (max_flexpayload i)).
Proof.
  intros (_ & _ & Hp & _ & Hs & _). unfold print_fdir_flex_payload.
  match goal with |- is_Some (?m ≫= _) => assert (is_Some m) as [b Eb]; [apply blocks_some; [exact Hp|]|rewrite Eb; by eexists] end.
  intros c Hc. destruct (print_array_some "  %-5u" (src_offset c) (max_flexpayload i) (Hs c Hc)) as [o Eo].
  rewrite Eo. by eexists.
Qed.

Lemma flex_mask_some i : fits i -> is_Some (print_fdir_flex_mask (flex_conf i) (max_flexpayload i)).
Proof.
  intros (_ & _ & _ & Hp & _ & Hs). unfold print_fdir_flex_mask.
  match goal with |- is_Some (?m ≫= _) => assert (is_Some m) as [b Eb]; [apply blocks_some; [exact Hp|]|rewrite Eb; by eexists] end.
  intros c Hc. destruct (print_array_some " %02x" (flex_bytes c) (max_flexpayload i) (Hs c Hc)) as [o Eo].
  rewrite Eo. by eexists.
Qed.

Lemma fdir_report_some port i s : fits i -> is_Some (fdir_report port i s).
Proof.
  intros Hf. pose proof (flex_payload_some i Hf) as [p Ep]. pose proof (flex_mask_some i Hf) as [q Eq].
  destruct Hf as (H4 & H6 & _). destruct (words_some _ H4) as [w4 E4], (words_some _ H6) as [w6 E6].
  unfold fdir_report, print_fdir_mask. rewrite E4, E6, Ep, Eq. simpl.
  destruct (0 <? _); simpl; (destruct (0 <? _); simpl; by eexists).
Qed.

Lemma valid_port p w t : p ∈ eth_devs -> port_id_is_invalid p w t = (0, t).
Proof.
  intros Hin. unfold port_id_is_invalid. destruct (p =? _); [done|].
  rewrite (proj2 (existsb_exists _ _)); [done|]. exists p. split; [by apply list_elem_of_In|apply Z.eqb_refl].
Qed.

Lemma invalid_port p t : p <> 65535 -> p ∉ eth_devs ->
  exists x, port_id_is_invalid p true t = (1, (Printf ("Invalid port %d\n", [Num p]), x) :: t).
Proof.
  intros Hp Hn. unfold port_id_is_invalid. change (u16 RTE_PORT_ALL) with 65535. rewrite (proj2 (Z.eqb_neq _ _) Hp).
  destruct (existsb _ _) eqn:Ex; [|by eexists].
  apply existsb_exists in Ex as (q & Hq & ->%Z.eqb_eq). by destruct Hn; apply list_elem_of_In.
Qed.

(** The i40e driver answers both questions. *)
Lemma get_fdir_info_i40e p i s t a b :
  a = answer t (I40eGetFdirInfo p) -> b = answer ((I40eGetFdirInfo p, a) :: t) (I40eGetFdirStats p) ->
  rc a = 0 -> rc b = 0 ->
  get_fdir_info p i s t = (0, info_of a, stats_of b, (I40eGetFdirStats p, b) :: (I40eGetFdirInfo p, a) :: t).
Proof.
  intros -> -> Ha Hb. unfold get_fdir_info, bind, call, ret. rewrite Ha. change (0 =? 0) with true. cbv beta iota zeta.
  rewrite Hb. rewrite (proj2 (Z.eqb_neq 0 (- ENOTSUP))) by (pose proof ENOTSUP_positive; lia). done.
Qed.

(** Neither driver supports the port. *)
Lemma get_fdir_info_unsupported p i s t a c :
  a = answer t (I40eGetFdirInfo p) -> c = answer ((I40eGetFdirInfo p, a) :: t) (IxgbeGetFdirInfo p) ->
  rc a = - ENOTSUP -> rc c = - ENOTSUP ->
  exists x, get_fdir_info p i s t =
    (- ENOTSUP, i, s, (Printf ("\n FDIR is not supported on port %-2d\n", [Num p]), x)
                      :: (IxgbeGetFdirInfo p, c) :: (I40eGetFdirInfo p, a) :: t).
Proof.
  intros -> -> Ha Hc. unfold get_fdir_info, printf, bind, call, do, ret.
  assert ((- ENOTSUP =? 0) = false) as E0 by (apply Z.eqb_neq; pose proof ENOTSUP_positive; lia).
  rewrite Ha, E0. cbv beta iota zeta. rewrite Z.eqb_refl, Hc, E0. cbv beta iota zeta. rewrite E0, Z.eqb_refl. by eexists.
Qed.

(** [fdir_get_infos] prints one message and asks no driver for a port that
    does not exist; for a port that the i40e driver supports it asks that driver
    alone and prints the whole report, inside the bounds of all arrays if the
    limits the driver reports fit them; and for a port that neither driver
    supports it prints one message. *)
Theorem fdir_get_infos_spec port t :
  let p := u16 port in
  let a := answer t (I40eGetFdirInfo p) in
  let t1 := (I40eGetFdirInfo p, a) :: t in
  let b := answer t1 (I40eGetFdirStats p) in
  let c := answer t1 (IxgbeGetFdirInfo p) in
  let r := fdir_get_infos port t in
  (p <> 65535 -> p ∉ eth_devs ->
     r.1 = Some () /\ exists x, r.2 = (Printf ("Invalid port %d\n", [Num p]), x) :: t) /\
  (p ∈ eth_devs -> rc a = 0 -> rc b = 0 -> fits (info_of a) ->
     r.1 = Some () /\ exists l tl, fdir_report port (info_of a) (stats_of b) = Some l /\
       r.2 = tl ++ (I40eGetFdirStats p, b) :: t1 /\ rev (map fst tl) = map Printf l) /\
  (p ∈ eth_devs -> rc a = - ENOTSUP -> rc c = - ENOTSUP ->
     r.1 = Some () /\ exists x, r.2 = (Printf ("\n FDIR is not supported on port %-2d\n", [Num p]), x) :: (IxgbeGetFdirInfo p, c) :: t1).
Proof.
  intros p a t1 b c r. subst r. unfold fdir_get_infos. fold p. split; [|split].
  - intros Hp Hn. destruct (invalid_port p t Hp Hn) as [x Ex]. unfold bind. rewrite Ex.
    change (c_true 1) with true. cbv beta iota. split; [done|]. by exists x.
  - intros Hin Ha Hb Hf. destruct (fdir_report_some port (info_of a) (stats_of b) Hf) as [l El].
    unfold bind. rewrite (valid_port _ _ _ Hin). change (c_true 0) with false. cbv beta iota.
    rewrite (get_fdir_info_i40e p _ _ t a b eq_refl eq_refl Ha Hb). change (c_true 0) with false. cbv beta iota.
    rewrite El. destruct (print_all_trace l ((I40eGetFdirStats p, b) :: t1)) as (tl & Et & Er). unfold t1 in Et.
    destruct (print_all l _) as [[] t2]. simpl in Et |- *. split; [done|]. exists l, tl. done.
  - intros Hin Ha Hc. destruct (get_fdir_info_unsupported p zero_info zero_stats t a c eq_refl eq_refl Ha Hc) as [x Ex].
    unfold bind. rewrite (valid_port _ _ _ Hin). change (c_true 0) with false. cbv beta iota. rewrite Ex.
    assert (c_true (- ENOTSUP) = true) as ->.
    { unfold c_true. rewrite (proj2 (Z.eqb_neq _ _)); [done|]. pose proof ENOTSUP_positive. lia. }
    cbv beta iota. split; [done|]. by exists x.
Qed.
End facts.

(** ** A concrete device *)
Module FdirExample.
#[local] Instance fdir : RteFdir := {|
  ENOTSUP := 95; ENOTSUP_positive := eq_refl;
  RTE_ETH_FLOW f := match f with
    | RAW => 1 | IPV4 => 2 | FRAG_IPV4 => 3 | NONFRAG_IPV4_TCP => 4 | NONFRAG_IPV4_UDP => 5 | NONFRAG_IPV4_SCTP => 6
    | NONFRAG_IPV4_OTHER => 7 | IPV6 => 8 | FRAG_IPV6 => 9 | NONFRAG_IPV6_TCP => 10 | NONFRAG_IPV6_UDP => 11
    | NONFRAG_IPV6_SCTP => 12 | NONFRAG_IPV6_OTHER => 13 | L2_PAYLOAD => 14 | PORT => 18 | VXLAN => 19 | GENEVE => 20
    | NVGRE => 21 | VXLAN_GPE => 22 end;
  RTE_ETH_FLOW_UNKNOWN := 0; RTE_ETH_FLOW_MAX := 24;
  RTE_ETH_RAW_PAYLOAD := 1; RTE_ETH_L2_PAYLOAD := 2; RTE_ETH_L3_PAYLOAD := 3; RTE_ETH_L4_PAYLOAD := 4;
  RTE_FDIR_MODE_PERFECT := 2; RTE_FDIR_MODE_PERFECT_MAC_VLAN := 3;
  RTE_FDIR_MODE_PERFECT_TUNNEL := 4; RTE_FDIR_MODE_SIGNATURE := 1;
  rte_be_to_cpu_16 x := x; rte_be_to_cpu_32 x := x; strerror _ := "Operation not supported"; eth_devs := [0; 1]
|}.

Definition example_info : rte_eth_fdir_info :=
  {| mode := 2; mask := zero_masks; guarant_spc := 512; best_spc := 7168; flow_types_mask := 36;
     max_flexpayload := 2; flex_payload_unit := 2; max_flex_payload_segment_num := 1; flex_payload_limit := 480;
     flex_bitmask_unit := 2; max_flex_bitmask_num := 2;
     flex_conf := {| nb_payloads := 1; nb_flexmasks := 1;
                     flex_set := [{| payload_type := 4; src_offset := [0; 2] |}];
                     flex_mask := [{| flow_type := 5; flex_bytes := [255; 0] |}] |} |}.

(** Port 0 is an i40e device, the others have no flow director. *)
#[local] Instance env : Env fcall fans := fun t c =>
  match c with
  | I40eGetFdirInfo 0 | I40eGetFdirStats 0 => {| rc := 0; info_of := example_info; stats_of := zero_stats |}
  | _ => {| rc := -95; info_of := zero_info; stats_of := zero_stats |}
  end.

Lemma fits_example : fits example_info.
Proof.
  repeat split; try (vm_compute; congruence).
  - by intros c ->%list_elem_of_singleton.
  - by intros c ->%list_elem_of_singleton.
Qed.

Lemma flow_types_printed_witness :
  print_fdir_flow_type 36 = [(" %s", [Str "ipv4"]); (" %s", [Str "ipv4-udp"]); ("\n", [])] /\
  (((" %s", [Str "ipv4-udp"]) : line) ∈ print_fdir_flow_type 36 <-> Z.testbit 36 5 = true).
Proof.
  split; [vm_compute; reflexivity|].
  apply (flow_types_printed 36); [vm_compute; congruence|vm_compute; congruence|vm_compute; split; congruence|vm_compute; reflexivity].
Defined.

Lemma fdir_get_infos_witness :
  (fdir_get_infos 0 []).1 = Some () /\ length (fdir_get_infos 0 []).2 = 32%nat /\ (fdir_get_infos 1 []).1 = Some () /\
  exists x, (fdir_get_infos 5 []).2 = [(Printf ("Invalid port %d\n", [Num 5]), x)].
Proof.
  split; [|split; [vm_compute; reflexivity|split]].
  - destruct (fdir_get_infos_spec 0 []) as (_ & Hr & _). apply Hr; [|vm_compute; reflexivity|vm_compute; reflexivity|apply fits_example]. by left.
  - destruct (fdir_get_infos_spec 1 []) as (_ & _ & Hu). apply Hu; [|vm_compute; reflexivity|vm_compute; reflexivity]. right. by left.
  - apply (fdir_get_infos_spec 5 []); [vm_compute; congruence|]. intros Hin.
    apply elem_of_cons in Hin as [?|[?|?%elem_of_nil]%elem_of_cons]; done.
Defined.
End FdirExample.
