(* ===== verification/Launch.v ===== *)
(** * Starting up (src/src/main.cpp, src/src/task.cpp)

    The process looks for its base directory, builds the search path of Lua
    modules from it, and starts one Lua state for the master and one for each
    task. *)
From S2P Require Import Prelude Effects.
From Stdlib Require Import Ascii.


(** ** The base directory (main.cpp)

    [stat_ok]: whether [stat] succeeds on a path; [exe]: what
    [readlink("/proc/self/exe")] writes, [None] when it fails; [buf]: the
    uninitialised buffer it writes to, [PATH_MAX] bytes. *)
Section base_dir.
Context (stat_ok : string -> bool) (exe : option string) (buf : string).

Definition is_base_dir (path : string) : bool :=
  stat_ok (path +:+ "/lua/libmoon.lua") && stat_ok (path +:+ "/lua/main.lua").

(** [std::string(buf)]: the bytes before the first NUL; [None]: there is none in
    the buffer. *)
Fixpoint c_string (s : string) : option string :=
  match s with
  | "" => None
  | String c s => if decide (c = Ascii.zero) then Some "" else String c <$> c_string s
  end.

Fixpoint string_drop (n : nat) (s : string) : string :=
  match n, s with
  | O, _ => s
  | S n, "" => ""
  | S n, String _ s => string_drop n s
  end.

(** [readlink] overwrites the first bytes and adds no NUL. *)
Definition after_readlink (target : string) : string := target +:+ string_drop (String.length target) buf.

(** [path.substr(0, path.find_last_of("/") + 1)]; [None] without a slash. *)
Fixpoint dir_of (path : string) : option string :=
  match path with
  | "" => None
  | String c s =>
      match dir_of s with
      | Some d => Some (String c d)
      | None => if decide (c = "/"%char) then Some "/" else None
      end
  end.

Definition absolute (dir : string) : bool :=
  match dir with String c _ => bool_decide (c = "/"%char) | "" => false end.

(** [None]: the process aborts. *)
Definition find_base_dir (check_dirs : list string) : option string :=
  target ← exe;
  exec_path ← c_string (after_readlink target);
  exec_path ← dir_of exec_path;
  List.find is_base_dir (map (fun dir => if absolute dir then dir else exec_path +:+ dir) check_dirs).

(** [cwd]: the answer of [getcwd]. *)
Definition setup_base_dir (cwd : option string) (check_dirs : list string) (check_cwd : bool) : option string :=
  if check_cwd then c ← cwd; find_base_dir (c :: check_dirs) else find_base_dir check_dirs.

Definition default_dirs : list string := ["."; ".."; "/usr/local/lib/libmoon"].
End base_dir.

(** [None]: the exception for a missing base directory. *)
Definition setup_extra_lua_path (base_dir : option string) (paths : list string) : option string :=
  base ← base_dir;
  Some (foldr (fun path rest => base +:+ "/" +:+ path +:+ ";" +:+ rest) "" paths).

(** ** The search path (task.cpp) *)
Definition build_lua_path (base : string) (extra_lua_path : option string) : string :=
  "'" +:+ default "" extra_lua_path
  +:+ base +:+ "/lua/?.lua;"
  +:+ base +:+ "/lua/?/init.lua;"
  +:+ base +:+ "/lua/lib/?.lua;"
  +:+ base +:+ "/lua/lib/turbo/?.lua;"
  +:+ base +:+ "/lua/lib/?/init.lua;"
  +:+ "'".

(** ** Lua states and tasks (task.cpp, main.cpp) *)
Inductive lcall :=
| NewState
| OpenLibs
| DoString (chunk : string)
| GetGlobal (name : string)
| PushString (s : string)
| PCall (nargs nresults : Z)
| CloseState
| NewArray (n : Z)
| DeleteArray
| RemoteLaunch (arg : string) (core : Z)
| Message (s : string)
| InstallSignalHandlers.
(** [value]: the result; a [lua_State*] is null when it is 0. *)
Record lans := { value : Z }.

(** How a call can end the process. *)
Inductive ending := Aborts | NullPointer.

Open Scope eff_scope.

Section lua.
Context `{Env lcall lans}.
Context (base : string) (extra_lua_path : option string).

Definition launch_lua : M lcall lans (Z + ending) :=
  L <- call NewState ;;
  if value L =? 0 then ret (inr NullPointer)
  else
    do OpenLibs ;;
    do (DoString ("package.path = " +:+ build_lua_path base extra_lua_path +:+ " .. package.path")) ;;
    a <- call (DoString "require 'main'") ;;
    if c_true (value a) then
      do (Message "Could not run main script: ") ;; ret (inr Aborts)
    else ret (inl (value L)).

Fixpoint push_all (l : list string) : M lcall lans () :=
  match l with
  | [] => ret ()
  | s :: l => do (PushString s) ;; push_all l
  end.

(** [arg] is the copy that [launch_lua_core] made; the [unique_ptr] deletes it
    when the function returns. *)
Definition lua_core_main (arg : string) : M lcall lans (Z + ending) :=
  r <- launch_lua ;;
  match r with
  | inr e => ret (inr e)
  | inl L =>
      if L =? 0 then do DeleteArray ;; ret (inl (-1))
      else
        do (GetGlobal "main") ;;
        push_all ["slave"; arg] ;;
        a <- call (PCall 2 0) ;;
        if c_true (value a) then
          do (Message "Lua error: ") ;; do DeleteArray ;; ret (inl (-1))
        else
          do CloseState ;; do DeleteArray ;; ret (inl 0)
  end.

(** The result of [rte_eal_remote_launch] is not looked at. *)
Definition launch_lua_core (core : Z) (arg : string) : M lcall lans () :=
  do (NewArray (Z.of_nat (String.length arg) + 1)) ;;
  do (RemoteLaunch arg core).

Definition main (argv : list string) : M lcall lans (Z + ending) :=
  let argc := Z.of_nat (length argv) in
  if argc <? 2 then
    do (Message "Usage: ") ;; ret (inl 1)
  else
    do InstallSignalHandlers ;;
    r <- launch_lua ;;
    match r with
    | inr e => ret (inr e)
    | inl L =>
        if L =? 0 then ret (inl (-1))
        else
          do (GetGlobal "main") ;;
          push_all ("master" :: argv) ;;
          a <- call (PCall (argc + 1) 0) ;;
          if c_true (value a) then do (Message "Lua error: ") ;; ret (inl (-1))
          else ret (inl 0)
    end.
End lua.

(** ** Strings *)
Lemma string_app_assoc (a b c : string) : (a +:+ b) +:+ c = a +:+ b +:+ c.
Proof. induction a as [|x a IH]; [done|]. exact (f_equal (String x) IH). Qed.
Lemma string_app_cons x (a b : string) : String x a +:+ b = String x (a +:+ b).
Proof. done. Qed.
Lemma string_app_empty (a : string) : "" +:+ a = a.
Proof. done. Qed.

Fixpoint contains (c : ascii) (s : string) : bool :=
  match s with "" => false | String x s => bool_decide (x = c) || contains c s end.

Lemma contains_app c a b : contains c (a +:+ b) = contains c a || contains c b.
Proof. induction a as [|x a IH]; [done|]. rewrite string_app_cons. simpl. by rewrite IH, orb_assoc. Qed.

Lemma c_string_app a rest : contains zero a = false -> c_string (a +:+ String zero rest) = Some a.
Proof.
  induction a as [|x a IH]; [done|]. simpl contains. intros [Hx Ha]%orb_false_iff. apply bool_decide_eq_false in Hx.
  rewrite string_app_cons. simpl. rewrite decide_False by done. by rewrite IH.
Qed.

Lemma dir_of_none f : contains "/" f = false -> dir_of f = None.
Proof.
  induction f as [|x f IH]; simpl; [done|]. intros [Hx Hf]%orb_false_iff. apply bool_decide_eq_false in Hx.
  by rewrite IH, decide_False.
Qed.

(** The directory is everything up to the last slash. *)
Lemma dir_of_app d f : contains "/" f = false -> dir_of (d +:+ String "/" f) = Some (d +:+ "/").
Proof.
  intros Hf. induction d as [|x d IH]; rewrite ?string_app_empty, ?string_app_cons; simpl.
  - rewrite ?string_app_empty. by rewrite dir_of_none.
  - by rewrite IH.
Qed.

(** If the buffer [readlink] writes to happens to hold a NUL behind the
    written bytes, the base directory is the first of the working directory, the
    directory of the executable, its parent and the installation directory that
    holds both marker files, and the process aborts if none of them does. *)
Theorem setup_base_dir_first stat_ok d f buf rest cwd :
  contains zero (d +:+ "/" +:+ f) = false -> contains "/" f = false ->
  string_drop (String.length (d +:+ "/" +:+ f)) buf = String zero rest ->
  absolute cwd = true ->
  setup_base_dir stat_ok (Some (d +:+ "/" +:+ f)) buf (Some cwd) default_dirs true =
  List.find (is_base_dir stat_ok) [cwd; d +:+ "/."; d +:+ "/.."; "/usr/local/lib/libmoon"].
Proof.
  intros Hz Hf Hb Hc. unfold setup_base_dir, find_base_dir, after_readlink. simpl mbind. rewrite Hb, c_string_app by done.
  simpl mbind. change ("/" +:+ f) with (String "/" f). rewrite dir_of_app by done. simpl mbind.
  unfold default_dirs. cbn [map]. rewrite Hc. change (absolute ".") with false. change (absolute "..") with false.
  change (absolute "/usr/local/lib/libmoon") with true. cbv iota. by rewrite !string_app_assoc.
Qed.

(** Otherwise the bytes that were in the buffer become part of the path: if there
    is a slash among them, the directory taken for the executable's is not. *)
Lemma exe_dir_wrong d f j1 j2 rest buf :
  contains zero (d +:+ "/" +:+ f +:+ j1 +:+ "/" +:+ j2) = false -> contains "/" j2 = false -> contains "/" f = false ->
  string_drop (String.length (d +:+ "/" +:+ f)) buf = j1 +:+ "/" +:+ j2 +:+ String zero rest ->
  exists path, c_string (after_readlink buf (d +:+ "/" +:+ f)) = Some path /\ dir_of path <> Some (d +:+ "/").
Proof.
  intros Hz Hj Hf Hb. exists ((d +:+ "/" +:+ f +:+ j1) +:+ "/" +:+ j2). split.
  - unfold after_readlink. rewrite Hb. rewrite <- c_string_app with (rest := rest); [by rewrite !string_app_assoc|].
    by rewrite !string_app_assoc.
  - change ("/" +:+ j2) with (String "/" j2). rewrite dir_of_app by done. rewrite !string_app_assoc. intros [= Hd]. revert Hd.
    assert (forall s, s <> "" -> d +:+ "/" +:+ s <> d +:+ "/") as Hne.
    { intros s Hs He%(inj (String.app d)). by injection He. }
    apply Hne. destruct f; [by destruct j1|done].
Qed.

(** ** The search path *)
Fixpoint split (c : ascii) (s : string) : list string :=
  match s with
  | "" => [""]
  | String x s =>
      match split c s with
      | w :: ws => if decide (x = c) then "" :: w :: ws else String x w :: ws
      | [] => []
      end
  end.

Lemma split_nonempty c s : split c s <> [].
Proof. induction s as [|x s IH]; simpl; [done|]. destruct (split c s); [done|]. by case_decide. Qed.

Lemma split_app c a s : contains c a = false -> split c (a +:+ String c s) = a :: split c s.
Proof.
  induction a as [|x a IH]; rewrite ?string_app_empty, ?string_app_cons; simpl.
  - intros _. pose proof (split_nonempty c s). destruct (split c s); [done|]. by rewrite decide_True.
  - intros [Hx Ha]%orb_false_iff. apply bool_decide_eq_false in Hx. rewrite IH by done. by rewrite decide_False.
Qed.

(** What [setup_extra_lua_path] writes for a list of directories. *)
Definition entries (base : string) (paths : list string) : string :=
  foldr (fun path rest => base +:+ "/" +:+ path +:+ ";" +:+ rest) "" paths.

Definition lua_dirs : list string := ["lua/?.lua"; "lua/?/init.lua"; "lua/lib/?.lua"; "lua/lib/turbo/?.lua"; "lua/lib/?/init.lua"].

Lemma entries_split base paths s :
  contains ";" base = false -> Forall (fun p => contains ";" p = false) paths ->
  split ";" (entries base paths +:+ s) = map (fun p => base +:+ "/" +:+ p) paths ++ split ";" s.
Proof.
  intros Hb. induction 1 as [|p l Hp _ IH]; [done|]. cbn [map app]. rewrite <- IH.
  change (entries base (p :: l)) with (base +:+ "/" +:+ p +:+ ";" +:+ entries base l).
  replace ((base +:+ "/" +:+ p +:+ ";" +:+ entries base l) +:+ s)
    with ((base +:+ "/" +:+ p) +:+ String ";" (entries base l +:+ s)) by (by rewrite !string_app_assoc).
  apply split_app. by rewrite contains_app, Hb.
Qed.

Lemma build_lua_path_entries base extra :
  build_lua_path base (Some extra) = "'" +:+ (extra +:+ entries base lua_dirs) +:+ "'".
Proof. unfold build_lua_path. simpl default. unfold entries, lua_dirs. cbn [foldr]. by rewrite !string_app_assoc. Qed.

(** The search path that [build_lua_path] quotes consists, entry by entry, of
    the directories given to [setup_extra_lua_path] below the base directory, in
    their order, and of the five templates of libmoon's own modules, if none of
    the names contains the separator. *)
Theorem lua_path_entries base paths extra :
  contains ";" base = false -> Forall (fun p => contains ";" p = false) paths ->
  setup_extra_lua_path (Some base) paths = Some extra ->
  exists p, build_lua_path base (Some extra) = "'" +:+ p +:+ "'" /\
    split ";" p = map (fun d => base +:+ "/" +:+ d) (paths ++ lua_dirs) ++ [""].
Proof.
  intros Hb Hp [= <-]. eexists. split; [apply build_lua_path_entries|].
  change (foldr _ "" paths) with (entries base paths). rewrite entries_split by done.
  replace (entries base lua_dirs) with (entries base lua_dirs +:+ "") by (unfold entries, lua_dirs; cbn [foldr]; by rewrite !string_app_assoc).
  rewrite entries_split by (by repeat constructor). by rewrite map_app, app_assoc.
Qed.

(** ** Lua states and the argument of a task *)
Inductive resource := LuaState | Argument.
Definition effect (r : resource) (c : lcall) (a : lans) : Z :=
  match r, c with
  | LuaState, NewState => c_bool (c_true (value a))
  | LuaState, CloseState => -1
  | Argument, NewArray _ => 1
  | Argument, DeleteArray => -1
  | _, _ => 0
  end.
#[local] Abbreviation held := (held_of effect).

Section facts.
Context `{Env lcall lans}.
Context (base : string) (extra_lua_path : option string).

Lemma launch_lua_result t :
  let '(r, t') := launch_lua base extra_lua_path t in
  match r with
  | inl L => L <> 0 /\ held LuaState t' = held LuaState t + 1
  | inr _ => True
  end /\ held Argument t' = held Argument t.
Proof.
  unfold launch_lua, bind, call, do, ret. set (a := answer t NewState).
  destruct (Z.eqb_spec (value a) 0) as [E|E]; [by rewrite held_cons|].
  assert (c_true (value a) = true) as Ea by (unfold c_true; by rewrite (proj2 (Z.eqb_neq _ _) E)).
  cbv beta iota zeta. destruct (c_true (value (answer _ (DoString "require 'main'")))); cbv beta iota zeta; rewrite !held_cons; simpl.
  - lia.
  - rewrite Ea. simpl. lia.
Qed.

Lemma push_all_pushes l : forall t, exists tl, (push_all l t).2 = tl ++ t /\ map fst tl = rev (map PushString l).
Proof.
  induction l as [|s l IH]; intros t; [by exists []|]. cbn [push_all]. rewrite bind_do.
  destruct (IH ((PushString s, answer t (PushString s)) :: t)) as (tl & E & Em). rewrite E.
  exists (tl ++ [(PushString s, answer t (PushString s))]). rewrite <- app_assoc. split; [done|].
  rewrite map_app, Em. done.
Qed.

Lemma push_all_held l r t : held r (push_all l t).2 = held r t.
Proof.
  revert t. induction l as [|s l IH]; intros t; [done|]. cbn [push_all]. rewrite bind_do, IH, held_cons.
  destruct r; simpl; lia.
Qed.

(** The function called and its arguments: the call follows the name and exactly
    the values pushed for it. *)
Definition called (f : string) (args : list string) (t : list (lcall * lans)) : Prop :=
  exists t1 t2, map fst t = t1 ++ PCall (Z.of_nat (length args)) 0 :: rev (map PushString args) ++ GetGlobal f :: t2.

(** [lua_core_main] deletes the copy of its argument exactly once whenever it
    returns, and calls the Lua function [main] with as many arguments as it has
    pushed, the role of the task and its argument.  It returns 0 only after the
    call has succeeded and the Lua state is closed; after an error in the task
    it returns -1 and the Lua state stays open. *)
Theorem lua_core_main_spec arg t :
  let '(r, t') := lua_core_main base extra_lua_path arg t in
  match r with
  | inl rc =>
      held Argument t' = held Argument t - 1 /\
      called "main" ["slave"; arg] t' /\
      ((rc = 0 /\ held LuaState t' = held LuaState t) \/ (rc = -1 /\ held LuaState t' = held LuaState t + 1))
  | inr _ => held Argument t' = held Argument t
  end.
Proof.
  unfold lua_core_main. unfold bind at 1. pose proof (launch_lua_result t) as Hl.
  destruct (launch_lua base extra_lua_path t) as [[L|e] t1]; [|by destruct Hl as (_ & Ha)].
  destruct Hl as ([HL Hs] & Ha). rewrite (proj2 (Z.eqb_neq _ _) HL). rewrite bind_do. unfold bind at 1.
  set (t2 := _ :: t1). destruct (push_all_pushes ["slave"; arg] t2) as (tl & Et & Em).
  pose proof (push_all_held ["slave"; arg] Argument t2) as Hpa. pose proof (push_all_held ["slave"; arg] LuaState t2) as Hps.
  destruct (push_all ["slave"; arg] t2) as [[] t3]. simpl in Et, Hpa, Hps. subst t2.
  rewrite held_cons in Hpa, Hps. simpl in Hpa, Hps.
  unfold bind, call, do, ret. destruct (c_true _); rewrite !held_cons; simpl; (split; [lia|]); (split; [|lia]).
  all: rewrite Et; unfold called; cbn [map fst]; rewrite map_app, Em.
  - exists [DeleteArray; Message "Lua error: "]. eexists. done.
  - exists [DeleteArray; CloseState]. eexists. done.
Qed.

(** [main] passes the role of the master and all its arguments to Lua and
    returns 0 exactly when the call has succeeded; with fewer than two arguments
    it prints the usage, returns 1 and starts nothing. *)
Theorem main_spec argv t :
  let '(r, t') := main base extra_lua_path argv t in
  ((length argv < 2)%nat -> r = inl 1 /\ exists a, t' = (Message "Usage: ", a) :: t) /\
  ((2 <= length argv)%nat -> forall rc, r = inl rc ->
     called "main" ("master" :: argv) t' /\
     ((rc = 0 /\ exists a t1, t' = (PCall (Z.of_nat (length argv) + 1) 0, a) :: t1 /\ value a = 0) \/ rc = -1)).
Proof.
  unfold main. destruct (Z.ltb_spec (Z.of_nat (length argv)) 2) as [Hn|Hn].
  { split; [|lia]. intros _. split; [done|]. by eexists. }
  rewrite bind_do. set (t0 := _ :: t). unfold bind at 1. pose proof (launch_lua_result t0) as Hl.
  destruct (launch_lua base extra_lua_path t0) as [[L|e] t1]; [|by split; [lia|]].
  destruct Hl as ([HL _] & _). rewrite (proj2 (Z.eqb_neq _ _) HL). rewrite bind_do. unfold bind at 1.
  set (t2 := _ :: t1). destruct (push_all_pushes ("master" :: argv) t2) as (tl & Et & Em).
  destruct (push_all ("master" :: argv) t2) as [[] t3]. simpl in Et. subst t2.
  unfold bind, call, do, ret. set (a := answer t3 _).
  assert (Z.of_nat (length argv) + 1 = Z.of_nat (length ("master" :: argv))) as Hc by (simpl; lia).
  destruct (c_true (value a)) eqn:Ev; (split; [lia|]); intros _ rc [= <-]; (split; [|]).
  - exists [Message "Lua error: "]. eexists. rewrite Et, Hc. cbn [map fst]. rewrite map_app, Em. done.
  - by right.
  - exists []. eexists. rewrite Et, Hc. cbn [map fst]. rewrite map_app, Em. done.
  - left. split; [done|]. exists a, t3. split; [done|]. unfold c_true in Ev. lia.
Qed.

(** A task that cannot be started: the copy of its argument is lost. *)
Lemma launch_lua_core_copies core arg t :
  held Argument (launch_lua_core core arg t).2 = held Argument t + 1.
Proof. unfold launch_lua_core, bind, do. cbn [snd]. rewrite !held_cons. simpl. lia. Qed.
End facts.

(** ** An installation *)
Definition installed (path : string) : bool :=
  bool_decide (path ∈ ["/opt/moon/build/../lua/libmoon.lua"; "/opt/moon/build/../lua/main.lua"]).
Definition zeroed (n : nat) : string := Nat.iter n (String zero) "".

Lemma setup_base_dir_witness :
  setup_base_dir installed (Some "/opt/moon/build/libmoon") (zeroed 64) (Some "/home/user") default_dirs true = Some "/opt/moon/build/..".
Proof.
  transitivity (List.find (is_base_dir installed) ["/home/user"; "/opt/moon/build/."; "/opt/moon/build/.."; "/usr/local/lib/libmoon"]);
    [|vm_compute; reflexivity].
  apply (setup_base_dir_first installed "/opt/moon/build" "libmoon" (zeroed 64) (zeroed 40) "/home/user"); vm_compute; reflexivity.
Defined.

Lemma lua_path_witness :
  exists p, build_lua_path "/opt/moon" (Some "/opt/moon/flow;") = "'" +:+ p +:+ "'" /\ split ";" p !! 1%nat = Some "/opt/moon/lua/?.lua".
Proof.
  destruct (lua_path_entries "/opt/moon" ["flow"] "/opt/moon/flow;") as (p & E & Es);
    [reflexivity|by repeat constructor|reflexivity|].
  exists p. split; [exact E|]. rewrite Es. reflexivity.
Defined.
