(* ===== verification/Nic.v ===== *)
(** * Per-driver helpers (src/src/i40e.c, src/src/timestamping.h,
    src/src/timestamping_i40e.c, src/src/timestamping_igb.c,
    src/src/timestamping_ixgbe.c) *)
From S2P Require Import Prelude.

(** ** Time counters *)
Record rte_timecounter := { cycle_last : Z; nsec : Z; nsec_mask : Z; nsec_frac : Z; cc_mask : Z; cc_shift : Z }.

Definition libmoon_reset_timecounter (tc : rte_timecounter) : rte_timecounter :=
  {| cycle_last := 0; nsec := 0; nsec_mask := nsec_mask tc; nsec_frac := 0; cc_mask := cc_mask tc; cc_shift := cc_shift tc |}.

(** The members of a driver's private data that are used; [others]: the rest. *)
Record adapter := { systime_tc : rte_timecounter; rx_tstamp_tc : rte_timecounter; tx_tstamp_tc : rte_timecounter; others : Z }.

Section timecounters.
(** The table of devices; whether a 16-bit port number is in use. *)
Context (ENODEV : Z) (is_valid_port : Z -> bool).

(** The result and the devices; [None]: the table is indexed out of bounds. *)
Definition reset_timecounters (port_id : Z) (devices : list adapter) : option (Z * list adapter) :=
  if negb (is_valid_port (u16 port_id)) then Some (- ENODEV, devices)
  else
    a ← devices !! Z.to_nat port_id;
    Some (0, <[Z.to_nat port_id :=
      {| systime_tc := libmoon_reset_timecounter (systime_tc a);
         rx_tstamp_tc := libmoon_reset_timecounter (rx_tstamp_tc a);
         tx_tstamp_tc := libmoon_reset_timecounter (tx_tstamp_tc a);
         others := others a |}]> devices).

Definition libmoon_i40e_reset_timecounters := reset_timecounters.
Definition libmoon_igb_reset_timecounters := reset_timecounters.
Definition libmoon_ixgbe_reset_timecounters := reset_timecounters.

Definition tc_cleared (old new : rte_timecounter) : Prop :=
  cycle_last new = 0 /\ nsec new = 0 /\ nsec_frac new = 0 /\
  nsec_mask new = nsec_mask old /\ cc_mask new = cc_mask old /\ cc_shift new = cc_shift old.

(** An unused port is refused and changes nothing; for a port in use exactly the
    running values of its three counters are cleared. *)
Theorem reset_timecounters_spec port_id devices :
  (is_valid_port (u16 port_id) = false -> reset_timecounters port_id devices = Some (- ENODEV, devices)) /\
  (is_valid_port (u16 port_id) = true -> forall a, devices !! Z.to_nat port_id = Some a ->
   exists devices' a', reset_timecounters port_id devices = Some (0, devices') /\
     devices' !! Z.to_nat port_id = Some a' /\ others a' = others a /\
     tc_cleared (systime_tc a) (systime_tc a') /\ tc_cleared (rx_tstamp_tc a) (rx_tstamp_tc a') /\
     tc_cleared (tx_tstamp_tc a) (tx_tstamp_tc a') /\
     forall j, j <> Z.to_nat port_id -> devices' !! j = devices !! j).
Proof.
  unfold reset_timecounters. split; intros Hv; rewrite Hv; simpl; [done|]. intros a Ea. rewrite Ea. simpl.
  eexists _, _. split; [done|]. split; [apply list_lookup_insert_eq; by eapply lookup_lt_Some|].
  do 4 (split; [done|]). intros j Hj. apply list_lookup_insert_ne. by apply not_eq_sym.
Qed.

(** Only the lower 16 bits of a port number are checked. *)
Lemma reset_timecounters_unchecked port_id devices :
  0 <= port_id -> is_valid_port port_id = true -> is_u16 port_id -> Z.of_nat (length devices) <= 65536 ->
  reset_timecounters (port_id + 65536) devices = None.
Proof.
  intros Hp Hv Hu Hl. unfold reset_timecounters. replace (u16 (port_id + 65536)) with port_id by word. rewrite Hv. simpl.
  rewrite lookup_ge_None_2; [done|]. unfold is_u16 in Hu. lia.
Qed.
End timecounters.

(** ** Link status of i40e devices (i40e.c) *)
Class I40eBase := {
  I40E_AQ_LINK_UP : Z;
  I40E_LINK_SPEED_100MB : Z; I40E_LINK_SPEED_1GB : Z; I40E_LINK_SPEED_10GB : Z;
  I40E_LINK_SPEED_20GB : Z; I40E_LINK_SPEED_25GB : Z; I40E_LINK_SPEED_40GB : Z;
  RTE_ETH_SPEED_NUM_NONE : Z; RTE_ETH_SPEED_NUM_UNKNOWN : Z;
  RTE_ETH_SPEED_NUM_100M : Z; RTE_ETH_SPEED_NUM_1G : Z; RTE_ETH_SPEED_NUM_10G : Z;
  RTE_ETH_SPEED_NUM_20G : Z; RTE_ETH_SPEED_NUM_25G : Z; RTE_ETH_SPEED_NUM_40G : Z;
  RTE_ETH_LINK_FULL_DUPLEX : Z; RTE_ETH_LINK_SPEED_FIXED : Z
}.

Record i40e_link_status := { link_info : Z; aq_link_speed : Z }.
(** [link_duplex], [link_autoneg] and [link_status] are bit fields of width 1. *)
Record rte_eth_link := { link_speed : Z; link_duplex : Z; link_autoneg : Z; link_status : Z }.

Definition bit1 (x : Z) : Z := Z.land x 1.

Section link.
Context `{I40eBase}.

(** [answer]: what [i40e_aq_get_link_info] writes, [None] when it fails and
    leaves the cleared structure alone; [link_speeds]: the configured speeds. *)
Definition i40e_get_link_status_workaround (answer : option i40e_link_status) (link_speeds : Z) : rte_eth_link :=
  let s := default {| link_info := 0; aq_link_speed := 0 |} answer in
  let status := bit1 (Z.land (link_info s) I40E_AQ_LINK_UP) in
  {| link_status := status;
     link_speed :=
       if aq_link_speed s =? I40E_LINK_SPEED_100MB then RTE_ETH_SPEED_NUM_100M
       else if aq_link_speed s =? I40E_LINK_SPEED_1GB then RTE_ETH_SPEED_NUM_1G
       else if aq_link_speed s =? I40E_LINK_SPEED_10GB then RTE_ETH_SPEED_NUM_10G
       else if aq_link_speed s =? I40E_LINK_SPEED_20GB then RTE_ETH_SPEED_NUM_20G
       else if aq_link_speed s =? I40E_LINK_SPEED_25GB then RTE_ETH_SPEED_NUM_25G
       else if aq_link_speed s =? I40E_LINK_SPEED_40GB then RTE_ETH_SPEED_NUM_40G
       else if c_true status then RTE_ETH_SPEED_NUM_UNKNOWN else RTE_ETH_SPEED_NUM_NONE;
     link_duplex := bit1 RTE_ETH_LINK_FULL_DUPLEX;
     link_autoneg := bit1 (c_bool (negb (c_true (Z.land link_speeds RTE_ETH_LINK_SPEED_FIXED)))) |}.

Definition known_speeds : list (Z * Z) :=
  [(I40E_LINK_SPEED_100MB, RTE_ETH_SPEED_NUM_100M); (I40E_LINK_SPEED_1GB, RTE_ETH_SPEED_NUM_1G);
   (I40E_LINK_SPEED_10GB, RTE_ETH_SPEED_NUM_10G); (I40E_LINK_SPEED_20GB, RTE_ETH_SPEED_NUM_20G);
   (I40E_LINK_SPEED_25GB, RTE_ETH_SPEED_NUM_25G); (I40E_LINK_SPEED_40GB, RTE_ETH_SPEED_NUM_40G)].

(** Provided the hardware's codes are pairwise different, not 0, and the up flag
    is bit 0: a known speed is translated, an unknown one is reported as unknown
    when the link is up and as none when it is down, and a device that does not
    answer has no link. *)
Theorem i40e_link_status_spec ans speeds :
  NoDup known_speeds.*1 -> 0 ∉ known_speeds.*1 -> I40E_AQ_LINK_UP = 1 ->
  let l := i40e_get_link_status_workaround ans speeds in
  link_status l = match ans with Some s => link_info s mod 2 | None => 0 end /\
  match ans with
  | Some s =>
      (forall v, (aq_link_speed s, v) ∈ known_speeds -> link_speed l = v) /\
      (aq_link_speed s ∉ known_speeds.*1 ->
       link_speed l = if Z.odd (link_info s) then RTE_ETH_SPEED_NUM_UNKNOWN else RTE_ETH_SPEED_NUM_NONE)
  | None => link_speed l = RTE_ETH_SPEED_NUM_NONE
  end.
Proof.
  intros Hd Hz Hu l. subst l. unfold i40e_get_link_status_workaround, bit1. rewrite Hu.
  assert (forall x, Z.land (Z.land x 1) 1 = x mod 2) as Hb.
  { intros x. rewrite <- Z.land_assoc. change (Z.land 1 1) with (Z.ones 1). by rewrite Z.land_ones. }
  unfold known_speeds in *. csimpl in *. split.
  { destruct ans; simpl; by rewrite Hb. }
  rewrite !NoDup_cons in Hd. destruct ans as [s|]; cbn -[Z.eqb Z.modulo Z.land c_true]; rewrite ?Hb; repeat rewrite not_elem_of_cons in *.
  - split.
    + intros v Hv. repeat rewrite not_elem_of_cons in Hd. destruct_and?. clear Hb.
      repeat (apply elem_of_cons in Hv as [[= E ->]|Hv]; [rewrite E; repeat (case_Z; try congruence); congruence|]).
      by apply elem_of_nil in Hv.
    + intros Hn. rewrite !(proj2 (Z.eqb_neq _ _)) by tauto. rewrite Zmod_odd. by destruct (Z.odd _).
  - rewrite !(proj2 (Z.eqb_neq _ _)) by tauto. done.
Qed.
End link.
