(* ===== verification/Mpmc.v ===== *)
(** * The multi-producer multi-consumer queue (src/lib/concurrentqueue/concurrentqueue.h)

    The queue behind libmoon's slow pipes (the [pipe_mpmc_] functions of
    src/src/pipe.cpp).  Each enqueuing thread has a sub-queue of its own, the
    implicit producer; any number of threads dequeue from it.  This file models
    one sub-queue: the four counters the threads share, with one step for each
    access to one of them, and the construction and destruction of elements.
    The elements are a map from their indices; Storage.v shows that the blocks
    and the block index implement it.

    The steps see the latest memory; the orderings of the atomic accesses, which
    entitle the threads to that view, are not modelled. *)
From S2P Require Import Prelude.

(** [index_t] is [std::size_t]. *)
Definition BLOCK_SIZE : Z := 32.

Definition circular_less_than (a b : Z) : bool := 9223372036854775808 <? u64 (a - b).

(** Where the producer stands: outside [enqueue], in front of its test of the
    head at the beginning of a block, in front of the construction of the
    element, in front of the store to the tail. *)
Inductive ppc :=
| PIdle
| PHead (element : ptr) (currentTailIndex : Z)
| PConstruct (element : ptr) (currentTailIndex : Z)
| PTail (element : ptr) (newTailIndex : Z).

(** Where a consumer stands in [dequeue]: the access that comes next. *)
Inductive cpc :=
| CIdle
| CTail
| COvercommit (tail : Z)
| COptimistic (tail overcommit : Z)
| CFetchOptimistic (overcommit : Z)
| CTail2 (overcommit myDequeueCount : Z)
| CFetchHead
| CFetchOvercommit
| CElement (index : Z).

Record state := {
  tailIndex : Z; headIndex : Z; dequeueOptimisticCount : Z; dequeueOvercommit : Z;
  elements : gmap Z ptr;
  producer : ppc;
  consumers : list cpc
}.

Definition initial (consumers : nat) : state :=
  {| tailIndex := 0; headIndex := 0; dequeueOptimisticCount := 0; dequeueOvercommit := 0;
     elements := ∅; producer := PIdle; consumers := replicate consumers CIdle |}.

(** What an operation returns; for a dequeued element also its index.
    [Undefined]: an element that does not exist is read, or an assertion fails. *)
Inductive result :=
| Enqueued (element : ptr)
| Refused
| Dequeued (consumer : nat) (index : Z) (element : ptr)
| Empty (consumer : nat)
| Undefined.

(** The calls, and the steps of the threads.  [storage]: whether the allocation
    of a new block succeeds. *)
Inductive event :=
| Enqueue (element : ptr)
| PStep (storage : bool)
| Dequeue (consumer : nat)
| CStep (consumer : nat).

Definition with_producer (p : ppc) (s : state) : state :=
  {| tailIndex := tailIndex s; headIndex := headIndex s; dequeueOptimisticCount := dequeueOptimisticCount s;
     dequeueOvercommit := dequeueOvercommit s; elements := elements s; producer := p; consumers := consumers s |}.
Definition with_consumer (i : nat) (c : cpc) (s : state) : state :=
  {| tailIndex := tailIndex s; headIndex := headIndex s; dequeueOptimisticCount := dequeueOptimisticCount s;
     dequeueOvercommit := dequeueOvercommit s; elements := elements s; producer := producer s;
     consumers := <[i := c]> (consumers s) |}.
Definition with_counters (t h o v : Z) (m : gmap Z ptr) (s : state) : state :=
  {| tailIndex := t; headIndex := h; dequeueOptimisticCount := o; dequeueOvercommit := v;
     elements := m; producer := producer s; consumers := consumers s |}.

(** One step of [ImplicitProducer::enqueue]. *)
Definition pstep (storage : bool) (s : state) : option (state * option result) :=
  match producer s with
  | PIdle => None
  | PHead x t =>
      if circular_less_than t (headIndex s) then Some (with_producer PIdle s, Some Undefined)
      else if negb (circular_less_than (headIndex s) (u64 (t + BLOCK_SIZE))) || negb storage
      then Some (with_producer PIdle s, Some Refused)
      else Some (with_producer (PConstruct x t) s, None)
  | PConstruct x t =>
      Some (with_producer (PTail x (u64 (1 + t)))
              (with_counters (tailIndex s) (headIndex s) (dequeueOptimisticCount s) (dequeueOvercommit s)
                 (<[t := x]> (elements s)) s), None)
  | PTail x t =>
      Some (with_producer PIdle
              (with_counters t (headIndex s) (dequeueOptimisticCount s) (dequeueOvercommit s) (elements s) s),
            Some (Enqueued x))
  end.

(** One step of [ImplicitProducer::dequeue] by consumer [i]. *)
Definition cstep (i : nat) (s : state) : option (state * option result) :=
  c ← consumers s !! i;
  match c with
  | CIdle => None
  | CTail => Some (with_consumer i (COvercommit (tailIndex s)) s, None)
  | COvercommit tail => Some (with_consumer i (COptimistic tail (dequeueOvercommit s)) s, None)
  | COptimistic tail overcommit =>
      if circular_less_than (u64 (dequeueOptimisticCount s - overcommit)) tail
      then Some (with_consumer i (CFetchOptimistic overcommit) s, None)
      else Some (with_consumer i CIdle s, Some (Empty i))
  | CFetchOptimistic overcommit =>
      let s' := with_counters (tailIndex s) (headIndex s) (u64 (dequeueOptimisticCount s + 1)) (dequeueOvercommit s)
                  (elements s) s in
      if overcommit <=? dequeueOptimisticCount s
      then Some (with_consumer i (CTail2 overcommit (dequeueOptimisticCount s)) s', None)
      else Some (with_consumer i CIdle s', Some Undefined)
  | CTail2 overcommit myDequeueCount =>
      if circular_less_than (u64 (myDequeueCount - overcommit)) (tailIndex s)
      then Some (with_consumer i CFetchHead s, None)
      else Some (with_consumer i CFetchOvercommit s, None)
  | CFetchHead =>
      Some (with_consumer i (CElement (headIndex s))
              (with_counters (tailIndex s) (u64 (headIndex s + 1)) (dequeueOptimisticCount s) (dequeueOvercommit s)
                 (elements s) s), None)
  | CFetchOvercommit =>
      Some (with_consumer i CIdle
              (with_counters (tailIndex s) (headIndex s) (dequeueOptimisticCount s) (u64 (dequeueOvercommit s + 1))
                 (elements s) s), Some (Empty i))
  | CElement index =>
      match elements s !! index with
      | Some x =>
          Some (with_consumer i CIdle
                  (with_counters (tailIndex s) (headIndex s) (dequeueOptimisticCount s) (dequeueOvercommit s)
                     (delete index (elements s)) s), Some (Dequeued i index x))
      | None => Some (with_consumer i CIdle s, Some Undefined)
      end
  end.

(** The producer reads its own tail when it is called. *)
Definition next (e : event) (s : state) : option (state * option result) :=
  match e with
  | Enqueue x =>
      match producer s with
      | PIdle =>
          let t := tailIndex s in
          Some (with_producer (if Z.land t (BLOCK_SIZE - 1) =? 0 then PHead x t else PConstruct x t) s, None)
      | _ => None
      end
  | PStep storage => pstep storage s
  | Dequeue i =>
      match consumers s !! i with
      | Some CIdle => Some (with_consumer i CTail s, None)
      | _ => None
      end
  | CStep i => cstep i s
  end.

Fixpoint run (es : list event) (s : state) : option (state * list result) :=
  match es with
  | [] => Some (s, [])
  | e :: es =>
      '(s1, r) ← next e s;
      '(s2, rs) ← run es s1;
      Some (s2, option_list r ++ rs)
  end.

(** [ProducerBase::size_approx] *)
Definition size_approx (s : state) : Z :=
  if circular_less_than (headIndex s) (tailIndex s) then u64 (tailIndex s - headIndex s) else 0.

(** ** Histories *)
Definition enqueued (rs : list result) : list ptr := omap (fun r => match r with Enqueued x => Some x | _ => None end) rs.
Definition dequeued (rs : list result) : list (Z * ptr) :=
  omap (fun r => match r with Dequeued _ i x => Some (i, x) | _ => None end) rs.

(** ** The invariant

    Every [fetch_add] on the optimistic count hands out a ticket.  A ticket is
    pending until its consumer has compared it with the tail, and granted when
    the comparison succeeds.  [rank x l] is the number of tickets of [l] before
    [x]. *)
Definition rank (x : Z) (l : list Z) : Z := Z.of_nat (length (filter (fun y => y < x) l)).

Definition is_fetch_head (c : cpc) : bool := match c with CFetchHead => true | _ => false end.
Definition is_fetch_overcommit (c : cpc) : bool := match c with CFetchOvercommit => true | _ => false end.
Definition count (f : cpc -> bool) (cs : list cpc) : Z := zsum (map (fun c => c_bool (f c)) cs).
(** Pending tickets, with the overcommit their consumers have read. *)
Definition pending (cs : list cpc) : list (Z * Z) :=
  omap (fun c => match c with CTail2 v my => Some (my, v) | _ => None end) cs.
Definition taking (cs : list cpc) : list Z := omap (fun c => match c with CElement i => Some i | _ => None end) cs.
Definition overcommits (cs : list cpc) : list Z :=
  omap (fun c => match c with COptimistic _ v | CFetchOptimistic v => Some v | _ => None end) cs.
Definition tickets (g : list Z) (cs : list cpc) : list Z := g ++ (pending cs).*1.

Definition constructed (p : ppc) (t i : Z) : option ptr :=
  match p with PTail x _ => if i =? t then Some x else None | _ => None end.

(** [E]: the elements enqueued so far; [g]: the granted tickets; [k]: a bound on
    the number of steps. *)
Record Inv (t h o v : Z) (m : gmap Z ptr) (p : ppc) (cs : list cpc) (E : list ptr) (g : list Z) (k : Z) : Prop := {
  inv_bounds : t <= k /\ o <= k /\ 0 <= h /\ 0 <= v;
  inv_tail : t = Z.of_nat (length E);
  inv_granted : Z.of_nat (length g) = h + count is_fetch_head cs;
  inv_optimistic : o = Z.of_nat (length g) + v + count is_fetch_overcommit cs + Z.of_nat (length (pending cs));
  inv_nodup : NoDup (tickets g cs);
  inv_tickets : forall x, x ∈ tickets g cs -> 0 <= x < o;
  inv_pending : forall my w, (my, w) ∈ pending cs -> 0 <= w <= v /\ rank my (tickets g cs) <= my - w;
  inv_rank : forall x, x ∈ g -> rank x (tickets g cs) < t;
  inv_overcommits : forall w, w ∈ overcommits cs -> 0 <= w <= v;
  inv_taking : NoDup (taking cs) /\ forall i, i ∈ taking cs -> 0 <= i < h;
  inv_elements : forall i, m !! i = if decide (0 <= i < t /\ (h <= i \/ i ∈ taking cs)) then E !! Z.to_nat i
                                    else constructed p t i;
  inv_producer : match p with PIdle => True | PHead _ t' | PConstruct _ t' => t' = t | PTail _ t' => t' = t + 1 end
}.

(** *** Tickets *)
Lemma ticket_rank_nonneg x l : 0 <= rank x l.
Proof. unfold rank. lia. Qed.

Lemma rank_perm x l l' : l ≡ₚ l' -> rank x l = rank x l'.
Proof. intros Hp. unfold rank. by rewrite Hp. Qed.

Lemma rank_cons x y l : rank x (y :: l) = c_bool (bool_decide (y < x)) + rank x l.
Proof.
  unfold rank. rewrite filter_cons. destruct (decide (y < x)) as [Hd|Hd].
  - rewrite bool_decide_eq_true_2 by done. simpl. lia.
  - rewrite bool_decide_eq_false_2 by done. simpl. lia.
Qed.

Lemma rank_app x l l' : rank x (l ++ l') = rank x l + rank x l'.
Proof. unfold rank. rewrite filter_app, length_app. lia. Qed.

Lemma rank_le_length x l : rank x l <= Z.of_nat (length l).
Proof. unfold rank. pose proof (length_filter (fun y => y < x) l). lia. Qed.

(** A ticket after all others has all of them before it. *)
Lemma rank_all x l : (forall y, y ∈ l -> y < x) -> rank x l = Z.of_nat (length l).
Proof.
  intros Hl. induction l as [|y l IH]; [done|]. rewrite rank_cons, IH by (intros; apply Hl; by right).
  rewrite bool_decide_eq_true_2 by (apply Hl; by left). simpl. lia.
Qed.

Lemma max_ticket (l : list Z) : l <> [] -> exists x, x ∈ l /\ forall y, y ∈ l -> y <= x.
Proof.
  induction l as [|z l IH]; [done|]. intros _. destruct (decide (l = [])) as [->|Hl].
  - exists z. split; [by left|]. intros y ->%list_elem_of_singleton. done.
  - destruct (IH Hl) as (x & Hx & Hm). destruct (decide (z <= x)) as [Hz|Hz].
    + exists x. split; [by right|]. intros y [->|Hy]%elem_of_cons; [done|by apply Hm].
    + exists z. split; [by left|]. intros y [->|Hy]%elem_of_cons; [done|]. specialize (Hm y Hy). lia.
Qed.

(** The last of a list of different tickets has all the others before it. *)
Lemma last_ticket l : l <> [] -> NoDup l -> exists x, x ∈ l /\ Z.of_nat (length l) = 1 + rank x l.
Proof.
  intros Hl Hd. destruct (max_ticket l Hl) as (x & Hx & Hm). exists x. split; [done|].
  apply elem_of_Permutation in Hx as [l' Hp]. rewrite (rank_perm _ _ _ Hp), rank_cons.
  rewrite bool_decide_eq_false_2 by lia. rewrite rank_all.
  - rewrite Hp. simpl. lia.
  - intros y Hy. rewrite Hp in Hd. inversion Hd as [|? ? Hn _]; subst.
    assert (y <> x) by (intros ->; done). assert (y <= x); [|lia]. apply Hm. rewrite Hp. by right.
Qed.

(** No more tickets are granted than elements are enqueued. *)
Lemma granted_le_tail t h o v m p cs E g k : Inv t h o v m p cs E g k -> Z.of_nat (length g) <= t.
Proof.
  intros I. destruct (decide (g = [])) as [->|Hg]; [rewrite (inv_tail _ _ _ _ _ _ _ _ _ _ I); simpl; lia|].
  destruct (last_ticket g Hg) as (x & Hx & Hl).
  { pose proof (inv_nodup _ _ _ _ _ _ _ _ _ _ I) as Hd. apply NoDup_app in Hd. tauto. }
  pose proof (inv_rank _ _ _ _ _ _ _ _ _ _ I x Hx) as Hr. unfold tickets in Hr. rewrite rank_app in Hr.
  pose proof (ticket_rank_nonneg x (pending cs).*1). lia.
Qed.

Lemma count_nonneg f cs : 0 <= count f cs.
Proof.
  unfold count. apply zsum_nonneg, Forall_forall. intros x Hx. apply list_elem_of_In, in_map_iff in Hx as (c & <- & _).
  destruct (f c); simpl; lia.
Qed.

Lemma Inv_perm t h o v m p cs cs' E g k : cs ≡ₚ cs' -> Inv t h o v m p cs E g k -> Inv t h o v m p cs' E g k.
Proof.
  intros Hp [I1 I2 I3 I4 I5 I6 I7 I8 I9 I10 I11 I12].
  assert (forall f, count f cs' = count f cs) as Hc.
  { intros f. unfold count. apply zsum_perm. by rewrite Hp. }
  assert (pending cs' ≡ₚ pending cs) as Hpe by (unfold pending; by rewrite Hp).
  assert (tickets g cs' ≡ₚ tickets g cs) as Ht by (unfold tickets; by rewrite Hpe).
  assert (taking cs' ≡ₚ taking cs) as Hta by (unfold taking; by rewrite Hp).
  assert (overcommits cs' ≡ₚ overcommits cs) as Ho by (unfold overcommits; by rewrite Hp).
  constructor; rewrite ?Hc; try done.
  - by rewrite Hpe.
  - by rewrite Ht.
  - intros x. rewrite Ht. apply I6.
  - intros my w. rewrite Hpe, (rank_perm _ _ _ Ht). apply I7.
  - intros x Hx. rewrite (rank_perm _ _ _ Ht). by apply I8.
  - intros w. rewrite Ho. apply I9.
  - split; [by rewrite Hta; apply I10|]. intros i. rewrite Hta. apply I10.
  - intros i. rewrite I11. apply decide_ext. by rewrite Hta.
Qed.

Lemma delete_insert_same {A} (l : list A) i x : delete i (<[i:=x]> l) = delete i l.
Proof. revert i. induction l as [|y l IH]; intros [|i]; simpl; [done|done|done|]. f_equal. apply IH. Qed.

(** One consumer in front of the others. *)
Lemma Inv_focus t h o v m p cs i c E g k :
  cs !! i = Some c -> Inv t h o v m p cs E g k -> Inv t h o v m p (c :: delete i cs) E g k.
Proof. intros Ec. apply Inv_perm. by apply delete_Permutation. Qed.

Lemma Inv_unfocus t h o v m p cs i c c' E g k :
  cs !! i = Some c -> Inv t h o v m p (c' :: delete i cs) E g k -> Inv t h o v m p (<[i:=c']> cs) E g k.
Proof.
  intros Ec. apply Inv_perm. symmetry. rewrite (delete_Permutation (<[i:=c']> cs) i c').
  - by rewrite delete_insert_same.
  - apply list_lookup_insert_eq. by eapply lookup_lt_Some.
Qed.

(** *** The transitions of a consumer *)
Lemma pending_cons c cs : pending (c :: cs) = pending [c] ++ pending cs.
Proof. by destruct c. Qed.
Lemma taking_cons c cs : taking (c :: cs) = taking [c] ++ taking cs.
Proof. by destruct c. Qed.
Lemma overcommits_cons c cs : overcommits (c :: cs) = overcommits [c] ++ overcommits cs.
Proof. by destruct c. Qed.
Lemma count_cons f c cs : count f (c :: cs) = c_bool (f c) + count f cs.
Proof. done. Qed.

(** A step that takes part in none of the accounts. *)
Lemma Inv_move t h o v m p c c' r E g k :
  pending [c] = pending [c'] -> taking [c] = taking [c'] ->
  is_fetch_head c = is_fetch_head c' -> is_fetch_overcommit c = is_fetch_overcommit c' ->
  (forall w, w ∈ overcommits [c'] -> 0 <= w <= v) ->
  Inv t h o v m p (c :: r) E g k -> Inv t h o v m p (c' :: r) E g (k + 1).
Proof.
  intros Hp Ht Hh Ho Hw [I1 I2 I3 I4 I5 I6 I7 I8 I9 I10 I11 I12]. unfold tickets in *.
  rewrite (pending_cons c r), Hp in I4, I5, I6, I7, I8. rewrite (taking_cons c r), Ht in I10. rewrite count_cons in I3, I4.
  constructor; unfold tickets; rewrite ?(pending_cons c' r), ?(taking_cons c' r), ?count_cons, <- ?Hh, <- ?Ho; try done; [lia| |].
  - intros w. rewrite overcommits_cons, elem_of_app. intros [Hin|Hin]; [by apply Hw|].
    apply I9. rewrite overcommits_cons, elem_of_app. by right.
  - intros i. rewrite I11. apply decide_ext. by rewrite taking_cons, Ht.
Qed.

Lemma Inv_fetch_optimistic t h o v m p w r E g k :
  Inv t h o v m p (CFetchOptimistic w :: r) E g k -> Inv t h (o + 1) v m p (CTail2 w o :: r) E g (k + 1).
Proof.
  intros [I1 I2 I3 I4 I5 I6 I7 I8 I9 I10 I11 I12].
  assert (tickets g (CTail2 w o :: r) ≡ₚ o :: tickets g r) as Hp.
  { unfold tickets. csimpl. by rewrite Permutation_middle. }
  change (tickets g (CFetchOptimistic w :: r)) with (tickets g r) in *.
  change (pending (CFetchOptimistic w :: r)) with (pending r) in *.
  change (taking (CFetchOptimistic w :: r)) with (taking r) in *.
  assert (0 <= w <= v) as Hw by (apply I9; by left).
  assert (forall x, x < o -> rank x (tickets g (CTail2 w o :: r)) = rank x (tickets g r)) as Hr.
  { intros x Hx. rewrite (rank_perm _ _ _ Hp), rank_cons, bool_decide_eq_false_2 by lia. done. }
  constructor; try done; try lia.
  - rewrite !count_cons in *. csimpl. simpl in *. lia.
  - rewrite Hp. constructor; [|done]. intros Hin. apply I6 in Hin. lia.
  - intros x. rewrite Hp. intros [->|Hx]%elem_of_cons; [|apply I6 in Hx; lia].
    pose proof (count_nonneg is_fetch_overcommit (CFetchOptimistic w :: r)). lia.
  - intros my w'. csimpl. intros [[= -> ->]|Hin]%elem_of_cons.
    + split; [done|]. rewrite (rank_perm _ _ _ Hp), rank_cons, bool_decide_eq_false_2 by lia.
      rewrite rank_all by (intros y Hy; apply I6 in Hy; lia). unfold tickets. rewrite length_app, length_map.
      pose proof (count_nonneg is_fetch_overcommit (CFetchOptimistic w :: r)). simpl. lia.
    + assert (my < o) as Hmy.
      { apply I6. unfold tickets. rewrite elem_of_app. right. apply list_elem_of_fmap. by exists (my, w'). }
      rewrite Hr by done. by apply I7.
  - intros x Hx. rewrite Hr; [by apply I8|]. apply I6. unfold tickets. rewrite elem_of_app. by left.
  - intros w' Hin. apply I9. by right.
Qed.

Lemma Inv_granted t h o v m p w my r E g k :
  my - w < t -> Inv t h o v m p (CTail2 w my :: r) E g k -> Inv t h o v m p (CFetchHead :: r) E (my :: g) (k + 1).
Proof.
  intros Hlt [I1 I2 I3 I4 I5 I6 I7 I8 I9 I10 I11 I12].
  assert (tickets (my :: g) (CFetchHead :: r) ≡ₚ tickets g (CTail2 w my :: r)) as Hp.
  { unfold tickets. csimpl. by rewrite <- Permutation_middle. }
  rewrite !count_cons in *. csimpl in *. simpl c_bool in *.
  constructor; rewrite ?count_cons; simpl c_bool; try done; csimpl; try lia.
  - by rewrite Hp.
  - intros x. rewrite Hp. apply I6.
  - intros my' w' Hin. rewrite (rank_perm _ _ _ Hp). apply I7. by right.
  - intros x. rewrite (rank_perm _ _ _ Hp). intros [->|Hx]%elem_of_cons; [|by apply I8].
    destruct (I7 my w) as [_ Hr]; [by left|]. lia.
Qed.

Lemma Inv_refused t h o v m p w my r E g k :
  Inv t h o v m p (CTail2 w my :: r) E g k -> Inv t h o v m p (CFetchOvercommit :: r) E g (k + 1).
Proof.
  intros [I1 I2 I3 I4 I5 I6 I7 I8 I9 I10 I11 I12].
  assert (tickets g (CTail2 w my :: r) ≡ₚ my :: tickets g (CFetchOvercommit :: r)) as Hp.
  { unfold tickets. csimpl. by rewrite Permutation_middle. }
  assert (forall x, rank x (tickets g (CFetchOvercommit :: r)) <= rank x (tickets g (CTail2 w my :: r))) as Hr.
  { intros x. rewrite (rank_perm _ _ _ Hp), rank_cons. by destruct (bool_decide _); simpl; lia. }
  rewrite Hp in I5. rewrite !count_cons in *. csimpl in *. simpl c_bool in *.
  constructor; rewrite ?count_cons; simpl c_bool; try done; csimpl; try lia.
  - by inversion I5.
  - intros x Hx. apply I6. rewrite Hp. by right.
  - intros my' w' Hin. destruct (I7 my' w') as [Hw Hm]; [by right|]. split; [done|]. specialize (Hr my'). lia.
  - intros x Hx. specialize (I8 x Hx). specialize (Hr x). lia.
Qed.

Lemma Inv_fetch_head t h o v m p r E g k :
  Inv t h o v m p (CFetchHead :: r) E g k -> Inv t (h + 1) o v m p (CElement h :: r) E g (k + 1).
Proof.
  intros [I1 I2 I3 I4 I5 I6 I7 I8 I9 [Hd Hi] I11 I12]. rewrite !count_cons in *. csimpl in *. simpl c_bool in *.
  constructor; rewrite ?count_cons; simpl c_bool; try done; csimpl; try lia.
  - split.
    + constructor; [|done]. intros Hin%Hi. lia.
    + intros i [->|Hin]%elem_of_cons; [lia|]. apply Hi in Hin. lia.
  - intros i. rewrite I11. apply decide_ext. rewrite elem_of_cons. split; intros [Ht Hc]; (split; [done|]).
    + destruct (decide (i = h)); [by right; left|]. destruct Hc; [left; lia|by right; right].
    + destruct Hc as [?|[?|?]]; [left; lia|left; lia|by right].
Qed.

Lemma Inv_fetch_overcommit t h o v m p r E g k :
  Inv t h o v m p (CFetchOvercommit :: r) E g k -> Inv t h o (v + 1) m p (CIdle :: r) E g (k + 1).
Proof.
  intros [I1 I2 I3 I4 I5 I6 I7 I8 I9 I10 I11 I12]. rewrite !count_cons in *. csimpl in *. simpl c_bool in *.
  constructor; rewrite ?count_cons; simpl c_bool; try done; csimpl; try lia.
  - intros my w Hin. destruct (I7 my w Hin). split; [lia|done].
  - intros w Hin. apply I9 in Hin. lia.
Qed.

(** The element a consumer comes for is there. *)
Lemma Inv_element_there t h o v m p i r E g k :
  Inv t h o v m p (CElement i :: r) E g k -> 0 <= i < h /\ h <= t /\ m !! i = E !! Z.to_nat i /\ is_Some (m !! i).
Proof.
  intros I. pose proof (granted_le_tail _ _ _ _ _ _ _ _ _ _ I) as Hg. destruct I as [I1 I2 I3 I4 I5 I6 I7 I8 I9 [Hd Hi] I11 I12].
  rewrite !count_cons in *. csimpl in *. simpl c_bool in *. pose proof (count_nonneg is_fetch_head r).
  assert (0 <= i < h) as Hr by (apply Hi; by left). split; [done|]. split; [lia|].
  assert (m !! i = E !! Z.to_nat i) as Em.
  { rewrite I11, decide_True; [done|]. split; [lia|]. right. by left. }
  split; [done|]. rewrite Em. apply lookup_lt_is_Some_2. lia.
Qed.

Lemma Inv_element t h o v m p i r E g k :
  Inv t h o v m p (CElement i :: r) E g k -> Inv t h o v (delete i m) p (CIdle :: r) E g (k + 1).
Proof.
  intros I. destruct (Inv_element_there _ _ _ _ _ _ _ _ _ _ _ I) as (Hi & Ht & _).
  destruct I as [I1 I2 I3 I4 I5 I6 I7 I8 I9 [Hd Htk] I11 I12]. rewrite !count_cons in *. csimpl in *. simpl c_bool in *.
  inversion Hd as [|? ? Hn Hd']; subst.
  constructor; rewrite ?count_cons; simpl c_bool; try done; csimpl; try lia.
  - split; [done|]. intros j Hj. apply Htk. by right.
  - intros j. destruct (decide (i = j)) as [<-|Hne].
    + rewrite lookup_delete_eq, decide_False.
      * unfold constructed. destruct p; try done. by rewrite (proj2 (Z.eqb_neq _ _)) by lia.
      * intros [_ [?|?]]; [lia|done].
    + rewrite lookup_delete_ne by done. rewrite I11. apply decide_ext. rewrite elem_of_cons.
      split; intros [? [?|?]]; (split; [done|]); [by left|right; naive_solver|by left|by right; right].
Qed.

(** *** The transitions of the producer *)
Lemma constructed_small p t i : i < t -> constructed p t i = None.
Proof. intros Hi. destruct p; try done. simpl. by rewrite (proj2 (Z.eqb_neq _ _)) by lia. Qed.

Lemma Inv_producer t h o v m p p' cs E g k :
  constructed p t t = None -> constructed p' t t = None ->
  match p' with PIdle => True | PHead _ t' | PConstruct _ t' => t' = t | PTail _ t' => t' = t + 1 end ->
  Inv t h o v m p cs E g k -> Inv t h o v m p' cs E g (k + 1).
Proof.
  intros Hc Hc' Hp' [I1 I2 I3 I4 I5 I6 I7 I8 I9 I10 I11 I12]. constructor; try done; [lia|].
  intros i. rewrite I11. case_decide; [done|].
  assert (forall q, constructed q t t = None -> constructed q t i = None) as Hq.
  { intros [] Hq; try done. simpl in *. by rewrite Z.eqb_refl in Hq. }
  by rewrite !Hq.
Qed.

Lemma Inv_construct t h o v m x cs E g k :
  Inv t h o v m (PConstruct x t) cs E g k -> Inv t h o v (<[t := x]> m) (PTail x (t + 1)) cs E g (k + 1).
Proof.
  intros [I1 I2 I3 I4 I5 I6 I7 I8 I9 I10 I11 I12]. constructor; try done; [lia|].
  intros i. destruct (decide (t = i)) as [<-|Hne].
  - rewrite lookup_insert_eq, decide_False by lia. simpl. by rewrite Z.eqb_refl.
  - rewrite lookup_insert_ne, I11 by done. case_decide; [done|]. simpl. by rewrite (proj2 (Z.eqb_neq i t)) by lia.
Qed.

Lemma Inv_publish t h o v m x cs E g k :
  Inv t h o v m (PTail x (t + 1)) cs E g k -> Inv (t + 1) h o v m PIdle cs (E ++ [x]) g (k + 1).
Proof.
  intros I. pose proof (granted_le_tail _ _ _ _ _ _ _ _ _ _ I) as Hg.
  destruct I as [I1 I2 I3 I4 I5 I6 I7 I8 I9 I10 I11 I12]. pose proof (count_nonneg is_fetch_head cs).
  constructor; try done; [lia| | |].
  - rewrite length_app. simpl. lia.
  - intros y Hy. apply I8 in Hy. lia.
  - intros i. rewrite I11. destruct (decide (i = t)) as [->|Hne].
    + rewrite decide_False, decide_True by lia. simpl. rewrite Z.eqb_refl, I2, Nat2Z.id.
      by rewrite lookup_app_r, Nat.sub_diag by lia.
    + case_decide as Hd.
      * rewrite decide_True by (destruct Hd; split; [lia|done]). by rewrite lookup_app_l by lia.
      * rewrite decide_False by (intros [? ?]; apply Hd; split; [lia|done]). simpl. by rewrite (proj2 (Z.eqb_neq i t)).
Qed.

(** ** One step of the system *)
Definition Inv_state (s : state) (E : list ptr) (k : Z) : Prop :=
  exists g, Inv (tailIndex s) (headIndex s) (dequeueOptimisticCount s) (dequeueOvercommit s) (elements s) (producer s)
                (consumers s) E g k.

Lemma circular_less_than_small a b : 0 <= a < 2 ^ 63 -> 0 <= b < 2 ^ 63 -> circular_less_than a b = (a <? b).
Proof. unfold circular_less_than. change (2 ^ 63) with 9223372036854775808. intros. word. Qed.

(** The counters stay below the number of steps. *)
Lemma Inv_ranges t h o v m p cs E g k :
  Inv t h o v m p cs E g k -> 0 <= h <= t /\ t <= k /\ h + v <= o /\ o <= k /\ 0 <= v.
Proof.
  intros I. pose proof (granted_le_tail _ _ _ _ _ _ _ _ _ _ I) as Hg.
  pose proof (count_nonneg is_fetch_head cs). pose proof (count_nonneg is_fetch_overcommit cs).
  destruct (inv_bounds _ _ _ _ _ _ _ _ _ _ I) as (? & ? & ? & ?).
  pose proof (inv_granted _ _ _ _ _ _ _ _ _ _ I). pose proof (inv_optimistic _ _ _ _ _ _ _ _ _ _ I). lia.
Qed.

(** What a result says about the elements enqueued so far. *)
Definition result_ok (E : list ptr) (s : state) (r : option result) : Prop :=
  match r with
  | Some (Dequeued _ i x) => 0 <= i /\ E !! Z.to_nat i = Some x
  | Some Undefined => False
  | _ => True
  end.

Lemma inv_cstep i s s' r E k :
  k + 1 < 2 ^ 63 -> Inv_state s E k -> cstep i s = Some (s', r) ->
  Inv_state s' E (k + 1) /\ result_ok E s r /\ enqueued (option_list r) = [].
Proof.
  intros Hk [g I] Hs. unfold cstep in Hs. destruct (consumers s !! i) as [c|] eqn:Ec; [|done]. simpl in Hs.
  pose proof (Inv_ranges _ _ _ _ _ _ _ _ _ _ I) as Hr.
  pose proof (fun t h o v m c' g' => Inv_unfocus t h o v m (producer s) _ i c c' E g' (k + 1) Ec) as Hu.
  pose proof (Inv_focus _ _ _ _ _ _ _ i c _ _ _ Ec I) as If.
  assert (forall a, 0 <= a <= k -> 0 <= a < 2 ^ 63) as Hb by lia.
  assert (forall a, 0 <= a <= k -> u64 (a + 1) = a + 1) as Hs1.
  { intros a Ha. apply u64_small. unfold is_u64. change (2 ^ 63) with 9223372036854775808 in Hk. lia. }
  destruct c; simpl in Hs.
  - done.
  - injection Hs as <- <-. split; [|done]. exists g. apply Hu. eapply Inv_move; [..|exact If]; try done. by intros w ?%elem_of_nil.
  - injection Hs as <- <-. split; [|done]. exists g. apply Hu. eapply Inv_move; [..|exact If]; try done.
    intros w ->%list_elem_of_singleton. simpl. lia.
  - destruct (circular_less_than _ _); injection Hs as <- <-; (split; [|done]); exists g; apply Hu.
    + eapply Inv_move; [..|exact If]; try done. intros w ->%list_elem_of_singleton.
      apply (inv_overcommits _ _ _ _ _ _ _ _ _ _ If). by left.
    + eapply Inv_move; [..|exact If]; try done. by intros w ?%elem_of_nil.
  - assert (0 <= overcommit <= dequeueOvercommit s) as Hw by (apply (inv_overcommits _ _ _ _ _ _ _ _ _ _ If); by left).
    rewrite (proj2 (Z.leb_le overcommit _)) in Hs by lia.
    injection Hs as <- <-. split; [|done]. exists g. rewrite Hs1 by lia. apply Hu. by apply Inv_fetch_optimistic.
  - destruct (inv_pending _ _ _ _ _ _ _ _ _ _ If myDequeueCount overcommit) as [Hw Hrk]; [by left|].
    pose proof (ticket_rank_nonneg myDequeueCount (tickets g (CTail2 overcommit myDequeueCount :: delete i (consumers s)))).
    assert (0 <= myDequeueCount < dequeueOptimisticCount s) as Hm.
    { apply (inv_tickets _ _ _ _ _ _ _ _ _ _ If). unfold tickets. csimpl. apply elem_of_app. right. by left. }
    rewrite (u64_small (myDequeueCount - overcommit)) in Hs
      by (unfold is_u64; change (2 ^ 63) with 9223372036854775808 in Hk; lia).
    rewrite circular_less_than_small in Hs by lia.
    destruct (Z.ltb_spec (myDequeueCount - overcommit) (tailIndex s)); injection Hs as <- <-; (split; [|done]).
    + exists (myDequeueCount :: g). apply Hu. by eapply Inv_granted.
    + exists g. apply Hu. by eapply Inv_refused.
  - injection Hs as <- <-. split; [|done]. exists g. rewrite Hs1 by lia. apply Hu. by apply Inv_fetch_head.
  - injection Hs as <- <-. split; [|done]. exists g. rewrite Hs1 by lia. apply Hu. by apply Inv_fetch_overcommit.
  - destruct (Inv_element_there _ _ _ _ _ _ _ _ _ _ _ If) as (Hi & _ & Em & [x Ex]). rewrite Ex in Hs, Em.
    injection Hs as <- <-. split; [exists g; apply Hu; by apply Inv_element|]. split; [|done]. split; [lia|done].
Qed.

Lemma inv_pstep b s s' r E k :
  k + 1 < 2 ^ 63 -> Inv_state s E k -> pstep b s = Some (s', r) ->
  Inv_state s' (E ++ enqueued (option_list r)) (k + 1) /\ result_ok E s r /\ consumers s' = consumers s.
Proof.
  intros Hk [g I] Hs. pose proof (Inv_ranges _ _ _ _ _ _ _ _ _ _ I) as Hr.
  pose proof (inv_producer _ _ _ _ _ _ _ _ _ _ I) as Hp. unfold pstep in Hs.
  destruct (producer s) as [|x t|x t|x t] eqn:Ep; [done|..].
  - rewrite circular_less_than_small, (proj2 (Z.ltb_ge t (headIndex s))) in Hs by lia.
    destruct (_ || _); injection Hs as <- <-; csimpl; rewrite app_nil_r; (split; [|done]); exists g; simpl.
    + by eapply Inv_producer; [..|exact I].
    + by eapply Inv_producer; [..|exact I].
  - subst t. injection Hs as <- <-. csimpl. rewrite app_nil_r. split; [|done]. exists g. simpl.
    rewrite (u64_small (1 + _)) by (unfold is_u64; change (2 ^ 63) with 9223372036854775808 in Hk; lia).
    rewrite Z.add_comm. by apply Inv_construct.
  - subst t. injection Hs as <- <-. split; [|done]. exists g. simpl. by apply Inv_publish.
Qed.

(** The indices consumers have fetched: each below the head is either with a
    consumer or was returned with its element. *)
Definition accounted (s : state) (D : list Z) : Prop := D ++ taking (consumers s) ≡ₚ seqZ 0 (headIndex s).

Lemma seqZ_snoc n : 0 <= n -> seqZ 0 (n + 1) = seqZ 0 n ++ [n].
Proof. intros Hn. rewrite seqZ_app by lia. simpl. done. Qed.

Lemma taking_focus cs i c : cs !! i = Some c -> taking cs ≡ₚ taking [c] ++ taking (delete i cs).
Proof. intros Ec. rewrite <- taking_cons. unfold taking. apply omap_Permutation. by apply delete_Permutation. Qed.

Lemma taking_insert cs i c c' : cs !! i = Some c -> taking (<[i:=c']> cs) ≡ₚ taking [c'] ++ taking (delete i cs).
Proof.
  intros Ec. rewrite (taking_focus _ i c'); [by rewrite delete_insert_same|].
  apply list_lookup_insert_eq. by eapply lookup_lt_Some.
Qed.

Lemma accounted_cstep i s s' r D k E :
  k + 1 < 2 ^ 63 -> Inv_state s E k -> cstep i s = Some (s', r) -> accounted s D ->
  accounted s' (D ++ (dequeued (option_list r)).*1).
Proof.
  intros Hk [g I] Hs HA. pose proof (Inv_ranges _ _ _ _ _ _ _ _ _ _ I) as Hr. unfold cstep in Hs.
  destruct (consumers s !! i) as [c|] eqn:Ec; [|done]. simpl in Hs. unfold accounted in *.
  pose proof (taking_focus _ _ _ Ec) as Hf. pose proof (fun c' => taking_insert _ _ _ c' Ec) as Hi. rewrite Hf in HA.
  assert (u64 (headIndex s + 1) = headIndex s + 1) as Hs1.
  { apply u64_small. unfold is_u64. change (2 ^ 63) with 9223372036854775808 in Hk. lia. }
  destruct c; simpl in Hs; repeat case_match; simplify_eq; csimpl; rewrite ?app_nil_r, Hi; simpl; try done.
  - rewrite Hs1, seqZ_snoc by lia. rewrite <- HA. simpl. rewrite (Permutation_app_comm (_ ++ _) [_]). simpl.
    by rewrite <- Permutation_middle.
  - by rewrite <- app_assoc.
  - destruct (Inv_element_there _ _ _ _ _ _ _ _ _ _ _ (Inv_focus _ _ _ _ _ _ _ i _ _ _ _ Ec I)) as (_ & _ & _ & [x Ex]). congruence.
Qed.

Lemma mpmc_inv_next e s s' r E D k :
  k + 1 < 2 ^ 63 -> Inv_state s E k -> accounted s D -> next e s = Some (s', r) ->
  Inv_state s' (E ++ enqueued (option_list r)) (k + 1) /\ result_ok E s r /\
  accounted s' (D ++ (dequeued (option_list r)).*1).
Proof.
  intros Hk I HA Hs. destruct e as [x|b|i|i]; simpl in Hs.
  - destruct I as [g I]. destruct (producer s) eqn:Ep; try done. injection Hs as <- <-. csimpl. rewrite !app_nil_r.
    split; [|done]. exists g. simpl. by case_match; (eapply Inv_producer; [..|exact I]).
  - destruct (inv_pstep _ _ _ _ _ _ Hk I Hs) as (I' & Hok & Hc). split; [done|]. split; [done|].
    unfold pstep in Hs. unfold accounted in *. rewrite Hc.
    destruct (producer s); try done; [destruct (circular_less_than _ (headIndex s)); [|destruct (_ || _)]|..]; injection Hs as <- <-; csimpl; by rewrite app_nil_r.
  - destruct (consumers s !! i) as [[]|] eqn:Ec; try done. injection Hs as <- <-. csimpl. rewrite !app_nil_r.
    split; [|split; [done|]].
    + destruct I as [g I]. exists g. simpl. eapply Inv_unfocus; [done|]. eapply Inv_move; [..|by eapply Inv_focus]; try done.
      by intros w ?%elem_of_nil.
    + unfold accounted in *. simpl. rewrite (taking_insert _ _ _ CTail Ec). by rewrite (taking_focus _ _ _ Ec) in HA.
  - destruct (inv_cstep _ _ _ _ _ _ Hk I Hs) as (I' & Hok & He). rewrite He, app_nil_r. split; [done|]. split; [done|].
    by eapply accounted_cstep.
Qed.

Lemma mpmc_inv_run es : forall s s' rs E D k,
  k + Z.of_nat (length es) < 2 ^ 63 -> Inv_state s E k -> accounted s D -> run es s = Some (s', rs) ->
  Inv_state s' (E ++ enqueued rs) (k + Z.of_nat (length es)) /\ accounted s' (D ++ (dequeued rs).*1) /\
  Undefined ∉ rs /\ (forall i x, (i, x) ∈ dequeued rs -> 0 <= i /\ (E ++ enqueued rs) !! Z.to_nat i = Some x).
Proof.
  induction es as [|e es IH]; intros s s' rs E D k Hk I HA Hr; simpl in Hr.
  - injection Hr as <- <-. simpl. rewrite Z.add_0_r, !app_nil_r. split; [done|]. split; [done|].
    split; [by intros ?%elem_of_nil|by intros i x ?%elem_of_nil].
  - destruct (next e s) as [[s1 r]|] eqn:En; [|done]. simpl in Hr.
    destruct (run es s1) as [[s2 rs2]|] eqn:Er; [|done]. simpl in Hr. injection Hr as <- <-.
    rewrite length_cons in Hk |- *. assert (k + 1 < 2 ^ 63) as Hk1 by lia.
    assert (k + 1 + Z.of_nat (length es) < 2 ^ 63) as Hk2 by lia.
    destruct (mpmc_inv_next _ _ _ _ _ _ _ Hk1 I HA En) as (I1 & Hok & HA1).
    destruct (IH _ _ _ _ _ _ Hk2 I1 HA1 Er) as (I2 & HA2 & Hu & Hd).
    assert (enqueued (option_list r ++ rs2) = enqueued (option_list r) ++ enqueued rs2) as He by apply omap_app.
    assert (dequeued (option_list r ++ rs2) = dequeued (option_list r) ++ dequeued rs2) as Hq by apply omap_app.
    rewrite He, Hq, fmap_app, !app_assoc. replace (k + Z.of_nat (S (length es))) with (k + 1 + Z.of_nat (length es)) by lia.
    split; [done|]. split; [done|]. split.
    + rewrite elem_of_app. intros [Hin|Hin]; [|done]. destruct r as [[]|]; csimpl in Hin; try (by apply elem_of_nil in Hin); apply list_elem_of_singleton in Hin; done.
    + intros i x [Hin|Hin]%elem_of_app; [|by apply Hd]. destruct r as [[]|]; csimpl in Hin; try (by apply elem_of_nil in Hin).
      apply list_elem_of_singleton in Hin as [= -> ->]. destruct Hok as [H0 Hl]. split; [done|].
      rewrite <- app_assoc. by apply lookup_app_l_Some.
Qed.

Lemma inv_initial n : Inv_state (initial n) [] 0 /\ accounted (initial n) [].
Proof.
  assert (forall B (f : cpc -> option B), f CIdle = None -> omap f (replicate n CIdle) = []) as Ho.
  { intros B f Hf. induction n as [|n IH]; [done|]. csimpl. by rewrite Hf. }
  assert (pending (replicate n CIdle) = []) as Hp by by apply Ho.
  assert (forall f, f CIdle = false -> count f (replicate n CIdle) = 0) as Hc.
  { intros f Hf. unfold count. clear Ho Hp. induction n as [|n IH]; [done|]. simpl. rewrite Hf. simpl. exact IH. }
  split.
  - exists []. unfold tickets. constructor; simpl; unfold tickets, taking, overcommits; rewrite ?Hp, ?Ho, ?Hc by done; simpl; try done; try (by intros ? ?%elem_of_nil).
    + constructor.
    + by intros my w ?%elem_of_nil.
    + split; [constructor|by intros ? ?%elem_of_nil].
    + intros i. rewrite lookup_empty, decide_False; [done|]. intros [? _]; lia.
  - unfold accounted. simpl. unfold taking. by rewrite Ho.
Qed.

(** ** The theorems *)
Definition idle (s : state) : Prop := forall c, c ∈ consumers s -> c = CIdle.

Lemma idle_taking s : idle s -> taking (consumers s) = [].
Proof.
  unfold idle. generalize (consumers s). intros cs. induction cs as [|c cs IH]; intros Hi; [done|].
  rewrite taking_cons, (Hi c), IH; [done| |by left]. intros c' Hc. apply Hi. by right.
Qed.

(** C7. The sub-queue of a producer and any number of consumers, in every
    interleaving of fewer than [2^63] steps: no consumer ever reads an element
    that is not there, and no assertion fails; every dequeued element is the one that was enqueued at
    its index; each index below the head has been returned exactly once or is
    with exactly one consumer; the head never overtakes the tail; and the
    elements between them are still stored. *)
Theorem mpmc_correct n es s rs :
  Z.of_nat (length es) < 2 ^ 63 ->
  run es (initial n) = Some (s, rs) ->
  Undefined ∉ rs /\
  (forall i x, (i, x) ∈ dequeued rs -> 0 <= i /\ enqueued rs !! Z.to_nat i = Some x) /\
  (dequeued rs).*1 ++ taking (consumers s) ≡ₚ seqZ 0 (headIndex s) /\
  0 <= headIndex s <= tailIndex s /\ tailIndex s = Z.of_nat (length (enqueued rs)) /\
  (forall i, headIndex s <= i < tailIndex s -> elements s !! i = enqueued rs !! Z.to_nat i).
Proof.
  intros Hk Hr. destruct (inv_initial n) as [I HA].
  destruct (mpmc_inv_run es _ _ _ _ _ 0 ltac:(lia) I HA Hr) as ([g I'] & HA' & Hu & Hd). simpl in *.
  pose proof (Inv_ranges _ _ _ _ _ _ _ _ _ _ I'). split; [done|]. split; [done|]. split; [done|]. split; [lia|].
  split; [by apply (inv_tail _ _ _ _ _ _ _ _ _ _ I')|]. intros i Hi.
  rewrite (inv_elements _ _ _ _ _ _ _ _ _ _ I'), decide_True; [done|]. split; [lia|]. left. lia.
Qed.

Lemma lookups_take {A} (l : list A) n :
  0 <= n <= Z.of_nat (length l) -> omap (fun i => l !! Z.to_nat i) (seqZ 0 n) = take (Z.to_nat n) l.
Proof.
  intros [Hn Hl]. revert Hl. pattern n. apply natlike_ind; [done| |done]. clear n Hn. intros n Hn IH Hl.
  replace (Z.succ n) with (n + 1) in * by lia. rewrite seqZ_snoc, omap_app, IH by lia.
  destruct (lookup_lt_is_Some_2 l (Z.to_nat n)) as [x Ex]; [lia|].
  replace (Z.to_nat (n + 1)) with (S (Z.to_nat n)) by lia. rewrite (take_S_r _ _ _ Ex). csimpl. by rewrite Ex.
Qed.

Lemma dequeued_prefix (d : list (Z * ptr)) E n :
  (forall i x, (i, x) ∈ d -> 0 <= i /\ E !! Z.to_nat i = Some x) -> d.*1 ≡ₚ seqZ 0 n -> 0 <= n <= Z.of_nat (length E) ->
  d.*2 ≡ₚ take (Z.to_nat n) E.
Proof.
  intros Hd Hn Hr. assert (d.*2 = omap (fun i => E !! Z.to_nat i) d.*1) as ->.
  { clear Hn. induction d as [|[i x] l IH]; [done|]. csimpl.
    destruct (Hd i x) as [_ ->]; [by left|]. f_equal. apply IH. intros j y Hj. apply Hd. by right. }
  rewrite Hn. by rewrite lookups_take by lia.
Qed.

(** When no consumer is in the middle of an operation, the elements dequeued
    so far are exactly the first ones enqueued, as many as the head counts:
    nothing is lost, duplicated or invented. *)
Theorem mpmc_conserves n es s rs :
  Z.of_nat (length es) < 2 ^ 63 ->
  run es (initial n) = Some (s, rs) -> idle s ->
  (dequeued rs).*2 ≡ₚ take (Z.to_nat (headIndex s)) (enqueued rs).
Proof.
  intros Hk Hr Hi. destruct (inv_initial n) as [I HA].
  destruct (mpmc_inv_run es _ _ _ _ _ 0 ltac:(lia) I HA Hr) as ([g I'] & HA' & _ & Hd). simpl in *.
  unfold accounted in HA'. rewrite (idle_taking s Hi), app_nil_r in HA'. simpl in HA'.
  pose proof (Inv_ranges _ _ _ _ _ _ _ _ _ _ I') as Hh. pose proof (inv_tail _ _ _ _ _ _ _ _ _ _ I') as Ht.
  apply dequeued_prefix; [done|done|lia].
Qed.

(** *** A consumer alone *)
Lemma idle_counts s : idle s ->
  count is_fetch_head (consumers s) = 0 /\ count is_fetch_overcommit (consumers s) = 0 /\ pending (consumers s) = [].
Proof.
  unfold idle. generalize (consumers s). intros cs. induction cs as [|c cs IH]; intros Hi; [done|].
  rewrite !count_cons, pending_cons, (Hi c) by (by left). destruct IH as (-> & -> & ->); [|done].
  intros c' Hc. apply Hi. by right.
Qed.

Lemma run_cstep i es s s1 s2 r rs :
  cstep i s = Some (s1, r) -> run es s1 = Some (s2, rs) -> run (CStep i :: es) s = Some (s2, option_list r ++ rs).
Proof. intros Hs Hr. simpl. rewrite Hs. simpl. by rewrite Hr. Qed.

(** Consumer [i] stands at [c], everything else is as in [s]. *)
Definition standing (s : state) (i : nat) (c : cpc) (h o v : Z) (m : gmap Z ptr) : state :=
  {| tailIndex := tailIndex s; headIndex := h; dequeueOptimisticCount := o; dequeueOvercommit := v;
     elements := m; producer := producer s; consumers := <[i := c]> (consumers s) |}.

Lemma standing_lookup s i c h o v m : (i < length (consumers s))%nat -> consumers (standing s i c h o v m) !! i = Some c.
Proof. intros Hi. by apply list_lookup_insert_eq. Qed.

Lemma standing_moves s i c c' h o v m h' o' v' m' :
  with_consumer i c' (with_counters (tailIndex s) h' o' v' m' (standing s i c h o v m)) = standing s i c' h' o' v' m'.
Proof. unfold with_consumer, with_counters, standing. simpl. f_equal. apply list_insert_insert_eq. Qed.

Lemma standing_moves_only s i c c' h o v m : with_consumer i c' (standing s i c h o v m) = standing s i c' h o v m.
Proof. unfold with_consumer, standing. simpl. f_equal. apply list_insert_insert_eq. Qed.

Lemma standing_idle s i : idle s -> (i < length (consumers s))%nat ->
  with_consumer i CTail s = standing s i CTail (headIndex s) (dequeueOptimisticCount s) (dequeueOvercommit s) (elements s).
Proof. done. Qed.

Ltac alone_step := unfold cstep; rewrite standing_lookup by done; simpl.

(** The states of a sub-queue with [n] consumers between two operations. *)
Definition reached (n : nat) (s : state) (rs : list result) : Prop :=
  exists es, Z.of_nat (length es) + 1 < 2 ^ 63 /\ run es (initial n) = Some (s, rs) /\ idle s.

Lemma next_consumers e s s' r : next e s = Some (s', r) -> length (consumers s') = length (consumers s).
Proof.
  destruct e; simpl; unfold pstep, cstep; intros Hs; repeat case_match; simplify_option_eq; simpl; rewrite ?length_insert; try done.
  all: repeat case_match; simplify_eq; simpl; by rewrite ?length_insert.
Qed.

Lemma run_consumers es : forall s s' rs, run es s = Some (s', rs) -> length (consumers s') = length (consumers s).
Proof.
  induction es as [|e es IH]; intros s s' rs Hr; simpl in Hr; [by injection Hr as <- <-|].
  destruct (next e s) as [[s1 r]|] eqn:E; [|done]. simpl in Hr. destruct (run es s1) as [[s2 rs2]|] eqn:E2; [|done].
  simpl in Hr. injection Hr as <- <-. rewrite (IH _ _ _ E2). by eapply next_consumers.
Qed.

Lemma reached_size n s rs : reached n s rs ->
  0 <= headIndex s <= tailIndex s /\ tailIndex s = Z.of_nat (length (enqueued rs)) /\ size_approx s = tailIndex s - headIndex s /\
  length (consumers s) = n.
Proof.
  intros (es & Hk & Hr & Hi). destruct (inv_initial n) as [I HA].
  destruct (mpmc_inv_run es _ _ _ _ _ 0 ltac:(lia) I HA Hr) as ([g I'] & _ & _ & _). simpl app in I'.
  pose proof (Inv_ranges _ _ _ _ _ _ _ _ _ _ I') as Hh. split; [lia|].
  split; [by apply (inv_tail _ _ _ _ _ _ _ _ _ _ I')|]. split.
  - unfold size_approx. rewrite circular_less_than_small by lia.
    destruct (Z.ltb_spec (headIndex s) (tailIndex s)); [|lia]. apply u64_small. unfold is_u64.
    change (2 ^ 63) with 9223372036854775808 in Hk. lia.
  - rewrite (run_consumers _ _ _ _ Hr). simpl. apply length_replicate.
Qed.

(** What a consumer alone reads. *)
Lemma alone_reads n s rs i :
  reached n s rs -> (i < n)%nat ->
  consumers s !! i = Some CIdle /\ (dequeueOvercommit s <=? dequeueOptimisticCount s) = true /\
  u64 (dequeueOptimisticCount s - dequeueOvercommit s) = headIndex s /\
  circular_less_than (headIndex s) (tailIndex s) = (headIndex s <? tailIndex s) /\
  (headIndex s < tailIndex s ->
     exists x, elements s !! headIndex s = Some x /\ enqueued rs !! Z.to_nat (headIndex s) = Some x).
Proof.
  intros Hre Hlt. destruct (reached_size _ _ _ Hre) as (_ & _ & _ & Hn). rewrite <- Hn in Hlt.
  destruct Hre as (es & Hk & Hr & Hi). destruct (inv_initial n) as [I HA].
  destruct (mpmc_inv_run es _ _ _ _ _ 0 ltac:(lia) I HA Hr) as ([g I'] & _ & _ & _). simpl app in I'.
  pose proof (Inv_ranges _ _ _ _ _ _ _ _ _ _ I') as Hh.
  destruct (idle_counts s Hi) as (C1 & C2 & C3).
  pose proof (inv_granted _ _ _ _ _ _ _ _ _ _ I') as Hg. pose proof (inv_optimistic _ _ _ _ _ _ _ _ _ _ I') as Ho.
  rewrite C1 in Hg. rewrite C2, C3 in Ho. simpl in Ho. repeat split.
  - destruct (lookup_lt_is_Some_2 _ _ Hlt) as [c Ec]. rewrite Ec. f_equal. apply Hi. by eapply list_elem_of_lookup_2.
  - apply Z.leb_le. lia.
  - replace (dequeueOptimisticCount s - dequeueOvercommit s) with (headIndex s) by lia. apply u64_small.
    unfold is_u64. change (2 ^ 63) with 9223372036854775808 in Hk. lia.
  - apply circular_less_than_small; lia.
  - intros Hlt'. pose proof (inv_tail _ _ _ _ _ _ _ _ _ _ I') as Ht.
    destruct (lookup_lt_is_Some_2 (enqueued rs) (Z.to_nat (headIndex s))) as [x Ex]; [lia|]. exists x. split; [|done].
    rewrite (inv_elements _ _ _ _ _ _ _ _ _ _ I'), decide_True; [done|]. split; [lia|]. left. lia.
Qed.

(** A consumer alone, step by step. *)
Lemma alone_dequeues n s rs i :
  reached n s rs -> (i < n)%nat ->
  (headIndex s < tailIndex s ->
     exists s' x, run (Dequeue i :: replicate 7 (CStep i)) s = Some (s', [Dequeued i (headIndex s) x]) /\
       enqueued rs !! Z.to_nat (headIndex s) = Some x) /\
  (headIndex s = tailIndex s -> exists s', run (Dequeue i :: replicate 3 (CStep i)) s = Some (s', [Empty i])).
Proof.
  intros Hre Hlt. destruct (alone_reads _ _ _ _ Hre Hlt) as (Ec & Hle & Hu & Hc & Hx).
  destruct (reached_size _ _ _ Hre) as (_ & _ & _ & Hn). rewrite <- Hn in Hlt.
  set (st := fun c => standing s i c (headIndex s) (dequeueOptimisticCount s) (dequeueOvercommit s) (elements s)).
  assert (forall es' r, run es' (st CTail) = r -> run (Dequeue i :: es') s = r) as Hd.
  { intros es' r <-. simpl. rewrite Ec. simpl. change (with_consumer i CTail s) with (st CTail).
    by destruct (run es' (st CTail)) as [[]|]. }
  assert (forall c c', with_consumer i c' (st c) = st c') as Hm by (intros; apply standing_moves_only).
  assert (forall c, consumers (st c) !! i = Some c) as Hl by (intros; by apply standing_lookup).
  split.
  - intros Hlt'. apply Z.ltb_lt in Hlt' as Hb. destruct (Hx Hlt') as (x & Ex & Eq).
    eexists _, x. split; [|done]. apply Hd. simpl replicate.
    eapply (run_cstep _ _ _ _ _ None); [unfold cstep; rewrite Hl; simpl; by rewrite Hm|].
    eapply (run_cstep _ _ _ _ _ None); [unfold cstep; rewrite Hl; simpl; by rewrite Hm|].
    eapply (run_cstep _ _ _ _ _ None); [unfold cstep; rewrite Hl; simpl; by rewrite Hu, Hc, Hb, Hm|].
    eapply (run_cstep _ _ _ _ _ None); [unfold cstep; rewrite Hl; unfold st; simpl; rewrite Hle, standing_moves; done|].
    eapply (run_cstep _ _ _ _ _ None); [alone_step; simpl; by rewrite Hu, Hc, Hb, standing_moves_only|].
    eapply (run_cstep _ _ _ _ _ None); [alone_step; rewrite standing_moves; done|].
    eapply (run_cstep _ _ _ _ _ (Some _)); [alone_step|done].
    simpl. rewrite Ex. done.
  - intros He. eexists. apply Hd. simpl replicate.
    eapply (run_cstep _ _ _ _ _ None); [unfold cstep; rewrite Hl; simpl; by rewrite Hm|].
    eapply (run_cstep _ _ _ _ _ None); [unfold cstep; rewrite Hl; simpl; by rewrite Hm|].
    eapply (run_cstep _ _ _ _ _ (Some _)); [unfold cstep; rewrite Hl; simpl|done].
    rewrite Hu, Hc, He, Z.ltb_irrefl, Hm. done.
Qed.

(** A consumer that is alone gets an element whenever there is one: from a
    state in which no other consumer is in the middle of an operation it
    dequeues the oldest element in eight steps, and it reports an empty queue,
    in four steps, only if the queue is empty. *)
Theorem mpmc_dequeue_alone n es s rs i :
  Z.of_nat (length es) + 1 < 2 ^ 63 ->
  run es (initial n) = Some (s, rs) -> idle s -> (i < length (consumers s))%nat ->
  (headIndex s < tailIndex s ->
     exists s' x, run (Dequeue i :: replicate 7 (CStep i)) s = Some (s', [Dequeued i (headIndex s) x]) /\
       enqueued rs !! Z.to_nat (headIndex s) = Some x) /\
  (headIndex s = tailIndex s -> exists s', run (Dequeue i :: replicate 3 (CStep i)) s = Some (s', [Empty i])).
Proof.
  intros Hk Hr Hi Hlt. apply (alone_dequeues n); [by exists es|].
  rewrite (run_consumers _ _ _ _ Hr) in Hlt. simpl in Hlt. by rewrite length_replicate in Hlt.
Qed.

(** ** Several producers (try_dequeue) *)

(** A call of [dequeue] that no other thread interferes with. *)
Fixpoint finish (fuel : nat) (i : nat) (s : state) : option (state * result) :=
  match fuel with
  | O => None
  | S fuel =>
      match cstep i s with
      | Some (s', Some r) => Some (s', r)
      | Some (s', None) => finish fuel i s'
      | None => None
      end
  end.
Definition dequeue (i : nat) (s : state) : option (state * result) :=
  '(s1, _) ← next (Dequeue i) s; finish 7 i s1.

(** The loop that scores at most three non-empty sub-queues; [k]: the position of
    the first of [ps].  The count of the non-empty ones and the best one. *)
Fixpoint score (ps : list state) (k : nat) (nonEmptyCount : Z) (best : option nat) (bestSize : Z) : Z * option nat :=
  match ps with
  | [] => (nonEmptyCount, best)
  | p :: ps =>
      if nonEmptyCount <? 3 then
        let size := size_approx p in
        if 0 <? size then
          if bestSize <? size then score ps (S k) (nonEmptyCount + 1) (Some k) size
          else score ps (S k) (nonEmptyCount + 1) best bestSize
        else score ps (S k) nonEmptyCount best bestSize
      else (nonEmptyCount, best)
  end.

(** The loop over the other sub-queues, from position [k] on. *)
Fixpoint try_others (i b : nat) (todo : list nat) (ps : list state) : option (option ptr * list state) :=
  match todo with
  | [] => Some (None, ps)
  | k :: todo =>
      if (k =? b)%nat then try_others i b todo ps
      else
        p ← ps !! k;
        '(p', r) ← dequeue i p;
        match r with
        | Dequeued _ _ x => Some (Some x, <[k := p']> ps)
        | _ => try_others i b todo (<[k := p']> ps)
        end
  end.

(** [None]: the null pointer [best] is followed, or a call does not return. *)
Definition try_dequeue (i : nat) (ps : list state) : option (option ptr * list state) :=
  let '(nonEmptyCount, best) := score ps 0 0 None 0 in
  if 0 <? nonEmptyCount then
    b ← best;
    p ← ps !! b;
    '(p', r) ← dequeue i p;
    match r with
    | Dequeued _ _ x => Some (Some x, <[b := p']> ps)
    | _ => try_others i b (seq 0 (length ps)) (<[b := p']> ps)
    end
  else Some (None, ps).

(** [pipe_mpmc_try_dequeue] of pipe.cpp. *)
Definition pipe_mpmc_try_dequeue (i : nat) (ps : list state) : option (ptr * list state) :=
  '(r, ps) ← try_dequeue i ps; Some (default NULL r, ps).

(** [ConcurrentQueue::size_approx], the sum over the producers, and
    [pipe_mpmc_count]. *)
Definition pipe_mpmc_count (ps : list state) : Z := foldl (fun size p => u64 (size + size_approx p)) 0 ps.

(** *** A call without interference *)
Lemma cstep_result_idle i s s' r : cstep i s = Some (s', Some r) -> consumers s' !! i = Some CIdle.
Proof.
  unfold cstep. intros Hs. destruct (consumers s !! i) as [c|] eqn:Ec; [|done]. simpl in Hs.
  apply lookup_lt_Some in Ec. destruct c; repeat case_match; simplify_eq; by apply list_lookup_insert_eq.
Qed.

(** The steps of a consumer up to the first result are a call. *)
Lemma run_finish i r : forall k s s', run (replicate k (CStep i)) s = Some (s', [r]) -> finish k i s = Some (s', r).
Proof.
  induction k as [|k IH]; intros s s' Hr; [done|]. simpl in *.
  destruct (cstep i s) as [[s1 [r1|]]|] eqn:E; [| |done]; simpl in Hr;
    destruct (run (replicate k (CStep i)) s1) as [[s2 rs2]|] eqn:E2; try done; simpl in Hr.
  - injection Hr as <- -> ->. apply cstep_result_idle in E. destruct k as [|k]; simpl in E2; [by injection E2 as ->|].
    unfold cstep in E2. by rewrite E in E2.
  - injection Hr as <- ->. by apply IH.
Qed.

Lemma run_dequeue i s es s' rs :
  consumers s !! i = Some CIdle ->
  run (Dequeue i :: es) s = Some (s', rs) -> run es (with_consumer i CTail s) = Some (s', rs).
Proof. intros Ec Hr. simpl in Hr. rewrite Ec in Hr. simpl in Hr. by destruct (run _ _) as [[]|]. Qed.

Lemma dequeue_nonempty n s rs i :
  reached n s rs -> (i < n)%nat -> headIndex s < tailIndex s ->
  exists s' x, dequeue i s = Some (s', Dequeued i (headIndex s) x) /\
    run (Dequeue i :: replicate 7 (CStep i)) s = Some (s', [Dequeued i (headIndex s) x]) /\
    enqueued rs !! Z.to_nat (headIndex s) = Some x.
Proof.
  intros Hre Hi Hlt. destruct (alone_dequeues _ _ _ _ Hre Hi) as [Hd _]. destruct (Hd Hlt) as (s' & x & Hr & Hx).
  exists s', x. split; [|done]. unfold dequeue. destruct (alone_reads _ _ _ _ Hre Hi) as (Ec & _).
  apply (run_dequeue i) in Hr as Hr'; [|done]. simpl. rewrite Ec. simpl. by apply (run_finish i _ 7).
Qed.

(** The scores: the best sub-queue found is not empty, and none is found only if
    all are empty. *)
Lemma score_spec ps : forall k c best bestSize,
  Forall (fun p => 0 <= size_approx p) ps -> 0 <= c ->
  (c = 0 -> bestSize = 0) -> 
  let '(c', best') := score ps k c best bestSize in
  0 <= c' /\ (c' = 0 -> c = 0 /\ Forall (fun p => size_approx p = 0) ps) /\
  (0 < c' -> (0 < c /\ best' = best) \/ exists j p, best' = Some (k + j)%nat /\ ps !! j = Some p /\ 0 < size_approx p).
Proof.
  induction ps as [|p ps IH]; intros k c best bestSize Hs Hc Hb0; simpl; [split; [done|]; split; [done|by left]|].
  apply Forall_cons in Hs as [Hp Hs].
  destruct (Z.ltb_spec c 3) as [H3|H3]; [|split; [lia|]; split; [lia|left; split; [lia|done]]].
  assert (forall j q, ps !! j = Some q -> exists j', (S k + j)%nat = (k + j')%nat /\ (p :: ps) !! j' = Some q) as Hshift
    by (intros j q Hj; exists (S j); split; [lia|done]).
  destruct (Z.ltb_spec 0 (size_approx p)) as [Hz|Hz]; [destruct (Z.ltb_spec bestSize (size_approx p)) as [Hb|Hb]|].
  - specialize (IH (S k) (c + 1) (Some k) (size_approx p) Hs ltac:(lia) ltac:(lia)).
    destruct (score _ _ _ _ _) as [c' best']. destruct IH as (I0 & I1 & I2). split; [done|]. split; [lia|]. intros Hc'.
    right. destruct (I2 Hc') as [[_ ->]|(j & q & -> & Hj & Hq)]; [exists 0%nat, p; split; [f_equal; lia|done]|].
    destruct (Hshift _ _ Hj) as (j' & -> & Hj'). by exists j', q.
  - specialize (IH (S k) (c + 1) best bestSize Hs ltac:(lia) ltac:(lia)).
    destruct (score _ _ _ _ _) as [c' best']. destruct IH as (I0 & I1 & I2). split; [done|]. split; [lia|]. intros Hc'.
    destruct (I2 Hc') as [[_ ->]|(j & q & -> & Hj & Hq)]; [left; split; [lia|done]|].
    right. destruct (Hshift _ _ Hj) as (j' & -> & Hj'). by exists j', q.
  - specialize (IH (S k) c best bestSize Hs Hc Hb0).
    destruct (score _ _ _ _ _) as [c' best']. destruct IH as (I0 & I1 & I2). split; [done|]. split.
    + intros Hc'. destruct (I1 Hc'). split; [done|]. constructor; [lia|done].
    + intros Hc'. destruct (I2 Hc') as [[? ->]|(j & q & -> & Hj & Hq)]; [by left|].
      right. destruct (Hshift _ _ Hj) as (j' & -> & Hj'). by exists j', q.
Qed.

(** The count adds the sizes up. *)
Lemma count_spec ps : forall a,
  Forall (fun s => size_approx s = tailIndex s - headIndex s) ps ->
  foldl (fun size p => u64 (size + size_approx p)) (u64 a) ps = u64 (a + zsum (map (fun s => tailIndex s - headIndex s) ps)).
Proof.
  induction ps as [|p ps IH]; intros a Hs; simpl; [f_equal; lia|]. apply Forall_cons in Hs as [Hp Hs].
  rewrite Hp. replace (u64 (u64 a + (tailIndex p - headIndex p))) with (u64 (a + (tailIndex p - headIndex p))).
  - rewrite IH by done. f_equal. lia.
  - unfold u64. by rewrite Zplus_mod_idemp_l.
Qed.

(** A consumer that takes from a slow pipe while no other operation is under
    way gets the oldest element of some sub-queue whenever any sub-queue holds
    an element, the other sub-queues stay as they are, and it is told that the
    pipe is empty only if every sub-queue is; the count of the pipe is the
    number of elements in all sub-queues, modulo [2^64]. *)
Theorem pipe_mpmc_dequeues n (ps : list state) (rss : list (list result)) i :
  Forall2 (reached n) ps rss -> (i < n)%nat ->
  (Forall (fun s => headIndex s = tailIndex s) ps -> pipe_mpmc_try_dequeue i ps = Some (NULL, ps)) /\
  (Exists (fun s => headIndex s < tailIndex s) ps ->
     exists k s rs s' x, ps !! k = Some s /\ rss !! k = Some rs /\ enqueued rs !! Z.to_nat (headIndex s) = Some x /\
       run (Dequeue i :: replicate 7 (CStep i)) s = Some (s', [Dequeued i (headIndex s) x]) /\
       pipe_mpmc_try_dequeue i ps = Some (x, <[k := s']> ps)) /\
  pipe_mpmc_count ps = u64 (zsum (map (fun s => tailIndex s - headIndex s) ps)).
Proof.
  intros Hre Hi.
  assert (Forall (fun s => size_approx s = tailIndex s - headIndex s /\ headIndex s <= tailIndex s) ps) as Hsz.
  { eapply Forall2_Forall_l; [exact Hre|]. apply Forall_true. intros rs s Hs.
    destruct (reached_size _ _ _ Hs) as (? & _ & ? & _). lia. }
  assert (Forall (fun s => size_approx s = tailIndex s - headIndex s) ps) as Hsz' by (eapply Forall_impl; [exact Hsz|]; by intros ? []).
  pose proof (score_spec ps 0 0 None 0) as Hsc. destruct (score ps 0 0 None 0) as [c best] eqn:Es.
  destruct Hsc as (Hc0 & Hz & Hp); [eapply Forall_impl; [exact Hsz|]; simpl; lia|done|done|].
  assert (0 < c -> exists b s, best = Some b /\ ps !! b = Some s /\ headIndex s < tailIndex s) as Hb.
  { intros Hc. destruct (Hp Hc) as [[]|(j & s & -> & Hj & Hs)]; [lia|]. exists j, s. split; [done|]. split; [done|].
    rewrite Forall_lookup in Hsz. destruct (Hsz _ _ Hj). lia. }
  unfold pipe_mpmc_try_dequeue, try_dequeue. rewrite Es. split; [|split; [|by apply (count_spec ps 0)]].
  - intros He. destruct (Z.ltb_spec 0 c) as [Hc|Hc]; [|done].
    destruct (Hb Hc) as (b & s & _ & Hs & ?). rewrite Forall_lookup in He. specialize (He _ _ Hs). lia.
  - intros He. destruct (Z.ltb_spec 0 c) as [Hc|Hc].
    + destruct (Hb Hc) as (b & s & -> & Hs & Hlt). destruct (Forall2_lookup_l _ _ _ _ _ Hre Hs) as (rs & Hrs & Hr).
      destruct (dequeue_nonempty _ _ _ _ Hr Hi Hlt) as (s' & x & Hd & Hrun & Hx).
      exists b, s, rs, s', x. repeat split; [done..|]. simpl. rewrite Hs. simpl. by rewrite Hd.
    + apply Exists_exists in He as (s & Hs & Hlt). destruct Hz as [_ Hz]; [lia|].
      rewrite Forall_forall in Hz, Hsz. destruct (Hsz _ Hs). specialize (Hz _ Hs). simpl in *. lia.
Qed.

(** ** Witnesses

    Two consumers race for one element: both see it, the second one to take a
    ticket gives up.  Then the producer enqueues another one. *)
Definition example_events : list event :=
  [Enqueue 100; PStep true; PStep true; PStep true; Dequeue 0; Dequeue 1] ++
  replicate 3 (CStep 0) ++ replicate 3 (CStep 1) ++
  [CStep 0; CStep 1; CStep 1; CStep 0; CStep 0; CStep 1; CStep 0; Enqueue 101; PStep true; PStep true].

Definition example_state : state :=
  match run example_events (initial 2) with Some (s, _) => s | None => initial 2 end.

Definition example_results : list result := [Enqueued 100; Empty 1; Dequeued 0 0 100; Enqueued 101].

Lemma example_runs : run example_events (initial 2) = Some (example_state, example_results).
Proof. by vm_compute. Qed.

Lemma example_idle : idle example_state.
Proof. intros c Hc. vm_compute in Hc. repeat (apply elem_of_cons in Hc as [->|Hc]; [done|]). by apply elem_of_nil in Hc. Qed.

Lemma example_reached : reached 2 example_state example_results.
Proof. exists example_events. split; [done|]. split; [apply example_runs|apply example_idle]. Qed.

Lemma mpmc_correct_witness :
  tailIndex example_state = 2 /\ headIndex example_state = 1 /\ Undefined ∉ example_results /\
  elements example_state !! 1 = Some 101.
Proof.
  destruct (mpmc_correct 2 example_events example_state example_results) as (Hu & _ & _ & _ & _ & He);
    [reflexivity|apply example_runs|].
  split; [by vm_compute|]. split; [by vm_compute|]. split; [exact Hu|]. rewrite He; by vm_compute.
Defined.

Lemma mpmc_conserves_witness : (dequeued example_results).*2 ≡ₚ [100].
Proof.
  apply (mpmc_conserves 2 example_events example_state example_results); [reflexivity|apply example_runs|apply example_idle].
Defined.

Lemma mpmc_dequeue_alone_witness :
  exists s', run (Dequeue 1 :: replicate 7 (CStep 1)) example_state = Some (s', [Dequeued 1 1 101]).
Proof.
  destruct (mpmc_dequeue_alone 2 example_events example_state example_results 1) as [Hd _];
    [reflexivity|apply example_runs|apply example_idle|vm_compute; lia|].
  destruct Hd as (s' & x & Hr & Hx); [by vm_compute|]. vm_compute in Hx. injection Hx as <-.
  exists s'. exact Hr.
Defined.

(** An empty sub-queue in front of one with an element. *)
Lemma initial_reached n : reached n (initial n) [].
Proof. exists []. split; [done|]. split; [done|]. intros c Hc. simpl in Hc. by apply elem_of_replicate in Hc as [-> _]. Qed.

Lemma example_contents :
  headIndex example_state = 1 /\ tailIndex example_state = 2 /\ enqueued example_results !! 1%nat = Some 101.
Proof. by vm_compute. Qed.

Lemma pipe_mpmc_dequeues_witness :
  exists s', pipe_mpmc_try_dequeue 0 [initial 2; example_state] = Some (101, [initial 2; s']) /\
    pipe_mpmc_count [initial 2; example_state] = 1.
Proof.
  destruct example_contents as (Eh & Et & Ex).
  destruct (pipe_mpmc_dequeues 2 [initial 2; example_state] [[]; example_results] 0) as (_ & Hd & Hc);
    [apply Forall2_cons_2; [apply initial_reached|apply Forall2_cons_2; [apply example_reached|apply Forall2_nil_2]]|lia|].
  assert (headIndex example_state < tailIndex example_state) as Hlt by (rewrite Eh, Et; lia).
  destruct Hd as (k & s & rs & s' & x & Hs & Hrs & Hx & _ & Hp); [apply Exists_cons_tl, Exists_cons_hd, Hlt|].
  destruct k as [|[|k]]; cbn in Hs, Hrs; [| |discriminate Hs]; injection Hrs as <-;
    [unfold enqueued in Hx; simpl omap in Hx; rewrite lookup_nil in Hx; discriminate Hx|].
  apply Some_inj in Hs. rewrite <- Hs in Hx.
  rewrite Eh in Hx. assert (x = 101) as -> by (apply Some_inj; rewrite <- Hx; exact Ex).
  exists s'. split; [exact Hp|]. rewrite Hc. unfold zsum, map. rewrite Eh, Et. by vm_compute.
Defined.
