(* ===== verification/FreeList.v ===== *)
(** * The free list of blocks (src/lib/concurrentqueue/concurrentqueue.h, FreeList)

    The multi-producer queue keeps the blocks it does not need in a lock-free
    list.  A node carries a reference count: one reference for the list, one for
    each thread that looks at the node in [try_get], and, in the highest bit, the
    wish to be put on the list, which the thread that drops the last reference
    fulfils.  The threads are interleaved arbitrarily, with one step for each
    access to the head, to a count or to a link.

    The steps see the latest memory, as in Mpmc.v. *)
From S2P Require Import Prelude.

Definition REFS_MASK : Z := 2147483647.
Definition SHOULD_BE_ON_FREELIST : Z := 2147483648.

(** [FreeListNode] *)
Record fl_node := { freeListRefs : Z; freeListNext : ptr }.

Definition new_node : fl_node := {| freeListRefs := 0; freeListNext := NULL |}.

(** Who has called [add_knowing_refcount_is_zero]: [add], or [try_get], whose loop
    continues with [head]. *)
Inductive caller := FromAdd | FromTryGet (head : ptr).

(** Where a thread stands: the access that comes next.  [A]: [add]; [K]:
    [add_knowing_refcount_is_zero]; [G]: [try_get]. *)
Inductive fl_pc :=
| FIdle
| AFetch (node : ptr)
| KHead (k : caller) (node : ptr)
| KNext (k : caller) (node head : ptr)
| KRefs (k : caller) (node head : ptr)
| KCas (k : caller) (node head : ptr)
| KBack (k : caller) (node head : ptr)
| GHead
| GRefs (head : ptr)
| GInc (head : ptr) (refs : Z)
| GNext (head : ptr)
| GCas (head next : ptr)
| GAssert (head : ptr)
| GTake (head : ptr)
| GDrop (prevHead head : ptr).

(** [outside] is the contract of the callers: the nodes that belong to them.  A
    node is given up when [add] is called and belongs to the caller of [try_get]
    when that returns it. *)
Record fl_state := {
  freeListHead : ptr;
  nodes : gmap ptr fl_node;
  threads : list fl_pc;
  outside : gset ptr
}.

Definition fl_initial (blocks : gset ptr) (threads : nat) : fl_state :=
  {| freeListHead := NULL; nodes := gset_to_gmap new_node blocks; threads := replicate threads FIdle; outside := blocks |}.

Inductive fl_result := Added (node : ptr) | Got (node : ptr).

Definition goto (i : nat) (c : fl_pc) (s : fl_state) : fl_state :=
  {| freeListHead := freeListHead s; nodes := nodes s; threads := <[i := c]> (threads s); outside := outside s |}.
Definition set_head (h : ptr) (s : fl_state) : fl_state :=
  {| freeListHead := h; nodes := nodes s; threads := threads s; outside := outside s |}.
Definition set_refs (n : ptr) (nd : fl_node) (refs : Z) (s : fl_state) : fl_state :=
  {| freeListHead := freeListHead s; nodes := <[n := {| freeListRefs := refs; freeListNext := freeListNext nd |}]> (nodes s);
     threads := threads s; outside := outside s |}.
Definition set_next (n : ptr) (nd : fl_node) (next : ptr) (s : fl_state) : fl_state :=
  {| freeListHead := freeListHead s; nodes := <[n := {| freeListRefs := freeListRefs nd; freeListNext := next |}]> (nodes s);
     threads := threads s; outside := outside s |}.
Definition set_outside (X : gset ptr) (s : fl_state) : fl_state :=
  {| freeListHead := freeListHead s; nodes := nodes s; threads := threads s; outside := X |}.

(** The test of the loop of [try_get]. *)
Definition loop (i : nat) (head : ptr) (s : fl_state) : fl_state * option fl_result :=
  if head =? NULL then (goto i FIdle s, Some (Got NULL)) else (goto i (GRefs head) s, None).

(** Where [add_knowing_refcount_is_zero] returns to. *)
Definition resume (i : nat) (k : caller) (node : ptr) (s : fl_state) : fl_state * option fl_result :=
  match k with
  | FromAdd => (goto i FIdle s, Some (Added node))
  | FromTryGet head => loop i head s
  end.

(** One step of thread [i].  [None]: the thread stands at no operation, it follows
    a pointer to no node, or the assertion fails. *)
Definition fl_step (i : nat) (s : fl_state) : option (fl_state * option fl_result) :=
  c ← threads s !! i;
  match c with
  | FIdle => None
  | AFetch node =>
      nd ← nodes s !! node;
      let s := set_refs node nd (u32 (freeListRefs nd + SHOULD_BE_ON_FREELIST)) s in
      if freeListRefs nd =? 0 then Some (goto i (KHead FromAdd node) s, None)
      else Some (goto i FIdle s, Some (Added node))
  | KHead k node => Some (goto i (KNext k node (freeListHead s)) s, None)
  | KNext k node head =>
      nd ← nodes s !! node;
      Some (goto i (KRefs k node head) (set_next node nd head s), None)
  | KRefs k node head =>
      nd ← nodes s !! node;
      Some (goto i (KCas k node head) (set_refs node nd 1 s), None)
  | KCas k node head =>
      if freeListHead s =? head then Some (resume i k node (set_head node s))
      else Some (goto i (KBack k node (freeListHead s)) s, None)
  | KBack k node head =>
      nd ← nodes s !! node;
      let s := set_refs node nd (u32 (freeListRefs nd + (SHOULD_BE_ON_FREELIST - 1))) s in
      if freeListRefs nd =? 1 then Some (goto i (KNext k node head) s, None)
      else Some (resume i k node s)
  | GHead => Some (loop i (freeListHead s) s)
  | GRefs head =>
      nd ← nodes s !! head;
      if Z.land (freeListRefs nd) REFS_MASK =? 0 then Some (goto i GHead s, None)
      else Some (goto i (GInc head (freeListRefs nd)) s, None)
  | GInc head refs =>
      nd ← nodes s !! head;
      if freeListRefs nd =? refs then Some (goto i (GNext head) (set_refs head nd (u32 (refs + 1)) s), None)
      else Some (goto i GHead s, None)
  | GNext head =>
      nd ← nodes s !! head;
      Some (goto i (GCas head (freeListNext nd)) s, None)
  | GCas head next =>
      if freeListHead s =? head then Some (goto i (GAssert head) (set_head next s), None)
      else Some (goto i (GDrop head (freeListHead s)) s, None)
  | GAssert head =>
      nd ← nodes s !! head;
      if Z.land (freeListRefs nd) SHOULD_BE_ON_FREELIST =? 0 then Some (goto i (GTake head) s, None) else None
  | GTake head =>
      nd ← nodes s !! head;
      Some (goto i FIdle (set_outside (outside s ∪ {[head]}) (set_refs head nd (u32 (freeListRefs nd - 2)) s)), Some (Got head))
  | GDrop prevHead head =>
      nd ← nodes s !! prevHead;
      let s := set_refs prevHead nd (u32 (freeListRefs nd - 1)) s in
      if freeListRefs nd =? SHOULD_BE_ON_FREELIST + 1 then Some (goto i (KHead (FromTryGet head) prevHead) s, None)
      else Some (loop i head s)
  end.

Inductive fl_event :=
| FlAdd (thread : nat) (node : ptr)
| FlTryGet (thread : nat)
| FlStep (thread : nat).

(** A node may be added by a caller to whom it belongs. *)
Definition fl_next (e : fl_event) (s : fl_state) : option (fl_state * option fl_result) :=
  match e with
  | FlAdd i node =>
      match threads s !! i with
      | Some FIdle =>
          if bool_decide (node ∈ outside s) then Some (goto i (AFetch node) (set_outside (outside s ∖ {[node]}) s), None) else None
      | _ => None
      end
  | FlTryGet i =>
      match threads s !! i with
      | Some FIdle => Some (goto i GHead s, None)
      | _ => None
      end
  | FlStep i => fl_step i s
  end.

Fixpoint fl_run (es : list fl_event) (s : fl_state) : option (fl_state * list fl_result) :=
  match es with
  | [] => Some (s, [])
  | e :: es =>
      '(s1, r) ← fl_next e s;
      '(s2, rs) ← fl_run es s1;
      Some (s2, option_list r ++ rs)
  end.

(** ** Accounts

    What a thread contributes to the accounts of a node: the references it holds,
    and the duty it has towards the node, of which there are three: to announce
    it ([adding]), to put it on the list while it alone may touch it
    ([exclusive]), and to put it on the list, or to take it off, while its count
    includes the reference of the list ([listing]). *)
Definition holding (n : ptr) (c : fl_pc) : Z :=
  match c with
  | GNext x | GCas x _ | GAssert x | GTake x | GDrop x _ => same n x
  | _ => 0
  end.
Definition adding (n : ptr) (c : fl_pc) : Z := match c with AFetch x => same n x | _ => 0 end.
Definition exclusive (n : ptr) (c : fl_pc) : Z :=
  match c with KHead _ x | KNext _ x _ | KRefs _ x _ => same n x | _ => 0 end.
Definition listing (n : ptr) (c : fl_pc) : Z :=
  match c with KCas _ x _ | KBack _ x _ | GAssert x | GTake x => same n x | _ => 0 end.

Definition total (f : fl_pc -> Z) (cs : list fl_pc) : Z := zsum (map f cs).
(** The nodes on the list, from the head on. *)
Fixpoint chain (m : gmap ptr fl_node) (h : ptr) (l : list ptr) : Prop :=
  match l with
  | [] => h = NULL
  | x :: l => h = x /\ exists nd, m !! x = Some nd /\ chain m (freeListNext nd) l
  end.

Definition valid (m : gmap ptr fl_node) (h : ptr) : Prop := h <> NULL -> is_Some (m !! h).
Definition valid_caller (m : gmap ptr fl_node) (k : caller) : Prop :=
  match k with FromAdd => True | FromTryGet head => valid m head end.

(** What a thread knows where it stands. *)
Definition knows (m : gmap ptr fl_node) (c : fl_pc) : Prop :=
  match c with
  | FIdle | AFetch _ | GHead => True
  | KHead k _ => valid_caller m k
  | KNext k _ head | KBack k _ head => valid_caller m k /\ valid m head
  | KRefs k x head | KCas k x head => valid_caller m k /\ valid m head /\ freeListNext <$> m !! x = Some head
  | GRefs x | GNext x | GAssert x | GTake x => is_Some (m !! x)
  | GInc x refs => is_Some (m !! x) /\ Z.land refs REFS_MASK <> 0
  | GCas x next => freeListNext <$> m !! x = Some next /\ valid m next
  | GDrop x head => is_Some (m !! x) /\ valid m head
  end.

(** [L]: the nodes on the list; [P]: the nodes that wait for the thread that drops
    the last reference. *)
Record FInv (h : ptr) (m : gmap ptr fl_node) (cs : list fl_pc) (out : gset ptr) (L : list ptr) (P : gset ptr) : Prop := {
  fi_place : forall n, occ n L + inside n out + total (adding n) cs + total (exclusive n) cs + total (listing n) cs +
                       inside n P = c_bool (bool_decide (is_Some (m !! n)));
  fi_refs : forall n nd, m !! n = Some nd ->
              freeListRefs nd = (occ n L + total (listing n) cs) +
                                SHOULD_BE_ON_FREELIST * (inside n P + total (exclusive n) cs) + total (holding n) cs;
  fi_exclusive : forall n, 0 < total (exclusive n) cs -> total (holding n) cs = 0;
  fi_pending : forall n, 0 < inside n P -> 0 < total (holding n) cs;
  fi_chain : chain m h L;
  fi_knows : forall i c, cs !! i = Some c -> knows m c;
  fi_links : forall n nd, m !! n = Some nd -> valid m (freeListNext nd);
  fi_null : m !! NULL = None;
  fi_threads : Z.of_nat (length cs) < 2147483647
}.

(** *** Sums over the threads *)
Lemma account_range (f : ptr -> fl_pc -> Z) n c :
  f = holding \/ f = adding \/ f = exclusive \/ f = listing -> 0 <= f n c <= 1.
Proof.
  assert (forall x, 0 <= same n x <= 1) as Hs by (intros x; destruct (same_cases n x); lia).
  intros [->|[->|[->| ->]]]; destruct c; simpl; auto; lia.
Qed.

Lemma total_insert f cs i c c' : cs !! i = Some c -> total f (<[i := c']> cs) = total f cs - f c + f c'.
Proof. apply zsum_map_insert. Qed.

Lemma total_nonneg f cs : (forall c, 0 <= f c) -> 0 <= total f cs.
Proof. apply zsum_map_nonneg. Qed.

Lemma total_le f cs i c : (forall c, 0 <= f c) -> cs !! i = Some c -> f c <= total f cs.
Proof. apply zsum_map_le. Qed.

Lemma total_le_two f cs i j c d :
  (forall c, 0 <= f c) -> f FIdle = 0 -> i <> j -> cs !! i = Some c -> cs !! j = Some d -> f c + f d <= total f cs.
Proof.
  intros Hf H0 Hij Ec Ed. pose proof (total_le f (<[i := FIdle]> cs) j d Hf) as Hj.
  rewrite (total_insert f cs i c) in Hj by done. rewrite list_lookup_insert_ne in Hj by done. specialize (Hj Ed). lia.
Qed.

Lemma total_length f cs : (forall c, 0 <= f c <= 1) -> total f cs <= Z.of_nat (length cs).
Proof. intros Hf. induction cs as [|c cs IH]; unfold total in *; simpl; [done|]. specialize (Hf c). lia. Qed.

Lemma chain_elem m h l x : chain m h l -> x ∈ l -> is_Some (m !! x).
Proof.
  revert h. induction l as [|y l IH]; intros h Hc Hx; [by apply elem_of_nil in Hx|]. destruct Hc as [-> (nd & E & Hc)].
  apply elem_of_cons in Hx as [->|Hx]; [by eexists|by eapply IH].
Qed.

(** The list does not see a change of a node that is not on it, nor of a count. *)
Lemma chain_insert m h l x nd :
  chain m h l -> (forall nd', m !! x = Some nd' -> x ∈ l -> freeListNext nd = freeListNext nd') -> chain (<[x := nd]> m) h l.
Proof.
  revert h. induction l as [|y l IH]; intros h Hc Hx; [done|]. destruct Hc as [-> (nd' & E & Hc)]. split; [done|].
  assert (forall nd', m !! x = Some nd' -> x ∈ l -> freeListNext nd = freeListNext nd') as Hx' by (intros ? ? ?; apply Hx; [done|by right]).
  destruct (decide (y = x)) as [->|Hy].
  - exists nd. rewrite lookup_insert_eq. split; [done|]. rewrite (Hx nd') by (try done; by left). by apply IH.
  - exists nd'. rewrite lookup_insert_ne by done. split; [done|]. by apply IH.
Qed.

Lemma valid_insert m x nd h : valid m h -> valid (<[x := nd]> m) h.
Proof. intros Hv Hn. rewrite lookup_insert_is_Some'. right. by apply Hv. Qed.

(** ** Preservation *)
Lemma FInv_step h m cs out L P i c c' h' m' out' L' P' :
  FInv h m cs out L P -> cs !! i = Some c ->
  (forall n, is_Some (m' !! n) <-> is_Some (m !! n)) ->
  (forall n, occ n L' + inside n out' + adding n c' + exclusive n c' + listing n c' + inside n P' =
             occ n L + inside n out + adding n c + exclusive n c + listing n c + inside n P) ->
  (forall n nd', m' !! n = Some nd' -> exists nd, m !! n = Some nd /\
     freeListRefs nd' = freeListRefs nd + (occ n L' + listing n c' - occ n L - listing n c) +
       SHOULD_BE_ON_FREELIST * (inside n P' + exclusive n c' - inside n P - exclusive n c) + (holding n c' - holding n c)) ->
  (forall n, 0 < total (exclusive n) cs - exclusive n c + exclusive n c' -> total (holding n) cs - holding n c + holding n c' = 0) ->
  (forall n, 0 < inside n P' -> 0 < total (holding n) cs - holding n c + holding n c') ->
  chain m' h' L' -> knows m' c' -> (forall j d, i <> j -> cs !! j = Some d -> knows m' d) ->
  (forall n nd, m' !! n = Some nd -> valid m' (freeListNext nd)) ->
  FInv h' m' (<[i := c']> cs) out' L' P'.
Proof.
  intros [I1 I2 I3 I4 I5 I6 I7 I8 I9] Ec Hdom Hplace Hrefs Hex Hpe Hch Hk Hko Hln.
  constructor; try done.
  - intros n. rewrite !(total_insert _ cs i c) by done. specialize (I1 n). specialize (Hplace n).
    rewrite (bool_decide_ext _ _ (Hdom n)). lia.
  - intros n nd' E. rewrite !(total_insert _ cs i c) by done. destruct (Hrefs n nd' E) as (nd & E' & ->).
    rewrite (I2 n nd E'). lia.
  - intros n. rewrite !(total_insert _ cs i c) by done. apply Hex.
  - intros n Hn. rewrite !(total_insert _ cs i c) by done. by apply Hpe.
  - intros j d. destruct (decide (i = j)) as [<-|Hj].
    + rewrite list_lookup_insert_eq by by eapply lookup_lt_Some. by intros [= <-].
    + rewrite list_lookup_insert_ne by done. by apply Hko.
  - destruct (m' !! NULL) eqn:E; [|done]. destruct (proj1 (Hdom NULL)) as [? E']; [by eexists|]. by rewrite I8 in E'.
  - by rewrite length_insert.
Qed.

Ltac nonneg := let c := fresh in intros c; match goal with |- 0 <= ?f ?n _ => pose proof (account_range f n c); tauto end.

(** What the accounts of one node say in front of a step of thread [i]. *)
Lemma accounts h m cs out L P i c n :
  FInv h m cs out L P -> cs !! i = Some c ->
  occ n L + inside n out + total (adding n) cs + total (exclusive n) cs + total (listing n) cs + inside n P <= 1 /\
  0 <= occ n L /\ 0 <= inside n out /\ 0 <= inside n P /\
  0 <= adding n c <= total (adding n) cs /\ 0 <= exclusive n c <= total (exclusive n) cs /\
  0 <= listing n c <= total (listing n) cs /\ 0 <= holding n c <= total (holding n) cs /\
  total (holding n) cs < 2147483647.
Proof.
  intros I Ec. pose proof (fi_place _ _ _ _ _ _ I n) as Hp. pose proof (fi_threads _ _ _ _ _ _ I).
  pose proof (total_length (holding n) cs ltac:(intros; apply account_range; auto)).
  assert (0 <= c_bool (bool_decide (is_Some (m !! n))) <= 1) by by destruct (bool_decide _).
  assert (forall f, f = holding \/ f = adding \/ f = exclusive \/ f = listing -> 0 <= f n c <= total (f n) cs) as Hf.
  { intros f Hf. split; [by apply account_range|]. apply (total_le _ _ i); [|done]. intros. by apply account_range. }
  destruct (inside_cases n out) as [[_ Ho]|[_ Ho]]; destruct (inside_cases n P) as [[_ HP]|[_ HP]];
    pose proof (occ_nonneg n L); (repeat split; [lia|lia|lia|lia|..]; try (apply Hf; tauto); lia).
Qed.

(** A node somebody has a duty towards or that is on the list exists. *)
Lemma placed h m cs out L P n :
  FInv h m cs out L P ->
  0 < occ n L + inside n out + total (adding n) cs + total (exclusive n) cs + total (listing n) cs + inside n P -> is_Some (m !! n).
Proof. intros I Hp. rewrite (fi_place _ _ _ _ _ _ I n) in Hp. by destruct (bool_decide_reflect (is_Some (m !! n))). Qed.

Lemma outside_placed h m cs out L P n : FInv h m cs out L P -> n ∈ out -> is_Some (m !! n).
Proof.
  intros I Hn. apply (placed _ _ _ _ _ _ n I). pose proof (occ_nonneg n L).
  assert (forall f, f = holding \/ f = adding \/ f = exclusive \/ f = listing -> 0 <= total (f n) cs) as Ht
    by (intros f Hf; apply total_nonneg; intros c; by apply account_range).
  pose proof (Ht adding ltac:(auto)). pose proof (Ht exclusive ltac:(auto)). pose proof (Ht listing ltac:(auto)).
  destruct (inside_cases n out) as [[_ ?]|[? _]]; [|done]. destruct (inside_cases n P) as [[_ ?]|[_ ?]]; lia.
Qed.

Lemma valid_same m m' h : (forall n, is_Some (m' !! n) <-> is_Some (m !! n)) -> valid m h -> valid m' h.
Proof. intros Hd Hv Hh. apply Hd. by apply Hv. Qed.

(** What a thread knows outlives a step of another one that keeps the links. *)
Lemma knows_same m m' d :
  (forall n, freeListNext <$> m' !! n = freeListNext <$> m !! n) -> knows m d -> knows m' d.
Proof.
  intros Hm. assert (forall n, is_Some (m' !! n) <-> is_Some (m !! n)) as Hd.
  { intros n. specialize (Hm n). destruct (m' !! n), (m !! n); try done; simpl in Hm; split; intros [? ?]; try done; by eexists. }
  assert (forall h, valid m h -> valid m' h) as Hv by (intros h; by apply valid_same).
  assert (forall k, valid_caller m k -> valid_caller m' k) as Hk by (intros []; simpl; [done|apply Hv]).
  destruct d; simpl; rewrite ?Hm, ?Hd; naive_solver.
Qed.

Lemma refs_insert_links (m : gmap ptr fl_node) x nd r n :
  m !! x = Some nd ->
  freeListNext <$> <[x := {| freeListRefs := r; freeListNext := freeListNext nd |}]> m !! n = freeListNext <$> m !! n.
Proof.
  intros E. destruct (decide (n = x)) as [->|Hn]; [by rewrite lookup_insert_eq, E|by rewrite lookup_insert_ne].
Qed.

Lemma insert_domain {A} (m : gmap ptr A) x (v w : A) n : m !! x = Some v -> is_Some (<[x := w]> m !! n) <-> is_Some (m !! n).
Proof.
  intros E. destruct (decide (n = x)) as [->|Hn]; [|by rewrite lookup_insert_ne].
  rewrite lookup_insert_eq, E. split; by eexists.
Qed.

(** The terms of [fi_refs] that a step changes. *)
Definition delta (L L' : list ptr) (P P' : gset ptr) (c c' : fl_pc) (n : ptr) : Z :=
  (occ n L' + listing n c' - occ n L - listing n c) +
  SHOULD_BE_ON_FREELIST * (inside n P' + exclusive n c' - inside n P - exclusive n c) + (holding n c' - holding n c).

(** What [FInv_step] asks for, as far as it speaks of one node. *)
Definition balanced (cs : list fl_pc) (out out' : gset ptr) (L L' : list ptr) (P P' : gset ptr) (c c' : fl_pc) (n : ptr) : Prop :=
  occ n L' + inside n out' + adding n c' + exclusive n c' + listing n c' + inside n P' =
  occ n L + inside n out + adding n c + exclusive n c + listing n c + inside n P /\
  (0 < total (exclusive n) cs - exclusive n c + exclusive n c' -> total (holding n) cs - holding n c + holding n c' = 0) /\
  (0 < inside n P' -> 0 < total (holding n) cs - holding n c + holding n c').

(** A step that changes at most the head. *)
Lemma FInv_keep h m cs out L P i c c' h' out' L' P' :
  FInv h m cs out L P -> cs !! i = Some c ->
  (forall n, balanced cs out out' L L' P P' c c' n /\ delta L L' P P' c c' n = 0) ->
  chain m h' L' -> knows m c' -> FInv h' m (<[i := c']> cs) out' L' P'.
Proof.
  intros I Ec Hb Hc Hk. apply (FInv_step h m cs out L P i c c'); try done.
  - intros n. apply Hb.
  - intros n nd E. exists nd. split; [done|]. destruct (Hb n) as [_ Hd]. unfold delta in Hd. lia.
  - intros n. apply Hb.
  - intros n. apply Hb.
  - intros j d _. apply (fi_knows _ _ _ _ _ _ I).
  - apply (fi_links _ _ _ _ _ _ I).
Qed.

(** A step that changes the count of [x] as well. *)
Lemma FInv_refs h m cs out L P i c c' h' out' L' P' x nd r :
  FInv h m cs out L P -> cs !! i = Some c -> m !! x = Some nd ->
  (forall n, balanced cs out out' L L' P P' c c' n) ->
  (forall n, n <> x -> delta L L' P P' c c' n = 0) -> r = freeListRefs nd + delta L L' P P' c c' x ->
  chain m h' L' -> knows m c' ->
  FInv h' (<[x := {| freeListRefs := r; freeListNext := freeListNext nd |}]> m) (<[i := c']> cs) out' L' P'.
Proof.
  intros I Ec Ex Hb Hd Hr Hc Hk. apply (FInv_step h m cs out L P i c c'); try done.
  - intros n. by apply (insert_domain m x nd).
  - intros n. apply Hb.
  - intros n nd'. destruct (decide (n = x)) as [->|Hn].
    + rewrite lookup_insert_eq. intros [= <-]. exists nd. split; [done|]. simpl. rewrite Hr. unfold delta. lia.
    + rewrite lookup_insert_ne by done. intros E. exists nd'. split; [done|]. specialize (Hd n Hn). unfold delta in Hd. lia.
  - intros n. apply Hb.
  - intros n. apply Hb.
  - apply chain_insert; [done|]. intros nd' E _. rewrite Ex in E. by injection E as ->.
  - apply (knows_same m); [|done]. intros n. by apply refs_insert_links.
  - intros j d _ Ed. apply (knows_same m); [intros n; by apply refs_insert_links|]. by apply (fi_knows _ _ _ _ _ _ I j).
  - intros n nd' E. apply valid_insert. destruct (decide (n = x)) as [->|Hn].
    + rewrite lookup_insert_eq in E. injection E as <-. by apply (fi_links _ _ _ _ _ _ I x nd).
    + rewrite lookup_insert_ne in E by done. by apply (fi_links _ _ _ _ _ _ I n nd').
Qed.

(** The arithmetic of a step that is about node [x]. *)
Ltac balance n x I Ec :=
  pose proof (accounts _ _ _ _ _ _ _ _ n I Ec);
  pose proof (fi_pending _ _ _ _ _ _ I n); pose proof (fi_exclusive _ _ _ _ _ _ I n);
  unfold balanced, delta, SHOULD_BE_ON_FREELIST in *; simpl in *;
  let E := fresh in let R := fresh in
  destruct (same_cases n x) as [[E R]|[E R]]; [try subst n|try done]; rewrite ?R in *; simpl in *.

Lemma FInv_valid_head h m cs out L P : FInv h m cs out L P -> valid m h.
Proof.
  intros I. pose proof (fi_chain _ _ _ _ _ _ I) as Hc. destruct L as [|x L]; simpl in Hc; [by intros ?|].
  destruct Hc as [-> (nd & E & _)]. intros _. by eexists.
Qed.

Definition after_loop (head : ptr) : fl_pc := if head =? NULL then FIdle else GRefs head.
Definition after_resume (k : caller) : fl_pc := match k with FromAdd => FIdle | FromTryGet head => after_loop head end.

Lemma after_loop_accounts head n :
  holding n (after_loop head) = 0 /\ adding n (after_loop head) = 0 /\ exclusive n (after_loop head) = 0 /\
  listing n (after_loop head) = 0.
Proof. unfold after_loop. by destruct (head =? NULL). Qed.

Lemma after_resume_accounts k n :
  holding n (after_resume k) = 0 /\ adding n (after_resume k) = 0 /\ exclusive n (after_resume k) = 0 /\
  listing n (after_resume k) = 0.
Proof. destruct k; [done|apply after_loop_accounts]. Qed.

Lemma after_loop_knows m head : valid m head -> knows m (after_loop head).
Proof. unfold after_loop. intros Hv. destruct (Z.eqb_spec head NULL) as [Hn|Hn]; [done|by apply Hv]. Qed.

Lemma after_resume_knows m k : valid_caller m k -> knows m (after_resume k).
Proof. destruct k; [done|apply after_loop_knows]. Qed.

Lemma FInv_announce h m cs out L P i x nd :
  FInv h m cs out L P -> cs !! i = Some (AFetch x) -> m !! x = Some nd ->
  exists P', FInv h (<[x := {| freeListRefs := u32 (freeListRefs nd + SHOULD_BE_ON_FREELIST); freeListNext := freeListNext nd |}]> m)
               (<[i := if freeListRefs nd =? 0 then KHead FromAdd x else FIdle]> cs) out L P'.
Proof.
  intros I Ec Ex. pose proof (fi_refs _ _ _ _ _ _ I x nd Ex) as Hr.
  pose proof (accounts _ _ _ _ _ _ _ _ x I Ec) as A. simpl in A. rewrite same_refl in A.
  assert (x ∉ P) as HP by (destruct (inside_cases x P) as [[_ ?]|[? _]]; [lia|done]).
  assert (u32 (freeListRefs nd + SHOULD_BE_ON_FREELIST) = freeListRefs nd + SHOULD_BE_ON_FREELIST) as Hu.
  { apply u32_small. unfold is_u32, SHOULD_BE_ON_FREELIST in *. lia. }
  destruct (Z.eqb_spec (freeListRefs nd) 0) as [Hz|Hz].
  - exists P. apply (FInv_refs _ _ _ _ _ _ _ _ _ _ _ _ _ _ _ _ I Ec Ex); [| | |apply I|done].
    + intros n. balance n x I Ec; lia.
    + intros n Hn. balance n x I Ec; lia.
    + rewrite Hu. balance x x I Ec; lia.
  - exists (P ∪ {[x]}). apply (FInv_refs _ _ _ _ _ _ _ _ _ _ _ _ _ _ _ _ I Ec Ex); [| | |apply I|done].
    + intros n. pose proof (inside_union n P x HP). balance n x I Ec; lia.
    + intros n Hn. pose proof (inside_union n P x HP). balance n x I Ec; lia.
    + pose proof (inside_union x P x HP). rewrite Hu. balance x x I Ec; lia.
Qed.

Lemma FInv_link h m cs out L P i k x head nd :
  FInv h m cs out L P -> cs !! i = Some (KNext k x head) -> m !! x = Some nd ->
  FInv h (<[x := {| freeListRefs := freeListRefs nd; freeListNext := head |}]> m) (<[i := KRefs k x head]> cs) out L P.
Proof.
  intros I Ec Ex. pose proof (accounts _ _ _ _ _ _ _ _ x I Ec) as A. simpl in A. rewrite same_refl in A.
  pose proof (fi_exclusive _ _ _ _ _ _ I x ltac:(lia)) as Hh.
  destruct (fi_knows _ _ _ _ _ _ I _ _ Ec) as [Hk Hv].
  assert (forall k', valid_caller m k' -> valid_caller (<[x := {| freeListRefs := freeListRefs nd; freeListNext := head |}]> m) k') as Hk'
    by (intros []; simpl; [done|apply valid_insert]).
  apply (FInv_step h m cs out L P i (KNext k x head)); try done.
  - intros n. by apply (insert_domain m x nd).
  - intros n nd'. destruct (decide (n = x)) as [->|Hn]; [rewrite lookup_insert_eq; intros [= <-]; exists nd|
      rewrite lookup_insert_ne by done; intros E; exists nd']; (split; [done|simpl; lia]).
  - intros n. pose proof (fi_exclusive _ _ _ _ _ _ I n). simpl. lia.
  - intros n. pose proof (fi_pending _ _ _ _ _ _ I n). simpl. lia.
  - apply chain_insert; [apply I|]. intros nd' _ Hx%occ_elem. lia.
  - simpl. rewrite lookup_insert_eq. split; [by apply Hk'|]. split; [by apply valid_insert|done].
  - intros j d Hij Ed. pose proof (fi_knows _ _ _ _ _ _ I _ _ Ed) as Hd.
    assert (adding x d = 0 /\ exclusive x d = 0 /\ listing x d = 0 /\ holding x d = 0) as (_ & He & Hl & Ho).
    { pose proof (accounts _ _ _ _ _ _ _ _ x I Ed).
      pose proof (total_le_two (exclusive x) cs i j _ d ltac:(intros; apply account_range; auto) eq_refl Hij Ec Ed) as Ht.
      simpl in Ht. rewrite same_refl in Ht. lia. }
    assert (forall y, same x y = 0 -> <[x := {| freeListRefs := freeListRefs nd; freeListNext := head |}]> m !! y = m !! y) as Hne.
    { intros y Hy. destruct (same_cases x y) as [[_ ?]|[? _]]; [lia|]. by rewrite lookup_insert_ne. }
    assert (forall y, is_Some (m !! y) -> is_Some (<[x := {| freeListRefs := freeListRefs nd; freeListNext := head |}]> m !! y)) as Hd'
      by (intros y Hy; by apply (insert_domain m x nd)).
    destruct d; simpl in *; rewrite ?Hne by done; intuition (auto using valid_insert).
  - intros n nd'. destruct (decide (n = x)) as [->|Hn]; [rewrite lookup_insert_eq; intros [= <-]; by apply valid_insert|].
    rewrite lookup_insert_ne by done. intros E. apply valid_insert. by apply (fi_links _ _ _ _ _ _ I n).
Qed.

Lemma FInv_open h m cs out L P i k x head nd :
  FInv h m cs out L P -> cs !! i = Some (KRefs k x head) -> m !! x = Some nd ->
  FInv h (<[x := {| freeListRefs := 1; freeListNext := freeListNext nd |}]> m) (<[i := KCas k x head]> cs) out L P.
Proof.
  intros I Ec Ex. pose proof (fi_refs _ _ _ _ _ _ I x nd Ex) as Hr.
  pose proof (fi_knows _ _ _ _ _ _ I _ _ Ec) as Hk.
  apply (FInv_refs _ _ _ _ _ _ _ _ _ _ _ _ _ _ _ _ I Ec Ex); [| | |apply I|done].
  - intros n. balance n x I Ec; lia.
  - intros n Hn. balance n x I Ec; lia.
  - balance x x I Ec. lia.
Qed.

Lemma FInv_push h m cs out L P i k x :
  FInv h m cs out L P -> cs !! i = Some (KCas k x h) -> FInv x m (<[i := after_resume k]> cs) out (x :: L) P.
Proof.
  intros I Ec. destruct (fi_knows _ _ _ _ _ _ I _ _ Ec) as (Hk & _ & Hx).
  apply (FInv_keep _ _ _ _ _ _ _ _ _ _ _ _ _ I Ec); [| |by apply after_resume_knows].
  - intros n. pose proof (after_resume_accounts k n). pose proof (occ_cons n x L). balance n x I Ec; lia.
  - split; [done|]. destruct (m !! x) as [nd|]; [|done]. simpl in Hx. injection Hx as <-. exists nd. split; [done|apply I].
Qed.

Lemma FInv_push_fails h m cs out L P i k x head :
  FInv h m cs out L P -> cs !! i = Some (KCas k x head) -> FInv h m (<[i := KBack k x h]> cs) out L P.
Proof.
  intros I Ec. destruct (fi_knows _ _ _ _ _ _ I _ _ Ec) as (Hk & _ & Hx).
  apply (FInv_keep _ _ _ _ _ _ _ _ _ _ _ _ _ I Ec); [|apply I|split; [done|by eapply FInv_valid_head]].
  intros n. balance n x I Ec; lia.
Qed.

Lemma FInv_back h m cs out L P i k x head nd :
  FInv h m cs out L P -> cs !! i = Some (KBack k x head) -> m !! x = Some nd ->
  exists P', FInv h (<[x := {| freeListRefs := u32 (freeListRefs nd + (SHOULD_BE_ON_FREELIST - 1)); freeListNext := freeListNext nd |}]> m)
               (<[i := if freeListRefs nd =? 1 then KNext k x head else after_resume k]> cs) out L P'.
Proof.
  intros I Ec Ex. pose proof (fi_refs _ _ _ _ _ _ I x nd Ex) as Hr.
  destruct (fi_knows _ _ _ _ _ _ I _ _ Ec) as [Hk Hv].
  pose proof (accounts _ _ _ _ _ _ _ _ x I Ec) as A. simpl in A. rewrite same_refl in A.
  assert (x ∉ P) as HP by (destruct (inside_cases x P) as [[_ ?]|[? _]]; [lia|done]).
  assert (u32 (freeListRefs nd + (SHOULD_BE_ON_FREELIST - 1)) = freeListRefs nd + (SHOULD_BE_ON_FREELIST - 1)) as ->.
  { apply u32_small. unfold is_u32, SHOULD_BE_ON_FREELIST in *. lia. }
  destruct (Z.eqb_spec (freeListRefs nd) 1) as [Hz|Hz].
  - exists P. apply (FInv_refs _ _ _ _ _ _ _ _ _ _ _ _ _ _ _ _ I Ec Ex); [| | |apply I|done].
    + intros n. balance n x I Ec; lia.
    + intros n Hn. balance n x I Ec; lia.
    + balance x x I Ec; lia.
  - exists (P ∪ {[x]}). apply (FInv_refs _ _ _ _ _ _ _ _ _ _ _ _ _ _ _ _ I Ec Ex); [| | |apply I|by apply after_resume_knows].
    + intros n. pose proof (after_resume_accounts k n). pose proof (inside_union n P x HP). balance n x I Ec; lia.
    + intros n Hn. pose proof (after_resume_accounts k n). pose proof (inside_union n P x HP). balance n x I Ec; lia.
    + pose proof (after_resume_accounts k x). pose proof (inside_union x P x HP). balance x x I Ec; lia.
Qed.

Lemma land_refs_mask r : Z.land r REFS_MASK = r mod 2147483648.
Proof. change REFS_MASK with (Z.ones 31). by rewrite Z.land_ones. Qed.

(** A step of a thread that holds no node and has no duty to one. *)
Lemma FInv_free_move h m cs out L P i c c' :
  FInv h m cs out L P -> cs !! i = Some c ->
  (forall n, holding n c' = holding n c /\ adding n c' = adding n c /\ exclusive n c' = exclusive n c /\ listing n c' = listing n c) ->
  knows m c' -> FInv h m (<[i := c']> cs) out L P.
Proof.
  intros I Ec Ha Hk. apply (FInv_keep _ _ _ _ _ _ _ _ _ _ _ _ _ I Ec); [|apply I|done].
  intros n. specialize (Ha n). pose proof (accounts _ _ _ _ _ _ _ _ n I Ec).
  pose proof (fi_pending _ _ _ _ _ _ I n). pose proof (fi_exclusive _ _ _ _ _ _ I n). unfold balanced, delta. lia.
Qed.

Lemma FInv_acquire h m cs out L P i x refs nd :
  FInv h m cs out L P -> cs !! i = Some (GInc x refs) -> m !! x = Some nd -> freeListRefs nd = refs ->
  FInv h (<[x := {| freeListRefs := u32 (refs + 1); freeListNext := freeListNext nd |}]> m) (<[i := GNext x]> cs) out L P.
Proof.
  intros I Ec Ex Hre. pose proof (fi_refs _ _ _ _ _ _ I x nd Ex) as Hr.
  destruct (fi_knows _ _ _ _ _ _ I _ _ Ec) as [Hk Hm]. rewrite land_refs_mask in Hm.
  pose proof (fi_exclusive _ _ _ _ _ _ I x). pose proof (accounts _ _ _ _ _ _ _ _ x I Ec) as A.
  assert (total (exclusive x) cs = 0) as He.
  { destruct (decide (total (exclusive x) cs = 0)); [done|]. unfold SHOULD_BE_ON_FREELIST in *.
    assert (refs = 2147483648) as Hx by lia. rewrite Hx in Hm. by vm_compute in Hm. }
  assert (u32 (refs + 1) = refs + 1) as ->.
  { apply u32_small. unfold is_u32, SHOULD_BE_ON_FREELIST in *. lia. }
  apply (FInv_refs _ _ _ _ _ _ _ _ _ _ _ _ _ _ _ _ I Ec Ex); [| | |apply I|done].
  - intros n. balance n x I Ec; lia.
  - intros n Hn. balance n x I Ec; lia.
  - balance x x I Ec; lia.
Qed.

Lemma FInv_pop m cs out L P i x next :
  FInv x m cs out L P -> cs !! i = Some (GCas x next) ->
  exists L', L = x :: L' /\ FInv next m (<[i := GAssert x]> cs) out L' P.
Proof.
  intros I Ec. destruct (fi_knows _ _ _ _ _ _ I _ _ Ec) as [Hx Hv]. pose proof (fi_chain _ _ _ _ _ _ I) as Hc.
  destruct L as [|y L]; simpl in Hc; [by rewrite Hc, (fi_null _ _ _ _ _ _ I) in Hx|].
  destruct Hc as [<- (nd & Ex & Hc)]. exists L. split; [done|]. rewrite Ex in Hx. injection Hx as Hx. rewrite Hx in Hc.
  apply (FInv_keep _ _ _ _ _ _ _ _ _ _ _ _ _ I Ec); [|done|by eexists].
  intros n. pose proof (occ_cons n x L). balance n x I Ec; lia.
Qed.

Lemma FInv_pop_fails h m cs out L P i x next :
  FInv h m cs out L P -> cs !! i = Some (GCas x next) -> FInv h m (<[i := GDrop x h]> cs) out L P.
Proof.
  intros I Ec. apply (FInv_free_move _ _ _ _ _ _ _ _ _ I Ec); [done|].
  destruct (fi_knows _ _ _ _ _ _ I _ _ Ec) as [Hx Hv].
  split; [destruct (m !! x); [by eexists|done]|by eapply FInv_valid_head].
Qed.

(** The assertion of [try_get]. *)
Lemma FInv_assertion h m cs out L P i x nd :
  FInv h m cs out L P -> cs !! i = Some (GAssert x) -> m !! x = Some nd -> Z.land (freeListRefs nd) SHOULD_BE_ON_FREELIST = 0.
Proof.
  intros I Ec Ex. pose proof (fi_refs _ _ _ _ _ _ I x nd Ex) as Hr.
  pose proof (accounts _ _ _ _ _ _ _ _ x I Ec) as A. simpl in A. rewrite same_refl in A.
  change SHOULD_BE_ON_FREELIST with (2 ^ 31). rewrite land_pow2 by done. rewrite Z.testbit_eqb by done. rewrite Z.div_small; [done|].
  change (2 ^ 31) with 2147483648. unfold SHOULD_BE_ON_FREELIST in *. lia.
Qed.

Lemma FInv_take h m cs out L P i x nd :
  FInv h m cs out L P -> cs !! i = Some (GTake x) -> m !! x = Some nd ->
  x ∉ out /\
  FInv h (<[x := {| freeListRefs := u32 (freeListRefs nd - 2); freeListNext := freeListNext nd |}]> m)
    (<[i := FIdle]> cs) (out ∪ {[x]}) L P.
Proof.
  intros I Ec Ex. pose proof (fi_refs _ _ _ _ _ _ I x nd Ex) as Hr.
  pose proof (accounts _ _ _ _ _ _ _ _ x I Ec) as A. simpl in A. rewrite same_refl in A.
  assert (x ∉ out) as Ho by (destruct (inside_cases x out) as [[_ ?]|[? _]]; [lia|done]). split; [done|].
  assert (u32 (freeListRefs nd - 2) = freeListRefs nd - 2) as ->.
  { apply u32_small. unfold is_u32, SHOULD_BE_ON_FREELIST in *. lia. }
  apply (FInv_refs _ _ _ _ _ _ _ _ _ _ _ _ _ _ _ _ I Ec Ex); [| | |apply I|done].
  - intros n. pose proof (inside_union n out x Ho). balance n x I Ec; lia.
  - intros n Hn. balance n x I Ec; lia.
  - balance x x I Ec; lia.
Qed.

Lemma FInv_drop h m cs out L P i x head nd :
  FInv h m cs out L P -> cs !! i = Some (GDrop x head) -> m !! x = Some nd ->
  exists P', FInv h (<[x := {| freeListRefs := u32 (freeListRefs nd - 1); freeListNext := freeListNext nd |}]> m)
    (<[i := if freeListRefs nd =? SHOULD_BE_ON_FREELIST + 1 then KHead (FromTryGet head) x else after_loop head]> cs) out L P'.
Proof.
  intros I Ec Ex. pose proof (fi_refs _ _ _ _ _ _ I x nd Ex) as Hr.
  destruct (fi_knows _ _ _ _ _ _ I _ _ Ec) as [_ Hv].
  pose proof (accounts _ _ _ _ _ _ _ _ x I Ec) as A. simpl in A. rewrite same_refl in A.
  pose proof (fi_exclusive _ _ _ _ _ _ I x) as He.
  assert (u32 (freeListRefs nd - 1) = freeListRefs nd - 1) as ->.
  { apply u32_small. unfold is_u32, SHOULD_BE_ON_FREELIST in *. lia. }
  destruct (Z.eqb_spec (freeListRefs nd) (SHOULD_BE_ON_FREELIST + 1)) as [Hz|Hz].
  - assert (x ∈ P) as HP by (unfold SHOULD_BE_ON_FREELIST in *; destruct (inside_cases x P) as [[? _]|[_ ?]]; [done|lia]).
    exists (P ∖ {[x]}). apply (FInv_refs _ _ _ _ _ _ _ _ _ _ _ _ _ _ _ _ I Ec Ex); [| | |apply I|done].
    + intros n. pose proof (inside_difference n P x HP). balance n x I Ec; lia.
    + intros n Hn. pose proof (inside_difference n P x HP). balance n x I Ec; lia.
    + pose proof (inside_difference x P x HP). balance x x I Ec; lia.
  - exists P. apply (FInv_refs _ _ _ _ _ _ _ _ _ _ _ _ _ _ _ _ I Ec Ex); [| | |apply I|by apply after_loop_knows].
    + intros n. pose proof (after_loop_accounts head n). balance n x I Ec; lia.
    + intros n Hn. pose proof (after_loop_accounts head n). balance n x I Ec; lia.
    + pose proof (after_loop_accounts head x). balance x x I Ec; lia.
Qed.

(** ** Runs *)
Definition FInv_state (s : fl_state) (L : list ptr) (P : gset ptr) : Prop :=
  FInv (freeListHead s) (nodes s) (threads s) (outside s) L P.

(** What a step does to the nodes of the callers. *)
Definition hands_out (r : option fl_result) (out out' : gset ptr) : Prop :=
  match r with
  | Some (Got n) => if n =? NULL then out' = out else n ∉ out /\ out' = out ∪ {[n]}
  | _ => out' = out
  end.

Lemma loop_state i head s : (loop i head s).1 = goto i (after_loop head) s.
Proof. unfold loop, after_loop. by destruct (head =? NULL). Qed.

Lemma resume_state i k x s : (resume i k x s).1 = goto i (after_resume k) s.
Proof. destruct k; [done|apply loop_state]. Qed.

Lemma loop_hands i head s out : hands_out (loop i head s).2 out out.
Proof. unfold loop. by destruct (head =? NULL). Qed.

Lemma resume_hands i k x s out : hands_out (resume i k x s).2 out out.
Proof. destruct k; [done|apply loop_hands]. Qed.

(** The node a thread is about to access exists. *)
Lemma duty_placed s L P i c n :
  FInv_state s L P -> threads s !! i = Some c -> 0 < adding n c + exclusive n c + listing n c -> is_Some (nodes s !! n).
Proof.
  intros I Ec Hd. apply (placed _ _ _ _ _ _ n I). pose proof (accounts _ _ _ _ _ _ _ _ n I Ec). lia.
Qed.

Lemma fl_step_defined s L P i c :
  FInv_state s L P -> threads s !! i = Some c -> c <> FIdle -> is_Some (fl_step i s).
Proof.
  intros I Ec Hc. pose proof (fi_knows _ _ _ _ _ _ I i c Ec) as Hk.
  assert (forall n, 0 < adding n c + exclusive n c + listing n c -> is_Some (nodes s !! n)) as Hd by (intros n; by apply (duty_placed s L P i c)).
  unfold fl_step. rewrite Ec. simpl. destruct c; try done; try (destruct (freeListHead s =? _); by eexists); simpl in Hk.
  all: try (destruct (Hd node) as [nd ->]; [simpl; rewrite same_refl; lia|]; simpl; repeat case_match; by eexists).
  all: try (destruct Hk as [nd E]; rewrite E; simpl; repeat case_match; by eexists).
  - destruct Hk as [[nd ->] _]. simpl. case_match; by eexists.
  - destruct Hk as [nd E]. rewrite E. simpl. rewrite (FInv_assertion _ _ _ _ _ _ _ _ _ I Ec E). by eexists.
  - destruct Hk as [[nd ->] _]. simpl. case_match; by eexists.
Qed.

Lemma fl_inv_step s L P i s' r :
  FInv_state s L P -> fl_step i s = Some (s', r) ->
  exists L' P', FInv_state s' L' P' /\ hands_out r (outside s) (outside s').
Proof.
  intros I Hs. unfold fl_step in Hs. destruct (threads s !! i) as [c|] eqn:Ec; [|done]. simpl in Hs.
  destruct c; simpl in Hs; try (destruct (nodes s !! _) as [nd|] eqn:Ex; [|done]; simpl in Hs).
  - done.
  - destruct (FInv_announce _ _ _ _ _ _ _ _ _ I Ec Ex) as [P' I']. exists L, P'.
    destruct (freeListRefs nd =? 0); injection Hs as <- <-; by split.
  - injection Hs as <- <-. exists L, P. split; [|done]. apply (FInv_free_move _ _ _ _ _ _ _ _ _ I Ec); [done|].
    split; [apply (fi_knows _ _ _ _ _ _ I _ _ Ec)|by eapply FInv_valid_head].
  - injection Hs as <- <-. exists L, P. split; [|done]. by apply (FInv_link _ _ _ _ _ _ _ _ _ _ _ I Ec Ex).
  - injection Hs as <- <-. exists L, P. split; [|done]. by apply (FInv_open _ _ _ _ _ _ _ _ _ _ _ I Ec Ex).
  - destruct (Z.eqb_spec (freeListHead s) head) as [<-|Hh].
    + injection Hs as Hs. rewrite (surjective_pairing (resume _ _ _ _)), resume_state in Hs. injection Hs as <- <-.
      exists (node :: L), P. split; [by apply (FInv_push (freeListHead s))|apply resume_hands].
    + injection Hs as <- <-. exists L, P. split; [|done]. by eapply FInv_push_fails.
  - destruct (FInv_back _ _ _ _ _ _ _ _ _ _ _ I Ec Ex) as [P' I']. exists L, P'.
    destruct (freeListRefs nd =? 1); [by injection Hs as <- <-|].
    injection Hs as Hs. rewrite (surjective_pairing (resume _ _ _ _)), resume_state in Hs. injection Hs as <- <-. split; [done|apply resume_hands].
  - injection Hs as Hs. rewrite (surjective_pairing (loop _ _ _)), loop_state in Hs. injection Hs as <- <-.
    exists L, P. split; [|apply loop_hands]. apply (FInv_free_move _ _ _ _ _ _ _ _ _ I Ec); [intros n; apply after_loop_accounts|].
    apply after_loop_knows. by eapply FInv_valid_head.
  - destruct (Z.eqb_spec (Z.land (freeListRefs nd) REFS_MASK) 0) as [Hz|Hz]; injection Hs as <- <-; exists L, P; (split; [|done]).
    + by apply (FInv_free_move _ _ _ _ _ _ _ _ _ I Ec).
    + apply (FInv_free_move _ _ _ _ _ _ _ _ _ I Ec); [done|]. split; [by eexists|done].
  - destruct (Z.eqb_spec (freeListRefs nd) refs) as [Hz|Hz]; injection Hs as <- <-; exists L, P; (split; [|done]).
    + by apply (FInv_acquire _ _ _ _ _ _ _ _ _ _ I Ec Ex).
    + by apply (FInv_free_move _ _ _ _ _ _ _ _ _ I Ec).
  - injection Hs as <- <-. exists L, P. split; [|done]. apply (FInv_free_move _ _ _ _ _ _ _ _ _ I Ec); [done|].
    simpl. rewrite Ex. split; [done|]. by apply (fi_links _ _ _ _ _ _ I head).
  - destruct (Z.eqb_spec (freeListHead s) head) as [<-|Hh]; injection Hs as <- <-.
    + destruct (FInv_pop _ _ _ _ _ _ _ _ I Ec) as (L' & _ & I'). by exists L', P.
    + exists L, P. split; [|done]. by eapply FInv_pop_fails.
  - destruct (_ =? 0); [|done]. injection Hs as <- <-. exists L, P. split; [|done].
    apply (FInv_free_move _ _ _ _ _ _ _ _ _ I Ec); [done|by eexists].
  - injection Hs as <- <-. exists L, P. destruct (FInv_take _ _ _ _ _ _ _ _ _ I Ec Ex) as [Ho I']. split; [done|].
    simpl. destruct (Z.eqb_spec head NULL) as [->|Hn]; [|done]. by rewrite (fi_null _ _ _ _ _ _ I) in Ex.
  - destruct (FInv_drop _ _ _ _ _ _ _ _ _ _ I Ec Ex) as [P' I']. exists L, P'.
    destruct (_ =? _); [by injection Hs as <- <-|].
    injection Hs as Hs. rewrite (surjective_pairing (loop _ _ _)), loop_state in Hs. injection Hs as <- <-. split; [done|apply loop_hands].
Qed.

Lemma FInv_idle_call s L P i c' :
  FInv_state s L P -> threads s !! i = Some FIdle -> c' = GHead -> FInv_state (goto i c' s) L P.
Proof. intros I Ec ->. by apply (FInv_free_move _ _ _ _ _ _ _ _ _ I Ec). Qed.

Lemma FInv_give s L P i x :
  FInv_state s L P -> threads s !! i = Some FIdle -> x ∈ outside s ->
  FInv_state (goto i (AFetch x) (set_outside (outside s ∖ {[x]}) s)) L P.
Proof.
  intros I Ec Hx. apply (FInv_keep _ _ _ _ _ _ _ _ _ _ _ _ _ I Ec); [|apply I|done].
  intros n. pose proof (inside_difference n (outside s) x Hx). balance n x I Ec; lia.
Qed.

Lemma fl_inv_next e s L P s' r :
  FInv_state s L P -> fl_next e s = Some (s', r) ->
  exists L' P', FInv_state s' L' P' /\
    match e with
    | FlAdd _ n => r = None /\ n ∈ outside s /\ outside s' = outside s ∖ {[n]}
    | _ => hands_out r (outside s) (outside s')
    end.
Proof.
  intros I Hn. destruct e as [i x|i|i]; simpl in Hn; [| |by eapply fl_inv_step];
    destruct (threads s !! i) as [[]|] eqn:Ec; try done.
  - destruct (bool_decide_reflect (x ∈ outside s)) as [Hx|Hx]; [|done]. injection Hn as <- <-. exists L, P.
    split; [by apply FInv_give|done].
  - injection Hn as <- <-. exists L, P. split; [by apply FInv_idle_call|done].
Qed.

(** Steps neither make nor lose nodes. *)
Lemma set_refs_nodes n nd r s : nodes s !! n = Some nd -> dom (nodes (set_refs n nd r s)) = dom (nodes s).
Proof. intros E. simpl. by apply dom_insert_lookup_L. Qed.

Lemma loop_nodes i h s : nodes (loop i h s).1 = nodes s.
Proof. by rewrite loop_state. Qed.
Lemma resume_nodes i k n s : nodes (resume i k n s).1 = nodes s.
Proof. by rewrite resume_state. Qed.

Lemma fl_next_nodes e s s' r : fl_next e s = Some (s', r) -> dom (nodes s') = dom (nodes s).
Proof.
  destruct e as [i x|i|i]; simpl; [repeat case_match; by intros [= <- <-]..|].
  unfold fl_step. destruct (threads s !! i) as [c|]; [|done]. simpl.
  destruct c; simpl; try (destruct (nodes s !! _) as [nd|] eqn:Ex; [|done]; simpl); repeat case_match; try done;
    intros Hs; injection Hs as Hs.
  all: try (subst; simpl; by rewrite ?dom_insert_lookup_L by done).
  all: apply (f_equal fst) in Hs; simpl in Hs; rewrite <- Hs, ?loop_nodes, ?resume_nodes; simpl; by rewrite ?dom_insert_lookup_L by done.
Qed.

Lemma fl_inv_run es : forall s L P s' rs,
  FInv_state s L P -> fl_run es s = Some (s', rs) -> exists L' P', FInv_state s' L' P' /\ dom (nodes s') = dom (nodes s).
Proof.
  induction es as [|e es IH]; intros s L P s' rs I Hr; simpl in Hr; [injection Hr as <- <-; by exists L, P|].
  destruct (fl_next e s) as [[s1 r]|] eqn:E; [|done]. simpl in Hr.
  destruct (fl_run es s1) as [[s2 rs2]|] eqn:E2; [|done]. simpl in Hr. injection Hr as <- <-.
  destruct (fl_inv_next _ _ _ _ _ _ I E) as (L1 & P1 & I1 & _). destruct (IH _ _ _ _ _ I1 E2) as (L2 & P2 & I2 & Hd).
  exists L2, P2. split; [done|]. by rewrite Hd, (fl_next_nodes _ _ _ _ E).
Qed.

Lemma total_idle f k : f FIdle = 0 -> total f (replicate k FIdle) = 0.
Proof. intros Hf. induction k as [|k IH]; [done|]. unfold total in *. simpl. lia. Qed.

Lemma fl_inv_initial blocks k :
  NULL ∉ blocks -> Z.of_nat k < 2147483647 -> FInv_state (fl_initial blocks k) [] ∅.
Proof.
  intros Hn Hk. constructor; simpl; rewrite ?length_replicate; try done; try (intros n; rewrite ?total_idle by done).
  - unfold inside. rewrite (bool_decide_eq_false_2 (n ∈ ∅)) by set_solver. simpl.
    rewrite lookup_gset_to_gmap. destruct (decide (n ∈ blocks)) as [Hb|Hb].
    + rewrite option_guard_True by done. rewrite !bool_decide_eq_true_2; try done; by eexists.
    + rewrite option_guard_False by done. rewrite !bool_decide_eq_false_2; first [done|by intros []].
  - intros nd. rewrite lookup_gset_to_gmap_Some. intros [Hb <-]. unfold inside.
    by rewrite (bool_decide_eq_false_2 (n ∈ ∅)) by set_solver.
  - lia.
  - intros c. intros [-> _]%lookup_replicate. done.
  - intros nd. rewrite lookup_gset_to_gmap_Some. intros [Hb <-]. by intros ?.
  - rewrite lookup_gset_to_gmap_None. done.
Qed.

(** ** The theorems *)
Definition fl_idle (s : fl_state) : Prop := forall i c, threads s !! i = Some c -> c = FIdle.

Lemma fl_run_inv blocks k es s rs :
  NULL ∉ blocks -> Z.of_nat k < 2147483647 -> fl_run es (fl_initial blocks k) = Some (s, rs) ->
  exists L P, FInv_state s L P /\ forall n, is_Some (nodes s !! n) <-> n ∈ blocks.
Proof.
  intros Hn Hk Hr. destruct (fl_inv_run _ _ _ _ _ _ (fl_inv_initial blocks k Hn Hk) Hr) as (L & P & I & Hd).
  exists L, P. split; [done|]. intros n. rewrite <- elem_of_dom, Hd. simpl. by rewrite dom_gset_to_gmap.
Qed.

(** C16. The free list under any interleaving of any number of threads that add
    only nodes that belong to them: no thread follows a pointer to nothing, the
    assertion in [try_get] holds, and a node that [try_get] returns belongs to
    nobody else at that moment. *)
Theorem freelist_safe blocks k es s rs :
  NULL ∉ blocks -> Z.of_nat k < 2147483647 -> fl_run es (fl_initial blocks k) = Some (s, rs) ->
  (forall i c, threads s !! i = Some c -> c <> FIdle -> is_Some (fl_step i s)) /\
  (forall i s' n, fl_step i s = Some (s', Some (Got n)) -> n <> NULL ->
     n ∈ blocks /\ n ∉ outside s /\ outside s' = outside s ∪ {[n]}).
Proof.
  intros Hn Hk Hr. destruct (fl_run_inv _ _ _ _ _ Hn Hk Hr) as (L & P & I & Hd). split.
  - intros i c Ec Hc. by apply (fl_step_defined s L P i c).
  - intros i s' n Hs Hnn. destruct (fl_inv_step _ _ _ _ _ _ I Hs) as (L' & P' & I' & Hh). simpl in Hh.
    rewrite (proj2 (Z.eqb_neq n NULL) Hnn) in Hh. destruct Hh as [Ho Ho']. split; [|done].
    apply Hd. assert (dom (nodes s') = dom (nodes s)) as Hdom by (by apply (fl_next_nodes (FlStep i) s s' (Some (Got n)))).
    apply elem_of_dom. rewrite <- Hdom. apply elem_of_dom. apply (outside_placed _ _ _ _ _ _ n I'). set_solver.
Qed.

Lemma total_all_idle f cs : (forall i c, cs !! i = Some c -> c = FIdle) -> f FIdle = 0 -> total f cs = 0.
Proof.
  intros Hi Hf. induction cs as [|c cs IH]; [done|]. unfold total in *. simpl.
  rewrite (Hi 0%nat c), IH by (try done; intros i c'; apply (Hi (S i))). lia.
Qed.

(** A list between operations. *)
Definition at_rest (s : fl_state) (L : list ptr) : Prop :=
  chain (nodes s) (freeListHead s) L /\ NoDup L /\
  (forall n, is_Some (nodes s !! n) <-> n ∈ L \/ n ∈ outside s) /\ (forall n, n ∈ L -> n ∉ outside s) /\
  (forall n nd, nodes s !! n = Some nd -> freeListRefs nd = if decide (n ∈ L) then 1 else 0) /\
  nodes s !! NULL = None.

Lemma idle_at_rest s L P : FInv_state s L P -> fl_idle s -> at_rest s L.
Proof.
  intros I Hi. assert (forall f, f FIdle = 0 -> total f (threads s) = 0) as Ht by (intros; by apply total_all_idle).
  assert (forall n, inside n P = 0) as HP.
  { intros n. destruct (inside_cases n P) as [[_ Hp]|[_ ?]]; [|done].
    pose proof (fi_pending _ _ _ _ _ _ I n ltac:(lia)) as Hh. rewrite Ht in Hh by done. lia. }
  assert (forall n, occ n L + inside n (outside s) = c_bool (bool_decide (is_Some (nodes s !! n)))) as Hp.
  { intros n. rewrite <- (fi_place _ _ _ _ _ _ I n), !Ht, HP by done. lia. }
  assert (forall n, occ n L <= 1 /\ (0 < occ n L -> n ∉ outside s)) as Ho.
  { intros n. specialize (Hp n). destruct (inside_cases n (outside s)) as [[? E]|[? E]], (bool_decide _); simpl in Hp; (split; [lia|intros; try done; lia]). }
  split; [apply I|]. split; [apply occ_nodup; intros n; apply Ho|]. split; [|split; [|split; [|apply I]]].
  - intros n. specialize (Hp n). destruct (bool_decide_reflect (is_Some (nodes s !! n))) as [Hn|Hn]; simpl in Hp; (split; [|]).
    + intros _. destruct (inside_cases n (outside s)) as [[? E]|[? E]]; [by right|]. left.
      destruct (decide (n ∈ L)) as [|Hx%occ_not_elem]; [done|lia].
    + done.
    + done.
    + intros [Hx%occ_elem|Hx]; [|]; destruct (inside_cases n (outside s)) as [[? E]|[? E]]; try done; pose proof (occ_nonneg n L); lia.
  - intros n Hx%occ_elem. by apply Ho.
  - intros n nd E. rewrite (fi_refs _ _ _ _ _ _ I n nd E), !Ht, HP by done. destruct (decide (n ∈ L)) as [Hx|Hx].
    + apply occ_elem in Hx. destruct (Ho n). lia.
    + rewrite occ_not_elem by done. done.
Qed.

(** C19. Whenever no operation on the free list is under way, no node has been
    lost or duplicated: the list from the head on has no cycle, and each node is
    either on it, with a count of one, or belongs to a caller, with a count of
    zero, which is what [add] needs. *)
Theorem freelist_conserves blocks k es s rs :
  NULL ∉ blocks -> Z.of_nat k < 2147483647 -> fl_run es (fl_initial blocks k) = Some (s, rs) -> fl_idle s ->
  exists L, chain (nodes s) (freeListHead s) L /\ NoDup L /\
    (forall n, n ∈ blocks <-> n ∈ L \/ n ∈ outside s) /\ (forall n, n ∈ L -> n ∉ outside s) /\
    (forall n nd, nodes s !! n = Some nd -> freeListRefs nd = if decide (n ∈ L) then 1 else 0).
Proof.
  intros Hn Hk Hr Hi. destruct (fl_run_inv _ _ _ _ _ Hn Hk Hr) as (L & P & I & Hd).
  destruct (idle_at_rest _ _ _ I Hi) as (Hc & Hnd & Hp & Ho & Hre & _). exists L. repeat split; try done.
  - intros Hb%Hd. by apply Hp.
  - intros Hx. apply Hd. by apply Hp.
Qed.

(** *** A thread alone *)
Lemma fl_run_step i es s s1 s2 r rs :
  fl_step i s = Some (s1, r) -> fl_run es s1 = Some (s2, rs) -> fl_run (FlStep i :: es) s = Some (s2, option_list r ++ rs).
Proof. intros Hs Hr. simpl. rewrite Hs. simpl. by rewrite Hr. Qed.

(** Thread [i] stands at [c]. *)
Definition fl_at (s : fl_state) (i : nat) (c : fl_pc) (h : ptr) (m : gmap ptr fl_node) (out : gset ptr) : fl_state :=
  {| freeListHead := h; nodes := m; threads := <[i := c]> (threads s); outside := out |}.

Lemma fl_at_lookup s i c h m out : (i < length (threads s))%nat -> threads (fl_at s i c h m out) !! i = Some c.
Proof. intros Hi. by apply list_lookup_insert_eq. Qed.

Lemma fl_at_goto s i c c' h m out : goto i c' (fl_at s i c h m out) = fl_at s i c' h m out.
Proof. unfold goto, fl_at. simpl. by rewrite list_insert_insert_eq. Qed.

Lemma fl_at_idle s i h m out : fl_idle s -> fl_idle (fl_at s i FIdle h m out).
Proof.
  intros Hi j c. simpl. destruct (decide (i = j)) as [<-|Hj].
  - destruct (decide (i < length (threads s))%nat); [rewrite list_lookup_insert_eq by done; by intros [= <-]|].
    rewrite list_insert_ge by lia. apply Hi.
  - rewrite list_lookup_insert_ne by done. apply Hi.
Qed.

Lemma alone_goto s i c c' h m out s1 (r : option fl_result) :
  freeListHead s1 = h -> nodes s1 = m -> threads s1 = <[i := c]> (threads s) -> outside s1 = out ->
  Some (goto i c' s1, r) = Some (fl_at s i c' h m out, r).
Proof. intros <- <- Ht <-. unfold goto, fl_at. by rewrite Ht, list_insert_insert_eq. Qed.

(** A step of a thread alone that brings it to [c]. *)
Ltac alone_step s i c h m out :=
  eapply (fl_run_step i _ _ (fl_at s i c h m out) _ None); [unfold fl_step; rewrite fl_at_lookup by done; simpl|].

Lemma alone_get s x L i :
  at_rest s (x :: L) -> fl_idle s -> (i < length (threads s))%nat ->
  exists s', fl_run (FlTryGet i :: replicate 7 (FlStep i)) s = Some (s', [Got x]) /\
    chain (nodes s') (freeListHead s') L /\ outside s' = outside s ∪ {[x]} /\ fl_idle s'.
Proof.
  intros (Hc & Hnd & Hp & Ho & Hre & Hnull) Hi Hlt. destruct Hc as [Hh (nd & Ex & Hc)].
  apply NoDup_cons in Hnd as [Hx Hnd].
  assert (x <> NULL) as Hxn by (intros ->; by rewrite Hnull in Ex).
  pose proof (Hre x nd Ex) as Hr. rewrite decide_True in Hr by by left.
  set (m1 := <[x := {| freeListRefs := 2; freeListNext := freeListNext nd |}]> (nodes s)).
  set (m2 := <[x := {| freeListRefs := 0; freeListNext := freeListNext nd |}]> m1).
  assert (threads s !! i = Some FIdle) as Ec.
  { destruct (lookup_lt_is_Some_2 _ _ Hlt) as [c Ec]. by rewrite Ec, (Hi i c Ec). }
  assert (m1 !! x = Some {| freeListRefs := 2; freeListNext := freeListNext nd |}) as E1 by apply lookup_insert_eq.
  exists (fl_at s i FIdle (freeListNext nd) m2 (outside s ∪ {[x]})). split; [|split; [|split; [done|by apply fl_at_idle]]].
  - assert (forall es r, fl_run es (fl_at s i GHead x (nodes s) (outside s)) = r -> fl_run (FlTryGet i :: es) s = r) as Hd.
    { intros es r <-. simpl. rewrite Ec. simpl. unfold goto, fl_at. rewrite Hh. by destruct (fl_run es _) as [[]|]. }
    apply Hd. simpl replicate.
    alone_step s i (GRefs x) x (nodes s) (outside s); [unfold loop; by rewrite (proj2 (Z.eqb_neq x NULL) Hxn), fl_at_goto|].
    alone_step s i (GInc x 1) x (nodes s) (outside s); [rewrite Ex; simpl; by rewrite Hr, !fl_at_goto|].
    alone_step s i (GNext x) x m1 (outside s); [rewrite Ex; simpl; rewrite Hr; by eapply alone_goto|].
    alone_step s i (GCas x (freeListNext nd)) x m1 (outside s); [rewrite E1; simpl; by rewrite fl_at_goto|].
    alone_step s i (GAssert x) (freeListNext nd) m1 (outside s); [rewrite Z.eqb_refl; by eapply alone_goto|].
    alone_step s i (GTake x) (freeListNext nd) m1 (outside s); [rewrite E1; simpl; by rewrite fl_at_goto|].
    eapply (fl_run_step _ _ _ _ _ (Some _)); [|done].
    unfold fl_step; rewrite fl_at_lookup by done; simpl; rewrite E1; simpl. by eapply alone_goto.
  - simpl. apply chain_insert; [apply chain_insert; [done|]|]; by intros.
Qed.

Lemma alone_add s x L i :
  at_rest s L -> fl_idle s -> (i < length (threads s))%nat -> x ∈ outside s ->
  exists s', fl_run (FlAdd i x :: replicate 5 (FlStep i)) s = Some (s', [Added x]) /\
    chain (nodes s') (freeListHead s') (x :: L) /\ outside s' = outside s ∖ {[x]} /\ fl_idle s'.
Proof.
  intros (Hc & Hnd & Hp & Ho & Hre & Hnull) Hi Hlt Hx.
  assert (x ∉ L) as HxL by (intros Hx'; by apply (Ho x)).
  destruct (proj2 (Hp x) (or_intror Hx)) as [nd Ex].
  pose proof (Hre x nd Ex) as Hr. rewrite decide_False in Hr by done.
  set (h := freeListHead s).
  set (m1 := <[x := {| freeListRefs := SHOULD_BE_ON_FREELIST; freeListNext := freeListNext nd |}]> (nodes s)).
  set (m2 := <[x := {| freeListRefs := SHOULD_BE_ON_FREELIST; freeListNext := h |}]> m1).
  set (m3 := <[x := {| freeListRefs := 1; freeListNext := h |}]> m2).
  assert (threads s !! i = Some FIdle) as Ec.
  { destruct (lookup_lt_is_Some_2 _ _ Hlt) as [c Ec]. by rewrite Ec, (Hi i c Ec). }
  assert (m1 !! x = Some {| freeListRefs := SHOULD_BE_ON_FREELIST; freeListNext := freeListNext nd |}) as E1 by apply lookup_insert_eq.
  assert (m2 !! x = Some {| freeListRefs := SHOULD_BE_ON_FREELIST; freeListNext := h |}) as E2 by apply lookup_insert_eq.
  exists (fl_at s i FIdle x m3 (outside s ∖ {[x]})). split; [|split; [|split; [done|by apply fl_at_idle]]].
  - assert (forall es r, fl_run es (fl_at s i (AFetch x) h (nodes s) (outside s ∖ {[x]})) = r -> fl_run (FlAdd i x :: es) s = r) as Hd.
    { intros es r <-. simpl. rewrite Ec, bool_decide_eq_true_2 by done. simpl. unfold goto, fl_at. by destruct (fl_run es _) as [[]|]. }
    apply Hd. simpl replicate.
    alone_step s i (KHead FromAdd x) h m1 (outside s ∖ {[x]}); [rewrite Ex; simpl; rewrite Hr; by eapply alone_goto|].
    alone_step s i (KNext FromAdd x h) h m1 (outside s ∖ {[x]}); [by eapply alone_goto|].
    alone_step s i (KRefs FromAdd x h) h m2 (outside s ∖ {[x]}); [rewrite E1; simpl; by eapply alone_goto|].
    alone_step s i (KCas FromAdd x h) h m3 (outside s ∖ {[x]}); [rewrite E2; simpl; by eapply alone_goto|].
    eapply (fl_run_step _ _ _ _ _ (Some _)); [|done].
    unfold fl_step; rewrite fl_at_lookup by done; simpl; rewrite Z.eqb_refl. by eapply alone_goto.
  - split; [done|]. exists {| freeListRefs := 1; freeListNext := h |}. simpl. split; [by apply lookup_insert_eq|].
    apply chain_insert; [apply chain_insert; [apply chain_insert; [done|]|]|]; by intros.
Qed.

(** A thread that is alone uses the list as a stack: [try_get] returns the
    first node in seven steps, or [nullptr] in one step if there is none, and
    [add] puts its node in front in five steps. *)
Theorem freelist_stack blocks k es s rs i :
  NULL ∉ blocks -> Z.of_nat k < 2147483647 -> fl_run es (fl_initial blocks k) = Some (s, rs) -> fl_idle s ->
  (i < length (threads s))%nat ->
  exists L, chain (nodes s) (freeListHead s) L /\
    match L with
    | [] => fl_run [FlTryGet i; FlStep i] s = Some (s, [Got NULL])
    | x :: L' => exists s', fl_run (FlTryGet i :: replicate 7 (FlStep i)) s = Some (s', [Got x]) /\
        chain (nodes s') (freeListHead s') L' /\ outside s' = outside s ∪ {[x]} /\ fl_idle s'
    end /\
    (forall x, x ∈ outside s ->
       exists s', fl_run (FlAdd i x :: replicate 5 (FlStep i)) s = Some (s', [Added x]) /\
         chain (nodes s') (freeListHead s') (x :: L) /\ outside s' = outside s ∖ {[x]} /\ fl_idle s').
Proof.
  intros Hn Hk Hr Hi Hlt. destruct (fl_run_inv _ _ _ _ _ Hn Hk Hr) as (L & P & I & _).
  pose proof (idle_at_rest _ _ _ I Hi) as Ha. exists L. split; [apply Ha|].
  split; [|intros x Hx; by apply alone_add].
  destruct L as [|x L]; [|by apply alone_get].
  destruct Ha as [Hh _]. simpl in Hh. destruct (lookup_lt_is_Some_2 _ _ Hlt) as [c Ec]. rewrite (Hi i c Ec) in Ec.
  simpl. rewrite Ec. simpl. unfold fl_step. simpl. rewrite list_lookup_insert_eq by done. simpl.
  unfold loop. rewrite Hh. simpl. unfold goto. simpl. rewrite list_insert_insert_eq, list_insert_id by done.
  rewrite <- Hh. by destruct s.
Qed.

(** ** Witnesses

    Two threads take the only node of the list at the same time; the one that
    comes too late drops its reference after the other has added the node again,
    and puts the node on the list in its place. *)
Definition race : list fl_event :=
  [FlAdd 0 96] ++ replicate 5 (FlStep 0) ++
  [FlTryGet 0; FlTryGet 1] ++ replicate 4 (FlStep 1) ++ replicate 7 (FlStep 0) ++
  [FlAdd 0 96; FlStep 0] ++ replicate 6 (FlStep 1).

Definition race_state : fl_state :=
  match fl_run race (fl_initial {[ 96; 160 ]} 2) with Some (s, _) => s | None => fl_initial ∅ 0 end.

Lemma race_runs : fl_run race (fl_initial {[ 96; 160 ]} 2) = Some (race_state, [Added 96; Got 96; Added 96; Got NULL]).
Proof. by vm_compute. Qed.

Lemma race_threads : threads race_state = [FIdle; FIdle].
Proof. by vm_compute. Qed.

Lemma race_idle : fl_idle race_state.
Proof. intros i c Ec. rewrite race_threads in Ec. destruct i as [|[|i]]; simplify_eq/=; done. Qed.

Lemma race_blocks : NULL ∉ ({[ 96; 160 ]} : gset ptr).
Proof. by rewrite elem_of_union, !elem_of_singleton; intros []. Qed.

Lemma race_chain L : chain (nodes race_state) (freeListHead race_state) L -> L = [96].
Proof.
  assert (freeListHead race_state = 96 /\ nodes race_state !! (96 : ptr) = Some {| freeListRefs := 1; freeListNext := NULL |}) as [Hh Hm] by by vm_compute.
  rewrite Hh. destruct L as [|x [|y L]]; simpl.
  - done.
  - by intros [<- _].
  - intros [<- (nd & E & <- & nd' & E' & _)]. rewrite Hm in E. injection E as <-. by vm_compute in E'.
Qed.

(** In the middle of the race: thread 1 is about to exchange the head, thread 0 has
    just read it. *)
Definition half_state : fl_state :=
  match fl_run (take 13 race) (fl_initial {[ 96; 160 ]} 2) with Some (s, _) => s | None => fl_initial ∅ 0 end.

Lemma half_runs : fl_run (take 13 race) (fl_initial {[ 96; 160 ]} 2) = Some (half_state, [Added 96]).
Proof. by vm_compute. Qed.

Lemma freelist_safe_witness :
  is_Some (fl_step 0 half_state) /\ is_Some (fl_step 1 half_state).
Proof.
  destruct (freelist_safe {[ 96; 160 ]} 2 (take 13 race) half_state [Added 96] race_blocks eq_refl half_runs) as [Hs _].
  assert (threads half_state = [GRefs 96; GCas 96 NULL]) as Ht by by vm_compute.
  split; [apply (Hs 0%nat (GRefs 96))|apply (Hs 1%nat (GCas 96 NULL))]; by rewrite ?Ht.
Defined.

Lemma freelist_conserves_witness :
  exists L, chain (nodes race_state) (freeListHead race_state) L /\ NoDup L /\ 96 ∈ L /\ 160 ∉ L.
Proof.
  destruct (freelist_conserves {[ 96; 160 ]} 2 race race_state _ race_blocks eq_refl race_runs race_idle) as (L & Hc & Hd & _ & Ho & _).
  exists L. split; [exact Hc|]. split; [exact Hd|]. rewrite (race_chain L Hc) in *. split; [by left|].
  intros Hx. apply (Ho 160); [done|]. by vm_compute.
Defined.

Lemma freelist_stack_witness :
  exists s', fl_run (FlTryGet 1 :: replicate 7 (FlStep 1)) race_state = Some (s', [Got 96]) /\ freeListHead s' = NULL.
Proof.
  destruct (freelist_stack {[ 96; 160 ]} 2 race race_state _ 1 race_blocks eq_refl race_runs race_idle) as (L & Hc & Hg & _);
    [rewrite race_threads; simpl; lia|].
  rewrite (race_chain L Hc) in Hg. destruct Hg as (s' & Hr & Hn & _). exists s'. split; [exact Hr|exact Hn].
Defined.
