(* ===== verification/BlockIndex.v ===== *)
(** * The block index of a producer (src/lib/concurrentqueue/concurrentqueue.h, ImplicitProducer)

    A sub-queue of the multi-producer queue keeps its elements in blocks of
    [BLOCK_SIZE].  The block index leads from the index of an element to its
    block: a ring of entries, each with the first index of a block as its key and
    the block as its value, where [tail] is the entry of the newest block.  When
    the ring is full the producer makes a ring of twice the capacity, which
    shares the entries of the old one; consumers may still be looking at old
    rings, which stay allocated.

    This file has the operations on the index and the laws of a single ring; the
    threads that use it are in Storage.v. *)
From S2P Require Import Prelude Mpmc.

Definition INVALID_BLOCK_BASE : Z := 1.
Definition IMPLICIT_INITIAL_INDEX_SIZE : Z := 32.

(** [BlockIndexEntry].  [None]: the value of a new entry is not initialised. *)
Record entry := { key : Z; value : option ptr }.

(** [BlockIndexHeader]; the entries of the array [index] by their position in
    [entries] below, the previous header by its position in [headers]. *)
Record header := { capacity : Z; tail : Z; index : list nat; prev : option nat }.

(** The headers and the entries a producer has allocated, and its members
    [blockIndex] and [nextBlockIndexCapacity]. *)
Record block_index := {
  headers : list header;
  entries : list entry;
  blockIndex : option nat;
  nextBlockIndexCapacity : Z
}.

Definition no_index : block_index :=
  {| headers := []; entries := []; blockIndex := None; nextBlockIndexCapacity := IMPLICIT_INITIAL_INDEX_SIZE |}.

Definition set_tail (p : Z) (hd : header) : header := 
  {| capacity := capacity hd; tail := p; index := index hd; prev := prev hd |}.
Definition set_key (b : Z) (e : entry) : entry := {| key := b; value := value e |}.
Definition set_value (v : ptr) (e : entry) : entry := {| key := key e; value := Some v |}.

Definition store_tail (n : nat) (p : Z) (x : block_index) : block_index :=
  {| headers := alter (set_tail p) n (headers x); entries := entries x; blockIndex := blockIndex x;
     nextBlockIndexCapacity := nextBlockIndexCapacity x |}.
Definition store_key (id : nat) (b : Z) (x : block_index) : block_index :=
  {| headers := headers x; entries := alter (set_key b) id (entries x); blockIndex := blockIndex x;
     nextBlockIndexCapacity := nextBlockIndexCapacity x |}.
Definition store_value (id : nat) (v : ptr) (x : block_index) : block_index :=
  {| headers := headers x; entries := alter (set_value v) id (entries x); blockIndex := blockIndex x;
     nextBlockIndexCapacity := nextBlockIndexCapacity x |}.

(** The loop of [new_block_index] over the entries of the previous ring, from the
    oldest to the newest one. *)
Fixpoint rotate (fuel : nat) (prev : header) (prevPos : Z) : option (list nat) :=
  match fuel with
  | O => None
  | S fuel =>
      let prevPos := Z.land (u64 (prevPos + 1)) (u64 (capacity prev - 1)) in
      id ← index prev !! Z.to_nat prevPos;
      if prevPos =? tail prev then Some [id]
      else rest ← rotate fuel prev prevPos; Some (id :: rest)
  end.

(** [new_block_index] when the allocation succeeds. *)
Definition new_block_index (x : block_index) : option block_index :=
  previous ← match blockIndex x with
             | None => Some None
             | Some n => hd ← headers x !! n; Some (Some hd)
             end;
  let prevCapacity := match previous with None => 0 | Some hd => capacity hd end in
  let entryCount := match previous with None => nextBlockIndexCapacity x | Some _ => prevCapacity end in
  old ← match previous with None => Some [] | Some hd => rotate (Z.to_nat (capacity hd)) hd (tail hd) end;
  Some {| headers := headers x ++
            [{| capacity := nextBlockIndexCapacity x;
                tail := Z.land (u64 (prevCapacity - 1)) (u64 (nextBlockIndexCapacity x - 1));
                index := old ++ seq (length (entries x)) (Z.to_nat entryCount);
                prev := blockIndex x |}];
          entries := entries x ++ replicate (Z.to_nat entryCount) {| key := INVALID_BLOCK_BASE; value := None |};
          blockIndex := Some (length (headers x));
          nextBlockIndexCapacity := u64 (Z.shiftl (nextBlockIndexCapacity x) 1) |}.

(** The entry behind the newest one: its position in the ring and its name. *)
Definition next_entry (x : block_index) : option (Z * nat) :=
  n ← blockIndex x;
  hd ← headers x !! n;
  let newTail := Z.land (u64 (tail hd + 1)) (u64 (capacity hd - 1)) in
  id ← index hd !! Z.to_nat newTail;
  Some (newTail, id).

(** The test of [insert_block_index_entry]. *)
Definition entry_free (e : entry) : option bool :=
  if key e =? INVALID_BLOCK_BASE then Some true
  else v ← value e; Some (v =? NULL).

(** The first index of the block of an element. *)
Definition block_base (i : Z) : Z := Z.land i (u64 (Z.lnot (BLOCK_SIZE - 1))).

(** The computation of [get_block_index_index_for_index].  The division is
    unsigned: [BLOCK_SIZE] has the type [size_t]. *)
Definition index_for (hd : header) (tail_ tailBase base : Z) : Z :=
  let offset := u64 (base - tailBase) / BLOCK_SIZE in
  Z.land (u64 (tail_ + offset)) (u64 (capacity hd - 1)).

(** [get_block_index_index_for_index], undisturbed, with its assertions. *)
Definition get_block_index_index_for_index (i : Z) (x : block_index) : option nat :=
  n ← blockIndex x;
  hd ← headers x !! n;
  tid ← index hd !! Z.to_nat (tail hd);
  te ← entries x !! tid;
  if key te =? INVALID_BLOCK_BASE then None
  else
    id ← index hd !! Z.to_nat (index_for hd (tail hd) (key te) (block_base i));
    e ← entries x !! id;
    if (key e =? block_base i) && bool_decide (value e <> None) && bool_decide (value e <> Some NULL) then Some id else None.

(** ** A ring and the blocks in use

    [live]: the blocks in use by their first index.  [newest]: the first index
    for the entry at the tail.  [exempt]: the entry that the producer has taken
    for a new block but not yet given a value.  Going back from the tail, the keys
    decrease by [BLOCK_SIZE]. *)
Definition position (hd : header) (j : Z) : nat := Z.to_nat ((tail hd - j) mod capacity hd).

Record Ring (x : block_index) (n : nat) (hd : header) (g newest : Z) (live : gmap Z ptr) (exempt : option nat) : Prop := {
  ri_current : blockIndex x = Some n;
  ri_header : headers x !! n = Some hd;
  ri_size : 5 <= g <= 59;
  ri_capacity : capacity hd = 2 ^ g;
  ri_next : nextBlockIndexCapacity x = 2 ^ (g + 1);
  ri_length : Z.of_nat (length (index hd)) = 2 ^ g;
  ri_tail : 0 <= tail hd < 2 ^ g;
  ri_nodup : NoDup (index hd);
  ri_ids : forall id, id ∈ index hd <-> is_Some (entries x !! id);
  ri_newest : -32 <= newest /\ newest mod 32 = 0;
  ri_keys : forall j id e, 0 <= j < 2 ^ g -> index hd !! position hd j = Some id -> entries x !! id = Some e ->
              key e = INVALID_BLOCK_BASE \/ key e = newest - 32 * j \/ (j = 2 ^ g - 1 /\ key e = newest + 32);
  ri_tail_key : 0 <= newest -> exists id e, index hd !! position hd 0 = Some id /\ entries x !! id = Some e /\ key e = newest;
  ri_live : forall base b, live !! base = Some b ->
              0 <= base /\ base mod 32 = 0 /\ b <> NULL /\
              exists j id, 0 <= j < 2 ^ g /\ base = newest - 32 * j /\ index hd !! position hd j = Some id /\
                           entries x !! id = Some {| key := base; value := Some b |};
  ri_free : forall id e, id ∈ index hd -> entries x !! id = Some e ->
              exempt = Some id \/ key e = INVALID_BLOCK_BASE \/ value e = Some NULL \/
              exists b, live !! key e = Some b /\ value e = Some b;
  ri_chain : length (headers x) = S n /\
             forall k h, headers x !! k = Some h -> prev h = match k with O => None | S k => Some k end
}.

(** A consumer that has read [p] from the tail of ring [n] finds block [b]. *)
Definition reaches (x : block_index) (n : nat) (p base : Z) (b : ptr) : Prop :=
  exists hd g j tid te id,
    headers x !! n = Some hd /\ 5 <= g <= 59 /\ capacity hd = 2 ^ g /\ 0 <= p < 2 ^ g /\ 0 <= j < 2 ^ g /\
    index hd !! Z.to_nat p = Some tid /\ entries x !! tid = Some te /\ key te = base + 32 * j /\
    index hd !! Z.to_nat ((p - j) mod 2 ^ g) = Some id /\ entries x !! id = Some {| key := base; value := Some b |}.

(** *** Arithmetic of positions *)
Lemma pow_range g : 5 <= g <= 59 -> 32 <= 2 ^ g <= 576460752303423488.
Proof.
  intros Hg. change 32 with (2 ^ 5). change 576460752303423488 with (2 ^ 59).
  split; apply Z.pow_le_mono_r; lia.
Qed.

Lemma land_capacity g a : 0 <= g -> Z.land a (2 ^ g - 1) = a mod 2 ^ g.
Proof. intros Hg. rewrite <- Z.land_ones by done. f_equal. by rewrite Z.ones_equiv. Qed.

Lemma u64_mod_pow a g : 0 <= g <= 64 -> u64 a mod 2 ^ g = a mod 2 ^ g.
Proof.
  intros Hg. unfold u64. change 18446744073709551616 with (2 ^ 64). symmetry. apply Znumtheory.Zmod_div_mod; [lia|lia|].
  exists (2 ^ (64 - g)). rewrite <- Z.pow_add_r by lia. f_equal. lia.
Qed.

Lemma land_mask_capacity g a : 5 <= g <= 59 -> Z.land (u64 a) (u64 (2 ^ g - 1)) = a mod 2 ^ g.
Proof.
  intros Hg. pose proof (pow_range g Hg). rewrite (u64_small (2 ^ g - 1)) by (unfold is_u64; lia).
  rewrite land_capacity by lia. apply u64_mod_pow. lia.
Qed.

Lemma block_base_spec i : is_u64 i -> block_base i = i - i mod 32.
Proof.
  intros Hi. unfold block_base, BLOCK_SIZE. change (u64 (Z.lnot (32 - 1))) with (Z.ldiff (Z.ones 64) (Z.ones 5)).
  assert (Z.land i (Z.ldiff (Z.ones 64) (Z.ones 5)) = Z.ldiff i (Z.ones 5)) as ->.
  { apply Z.bits_inj'. intros n Hn. rewrite Z.land_spec, !Z.ldiff_spec, !Z.testbit_ones_nonneg by lia.
    destruct (Z.ltb_spec n 64); [done|]. unfold is_u64 in Hi.
    rewrite (Z.bits_above_log2 i n); [done|lia|]. destruct (decide (i = 0)) as [->|]; [simpl; lia|].
    apply Z.log2_lt_pow2; [lia|]. apply Z.lt_le_trans with (2 ^ 64); [simpl; lia|]. apply Z.pow_le_mono_r; lia. }
  rewrite Z.ldiff_ones_r by lia. rewrite Z.shiftr_div_pow2, Z.shiftl_mul_pow2 by lia. change (2 ^ 5) with 32. dlia.
Qed.

(** The unsigned division does no harm, since the capacity divides [2^59]. *)
Lemma index_for_spec hd g p j base :
  5 <= g <= 59 -> capacity hd = 2 ^ g -> 0 <= j < 2 ^ g -> 
  index_for hd p (base + 32 * j) base = (p - j) mod 2 ^ g.
Proof.
  intros Hg Hc Hj. pose proof (pow_range g Hg). unfold index_for, BLOCK_SIZE. rewrite Hc, land_mask_capacity by done.
  replace (base - (base + 32 * j)) with (- (32 * j)) by lia.
  destruct (decide (j = 0)) as [->|Hj0]; [change (u64 (- (32 * 0)) / 32) with 0; f_equal; lia|].
  assert (u64 (- (32 * j)) / 32 = 576460752303423488 - j) as ->.
  { unfold u64. replace (- (32 * j)) with ((576460752303423488 - j) * 32 + (-1) * 18446744073709551616) by lia.
    rewrite Z_mod_plus_full, Z.mod_small by lia. apply Z.div_mul. done. }
  replace (p + (576460752303423488 - j)) with (p - j + 2 ^ (59 - g) * 2 ^ g).
  - apply Z_mod_plus_full.
  - rewrite <- Z.pow_add_r by lia. replace (59 - g + g) with 59 by lia. change (2 ^ 59) with 576460752303423488. lia.
Qed.

Section ring.
Context (x : block_index) (n : nat) (hd : header) (g newest : Z) (live : gmap Z ptr) (exempt : option nat).
Context (R : Ring x n hd g newest live exempt).

Lemma ring_pow : 32 <= 2 ^ g <= 576460752303423488.
Proof. apply pow_range, (ri_size _ _ _ _ _ _ _ R). Qed.

Lemma position_eq j : position hd j = Z.to_nat ((tail hd - j) mod 2 ^ g).
Proof. unfold position. by rewrite (ri_capacity _ _ _ _ _ _ _ R). Qed.

Lemma position_lookup j : exists id e, index hd !! position hd j = Some id /\ entries x !! id = Some e.
Proof.
  pose proof ring_pow. pose proof (ri_length _ _ _ _ _ _ _ R) as Hl. rewrite position_eq.
  pose proof (Z.mod_pos_bound (tail hd - j) (2 ^ g) ltac:(lia)).
  destruct (lookup_lt_is_Some_2 (index hd) (Z.to_nat ((tail hd - j) mod 2 ^ g))) as [id E]; [lia|].
  destruct (proj1 (ri_ids _ _ _ _ _ _ _ R id)) as [e Ee]; [by eapply list_elem_of_lookup_2|]. by exists id, e.
Qed.

Lemma position_inj j j' id :
  0 <= j < 2 ^ g -> 0 <= j' < 2 ^ g -> index hd !! position hd j = Some id -> index hd !! position hd j' = Some id -> j = j'.
Proof.
  intros Hj Hj' E E'. pose proof (NoDup_lookup _ _ _ _ (ri_nodup _ _ _ _ _ _ _ R) E E') as Hp. rewrite !position_eq in Hp.
  apply Z2Nat.inj in Hp; [|apply Z.mod_pos_bound; lia..].
  apply (f_equal (fun z => (tail hd - z) mod 2 ^ g)) in Hp. rewrite !Zminus_mod_idemp_r in Hp.
  replace (tail hd - (tail hd - j)) with j in Hp by lia. replace (tail hd - (tail hd - j')) with j' in Hp by lia.
  by rewrite !Z.mod_small in Hp.
Qed.

Lemma position_0 : position hd 0 = Z.to_nat (tail hd).
Proof. rewrite position_eq, Z.sub_0_r, Z.mod_small; [done|apply (ri_tail _ _ _ _ _ _ _ R)]. Qed.

Lemma position_last : position hd (2 ^ g - 1) = Z.to_nat ((tail hd + 1) mod 2 ^ g).
Proof.
  rewrite position_eq. f_equal. replace (tail hd - (2 ^ g - 1)) with (tail hd + 1 + (-1) * 2 ^ g) by lia. apply Z_mod_plus_full.
Qed.

(** Each entry of the ring has its place. *)
Lemma entry_position id : id ∈ index hd -> exists j, 0 <= j < 2 ^ g /\ index hd !! position hd j = Some id.
Proof.
  intros [k Ek]%list_elem_of_lookup_1. pose proof (lookup_lt_Some _ _ _ Ek). pose proof ring_pow.
  pose proof (ri_length _ _ _ _ _ _ _ R). exists ((tail hd - Z.of_nat k) mod 2 ^ g).
  split; [apply Z.mod_pos_bound; lia|]. rewrite position_eq, Zminus_mod_idemp_r.
  replace (tail hd - (tail hd - Z.of_nat k)) with (Z.of_nat k) by lia. rewrite Z.mod_small by lia. by rewrite Nat2Z.id.
Qed.

Lemma live_range base b : live !! base = Some b -> 0 <= base <= newest /\ newest - 32 * (2 ^ g - 1) <= base /\ base mod 32 = 0 /\ b <> NULL.
Proof. intros E. destruct (ri_live _ _ _ _ _ _ _ R base b E) as (? & ? & ? & j & id & ? & ? & _). split; [lia|]. split; [lia|done]. Qed.

Lemma ring_reaches base b : live !! base = Some b -> reaches x n (tail hd) base b.
Proof.
  intros E. destruct (ri_live _ _ _ _ _ _ _ R base b E) as (H0 & Hm & Hb & j & id & Hj & Hbase & Ei & Ee).
  destruct (ri_tail_key _ _ _ _ _ _ _ R) as (tid & te & Et & Ete & Hk); [lia|].
  exists hd, g, j, tid, te, id. rewrite position_0 in Et. rewrite position_eq in Ei.
  pose proof (ri_size _ _ _ _ _ _ _ R). pose proof (ri_tail _ _ _ _ _ _ _ R).
  split; [apply (ri_header _ _ _ _ _ _ _ R)|]. split; [done|]. split; [apply (ri_capacity _ _ _ _ _ _ _ R)|].
  split; [done|]. split; [done|]. split; [done|]. split; [done|]. split; [lia|done].
Qed.

(** The entry of a block in use is not the one behind the tail if the oldest
    place is not in use. *)
Lemma live_not_oldest base b id :
  live !! (newest - 32 * (2 ^ g - 1)) = None -> index hd !! position hd (2 ^ g - 1) = Some id ->
  live !! base = Some b -> forall e, entries x !! id = Some e -> key e = base -> False.
Proof.
  intros Ho Ei E e Ee Hk. pose proof ring_pow. destruct (live_range base b E) as (Hb & Hb' & Hm & _).
  destruct (ri_keys _ _ _ _ _ _ _ R (2 ^ g - 1) id e ltac:(lia) Ei Ee) as [Hi|[Hi|[_ Hi]]].
  - unfold INVALID_BLOCK_BASE in Hi. rewrite Hi in Hk. rewrite <- Hk in Hm. done.
  - rewrite <- Hi, Hk in Ho. congruence.
  - lia.
Qed.

(** There is one entry for each block in use. *)
Lemma live_entry base b : live !! base = Some b -> exists id, entries x !! id = Some {| key := base; value := Some b |} /\
  forall id' e, entries x !! id' = Some e -> key e = base -> id' = id.
Proof.
  intros E. destruct (live_range base b E) as (Hb & Hb' & Hm & _).
  destruct (ri_live _ _ _ _ _ _ _ R base b E) as (_ & _ & _ & j & id & Hj & Hbase & Ei & Ee). exists id. split; [done|].
  intros id' e' Ee' Hk. destruct (entry_position id') as (j' & Hj' & Ei'); [apply (ri_ids _ _ _ _ _ _ _ R); by eexists|].
  destruct (ri_keys _ _ _ _ _ _ _ R j' id' e' Hj' Ei' Ee') as [Hi|[Hi|[_ Hi]]].
  - unfold INVALID_BLOCK_BASE in Hi. rewrite Hi in Hk. rewrite <- Hk in Hm. done.
  - assert (j' = j) as -> by lia. rewrite Ei in Ei'. by injection Ei'.
  - lia.
Qed.
End ring.

Lemma alter_lookup {A} (f : A -> A) (l : list A) i k :
  alter f i l !! k = if decide (i = k) then f <$> l !! k else l !! k.
Proof. destruct (decide (i = k)) as [->|Hi]; [by rewrite list_lookup_alter_eq|by rewrite list_lookup_alter_ne]. Qed.

Lemma alter_defined {A} (f : A -> A) (l : list A) i k : is_Some (alter f i l !! k) <-> is_Some (l !! k).
Proof. rewrite alter_lookup. destruct (decide (i = k)); [apply fmap_is_Some|done]. Qed.

(** *** What a consumer finds outlives the steps of others *)
Lemma chain_store_tail x n p (pred : nat -> option nat) :
  length (headers x) = S n /\ (forall k h, headers x !! k = Some h -> prev h = pred k) ->
  length (headers (store_tail n p x)) = S n /\ (forall k h, headers (store_tail n p x) !! k = Some h -> prev h = pred k).
Proof.
  intros [Hl Hc]. simpl. rewrite length_alter. split; [done|]. intros k h Eh.
  rewrite alter_lookup in Eh. destruct (decide (n = k)) as [<-|Hk]; [|by apply Hc].
  apply fmap_Some in Eh as (h0 & E0 & ->). simpl. exact (Hc n h0 E0).
Qed.

Lemma reaches_store_tail x m q n p base b : reaches x n p base b -> reaches (store_tail m q x) n p base b.
Proof.
  intros (hd & g & j & tid & te & id & Eh & Hg & Hc & Hp & Hj & Et & Ete & Hk & Ei & Ee).
  exists (if decide (m = n) then set_tail q hd else hd), g, j, tid, te, id. simpl. rewrite alter_lookup, Eh.
  by destruct (decide (m = n)).
Qed.

(** A change of one entry. *)
Lemma reaches_change x x' id0 f n p base b :
  headers x' = headers x -> entries x' = alter f id0 (entries x) ->
  (forall e, entries x !! id0 = Some e -> key e = base -> f e = e) ->
  (forall e j, entries x !! id0 = Some e -> 0 <= j -> key e = base + 32 * j -> key (f e) = key e) ->
  reaches x n p base b -> reaches x' n p base b.
Proof.
  intros Hh He Hv Hk (hd & g & j & tid & te & id & Eh & Hg & Hc & Hp & Hj & Et & Ete & Hkt & Ei & Ee).
  exists hd, g, j, tid, (if decide (id0 = tid) then f te else te), id. rewrite Hh, He, !alter_lookup, Ete, Ee.
  split; [done|]. split; [done|]. split; [done|]. split; [done|]. split; [done|]. split; [done|].
  split; [by destruct (decide (id0 = tid))|]. split; [|split; [done|]].
  - destruct (decide (id0 = tid)) as [->|]; [|done]. rewrite (Hk te j) by (done || lia). done.
  - destruct (decide (id0 = id)) as [->|]; [|done]. simpl. by rewrite (Hv _ Ee) by done.
Qed.

Lemma reaches_store_value x id0 v n p base b :
  (forall e, entries x !! id0 = Some e -> key e <> base) -> reaches x n p base b -> reaches (store_value id0 v x) n p base b.
Proof.
  intros Hne. apply (reaches_change _ _ id0 (set_value v)); [done|done| |done]. intros e Ee Hk. by destruct (Hne e).
Qed.

Lemma reaches_store_key x hd n g newest live exempt id0 m p base b :
  Ring x n hd g newest live exempt ->
  index hd !! position hd (2 ^ g - 1) = Some id0 -> live !! (newest - 32 * (2 ^ g - 1)) = None -> live !! base = Some b ->
  reaches x m p base b -> reaches (store_key id0 (newest + 32) x) m p base b.
Proof.
  intros R Ei Ho E. pose proof (ring_pow _ _ _ _ _ _ _ R). destruct (live_range _ _ _ _ _ _ _ R base b E) as (Hb & Hb' & Hm & _).
  apply (reaches_change _ _ id0 (set_key (newest + 32))); [done|done| |].
  - intros e Ee Hk. by destruct (live_not_oldest _ _ _ _ _ _ _ R base b id0 Ho Ei E e Ee).
  - intros e j Ee Hj Hk. simpl. symmetry.
    destruct (ri_keys _ _ _ _ _ _ _ R (2 ^ g - 1) id0 e ltac:(lia) Ei Ee) as [Hi|[Hi|[_ Hi]]]; [| |done].
    + unfold INVALID_BLOCK_BASE in Hi. dlia.
    + assert (j = 0) as -> by lia. rewrite Z.mul_0_r, Z.add_0_r in Hk.
      by destruct (live_not_oldest _ _ _ _ _ _ _ R base b id0 Ho Ei E e Ee).
Qed.

Lemma reaches_grow x x' n p base b :
  new_block_index x = Some x' -> reaches x n p base b -> reaches x' n p base b.
Proof.
  intros Hx (hd & g & j & tid & te & id & Eh & Hg & Hc & Hp & Hj & Et & Ete & Hkt & Ei & Ee).
  unfold new_block_index in Hx. destruct (match blockIndex x with None => _ | Some _ => _ end) as [prev|]; [|done]. simpl in Hx.
  destruct (match prev with None => Some [] | Some _ => _ end) as [old|]; [|done]. simpl in Hx. injection Hx as <-.
  exists hd, g, j, tid, te, id. simpl. split_and!; try done; try lia; by apply lookup_app_l_Some.
Qed.

(** *** The steps of the producer and the release of a block *)
Lemma ring_store_key x n hd g newest live id0 :
  Ring x n hd g newest live None ->
  index hd !! position hd (2 ^ g - 1) = Some id0 -> live !! (newest - 32 * (2 ^ g - 1)) = None ->
  Ring (store_key id0 (newest + 32) x) n hd g newest live (Some id0).
Proof.
  intros R Ei Ho. pose proof (ring_pow _ _ _ _ _ _ _ R) as Hpow.
  constructor; simpl; try apply R.
  - intros id. rewrite alter_defined. apply (ri_ids _ _ _ _ _ _ _ R).
  - intros j id e Hj Eid. rewrite alter_lookup. destruct (decide (id0 = id)) as [<-|Hn].
    + destruct (entries x !! id0) as [e0|]; [|done]. intros [= <-]. right. right. simpl.
      by rewrite (position_inj _ _ _ _ _ _ _ R j (2 ^ g - 1) id0 Hj ltac:(lia) Eid Ei).
    + by apply (ri_keys _ _ _ _ _ _ _ R).
  - intros H0. destruct (ri_tail_key _ _ _ _ _ _ _ R H0) as (id & e & Eid & Ee & Hk). exists id, e.
    rewrite alter_lookup, decide_False; [done|]. intros <-.
    pose proof (position_inj _ _ _ _ _ _ _ R 0 (2 ^ g - 1) id0 ltac:(lia) ltac:(lia) Eid Ei). lia.
  - intros base b E. destruct (ri_live _ _ _ _ _ _ _ R base b E) as (? & ? & ? & j & id & Hj & Hbase & Eid & Ee).
    split; [done|]. split; [done|]. split; [done|]. exists j, id. rewrite alter_lookup, decide_False; [done|].
    intros <-. by apply (live_not_oldest _ _ _ _ _ _ _ R base b id0 Ho Ei E _ Ee).
  - intros id e Hid. rewrite alter_lookup. destruct (decide (id0 = id)) as [<-|Hn]; [by left|]. intros Ee.
    destruct (ri_free _ _ _ _ _ _ _ R id e Hid Ee) as [?|?]; [done|by right].
Qed.

Lemma ring_advance x n hd g newest live id0 e0 :
  Ring x n hd g newest live (Some id0) ->
  index hd !! position hd (2 ^ g - 1) = Some id0 -> entries x !! id0 = Some e0 -> key e0 = newest + 32 ->
  live !! (newest - 32 * (2 ^ g - 1)) = None ->
  Ring (store_tail n ((tail hd + 1) mod 2 ^ g) x) n (set_tail ((tail hd + 1) mod 2 ^ g) hd) g (newest + 32) live (Some id0).
Proof.
  intros R Ei Ee0 Hk0 Ho. pose proof (ring_pow _ _ _ _ _ _ _ R) as Hpow.
  assert (forall j, position (set_tail ((tail hd + 1) mod 2 ^ g) hd) j = position hd (j - 1)) as Hpos.
  { intros j. unfold position. simpl. rewrite (ri_capacity _ _ _ _ _ _ _ R). rewrite Zminus_mod_idemp_l. f_equal. f_equal. lia. }
  assert (position hd (0 - 1) = position hd (2 ^ g - 1)) as Hlast.
  { rewrite !(position_eq _ _ _ _ _ _ _ R). f_equal. replace (tail hd - (0 - 1)) with (tail hd - (2 ^ g - 1) + 1 * 2 ^ g) by lia.
    apply Z_mod_plus_full. }
  destruct (ri_newest _ _ _ _ _ _ _ R) as [Hn Hm].
  constructor; simpl; try apply R.
  - by rewrite alter_lookup, decide_True, (ri_header _ _ _ _ _ _ _ R).
  - apply Z.mod_pos_bound. lia.
  - split; [lia|]. dlia.
  - intros j id e Hj. rewrite Hpos. intros Eid Ee. destruct (decide (j = 0)) as [->|Hj0].
    + rewrite Hlast, Ei in Eid. injection Eid as <-. rewrite Ee0 in Ee. injection Ee as <-. right. left. lia.
    + destruct (ri_keys _ _ _ _ _ _ _ R (j - 1) id e ltac:(lia) Eid Ee) as [?|[?|[? _]]]; [by left|right; left; lia|lia].
  - intros _. exists id0, e0. rewrite Hpos, Hlast. done.
  - intros base b E. destruct (ri_live _ _ _ _ _ _ _ R base b E) as (? & ? & ? & j & id & Hj & Hbase & Eid & Ee).
    split; [done|]. split; [done|]. split; [done|]. exists (j + 1), id. rewrite Hpos.
    replace (j + 1 - 1) with j by lia. split; [|split; [lia|done]].
    destruct (decide (j = 2 ^ g - 1)) as [->|]; [|lia]. rewrite <- Hbase in Ho. congruence.
  - apply chain_store_tail, R.
Qed.

(** After the tail has moved the keys of the entry it came from and of the entry
    behind it are known, which allows the producer to move it back. *)
Definition settled (x : block_index) (hd : header) (newest : Z) : Prop :=
  (forall j id e, index hd !! position hd j = Some id -> entries x !! id = Some e -> key e <> newest + 32) /\
  (32 <= newest -> exists id e, index hd !! position hd 1 = Some id /\ entries x !! id = Some e /\ key e = newest - 32).

Lemma ring_rewind x n hd g newest live id0 e0 :
  Ring x n hd g newest live (Some id0) -> settled x hd newest ->
  index hd !! position hd 0 = Some id0 -> entries x !! id0 = Some e0 -> key e0 = newest -> live !! newest = None -> 0 <= newest ->
  Ring (store_tail n ((tail hd - 1) mod 2 ^ g) x) n (set_tail ((tail hd - 1) mod 2 ^ g) hd) g (newest - 32) live (Some id0).
Proof.
  intros R [Hc H1] Ei Ee0 Hk0 Ho Hn0. pose proof (ring_pow _ _ _ _ _ _ _ R) as Hpow.
  assert (forall j, position (set_tail ((tail hd - 1) mod 2 ^ g) hd) j = position hd (j + 1)) as Hpos.
  { intros j. unfold position. simpl. rewrite (ri_capacity _ _ _ _ _ _ _ R). rewrite Zminus_mod_idemp_l. f_equal. f_equal. lia. }
  assert (position hd (2 ^ g - 1 + 1) = position hd 0) as Hlast.
  { rewrite !(position_eq _ _ _ _ _ _ _ R). f_equal. replace (tail hd - (2 ^ g - 1 + 1)) with (tail hd - 0 + (-1) * 2 ^ g) by lia.
    apply Z_mod_plus_full. }
  destruct (ri_newest _ _ _ _ _ _ _ R) as [Hn Hm].
  constructor; simpl; try apply R.
  - by rewrite alter_lookup, decide_True, (ri_header _ _ _ _ _ _ _ R).
  - apply Z.mod_pos_bound. lia.
  - split; [lia|]. dlia.
  - intros j id e Hj. rewrite Hpos. intros Eid Ee. destruct (decide (j = 2 ^ g - 1)) as [->|Hj0].
    + rewrite Hlast, Ei in Eid. injection Eid as <-. rewrite Ee0 in Ee. injection Ee as <-. right. right. lia.
    + destruct (ri_keys _ _ _ _ _ _ _ R (j + 1) id e ltac:(lia) Eid Ee) as [?|[?|[? Hk]]]; [by left|right; left; lia|].
      by destruct (Hc (j + 1) id e).
  - intros Hnn. rewrite Hpos. apply H1. lia.
  - intros base b E. destruct (ri_live _ _ _ _ _ _ _ R base b E) as (? & ? & ? & j & id & Hj & Hbase & Eid & Ee).
    split; [done|]. split; [done|]. split; [done|]. exists (j - 1), id. rewrite Hpos.
    replace (j - 1 + 1) with j by lia. split; [|split; [lia|done]].
    destruct (decide (j = 0)) as [->|]; [|lia]. assert (base = newest) as -> by lia. congruence.
  - apply chain_store_tail, R.
Qed.

Lemma advance_settled x n hd g newest live id0 e0 :
  Ring x n hd g newest live (Some id0) ->
  index hd !! position hd (2 ^ g - 1) = Some id0 -> entries x !! id0 = Some e0 -> key e0 = newest + 32 ->
  settled (store_tail n ((tail hd + 1) mod 2 ^ g) x) (set_tail ((tail hd + 1) mod 2 ^ g) hd) (newest + 32).
Proof.
  intros R Ei Ee0 Hk0. pose proof (ring_pow _ _ _ _ _ _ _ R) as Hpow.
  assert (forall j, position (set_tail ((tail hd + 1) mod 2 ^ g) hd) j = position hd (j - 1)) as Hpos.
  { intros j. unfold position. simpl. rewrite (ri_capacity _ _ _ _ _ _ _ R). rewrite Zminus_mod_idemp_l. f_equal. f_equal. lia. }
  split; simpl.
  - intros j id e Eid Ee Hk. rewrite Hpos in Eid.
    destruct (entry_position _ _ _ _ _ _ _ R id) as (j' & Hj' & Ej'); [by eapply list_elem_of_lookup_2|].
    destruct (ri_keys _ _ _ _ _ _ _ R j' id e Hj' Ej' Ee) as [?|[?|[-> ?]]]; [|lia|lia].
    destruct (ri_newest _ _ _ _ _ _ _ R) as [_ Hm]. unfold INVALID_BLOCK_BASE in *. dlia.
  - intros Hn. rewrite Hpos. change (1 - 1) with 0. replace (newest + 32 - 32) with newest by lia.
    apply (ri_tail_key _ _ _ _ _ _ _ R). lia.
Qed.

Lemma ring_store_value x n hd g newest live id0 e0 b :
  Ring x n hd g newest live (Some id0) -> 
  index hd !! position hd 0 = Some id0 -> entries x !! id0 = Some e0 -> key e0 = newest -> live !! newest = None -> 0 <= newest ->
  b <> NULL -> Ring (store_value id0 b x) n hd g newest (<[newest := b]> live) None.
Proof.
  intros R Ei Ee0 Hk0 Ho Hn0 Hb. pose proof (ring_pow _ _ _ _ _ _ _ R) as Hpow.
  constructor; simpl; try apply R.
  - intros id. rewrite alter_defined. apply (ri_ids _ _ _ _ _ _ _ R).
  - intros j id e Hj Eid. rewrite alter_lookup. destruct (decide (id0 = id)) as [<-|Hn]; [|by apply (ri_keys _ _ _ _ _ _ _ R)].
    rewrite Ee0. intros [= <-]. simpl. by apply (ri_keys _ _ _ _ _ _ _ R j id0).
  - intros _. exists id0, (set_value b e0). by rewrite alter_lookup, decide_True, Ee0.
  - intros base b'. destruct (decide (base = newest)) as [->|Hne].
    + rewrite lookup_insert_eq. intros [= <-]. destruct (ri_newest _ _ _ _ _ _ _ R). split; [done|]. split; [done|]. split; [done|].
      exists 0, id0. rewrite alter_lookup, decide_True, Ee0 by done. split; [lia|]. split; [lia|]. split; [done|]. destruct e0. simpl in *. by subst.
    + rewrite lookup_insert_ne by done. intros E. destruct (ri_live _ _ _ _ _ _ _ R base b' E) as (? & ? & ? & j & id & Hj & Hbase & Eid & Ee).
      split; [done|]. split; [done|]. split; [done|]. exists j, id. rewrite alter_lookup, decide_False; [done|].
      intros <-. rewrite Ee0 in Ee. injection Ee as ->. simpl in Hk0. congruence.
  - intros id e Hid. rewrite alter_lookup. destruct (decide (id0 = id)) as [<-|Hn].
    + rewrite Ee0. intros [= <-]. right. right. right. exists b. simpl. by rewrite Hk0, lookup_insert_eq.
    + intros Ee. destruct (ri_free _ _ _ _ _ _ _ R id e Hid Ee) as [?|[?|[?|(b' & E & ?)]]]; [congruence|tauto|tauto|].
      right. right. right. exists b'. rewrite lookup_insert_ne; [done|]. congruence.
Qed.

Lemma ring_clear x n hd g newest live id0 e0 :
  Ring x n hd g newest live (Some id0) -> entries x !! id0 = Some e0 -> live !! key e0 = None ->
  Ring (store_value id0 NULL x) n hd g newest live None.
Proof.
  intros R Ee0 Ho. constructor; simpl; try apply R.
  - intros id. rewrite alter_defined. apply (ri_ids _ _ _ _ _ _ _ R).
  - intros j id e Hj Eid. rewrite alter_lookup. destruct (decide (id0 = id)) as [<-|Hn]; [|by apply (ri_keys _ _ _ _ _ _ _ R)].
    rewrite Ee0. intros [= <-]. simpl. by apply (ri_keys _ _ _ _ _ _ _ R j id0).
  - intros H0. destruct (ri_tail_key _ _ _ _ _ _ _ R H0) as (id & e & Eid & Ee & Hk).
    exists id, (if decide (id0 = id) then set_value NULL e else e). rewrite alter_lookup, Ee. by destruct (decide (id0 = id)).
  - intros base b E. destruct (ri_live _ _ _ _ _ _ _ R base b E) as (? & ? & ? & j & id & Hj & Hbase & Eid & Ee).
    split; [done|]. split; [done|]. split; [done|]. exists j, id. rewrite alter_lookup, decide_False; [done|].
    intros <-. rewrite Ee0 in Ee. injection Ee as ->. simpl in Ho. congruence.
  - intros id e Hid. rewrite alter_lookup. destruct (decide (id0 = id)) as [<-|Hn].
    + rewrite Ee0. intros [= <-]. by right; right; left.
    + intros Ee. destruct (ri_free _ _ _ _ _ _ _ R id e Hid Ee) as [?|?]; [congruence|by right].
Qed.

(** A consumer gives back the block it has emptied. *)
Lemma ring_release x n hd g newest live exempt base b id0 :
  Ring x n hd g newest live exempt -> entries x !! id0 = Some {| key := base; value := Some b |} -> 
  Ring (store_value id0 NULL x) n hd g newest (delete base live) exempt.
Proof.
  intros R Ee0. constructor; simpl; try apply R.
  - intros id. rewrite alter_defined. apply (ri_ids _ _ _ _ _ _ _ R).
  - intros j id e Hj Eid. rewrite alter_lookup. destruct (decide (id0 = id)) as [<-|Hn]; [|by apply (ri_keys _ _ _ _ _ _ _ R)].
    rewrite Ee0. intros [= <-]. simpl. apply (ri_keys _ _ _ _ _ _ _ R j id0 _ Hj Eid Ee0).
  - intros H0. destruct (ri_tail_key _ _ _ _ _ _ _ R H0) as (id & e & Eid & Ee & Hk).
    exists id, (if decide (id0 = id) then set_value NULL e else e). rewrite alter_lookup, Ee. by destruct (decide (id0 = id)).
  - intros base' b' [Hne E]%lookup_delete_Some. destruct (ri_live _ _ _ _ _ _ _ R base' b' E) as (? & ? & ? & j & id & Hj & Hbase & Eid & Ee).
    split; [done|]. split; [done|]. split; [done|]. exists j, id. rewrite alter_lookup, decide_False; [done|].
    intros <-. rewrite Ee0 in Ee. injection Ee as ->. done.
  - intros id e Hid. rewrite alter_lookup. destruct (decide (id0 = id)) as [<-|Hn].
    + rewrite Ee0. intros [= <-]. by right; right; left.
    + intros Ee. destruct (ri_free _ _ _ _ _ _ _ R id e Hid Ee) as [?|[?|[?|(b' & E & ?)]]]; [tauto|tauto|tauto|].
      destruct (decide (key e = base)) as [Hk|Hk]; [|right; right; right; exists b'; by rewrite lookup_delete_ne].
      destruct Hn. destruct (live_entry _ _ _ _ _ _ _ R base b') as (id' & _ & Hu); [by rewrite <- Hk|].
      rewrite (Hu id0 _ Ee0 eq_refl). symmetry. by apply (Hu id e).
Qed.

(** *** A bigger ring *)
Lemma rotate_spec hd g d : forall fuel q,
  5 <= g <= 59 -> capacity hd = 2 ^ g -> Z.of_nat (length (index hd)) = 2 ^ g -> 0 <= tail hd < 2 ^ g ->
  (1 <= d)%nat -> (d <= fuel)%nat -> Z.of_nat d <= 2 ^ g -> (q + Z.of_nat d) mod 2 ^ g = tail hd ->
  exists l, rotate fuel hd q = Some l /\ length l = d /\
    forall i, (i < d)%nat -> l !! i = index hd !! Z.to_nat ((q + 1 + Z.of_nat i) mod 2 ^ g).
Proof.
  induction d as [|d IH]; intros fuel q Hg Hc Hl Ht Hd Hf Hn Hq; [lia|]. pose proof (pow_range g Hg).
  destruct fuel as [|fuel]; [lia|]. simpl. rewrite Hc, land_mask_capacity by done.
  pose proof (Z.mod_pos_bound (q + 1) (2 ^ g) ltac:(lia)).
  destruct (lookup_lt_is_Some_2 (index hd) (Z.to_nat ((q + 1) mod 2 ^ g))) as [id Eid]; [lia|]. rewrite Eid. simpl.
  destruct (Z.eqb_spec ((q + 1) mod 2 ^ g) (tail hd)) as [He|He].
  - assert (d = 0%nat) as ->.
    { destruct d as [|d]; [done|]. exfalso. rewrite <- Hq in He.
      replace (q + Z.of_nat (S (S d))) with (q + 1 + Z.of_nat (S d)) in He by lia.
      assert (Z.of_nat (S d) mod 2 ^ g = 0) as Hz.
      { replace (Z.of_nat (S d)) with (q + 1 + Z.of_nat (S d) - (q + 1)) by lia. rewrite Zminus_mod, <- He, Z.sub_diag.
        by apply Z.mod_0_l; lia. }
      rewrite Z.mod_small in Hz by lia. lia. }
    exists [id]. split; [done|]. split; [done|]. intros [|i] Hi; [|lia]. by rewrite Z.add_0_r.
  - destruct d as [|d]; [replace (q + Z.of_nat 1) with (q + 1) in Hq by lia; lia|].
    destruct (IH fuel ((q + 1) mod 2 ^ g)) as (l & El & Hlen & Hlk); try done; [lia|lia|lia| |].
    { rewrite Zplus_mod_idemp_l. rewrite <- Hq. f_equal. lia. }
    rewrite El. simpl. exists (id :: l). split; [done|]. split; [simpl; lia|]. intros [|i] Hi; [simpl; by rewrite Z.add_0_r|].
    simpl. rewrite Hlk by lia. f_equal. f_equal.
    replace ((q + 1) mod 2 ^ g + 1 + Z.of_nat i) with ((q + 1) mod 2 ^ g + (1 + Z.of_nat i)) by lia. rewrite Zplus_mod_idemp_l. f_equal. lia.
Qed.

Lemma seq_lookup a k i : (i < k)%nat -> seq a k !! i = Some (a + i)%nat.
Proof. intros Hi. by rewrite lookup_seq_lt. Qed.

Definition grown_header (x : block_index) (g : Z) (old : list nat) : header :=
  {| capacity := 2 ^ (g + 1); tail := 2 ^ g - 1; index := old ++ seq (length (entries x)) (Z.to_nat (2 ^ g)); prev := blockIndex x |}.

Definition grown (x : block_index) (hd : header) (g : Z) (old : list nat) : block_index :=
  {| headers := headers x ++ [grown_header x g old];
     entries := entries x ++ replicate (Z.to_nat (2 ^ g)) {| key := INVALID_BLOCK_BASE; value := None |};
     blockIndex := Some (length (headers x)); nextBlockIndexCapacity := 2 ^ (g + 2) |}.

Lemma new_block_index_spec x n hd g newest live exempt :
  Ring x n hd g newest live exempt -> g + 1 <= 59 ->
  exists old, new_block_index x = Some (grown x hd g old) /\ Z.of_nat (length old) = 2 ^ g /\
    forall i, 0 <= i < 2 ^ g -> old !! Z.to_nat i = index hd !! Z.to_nat ((tail hd + 1 + i) mod 2 ^ g).
Proof.
  intros R Hg. pose proof (ring_pow _ _ _ _ _ _ _ R) as Hpow. pose proof (ri_size _ _ _ _ _ _ _ R) as Hg'.
  pose proof (pow_range (g + 1) ltac:(lia)) as Hpow1. pose proof (ri_tail _ _ _ _ _ _ _ R) as Ht.
  destruct (rotate_spec hd g (Z.to_nat (2 ^ g)) (Z.to_nat (2 ^ g)) (tail hd)) as (old & Eo & Hl & Hlk);
    [done|apply R|apply R|done|lia|lia|lia| |].
  { rewrite Z2Nat.id by lia. replace (tail hd + 2 ^ g) with (tail hd + 1 * 2 ^ g) by lia. rewrite Z_mod_plus_full. by apply Z.mod_small. }
  exists old. split; [|split; [lia|]].
  - unfold new_block_index. rewrite (ri_current _ _ _ _ _ _ _ R), (ri_header _ _ _ _ _ _ _ R). simpl.
    rewrite (ri_capacity _ _ _ _ _ _ _ R), Eo. simpl. unfold grown, grown_header. rewrite (ri_current _ _ _ _ _ _ _ R).
    assert (Z.land (u64 (2 ^ g - 1)) (u64 (nextBlockIndexCapacity x - 1)) = 2 ^ g - 1) as ->.
    { rewrite (ri_next _ _ _ _ _ _ _ R), land_mask_capacity by lia. rewrite Z.pow_add_r in * by lia. change (2 ^ 1) with 2 in *.
      by rewrite Z.mod_small by lia. }
    assert (u64 (Z.shiftl (nextBlockIndexCapacity x) 1) = 2 ^ (g + 2)) as ->.
    { rewrite (ri_next _ _ _ _ _ _ _ R), Z.shiftl_mul_pow2 by lia. replace (g + 2) with (g + 1 + 1) by lia. rewrite (Z.pow_add_r 2 (g + 1)) by lia.
      change (2 ^ 1) with 2. apply u64_small. unfold is_u64. lia. }
    by rewrite (ri_next _ _ _ _ _ _ _ R).
  - intros i Hi. rewrite Hlk by lia. rewrite Z2Nat.id by lia. done.
Qed.

Section growing.
Context (x : block_index) (n : nat) (hd : header) (g newest : Z) (live : gmap Z ptr) (old : list nat).
Context (R : Ring x n hd g newest live None) (Hg : g + 1 <= 59).
Context (Hold : forall id e, index hd !! position hd (2 ^ g - 1) = Some id -> entries x !! id = Some e -> key e <> newest + 32).
Context (Hl : Z.of_nat (length old) = 2 ^ g).
Context (Hlk : forall i, 0 <= i < 2 ^ g -> old !! Z.to_nat i = index hd !! Z.to_nat ((tail hd + 1 + i) mod 2 ^ g)).

Abbreviation hd' := (grown_header x g old).

Lemma grown_pow : 32 <= 2 ^ g <= 576460752303423488 /\ 2 ^ (g + 1) = 2 * 2 ^ g.
Proof.
  split; [apply (ring_pow _ _ _ _ _ _ _ R)|]. pose proof (ri_size _ _ _ _ _ _ _ R). rewrite Z.pow_add_r by lia. lia.
Qed.

Lemma grown_old j : 0 <= j < 2 ^ g -> index hd' !! position hd' j = index hd !! position hd j.
Proof.
  intros Hj. destruct grown_pow as [Hpow H2]. rewrite (position_eq _ _ _ _ _ _ _ R). unfold position. simpl.
  rewrite Z.mod_small by lia. rewrite lookup_app_l by lia. rewrite Hlk by lia. f_equal. f_equal.
  replace (tail hd + 1 + (2 ^ g - 1 - j)) with (tail hd - j + 1 * 2 ^ g) by lia. apply Z_mod_plus_full.
Qed.

Lemma grown_new j : 2 ^ g <= j < 2 ^ (g + 1) ->
  exists k, (k < Z.to_nat (2 ^ g))%nat /\ index hd' !! position hd' j = Some (length (entries x) + k)%nat.
Proof.
  intros Hj. destruct grown_pow as [Hpow H2]. exists (Z.to_nat (2 * 2 ^ g - 1 - j)). split; [lia|]. unfold position. simpl. rewrite H2.
  replace (2 ^ g - 1 - j) with (3 * 2 ^ g - 1 - j + (-1) * (2 * 2 ^ g)) by lia. rewrite Z_mod_plus_full, Z.mod_small by lia.
  rewrite lookup_app_r by lia. rewrite seq_lookup by lia. f_equal. lia.
Qed.

Lemma grown_members id : id ∈ old <-> id ∈ index hd.
Proof.
  destruct grown_pow as [Hpow H2]. split; intros Hid.
  - apply list_elem_of_lookup_1 in Hid as [k Ek]. pose proof (lookup_lt_Some _ _ _ Ek).
    specialize (Hlk (Z.of_nat k) ltac:(lia)). rewrite Nat2Z.id, Ek in Hlk. symmetry in Hlk. by eapply list_elem_of_lookup_2.
  - destruct (entry_position _ _ _ _ _ _ _ R id Hid) as (j & Hj & Ej). rewrite <- grown_old in Ej by done. unfold position in Ej. simpl in Ej.
    rewrite Z.mod_small in Ej by lia. rewrite lookup_app_l in Ej by lia. by eapply list_elem_of_lookup_2.
Qed.

Lemma grown_ids id : id ∈ index hd -> (id < length (entries x))%nat.
Proof. intros Hid. by apply lookup_lt_is_Some, (ri_ids _ _ _ _ _ _ _ R). Qed.

Lemma grown_entry id : (id < length (entries x))%nat -> entries (grown x hd g old) !! id = entries x !! id.
Proof. intros Hid. simpl. by rewrite lookup_app_l. Qed.

Lemma grown_nodup : NoDup (index hd').
Proof.
  destruct grown_pow as [Hpow H2]. apply NoDup_app. split; [|split; [|apply NoDup_seq]].
  - apply NoDup_alt. intros i k id Ei Ek. pose proof (lookup_lt_Some _ _ _ Ei). pose proof (lookup_lt_Some _ _ _ Ek).
    pose proof (Hlk (Z.of_nat i) ltac:(lia)) as Hi. pose proof (Hlk (Z.of_nat k) ltac:(lia)) as Hk. rewrite Nat2Z.id in Hi, Hk. rewrite Ei in Hi. rewrite Ek in Hk.
    pose proof (position_inj _ _ _ _ _ _ _ R (2 ^ g - 1 - Z.of_nat i) (2 ^ g - 1 - Z.of_nat k) id ltac:(lia) ltac:(lia)) as Hinj.
    rewrite !(position_eq _ _ _ _ _ _ _ R) in Hinj.
    replace (tail hd - (2 ^ g - 1 - Z.of_nat i)) with (tail hd + 1 + Z.of_nat i + (-1) * 2 ^ g) in Hinj by lia.
    replace (tail hd - (2 ^ g - 1 - Z.of_nat k)) with (tail hd + 1 + Z.of_nat k + (-1) * 2 ^ g) in Hinj by lia.
    rewrite !Z_mod_plus_full in Hinj. specialize (Hinj (eq_sym Hi) (eq_sym Hk)). lia.
  - intros id Hid%grown_members%grown_ids Hs. apply elem_of_seq in Hs. lia.
Qed.

(** An entry of the new ring is an old one, with its key, or a new one. *)
Lemma grown_cases j id e :
  0 <= j < 2 ^ (g + 1) -> index hd' !! position hd' j = Some id -> entries (grown x hd g old) !! id = Some e ->
  (0 <= j < 2 ^ g /\ index hd !! position hd j = Some id /\ entries x !! id = Some e) \/
  e = {| key := INVALID_BLOCK_BASE; value := None |}.
Proof.
  intros Hj Eid Ee. destruct grown_pow as [Hpow H2]. destruct (decide (j < 2 ^ g)).
  - left. rewrite grown_old in Eid by lia. split; [lia|]. split; [done|]. rewrite <- Ee. symmetry.
    apply grown_entry, grown_ids. by eapply list_elem_of_lookup_2.
  - right. destruct (grown_new j ltac:(lia)) as (k & Hk & Ek). rewrite Ek in Eid. injection Eid as <-. simpl in Ee.
    rewrite lookup_app_r, Nat.add_comm, Nat.add_sub in Ee by lia. apply lookup_replicate in Ee. tauto.
Qed.

Lemma grown_key j id e :
  0 <= j < 2 ^ g -> index hd !! position hd j = Some id -> entries x !! id = Some e ->
  key e = INVALID_BLOCK_BASE \/ key e = newest - 32 * j.
Proof.
  intros Hj Eid Ee. destruct (ri_keys _ _ _ _ _ _ _ R j id e Hj Eid Ee) as [?|[?|[Hjl Hk]]]; [by left|by right|].
  subst j. by destruct (Hold id e).
Qed.

Lemma ring_grow : Ring (grown x hd g old) (length (headers x)) hd' (g + 1) newest live None.
Proof.
  destruct grown_pow as [Hpow H2]. pose proof (ri_size _ _ _ _ _ _ _ R). pose proof grown_ids as Hlt.
  constructor; try apply R; try done; try (simpl; lia).
  - simpl. by rewrite lookup_app_r, Nat.sub_diag by lia.
  - simpl. by replace (g + 1 + 1) with (g + 2) by lia.
  - simpl. rewrite length_app, length_seq. lia.
  - apply grown_nodup.
  - intros id. simpl. rewrite elem_of_app, grown_members, elem_of_seq, (ri_ids _ _ _ _ _ _ _ R), !lookup_lt_is_Some, length_app, length_replicate. lia.
  - intros j id e Hj Eid Ee. destruct (grown_cases j id e Hj Eid Ee) as [(Hj' & Eid' & Ee')| ->]; [|by left].
    destruct (grown_key j id e Hj' Eid' Ee'); [by left|by right; left].
  - intros H0. destruct (ri_tail_key _ _ _ _ _ _ _ R H0) as (id & e & Eid & Ee & Hk). exists id, e. rewrite grown_old by lia. split; [done|].
    split; [|done]. rewrite <- Ee. apply grown_entry, Hlt. by eapply list_elem_of_lookup_2.
  - intros base b E. destruct (ri_live _ _ _ _ _ _ _ R base b E) as (? & ? & ? & j & id & Hj & Hbase & Eid & Ee).
    split; [done|]. split; [done|]. split; [done|]. exists j, id. rewrite grown_old by lia. split; [lia|]. split; [done|]. split; [done|].
    rewrite <- Ee. apply grown_entry, Hlt. by eapply list_elem_of_lookup_2.
  - intros id e Hid Ee. destruct (decide (id < length (entries x))%nat) as [Hlt'|Hge].
    + rewrite grown_entry in Ee by done. apply (ri_free _ _ _ _ _ _ _ R id e); [|done]. apply (ri_ids _ _ _ _ _ _ _ R). by eexists.
    + simpl in Ee. rewrite lookup_app_r in Ee by lia. apply lookup_replicate in Ee as [-> _]. by right; left.
  - destruct (ri_chain _ _ _ _ _ _ _ R) as [Hh Hc]. simpl. rewrite length_app, Hh, Nat.add_1_r. split; [done|]. intros k h Eh.
    apply lookup_app_Some in Eh as [Eh|[Hk Eh]]; [by apply Hc|]. rewrite Hh in *. apply list_lookup_singleton_Some in Eh as [Ek <-].
    assert (k = S n) as -> by lia. apply R.
Qed.

(** The entry behind the tail of the new ring is a new one. *)
Lemma grown_last : exists id, index hd' !! position hd' (2 ^ (g + 1) - 1) = Some id /\
  entries (grown x hd g old) !! id = Some {| key := INVALID_BLOCK_BASE; value := None |}.
Proof.
  destruct grown_pow as [Hpow H2]. destruct (grown_new (2 ^ (g + 1) - 1)) as (k & Hk & Ek); [lia|]. eexists. split; [exact Ek|].
  simpl. rewrite lookup_app_r, Nat.add_comm, Nat.add_sub by lia. by apply lookup_replicate.
Qed.
End growing.

(** The constructor makes a ring for [IMPLICIT_INITIAL_INDEX_SIZE] blocks. *)
Definition first_header : header := {| capacity := 32; tail := 31; index := seq 0 32; prev := None |}.
Definition first_index : block_index :=
  {| headers := [first_header]; entries := replicate 32 {| key := INVALID_BLOCK_BASE; value := None |};
     blockIndex := Some 0%nat; nextBlockIndexCapacity := 64 |}.

Lemma new_block_index_first : new_block_index no_index = Some first_index.
Proof. by vm_compute. Qed.

Lemma ring_first : Ring first_index 0 first_header 5 (-32) ∅ None.
Proof.
  constructor; try done; try lia.
  - apply NoDup_seq.
  - intros id. change (index first_header) with (seq 0 32). rewrite elem_of_seq, lookup_lt_is_Some.
    change (length (entries first_index)) with 32%nat. lia.
  - intros j id e _ _ Ee. apply lookup_replicate in Ee as [-> _]. by left.
  - intros id e _ Ee. apply lookup_replicate in Ee as [-> _]. by right; left.
  - split; [done|]. by intros [|[|k]] h [= <-].
Qed.

(** *** The operations on a ring *)
Lemma next_entry_spec x n hd g newest live exempt :
  Ring x n hd g newest live exempt ->
  exists id e, next_entry x = Some ((tail hd + 1) mod 2 ^ g, id) /\ index hd !! position hd (2 ^ g - 1) = Some id /\
    entries x !! id = Some e.
Proof.
  intros R. pose proof (ri_size _ _ _ _ _ _ _ R). destruct (position_lookup _ _ _ _ _ _ _ R (2 ^ g - 1)) as (id & e & Ei & Ee).
  exists id, e. split; [|done]. unfold next_entry. rewrite (ri_current _ _ _ _ _ _ _ R). simpl. rewrite (ri_header _ _ _ _ _ _ _ R). simpl.
  rewrite (ri_capacity _ _ _ _ _ _ _ R), land_mask_capacity by done. rewrite (position_last _ _ _ _ _ _ _ R) in Ei. by rewrite Ei.
Qed.

(** The producer takes the entry behind the tail if and only if the oldest place of
    the ring is not in use. *)
Lemma entry_free_spec x n hd g newest live id e :
  Ring x n hd g newest live None -> index hd !! position hd (2 ^ g - 1) = Some id -> entries x !! id = Some e ->
  (entry_free e = Some true /\ live !! (newest - 32 * (2 ^ g - 1)) = None) \/
  (entry_free e = Some false /\ is_Some (live !! (newest - 32 * (2 ^ g - 1)))).
Proof.
  intros R Ei Ee. pose proof (ring_pow _ _ _ _ _ _ _ R) as Hpow. destruct (ri_newest _ _ _ _ _ _ _ R) as [_ Hm].
  assert (forall b, live !! (newest - 32 * (2 ^ g - 1)) = Some b -> e = {| key := newest - 32 * (2 ^ g - 1); value := Some b |} /\ b <> NULL) as Hl.
  { intros b E. destruct (ri_live _ _ _ _ _ _ _ R _ _ E) as (_ & _ & Hb & j & id' & Hj & Hbase & Ei' & Ee').
    assert (j = 2 ^ g - 1) as -> by lia. rewrite Ei in Ei'. injection Ei' as <-. split; [congruence|done]. }
  unfold entry_free, INVALID_BLOCK_BASE in *.
  destruct (ri_free _ _ _ _ _ _ _ R id e) as [?|[Hk|[Hv|(b & E & Hv)]]]; [by eapply list_elem_of_lookup_2|done|done| | |].
  - left. rewrite Hk. split; [done|]. destruct (live !! _) as [b|]; [|done]. destruct (Hl b eq_refl) as [-> _]. simpl in Hk.
    unfold INVALID_BLOCK_BASE in Hk. dlia.
  - left. rewrite Hv. simpl. split; [by destruct (key e =? 1)|].
    destruct (live !! _) as [b|]; [|done]. destruct (Hl b eq_refl) as [-> Hb]. simpl in Hv. congruence.
  - right. destruct (live_range _ _ _ _ _ _ _ R _ _ E) as (Hr & _ & Hr' & Hb).
    rewrite Hv. simpl. rewrite (proj2 (Z.eqb_neq b NULL) Hb). rewrite (proj2 (Z.eqb_neq (key e) 1)) by (intros Hk; rewrite Hk in Hr'; done).
    split; [done|]. destruct (ri_keys _ _ _ _ _ _ _ R (2 ^ g - 1) id e ltac:(lia) Ei Ee) as [Hk|[Hk|[_ Hk]]].
    + unfold INVALID_BLOCK_BASE in Hk. rewrite Hk in Hr'. done.
    + rewrite <- Hk. by eexists.
    + lia.
Qed.

(** What a consumer computes from the tail it has read. *)
Lemma reaches_index x n p base b :
  reaches x n p base b ->
  exists hd tid te id, headers x !! n = Some hd /\ index hd !! Z.to_nat p = Some tid /\ entries x !! tid = Some te /\
    (base mod 32 = 0 -> key te <> INVALID_BLOCK_BASE) /\
    index hd !! Z.to_nat (index_for hd p (key te) base) = Some id /\ entries x !! id = Some {| key := base; value := Some b |}.
Proof.
  intros (hd & g & j & tid & te & id & Eh & Hg & Hc & Hp & Hj & Et & Ete & Hk & Ei & Ee).
  exists hd, tid, te, id. rewrite Hk, (index_for_spec _ g) by done. repeat split; try done.
  intros Hm. unfold INVALID_BLOCK_BASE. dlia.
Qed.
