(* ===== verification/Storage.v ===== *)
(** * The storage of a sub-queue (src/lib/concurrentqueue/concurrentqueue.h, ImplicitProducer)

    Mpmc.v models the counters of a sub-queue and takes its elements for a map
    from indices.  Here the elements are where the code keeps them: in the cells
    of blocks, which the producer requisitions and enters into the block index
    (BlockIndex.v) and the consumers find there, empty and put on the free list.
    The machine below has one step for each access to memory that the threads
    share; the steps on the counters are those of Mpmc.v.  It is shown to refine
    Mpmc.v: the blocks and the index implement the map.

    The free list (FreeList.v) is taken by its contract: [pool] are the blocks
    that belong to it.  Other sub-queues share the free list: [STake] and [SGive]
    are what they do to it, between any two steps. *)
From S2P Require Import Prelude Mpmc BlockIndex.

(** [Block]: the elements that exist, by their place, and the number of those
    that have been taken. *)
Record block := { cells : gmap Z ptr; elementsCompletelyDequeued : Z }.

Definition new_block : block := {| cells := ∅; elementsCompletelyDequeued := 0 |}.

(** Where the producer stands when it starts a new block; it has tested the head
    from [QEntry] on. *)
Inductive qpc :=
| QNone
| QHead (canAlloc : bool)
| QEntry (canAlloc : bool)
| QGrow
| QGrown
| QKey (newTail : Z) (idxEntry : nat)
| QTail (newTail : Z) (idxEntry : nat)
| QRequisition (idxEntry : nat)
| QRewind (idxEntry : nat)
| QClear (idxEntry : nat)
| QReset (idxEntry : nat) (newBlock : ptr)
| QValue (idxEntry : nat) (newBlock : ptr).

(** Where a consumer stands that has fetched an index: first it looks the block up,
    then it takes the element, then it cleans up. *)
Inductive lpc :=
| LNone
| LHeader
| LTail (localBlockIndex : nat)
| LKey (localBlockIndex : nat) (tail : Z)
| LIndex (localBlockIndex : nat) (tail tailBase : Z)
| LValue (entry : nat)
| LElement (entry : nat) (block : ptr)
| LEmpty (index : Z) (entry : nat) (block : ptr)
| LNull (index : Z) (entry : nat) (block : ptr)
| LFree (block : ptr).

(** [queue]: the counters and the threads, as in Mpmc.v, whose map of elements is
    not used. *)
Record sub := {
  queue : state;
  blocks_index : block_index;
  blocks : gmap ptr block;
  tailBlock : ptr;
  pool : gset ptr;
  starting : qpc;
  lookups : list lpc
}.

Definition sub_initial (pool : gset ptr) (consumers : nat) : sub :=
  {| queue := initial consumers; blocks_index := first_index; blocks := gset_to_gmap new_block pool; tailBlock := NULL;
     pool := pool; starting := QNone; lookups := replicate consumers LNone |}.

Definition set_queue (q : state) (s : sub) : sub :=
  {| queue := q; blocks_index := blocks_index s; blocks := blocks s; tailBlock := tailBlock s; pool := pool s;
     starting := starting s; lookups := lookups s |}.
Definition set_index (x : block_index) (s : sub) : sub :=
  {| queue := queue s; blocks_index := x; blocks := blocks s; tailBlock := tailBlock s; pool := pool s;
     starting := starting s; lookups := lookups s |}.
Definition set_block (b : ptr) (blk : block) (s : sub) : sub :=
  {| queue := queue s; blocks_index := blocks_index s; blocks := <[b := blk]> (blocks s); tailBlock := tailBlock s;
     pool := pool s; starting := starting s; lookups := lookups s |}.
Definition set_tailBlock (b : ptr) (s : sub) : sub :=
  {| queue := queue s; blocks_index := blocks_index s; blocks := blocks s; tailBlock := b; pool := pool s;
     starting := starting s; lookups := lookups s |}.
Definition set_pool (X : gset ptr) (s : sub) : sub :=
  {| queue := queue s; blocks_index := blocks_index s; blocks := blocks s; tailBlock := tailBlock s; pool := X;
     starting := starting s; lookups := lookups s |}.
Definition start (c : qpc) (s : sub) : sub :=
  {| queue := queue s; blocks_index := blocks_index s; blocks := blocks s; tailBlock := tailBlock s; pool := pool s;
     starting := c; lookups := lookups s |}.
Definition look (i : nat) (c : lpc) (s : sub) : sub :=
  {| queue := queue s; blocks_index := blocks_index s; blocks := blocks s; tailBlock := tailBlock s; pool := pool s;
     starting := starting s; lookups := <[i := c]> (lookups s) |}.

(** [enqueue] returns false. *)
Definition refuse (s : sub) : option (sub * option result) :=
  Some (start QNone (set_queue (with_producer PIdle (queue s)) s), Some Refused).

(** The place of an element in its block. *)
Definition place (i : Z) : Z := Z.land i (BLOCK_SIZE - 1).

(** One step of [ImplicitProducer::enqueue].  [memory]: whether an allocation for
    the index succeeds; [got]: the answer of [requisition_block].  [None]: the
    producer stands at no operation, a pointer leads nowhere, something is read
    that was never written, or an assertion fails. *)
Definition qstep (memory : bool) (got : option ptr) (s : sub) : option (sub * option result) :=
  let x := blocks_index s in
  match producer (queue s), starting s with
  | PHead element t, QHead canAlloc =>
      if circular_less_than t (headIndex (queue s)) then None
      else if negb (circular_less_than (headIndex (queue s)) (u64 (t + BLOCK_SIZE))) then refuse s
      else Some (start (QEntry canAlloc) s, None)
  | PHead element t, QEntry canAlloc =>
      '(newTail, idxEntry) ← next_entry x;
      e ← entries x !! idxEntry;
      match entry_free e with
      | Some true => Some (start (QKey newTail idxEntry) s, None)
      | Some false => if canAlloc then Some (start QGrow s, None) else refuse s
      | None => None
      end
  | PHead element t, QGrow =>
      if memory then x' ← new_block_index x; Some (start QGrown (set_index x' s), None) else refuse s
  | PHead element t, QGrown =>
      '(newTail, idxEntry) ← next_entry x;
      e ← entries x !! idxEntry;
      if key e =? INVALID_BLOCK_BASE then Some (start (QKey newTail idxEntry) s, None) else None
  | PHead element t, QKey newTail idxEntry =>
      Some (start (QTail newTail idxEntry) (set_index (store_key idxEntry t x) s), None)
  | PHead element t, QTail newTail idxEntry =>
      n ← blockIndex x;
      Some (start (QRequisition idxEntry) (set_index (store_tail n newTail x) s), None)
  | PHead element t, QRequisition idxEntry =>
      match got with
      | None => Some (start (QRewind idxEntry) s, None)
      | Some b =>
          if bool_decide (b ∈ pool s) then Some (start (QReset idxEntry b) (set_pool (pool s ∖ {[b]}) s), None) else None
      end
  | PHead element t, QRewind idxEntry =>
      n ← blockIndex x;
      hd ← headers x !! n;
      Some (start (QClear idxEntry) (set_index (store_tail n (Z.land (u64 (tail hd - 1)) (u64 (capacity hd - 1))) x) s), None)
  | PHead element t, QClear idxEntry => refuse (set_index (store_value idxEntry NULL x) s)
  | PHead element t, QReset idxEntry b =>
      blk ← blocks s !! b;
      Some (start (QValue idxEntry b) (set_block b {| cells := cells blk; elementsCompletelyDequeued := 0 |} s), None)
  | PHead element t, QValue idxEntry b =>
      Some (start QNone (set_tailBlock b (set_index (store_value idxEntry b x)
              (set_queue (with_producer (PConstruct element t) (queue s)) s))), None)
  | PConstruct element t, QNone =>
      blk ← blocks s !! tailBlock s;
      Some (set_block (tailBlock s)
              {| cells := <[place t := element]> (cells blk); elementsCompletelyDequeued := elementsCompletelyDequeued blk |}
              (set_queue (with_producer (PTail element (u64 (1 + t))) (queue s)) s), None)
  | PTail element t, QNone => '(q, r) ← pstep true (queue s); Some (set_queue q s, r)
  | _, _ => None
  end.

(** One step of [ImplicitProducer::dequeue] by consumer [i]; a dequeued element is
    reported when it is moved to the caller. *)
Definition lstep (i : nat) (s : sub) : option (sub * option result) :=
  let x := blocks_index s in
  c ← consumers (queue s) !! i;
  l ← lookups s !! i;
  match l, c with
  | LNone, CElement index => None
  | LNone, _ =>
      '(q, r) ← cstep i (queue s);
      let l := match consumers q !! i with Some (CElement _) => LHeader | _ => LNone end in
      Some (look i l (set_queue q s), r)
  | LHeader, CElement index => n ← blockIndex x; Some (look i (LTail n) s, None)
  | LTail n, CElement index => hd ← headers x !! n; Some (look i (LKey n (tail hd)) s, None)
  | LKey n p, CElement index =>
      hd ← headers x !! n;
      tid ← BlockIndex.index hd !! Z.to_nat p;
      te ← entries x !! tid;
      if key te =? INVALID_BLOCK_BASE then None else Some (look i (LIndex n p (key te)) s, None)
  | LIndex n p tailBase, CElement index =>
      hd ← headers x !! n;
      id ← BlockIndex.index hd !! Z.to_nat (index_for hd p tailBase (block_base index));
      e ← entries x !! id;
      v ← value e;
      if (key e =? block_base index) && negb (v =? NULL) then Some (look i (LValue id) s, None) else None
  | LValue id, CElement index =>
      e ← entries x !! id;
      v ← value e;
      Some (look i (LElement id v) s, None)
  | LElement id b, CElement index =>
      blk ← blocks s !! b;
      el ← cells blk !! place index;
      Some (look i (LEmpty index id b)
              (set_block b {| cells := delete (place index) (cells blk); elementsCompletelyDequeued := elementsCompletelyDequeued blk |}
                (set_queue (with_consumer i CIdle (queue s)) s)), Some (Dequeued i index el))
  | LEmpty index id b, _ =>
      blk ← blocks s !! b;
      let prevVal := elementsCompletelyDequeued blk in
      if prevVal <? BLOCK_SIZE then
        Some (look i (if prevVal =? BLOCK_SIZE - 1 then LNull index id b else LNone)
                (set_block b {| cells := cells blk; elementsCompletelyDequeued := u64 (prevVal + 1) |} s), None)
      else None
  | LNull index id b, _ => Some (look i (LFree b) (set_index (store_value id NULL x) s), None)
  | LFree b, _ => Some (look i LNone (set_pool (pool s ∪ {[b]}) s), None)
  | _, _ => None
  end.

(** A block without elements. *)
Definition vacant (blk : block) : bool := forallb (fun off => bool_decide (cells blk !! off = None)) (seqZ 0 BLOCK_SIZE).

Definition set_blocks (bs : gmap ptr block) (s : sub) : sub :=
  {| queue := queue s; blocks_index := blocks_index s; blocks := bs; tailBlock := tailBlock s; pool := pool s;
     starting := starting s; lookups := lookups s |}.

(** [STake]: another sub-queue requisitions a block, which is then no longer a
    block of this one's.  [SGive]: it puts a block on the free list. *)
Inductive sub_event :=
| SEnqueue (element : ptr) (canAlloc : bool)
| SProducer (memory : bool) (got : option ptr)
| SDequeue (consumer : nat)
| SConsumer (consumer : nat)
| STake (b : ptr)
| SGive (b : ptr) (blk : block).

Definition sub_next (e : sub_event) (s : sub) : option (sub * option result) :=
  match e with
  | SEnqueue element canAlloc =>
      '(q, r) ← next (Enqueue element) (queue s);
      Some (start (match producer q with PHead _ _ => QHead canAlloc | _ => QNone end) (set_queue q s), r)
  | SProducer memory got => qstep memory got s
  | SDequeue i =>
      match lookups s !! i with
      | Some LNone => '(q, r) ← next (Dequeue i) (queue s); Some (set_queue q s, r)
      | _ => None
      end
  | SConsumer i => lstep i s
  | STake b => if bool_decide (b ∈ pool s) then Some (set_pool (pool s ∖ {[b]}) (set_blocks (delete b (blocks s)) s), None) else None
  | SGive b blk =>
      if bool_decide (b = NULL) || bool_decide (is_Some (blocks s !! b)) || negb (vacant blk) then None
      else Some (set_pool (pool s ∪ {[b]}) (set_block b blk s), None)
  end.

Fixpoint sub_run (es : list sub_event) (s : sub) : option (sub * list result) :=
  match es with
  | [] => Some (s, [])
  | e :: es =>
      '(s1, r) ← sub_next e s;
      '(s2, rs) ← sub_run es s1;
      Some (s2, option_list r ++ rs)
  end.

(** ** The invariant

    [live]: the blocks in use, by the first of their indices; [frontier]: the
    first index that has no block yet. *)
Definition base_of (i : Z) : Z := i - i mod 32.

Definition elem_at (base : Z) (c : cpc) : Z := match c with CElement i => same base (base_of i) | _ => 0 end.
Definition empty_at (base : Z) (l : lpc) : Z := match l with LEmpty i _ _ => same base (base_of i) | _ => 0 end.
Definition null_at (base : Z) (l : lpc) : Z := match l with LNull i _ _ => same base (base_of i) | _ => 0 end.
Definition free_at (b : ptr) (l : lpc) : Z := match l with LFree b' => same b b' | _ => 0 end.
Definition held_at (b : ptr) (q : qpc) : Z := match q with QReset _ b' | QValue _ b' => same b b' | _ => 0 end.
Definition sum {A} (f : A -> Z) (l : list A) : Z := zsum (map f l).
(** How many blocks in use are [b]. *)
Definition lives (b : ptr) (live : gmap Z ptr) : Z := occ b (map_to_list live).*2.
(** How many indices of the block at [base] are below the head. *)
Definition below (h base : Z) : Z := Z.max 0 (Z.min 32 (h - base)).

Definition content (live : gmap Z ptr) (bs : gmap ptr block) (i : Z) : option ptr :=
  if decide (0 <= i) then b ← live !! base_of i; blk ← bs !! b; cells blk !! (i mod 32) else None.

(** What a consumer sees. *)
Definition sees (x : block_index) (live : gmap Z ptr) (n : nat) (c : cpc) (l : lpc) : Prop :=
  match l with
  | LNone => forall i, c <> CElement i
  | LHeader => exists i, c = CElement i
  | LTail n' => exists i b, c = CElement i /\ live !! base_of i = Some b /\
      (n' = n \/ exists hd, headers x !! n' = Some hd /\ reaches x n' (tail hd) (base_of i) b)
  | LKey n' p => exists i b, c = CElement i /\ live !! base_of i = Some b /\ reaches x n' p (base_of i) b
  | LIndex n' p tailBase => exists i b hd id, c = CElement i /\ live !! base_of i = Some b /\ headers x !! n' = Some hd /\
      index hd !! Z.to_nat (index_for hd p tailBase (base_of i)) = Some id /\
      entries x !! id = Some {| key := base_of i; value := Some b |}
  | LValue id => exists i b, c = CElement i /\ live !! base_of i = Some b /\
      entries x !! id = Some {| key := base_of i; value := Some b |}
  | LElement id b => exists i, c = CElement i /\ live !! base_of i = Some b /\
      entries x !! id = Some {| key := base_of i; value := Some b |}
  | LEmpty i id b | LNull i id b => c = CIdle /\ live !! base_of i = Some b /\
      entries x !! id = Some {| key := base_of i; value := Some b |}
  | LFree b => c = CIdle
  end.

Definition at_last (x : block_index) (hd : header) (g : Z) (id : nat) (e : entry) : Prop :=
  index hd !! position hd (2 ^ g - 1) = Some id /\ entries x !! id = Some e.

(** What the producer knows; [t]: the tail. *)
Definition stands (x : block_index) (live : gmap Z ptr) (frontier : Z) (hd : header) (g newest : Z) (exempt : option nat)
    (t : Z) (p : ppc) (q : qpc) : Prop :=
  match p, q with
  | PHead _ _, QHead _ | PHead _ _, QEntry _ => t = frontier /\ newest + 32 = frontier /\ exempt = None
  | PHead _ _, QGrow => t = frontier /\ newest + 32 = frontier /\ exempt = None /\ 32 * (2 ^ g - 1) <= newest /\
      forall id e, at_last x hd g id e -> key e <> newest + 32
  | PHead _ _, QGrown => t = frontier /\ newest + 32 = frontier /\ exempt = None /\
      exists id e, at_last x hd g id e /\ key e = INVALID_BLOCK_BASE
  | PHead _ _, QKey newTail id => t = frontier /\ newest + 32 = frontier /\ exempt = None /\
      newTail = (tail hd + 1) mod 2 ^ g /\ live !! (newest - 32 * (2 ^ g - 1)) = None /\ exists e, at_last x hd g id e
  | PHead _ _, QTail newTail id => t = frontier /\ newest + 32 = frontier /\ exempt = Some id /\
      newTail = (tail hd + 1) mod 2 ^ g /\ live !! (newest - 32 * (2 ^ g - 1)) = None /\
      exists e, at_last x hd g id e /\ key e = newest + 32
  | PHead _ _, QRequisition id | PHead _ _, QRewind id | PHead _ _, QReset id _ | PHead _ _, QValue id _ =>
      t = frontier /\ newest = frontier /\ exempt = Some id /\ settled x hd newest /\
      exists e, index hd !! position hd 0 = Some id /\ entries x !! id = Some e /\ key e = newest
  | PHead _ _, QClear id => t = frontier /\ newest + 32 = frontier /\ exempt = Some id /\
      exists e, entries x !! id = Some e /\ key e = frontier
  | PIdle, QNone => newest + 32 = frontier /\ exempt = None /\ t <= frontier < t + 32
  | PConstruct _ _, QNone | PTail _ _, QNone => newest + 32 = frontier /\ exempt = None /\ t < frontier <= t + 32
  | _, _ => False
  end.

Record SInv (s : sub) (m live : gmap Z ptr) (frontier : Z) (n : nat) (hd : header) (g newest : Z) (exempt : option nat) : Prop := {
  si_ring : Ring (blocks_index s) n hd g newest live exempt;
  si_frontier : 0 <= frontier /\ frontier mod 32 = 0 /\ forall base b, live !! base = Some b -> base < frontier;
  si_counts : forall base b, live !! base = Some b -> exists blk, blocks s !! b = Some blk /\
    0 <= elementsCompletelyDequeued blk /\
    elementsCompletelyDequeued blk + sum (elem_at base) (consumers (queue s)) + sum (empty_at base) (lookups s) =
      below (headIndex (queue s)) base /\
    sum (null_at base) (lookups s) = c_bool (elementsCompletelyDequeued blk =? 32);
  si_gone : forall base, live !! base = None ->
    sum (elem_at base) (consumers (queue s)) = 0 /\ sum (empty_at base) (lookups s) = 0 /\ sum (null_at base) (lookups s) = 0;
  si_passed : forall base, 0 <= base < frontier -> base mod 32 = 0 -> live !! base = None -> base + 32 <= headIndex (queue s);
  si_cells : forall i, m !! i = content live (blocks s) i;
  si_places : forall b, inside b (pool s) + lives b live + sum (free_at b) (lookups s) + held_at b (starting s) =
    c_bool (bool_decide (is_Some (blocks s !! b)));
  si_fresh : forall b blk off, blocks s !! b = Some blk -> lives b live = 0 -> 0 <= off < 32 -> cells blk !! off = None;
  si_null : blocks s !! NULL = None;
  si_reset : forall id b, starting s = QValue id b -> exists blk, blocks s !! b = Some blk /\ elementsCompletelyDequeued blk = 0;
  si_length : length (lookups s) = length (consumers (queue s));
  si_lookups : forall i c l, consumers (queue s) !! i = Some c -> lookups s !! i = Some l -> sees (blocks_index s) live n c l;
  si_tail : forall b, live !! (frontier - 32) = Some b -> tailBlock s = b;
  si_producer : stands (blocks_index s) live frontier hd g newest exempt (tailIndex (queue s)) (producer (queue s)) (starting s)
}.

Definition with_elements (m : gmap Z ptr) (q : state) : state :=
  with_counters (tailIndex q) (headIndex q) (dequeueOptimisticCount q) (dequeueOvercommit q) m q.

(** *** Sums *)
Lemma sum_insert {A} (f : A -> Z) l i x y : l !! i = Some x -> sum f (<[i := y]> l) = sum f l - f x + f y.
Proof. apply zsum_map_insert. Qed.

Lemma sum_le {A} (f : A -> Z) l i x : (forall x, 0 <= f x) -> l !! i = Some x -> f x <= sum f l.
Proof. apply zsum_map_le. Qed.

Lemma sum_nonneg {A} (f : A -> Z) l : (forall x, 0 <= f x) -> 0 <= sum f l.
Proof. apply zsum_map_nonneg. Qed.

Lemma sum_le_two {A} (f : A -> Z) l i j x y :
  (forall x, 0 <= f x) -> i <> j -> l !! i = Some x -> l !! j = Some y -> f x + f y <= sum f l.
Proof.
  intros Hf Hij Ex Ey. unfold sum. pose proof (zsum_map_delete f l i x Ex) as Hd.
  destruct (decide (i < j)%nat).
  - pose proof (zsum_map_le f (delete i l) (j - 1) y Hf) as Hl. rewrite list_lookup_delete_ge in Hl by lia.
    replace (S (j - 1)) with j in Hl by lia. specialize (Hl Ey). lia.
  - pose proof (zsum_map_le f (delete i l) j y Hf) as Hl. rewrite list_lookup_delete_lt in Hl by lia. specialize (Hl Ey). lia.
Qed.

Lemma same_range n x : 0 <= same n x <= 1.
Proof. destruct (same_cases n x); lia. Qed.

Lemma at_nonneg base b : (forall c, 0 <= elem_at base c) /\ (forall l, 0 <= empty_at base l) /\ (forall l, 0 <= null_at base l) /\
  (forall l, 0 <= free_at b l) /\ (forall q, 0 <= held_at b q).
Proof.
  assert (forall n x, 0 <= same n x) as Hs by (intros n x; apply same_range).
  repeat split; intros []; simpl; auto; lia.
Qed.

Lemma lives_insert b base b' live : live !! base = None -> lives b (<[base := b']> live) = same b b' + lives b live.
Proof.
  intros E. unfold lives. rewrite <- occ_cons. unfold occ. apply zsum_perm. apply Permutation_map.
  rewrite map_to_list_insert by done. done.
Qed.

Lemma lives_delete b base b' live : live !! base = Some b' -> lives b (delete base live) = lives b live - same b b'.
Proof.
  intros E. rewrite <- (insert_delete_id live base b' E) at 2. rewrite lives_insert by apply lookup_delete_eq. lia.
Qed.

Lemma lives_nonneg b live : 0 <= lives b live.
Proof. apply occ_nonneg. Qed.

Lemma lives_same live base b : live !! base = Some b -> 1 <= lives b live.
Proof. intros E. pose proof (lives_nonneg b (delete base live)). rewrite (lives_delete b base b) in * by done. rewrite same_refl in *. lia. Qed.

Lemma lives_unique live base base' b : live !! base = Some b -> live !! base' = Some b -> lives b live <= 1 -> base = base'.
Proof.
  intros E E' Hl. destruct (decide (base = base')) as [|Hn]; [done|]. exfalso.
  pose proof (lives_same (delete base live) base' b) as Hs. rewrite lookup_delete_ne in Hs by done. specialize (Hs E').
  rewrite (lives_delete b base b) in Hs by done. rewrite same_refl in Hs. lia.
Qed.

(** *** Indices *)
Lemma place_eq i : place i = i mod 32.
Proof. unfold place, BLOCK_SIZE. change (32 - 1) with (Z.ones 5). by rewrite Z.land_ones. Qed.

Lemma block_base_eq i : is_u64 i -> block_base i = base_of i.
Proof. apply block_base_spec. Qed.

Lemma base_of_spec i : base_of i mod 32 = 0 /\ base_of i <= i < base_of i + 32.
Proof. unfold base_of. split; dlia. Qed.

Lemma base_of_unique i base : base mod 32 = 0 -> base <= i < base + 32 -> base_of i = base.
Proof. unfold base_of. intros. dlia. Qed.

(** *** What the consumers see outlives a change of the index *)
Record keeps (x x' : block_index) (n n' : nat) (live : gmap Z ptr) : Prop := {
  ke_reaches : forall k p base b, live !! base = Some b -> reaches x k p base b -> reaches x' k p base b;
  ke_entry : forall id base b, live !! base = Some b ->
    entries x !! id = Some {| key := base; value := Some b |} -> entries x' !! id = Some {| key := base; value := Some b |};
  ke_header : forall k hd, headers x !! k = Some hd -> exists hd', headers x' !! k = Some hd' /\ index hd' = index hd /\
    capacity hd' = capacity hd /\ (k <> n -> tail hd' = tail hd);
  ke_current : n' = n \/ exists hd, headers x' !! n = Some hd /\ forall base b, live !! base = Some b -> reaches x' n (tail hd) base b
}.

Lemma keeps_refl x n live : keeps x x n n live.
Proof. split; auto. intros k hd E. by exists hd. Qed.

Lemma sees_keeps x x' n n' live c l : keeps x x' n n' live -> sees x live n c l -> sees x' live n' c l.
Proof.
  intros [K1 K2 K3 K4]. destruct l; simpl; try done.
  - intros (i & b & -> & E & Hl). exists i, b. split; [done|]. split; [done|].
    destruct (decide (localBlockIndex = n)) as [->|Hn].
    + destruct K4 as [->|(hd & Eh & Hr)]; [by left|]. right. exists hd. split; [done|]. by apply Hr.
    + destruct Hl as [?|(hd & Eh & Hr)]; [done|]. destruct (K3 _ _ Eh) as (hd' & Eh' & _ & _ & Ht). right. exists hd'.
      split; [done|]. rewrite Ht by done. by apply K1.
  - intros (i & b & -> & E & Hr). exists i, b. split; [done|]. split; [done|]. by apply K1.
  - intros (i & b & hd & id & -> & E & Eh & Ei & Ee). destruct (K3 _ _ Eh) as (hd' & Eh' & Hi & Hc & _).
    exists i, b, hd', id. split; [done|]. split; [done|]. split; [done|]. split; [|by apply K2].
    rewrite Hi. unfold index_for. rewrite Hc. done.
  - intros (i & b & -> & E & Ee). exists i, b. split; [done|]. split; [done|]. by apply K2.
  - intros (i & -> & E & Ee). exists i. split; [done|]. split; [done|]. by apply K2.
  - intros (Hc & E & Ee). split; [done|]. split; [done|]. by apply K2.
  - intros (Hc & E & Ee). split; [done|]. split; [done|]. by apply K2.
Qed.

Lemma keeps_store_key x n hd g newest live exempt id0 :
  Ring x n hd g newest live exempt ->
  index hd !! position hd (2 ^ g - 1) = Some id0 -> live !! (newest - 32 * (2 ^ g - 1)) = None ->
  keeps x (store_key id0 (newest + 32) x) n n live.
Proof.
  intros R Ei Ho. split.
  - intros k p base b E. by eapply reaches_store_key.
  - intros id base b E Ee. simpl. rewrite alter_lookup, decide_False; [done|]. intros ->.
    by apply (live_not_oldest _ _ _ _ _ _ _ R base b id Ho Ei E _ Ee).
  - intros k hd' Eh. by exists hd'.
  - by left.
Qed.

Lemma keeps_store_tail x n p live : keeps x (store_tail n p x) n n live.
Proof.
  split.
  - intros k q base b _. apply reaches_store_tail.
  - done.
  - intros k hd Eh. simpl. rewrite alter_lookup, Eh. destruct (decide (n = k)) as [->|Hn].
    + by exists (set_tail p hd).
    + by exists hd.
  - by left.
Qed.

Lemma keeps_store_value x n id0 e0 v live :
  entries x !! id0 = Some e0 -> live !! key e0 = None -> keeps x (store_value id0 v x) n n live.
Proof.
  intros Ee0 Ho. split.
  - intros k p base b E. apply reaches_store_value. intros e Ee Hk. rewrite Ee0 in Ee. injection Ee as <-. congruence.
  - intros id base b E Ee. simpl. rewrite alter_lookup, decide_False; [done|]. intros ->. rewrite Ee0 in Ee. injection Ee as ->.
    simpl in Ho. congruence.
  - intros k hd Eh. by exists hd.
  - by left.
Qed.

Lemma keeps_grow x x' n hd g newest live exempt :
  Ring x n hd g newest live exempt -> new_block_index x = Some x' -> g + 1 <= 59 -> keeps x x' n (length (headers x)) live.
Proof.
  intros R Hx Hg. destruct (new_block_index_spec _ _ _ _ _ _ _ R Hg) as (old & Hx' & _). rewrite Hx in Hx'. injection Hx' as ->. split.
  - intros k p base b _. by apply reaches_grow.
  - intros id base b _ Ee. simpl. by apply lookup_app_l_Some.
  - intros k hd' Eh. exists hd'. simpl. split; [by apply lookup_app_l_Some|done].
  - right. exists hd. simpl. split; [apply lookup_app_l_Some, (ri_header _ _ _ _ _ _ _ R)|]. intros base b E.
    apply (reaches_grow x); [done|]. by eapply ring_reaches.
Qed.

(** *** The steps of the producer *)
Lemma SInv_index s m live frontier n hd g newest exempt x' n' hd' g' newest' exempt' p' q' :
  SInv s m live frontier n hd g newest exempt ->
  Ring x' n' hd' g' newest' live exempt' -> keeps (blocks_index s) x' n n' live ->
  stands x' live frontier hd' g' newest' exempt' (tailIndex (queue s)) p' q' ->
  (forall b, held_at b q' = held_at b (starting s)) -> (forall id b, q' <> QValue id b) ->
  SInv (start q' (set_queue (with_producer p' (queue s)) (set_index x' s))) m live frontier n' hd' g' newest' exempt'.
Proof.
  intros [I1 I2 I3 I4 I5 I6 I7 I8 I9 I10 I11 I12 I13 I14] R K Hst Hh Hq. constructor; simpl; try done.
  - intros b. rewrite Hh. apply I7.
  - intros id b E. by destruct (Hq id b).
  - intros i c l Ec El. apply (sees_keeps (blocks_index s) x' n); [done|]. by apply (I12 i).
Qed.

Definition SI (s : sub) (m : gmap Z ptr) : Prop :=
  exists live frontier n hd g newest exempt, SInv s m live frontier n hd g newest exempt.

(** At most one step of the machine of Mpmc.v does the same. *)
Definition simulated (s s' : sub) (m m' : gmap Z ptr) (r : option result) : Prop :=
  exists es, (length es <= 1)%nat /\ run es (with_elements m (queue s)) = Some (with_elements m' (queue s'), option_list r).

Lemma simulated_stutter s s' m : queue s' = queue s -> simulated s s' m m None.
Proof. intros Hq. exists []. rewrite Hq. split; [simpl; lia|done]. Qed.

Lemma simulated_step s s' m m' e r :
  next e (with_elements m (queue s)) = Some (with_elements m' (queue s'), r) -> simulated s s' m m' r.
Proof. intros He. exists [e]. split; [done|]. simpl. rewrite He. simpl. by rewrite app_nil_r. Qed.

(** The counters, as far as the steps of the producer are concerned. *)
Definition in_range (s : sub) (k : Z) : Prop :=
  0 <= headIndex (queue s) <= tailIndex (queue s) /\ tailIndex (queue s) <= k /\ k + 33 < 2 ^ 63.

Definition head_ok (s : sub) : Prop :=
  match producer (queue s) with PIdle => True | PHead _ t | PConstruct _ t => t = tailIndex (queue s) | PTail _ t => t = tailIndex (queue s) + 1 end.

Lemma head_test s k t :
  in_range s k -> t = tailIndex (queue s) -> circular_less_than (headIndex (queue s)) (u64 (t + BLOCK_SIZE)) = true.
Proof.
  intros (Hh & Ht & Hk) ->. change (2 ^ 63) with 9223372036854775808 in Hk. unfold BLOCK_SIZE.
  rewrite u64_small by (unfold is_u64; lia). rewrite circular_less_than_small by lia. apply Z.ltb_lt. lia.
Qed.

(** The assertion of [enqueue]. *)
Lemma head_assert s k t :
  in_range s k -> t = tailIndex (queue s) -> circular_less_than t (headIndex (queue s)) = false.
Proof.
  intros (Hh & Ht & Hk) ->. rewrite circular_less_than_small by lia. apply Z.ltb_ge. lia.
Qed.

Lemma simulated_refuse s m x t c x' :
  producer (queue s) = PHead x t -> circular_less_than t (headIndex (queue s)) = false ->
  simulated s (start c (set_queue (with_producer PIdle (queue s)) (set_index x' s))) m m (Some Refused).
Proof. intros Ep Ha. apply (simulated_step _ _ _ _ (PStep false)). simpl. unfold pstep. simpl. rewrite Ep, Ha. by rewrite orb_true_r. Qed.

Lemma with_producer_same q : with_producer (producer q) q = q.
Proof. by destruct q. Qed.

Lemma refuse_index x' s s' r :
  refuse (set_index x' s) = Some (s', r) ->
  s' = start QNone (set_queue (with_producer PIdle (queue s)) (set_index x' s)) /\ r = Some Refused.
Proof. intros [= <- <-]. done. Qed.

Lemma set_index_same s : set_index (blocks_index s) s = s.
Proof. by destruct s. Qed.

(** A step of the producer that changes at most the index. *)
Lemma sim_index s m live frontier n hd g newest exempt x' n' hd' g' newest' exempt' q' s' :
  SInv s m live frontier n hd g newest exempt ->
  Ring x' n' hd' g' newest' live exempt' -> s' = start q' (set_index x' s) -> keeps (blocks_index s) x' n n' live ->
  stands x' live frontier hd' g' newest' exempt' (tailIndex (queue s)) (producer (queue s)) q' ->
  (forall b, held_at b q' = held_at b (starting s)) -> (forall id b, q' <> QValue id b) ->
  exists m', simulated s s' m m' None /\ SI s' m'.
Proof.
  intros I R -> K Hst Hh Hq. exists m. split; [by apply simulated_stutter|].
  pose proof (SInv_index _ _ _ _ _ _ _ _ _ _ _ _ _ _ _ (producer (queue s)) q' I R K Hst Hh Hq) as I'.
  rewrite with_producer_same in I'. do 7 eexists. exact I'.
Qed.

Lemma sim_refuse s m live frontier n hd g newest exempt x' n' hd' g' newest' exempt' s' r x t :
  SInv s m live frontier n hd g newest exempt ->
  Ring x' n' hd' g' newest' live exempt' -> keeps (blocks_index s) x' n n' live ->
  producer (queue s) = PHead x t -> circular_less_than t (headIndex (queue s)) = false ->
  tailIndex (queue s) = frontier -> newest' + 32 = frontier -> exempt' = None ->
  (forall b, held_at b (starting s) = 0) -> refuse (set_index x' s) = Some (s', r) ->
  exists m', simulated s s' m m' r /\ SI s' m'.
Proof.
  intros I R K Ep Ha Ht Hn He Hh [-> ->]%refuse_index. exists m. split; [by eapply simulated_refuse|].
  do 7 eexists. apply (SInv_index _ _ _ _ _ _ _ _ _ _ _ _ _ _ _ PIdle QNone I R K); [|done|done].
  simpl. split; [done|]. split; [done|lia].
Qed.

Section producer.
Context (s : sub) (m live : gmap Z ptr) (frontier : Z) (n : nat) (hd : header) (g newest : Z) (exempt : option nat) (k : Z).
Context (I : SInv s m live frontier n hd g newest exempt) (Hr : in_range s k) (Hok : head_ok s).
Context (x : ptr) (t : Z) (Ep : producer (queue s) = PHead x t).

Abbreviation R := (si_ring _ _ _ _ _ _ _ _ _ I).

Lemma started_stands : stands (blocks_index s) live frontier hd g newest exempt (tailIndex (queue s)) (PHead x t) (starting s).
Proof. rewrite <- Ep. apply (si_producer _ _ _ _ _ _ _ _ _ I). Qed.

Lemma started_assert : circular_less_than t (headIndex (queue s)) = false.
Proof. apply (head_assert _ _ _ Hr). unfold head_ok in Hok. by rewrite Ep in Hok. Qed.

Lemma frontier_bound : newest + 32 <= frontier + 32 -> tailIndex (queue s) = frontier -> 32 * (2 ^ g - 1) <= newest -> g + 1 <= 59.
Proof.
  intros Hn Ht Hw. destruct Hr as (_ & Htk & Hk). change (2 ^ 63) with 9223372036854775808 in Hk.
  pose proof (ri_size _ _ _ _ _ _ _ R). destruct (decide (g = 59)) as [->|]; [|lia].
  change (2 ^ 59) with 576460752303423488 in Hw. lia.
Qed.

Lemma sim_entry canAlloc s' r :
  starting s = QEntry canAlloc -> qstep false None s = Some (s', r) -> exists m', simulated s s' m m' r /\ SI s' m'.
Proof.
  intros Eq Hs. pose proof started_assert as Hassert. pose proof started_stands as Hst. unfold qstep in Hs. rewrite Ep, Eq in *. simpl in Hst.
  destruct Hst as (Ht & Hn & He).
  destruct (next_entry_spec _ _ _ _ _ _ _ R) as (id & e & Hne & Ei & Ee). rewrite Hne in Hs. simpl in Hs. rewrite Ee in Hs. simpl in Hs.
  pose proof R as R'. rewrite He in R'.
  destruct (entry_free_spec _ _ _ _ _ _ _ _ R' Ei Ee) as [[Hf Ho]|[Hf [b Ho]]]; rewrite Hf in Hs.
  - injection Hs as <- <-. eapply (sim_index _ _ _ _ _ _ _ _ _ (blocks_index s) _ _ _ _ _ _ _ I R); [by rewrite set_index_same|apply keeps_refl| | |done].
    + rewrite Ep. simpl. repeat split; try done. by exists e.
    + by rewrite Eq.
  - destruct canAlloc.
    + injection Hs as <- <-. eapply (sim_index _ _ _ _ _ _ _ _ _ (blocks_index s) _ _ _ _ _ _ _ I R); [by rewrite set_index_same|apply keeps_refl| | |done].
      * rewrite Ep. simpl. destruct (ri_live _ _ _ _ _ _ _ R _ _ Ho) as (H0 & _ & _ & j & id' & Hj & Hb & Ei' & Ee').
        pose proof (ring_pow _ _ _ _ _ _ _ R). repeat split; try done; [lia|]. intros id1 e1 [Ei1 Ee1] Hk1.
        assert (j = 2 ^ g - 1) as -> by lia. rewrite Ei1 in Ei'. injection Ei' as <-. rewrite Ee1 in Ee'. injection Ee' as ->. simpl in Hk1. lia.
      * by rewrite Eq.
    + rewrite <- (set_index_same s) in Hs at 1. eapply (sim_refuse _ _ _ _ _ _ _ _ _ (blocks_index s) _ _ _ _ _ _ _ _ _ I R); [apply keeps_refl|done..| |exact Hs].
      by rewrite Eq.
Qed.

Lemma sim_grow memory s' r :
  starting s = QGrow -> qstep memory None s = Some (s', r) -> exists m', simulated s s' m m' r /\ SI s' m'.
Proof.
  intros Eq Hs. pose proof started_assert as Hassert. pose proof started_stands as Hst. unfold qstep in Hs. rewrite Ep, Eq in *. simpl in Hst.
  destruct Hst as (Ht & Hn & He & Hw & Hl). pose proof R as R'. rewrite He in R'. destruct memory.
  - assert (g + 1 <= 59) as Hg by (apply frontier_bound; lia).
    destruct (new_block_index_spec _ _ _ _ _ _ _ R Hg) as (old & Hx' & Hlen & Hlk). rewrite Hx' in Hs. simpl in Hs. injection Hs as <- <-.
    assert (forall id e, index hd !! position hd (2 ^ g - 1) = Some id -> entries (blocks_index s) !! id = Some e -> key e <> newest + 32) as Hold
      by (intros id e Ei Ee; by apply (Hl id e)).
    eapply (sim_index _ _ _ _ _ _ _ _ _ _ _ _ _ _ _ _ _ I (ring_grow _ _ _ _ _ _ _ R' Hg Hold Hlen Hlk));
      [done|by eapply keeps_grow| |by rewrite Eq|done].
    rewrite Ep. simpl. destruct (grown_last _ _ _ _ _ _ _ R' Hlen) as (id & Ei & Ee). repeat split; try done. by eexists id, _.
  - rewrite <- (set_index_same s) in Hs at 1. eapply (sim_refuse _ _ _ _ _ _ _ _ _ (blocks_index s) _ _ _ _ _ _ _ _ _ I R); [apply keeps_refl|done..| |exact Hs].
    by rewrite Eq.
Qed.

Lemma sim_grown s' r :
  starting s = QGrown -> qstep false None s = Some (s', r) -> exists m', simulated s s' m m' r /\ SI s' m'.
Proof.
  intros Eq Hs. pose proof started_stands as Hst. unfold qstep in Hs. rewrite Ep, Eq in *. simpl in Hst.
  destruct Hst as (Ht & Hn & He & id & e & [Ei Ee] & Hk). pose proof R as R'. rewrite He in R'.
  destruct (next_entry_spec _ _ _ _ _ _ _ R) as (id' & e' & Hne & Ei' & Ee'). rewrite Hne in Hs. simpl in Hs. rewrite Ee' in Hs. simpl in Hs.
  assert (id' = id) as -> by congruence. assert (e' = e) as -> by congruence. rewrite Hk in Hs. simpl in Hs. injection Hs as <- <-.
  eapply (sim_index _ _ _ _ _ _ _ _ _ (blocks_index s) _ _ _ _ _ _ _ I R); [by rewrite set_index_same|apply keeps_refl| |by rewrite Eq|done].
  rewrite Ep. simpl. repeat split; try done; [|by exists e].
  destruct (entry_free_spec _ _ _ _ _ _ _ _ R' Ei Ee) as [[_ Ho]|[Hf _]]; [done|]. unfold entry_free in Hf. by rewrite Hk in Hf.
Qed.

Lemma sim_key newTail id s' r :
  starting s = QKey newTail id -> qstep false None s = Some (s', r) -> exists m', simulated s s' m m' r /\ SI s' m'.
Proof.
  intros Eq Hs. pose proof started_stands as Hst. unfold qstep in Hs. rewrite Ep, Eq in *. simpl in Hst.
  destruct Hst as (Ht & Hn & He & Hp & Ho & e & Ei & Ee). pose proof R as R'. rewrite He in R'. injection Hs as <- <-.
  unfold head_ok in Hok. rewrite Ep in Hok. rewrite Hok, Ht, <- Hn.
  eapply (sim_index _ _ _ _ _ _ _ _ _ _ _ _ _ _ _ _ _ I (ring_store_key _ _ _ _ _ _ _ R' Ei Ho)); [done|by eapply keeps_store_key| |by rewrite Eq|done].
  rewrite Ep. simpl. repeat split; try done. exists (set_key (newest + 32) e). split; [|done]. split; [done|].
  simpl. by rewrite alter_lookup, decide_True, Ee.
Qed.

Lemma sim_tail newTail id s' r :
  starting s = QTail newTail id -> qstep false None s = Some (s', r) -> exists m', simulated s s' m m' r /\ SI s' m'.
Proof.
  intros Eq Hs. pose proof started_stands as Hst. unfold qstep in Hs. rewrite Ep, Eq in *. simpl in Hst.
  destruct Hst as (Ht & Hn & He & Hp & Ho & e & [Ei Ee] & Hk). pose proof R as R'. rewrite He in R'.
  rewrite (ri_current _ _ _ _ _ _ _ R) in Hs. simpl in Hs. injection Hs as <- <-. rewrite Hp.
  eapply (sim_index _ _ _ _ _ _ _ _ _ _ _ _ _ _ _ _ _ I (ring_advance _ _ _ _ _ _ _ _ R' Ei Ee Hk Ho)); [done|apply keeps_store_tail| |by rewrite Eq|done].
  rewrite Ep. simpl. split; [done|]. split; [done|]. split; [done|]. split; [by eapply advance_settled|].
  exists e. split; [|split; [done|lia]]. unfold position. simpl. rewrite (ri_capacity _ _ _ _ _ _ _ R), Z.sub_0_r, Z.mod_mod by (pose proof (ring_pow _ _ _ _ _ _ _ R); lia).
  by rewrite (position_last _ _ _ _ _ _ _ R) in Ei.
Qed.

Lemma sim_rewind id s' r :
  starting s = QRewind id -> qstep false None s = Some (s', r) -> exists m', simulated s s' m m' r /\ SI s' m'.
Proof.
  intros Eq Hs. pose proof started_stands as Hst. unfold qstep in Hs. rewrite Ep, Eq in *. simpl in Hst.
  destruct Hst as (Ht & Hn & He & Hse & e & Ei & Ee & Hk). pose proof R as R'. rewrite He in R'.
  rewrite (ri_current _ _ _ _ _ _ _ R) in Hs. simpl in Hs. rewrite (ri_header _ _ _ _ _ _ _ R) in Hs. simpl in Hs.
  rewrite (ri_capacity _ _ _ _ _ _ _ R), land_mask_capacity in Hs by apply (ri_size _ _ _ _ _ _ _ R). injection Hs as <- <-.
  destruct (si_frontier _ _ _ _ _ _ _ _ _ I) as (Hf0 & Hfm & Hfl).
  assert (live !! newest = None) as Ho by (destruct (live !! newest) as [b|] eqn:E; [specialize (Hfl _ _ E); lia|done]).
  eapply (sim_index _ _ _ _ _ _ _ _ _ _ _ _ _ _ _ _ _ I (ring_rewind _ _ _ _ _ _ _ _ R' Hse Ei Ee Hk Ho ltac:(lia))); [done|apply keeps_store_tail| |by rewrite Eq|done].
  rewrite Ep. simpl. repeat split; try done; [lia|]. exists e. split; [done|lia].
Qed.

Lemma sim_clear id s' r :
  starting s = QClear id -> qstep false None s = Some (s', r) -> exists m', simulated s s' m m' r /\ SI s' m'.
Proof.
  intros Eq Hs. pose proof started_assert as Hassert. pose proof started_stands as Hst. unfold qstep in Hs. rewrite Ep, Eq in *. simpl in Hst.
  destruct Hst as (Ht & Hn & He & e & Ee & Hk). pose proof R as R'. rewrite He in R'.
  destruct (si_frontier _ _ _ _ _ _ _ _ _ I) as (Hf0 & Hfm & Hfl).
  assert (live !! key e = None) as Ho by (rewrite Hk; destruct (live !! frontier) as [b|] eqn:E; [specialize (Hfl _ _ E); lia|done]).
  eapply (sim_refuse _ _ _ _ _ _ _ _ _ _ _ _ _ _ _ _ _ _ _ I (ring_clear _ _ _ _ _ _ _ _ R' Ee Ho)); [by eapply keeps_store_value|done..| |exact Hs].
  by rewrite Eq.
Qed.
End producer.

(** *** Blocks *)
Lemma c_bool_range b : 0 <= c_bool b <= 1.
Proof. by destruct b. Qed.

(** Where a block is. *)
Lemma places_range s m live frontier n hd g newest exempt b :
  SInv s m live frontier n hd g newest exempt ->
  0 <= inside b (pool s) /\ 0 <= lives b live /\ 0 <= sum (free_at b) (lookups s) /\ 0 <= held_at b (starting s) /\
  inside b (pool s) + lives b live + sum (free_at b) (lookups s) + held_at b (starting s) <= 1.
Proof.
  intros I. pose proof (si_places _ _ _ _ _ _ _ _ _ I b) as Hp. pose proof (c_bool_range (bool_decide (is_Some (blocks s !! b)))).
  destruct (at_nonneg 0 b) as (_ & _ & _ & Hf & Hh). pose proof (sum_nonneg (free_at b) (lookups s) Hf). specialize (Hh (starting s)).
  pose proof (lives_nonneg b live). destruct (inside_cases b (pool s)) as [[_ ?]|[_ ?]]; lia.
Qed.

Lemma live_block s m live frontier n hd g newest exempt base base' b :
  SInv s m live frontier n hd g newest exempt -> live !! base = Some b -> live !! base' = Some b -> base = base'.
Proof. intros I E E'. apply (lives_unique live base base' b E E'). pose proof (places_range _ _ _ _ _ _ _ _ _ b I). lia. Qed.

Lemma content_other live bs b blk i : (forall base, live !! base <> Some b) -> content live (<[b := blk]> bs) i = content live bs i.
Proof.
  intros Hn. unfold content. destruct (decide (0 <= i)); [|done]. destruct (live !! base_of i) as [b'|] eqn:E; [|done]. simpl.
  rewrite lookup_insert_ne; [done|]. intros <-. by destruct (Hn (base_of i)).
Qed.

Lemma insert_block_domain (bs : gmap ptr block) b blk blk' n :
  bs !! b = Some blk -> is_Some (<[b := blk']> bs !! n) <-> is_Some (bs !! n).
Proof.
  intros E. destruct (decide (n = b)) as [->|Hn]; [rewrite lookup_insert_eq, E; split; by eexists|by rewrite lookup_insert_ne].
Qed.

Section producer_blocks.
Context (s : sub) (m live : gmap Z ptr) (frontier : Z) (n : nat) (hd : header) (g newest : Z) (exempt : option nat) (k : Z).
Context (I : SInv s m live frontier n hd g newest exempt) (Hr : in_range s k) (Hok : head_ok s).

Lemma sim_head x t canAlloc s' r :
  producer (queue s) = PHead x t -> starting s = QHead canAlloc -> qstep false None s = Some (s', r) ->
  exists m', simulated s s' m m' r /\ SI s' m'.
Proof.
  intros Ep Eq Hs. pose proof (si_producer _ _ _ _ _ _ _ _ _ I) as Hst. unfold head_ok in Hok. unfold qstep in Hs. rewrite Ep, Eq in *. simpl in Hst.
  rewrite (head_assert _ _ _ Hr Hok), (head_test _ _ _ Hr Hok) in Hs. injection Hs as <- <-.
  eapply (sim_index _ _ _ _ _ _ _ _ _ (blocks_index s) _ _ _ _ _ _ _ I (si_ring _ _ _ _ _ _ _ _ _ I)); [by rewrite set_index_same|apply keeps_refl| |by rewrite Eq|done].
  by rewrite Ep.
Qed.

Lemma sim_requisition x t id got s' r :
  producer (queue s) = PHead x t -> starting s = QRequisition id -> qstep false got s = Some (s', r) ->
  exists m', simulated s s' m m' r /\ SI s' m'.
Proof.
  intros Ep Eq Hs. pose proof (si_producer _ _ _ _ _ _ _ _ _ I) as Hst. unfold qstep in Hs. rewrite Ep, Eq in *. simpl in Hst.
  destruct got as [b|].
  - destruct (bool_decide_reflect (b ∈ pool s)) as [Hb|]; [|done]. injection Hs as <- <-. exists m.
    split; [by apply simulated_stutter|]. exists live, frontier, n, hd, g, newest, exempt.
    pose proof I as I'. destruct I as [I1 I2 I3 I4 I5 I6 I7 I8 I9 I10 I11 I12 I13 I14]. constructor; simpl; try done; [|by rewrite Ep].
    intros b'. rewrite inside_difference by done. specialize (I7 b'). rewrite Eq in I7. simpl in I7. lia.
  - injection Hs as <- <-.
    eapply (sim_index _ _ _ _ _ _ _ _ _ (blocks_index s) _ _ _ _ _ _ _ I (si_ring _ _ _ _ _ _ _ _ _ I)); [by rewrite set_index_same|apply keeps_refl| |by rewrite Eq|done].
    by rewrite Ep.
Qed.

(** A block that the producer holds is not in use. *)
Lemma held_not_live b : held_at b (starting s) = 1 -> (forall base, live !! base <> Some b) /\ b <> NULL /\ is_Some (blocks s !! b).
Proof.
  intros Hb. pose proof (places_range _ _ _ _ _ _ _ _ _ b I) as Hp. split; [|].
  - intros base E. pose proof (lives_same live base b E). lia.
  - pose proof (si_places _ _ _ _ _ _ _ _ _ I b) as Hd. destruct (bool_decide_reflect (is_Some (blocks s !! b))) as [Hs|Hs]; simpl in Hd; [|lia].
    split; [|done]. intros ->. rewrite (si_null _ _ _ _ _ _ _ _ _ I) in Hs. by destruct Hs.
Qed.

Lemma sim_reset x t id b s' r :
  producer (queue s) = PHead x t -> starting s = QReset id b -> qstep false None s = Some (s', r) ->
  exists m', simulated s s' m m' r /\ SI s' m'.
Proof.
  intros Ep Eq Hs. pose proof (si_producer _ _ _ _ _ _ _ _ _ I) as Hst. unfold qstep in Hs. rewrite Ep, Eq in *. simpl in Hst.
  destruct (held_not_live b) as (Hnl & _ & [blk Eb]); [rewrite Eq; apply same_refl|]. rewrite Eb in Hs. simpl in Hs. injection Hs as <- <-.
  exists m. split; [by apply simulated_stutter|]. exists live, frontier, n, hd, g, newest, exempt.
  destruct I as [I1 I2 I3 I4 I5 I6 I7 I8 I9 I10 I11 I12 I13 I14]. constructor; simpl; try done.
  - intros base b' E. destruct (I3 base b' E) as (blk' & E' & Hc). exists blk'. split; [|done].
    rewrite lookup_insert_ne; [done|]. intros <-. by destruct (Hnl base).
  - intros i. rewrite content_other by done. apply I6.
  - intros b'. specialize (I7 b'). rewrite Eq in I7. simpl in I7. rewrite I7. f_equal. apply bool_decide_ext. symmetry. by eapply insert_block_domain.
  - intros b' blk' off. destruct (decide (b' = b)) as [->|Hn]; [rewrite lookup_insert_eq; intros [= <-]; simpl; by apply I8|].
    rewrite lookup_insert_ne by done. apply I8.
  - rewrite lookup_insert_ne; [done|]. intros ->. congruence.
  - intros id' b' [= <- <-]. eexists. by rewrite lookup_insert_eq.
  - by rewrite Ep.
Qed.
End producer_blocks.

Lemma sees_live_insert x live n c l base b : live !! base = None -> sees x live n c l -> sees x (<[base := b]> live) n c l.
Proof.
  intros E0. assert (forall i b', live !! i = Some b' -> <[base := b]> live !! i = Some b') as Hl.
  { intros i b' E. rewrite lookup_insert_ne; [done|]. congruence. }
  destruct l; simpl; try done.
  - intros (i & b' & Hc & E & H1). exists i, b'. auto.
  - intros (i & b' & Hc & E & H1). exists i, b'. auto.
  - intros (i & b' & hd & id & Hc & E & H1). exists i, b', hd, id. auto.
  - intros (i & b' & Hc & E & H1). exists i, b'. auto.
  - intros (i & Hc & E & H1). exists i. auto.
  - intros (Hc & E & H1). auto.
  - intros (Hc & E & H1). auto.
Qed.

(** The block of the tail is in use as long as there is room in it. *)
Lemma tail_live s m live frontier n hd g newest exempt :
  SInv s m live frontier n hd g newest exempt -> 0 <= headIndex (queue s) <= tailIndex (queue s) -> headIndex (queue s) < frontier ->
  live !! (frontier - 32) = Some (tailBlock s).
Proof.
  intros I Hh Hf. destruct (si_frontier _ _ _ _ _ _ _ _ _ I) as (Hf0 & Hfm & _).
  destruct (live !! (frontier - 32)) as [b|] eqn:E; [by rewrite (si_tail _ _ _ _ _ _ _ _ _ I _ E)|].
  pose proof (si_passed _ _ _ _ _ _ _ _ _ I (frontier - 32) ltac:(dlia) ltac:(dlia) E). lia.
Qed.

Section producer_elements.
Context (s : sub) (m live : gmap Z ptr) (frontier : Z) (n : nat) (hd : header) (g newest : Z) (exempt : option nat) (k : Z).
Context (I : SInv s m live frontier n hd g newest exempt) (Hr : in_range s k) (Hok : head_ok s).

(** The new block enters the index. *)
Lemma SInv_value x t id b :
  producer (queue s) = PHead x t -> starting s = QValue id b ->
  SInv (start QNone (set_tailBlock b (set_index (store_value id b (blocks_index s)) (set_queue (with_producer (PConstruct x t) (queue s)) s))))
    m (<[newest := b]> live) (frontier + 32) n hd g newest None.
Proof.
  intros Ep Eq. pose proof (si_producer _ _ _ _ _ _ _ _ _ I) as Hst. rewrite Ep, Eq in Hst. simpl in Hst.
  destruct Hst as (Ht & Hn & He & Hse & e & Ei & Ee & Hk).
  destruct (held_not_live _ _ _ _ _ _ _ _ _ I b) as (Hnl & Hb & _); [rewrite Eq; apply same_refl|].
  pose proof I as I'. destruct I as [I1 (Hf0 & Hfm & Hfl) I3 I4 I5 I6 I7 I8 I9 I10 I11 I12 I13 I14].
  assert (live !! newest = None) as Ho by (destruct (live !! newest) as [b'|] eqn:E; [specialize (Hfl _ _ E); lia|done]).
  pose proof (places_range _ _ _ _ _ _ _ _ _ b I') as Hpl. rewrite Eq in Hpl. simpl in Hpl. rewrite same_refl in Hpl.
  rewrite He in I1. destruct Hr as (Hh & _ & _).
  assert (forall i, base_of i = newest -> content live (blocks s) i = None) as Hnone
    by (intros i Hi; unfold content; rewrite Hi, Ho; by destruct (decide (0 <= i))).
  constructor; simpl; try done.
  - by eapply ring_store_value; try done; lia.
  - split; [lia|]. split; [dlia|]. intros base b'. destruct (decide (base = newest)) as [->|Hne]; [lia|].
    rewrite lookup_insert_ne by done. intros E. specialize (Hfl _ _ E). lia.
  - intros base b'. destruct (decide (base = newest)) as [->|Hne].
    + rewrite lookup_insert_eq. intros [= <-]. destruct (I10 id b Eq) as (blk & Eb & Hc). exists blk.
      destruct (I4 newest Ho) as (-> & -> & ->). rewrite Hc. unfold below. split; [done|]. split; [lia|]. split; [lia|done].
    + rewrite lookup_insert_ne by done. apply I3.
  - intros base. destruct (decide (base = newest)) as [->|Hne]; [by rewrite lookup_insert_eq|]. rewrite lookup_insert_ne by done. apply I4.
  - intros base Hb0 Hm. destruct (decide (base = newest)) as [->|Hne]; [by rewrite lookup_insert_eq|]. rewrite lookup_insert_ne by done.
    apply I5; [dlia|done].
  - intros i. rewrite I6. destruct (decide (base_of i = newest)) as [Hi|Hi].
    + rewrite Hnone by done. unfold content. rewrite Hi, lookup_insert_eq. simpl. destruct (decide (0 <= i)); [|done].
      destruct (blocks s !! b) as [blk|] eqn:Eb; [|done]. simpl. symmetry. apply (I8 b blk); [done|lia|]. apply Z.mod_pos_bound. lia.
    + unfold content. by rewrite lookup_insert_ne.
  - intros b'. rewrite lives_insert by done. specialize (I7 b'). rewrite Eq in I7. simpl in I7. lia.
  - intros b' blk off Eb Hz. rewrite lives_insert in Hz by done. pose proof (lives_nonneg b' live). pose proof (same_range b' b). apply (I8 b'); [done|lia].
  - intros i c l Ec El. apply sees_live_insert; [done|]. apply (sees_keeps (blocks_index s) _ n n); [|by apply (I12 i)].
    eapply keeps_store_value; [exact Ee|by rewrite Hk].
  - intros b'. replace (frontier + 32 - 32) with newest by lia. rewrite lookup_insert_eq. by intros [= <-].
  - split; [lia|]. split; [done|lia].
Qed.

Lemma sim_value x t id b s' r :
  producer (queue s) = PHead x t -> starting s = QValue id b -> qstep false None s = Some (s', r) ->
  exists m', simulated s s' m m' r /\ SI s' m'.
Proof.
  intros Ep Eq Hs. pose proof (SInv_value x t id b Ep Eq) as I'. unfold qstep in Hs. rewrite Ep, Eq in Hs. simpl in Hs. injection Hs as <- <-.
  exists m. split; [|do 7 eexists; exact I'].
  apply (simulated_step _ _ _ _ (PStep true)). simpl. unfold pstep. simpl. rewrite Ep.
  unfold head_ok in Hok. rewrite Ep in Hok. by rewrite (head_assert _ _ _ Hr Hok), (head_test _ _ _ Hr Hok).
Qed.

(** The element comes into being in the cell its index stands for. *)
Lemma sim_construct x t s' r :
  producer (queue s) = PConstruct x t -> qstep false None s = Some (s', r) ->
  exists m', simulated s s' m m' r /\ SI s' m'.
Proof.
  intros Ep Hs. pose proof (si_producer _ _ _ _ _ _ _ _ _ I) as Hst. unfold head_ok in Hok. rewrite Ep in Hst, Hok. simpl in Hst.
  destruct (starting s) eqn:Eq; try done. destruct Hst as (Hn & He & Hf). unfold qstep in Hs. rewrite Ep, Eq in Hs.
  destruct Hr as (Hh & _ & _).
  pose proof (tail_live _ _ _ _ _ _ _ _ _ I Hh ltac:(lia)) as El. destruct (si_counts _ _ _ _ _ _ _ _ _ I _ _ El) as (blk & Eb & Hc).
  rewrite Eb in Hs. simpl in Hs. injection Hs as <- <-. exists (<[t := x]> m).
  split; [apply (simulated_step _ _ _ _ (PStep true)); simpl; unfold pstep; simpl; by rewrite Ep|].
  destruct (si_frontier _ _ _ _ _ _ _ _ _ I) as (Hf0 & Hfm & Hfl).
  assert (base_of t = frontier - 32) as Hbt by (apply base_of_unique; [dlia|lia]).
  exists live, frontier, n, hd, g, newest, exempt. pose proof I as I'. destruct I as [I1 I2 I3 I4 I5 I6 I7 I8 I9 I10 I11 I12 I13 I14].
  constructor; simpl; rewrite ?Eq; try done.
  - intros base b E. destruct (I3 base b E) as (blk' & E' & Hc'). destruct (decide (b = tailBlock s)) as [->|Hb].
    + assert (blk' = blk) as -> by congruence. eexists. by rewrite lookup_insert_eq.
    + exists blk'. by rewrite lookup_insert_ne.
  - intros i. destruct (decide (i = t)) as [->|Hi].
    + rewrite lookup_insert_eq. unfold content. rewrite decide_True, Hbt, El by lia. simpl. rewrite lookup_insert_eq. simpl.
      by rewrite place_eq, lookup_insert_eq.
    + rewrite lookup_insert_ne, I6 by done. unfold content. destruct (decide (0 <= i)); [|done].
      destruct (live !! base_of i) as [b|] eqn:E; [|done]. simpl. destruct (decide (b = tailBlock s)) as [->|Hb]; [|by rewrite lookup_insert_ne].
      rewrite lookup_insert_eq, Eb. simpl. rewrite lookup_insert_ne; [done|]. rewrite place_eq. intros Hm.
      pose proof (live_block _ _ _ _ _ _ _ _ _ _ _ _ I' E El) as Hbi. unfold base_of in Hbi, Hbt. lia.
  - intros b. specialize (I7 b). rewrite Eq in I7. rewrite I7. f_equal. apply bool_decide_ext. symmetry. by eapply insert_block_domain.
  - intros b blk' off. destruct (decide (b = tailBlock s)) as [->|Hb].
    + pose proof (lives_same live _ _ El). lia.
    + rewrite lookup_insert_ne by done. apply I8.
  - rewrite lookup_insert_ne; [done|]. intros Hb. rewrite Hb in Eb. congruence.
Qed.

Lemma sim_publish x t s' r :
  producer (queue s) = PTail x t -> qstep false None s = Some (s', r) ->
  exists m', simulated s s' m m' r /\ SI s' m'.
Proof.
  intros Ep Hs. pose proof (si_producer _ _ _ _ _ _ _ _ _ I) as Hst. unfold head_ok in Hok. rewrite Ep in Hst, Hok. simpl in Hst.
  destruct (starting s) eqn:Eq; try done. destruct Hst as (Hn & He & Hf). unfold qstep, pstep in Hs. rewrite Ep, Eq in Hs. injection Hs as <- <-.
  exists m. split; [apply (simulated_step _ _ _ _ (PStep true)); simpl; unfold pstep; simpl; by rewrite Ep|].
  exists live, frontier, n, hd, g, newest, exempt. destruct I as [I1 I2 I3 I4 I5 I6 I7 I8 I9 I10 I11 I12 I13 I14].
  constructor; simpl; rewrite ?Eq; try done.
  - intros b. specialize (I7 b). by rewrite Eq in I7.
  - split; [done|]. split; [done|lia].
Qed.
End producer_elements.

(** *** The steps of the consumers *)
Lemma cstep_with_elements i q q' r c m :
  consumers q !! i = Some c -> (forall j, c <> CElement j) -> cstep i q = Some (q', r) ->
  cstep i (with_elements m q) = Some (with_elements m q', r) /\ tailIndex q' = tailIndex q /\ producer q' = producer q /\
  exists c', consumers q' = <[i := c']> (consumers q) /\
    ((c' = CElement (headIndex q) /\ c = CFetchHead /\ headIndex q' = u64 (headIndex q + 1)) \/
     ((forall j, c' <> CElement j) /\ headIndex q' = headIndex q)).
Proof.
  intros Ec Hc Hs. unfold cstep in *. change (consumers (with_elements m q)) with (consumers q). rewrite Ec in *. simpl in *.
  destruct c; try done; [..|by destruct (Hc _ eq_refl)]; simpl in Hs; repeat case_match; simplify_eq; split; try done; split; try done; split; try done.
  all: eexists; split; [done|]; first [by left|by right].
Qed.

(** A step of a consumer that leaves the memory alone. *)
Lemma SInv_move s m live frontier n hd g newest exempt i c l c' l' q' :
  SInv s m live frontier n hd g newest exempt ->
  consumers (queue s) !! i = Some c -> lookups s !! i = Some l ->
  tailIndex q' = tailIndex (queue s) -> producer q' = producer (queue s) -> consumers q' = <[i := c']> (consumers (queue s)) ->
  headIndex (queue s) <= headIndex q' ->
  (forall base, (live !! base = None -> elem_at base c' = elem_at base c) /\
     elem_at base c' - elem_at base c = (if decide (is_Some (live !! base)) then below (headIndex q') base - below (headIndex (queue s)) base else 0) /\
     empty_at base l' = empty_at base l /\ null_at base l' = null_at base l) ->
  (forall b, free_at b l' = free_at b l) ->
  sees (blocks_index s) live n c' l' ->
  SInv (look i l' (set_queue q' s)) m live frontier n hd g newest exempt.
Proof.
  intros [I1 I2 I3 I4 I5 I6 I7 I8 I9 I10 I11 I12 I13 I14] Ec El Ht Hp Hc Hh Ha Hf Hs.
  constructor; simpl; try done; rewrite ?Ht, ?Hp, ?Hc.
  - intros base b E. destruct (I3 base b E) as (blk & Eb & H0 & Hsum & Hnull). exists blk. split; [done|]. split; [done|].
    rewrite !(sum_insert _ _ i _ _ Ec), !(sum_insert _ _ i _ _ El). destruct (Ha base) as (_ & Hb & He & Hn).
    rewrite decide_True in Hb by by eexists. split; [lia|]. by rewrite Hn, Z.sub_add.
  - intros base E. destruct (I4 base E) as (H1 & H2 & H3). destruct (Ha base) as (Hb & _ & He & Hn).
    rewrite !(sum_insert _ _ i _ _ Ec), !(sum_insert _ _ i _ _ El). rewrite Hb by done. lia.
  - intros base Hb Hm E. specialize (I5 base Hb Hm E). lia.
  - intros b. rewrite (sum_insert _ _ i _ _ El), Hf, Z.sub_add. apply I7.
  - by rewrite !length_insert.
  - eapply insert_pairwise; [by eapply lookup_lt_Some|rewrite list_lookup_insert_eq by (by eapply lookup_lt_Some); by intros ? [= <-]|].
    intros j cj lj Hij. rewrite list_lookup_insert_ne by done. apply I12.
  - done.
Qed.

(** The same for a step that leaves the counters and the threads of Mpmc.v alone. *)
Lemma SInv_look s m live frontier n hd g newest exempt i c l l' :
  SInv s m live frontier n hd g newest exempt ->
  consumers (queue s) !! i = Some c -> lookups s !! i = Some l ->
  (forall base, empty_at base l' = empty_at base l /\ null_at base l' = null_at base l) ->
  (forall b, free_at b l' = free_at b l) -> sees (blocks_index s) live n c l' ->
  SInv (look i l' s) m live frontier n hd g newest exempt.
Proof.
  intros I Ec El Ha Hf Hs.
  apply (SInv_move s m live frontier n hd g newest exempt i c l c l' (queue s) I Ec El); try done; [by rewrite list_insert_id|].
  intros base. destruct (Ha base). split; [done|]. split; [|done]. destruct (decide _); lia.
Qed.

(** An index that a consumer has fetched belongs to a block in use. *)
Lemma fetched_live s m live frontier n hd g newest exempt i idx :
  SInv s m live frontier n hd g newest exempt -> consumers (queue s) !! i = Some (CElement idx) ->
  exists b, live !! base_of idx = Some b.
Proof.
  intros I Ec. destruct (live !! base_of idx) as [b|] eqn:E; [by exists b|].
  destruct (si_gone _ _ _ _ _ _ _ _ _ I _ E) as (Hs & _).
  destruct (at_nonneg (base_of idx) 0) as (Hn & _). pose proof (sum_le _ _ _ _ Hn Ec) as Hl. simpl in Hl. rewrite same_refl in Hl. lia.
Qed.

Lemma below_step h base : base mod 32 = 0 -> below (h + 1) base = below h base + same base (base_of h).
Proof.
  intros Hb. destruct (base_of_spec h) as [Hm Hh]. unfold below. destruct (same_cases base (base_of h)) as [[Heq ->]|[Hne ->]]; [lia|].
  assert (h < base \/ base + 32 <= h) as [?|?]; [|lia|lia]. destruct (decide (h < base)); [by left|right].
  destruct (decide (base + 32 <= h)); [done|]. exfalso. apply Hne, base_of_unique; [done|lia].
Qed.

Section consumer.
Context (s : sub) (m live : gmap Z ptr) (frontier : Z) (n : nat) (hd : header) (g newest : Z) (exempt : option nat) (k : Z).
Context (I : SInv s m live frontier n hd g newest exempt) (Hr : in_range s k).

Abbreviation R := (si_ring _ _ _ _ _ _ _ _ _ I).

(** The counters.  [Hn]: the consumer does not overtake the producer. *)
Lemma sim_counters i c q' r :
  consumers (queue s) !! i = Some c -> lookups s !! i = Some LNone -> (forall j, c <> CElement j) ->
  cstep i (queue s) = Some (q', r) -> headIndex q' <= tailIndex (queue s) ->
  exists m', simulated s (look i (match consumers q' !! i with Some (CElement _) => LHeader | _ => LNone end) (set_queue q' s)) m m' r /\
    SI (look i (match consumers q' !! i with Some (CElement _) => LHeader | _ => LNone end) (set_queue q' s)) m'.
Proof.
  intros Ec El Hc Hs Hht. destruct (cstep_with_elements _ _ _ _ _ m Ec Hc Hs) as (Hs' & Ht & Hp & c' & Hcs & Hcase).
  exists m. split; [by apply (simulated_step _ _ _ _ (CStep i))|]. rewrite Hcs, list_lookup_insert_eq by by eapply lookup_lt_Some.
  exists live, frontier, n, hd, g, newest, exempt. destruct Hr as (Hh & Htk & Hk). change (2 ^ 63) with 9223372036854775808 in Hk.
  assert (forall base, elem_at base c = 0) as Hz by (intros base; destruct c; try done; by destruct (Hc index)).
  destruct Hcase as [(-> & -> & Hh')|(Hc' & Hh')].
  - rewrite u64_small in Hh' by (unfold is_u64; lia).
    assert (is_Some (live !! base_of (headIndex (queue s)))) as Hl.
    { destruct (live !! base_of _) as [b|] eqn:E; [by eexists|]. destruct (base_of_spec (headIndex (queue s))) as [Hm Hb].
      pose proof (si_producer _ _ _ _ _ _ _ _ _ I) as Hst.
      assert (tailIndex (queue s) <= frontier) as Hf by (destruct (producer (queue s)), (starting s); simpl in Hst; try done; lia).
      pose proof (si_passed _ _ _ _ _ _ _ _ _ I (base_of (headIndex (queue s))) ltac:(dlia) Hm E). lia. }
    apply (SInv_move s m live frontier n hd g newest exempt i CFetchHead LNone (CElement (headIndex (queue s))) LHeader q' I Ec El);
      try done; [lia| |by eexists].
    intros base. split; [|split; [|done]].
    + intros E. simpl. apply same_ne. intros Hb. rewrite Hb, E in Hl. by destruct Hl.
    + simpl. destruct (decide (is_Some (live !! base))) as [[b E]|E].
      * destruct (live_range _ _ _ _ _ _ _ R base b E) as (_ & _ & Hm & _). rewrite Hh', below_step by done. lia.
      * rewrite same_ne; [lia|]. intros Hb. by rewrite Hb in Hl.
  - assert (match c' with CElement _ => LHeader | _ => LNone end = LNone) as -> by (destruct c'; try done; by destruct (Hc' index)).
    assert (forall base, elem_at base c' = 0) as Hz' by (intros base; destruct c'; try done; by destruct (Hc' index)).
    apply (SInv_move s m live frontier n hd g newest exempt i c LNone c' LNone q' I Ec El); try done; [lia|].
    intros base. rewrite Hz, Hz', Hh'. split; [done|]. split; [|done]. destruct (decide _); lia.
Qed.
End consumer.

Section lookup.
Context (s : sub) (m live : gmap Z ptr) (frontier : Z) (n : nat) (hd : header) (g newest : Z) (exempt : option nat).
Context (I : SInv s m live frontier n hd g newest exempt).
Context (i : nat) (idx : Z) (Ec : consumers (queue s) !! i = Some (CElement idx)) (Hidx : is_u64 idx).

Abbreviation R := (si_ring _ _ _ _ _ _ _ _ _ I).

Lemma sim_look l l' :
  lookups s !! i = Some l -> sees (blocks_index s) live n (CElement idx) l' ->
  (forall base, empty_at base l' = empty_at base l /\ null_at base l' = null_at base l) ->
  (forall b, free_at b l' = free_at b l) ->
  exists m', simulated s (look i l' s) m m' None /\ SI (look i l' s) m'.
Proof.
  intros El Hs Ha Hf. exists m. split; [by apply simulated_stutter|]. exists live, frontier, n, hd, g, newest, exempt.
  by apply (SInv_look s m live frontier n hd g newest exempt i (CElement idx) l l' I Ec El).
Qed.

Lemma sees_now l : lookups s !! i = Some l -> sees (blocks_index s) live n (CElement idx) l.
Proof. intros El. by apply (si_lookups _ _ _ _ _ _ _ _ _ I i). Qed.

(** The steps of the lookup are defined, and lead to the block of the index. *)
Lemma lookup_header : lookups s !! i = Some LHeader ->
  lstep i s = Some (look i (LTail n) s, None) /\ sees (blocks_index s) live n (CElement idx) (LTail n).
Proof.
  intros El. split; [unfold lstep; rewrite Ec, El; simpl; by rewrite (ri_current _ _ _ _ _ _ _ R)|].
  destruct (fetched_live _ _ _ _ _ _ _ _ _ _ _ I Ec) as [b E]. exists idx, b. split; [done|]. split; [done|by left].
Qed.

Lemma lookup_tail n' : lookups s !! i = Some (LTail n') ->
  exists p, lstep i s = Some (look i (LKey n' p) s, None) /\ sees (blocks_index s) live n (CElement idx) (LKey n' p).
Proof.
  intros El. pose proof (sees_now _ El) as (i' & b & [= <-] & E & Hl). unfold lstep. rewrite Ec, El. simpl.
  destruct Hl as [->|(hd' & Eh & Hr)].
  - rewrite (ri_header _ _ _ _ _ _ _ R). simpl. exists (tail hd). split; [done|]. exists idx, b. split; [done|]. split; [done|].
    by apply (ring_reaches _ _ _ _ _ _ _ R).
  - rewrite Eh. simpl. exists (tail hd'). split; [done|]. by exists idx, b.
Qed.

Lemma lookup_key n' p : lookups s !! i = Some (LKey n' p) ->
  exists tb, lstep i s = Some (look i (LIndex n' p tb) s, None) /\ sees (blocks_index s) live n (CElement idx) (LIndex n' p tb).
Proof.
  intros El. pose proof (sees_now _ El) as (i' & b & [= <-] & E & Hl). unfold lstep. rewrite Ec, El. simpl.
  destruct (reaches_index _ _ _ _ _ Hl) as (hd' & tid & te & id & Eh & Et & Ete & Hk & Ei & Ee). rewrite Eh. simpl. rewrite Et. simpl. rewrite Ete. simpl.
  destruct (base_of_spec idx) as [Hm _]. rewrite (proj2 (Z.eqb_neq _ _) (Hk Hm)). exists (key te). split; [done|].
  by exists idx, b, hd', id.
Qed.

Lemma lookup_index n' p tb : lookups s !! i = Some (LIndex n' p tb) ->
  exists id, lstep i s = Some (look i (LValue id) s, None) /\ sees (blocks_index s) live n (CElement idx) (LValue id).
Proof.
  intros El. pose proof (sees_now _ El) as (i' & b & hd' & id & [= <-] & E & Eh & Ei & Ee). unfold lstep. rewrite Ec, El. simpl.
  rewrite Eh. simpl. rewrite block_base_eq, Ei by done. simpl. rewrite Ee. simpl. rewrite Z.eqb_refl.
  destruct (live_range _ _ _ _ _ _ _ R _ _ E) as (_ & _ & _ & Hb). rewrite (proj2 (Z.eqb_neq b NULL) Hb). exists id. split; [done|]. by exists idx, b.
Qed.

Lemma lookup_value id : lookups s !! i = Some (LValue id) ->
  exists b, lstep i s = Some (look i (LElement id b) s, None) /\ sees (blocks_index s) live n (CElement idx) (LElement id b).
Proof.
  intros El. pose proof (sees_now _ El) as (i' & b & [= <-] & E & Ee). unfold lstep. rewrite Ec, El. simpl. rewrite Ee. simpl.
  exists b. split; [done|]. by exists idx.
Qed.

(** The element is moved out of its cell. *)
Lemma sim_element id b x :
  lookups s !! i = Some (LElement id b) -> m !! idx = Some x ->
  exists s', lstep i s = Some (s', Some (Dequeued i idx x)) /\ exists m', simulated s s' m m' (Some (Dequeued i idx x)) /\ SI s' m'.
Proof.
  intros El Hx. pose proof (sees_now _ El) as (i' & [= <-] & E & Ee).
  destruct (si_counts _ _ _ _ _ _ _ _ _ I _ _ E) as (blk & Eb & Hc).
  assert (0 <= idx) as Hidx0 by apply Hidx.
  assert (cells blk !! (idx mod 32) = Some x) as Hcell.
  { rewrite <- Hx, (si_cells _ _ _ _ _ _ _ _ _ I). unfold content. rewrite decide_True, E by done. simpl. by rewrite Eb. }
  unfold lstep. rewrite Ec, El. simpl. rewrite Eb. simpl. rewrite place_eq, Hcell. simpl. eexists. split; [done|].
  exists (delete idx m). split.
  { apply (simulated_step _ _ _ _ (CStep i)). simpl. unfold cstep. simpl. rewrite Ec. simpl. by rewrite Hx. }
  exists live, frontier, n, hd, g, newest, exempt. pose proof I as I'. destruct I as [I1 I2 I3 I4 I5 I6 I7 I8 I9 I10 I11 I12 I13 I14].
  constructor; simpl; try done.
  - intros base b' E'. destruct (I3 base b' E') as (blk' & Eb' & H0 & Hsum & Hnull).
    rewrite !(sum_insert _ _ i _ _ Ec), !(sum_insert _ _ i _ _ El). simpl. destruct (decide (b' = b)) as [->|Hb].
    + assert (blk' = blk) as -> by congruence. eexists. rewrite lookup_insert_eq. split; [done|]. simpl. split; [done|]. split; [lia|by rewrite Z.add_0_r, Z.sub_0_r].
    + exists blk'. rewrite lookup_insert_ne by done. split; [done|]. split; [done|]. split; [lia|by rewrite Z.add_0_r, Z.sub_0_r].
  - intros base E'. destruct (I4 base E') as (H1 & H2 & H3). rewrite !(sum_insert _ _ i _ _ Ec), !(sum_insert _ _ i _ _ El). simpl.
    rewrite same_ne by (intros Hb; rewrite Hb in E; congruence). lia.
  - intros j. destruct (decide (j = idx)) as [->|Hj].
    + rewrite lookup_delete_eq. unfold content. rewrite decide_True, E by done. simpl. rewrite lookup_insert_eq. simpl. by rewrite lookup_delete_eq.
    + rewrite lookup_delete_ne, I6 by done. unfold content. destruct (decide (0 <= j)); [|done].
      destruct (live !! base_of j) as [b'|] eqn:E'; [|done]. simpl. destruct (decide (b' = b)) as [->|Hb]; [|by rewrite lookup_insert_ne].
      rewrite lookup_insert_eq, Eb. simpl. rewrite lookup_delete_ne; [done|]. intros Hm.
      pose proof (live_block _ _ _ _ _ _ _ _ _ _ _ _ I' E' E) as Hbi. unfold base_of in Hbi. lia.
  - intros b'. rewrite (sum_insert _ _ i _ _ El). simpl. specialize (I7 b'). rewrite Z.add_0_r, Z.sub_0_r, I7. f_equal. apply bool_decide_ext. symmetry.
    by eapply insert_block_domain.
  - intros b' blk' off. destruct (decide (b' = b)) as [->|Hb].
    + pose proof (lives_same live _ _ E). lia.
    + rewrite lookup_insert_ne by done. apply I8.
  - rewrite lookup_insert_ne; [done|]. intros Hb. rewrite Hb in Eb. congruence.
  - intros id' b' Eq. destruct (I10 id' b' Eq) as (blk' & Eb' & Hz). destruct (decide (b' = b)) as [->|Hb].
    + eexists. rewrite lookup_insert_eq. split; [done|]. simpl. congruence.
    + exists blk'. by rewrite lookup_insert_ne.
  - by rewrite !length_insert.
  - eapply insert_pairwise; [by eapply lookup_lt_Some|rewrite list_lookup_insert_eq by (by eapply lookup_lt_Some); by intros ? [= <-]|].
    intros j cj lj Hij. rewrite list_lookup_insert_ne by done. apply I12.
Qed.
End lookup.

Lemma sees_live_delete x live n c l base :
  elem_at base c = 0 -> empty_at base l = 0 -> null_at base l = 0 -> sees x live n c l -> sees x (delete base live) n c l.
Proof.
  intros Hc He Hn. assert (forall i b, same base (base_of i) = 0 -> live !! base_of i = Some b -> delete base live !! base_of i = Some b) as Hd.
  { intros i b Hs E. rewrite lookup_delete_ne; [done|]. intros Hb. by rewrite Hb, same_refl in Hs. }
  destruct l; simpl in *; try done.
  - intros (i & b & -> & E & H1). exists i, b. auto.
  - intros (i & b & -> & E & H1). exists i, b. auto.
  - intros (i & b & hd & id & -> & E & H1). exists i, b, hd, id. auto.
  - intros (i & b & -> & E & H1). exists i, b. auto.
  - intros (i & -> & E & H1). exists i. auto.
  - intros (-> & E & H1). auto.
  - intros (-> & E & H1). auto.
Qed.

(** The producer does not notice the release of a block. *)
Lemma store_value_entry x id v k e : entries (store_value id v x) !! k = Some e ->
  exists e0, entries x !! k = Some e0 /\ key e0 = key e.
Proof.
  simpl. rewrite alter_lookup. destruct (decide (id = k)) as [Hik|Hik]; [|by eexists].
  destruct (entries x !! k) as [e0|]; [|done]. intros [= <-]. by exists e0.
Qed.

Lemma entry_store_value x id v k e : entries x !! k = Some e ->
  exists e', entries (store_value id v x) !! k = Some e' /\ key e' = key e.
Proof. intros Ee. simpl. rewrite alter_lookup, Ee. destruct (decide (id = k)); by eexists. Qed.

Lemma stands_release x live frontier hd g newest exempt t p q id base :
  stands x live frontier hd g newest exempt t p q ->
  stands (store_value id NULL x) (delete base live) frontier hd g newest exempt t p q.
Proof.
  assert (live !! (newest - 32 * (2 ^ g - 1)) = None -> delete base live !! (newest - 32 * (2 ^ g - 1)) = None) as Hd
    by (intros E; apply lookup_delete_None; by right).
  assert (forall k e, at_last x hd g k e -> exists e', at_last (store_value id NULL x) hd g k e' /\ key e' = key e) as Hl.
  { intros k e [Ei Ee]. destruct (entry_store_value x id NULL k e Ee) as (e' & Ee' & Hk). by exists e'. }
  assert (settled x hd newest -> settled (store_value id NULL x) hd newest) as Hs.
  { intros [H1 H2]. split.
    - intros j k e Ei Ee. destruct (store_value_entry _ _ _ _ _ Ee) as (e0 & Ee0 & <-). by apply (H1 j k).
    - intros H32. destruct (H2 H32) as (k & e & Ei & Ee & Hk). destruct (entry_store_value x id NULL k e Ee) as (e' & Ee' & Hk').
      exists k, e'. split; [done|]. split; [done|congruence]. }
  assert (forall k, (exists e, index hd !! position hd 0 = Some k /\ entries x !! k = Some e /\ key e = newest) ->
            exists e, index hd !! position hd 0 = Some k /\ entries (store_value id NULL x) !! k = Some e /\ key e = newest) as Hp.
  { intros k (e & Ei & Ee & Hk). destruct (entry_store_value x id NULL k e Ee) as (e' & Ee' & Hk'). exists e'. split; [done|]. split; [done|congruence]. }
  destruct p, q; simpl; try done; intros Hst.
  - destruct Hst as (H1 & H2 & H3 & H4 & H5). repeat split; try done. intros k e [Ei Ee].
    destruct (store_value_entry _ _ _ _ _ Ee) as (e0 & Ee0 & <-). by apply (H5 k).
  - destruct Hst as (H1 & H2 & H3 & k & e & Hat & Hk). repeat split; try done. destruct (Hl _ _ Hat) as (e' & Hat' & Hk').
    exists k, e'. split; [done|congruence].
  - destruct Hst as (H1 & H2 & H3 & H4 & H5 & e & Hat). destruct (Hl _ _ Hat) as (e' & Hat' & Hk'). repeat split; auto. by exists e'.
  - destruct Hst as (H1 & H2 & H3 & H4 & H5 & e & Hat & Hk). destruct (Hl _ _ Hat) as (e' & Hat' & Hk'). repeat split; auto.
    exists e'. split; [done|congruence].
  - destruct Hst as (H1 & H2 & H3 & H4 & H5). repeat split; auto; by apply Hs.
  - destruct Hst as (H1 & H2 & H3 & H4 & H5). repeat split; auto; by apply Hs.
  - destruct Hst as (H1 & H2 & H3 & e & Ee & Hk). repeat split; try done. destruct (entry_store_value x id NULL _ _ Ee) as (e' & Ee' & Hk').
    exists e'. split; [done|congruence].
  - destruct Hst as (H1 & H2 & H3 & H4 & H5). repeat split; auto; by apply Hs.
  - destruct Hst as (H1 & H2 & H3 & H4 & H5). repeat split; auto; by apply Hs.
Qed.

Section cleanup.
Context (s : sub) (m live : gmap Z ptr) (frontier : Z) (n : nat) (hd : header) (g newest : Z) (exempt : option nat) (k : Z).
Context (I : SInv s m live frontier n hd g newest exempt) (Hr : in_range s k).
Context (i : nat) (c : cpc) (Ec : consumers (queue s) !! i = Some c).

(** The count of the block goes up; the consumer that makes it full goes on. *)
Lemma sim_empty idx id b :
  lookups s !! i = Some (LEmpty idx id b) ->
  exists s', lstep i s = Some (s', None) /\ exists m', simulated s s' m m' None /\ SI s' m'.
Proof.
  intros El. pose proof (si_lookups _ _ _ _ _ _ _ _ _ I _ _ _ Ec El) as (-> & E & Ee).
  destruct (si_counts _ _ _ _ _ _ _ _ _ I _ _ E) as (blk & Eb & Hc0 & Hsum & Hnull).
  destruct (at_nonneg (base_of idx) b) as (Hn1 & Hn2 & _). pose proof (sum_nonneg _ (consumers (queue s)) Hn1).
  pose proof (sum_le _ _ _ _ Hn2 El) as Hl. simpl in Hl. rewrite same_refl in Hl.
  assert (below (headIndex (queue s)) (base_of idx) <= 32) by (unfold below; lia).
  unfold lstep. rewrite Ec, El. simpl. rewrite Eb. simpl. unfold BLOCK_SIZE.
  destruct (Z.ltb_spec (elementsCompletelyDequeued blk) 32); [|lia]. eexists. split; [done|]. exists m. split; [by apply simulated_stutter|].
  rewrite u64_small by (unfold is_u64; lia). set (l' := if _ =? _ then _ else _).
  assert (forall base, empty_at base l' = 0 /\ null_at base l' = (if elementsCompletelyDequeued blk =? 31 then same base (base_of idx) else 0)) as Hl'
    by (intros base; unfold l'; change (32 - 1) with 31; by destruct (elementsCompletelyDequeued blk =? 31)).
  assert (forall b', free_at b' l' = 0) as Hf'
    by (intros b'; unfold l'; by destruct (elementsCompletelyDequeued blk =? 32 - 1)).
  exists live, frontier, n, hd, g, newest, exempt. pose proof I as I'. destruct I as [I1 I2 I3 I4 I5 I6 I7 I8 I9 I10 I11 I12 I13 I14].
  constructor; simpl; try done.
  - intros base b' E'. destruct (I3 base b' E') as (blk' & Eb' & H0' & Hsum' & Hnull'). destruct (Hl' base) as [He Hn].
    rewrite !(sum_insert _ _ i _ _ El). simpl. rewrite He, Hn. destruct (decide (b' = b)) as [->|Hb].
    + assert (blk' = blk) as -> by congruence. rewrite (live_block _ _ _ _ _ _ _ _ _ _ _ _ I' E' E) in *. rewrite same_refl.
      eexists. rewrite lookup_insert_eq. split; [done|]. simpl. split; [lia|]. split; [lia|]. rewrite Hnull'.
      destruct (Z.eqb_spec (elementsCompletelyDequeued blk) 31) as [->|]; [done|].
      rewrite !(proj2 (Z.eqb_neq _ _)) by lia. done.
    + rewrite same_ne by (intros Hbb; rewrite Hbb in E; congruence). exists blk'. rewrite lookup_insert_ne by done.
      split; [done|]. split; [done|]. split; [lia|]. rewrite Hnull'. destruct (elementsCompletelyDequeued blk =? 31); lia.
  - intros base E'. destruct (I4 base E') as (G1 & G2 & G3). destruct (Hl' base) as [He Hn].
    rewrite !(sum_insert _ _ i _ _ El). simpl. rewrite He, Hn.
    rewrite same_ne by (intros Hbb; rewrite Hbb in E; congruence). destruct (elementsCompletelyDequeued blk =? 31); lia.
  - intros j. rewrite I6. unfold content. destruct (decide (0 <= j)); [|done]. destruct (live !! base_of j) as [b'|]; [|done]. simpl.
    destruct (decide (b' = b)) as [->|Hb]; [by rewrite lookup_insert_eq, Eb|by rewrite lookup_insert_ne].
  - intros b'. rewrite (sum_insert _ _ i _ _ El), Hf'. simpl. specialize (I7 b'). rewrite Z.add_0_r, Z.sub_0_r, I7. f_equal. apply bool_decide_ext. symmetry.
    by eapply insert_block_domain.
  - intros b' blk' off. destruct (decide (b' = b)) as [->|Hb].
    + pose proof (lives_same live _ _ E). lia.
    + rewrite lookup_insert_ne by done. apply I8.
  - rewrite lookup_insert_ne; [done|]. intros Hb. rewrite Hb in Eb. congruence.
  - intros id' b' Eq. destruct (I10 id' b' Eq) as (blk' & Eb' & Hz). rewrite lookup_insert_ne; [by exists blk'|]. intros <-.
    pose proof (places_range _ _ _ _ _ _ _ _ _ b I') as Hp. rewrite Eq in Hp. simpl in Hp. rewrite same_refl in Hp.
    pose proof (lives_same live _ _ E). lia.
  - by rewrite length_insert.
  - eapply insert_pairwise; [by eapply lookup_lt_Some| |intros; by apply (I12 j)].
    rewrite Ec. intros ? [= <-]. unfold l'. by destruct (elementsCompletelyDequeued blk =? 32 - 1).
Qed.

Lemma sim_free b :
  lookups s !! i = Some (LFree b) ->
  exists s', lstep i s = Some (s', None) /\ b ∉ pool s /\ exists m', simulated s s' m m' None /\ SI s' m'.
Proof.
  intros El. pose proof (si_lookups _ _ _ _ _ _ _ _ _ I _ _ _ Ec El) as ->.
  pose proof (places_range _ _ _ _ _ _ _ _ _ b I) as Hp. destruct (at_nonneg 0 b) as (_ & _ & _ & Hf & _).
  pose proof (sum_le _ _ _ _ Hf El) as Hl. simpl in Hl. rewrite same_refl in Hl.
  assert (b ∉ pool s) as Hb by (destruct (inside_cases b (pool s)) as [[_ ?]|[? _]]; [lia|done]).
  unfold lstep. rewrite Ec, El. simpl. eexists. split; [done|]. split; [done|]. exists m. split; [by apply simulated_stutter|].
  exists live, frontier, n, hd, g, newest, exempt. destruct I as [I1 I2 I3 I4 I5 I6 I7 I8 I9 I10 I11 I12 I13 I14].
  constructor; simpl; try done.
  - intros base b' E'. rewrite !(sum_insert _ _ i _ _ El). simpl. rewrite !Z.sub_0_r, !Z.add_0_r. by apply I3.
  - intros base E'. rewrite !(sum_insert _ _ i _ _ El). simpl. rewrite !Z.sub_0_r, !Z.add_0_r. by apply I4.
  - intros b'. rewrite (sum_insert _ _ i _ _ El), inside_union by done. simpl. specialize (I7 b'). lia.
  - by rewrite length_insert.
  - eapply insert_pairwise; [by eapply lookup_lt_Some|rewrite Ec; by intros ? [= <-]|intros; by apply (I12 j)].
Qed.

(** The consumer that takes a block out of the index is the last one there: all
    its elements have been counted, and no other consumer is at it. *)
Lemma null_full idx id b :
  lookups s !! i = Some (LNull idx id b) ->
  exists blk, blocks s !! b = Some blk /\ sum (elem_at (base_of idx)) (consumers (queue s)) = 0 /\
    sum (empty_at (base_of idx)) (lookups s) = 0 /\ sum (null_at (base_of idx)) (lookups s) = 1 /\
    base_of idx + 32 <= headIndex (queue s).
Proof.
  intros El. pose proof (si_lookups _ _ _ _ _ _ _ _ _ I _ _ _ Ec El) as (-> & E & _).
  destruct (si_counts _ _ _ _ _ _ _ _ _ I _ _ E) as (blk & Eb & Hc0 & Hsum & Hnull). exists blk. split; [done|].
  destruct (at_nonneg (base_of idx) b) as (Hn1 & Hn2 & Hn3 & _). pose proof (sum_nonneg _ (consumers (queue s)) Hn1).
  pose proof (sum_nonneg _ (lookups s) Hn2). pose proof (sum_le _ _ _ _ Hn3 El) as Hl. simpl in Hl. rewrite same_refl in Hl.
  destruct (Z.eqb_spec (elementsCompletelyDequeued blk) 32); simpl in Hnull; [|lia]. unfold below in Hsum. lia.
Qed.

Lemma null_alone idx id b j cj lj :
  lookups s !! i = Some (LNull idx id b) -> j <> i -> consumers (queue s) !! j = Some cj -> lookups s !! j = Some lj ->
  elem_at (base_of idx) cj = 0 /\ empty_at (base_of idx) lj = 0 /\ null_at (base_of idx) lj = 0.
Proof.
  intros El Hij Ecj Elj. destruct (null_full _ _ _ El) as (_ & _ & He & Hm & Hone & _).
  destruct (at_nonneg (base_of idx) b) as (Hn1 & Hn2 & Hn3 & _).
  pose proof (sum_le _ _ _ _ Hn1 Ecj). pose proof (sum_le _ _ _ _ Hn2 Elj).
  pose proof (sum_le_two _ _ i j _ _ Hn3 ltac:(done) El Elj) as Ht. simpl in Ht. rewrite same_refl in Ht.
  specialize (Hn1 cj). specialize (Hn2 lj). specialize (Hn3 lj). lia.
Qed.

Lemma null_gone idx id b j :
  lookups s !! i = Some (LNull idx id b) -> base_of j = base_of idx ->
  (forall j, 0 <= j < headIndex (queue s) -> (forall i', consumers (queue s) !! i' <> Some (CElement j)) -> m !! j = None) ->
  m !! j = None.
Proof.
  intros El Hj Htaken. destruct (null_full _ _ _ El) as (_ & _ & He & _ & _ & Hpast).
  pose proof (si_lookups _ _ _ _ _ _ _ _ _ I _ _ _ Ec El) as (_ & E & _).
  destruct (live_range _ _ _ _ _ _ _ (si_ring _ _ _ _ _ _ _ _ _ I) _ _ E) as (Hb0 & _).
  destruct (base_of_spec j). apply Htaken; [lia|]. intros i' Ec'. destruct (at_nonneg (base_of idx) b) as (Hn1 & _).
  pose proof (sum_le _ _ _ _ Hn1 Ec') as Hle. simpl in Hle. rewrite Hj, same_refl in Hle. lia.
Qed.
End cleanup.

(** The last consumer of a block takes it out of the index.  [Htaken]: elements
    below the head are with a consumer or gone. *)
Lemma sim_null s m live frontier n hd g newest exempt k i c idx id b :
  SInv s m live frontier n hd g newest exempt -> in_range s k -> consumers (queue s) !! i = Some c ->
  (forall j, 0 <= j < headIndex (queue s) -> (forall i', consumers (queue s) !! i' <> Some (CElement j)) -> m !! j = None) ->
  lookups s !! i = Some (LNull idx id b) ->
  exists s', lstep i s = Some (s', None) /\ exists m', simulated s s' m m' None /\ SI s' m'.
Proof.
  intros I Hr Ec Htaken El. pose proof (si_lookups _ _ _ _ _ _ _ _ _ I _ _ _ Ec El) as (-> & E & Ee).
  destruct (null_full _ _ _ _ _ _ _ _ _ I _ _ Ec _ _ _ El) as (blk & Eb & He0 & Hm0 & Hone & Hpast).
  destruct (live_range _ _ _ _ _ _ _ (si_ring _ _ _ _ _ _ _ _ _ I) _ _ E) as (Hb0 & _ & Hbm & _).
  pose proof (fun j Hj => null_gone _ _ _ _ _ _ _ _ _ I _ _ Ec _ _ _ j El Hj Htaken) as Hnone.
  unfold lstep. rewrite Ec, El. simpl. eexists. split; [done|]. exists m. split; [by apply simulated_stutter|].
  exists (delete (base_of idx) live), frontier, n, hd, g, newest, exempt. pose proof I as I'.
  destruct Hr as (Hh & _ & _).
  destruct I as [I1 (Hf0 & Hfm & Hfl) I3 I4 I5 I6 I7 I8 I9 I10 I11 I12 I13 I14]. constructor; simpl; try done.
  - by apply (ring_release _ _ _ _ _ _ _ _ b).
  - split; [done|]. split; [done|]. intros base b' [_ E']%lookup_delete_Some. by apply (Hfl base b').
  - intros base b' [Hne E']%lookup_delete_Some. destruct (I3 base b' E') as (blk' & Eb' & H0' & Hsum' & Hnull'). exists blk'.
    rewrite !(sum_insert _ _ i _ _ El). simpl. rewrite !same_ne by done. rewrite !Z.sub_0_r, !Z.add_0_r. done.
  - intros base [<-|E']%lookup_delete_None.
    + rewrite !(sum_insert _ _ i _ _ El). simpl. rewrite same_refl. lia.
    + destruct (I4 base E') as (G1 & G2 & G3). rewrite !(sum_insert _ _ i _ _ El). simpl.
      rewrite same_ne by (intros Hbb; rewrite Hbb in E; congruence). lia.
  - intros base Hbf Hm [<-|E']%lookup_delete_None; [done|by apply I5].
  - intros j. unfold content. destruct (decide (base_of j = base_of idx)) as [Hj|Hj].
    + rewrite Hnone by done. rewrite Hj, lookup_delete_eq. by destruct (decide (0 <= j)).
    + rewrite lookup_delete_ne by done. apply I6.
  - intros b'. rewrite (lives_delete b' _ b) by done. rewrite (sum_insert _ _ i _ _ El). simpl. specialize (I7 b'). lia.
  - intros b' blk' off Eb' Hz Hoff. rewrite (lives_delete b' _ b) in Hz by done.
    destruct (same_cases b' b) as [[-> _]|[_ Hs]]; [|by apply (I8 b'); [|lia|]].
    assert (blk' = blk) as -> by congruence. assert (base_of (base_of idx + off) = base_of idx) as Hj by (apply base_of_unique; lia).
    pose proof (Hnone _ Hj) as Hn. rewrite I6 in Hn. unfold content in Hn. rewrite decide_True, Hj, E in Hn by lia. simpl in Hn. rewrite Eb in Hn. simpl in Hn.
    rewrite <- Hn. f_equal. rewrite Z.add_mod, Hbm, Z.add_0_l, Z.mod_mod, Z.mod_small by lia. done.
  - by rewrite length_insert.
  - eapply insert_pairwise; [by eapply lookup_lt_Some|rewrite Ec; by intros ? [= <-]|].
    intros j cj lj Hij Ecj Elj. pose proof (I12 j cj lj Ecj Elj) as Hs.
    destruct (null_alone _ _ _ _ _ _ _ _ _ I' _ _ Ec _ _ _ j cj lj El Hij Ecj Elj) as (Z1 & Z2 & Z3).
    apply (sees_keeps (blocks_index s) _ n n); [|by apply sees_live_delete].
    eapply keeps_store_value; [exact Ee|]. apply lookup_delete_eq.
  - intros b' [_ E']%lookup_delete_Some. by apply I13.
  - by apply stands_release.
Qed.

(** ** The simulation *)
Lemma Inv_state_facts s m E k :
  Inv_state (with_elements m (queue s)) E k -> k + 33 < 2 ^ 63 ->
  in_range s k /\ head_ok s /\
  (forall i idx, consumers (queue s) !! i = Some (CElement idx) -> is_u64 idx /\ exists x, m !! idx = Some x /\ E !! Z.to_nat idx = Some x) /\
  (forall j, 0 <= j < headIndex (queue s) -> (forall i, consumers (queue s) !! i <> Some (CElement j)) -> m !! j = None) /\
  (forall j, headIndex (queue s) <= j < tailIndex (queue s) -> m !! j = E !! Z.to_nat j) /\
  tailIndex (queue s) = Z.of_nat (length E).
Proof.
  intros [gr I] Hk. simpl in I. pose proof (Inv_ranges _ _ _ _ _ _ _ _ _ _ I) as Hr.
  split; [unfold in_range; lia|]. split; [|split; [|split; [|split]]].
  - pose proof (inv_producer _ _ _ _ _ _ _ _ _ _ I) as Hp. unfold head_ok. by destruct (producer (queue s)).
  - intros i idx Ec. destruct (Inv_element_there _ _ _ _ _ _ _ _ _ _ _ (Inv_focus _ _ _ _ _ _ _ i _ _ _ _ Ec I)) as (Hi & _ & Em & [x Ex]).
    split; [unfold is_u64; change (2 ^ 63) with 9223372036854775808 in Hk; lia|]. exists x. split; [done|]. by rewrite <- Em.
  - intros j Hj Hn. rewrite (inv_elements _ _ _ _ _ _ _ _ _ _ I), decide_False.
    + apply constructed_small. lia.
    + intros [_ [?|Ht]]; [lia|]. apply list_elem_of_omap in Ht as (c & Hc & Hcj). destruct c; try done. injection Hcj as ->.
      apply list_elem_of_lookup_1 in Hc as [i Ei]. by destruct (Hn i).
  - intros j Hj. rewrite (inv_elements _ _ _ _ _ _ _ _ _ _ I), decide_True; [done|]. split; [lia|left; lia].
  - apply (inv_tail _ _ _ _ _ _ _ _ _ _ I).
Qed.

Lemma qstep_memory memory got s : starting s <> QGrow -> qstep memory got s = qstep false got s.
Proof. intros Hq. unfold qstep. destruct (producer (queue s)), (starting s); done. Qed.

Lemma qstep_got memory got s : (forall id, starting s <> QRequisition id) -> qstep memory got s = qstep memory None s.
Proof. intros Hq. unfold qstep. destruct (producer (queue s)), (starting s); try done. by destruct (Hq idxEntry). Qed.

Lemma sim_qstep s m E k memory got s' r :
  SI s m -> Inv_state (with_elements m (queue s)) E k -> k + 33 < 2 ^ 63 -> qstep memory got s = Some (s', r) ->
  exists m', simulated s s' m m' r /\ SI s' m'.
Proof.
  intros (live & frontier & n & hd & g & newest & exempt & I) HI Hk Hs. destruct (Inv_state_facts _ _ _ _ HI Hk) as (Hr & Hok & _).
  pose proof (si_producer _ _ _ _ _ _ _ _ _ I) as Hst.
  destruct (starting s) as [|ca|ca| | |nt id|nt id|id|id|id|id b|id b] eqn:Eq; try rewrite qstep_memory in Hs by (by rewrite Eq);
    try rewrite qstep_got in Hs by (by rewrite Eq); destruct (producer (queue s)) as [|x t|x t|x t] eqn:Ep; try done.
  - by unfold qstep in Hs; rewrite Ep in Hs.
  - by eapply sim_construct.
  - by eapply sim_publish.
  - by eapply sim_head.
  - by eapply sim_entry.
  - by eapply sim_grow.
  - by eapply sim_grown.
  - by eapply sim_key.
  - by eapply sim_tail.
  - by eapply sim_requisition.
  - by eapply sim_rewind.
  - by eapply sim_clear.
  - by eapply sim_reset.
  - by eapply sim_value.
Qed.

Lemma sim_lstep s m E k i s' r :
  SI s m -> Inv_state (with_elements m (queue s)) E k -> k + 33 < 2 ^ 63 -> lstep i s = Some (s', r) ->
  exists m', simulated s s' m m' r /\ SI s' m'.
Proof.
  intros (live & frontier & n & hd & g & newest & exempt & I) HI Hk Hs.
  destruct (Inv_state_facts _ _ _ _ HI Hk) as (Hr & Hok & Hidx & Htaken & _).
  destruct (consumers (queue s) !! i) as [c|] eqn:Ec; [|by unfold lstep in Hs; rewrite Ec in Hs].
  destruct (lookups s !! i) as [l|] eqn:El; [|by unfold lstep in Hs; rewrite Ec, El in Hs].
  pose proof (si_lookups _ _ _ _ _ _ _ _ _ I _ _ _ Ec El) as Hsee.
  destruct l as [| |n'|n' p|n' p tb|id|id b|idx id b|idx id b|b].
  - unfold lstep in Hs. rewrite Ec, El in Hs. simpl in Hs, Hsee.
    assert (('(q, r) ← cstep i (queue s);
             Some (look i (match consumers q !! i with Some (CElement _) => LHeader | _ => LNone end) (set_queue q s), r)) = Some (s', r)) as Hs'
      by (destruct c; try exact Hs; by destruct (Hsee _ eq_refl)).
    destruct (cstep i (queue s)) as [[q' r']|] eqn:Eq; [|done]. simpl in Hs'. injection Hs' as <- ->.
    destruct (cstep_with_elements _ _ _ _ _ m Ec Hsee Eq) as (Ha & Ht & _).
    assert (k + 1 < 2 ^ 63) as Hk1 by lia. destruct (inv_cstep _ _ _ _ _ _ Hk1 HI Ha) as [[gr I'] _]. pose proof (Inv_ranges _ _ _ _ _ _ _ _ _ _ I') as Hr'. simpl in Hr'.
    eapply sim_counters; try done. lia.
  - destruct Hsee as [idx ->]. destruct (Hidx _ _ Ec) as [Hi _].
    destruct (lookup_header _ _ _ _ _ _ _ _ _ I i idx Ec El) as [Hl Hs']. rewrite Hl in Hs. injection Hs as <- <-.
    by eapply (sim_look _ _ _ _ _ _ _ _ _ I i idx Ec LHeader).
  - pose proof Hsee as (idx & ? & -> & _). destruct (lookup_tail _ _ _ _ _ _ _ _ _ I i idx Ec n' El) as (p & Hl & Hs').
    rewrite Hl in Hs. injection Hs as <- <-. by eapply (sim_look _ _ _ _ _ _ _ _ _ I i idx Ec).
  - pose proof Hsee as (idx & ? & -> & _). destruct (lookup_key _ _ _ _ _ _ _ _ _ I i idx Ec n' p El) as (tb & Hl & Hs').
    rewrite Hl in Hs. injection Hs as <- <-. by eapply (sim_look _ _ _ _ _ _ _ _ _ I i idx Ec).
  - pose proof Hsee as (idx & ? & ? & ? & -> & _). destruct (Hidx _ _ Ec) as [Hi _].
    destruct (lookup_index _ _ _ _ _ _ _ _ _ I i idx Ec Hi n' p tb El) as (id & Hl & Hs').
    rewrite Hl in Hs. injection Hs as <- <-. by eapply (sim_look _ _ _ _ _ _ _ _ _ I i idx Ec).
  - pose proof Hsee as (idx & ? & -> & _). destruct (lookup_value _ _ _ _ _ _ _ _ _ I i idx Ec id El) as (b & Hl & Hs').
    rewrite Hl in Hs. injection Hs as <- <-. by eapply (sim_look _ _ _ _ _ _ _ _ _ I i idx Ec).
  - pose proof Hsee as (idx & -> & _). destruct (Hidx _ _ Ec) as [Hi (x & Hx & _)].
    destruct (sim_element _ _ _ _ _ _ _ _ _ I i idx Ec Hi id b x El Hx) as (s1 & Hl & Hm). rewrite Hl in Hs. by injection Hs as <- <-.
  - destruct (sim_empty _ _ _ _ _ _ _ _ _ I i c Ec idx id b El) as (s1 & Hl & Hm). rewrite Hl in Hs. by injection Hs as <- <-.
  - destruct (sim_null _ _ _ _ _ _ _ _ _ _ i c idx id b I Hr Ec Htaken El) as (s1 & Hl & Hm). rewrite Hl in Hs. by injection Hs as <- <-.
  - destruct (sim_free _ _ _ _ _ _ _ _ _ I i c Ec b El) as (s1 & Hl & _ & Hm). rewrite Hl in Hs. by injection Hs as <- <-.
Qed.

Lemma sim_call x canAlloc s m s' r :
  SI s m -> sub_next (SEnqueue x canAlloc) s = Some (s', r) -> exists m', simulated s s' m m' r /\ SI s' m'.
Proof.
  intros (live & frontier & n & hd & g & newest & exempt & I) Hs. pose proof (si_producer _ _ _ _ _ _ _ _ _ I) as Hst.
  unfold sub_next, next in Hs. destruct (producer (queue s)) eqn:Ep; try done. cbv zeta in Hs.
  destruct (starting s) eqn:Eq; try done. destruct Hst as (Hn & He & Hf). simpl in Hs.
  destruct (si_frontier _ _ _ _ _ _ _ _ _ I) as (_ & Hm & _). pose proof (place_eq (tailIndex (queue s))) as Hp. unfold place in Hp.
  set (p := if _ =? 0 then PHead x (tailIndex (queue s)) else PConstruct x (tailIndex (queue s))) in Hs.
  set (q := match p with PHead _ _ => QHead canAlloc | _ => QNone end).
  assert (stands (blocks_index s) live frontier hd g newest exempt (tailIndex (queue s)) p q) as Hst.
  { unfold q, p. rewrite Hp. destruct (Z.eqb_spec (tailIndex (queue s) mod 32) 0); simpl; [split; [dlia|done]|split; [done|split; [done|dlia]]]. }
  assert (start q (set_queue (with_producer p (queue s)) (set_index (blocks_index s) s)) = s' /\ r = None) as [<- ->]
    by (split; by injection Hs as <- <-).
  exists m. split.
  - apply (simulated_step _ _ _ _ (Enqueue x)). simpl. by rewrite Ep.
  - do 7 eexists. eapply SInv_index; [exact I|exact (si_ring _ _ _ _ _ _ _ _ _ I)|apply keeps_refl|exact Hst| |].
    + intros b. rewrite Eq. unfold q. by destruct p.
    + intros id b. unfold q. by destruct p.
Qed.

Lemma sim_called i s m s' r :
  SI s m -> sub_next (SDequeue i) s = Some (s', r) -> exists m', simulated s s' m m' r /\ SI s' m'.
Proof.
  intros (live & frontier & n & hd & g & newest & exempt & I) Hs. simpl in Hs.
  destruct (lookups s !! i) as [[]|] eqn:El; try done. destruct (consumers (queue s) !! i) as [[]|] eqn:Ec; try done.
  injection Hs as <- <-. exists m. split; [apply (simulated_step _ _ _ _ (Dequeue i)); simpl; by rewrite Ec|].
  exists live, frontier, n, hd, g, newest, exempt.
  assert (look i LNone (set_queue (with_consumer i CTail (queue s)) s) = set_queue (with_consumer i CTail (queue s)) s) as <-
    by (destruct s; unfold look; simpl in *; by rewrite list_insert_id).
  apply (SInv_move _ _ _ _ _ _ _ _ _ i CIdle LNone CTail LNone _ I Ec El); try done.
  intros base. split; [done|]. split; [|done]. simpl. destruct (decide _); lia.
Qed.

(** What other sub-queues do to the free list. *)
Lemma vacant_spec blk off : vacant blk = true -> 0 <= off < 32 -> cells blk !! off = None.
Proof.
  unfold vacant. rewrite forallb_forall. intros Hv Ho. eapply bool_decide_eq_true. apply Hv. apply list_elem_of_In, elem_of_seqZ. unfold BLOCK_SIZE. lia.
Qed.

Lemma sim_take b s m s' r :
  SI s m -> sub_next (STake b) s = Some (s', r) -> exists m', simulated s s' m m' r /\ SI s' m'.
Proof.
  intros (live & frontier & n & hd & g & newest & exempt & I) Hs. unfold sub_next in Hs.
  destruct (bool_decide_reflect (b ∈ pool s)) as [Hb|]; [|done]. injection Hs as <- <-. exists m. split; [by apply simulated_stutter|].
  exists live, frontier, n, hd, g, newest, exempt. pose proof (places_range _ _ _ _ _ _ _ _ _ b I) as Hpl.
  assert (inside b (pool s) = 1) as Hi by (destruct (inside_cases b (pool s)) as [[_ ?]|[? _]]; done).
  assert (forall base, live !! base <> Some b) as Hnl by (intros base E; pose proof (lives_same live base b E); lia).
  destruct I as [I1 I2 I3 I4 I5 I6 I7 I8 I9 I10 I11 I12 I13 I14]. constructor; simpl; try done.
  - intros base b' E. rewrite lookup_delete_ne; [by apply I3|]. intros ->. by apply (Hnl base).
  - intros i. rewrite I6. unfold content. destruct (decide (0 <= i)); [|done]. destruct (live !! base_of i) as [b'|] eqn:E; [|done]. simpl.
    rewrite lookup_delete_ne; [done|]. intros ->. by apply (Hnl (base_of i)).
  - intros b'. specialize (I7 b'). destruct (decide (b' = b)) as [->|Hne].
    + rewrite lookup_delete_eq, inside_difference, same_refl by done. rewrite bool_decide_eq_false_2 by by intros []. simpl. lia.
    + rewrite lookup_delete_ne, inside_difference, same_ne by done. lia.
  - intros b' blk off [_ E]%lookup_delete_Some. by apply (I8 b').
  - apply lookup_delete_None. by right.
  - intros id b' Eq. rewrite lookup_delete_ne; [by apply (I10 id)|]. intros ->. rewrite Eq in Hpl. simpl in Hpl. rewrite same_refl in Hpl. lia.
Qed.

Lemma sim_give b blk s m s' r :
  SI s m -> sub_next (SGive b blk) s = Some (s', r) -> exists m', simulated s s' m m' r /\ SI s' m'.
Proof.
  intros (live & frontier & n & hd & g & newest & exempt & I) Hs. unfold sub_next in Hs.
  destruct (bool_decide_reflect (b = NULL)) as [|Hnn]; [done|]. destruct (bool_decide_reflect (is_Some (blocks s !! b))) as [|Hnb]; [done|]. simpl in Hs.
  destruct (vacant blk) eqn:Hv; [|done]. injection Hs as <- <-. exists m. split; [by apply simulated_stutter|].
  exists live, frontier, n, hd, g, newest, exempt. pose proof (places_range _ _ _ _ _ _ _ _ _ b I) as Hpl.
  pose proof (si_places _ _ _ _ _ _ _ _ _ I b) as Hp0. rewrite bool_decide_eq_false_2 in Hp0 by done. simpl in Hp0.
  assert (forall base, live !! base <> Some b) as Hnl by (intros base E; pose proof (lives_same live base b E); lia).
  destruct I as [I1 I2 I3 I4 I5 I6 I7 I8 I9 I10 I11 I12 I13 I14]. constructor; simpl; try done.
  - intros base b' E. rewrite lookup_insert_ne; [by apply I3|]. intros ->. by apply (Hnl base).
  - intros i. by rewrite content_other.
  - intros b'. specialize (I7 b'). assert (b ∉ pool s) as Hnp by (destruct (inside_cases b (pool s)) as [[_ ?]|[? _]]; [lia|done]).
    rewrite inside_union by done. destruct (decide (b' = b)) as [->|Hne].
    + rewrite lookup_insert_eq, same_refl. rewrite bool_decide_eq_true_2 by by eexists. simpl. lia.
    + rewrite lookup_insert_ne, same_ne by done. lia.
  - intros b' blk' off. destruct (decide (b' = b)) as [->|Hne].
    + rewrite lookup_insert_eq. intros [= <-] _ Ho. by apply vacant_spec.
    + rewrite lookup_insert_ne by done. apply I8.
  - by rewrite lookup_insert_ne.
  - intros id b' Eq. rewrite lookup_insert_ne; [by apply (I10 id)|]. intros ->. rewrite Eq in Hp0, Hpl. simpl in Hp0, Hpl. rewrite same_refl in *. lia.
Qed.

Lemma sim_next s m E k e s' r :
  SI s m -> Inv_state (with_elements m (queue s)) E k -> k + 33 < 2 ^ 63 -> sub_next e s = Some (s', r) ->
  exists m', simulated s s' m m' r /\ SI s' m'.
Proof.
  intros I HI Hk Hs. destruct e; [by eapply sim_call|by eapply sim_qstep|by eapply sim_called|by eapply sim_lstep|by eapply sim_take|by eapply sim_give].
Qed.

Lemma run_app es1 : forall s s1 rs1 es2 s2 rs2,
  run es1 s = Some (s1, rs1) -> run es2 s1 = Some (s2, rs2) -> run (es1 ++ es2) s = Some (s2, rs1 ++ rs2).
Proof.
  induction es1 as [|e es1 IH]; intros s s1 rs1 es2 s2 rs2 Hr1 Hr2; simpl in Hr1.
  - injection Hr1 as -> <-. done.
  - destruct (next e s) as [[s' r]|] eqn:En; [|done]. simpl in Hr1.
    destruct (run es1 s') as [[s'' rs]|] eqn:Er; [|done]. injection Hr1 as <- <-.
    simpl. rewrite En. simpl. rewrite (IH _ _ _ _ _ _ Er Hr2). simpl. by rewrite app_assoc.
Qed.

Lemma sim_run es : forall s m E D k s' rs,
  SI s m -> Inv_state (with_elements m (queue s)) E k -> accounted (with_elements m (queue s)) D ->
  k + Z.of_nat (length es) + 33 < 2 ^ 63 -> sub_run es s = Some (s', rs) ->
  exists es' m', (length es' <= length es)%nat /\ run es' (with_elements m (queue s)) = Some (with_elements m' (queue s'), rs) /\ SI s' m'.
Proof.
  induction es as [|e es IH]; intros s m E D k s' rs I HI HA Hk Hs; simpl in Hs.
  - injection Hs as <- <-. by exists [], m.
  - destruct (sub_next e s) as [[s1 r]|] eqn:En; [|done]. simpl in Hs.
    destruct (sub_run es s1) as [[s2 rs2]|] eqn:Er; [|done]. simpl in Hs. injection Hs as <- <-.
    rewrite length_cons in Hk. assert (k + 33 < 2 ^ 63) as Hk1 by lia.
    destruct (sim_next _ _ _ _ _ _ _ I HI Hk1 En) as (m1 & (es1 & Hl1 & Hr1) & I1).
    assert (k + Z.of_nat (length es1) < 2 ^ 63) as Hk2 by lia.
    destruct (mpmc_inv_run es1 _ _ _ _ _ _ Hk2 HI HA Hr1) as (HI1 & HA1 & _).
    destruct (IH _ _ _ _ _ _ _ I1 HI1 HA1 ltac:(lia) Er) as (es2 & m2 & Hl2 & Hr2 & I2).
    exists (es1 ++ es2), m2. rewrite length_app, length_cons. split; [lia|]. split; [|done]. by eapply run_app.
Qed.

(** ** The start *)
Lemma sum_replicate {A} (f : A -> Z) n x : f x = 0 -> sum f (replicate n x) = 0.
Proof. intros Hf. unfold sum. induction n as [|n IH]; [done|]. simpl. by rewrite Hf, IH. Qed.

Lemma SI_initial pool c : NULL ∉ pool -> SI (sub_initial pool c) ∅.
Proof.
  intros Hn. exists ∅, 0, 0%nat, first_header, 5, (-32), None.
  assert (forall b, gset_to_gmap new_block pool !! b = if decide (b ∈ pool) then Some new_block else None) as Hb.
  { intros b. destruct (decide (b ∈ pool)); [by apply lookup_gset_to_gmap_Some|by apply lookup_gset_to_gmap_None]. }
  constructor; simpl; try done.
  - apply ring_first.
  - intros base _. rewrite !sum_replicate by done. done.
  - intros base ?. lia.
  - intros i. unfold content. rewrite !lookup_empty. by destruct (decide (0 <= i)).
  - intros b. rewrite sum_replicate by done. rewrite Hb. unfold lives. rewrite map_to_list_empty. simpl.
    unfold inside. destruct (decide (b ∈ pool)).
    + rewrite !bool_decide_eq_true_2; [done|by eexists|done].
    + rewrite !bool_decide_eq_false_2; [done|by intros []|done].
  - intros b blk off. rewrite Hb. destruct (decide (b ∈ pool)); [|done]. by intros [= <-].
  - rewrite Hb. by rewrite decide_False.
  - by rewrite !length_replicate.
  - intros i cc l [-> _]%lookup_replicate [-> _]%lookup_replicate. done.
Qed.

(** What is kept at an index: the block index leads to the block. *)
Definition stored (s : sub) (i : Z) : option ptr :=
  id ← get_block_index_index_for_index i (blocks_index s);
  e ← entries (blocks_index s) !! id;
  v ← value e;
  blk ← blocks s !! v;
  cells blk !! place i.

(** The block index, undisturbed, leads to the block of an index. *)
Lemma index_of_live x n hd g newest live exempt i b :
  Ring x n hd g newest live exempt -> is_u64 i -> live !! base_of i = Some b ->
  exists id, get_block_index_index_for_index i x = Some id /\ entries x !! id = Some {| key := base_of i; value := Some b |}.
Proof.
  intros R Hi E. destruct (reaches_index _ _ _ _ _ (ring_reaches _ _ _ _ _ _ _ R _ _ E)) as (hd' & tid & te & id & Eh & Et & Ete & Hk & Ei & Ee).
  rewrite (ri_header _ _ _ _ _ _ _ R) in Eh. injection Eh as <-.
  destruct (base_of_spec i) as [Hm _]. destruct (live_range _ _ _ _ _ _ _ R _ _ E) as (_ & _ & _ & Hb).
  exists id. split; [|done]. unfold get_block_index_index_for_index. rewrite (ri_current _ _ _ _ _ _ _ R). simpl.
  rewrite (ri_header _ _ _ _ _ _ _ R). simpl. rewrite Et. simpl. rewrite Ete. simpl. rewrite (proj2 (Z.eqb_neq _ _) (Hk Hm)).
  rewrite block_base_eq, Ei by done. simpl. rewrite Ee. simpl. rewrite Z.eqb_refl. by rewrite !bool_decide_eq_true_2 by congruence.
Qed.

Lemma stored_spec s m i x : SI s m -> is_u64 i -> m !! i = Some x -> stored s i = Some x.
Proof.
  intros (live & frontier & n & hd & g & newest & exempt & I) Hi Hx.
  rewrite (si_cells _ _ _ _ _ _ _ _ _ I) in Hx. unfold content in Hx. destruct (decide (0 <= i)); [|done].
  destruct (live !! base_of i) as [b|] eqn:E; [|done]. simpl in Hx.
  destruct (index_of_live _ _ _ _ _ _ _ _ _ (si_ring _ _ _ _ _ _ _ _ _ I) Hi E) as (id & Ei & Ee).
  unfold stored. rewrite Ei. simpl. rewrite Ee. simpl. by rewrite place_eq.
Qed.

(** *** Runs from the start *)
Lemma sim_start pool c es s rs :
  NULL ∉ pool -> Z.of_nat (length es) + 33 < 2 ^ 63 -> sub_run es (sub_initial pool c) = Some (s, rs) ->
  exists es' m, (length es' <= length es)%nat /\ run es' (initial c) = Some (with_elements m (queue s), rs) /\ SI s m /\
    Inv_state (with_elements m (queue s)) (enqueued rs) (Z.of_nat (length es')).
Proof.
  intros Hn Hk Hr. destruct (inv_initial c) as [HI HA].
  destruct (sim_run es _ _ _ _ 0 _ _ (SI_initial pool c Hn) HI HA ltac:(lia) Hr) as (es' & m & Hl & Hr' & I).
  exists es', m. split; [done|]. split; [done|]. split; [done|].
  by destruct (mpmc_inv_run es' _ _ _ _ _ 0 ltac:(lia) HI HA Hr') as (HI' & _).
Qed.

(** The blocks of a sub-queue and of the free list: only other sub-queues change
    which these are. *)
Definition world_step (e : sub_event) (X : gset ptr) : gset ptr :=
  match e with STake b => X ∖ {[b]} | SGive b _ => X ∪ {[b]} | _ => X end.
Definition world (es : list sub_event) (given : gset ptr) : gset ptr := foldl (fun X e => world_step e X) given es.

Lemma sub_next_blocks e s s' r : sub_next e s = Some (s', r) -> dom (blocks s') = world_step e (dom (blocks s)).
Proof.
  assert (forall b blk blk', blocks s !! b = Some blk -> dom (<[b := blk']> (blocks s)) = dom (blocks s)) as Hd
    by (intros b blk blk' E; rewrite dom_insert_L; apply elem_of_dom_2 in E; set_solver).
  assert (forall memory got, qstep memory got s = Some (s', r) -> dom (blocks s') = dom (blocks s)) as Hq.
  { intros memory got Hs. unfold qstep, refuse in Hs.
    destruct (producer (queue s)), (starting s); try done; repeat first [progress simplify_option_eq|case_match]; try done; by eapply Hd. }
  assert (forall i, lstep i s = Some (s', r) -> dom (blocks s') = dom (blocks s)) as Hl.
  { intros i Hs. unfold lstep in Hs. destruct (consumers (queue s) !! i) as [c|]; [|done]. destruct (lookups s !! i) as [l|]; [|done]. simpl in Hs.
    destruct l, c; try done; repeat first [progress simplify_option_eq|case_match]; try done; by eapply Hd. }
  intros Hs. destruct e; simpl in Hs; [|by eapply Hq| |by eapply Hl| |]; repeat first [progress simplify_option_eq|case_match]; try done.
  - apply dom_delete_L.
  - rewrite dom_insert_L. apply (comm_L (∪)).
Qed.

Lemma sub_run_blocks es : forall s s' rs, sub_run es s = Some (s', rs) -> dom (blocks s') = world es (dom (blocks s)).
Proof.
  induction es as [|e es IH]; intros s s' rs Hr; simpl in Hr; [by injection Hr as <- <-|].
  destruct (sub_next e s) as [[s1 r]|] eqn:En; [|done]. simpl in Hr.
  destruct (sub_run es s1) as [[s2 rs2]|] eqn:Er; [|done]. injection Hr as <- <-.
  rewrite (IH _ _ _ Er). simpl. f_equal. by eapply sub_next_blocks.
Qed.

(** *** Every thread can go on *)
Lemma qstep_safe s m live frontier n hd g newest exempt k memory got :
  SInv s m live frontier n hd g newest exempt -> in_range s k -> head_ok s -> producer (queue s) <> PIdle ->
  (forall b, got = Some b -> b ∈ pool s) -> is_Some (qstep memory got s).
Proof.
  intros I Hr Hok Hp Hg. pose proof (si_producer _ _ _ _ _ _ _ _ _ I) as Hst. pose proof (si_ring _ _ _ _ _ _ _ _ _ I) as R.
  unfold qstep. destruct (producer (queue s)) as [|x t|x t|x t] eqn:Ep; [done| |..].
  - destruct (starting s) as [|ca|ca| | |nt id|nt id|id|id|id|id b|id b] eqn:Eq; simpl in Hst; try done.
    + rewrite (head_assert _ _ t Hr) by (unfold head_ok in Hok; by rewrite Ep in Hok). case_match; by eexists.
    + destruct (next_entry_spec _ _ _ _ _ _ _ R) as (id & e & Hne & Ei & Ee). rewrite Hne. simpl. rewrite Ee. simpl.
      destruct Hst as (Ht & Hn & He). rewrite He in R.
      destruct (entry_free_spec _ _ _ _ _ _ id e R Ei Ee) as [[-> _]|[-> _]]; [by eexists|destruct ca; by eexists].
    + destruct memory; [|by eexists]. destruct Hst as (Ht & Hn & He & Hw & Hl).
      assert (g + 1 <= 59) as Hg59 by (eapply frontier_bound; [exact I|exact Hr|lia..]).
      destruct (new_block_index_spec _ _ _ _ _ _ _ R Hg59) as (old & Hx' & _). rewrite Hx'. by eexists.
    + destruct (next_entry_spec _ _ _ _ _ _ _ R) as (id' & e' & Hne & Ei' & Ee'). rewrite Hne. simpl. rewrite Ee'. simpl.
      destruct Hst as (_ & _ & _ & id & e & [Ei Ee] & Hk). assert (id' = id) as -> by congruence. assert (e' = e) as -> by congruence.
      rewrite Hk. by eexists.
    + rewrite (ri_current _ _ _ _ _ _ _ R). by eexists.
    + destruct got as [b|]; [|by eexists]. rewrite bool_decide_eq_true_2 by by apply Hg. by eexists.
    + rewrite (ri_current _ _ _ _ _ _ _ R). simpl. rewrite (ri_header _ _ _ _ _ _ _ R). by eexists.
    + destruct (held_not_live _ _ _ _ _ _ _ _ _ I b) as (_ & _ & [blk Eb]); [rewrite Eq; apply same_refl|]. rewrite Eb. by eexists.
  - destruct (starting s) eqn:Eq; try done. destruct Hst as (_ & _ & Hf).
    pose proof (tail_live _ _ _ _ _ _ _ _ _ I (proj1 Hr) ltac:(destruct Hr; lia)) as E. destruct (si_counts _ _ _ _ _ _ _ _ _ I _ _ E) as (blk & Eb & _).
    rewrite Eb. by eexists.
  - destruct (starting s) eqn:Eq; try done. unfold pstep. rewrite Ep. by eexists.
Qed.

Lemma lstep_safe s m E k i c l :
  SI s m -> Inv_state (with_elements m (queue s)) E k -> k + 33 < 2 ^ 63 ->
  consumers (queue s) !! i = Some c -> lookups s !! i = Some l -> ~ (c = CIdle /\ l = LNone) -> is_Some (lstep i s).
Proof.
  intros (live & frontier & n & hd & g & newest & exempt & I) HI Hk Ec El Hn.
  destruct (Inv_state_facts _ _ _ _ HI Hk) as (Hr & Hok & Hidx & Htaken & _).
  pose proof (si_lookups _ _ _ _ _ _ _ _ _ I _ _ _ Ec El) as Hsee.
  assert (forall idx, c = CElement idx -> is_u64 idx /\ exists x, m !! idx = Some x) as Hx.
  { intros idx ->. destruct (Hidx _ _ Ec) as [Hi (x & Hx & _)]. split; [done|by exists x]. }
  destruct l as [| |n'|n' p|n' p tb|id|id b|idx id b|idx id b|b].
  - unfold lstep. rewrite Ec, El. simpl. unfold cstep. rewrite Ec. simpl.
    destruct c; try (by destruct Hn); try (by destruct (Hsee _ eq_refl)); repeat case_match; by eexists.
  - destruct Hsee as [idx ->]. destruct (lookup_header _ _ _ _ _ _ _ _ _ I i idx Ec El) as [Hl _]. by eexists.
  - pose proof Hsee as (idx & ? & -> & _). destruct (lookup_tail _ _ _ _ _ _ _ _ _ I i idx Ec n' El) as (p & Hl & _). by eexists.
  - pose proof Hsee as (idx & ? & -> & _). destruct (lookup_key _ _ _ _ _ _ _ _ _ I i idx Ec n' p El) as (tb & Hl & _). by eexists.
  - pose proof Hsee as (idx & ? & ? & ? & -> & _). destruct (Hx _ eq_refl) as [Hi _].
    destruct (lookup_index _ _ _ _ _ _ _ _ _ I i idx Ec Hi n' p tb El) as (id & Hl & _). by eexists.
  - pose proof Hsee as (idx & ? & -> & _). destruct (lookup_value _ _ _ _ _ _ _ _ _ I i idx Ec id El) as (b & Hl & _). by eexists.
  - pose proof Hsee as (idx & -> & _). destruct (Hx _ eq_refl) as [Hi [x Em]].
    destruct (sim_element _ _ _ _ _ _ _ _ _ I i idx Ec Hi id b x El Em) as (s1 & Hl & _). by eexists.
  - destruct (sim_empty _ _ _ _ _ _ _ _ _ I i c Ec idx id b El) as (s1 & Hl & _). by eexists.
  - destruct (sim_null _ _ _ _ _ _ _ _ _ _ i c idx id b I Hr Ec Htaken El) as (s1 & Hl & _). by eexists.
  - destruct (sim_free _ _ _ _ _ _ _ _ _ I i c Ec b El) as (s1 & Hl & _). by eexists.
Qed.

(** ** The theorems *)

(** C10. The sub-queue with its blocks and its block index does what the machine
    of Mpmc.v does, in every interleaving of fewer than [2^63 - 33] steps, its
    own and those of other sub-queues on the free list: some
    run of that machine, no longer than the given one, ends with the same
    counters and threads and returns the same results; and every index between
    head and tail leads through the block index to a block that holds the
    element enqueued at that index. *)
Theorem storage_refines pool c es s rs :
  NULL ∉ pool -> Z.of_nat (length es) + 33 < 2 ^ 63 ->
  sub_run es (sub_initial pool c) = Some (s, rs) ->
  (exists es' m, (length es' <= length es)%nat /\ run es' (initial c) = Some (with_elements m (queue s), rs)) /\
  (forall i, headIndex (queue s) <= i < tailIndex (queue s) -> stored s i = enqueued rs !! Z.to_nat i).
Proof.
  intros Hn Hk Hr. destruct (sim_start _ _ _ _ _ Hn Hk Hr) as (es' & m & Hl & Hr' & I & HI). split; [by exists es', m|]. intros i Hi.
  assert (Z.of_nat (length es') + 33 < 2 ^ 63) as Hk' by lia.
  destruct (Inv_state_facts _ _ _ _ HI Hk') as (Hrange & _ & _ & _ & He & Ht). specialize (He i Hi).
  destruct (lookup_lt_is_Some_2 (enqueued rs) (Z.to_nat i)) as [x Hx]; [unfold in_range in Hrange; lia|].
  rewrite Hx in He |- *. apply (stored_spec s m i x I); [|done].
  unfold in_range in Hrange. unfold is_u64. change (2 ^ 63) with 9223372036854775808 in *. lia.
Qed.

(** Whatever has happened before, a thread that is in the middle of an
    operation can take its next step: no pointer it follows leads nowhere, it
    reads no entry and no cell that was never written, and no assertion of
    [insert_block_index_entry], [get_block_index_index_for_index] or [set_empty]
    fails.  A block that a consumer is about to put on the free list is a block
    of this sub-queue's and is not on the free list already. *)
Theorem storage_safe given c es s rs :
  NULL ∉ given -> Z.of_nat (length es) + 33 < 2 ^ 63 ->
  sub_run es (sub_initial given c) = Some (s, rs) ->
  (producer (queue s) <> PIdle -> forall memory got, (forall b, got = Some b -> b ∈ pool s) -> is_Some (qstep memory got s)) /\
  (forall i p l, consumers (queue s) !! i = Some p -> lookups s !! i = Some l -> ~ (p = CIdle /\ l = LNone) -> is_Some (lstep i s)) /\
  (forall i b, lookups s !! i = Some (LFree b) -> b ∈ world es given /\ b ∉ pool s).
Proof.
  intros Hn Hk Hr. destruct (sim_start _ _ _ _ _ Hn Hk Hr) as (es' & m & Hl & _ & I & HI).
  assert (Z.of_nat (length es') + 33 < 2 ^ 63) as Hk' by lia. pose proof (sub_run_blocks _ _ _ _ Hr) as Hd. simpl in Hd. rewrite dom_gset_to_gmap in Hd.
  split; [|split].
  - intros Hp memory got Hg. destruct (Inv_state_facts _ _ _ _ HI Hk') as (Hrange & Hok & _).
    destruct I as (live & frontier & n & hd & g & newest & exempt & I). by eapply qstep_safe.
  - intros i p l Ec El Hni. by eapply lstep_safe.
  - intros i b El. destruct I as (live & frontier & n & hd & g & newest & exempt & I).
    destruct (lookup_lt_is_Some_2 (consumers (queue s)) i) as [p Ec].
    { rewrite <- (si_length _ _ _ _ _ _ _ _ _ I). by eapply lookup_lt_Some. }
    destruct (sim_free _ _ _ _ _ _ _ _ _ I i p Ec b El) as (_ & _ & Hb & _). split; [|done].
    rewrite <- Hd. apply elem_of_dom. pose proof (si_places _ _ _ _ _ _ _ _ _ I b) as Hpl.
    destruct (at_nonneg 0 b) as (_ & _ & _ & Hf & Hh). pose proof (sum_le _ _ _ _ Hf El) as Hle. simpl in Hle. rewrite same_refl in Hle.
    specialize (Hh (starting s)). pose proof (lives_nonneg b live).
    assert (0 <= inside b (pool s)) by (destruct (inside_cases b (pool s)) as [[_ ->]|[_ ->]]; lia).
    destruct (bool_decide_reflect (is_Some (blocks s !! b))); [done|]. simpl in Hpl. lia.
Qed.

Definition sub_idle (s : sub) : Prop :=
  producer (queue s) = PIdle /\ idle (queue s) /\ forall l, l ∈ lookups s -> l = LNone.

Lemma sum_all {A} (f : A -> Z) l x : (forall y, y ∈ l -> y = x) -> f x = 0 -> sum f l = 0.
Proof.
  intros Hl Hf. unfold sum. induction l as [|y l IH]; [done|]. simpl. rewrite (Hl y) by by left. rewrite Hf, IH; [done|].
  intros z Hz. apply Hl. by right.
Qed.

Lemma lives_in b live : lives b live <> 0 -> exists base, live !! base = Some b.
Proof.
  intros Hl. destruct (decide (b ∈ (map_to_list live).*2)) as [([base b'] & -> & Hin)%list_elem_of_fmap|Hnin].
  - exists base. by apply elem_of_map_to_list.
  - unfold lives in Hl. by rewrite occ_not_elem in Hl.
Qed.

(** An idle sub-queue: each of its blocks is on the free list or in use, and the
    blocks in use have indices that are not dequeued. *)
Lemma SInv_idle s m live frontier n hd g newest exempt :
  SInv s m live frontier n hd g newest exempt -> sub_idle s ->
  tailIndex (queue s) <= frontier < tailIndex (queue s) + 32 /\
  (forall b, inside b (pool s) + lives b live = c_bool (bool_decide (is_Some (blocks s !! b)))) /\
  (forall base b, live !! base = Some b -> headIndex (queue s) < base + 32).
Proof.
  intros I (Hp & Hc & Hl). pose proof (si_producer _ _ _ _ _ _ _ _ _ I) as Hst.
  rewrite Hp in Hst. destruct (starting s) eqn:Eq; try done. destruct Hst as (_ & _ & Hf). split; [done|]. split.
  - intros b. pose proof (si_places _ _ _ _ _ _ _ _ _ I b) as Hpl. rewrite Eq, (sum_all _ _ LNone Hl) in Hpl by done. simpl in Hpl. lia.
  - intros base b E. destruct (si_counts _ _ _ _ _ _ _ _ _ I _ _ E) as (blk & _ & _ & Hsum & Hnull).
    rewrite (sum_all _ _ CIdle Hc), (sum_all _ _ LNone Hl) in Hsum by done. rewrite (sum_all _ _ LNone Hl) in Hnull by done.
    destruct (Z.eqb_spec (elementsCompletelyDequeued blk) 32); [done|]. unfold below in Hsum. lia.
Qed.

(** No block is lost: when no operation is under way, every block that is not
    on the free list is in the block index under a base of which the indices
    are not all dequeued and not all ahead of the tail; so when the sub-queue is
    empty and its last block full, all of its blocks are on the free list. *)
Theorem storage_reclaims given c es s rs :
  NULL ∉ given -> Z.of_nat (length es) + 33 < 2 ^ 63 ->
  sub_run es (sub_initial given c) = Some (s, rs) -> sub_idle s ->
  (forall b, b ∈ world es given -> b ∉ pool s ->
     exists base id, entries (blocks_index s) !! id = Some {| key := base; value := Some b |} /\
       base mod 32 = 0 /\ base < tailIndex (queue s) /\ headIndex (queue s) < base + 32) /\
  (headIndex (queue s) = tailIndex (queue s) -> tailIndex (queue s) mod 32 = 0 -> pool s = world es given).
Proof.
  intros Hn Hk Hr Hidle. destruct (sim_start _ _ _ _ _ Hn Hk Hr) as (es' & m & _ & _ & I & _).
  pose proof (sub_run_blocks _ _ _ _ Hr) as Hd. simpl in Hd. rewrite dom_gset_to_gmap in Hd.
  destruct I as (live & frontier & n & hd & g & newest & exempt & I). destruct (SInv_idle _ _ _ _ _ _ _ _ _ I Hidle) as (Hf & Hpl & Hlow).
  assert (forall b, b ∈ world es given -> b ∉ pool s -> exists base id, entries (blocks_index s) !! id = Some {| key := base; value := Some b |} /\
       base mod 32 = 0 /\ base < tailIndex (queue s) /\ headIndex (queue s) < base + 32) as Hin.
  { intros b Hb Hnp. specialize (Hpl b). rewrite <- Hd in Hb. apply elem_of_dom in Hb. rewrite bool_decide_eq_true_2 in Hpl by done. simpl in Hpl.
    destruct (inside_cases b (pool s)) as [[? _]|[_ Hz]]; [done|]. destruct (lives_in b live) as [base E]; [lia|].
    destruct (ri_live _ _ _ _ _ _ _ (si_ring _ _ _ _ _ _ _ _ _ I) _ _ E) as (_ & Hm & _ & j & id & _ & _ & _ & Ee).
    exists base, id. split; [done|]. split; [done|].
    destruct (si_frontier _ _ _ _ _ _ _ _ _ I) as (_ & Hfm & Hfl). specialize (Hfl _ _ E). specialize (Hlow _ _ E). split; [dlia|done]. }
  split; [done|]. intros Hht Htm. apply set_eq. intros b. split.
  - intros Hb. specialize (Hpl b). destruct (inside_cases b (pool s)) as [[_ Hz]|[? _]]; [|done].
    rewrite <- Hd. apply elem_of_dom. destruct (bool_decide_reflect (is_Some (blocks s !! b))); [done|]. simpl in Hpl.
    pose proof (lives_nonneg b live). lia.
  - intros Hb. destruct (decide (b ∈ pool s)) as [|Hnp]; [done|]. destruct (Hin b Hb Hnp) as (base & id & _ & Hm & Hlt & Hgt).
    rewrite Hht in Hgt. dlia.
Qed.

(** The same as a test. *)
Definition is_idle (p : sub) : bool :=
  match producer (queue p) with PIdle => true | _ => false end &&
  (forallb (fun c => match c with CIdle => true | _ => false end) (consumers (queue p)) &&
   forallb (fun l => match l with LNone => true | _ => false end) (lookups p)).

Lemma is_idle_spec p : is_idle p = true -> sub_idle p.
Proof.
  unfold is_idle. intros [Hp [Hcs Hls]%andb_prop]%andb_prop. split; [by destruct (producer (queue p))|].
  rewrite forallb_forall in Hcs, Hls. split.
  - intros c Hc. apply list_elem_of_In, Hcs in Hc. by destruct c.
  - intros l Hl. apply list_elem_of_In, Hls in Hl. by destruct l.
Qed.

(** ** Witnesses

    A block is filled and emptied, and its consumer puts it on the free list;
    another element goes to the next block. *)
Definition enq_first (x : ptr) (b : ptr) : list sub_event := SEnqueue x true :: replicate 9 (SProducer true (Some b)).
Definition enq_next (x : ptr) : list sub_event := SEnqueue x true :: replicate 2 (SProducer true None).
Definition deq (i : nat) : list sub_event := SDequeue i :: replicate 13 (SConsumer i).

Definition example_block : list sub_event :=
  enq_first 100 1024 ++ mjoin (map enq_next (seqZ 101 31)) ++ mjoin (replicate 32 (deq 0)) ++ [SConsumer 0].

Definition example_pool : gset ptr := {[1024; 2048]}.

Definition after (es : list sub_event) : sub * list result :=
  default (sub_initial ∅ 0, []) (sub_run es (sub_initial example_pool 2)).

(** The computed states are kept out of the proofs by way of these tests. *)
Definition check_run (es : list sub_event) (f : sub -> list result -> bool) : bool :=
  match sub_run es (sub_initial example_pool 2) with Some (s, rs) => f s rs | None => false end.

Lemma check_run_spec es f : check_run es f = true ->
  sub_run es (sub_initial example_pool 2) = Some (after es) /\ f (after es).1 (after es).2 = true.
Proof. unfold check_run, after. destruct (sub_run es _) as [[s rs]|]; [done|done]. Qed.

Definition more : list sub_event := example_block ++ SConsumer 0 :: enq_first 132 2048.

Definition counters_at (h t : Z) (s : sub) : bool := (headIndex (queue s) =? h) && (tailIndex (queue s) =? t).

Lemma storage_refines_witness : stored (after more).1 32 = Some (132 : ptr).
Proof.
  destruct (check_run_spec more (fun s rs => counters_at 32 33 s && bool_decide (enqueued rs !! 32%nat = Some (132 : ptr))))
    as [Hr Hf]; [vm_compute; reflexivity|].
  apply andb_prop in Hf as [Hc Hx]. apply andb_prop in Hc as [Hh Ht]. apply Z.eqb_eq in Hh, Ht. apply bool_decide_eq_true in Hx.
  destruct (after more) as [s rs].
  destruct (storage_refines example_pool 2 more s rs) as [_ He]; [by vm_compute|by vm_compute|exact Hr|].
  cbn [fst snd] in *. rewrite He by (rewrite Hh, Ht; lia). exact Hx.
Defined.

Lemma storage_safe_witness :
  is_Some (lstep 0 (after example_block).1) /\ (1024 : ptr) ∉ pool (after example_block).1.
Proof.
  destruct (check_run_spec example_block (fun s _ =>
      match consumers (queue s) !! 0%nat, lookups s !! 0%nat with Some CIdle, Some (LFree b) => b =? 1024 | _, _ => false end))
    as [Hr Hf]; [vm_compute; reflexivity|].
  destruct (after example_block) as [s rs]. cbn [fst snd] in *.
  destruct (consumers (queue s) !! 0%nat) as [p|] eqn:Ec; [|discriminate Hf]. destruct p; try discriminate Hf.
  destruct (lookups s !! 0%nat) as [l|] eqn:El; [|discriminate Hf]. destruct l as [| | | | | | | | |b]; try discriminate Hf. apply Z.eqb_eq in Hf. subst b.
  destruct (storage_safe example_pool 2 example_block s rs) as (_ & Hl & Hfree); [by vm_compute|by vm_compute|exact Hr|].
  split; [apply (Hl _ _ _ Ec El); intros [_ He]; discriminate He|exact (proj2 (Hfree _ _ El))].
Defined.

Lemma storage_reclaims_witness : pool (after (example_block ++ [SConsumer 0])).1 = example_pool.
Proof.
  set (es := example_block ++ [SConsumer 0]).
  destruct (check_run_spec es (fun s _ => counters_at 32 32 s && is_idle s)) as [Hr Hf]; [vm_compute; reflexivity|].
  apply andb_prop in Hf as [Hc Hi]. apply andb_prop in Hc as [Hh Ht]. apply Z.eqb_eq in Hh, Ht. destruct (after es) as [s rs]. cbn [fst snd] in *.
  destruct (storage_reclaims example_pool 2 es s rs) as [_ He]; [by vm_compute|by vm_compute|exact Hr|apply is_idle_spec; exact Hi|].
  apply He; rewrite Ht; [exact Hh|reflexivity].
Defined.
