(* ===== verification/Destroy.v ===== *)
(** * The end of a sub-queue (src/lib/concurrentqueue/concurrentqueue.h, ~ImplicitProducer)

    The destructor of a sub-queue runs when no thread uses the queue any more.  It
    destroys the elements nobody has taken, puts the blocks they are in on the free
    list, destroys the entries of the block index and frees its headers.  It starts
    from any state that a run of Storage.v ends in when no operation is under way.

    [None]: a wild pointer, an element that does not exist, a failing assertion, or
    a block put on the free list that is there already. *)
From S2P Require Import Prelude Mpmc BlockIndex Storage.

Definition add_block_to_free_list (b : ptr) (s : sub) : option sub :=
  if bool_decide (b ∈ pool s) then None else Some (set_pool (pool s ∪ {[b]}) s).

(** The block of the element at [index], when the loop comes to a new block. *)
Definition current_block (index : Z) (block : ptr) (s : sub) : option (ptr * sub) :=
  if (place index =? 0) || (block =? NULL) then
    s ← (if negb (block =? NULL) then add_block_to_free_list block s else Some s);
    id ← get_block_index_index_for_index index (blocks_index s);
    e ← entries (blocks_index s) !! id;
    b ← value e;
    Some (b, s)
  else Some (block, s).

(** The loop over the elements, with the elements destroyed. *)
Fixpoint destroy_elements (fuel : nat) (index tail : Z) (block : ptr) (s : sub) : option (list ptr * sub) :=
  if index =? tail then Some ([], s)
  else match fuel with
  | O => None
  | S fuel =>
      '(b, s) ← current_block index block s;
      blk ← blocks s !! b;
      el ← cells blk !! place index;
      let blk := {| cells := delete (place index) (cells blk); elementsCompletelyDequeued := elementsCompletelyDequeued blk |} in
      '(els, s) ← destroy_elements fuel (u64 (index + 1)) tail b (set_block b blk s);
      Some (el :: els, s)
  end.

(** The loop that frees the headers. *)
Fixpoint free_headers (fuel : nat) (localBlockIndex : nat) (x : block_index) : option (list nat) :=
  match fuel with
  | O => None
  | S fuel =>
      hd ← headers x !! localBlockIndex;
      match prev hd with
      | None => Some [localBlockIndex]
      | Some p => rest ← free_headers fuel p x; Some (localBlockIndex :: rest)
      end
  end.

(** The last block: there is one that is not on the free list, unless the head has
    reached its end. *)
Definition release_tail (forceFreeLastBlock : bool) (tail : Z) (s : sub) : option sub :=
  if negb (tailBlock s =? NULL) && (forceFreeLastBlock || negb (place tail =? 0)) then add_block_to_free_list (tailBlock s) s
  else Some s.

(** The entries that are destroyed and the headers that are freed. *)
Definition destroy_index (x : block_index) : option (list nat * list nat) :=
  match blockIndex x with
  | None => Some ([], [])
  | Some n =>
      hd ← headers x !! n;
      ids ← mapM (fun i => id ← BlockIndex.index hd !! i; _ ← entries x !! id; Some id) (seq 0 (Z.to_nat (capacity hd)));
      hs ← free_headers (S n) n x;
      Some (ids, hs)
  end.

(** What the destructor does away with: elements, entries, headers. *)
Record destroyed := { elements : list ptr; entry_ids : list nat; header_ids : list nat }.

Definition implicit_destroy (s : sub) : option (destroyed * sub) :=
  let tail := tailIndex (queue s) in
  let index := headIndex (queue s) in
  if negb ((index =? tail) || circular_less_than index tail) then None
  else
    let forceFreeLastBlock := negb (index =? tail) in
    '(els, s) ← destroy_elements (Z.to_nat (u64 (tail - index))) index tail NULL s;
    s ← release_tail forceFreeLastBlock tail s;
    '(ids, hs) ← destroy_index (blocks_index s);
    Some ({| elements := els; entry_ids := ids; header_ids := hs |}, s).

(** ** The loop

    The sub-queue is idle: the indices between head and tail have their elements,
    and every block is on the free list or in use. *)
Section loop.
Context (s0 : sub) (m live : gmap Z ptr) (frontier : Z) (n : nat) (hd : header) (g newest : Z) (exempt : option nat).
Context (I : SInv s0 m live frontier n hd g newest exempt).
Abbreviation h := (headIndex (queue s0)).
Abbreviation t := (tailIndex (queue s0)).
Context (Hrange : 0 <= h <= t /\ t < 2 ^ 63) (Hfrontier : t <= frontier < t + 32).
Context (Hplaces : forall b, inside b (pool s0) + lives b live = c_bool (bool_decide (is_Some (blocks s0 !! b)))).
Context (Hlow : forall base b, live !! base = Some b -> h < base + 32).

(** The blocks with a base below this one are on the free list when the loop is
    at [j]. *)
Definition passed (j : Z) : Z := if decide (j = h) then base_of h else base_of (j - 1).

Record Loop (j : Z) (block : ptr) (s : sub) : Prop := {
  lo_index : blocks_index s = blocks_index s0;
  lo_tail : tailBlock s = tailBlock s0;
  lo_block : if decide (j = h) then block = NULL else live !! base_of (j - 1) = Some block;
  lo_pool : forall b, b ∈ pool s <-> b ∈ pool s0 \/ exists base, live !! base = Some b /\ base < passed j;
  lo_content : forall i, j <= i -> content live (blocks s) i = m !! i;
  lo_dom : dom (blocks s) = dom (blocks s0);
  lo_free : forall b, b ∈ pool s0 -> blocks s !! b = blocks s0 !! b
}.

Lemma live_once base base' b : live !! base = Some b -> live !! base' = Some b -> base = base'.
Proof. apply (live_block _ _ _ _ _ _ _ _ _ _ _ _ I). Qed.

Lemma live_outside base b : live !! base = Some b -> b ∉ pool s0.
Proof.
  intros E. specialize (Hplaces b). pose proof (lives_same live _ _ E). pose proof (c_bool_range (bool_decide (is_Some (blocks s0 !! b)))).
  destruct (inside_cases b (pool s0)) as [[_ ?]|[? _]]; [lia|done].
Qed.

Lemma live_base base b : live !! base = Some b -> 0 <= base /\ base mod 32 = 0 /\ base < frontier /\ b <> NULL.
Proof.
  intros E. destruct (live_range _ _ _ _ _ _ _ (si_ring _ _ _ _ _ _ _ _ _ I) _ _ E) as (? & _ & ? & ?).
  destruct (si_frontier _ _ _ _ _ _ _ _ _ I) as (_ & _ & Hf). specialize (Hf _ _ E). lia.
Qed.

(** A block whose base is that of [lim] joins the free list. *)
Lemma add_live s lim base b :
  (forall b, b ∈ pool s <-> b ∈ pool s0 \/ exists base, live !! base = Some b /\ base < lim) ->
  live !! base = Some b -> lim <= base ->
  add_block_to_free_list b s = Some (set_pool (pool s ∪ {[b]}) s) /\
  forall lim', (forall base' b', live !! base' = Some b' -> (base' < lim' <-> base' < lim \/ base' = base)) ->
  forall b', b' ∈ pool s ∪ {[b]} <-> b' ∈ pool s0 \/ exists base, live !! base = Some b' /\ base < lim'.
Proof.
  intros Hp E Hl. split.
  - unfold add_block_to_free_list. rewrite bool_decide_eq_false_2; [done|]. intros [?|(base' & E' & ?)]%Hp; [by eapply live_outside|].
    pose proof (live_once _ _ _ E E'). lia.
  - intros lim' Hlim b'. rewrite elem_of_union, elem_of_singleton, Hp. split.
    + intros [[?|(base' & E' & ?)] | ->]; [by left| |].
      * right. exists base'. split; [done|]. apply (Hlim _ _ E'). by left.
      * right. exists base. split; [done|]. apply (Hlim _ _ E). by right.
    + intros [?|(base' & E' & Hb)]; [by left; left|]. apply (Hlim _ _ E') in Hb as [?|Hb].
      * left. right. by exists base'.
      * right. congruence.
Qed.

Lemma place_zero i : place i = 0 <-> i mod 32 = 0.
Proof. by rewrite place_eq. Qed.

(** At an element the loop holds its block. *)
Lemma current_block_spec j block s b :
  Loop j block s -> h <= j < t -> live !! base_of j = Some b ->
  exists s', current_block j block s = Some (b, s') /\ blocks_index s' = blocks_index s0 /\ tailBlock s' = tailBlock s0 /\
    blocks s' = blocks s /\ forall b, b ∈ pool s' <-> b ∈ pool s0 \/ exists base, live !! base = Some b /\ base < base_of j.
Proof.
  intros [L1 L2 L3 L4 L5 _ _] Hj Eb. unfold current_block, passed in *.
  assert (is_u64 j) as Hu by (unfold is_u64; change (2 ^ 63) with 9223372036854775808 in Hrange; lia).
  destruct (index_of_live _ _ _ _ _ _ _ _ _ (si_ring _ _ _ _ _ _ _ _ _ I) Hu Eb) as (id & Ei & Ee).
  destruct (decide (j = h)) as [Hjh|Hjh].
  - subst block. rewrite Z.eqb_refl, orb_true_r. simpl. rewrite L1, Ei. simpl. rewrite Ee. simpl. exists s. rewrite Hjh. done.
  - destruct (live_base _ _ L3) as (_ & _ & _ & Hn). rewrite (proj2 (Z.eqb_neq _ _) Hn), orb_false_r.
    destruct (base_of_spec (j - 1)) as [Hm1 Hr1]. destruct (base_of_spec j) as [Hm2 Hr2].
    destruct (Z.eqb_spec (place j) 0) as [Hp|Hp]; rewrite place_zero in Hp.
    + assert (base_of j = j /\ base_of (j - 1) = j - 32) as [Hb1 Hb2] by (unfold base_of in *; dlia).
      destruct (add_live s (base_of (j - 1)) (base_of (j - 1)) block L4 L3 ltac:(lia)) as [-> Hpool]. simpl. rewrite L1, Ei. simpl. rewrite Ee. simpl.
      eexists. split; [done|]. split; [done|]. split; [done|]. split; [done|]. apply Hpool. intros base' b' E'.
      destruct (live_base _ _ E') as (_ & Hm & _). rewrite Hb1, Hb2. dlia.
    + assert (base_of (j - 1) = base_of j) as Hb by (unfold base_of in *; dlia). rewrite Hb in *.
      assert (block = b) as -> by congruence. by exists s.
Qed.

Lemma destroy_elements_spec E :
  (forall j, h <= j < t -> m !! j = E !! Z.to_nat j) -> Z.to_nat t = length E ->
  forall fuel j block s, Loop j block s -> h <= j <= t -> Z.to_nat (t - j) = fuel ->
  exists block' s', destroy_elements fuel j t block s = Some (drop (Z.to_nat j) E, s') /\ Loop t block' s'.
Proof.
  intros HE Hlen fuel. induction fuel as [|fuel IH]; intros j block s L Hj Hf.
  - assert (j = t) as -> by lia. simpl. rewrite Z.eqb_refl, drop_ge by lia. by eexists _, _.
  - simpl. rewrite (proj2 (Z.eqb_neq j t)) by lia. destruct (lookup_lt_is_Some_2 E (Z.to_nat j)) as [x Ex]; [lia|].
    pose proof (lo_content _ _ _ L j ltac:(lia)) as Hc. rewrite HE, Ex in Hc by lia. unfold content in Hc. rewrite decide_True in Hc by lia.
    destruct (live !! base_of j) as [b|] eqn:Eb; [|done]. simpl in Hc. destruct (blocks s !! b) as [blk|] eqn:Ek; [|done]. simpl in Hc.
    destruct (current_block_spec _ _ _ _ L ltac:(lia) Eb) as (s' & -> & L1 & L2 & L3 & L4). simpl. rewrite L3, Ek. simpl.
    rewrite place_eq, Hc. simpl. rewrite u64_small by (unfold is_u64; change (2 ^ 63) with 9223372036854775808 in Hrange; lia).
    edestruct (IH (j + 1) b) as (block' & s1 & Hd & HL); [|lia|lia|rewrite Hd; simpl; exists block', s1; split; [|done]].
    + constructor; simpl; try done.
      * rewrite decide_False by lia. by replace (j + 1 - 1) with j by lia.
      * unfold passed. rewrite decide_False by lia. by replace (j + 1 - 1) with j by lia.
      * intros i Hi. rewrite <- (lo_content _ _ _ L i) by lia. unfold content. destruct (decide (0 <= i)); [|done].
        destruct (live !! base_of i) as [b'|] eqn:Eb'; [|done]. simpl. rewrite L3. destruct (decide (b' = b)) as [->|Hb].
        -- rewrite lookup_insert_eq, Ek. simpl. apply lookup_delete_ne. pose proof (live_once _ _ _ Eb Eb') as Hbase. unfold base_of in Hbase. lia.
        -- by rewrite lookup_insert_ne.
      * rewrite L3, dom_insert_L, <- (lo_dom _ _ _ L). apply elem_of_dom_2 in Ek. set_solver.
      * intros b' Hb'. rewrite L3, lookup_insert_ne by (intros <-; by eapply live_outside). by apply (lo_free _ _ _ L).
    + rewrite (drop_S E x (Z.to_nat j)) by done. by replace (S (Z.to_nat j)) with (Z.to_nat (j + 1)) by lia.
Qed.
End loop.

(** ** The block index *)
Lemma free_headers_spec x n :
  length (headers x) = S n -> (forall k h, headers x !! k = Some h -> prev h = match k with O => None | S k => Some k end) ->
  forall k fuel, (k <= n)%nat -> (k < fuel)%nat -> free_headers fuel k x = Some (rev (seq 0 (S k))).
Proof.
  intros Hl Hc k. induction k as [|k IH]; intros [|fuel] Hk Hf; try lia; cbn [free_headers].
  - destruct (lookup_lt_is_Some_2 (headers x) 0) as [hd E]; [lia|]. rewrite E. simpl. by rewrite (Hc _ _ E).
  - destruct (lookup_lt_is_Some_2 (headers x) (S k)) as [hd E]; [lia|]. rewrite E. cbn [mbind option_bind]. rewrite (Hc _ _ E), IH by lia.
    cbn [mbind option_bind]. rewrite (seq_S (S k) 0). by rewrite rev_app_distr.
Qed.

Lemma ids_spec (l : list nat) (x : block_index) :
  (forall id, id ∈ l -> is_Some (entries x !! id)) ->
  forall p, mapM (fun i => id ← (p ++ l) !! i; _ ← entries x !! id; Some id) (seq (length p) (length l)) = Some l.
Proof.
  induction l as [|id l IH]; intros Hd p; [done|]. simpl. rewrite lookup_app_r, Nat.sub_diag by lia. simpl.
  destruct (Hd id) as [e Ee]; [by left|]. rewrite Ee. simpl.
  specialize (IH ltac:(intros; apply Hd; by right) (p ++ [id])). rewrite <- app_assoc, length_app, Nat.add_1_r in IH. simpl in IH. by rewrite IH.
Qed.

Lemma destroy_index_spec x n hd g newest live exempt :
  Ring x n hd g newest live exempt -> destroy_index x = Some (index hd, rev (seq 0 (S n))).
Proof.
  intros R. destruct (ri_chain _ _ _ _ _ _ _ R) as [Hlen Hch].
  pose proof (ids_spec (index hd) x (fun id Hid => proj1 (ri_ids _ _ _ _ _ _ _ R id) Hid) []) as Hids. simpl in Hids.
  unfold destroy_index. rewrite (ri_current _ _ _ _ _ _ _ R), (ri_header _ _ _ _ _ _ _ R). cbn [mbind option_bind].
  rewrite (ri_capacity _ _ _ _ _ _ _ R), <- (ri_length _ _ _ _ _ _ _ R), Nat2Z.id, Hids. cbn [mbind option_bind].
  by rewrite (free_headers_spec _ _ Hlen Hch) by lia.
Qed.

(** ** The destructor *)

(** The last block goes on the free list unless the tail is about to start a new
    one in an empty sub-queue. *)
Lemma release_last s m live frontier n hd g newest exempt block s1 :
  SInv s m live frontier n hd g newest exempt -> sub_idle s -> 0 <= headIndex (queue s) <= tailIndex (queue s) ->
  Loop s m live (tailIndex (queue s)) block s1 ->
  exists s2, release_tail (negb (headIndex (queue s) =? tailIndex (queue s))) (tailIndex (queue s)) s1 = Some s2 /\
    blocks_index s2 = blocks_index s /\ blocks s2 = blocks s1 /\
    forall b, b ∈ pool s2 <-> b ∈ pool s \/ exists base, live !! base = Some b.
Proof.
  intros I Hidle Hh [L1 L2 L3 L4 _ _ _]. destruct (SInv_idle _ _ _ _ _ _ _ _ _ I Hidle) as (Hf & Hpl & Hlow).
  destruct (si_frontier _ _ _ _ _ _ _ _ _ I) as (Hf0 & Hfm & _). unfold release_tail. rewrite L2. unfold passed in L4.
  assert (forall base b, live !! base = Some b -> (0 <= base /\ base mod 32 = 0 /\ base < frontier /\ b <> NULL) /\ headIndex (queue s) < base + 32)
    as Hlive by (intros base b E; split; [by eapply live_base|by eapply Hlow]).
  set (t := tailIndex (queue s)) in *. set (h := headIndex (queue s)) in *.
  destruct (base_of_spec h) as [Hbm Hbr]. destruct (base_of_spec (t - 1)) as [Hbm' Hbr'].
  destruct (decide (t = h /\ t mod 32 = 0)) as [[Heq Hmod]|Hn].
  - rewrite Heq, Z.eqb_refl. assert (place h =? 0 = true) as -> by (rewrite place_eq, <- Heq, Hmod; done).
    rewrite andb_false_r. exists s1. split; [done|]. split; [done|]. split; [done|]. intros b. rewrite L4, decide_True by done.
    assert (forall base b, live !! base = Some b -> False) as Hno.
    { intros base b' E. destruct (Hlive _ _ E) as [(? & ? & ? & ?) ?]. dlia. }
    split; [|by intros [?|[? []%Hno]]; left]. intros [?|(base & []%Hno & _)]. by left.
  - assert (h < frontier) as Hhf by (destruct (decide (t = h)); dlia).
    pose proof (tail_live _ _ _ _ _ _ _ _ _ I Hh Hhf) as El. destruct (Hlive _ _ El) as [(_ & _ & _ & Hnn) _].
    rewrite (proj2 (Z.eqb_neq _ _) Hnn). assert (negb (h =? t) || negb (place t =? 0) = true) as ->.
    { apply orb_true_iff. rewrite !negb_true_iff, !Z.eqb_neq, place_eq. lia. }
    destruct (add_live s m live frontier n hd g newest exempt I Hpl s1 (if decide (t = h) then base_of h else base_of (t - 1)) (frontier - 32) (tailBlock s))
      as [Hadd Hpool]; [exact L4|exact El|destruct (decide (t = h)); unfold base_of; dlia|].
    simpl. rewrite Hadd. eexists. split; [done|]. split; [done|]. split; [done|]. intros b. rewrite (Hpool frontier).
    + split; intros [?|Hb]; [by left| |by left|]; right.
      * destruct Hb as (base & E & _). by exists base.
      * destruct Hb as (base & E). exists base. split; [done|]. by destruct (Hlive _ _ E) as [(_ & _ & ? & _) _].
    + intros base b' E. destruct (Hlive _ _ E) as [(? & ? & ? & ?) ?]. destruct (decide (t = h)); unfold base_of; dlia.
Qed.

Lemma sub_pool_given given c es s rs m live frontier n hd g newest exempt :
  sub_run es (sub_initial given c) = Some (s, rs) -> SInv s m live frontier n hd g newest exempt -> sub_idle s ->
  forall b, b ∈ world es given <-> b ∈ pool s \/ exists base, live !! base = Some b.
Proof.
  intros Hr I Hidle b. destruct (SInv_idle _ _ _ _ _ _ _ _ _ I Hidle) as (_ & Hpl & _). specialize (Hpl b).
  pose proof (sub_run_blocks _ _ _ _ Hr) as Hd. simpl in Hd. rewrite dom_gset_to_gmap in Hd. rewrite <- Hd, elem_of_dom.
  pose proof (lives_nonneg b live). destruct (inside_cases b (pool s)) as [[Hb Hi]|[Hb Hi]]; rewrite Hi in Hpl.
  - destruct (bool_decide_reflect (is_Some (blocks s !! b))); simpl in Hpl; [|lia]. split; [by left|done].
  - split.
    + intros Hs. rewrite bool_decide_eq_true_2 in Hpl by done. simpl in Hpl. right. apply lives_in. lia.
    + intros [?|(base & E)]; [done|]. destruct (si_counts _ _ _ _ _ _ _ _ _ I _ _ E) as (blk & Eb & _). by eexists.
Qed.

(** The destructor of a sub-queue succeeds after every run that leaves no
    operation under way.  It follows no wild pointer and destroys no element that
    does not exist; every element ever enqueued has then been dequeued or
    destroyed, once; every block is on the free list, where it is put once; every
    entry of the block index is destroyed once and every header freed once, newest
    first; and blocks that were free before are left alone. *)
Lemma implicit_destroy_correct given c es s rs :
  NULL ∉ given -> Z.of_nat (length es) + 33 < 2 ^ 63 ->
  sub_run es (sub_initial given c) = Some (s, rs) -> sub_idle s ->
  exists d s', implicit_destroy s = Some (d, s') /\
    elements d = drop (Z.to_nat (headIndex (queue s))) (enqueued rs) /\
    (dequeued rs).*2 ++ elements d ≡ₚ enqueued rs /\
    pool s' = world es given /\
    entry_ids d ≡ₚ seq 0 (length (entries (blocks_index s))) /\
    header_ids d = rev (seq 0 (length (headers (blocks_index s)))) /\
    dom (blocks s') = dom (blocks s) /\ forall b, b ∈ pool s -> blocks s' !! b = blocks s !! b.
Proof.
  intros Hn Hk Hr Hidle. destruct (sim_start _ _ _ _ _ Hn Hk Hr) as (es' & m & Hle & Hrun & SI & HI).
  destruct (inv_initial c) as [HI0 HA0]. destruct (mpmc_inv_run es' _ _ _ _ _ 0 ltac:(lia) HI0 HA0 Hrun) as (_ & HA & _ & Hd). simpl in HA, Hd.
  destruct (Inv_state_facts _ _ _ _ HI ltac:(lia)) as ((Hh & Ht & _) & _ & _ & _ & HE & HT).
  unfold accounted in HA. change (taking (consumers (queue s))) with (taking (consumers (with_elements m (queue s)))) in HA.
  rewrite (idle_taking (with_elements m (queue s)) (proj1 (proj2 Hidle))), app_nil_r in HA.
  change (headIndex (with_elements m (queue s))) with (headIndex (queue s)) in HA.
  destruct SI as (live & frontier & n & hd & g & newest & exempt & I). pose proof (si_ring _ _ _ _ _ _ _ _ _ I) as R.
  destruct (SInv_idle _ _ _ _ _ _ _ _ _ I Hidle) as (Hf & Hpl & Hlow). set (h := headIndex (queue s)) in *. set (t := tailIndex (queue s)) in *.
  destruct (destroy_elements_spec s m live frontier n hd g newest exempt I ltac:(change (2 ^ 63) with 9223372036854775808 in *; lia) Hf Hpl Hlow (enqueued rs) HE ltac:(lia)
    (Z.to_nat (t - h)) h NULL s) as (block & s1 & Hdes & L1); [|lia|lia|].
  { constructor; try done; unfold passed; try rewrite decide_True by done; try done; [|by intros i _; rewrite (si_cells _ _ _ _ _ _ _ _ _ I)].
    intros b. split; [by left|]. intros [?|(base & E & Hb)]; [done|]. specialize (Hlow _ _ E).
    destruct (live_base _ _ _ _ _ _ _ _ _ I _ _ E) as (_ & Hm & _). unfold base_of in Hb. dlia. }
  destruct (release_last _ _ _ _ _ _ _ _ _ _ _ I Hidle Hh L1) as (s2 & Hlast & Hx2 & Hb2 & Hp2). fold h t in Hlast.
  destruct (ri_chain _ _ _ _ _ _ _ R) as [Hlen _].
  exists {| elements := drop (Z.to_nat h) (enqueued rs); entry_ids := index hd; header_ids := rev (seq 0 (S n)) |}, s2. split.
  { unfold implicit_destroy. fold h t. assert ((h =? t) || circular_less_than h t = true) as ->.
    { apply orb_true_iff. rewrite circular_less_than_small, Z.ltb_lt, Z.eqb_eq by lia. lia. }
    cbn [negb mbind option_bind]. rewrite u64_small by (unfold is_u64; change (2 ^ 63) with 9223372036854775808 in *; lia). fold t in Hdes. rewrite Hdes. cbn [negb mbind option_bind]. rewrite Hlast. cbn [mbind option_bind].
    rewrite Hx2, (destroy_index_spec _ _ _ _ _ _ _ R). cbn [mbind option_bind]. done. }
  simpl elements. simpl entry_ids. simpl header_ids. split; [done|]. split; [|split; [|split; [|split; [|split]]]].
  - rewrite (dequeued_prefix _ _ _ Hd HA) by lia. by rewrite take_drop.
  - apply set_eq. intros b. by rewrite Hp2, (sub_pool_given _ _ _ _ _ _ _ _ _ _ _ _ _ Hr I Hidle).
  - apply NoDup_Permutation; [apply R|apply NoDup_seq|]. intros id. rewrite (ri_ids _ _ _ _ _ _ _ R), elem_of_seq, lookup_lt_is_Some. lia.
  - by rewrite Hlen.
  - rewrite Hb2. apply (lo_dom _ _ _ _ _ _ L1).
  - rewrite Hb2. apply (lo_free _ _ _ _ _ _ L1).
Qed.
