(* ===== verification/SubQueues.v ===== *)
(** * The sub-queues together (src/lib/concurrentqueue/concurrentqueue.h)

    Storage.v and Destroy.v have one sub-queue among others of which it sees what
    they do to the free list.  Here are all of them: one memory with the blocks,
    one free list, any number of sub-queues, which appear as threads start to
    enqueue.  A step of this machine is a step of Storage.v on the memory of all.

    Every sub-queue has a view: a run of Storage.v in which the steps of the others
    are [STake] and [SGive].  The theorems of Storage.v, Mpmc.v and Destroy.v hold
    for the views and so for the whole.

    A block that comes from the pool of initial blocks or from the heap is new
    ([MFresh]); where these come from is in BlockPool.v. *)
From S2P Require Import Prelude Mpmc BlockIndex Storage Destroy.

Record shared := { common : gmap ptr block; free : gset ptr; subs : list sub }.

Definition no_subs : shared := {| common := ∅; free := ∅; subs := [] |}.

(** A sub-queue in the memory of all. *)
Definition inside_of (bs : gmap ptr block) (fr : gset ptr) (p : sub) : sub := set_pool fr (set_blocks bs p).

Inductive shared_event :=
| MStep (i : nat) (e : sub_event)
| MFresh (b : ptr)
| MProducer (consumers : nat).

Definition own (e : sub_event) : bool := match e with STake _ | SGive _ _ => false | _ => true end.

Definition shared_next (e : shared_event) (s : shared) : option (shared * option (nat * result)) :=
  match e with
  | MStep i e =>
      p ← subs s !! i;
      if own e then
        '(p, r) ← sub_next e (inside_of (common s) (free s) p);
        Some ({| common := blocks p; free := pool p; subs := <[i := p]> (subs s) |}, option_map (pair i) r)
      else None
  | MFresh b =>
      if bool_decide (b = NULL) || bool_decide (is_Some (common s !! b)) then None
      else Some ({| common := <[b := new_block]> (common s); free := free s ∪ {[b]}; subs := subs s |}, None)
  | MProducer c => Some ({| common := common s; free := free s; subs := subs s ++ [sub_initial ∅ c] |}, None)
  end.

Fixpoint shared_run (es : list shared_event) (s : shared) : option (shared * list (nat * result)) :=
  match es with
  | [] => Some (s, [])
  | e :: es =>
      '(s1, r) ← shared_next e s;
      '(s2, rs) ← shared_run es s1;
      Some (s2, option_list r ++ rs)
  end.

Definition results_of (i : nat) (rs : list (nat * result)) : list result :=
  omap (fun '(j, r) => if bool_decide (j = i) then Some r else None) rs.

(** ** Blocks of others make no difference *)
Definition framed (bs : gmap ptr block) (v : sub) : sub := set_blocks (blocks v ∪ bs) v.

Lemma framed_lookup bs v b blk : blocks v !! b = Some blk -> blocks (framed bs v) !! b = Some blk.
Proof. simpl. apply lookup_union_Some_l. Qed.

(** The steps look blocks up and write them back; what they find is not changed by
    other blocks. *)
Ltac framed_steps :=
  repeat first [progress simplify_option_eq|case_match]; try done;
  try match goal with E : ?bl !! ?b = Some ?blk |- context [(?bl ∪ ?bs) !! ?b] => rewrite (lookup_union_Some_l bl bs b blk E); simpl end;
  repeat first [progress simplify_option_eq|case_match; try congruence]; unfold framed, set_block; simpl; by rewrite ?insert_union_l.

Lemma qstep_framed bs memory got v v' r :
  qstep memory got v = Some (v', r) -> qstep memory got (framed bs v) = Some (framed bs v', r).
Proof.
  unfold qstep, refuse. intros Hs. destruct v as [q x bl tb p st lk]. unfold framed at 1. simpl in *.
  destruct (producer q), st; try done; framed_steps.
Qed.

Lemma lstep_framed bs i v v' r : lstep i v = Some (v', r) -> lstep i (framed bs v) = Some (framed bs v', r).
Proof.
  unfold lstep. intros Hs. destruct v as [q x bl tb p st lk]. unfold framed at 1. simpl in *.
  destruct (consumers q !! i) as [c|]; [|done]. destruct (lk !! i) as [l|]; [|done]. simpl in *.
  destruct l, c; try done; framed_steps.
Qed.

Lemma sub_next_framed bs e v v' r :
  own e = true -> sub_next e v = Some (v', r) -> sub_next e (framed bs v) = Some (framed bs v', r).
Proof.
  intros Ho Hs. destruct e; try done; unfold sub_next in Hs |- *; [|by apply qstep_framed| |by apply lstep_framed];
    destruct v as [q x bl tb p st lk]; unfold framed at 1; simpl in *; framed_steps.
Qed.

(** ** What a step does to the free list

    It changes no block that is there; it takes one, or puts a block there that
    has no elements. *)
Inductive on_pool (s s' : sub) : Prop :=
| op_none : pool s' = pool s -> blocks s' = blocks s -> on_pool s s'
| op_private b : b ∉ pool s -> pool s' = pool s -> (forall b', b' <> b -> blocks s' !! b' = blocks s !! b') -> on_pool s s'
| op_take b : b ∈ pool s -> pool s' = pool s ∖ {[b]} -> blocks s' = blocks s -> on_pool s s'
| op_give b blk : b ∉ pool s -> pool s' = pool s ∪ {[b]} -> blocks s' = blocks s -> blocks s !! b = Some blk -> vacant blk = true ->
    on_pool s s'.

Lemma op_set s s' b blk : b ∉ pool s -> pool s' = pool s -> blocks s' = <[b := blk]> (blocks s) -> on_pool s s'.
Proof. intros Hb Hp He. apply (op_private s s' b); [done|done|]. intros b' Hn. by rewrite He, lookup_insert_ne. Qed.

Lemma live_not_free s m live frontier n hd g newest exempt base b :
  SInv s m live frontier n hd g newest exempt -> live !! base = Some b -> b ∉ pool s.
Proof.
  intros I E. pose proof (places_range _ _ _ _ _ _ _ _ _ b I) as Hp. pose proof (lives_same live _ _ E).
  destruct (inside_cases b (pool s)) as [[_ ?]|[? _]]; [lia|done].
Qed.

Lemma qstep_on_pool s m live frontier n hd g newest exempt k memory got s' r :
  SInv s m live frontier n hd g newest exempt -> in_range s k -> head_ok s -> qstep memory got s = Some (s', r) -> on_pool s s'.
Proof.
  intros I Hr Hok Hs. pose proof (si_producer _ _ _ _ _ _ _ _ _ I) as Hst. unfold qstep, refuse in Hs. unfold head_ok in Hok.
  destruct (producer (queue s)) as [|x t|x t|x t] eqn:Ep; [done|..]; destruct (starting s) as [|ca|ca| | |nt id|nt id|id|id|id|id b|id b] eqn:Eq;
    try done; simpl in Hst; repeat first [progress simplify_option_eq|case_match]; try (by apply op_none); try (by eapply op_take).
  - destruct (held_not_live _ _ _ _ _ _ _ _ _ I b) as (_ & _ & Hb); [rewrite Eq; apply same_refl|].
    eapply (op_set _ _ b); [|done|done]. pose proof (places_range _ _ _ _ _ _ _ _ _ b I) as Hp. rewrite Eq in Hp. simpl in Hp. rewrite same_refl in Hp.
    destruct (inside_cases b (pool s)) as [[_ ?]|[? _]]; [lia|done].
  - destruct Hst as (_ & _ & Hf). destruct Hr as (Hh & _ & _).
    eapply (op_set _ _ (tailBlock s)); [|done|done]. eapply live_not_free; [exact I|]. eapply tail_live; [exact I|done|lia].
Qed.

Lemma lstep_on_pool s m live frontier n hd g newest exempt i s' r :
  SInv s m live frontier n hd g newest exempt -> lstep i s = Some (s', r) -> on_pool s s'.
Proof.
  intros I Hs. unfold lstep in Hs. destruct (consumers (queue s) !! i) as [c|] eqn:Ec; [|done].
  destruct (lookups s !! i) as [l|] eqn:El; [|done]. simpl in Hs. pose proof (si_lookups _ _ _ _ _ _ _ _ _ I _ _ _ Ec El) as Hsee.
  destruct l as [| |n'|n' p|n' p tb|id|id b|idx id b|idx id b|b].
  - destruct c; try done; repeat first [progress simplify_option_eq|case_match]; by apply op_none.
  - destruct c; try done; repeat first [progress simplify_option_eq|case_match]; by apply op_none.
  - destruct c; try done; repeat first [progress simplify_option_eq|case_match]; by apply op_none.
  - destruct c; try done; repeat first [progress simplify_option_eq|case_match]; by apply op_none.
  - destruct c; try done; repeat first [progress simplify_option_eq|case_match]; by apply op_none.
  - destruct c; try done; repeat first [progress simplify_option_eq|case_match]; by apply op_none.
  - destruct Hsee as (idx & -> & E & _). simplify_option_eq. eapply (op_set _ _ b); [|done|done]. by eapply live_not_free.
  - destruct Hsee as (-> & E & _). repeat first [progress simplify_option_eq|case_match]; (eapply (op_set _ _ b); [|done|done]); by eapply live_not_free.
  - destruct c; try done; repeat first [progress simplify_option_eq|case_match]; by apply op_none.
  - assert (s' = look i LNone (set_pool (pool s ∪ {[b]}) s)) as -> by (destruct c; by simplify_option_eq).
    pose proof (places_range _ _ _ _ _ _ _ _ _ b I) as Hp. destruct (at_nonneg 0 b) as (_ & _ & _ & Hf & _).
    pose proof (sum_le _ _ _ _ Hf El) as Hl. simpl in Hl. rewrite same_refl in Hl.
    assert (b ∉ pool s) as Hb by (destruct (inside_cases b (pool s)) as [[_ ?]|[? _]]; [lia|done]).
    pose proof (si_places _ _ _ _ _ _ _ _ _ I b) as Hpl. destruct (bool_decide_reflect (is_Some (blocks s !! b))) as [[blk Eb]|]; simpl in Hpl; [|lia].
    eapply (op_give _ _ b blk); try done. unfold vacant. apply forallb_forall. intros off Ho%list_elem_of_In%elem_of_seqZ.
    apply bool_decide_eq_true_2. apply (si_fresh _ _ _ _ _ _ _ _ _ I b blk off Eb); unfold BLOCK_SIZE in *; lia.
Qed.

Lemma sub_next_on_pool s m E k e s' r :
  SI s m -> Inv_state (with_elements m (queue s)) E k -> k + 33 < 2 ^ 63 -> own e = true -> sub_next e s = Some (s', r) -> on_pool s s'.
Proof.
  intros I HI Hk Ho Hs. destruct (Inv_state_facts _ _ _ _ HI Hk) as (Hr & Hok & _).
  destruct I as (live & frontier & n & hd & g & newest & exempt & I). destruct e; try done; simpl in Hs.
  - repeat first [progress simplify_option_eq|case_match]; by apply op_none.
  - by eapply qstep_on_pool.
  - repeat first [progress simplify_option_eq|case_match]; by apply op_none.
  - by eapply lstep_on_pool.
Qed.

(** ** The view of a sub-queue

    [X]: the blocks that belong to the sub-queue alone; [k]: the number of steps
    so far. *)
Definition View (bs : gmap ptr block) (fr : gset ptr) (k : nat) (rs : list result) (p : sub) (X : gset ptr) : Prop :=
  exists c es v, sub_run es (sub_initial ∅ c) = Some (v, rs) /\ (length es <= k)%nat /\
    inside_of bs fr p = inside_of bs fr v /\ pool v = fr /\ dom (blocks v) = X ∪ fr /\ blocks v ⊆ bs.

Lemma sub_run_app es1 : forall s s1 rs1 es2 s2 rs2,
  sub_run es1 s = Some (s1, rs1) -> sub_run es2 s1 = Some (s2, rs2) -> sub_run (es1 ++ es2) s = Some (s2, rs1 ++ rs2).
Proof.
  induction es1 as [|e es1 IH]; intros s s1 rs1 es2 s2 rs2 Hr1 Hr2; simpl in Hr1.
  - injection Hr1 as -> <-. done.
  - destruct (sub_next e s) as [[s' r]|] eqn:En; [|done]. simpl in Hr1.
    destruct (sub_run es1 s') as [[s'' rs]|] eqn:Er; [|done]. injection Hr1 as <- <-.
    simpl. rewrite En. simpl. rewrite (IH _ _ _ _ _ _ Er Hr2). simpl. by rewrite app_assoc.
Qed.

Lemma inside_of_eq bs fr p bs' fr' v : inside_of bs fr p = inside_of bs fr v -> inside_of bs' fr' p = inside_of bs' fr' v.
Proof. unfold inside_of, set_pool, set_blocks. simpl. by intros [= -> -> -> -> ->]. Qed.

Definition agree (X : gset ptr) (bs bs' : gmap ptr block) : Prop := forall b, b ∈ X -> bs' !! b = bs !! b.

Lemma agree_subseteq (bl bs bs' : gmap ptr block) X : dom bl = X -> agree X bs bs' -> bl ⊆ bs -> bl ⊆ bs'.
Proof.
  intros Hd Ha Hs. apply map_subseteq_spec. intros b blk E. rewrite Ha; [by eapply lookup_weaken|].
  rewrite <- Hd. by eapply elem_of_dom_2.
Qed.

(** The others do not notice a step on blocks they do not have. *)
Lemma View_keep bs fr bs' k rs p X : View bs fr k rs p X -> agree (X ∪ fr) bs bs' -> View bs' fr (S k) rs p X.
Proof.
  intros (c & es & v & Hr & Hl & Hc & Hp & Hd & Hs) Ha. exists c, es, v. split; [done|]. split; [lia|].
  split; [by eapply inside_of_eq|]. split; [done|]. split; [done|]. by eapply agree_subseteq.
Qed.

Lemma View_take bs fr k rs p X b : View bs fr k rs p X -> b ∈ fr -> b ∉ X -> View bs (fr ∖ {[b]}) (S k) rs p X.
Proof.
  intros (c & es & v & Hr & Hl & Hc & Hp & Hd & Hs) Hb HX.
  exists c, (es ++ [STake b]), (set_pool (pool v ∖ {[b]}) (set_blocks (delete b (blocks v)) v)). split; [|split; [|split; [|split; [|split]]]].
  - rewrite <- (app_nil_r rs). eapply sub_run_app; [exact Hr|]. simpl. rewrite Hp. by rewrite bool_decide_eq_true_2.
  - rewrite length_app. simpl. lia.
  - exact (inside_of_eq _ _ _ _ _ _ Hc).
  - simpl. by rewrite Hp.
  - simpl. rewrite dom_delete_L, Hd. set_solver.
  - simpl. etrans; [apply delete_subseteq|done].
Qed.

Lemma View_give bs fr bs' k rs p X b blk :
  View bs fr k rs p X -> agree (X ∪ fr) bs bs' -> b ∉ X ∪ fr -> b <> NULL -> bs' !! b = Some blk -> vacant blk = true ->
  View bs' (fr ∪ {[b]}) (S k) rs p X.
Proof.
  intros (c & es & v & Hr & Hl & Hc & Hp & Hd & Hs) Ha HX Hn Hb Hv.
  exists c, (es ++ [SGive b blk]), (set_pool (pool v ∪ {[b]}) (set_block b blk v)). split; [|split; [|split; [|split; [|split]]]].
  - rewrite <- (app_nil_r rs). eapply sub_run_app; [exact Hr|]. simpl. rewrite (bool_decide_eq_false_2 (b = NULL)) by done.
    rewrite bool_decide_eq_false_2 by (intros Hb'%elem_of_dom; rewrite Hd in Hb'; done). by rewrite Hv.
  - rewrite length_app. simpl. lia.
  - exact (inside_of_eq _ _ _ _ _ _ Hc).
  - simpl. by rewrite Hp.
  - simpl. rewrite dom_insert_L, Hd. set_solver.
  - simpl. apply insert_subseteq_l; [done|]. by eapply agree_subseteq.
Qed.

(** *** The sub-queue that moves *)
Lemma inside_framed bs fr p v : inside_of bs fr p = inside_of bs fr v -> pool v = fr -> blocks v ⊆ bs -> inside_of bs fr p = framed bs v.
Proof.
  intros -> <- Hs. unfold inside_of, framed, set_pool, set_blocks. simpl. by rewrite (map_subseteq_union (blocks v) bs).
Qed.

(** In the memory of all a thread can do no more than its view allows. *)
Lemma sub_next_view bs e v p' r m E k :
  SI v m -> Inv_state (with_elements m (queue v)) E k -> k + 33 < 2 ^ 63 -> own e = true ->
  sub_next e (framed bs v) = Some (p', r) -> exists v', sub_next e v = Some (v', r) /\ p' = framed bs v'.
Proof.
  intros I HI Hk Ho Hs. assert (is_Some (sub_next e v)) as [[v' r'] Hv].
  { destruct (Inv_state_facts _ _ _ _ HI Hk) as (Hr & Hok & _). destruct e as [x ca|memory got|i|i|b|b blk]; try done; simpl in Hs |- *.
    - destruct (producer (queue v)); done.
    - assert (producer (queue v) <> PIdle) as Hp by (intros Hp; unfold qstep in Hs; simpl in Hs; by rewrite Hp in Hs).
      destruct I as (live & frontier & n & hd & g & newest & exempt & I). destruct got as [b|].
      + destruct (starting v) eqn:Eq; try (rewrite qstep_got by (by rewrite Eq); by eapply qstep_safe).
        eapply qstep_safe; try done. intros b' [= <-]. unfold qstep in Hs. simpl in Hs. rewrite Eq in Hs.
        destruct (producer (queue v)); try done. by destruct (bool_decide_reflect (b ∈ pool v)).
      + by eapply qstep_safe.
    - destruct (lookups v !! i) as [[]|]; try done. destruct (consumers (queue v) !! i) as [[]|]; done.
    - destruct (consumers (queue v) !! i) as [c|] eqn:Ec; [|by unfold lstep in Hs; simpl in Hs; rewrite Ec in Hs].
      destruct (lookups v !! i) as [l|] eqn:El; [|by unfold lstep in Hs; simpl in Hs; rewrite Ec, El in Hs].
      eapply lstep_safe; try done. intros [-> ->]. unfold lstep, cstep in Hs. simpl in Hs. by rewrite Ec, El in Hs. }
  rewrite (sub_next_framed bs e v v' r' Ho Hv) in Hs. injection Hs as <- <-. by exists v'.
Qed.

Definition step_blocks (X fr X' fr' : gset ptr) (bs bs' : gmap ptr block) : Prop :=
  (fr' = fr /\ X' = X /\ agree fr bs bs') \/
  (exists b, b ∈ fr /\ fr' = fr ∖ {[b]} /\ X' = X ∪ {[b]} /\ bs' = bs) \/
  (exists b blk, b ∈ X /\ fr' = fr ∪ {[b]} /\ X' = X ∖ {[b]} /\ bs' = bs /\ bs !! b = Some blk /\ vacant blk = true).

Lemma View_step bs fr k rs p X e p' r :
  View bs fr k rs p X -> X ## fr -> Z.of_nat k + 33 < 2 ^ 63 -> own e = true -> sub_next e (inside_of bs fr p) = Some (p', r) ->
  exists X', View (blocks p') (pool p') (S k) (rs ++ option_list r) p' X' /\ step_blocks X fr X' (pool p') bs (blocks p') /\
    (forall b, b ∉ X -> blocks p' !! b = bs !! b).
Proof.
  intros (c & es & v & Hr & Hl & Hc & Hp & Hd & Hs) HX Hk Ho Hn. rewrite (inside_framed _ _ _ _ Hc Hp Hs) in Hn.
  destruct (sim_start ∅ c es v rs (not_elem_of_empty _) ltac:(lia) Hr) as (es' & m & Hl' & _ & I & HI).
  assert (Z.of_nat (length es') + 33 < 2 ^ 63) as Hk' by lia.
  destruct (sub_next_view _ _ _ _ _ _ _ _ I HI Hk' Ho Hn) as (v' & Hv & ->). pose proof (sub_next_on_pool _ _ _ _ _ _ _ I HI Hk' Ho Hv) as Hop.
  pose proof (sub_next_blocks _ _ _ _ Hv) as Hd'. assert (dom (blocks v') = X ∪ fr) as Hdv by (destruct e; try done; by rewrite Hd', Hd). clear Hd'.
  simpl blocks. simpl pool.
  assert (forall X', X' ∪ pool v' = X ∪ fr -> View (blocks v' ∪ bs) (pool v') (S k) (rs ++ option_list r) (framed bs v') X') as HV.
  { intros X' HX'. exists c, (es ++ [e]), v'. split; [|split; [|split; [|split; [|split]]]].
    - eapply sub_run_app; [exact Hr|]. simpl. rewrite Hv. simpl. by rewrite app_nil_r.
    - rewrite length_app. simpl. lia.
    - done.
    - done.
    - by rewrite Hdv, HX'.
    - apply map_union_subseteq_l. }
  assert (blocks v' = blocks v -> blocks v' ∪ bs = bs) as Hsame by (intros ->; by apply map_subseteq_union).
  subst fr. destruct Hop as [Ep Eb|b Hb Ep Eb|b Hb Ep Eb|b blk Hb Ep Eb Ek Hv'].
  - exists X. split; [apply HV; by rewrite Ep|]. rewrite Hsame by done. split; [by left; split|done].
  - assert (forall b', b' <> b -> (blocks v' ∪ bs) !! b' = bs !! b') as Hne.
    { intros b' Hb'. destruct (blocks v !! b') as [blk'|] eqn:E'.
      - rewrite (lookup_union_Some_l _ _ _ blk') by (by rewrite Eb). symmetry. by eapply lookup_weaken.
      - rewrite lookup_union_r; [done|]. by rewrite Eb. }
    destruct (decide (b ∈ X)) as [HbX|HbX].
    + exists X. split; [apply HV; by rewrite Ep|]. split.
      * left. split; [done|]. split; [done|]. intros b' Hb'. apply Hne. by intros ->.
      * intros b' Hb'. apply Hne. by intros ->.
    + assert (blocks v' ∪ bs = bs) as Hall.
      { apply map_eq. intros b'. destruct (decide (b' = b)) as [->|Hb']; [|by apply Hne]. apply lookup_union_r.
        apply not_elem_of_dom. rewrite Hdv. set_solver. }
      exists X. split; [apply HV; by rewrite Ep|]. rewrite Hall. split; [by left|done].
  - exists (X ∪ {[b]}). split; [apply HV; rewrite Ep; apply set_eq; intros b'; destruct (decide (b' = b)); set_solver|]. rewrite Hsame by done.
    split; [|done]. right. left. by exists b.
  - assert (b ∈ X) as HbX by (apply elem_of_dom_2 in Ek; set_solver).
    exists (X ∖ {[b]}). split; [apply HV; rewrite Ep; apply set_eq; intros b'; destruct (decide (b' = b)); set_solver|]. rewrite Hsame by done.
    split; [|done]. right. right. exists b, blk. split; [done|]. split; [done|]. split; [done|]. split; [done|]. split; [by eapply lookup_weaken|done].
Qed.

(** ** All of them

    [ow]: the blocks of each sub-queue. *)
Record Joint (s : shared) (rs : list (nat * result)) (k : nat) (ow : nat -> gset ptr) : Prop := {
  jo_views : forall i p, subs s !! i = Some p -> View (common s) (free s) k (results_of i rs) p (ow i);
  jo_apart : forall i j, i <> j -> ow i ## ow j;
  jo_free : forall i, ow i ## free s;
  jo_dom : forall b, is_Some (common s !! b) <-> b ∈ free s \/ exists i, b ∈ ow i;
  jo_null : common s !! NULL = None;
  jo_vacant : forall b blk, b ∈ free s -> common s !! b = Some blk -> vacant blk = true;
  jo_size : (size (free s) <= k)%nat;
  jo_later : forall i, (length (subs s) <= i)%nat -> ow i = ∅ /\ results_of i rs = []
}.

Lemma results_of_app i rs rs' : results_of i (rs ++ rs') = results_of i rs ++ results_of i rs'.
Proof. apply omap_app. Qed.

Lemma results_of_same i r : results_of i (option_list (option_map (pair i) r)) = option_list r.
Proof. destruct r; [|done]. unfold results_of. csimpl. by rewrite bool_decide_eq_true_2. Qed.

Lemma results_of_other i j r : i <> j -> results_of i (option_list (option_map (pair j) r)) = [].
Proof. intros Hn. destruct r; [|done]. unfold results_of. csimpl. by rewrite bool_decide_eq_false_2. Qed.

(** A new sub-queue sees the free list as it is. *)
Lemma View_new bs c : forall l (X : gset ptr),
  NoDup l -> (forall b, b ∈ l -> b ∉ X /\ b <> NULL /\ exists blk, bs !! b = Some blk /\ vacant blk = true) ->
  View bs X (size X) [] (sub_initial ∅ c) ∅ -> View bs (list_to_set l ∪ X) (length l + size X) [] (sub_initial ∅ c) ∅.
Proof.
  induction l as [|b l IH]; intros X Hnd Hl HV; simpl; [by rewrite (left_id_L ∅ (∪))|].
  apply NoDup_cons in Hnd as [Hb Hnd]. destruct (Hl b) as (HbX & Hn & blk & Eb & Hv); [by left|].
  assert (list_to_set (b :: l) ∪ X = list_to_set l ∪ (X ∪ {[b]} : gset ptr)) as Heq by (simpl; set_solver). simpl in Heq. rewrite Heq.
  assert (size (X ∪ {[b]}) = S (size X)) as Hs by (rewrite size_union, size_singleton by set_solver; lia).
  replace (S (length l + size X)) with (length l + size (X ∪ {[b]}))%nat by lia.
  apply IH; [done| |].
  - intros b' Hb'. destruct (Hl b') as (? & ? & ?); [by right|]. split; [|done]. set_unfold. naive_solver.
  - rewrite Hs. by eapply View_give; [exact HV|done|set_solver|done|done|done].
Qed.

Lemma View_initial bs fr c :
  bs !! NULL = None -> (forall b, b ∈ fr -> exists blk, bs !! b = Some blk /\ vacant blk = true) ->
  View bs fr (size fr) [] (sub_initial ∅ c) ∅.
Proof.
  intros Hn Hf. assert (View bs ∅ (size (∅ : gset ptr)) [] (sub_initial ∅ c) ∅) as H0.
  { exists c, [], (sub_initial ∅ c). split; [done|]. split; [simpl; lia|]. split; [done|]. split; [done|].
    split; [by vm_compute|]. change (blocks (sub_initial ∅ c)) with (∅ : gmap ptr block). apply map_empty_subseteq. }
  pose proof (View_new bs c (base.elements fr) ∅ (NoDup_elements fr)) as HV. rewrite size_empty, Nat.add_0_r, (right_id_L ∅ (∪)), list_to_set_elements_L in HV.
  apply HV; [|done]. intros b Hb%elem_of_elements. split; [set_solver|]. destruct (Hf b Hb) as (blk & Eb & Hv). split; [|by exists blk]. congruence.
Qed.

Lemma joint_fresh s rs k ow b s' r :
  Joint s rs k ow -> shared_next (MFresh b) s = Some (s', r) -> Joint s' (rs ++ option_list r) (S k) ow.
Proof.
  intros [J1 J2 J3 J4 J5 J6 J7 J8] Hs. simpl in Hs. destruct (bool_decide_reflect (b = NULL)) as [|Hn]; [done|].
  destruct (bool_decide_reflect (is_Some (common s !! b))) as [|Hb]; [done|]. injection Hs as <- <-. rewrite app_nil_r.
  assert (b ∉ free s /\ forall i, b ∉ ow i) as [Hbf Hbo].
  { split; [|intros i]; intros Hin; apply Hb, J4; [by left|right; by exists i]. }
  constructor; simpl; try done.
  - intros i p E. eapply View_give; [by apply J1| |set_solver|done|apply lookup_insert_eq|by vm_compute].
    intros b' Hb'. apply lookup_insert_ne. set_solver.
  - intros i. specialize (J3 i). specialize (Hbo i). set_solver.
  - intros b'. destruct (decide (b' = b)) as [->|Hne].
    + rewrite lookup_insert_eq. split; [set_solver|by eexists].
    + rewrite lookup_insert_ne, J4 by done. set_solver.
  - by rewrite lookup_insert_ne.
  - intros b' blk. destruct (decide (b' = b)) as [->|Hne]; [rewrite lookup_insert_eq; by intros _ [= <-]|].
    rewrite lookup_insert_ne by done. intros Hin. apply J6. set_solver.
  - rewrite size_union, size_singleton by set_solver. lia.
Qed.

Lemma joint_producer s rs k ow c s' r :
  Joint s rs k ow -> shared_next (MProducer c) s = Some (s', r) -> Joint s' (rs ++ option_list r) (S k) ow.
Proof.
  intros [J1 J2 J3 J4 J5 J6 J7 J8] Hs. injection Hs as <- <-. rewrite app_nil_r. constructor; simpl; try done; [| |].
  - intros i p E. apply lookup_app_Some in E as [E|[Hi E]]; [by eapply View_keep; [apply J1|]|].
    apply list_lookup_singleton_Some in E as [E <-]. destruct (J8 i Hi) as [-> ->].
    destruct (View_initial (common s) (free s) c) as (c' & es & v & HV).
    + done.
    + intros b Hb. destruct (proj2 (J4 b) (or_introl Hb)) as [blk Eb]. exists blk. split; [done|by eapply J6].
    + destruct HV as (Hr & Hl & HV). exists c', es, v. split; [done|]. split; [lia|done].
  - lia.
  - intros i Hi. apply J8. rewrite length_app in Hi. lia.
Qed.

Lemma step_blocks_sets X fr X' fr' bs bs' :
  step_blocks X fr X' fr' bs bs' -> X ## fr ->
  (forall b, b ∈ X' ∪ fr' <-> b ∈ X ∪ fr) /\ X' ## fr' /\ (size fr' <= S (size fr))%nat.
Proof.
  intros [(-> & -> & _)|[(b & Hb & -> & -> & _)|(b & blk & Hb & -> & -> & _)]] Hd.
  - split; [done|]. split; [done|lia].
  - split; [intros b'; destruct (decide (b' = b)); set_solver|]. split; [set_solver|]. rewrite size_difference by set_solver. lia.
  - split; [intros b'; destruct (decide (b' = b)); set_solver|]. split; [set_solver|]. rewrite size_union, size_singleton by set_solver. lia.
Qed.

(** A step of one sub-queue: the others see it take a block, give one, or do
    neither. *)
Lemma View_other bs fr k rs p X Y Y' bs' fr' :
  View bs fr k rs p X -> step_blocks Y fr Y' fr' bs bs' -> (forall b, b ∉ Y -> bs' !! b = bs !! b) ->
  bs !! NULL = None -> X ## Y -> X ## fr -> Y ## fr -> View bs' fr' (S k) rs p X.
Proof.
  intros HV [(-> & _ & Hag)|[(b & Hb & -> & _ & ->)|(b & blk & Hb & -> & _ & -> & Eb & Hv)]] Ha Hn HXY HX HY.
  - eapply View_keep; [exact HV|]. intros b Hb. destruct (decide (b ∈ fr)); [by apply Hag|]. apply Ha. set_solver.
  - apply View_take; [done|done|set_solver].
  - eapply View_give; [exact HV|done|set_solver|congruence|exact Eb|exact Hv].
Qed.

Lemma joint_step s rs k ow i e s' r :
  Joint s rs k ow -> Z.of_nat k + 33 < 2 ^ 63 -> shared_next (MStep i e) s = Some (s', r) ->
  exists ow', Joint s' (rs ++ option_list r) (S k) ow'.
Proof.
  intros [J1 J2 J3 J4 J5 J6 J7 J8] Hk Hs. simpl in Hs. destruct (subs s !! i) as [p|] eqn:Ep; [|done]. simpl in Hs.
  destruct (own e) eqn:Ho; [|done]. destruct (sub_next e (inside_of (common s) (free s) p)) as [[p' r']|] eqn:En; [|done]. simpl in Hs.
  injection Hs as <- <-. pose proof (lookup_lt_Some _ _ _ Ep) as Hlt.
  destruct (View_step _ _ _ _ _ _ _ _ _ (J1 _ _ Ep) (J3 i) Hk Ho En) as (X & HV & Hb & Ha).
  destruct (step_blocks_sets _ _ _ _ _ _ Hb (J3 i)) as (HX & Hdis & Hsize).
  assert (forall b, is_Some (blocks p' !! b) <-> is_Some (common s !! b)) as Hdom.
  { intros b. rewrite <- !elem_of_dom, (sub_next_blocks _ _ _ _ En). by destruct e. }
  exists (fun j => if decide (j = i) then X else ow j). constructor; simpl.
  - intros j q E. destruct (decide (j = i)) as [->|Hj].
    + rewrite list_lookup_insert_eq in E by done. injection E as <-. by rewrite results_of_app, results_of_same.
    + rewrite list_lookup_insert_ne in E by done. rewrite results_of_app, results_of_other, app_nil_r by done.
      eapply View_other; [by apply J1|exact Hb|exact Ha|done|by apply J2|apply J3|apply J3].
  - assert (forall j, j <> i -> ow j ## X) as Hj.
    { intros j Hj b Hbj Hbx. pose proof (J2 j i Hj b Hbj). pose proof (J3 j b Hbj). specialize (HX b). set_solver. }
    intros j j' Hjj. destruct (decide (j = i)) as [->|?], (decide (j' = i)) as [->|?]; [done|symmetry; by apply Hj|by apply Hj|by apply J2].
  - intros j. destruct (decide (j = i)) as [->|Hj]; [done|]. intros b Hbj Hbf. pose proof (J2 j i Hj b Hbj). pose proof (J3 j b Hbj).
    specialize (HX b). set_solver.
  - intros b. rewrite Hdom, J4. specialize (HX b). rewrite !elem_of_union in HX. split.
    + intros Hf. assert (b ∈ X \/ b ∈ pool p' \/ exists j, j <> i /\ b ∈ ow j) as Hc.
      { destruct Hf as [?|[j Hj]]; [tauto|]. destruct (decide (j = i)) as [->|Hne]; [tauto|]. right. right. by exists j. }
      destruct Hc as [?|[?|(j & Hj & ?)]]; [right; exists i; by rewrite decide_True|by left|right; exists j; by rewrite decide_False].
    + intros [?|[j Hj]]; [|destruct (decide (j = i)); [|right; by exists j]]; (destruct (proj1 HX) as [?|?]; [tauto|right; by exists i|by left]).
  - destruct (blocks p' !! NULL) as [blk|] eqn:E; [|done]. destruct (proj1 (Hdom NULL)) as [? E']; [by eexists|congruence].
  - intros b blk Hin Eb. destruct Hb as [(Hf & _ & Hag)|[(b' & Hbf & Hf & _ & Hc)|(b' & blk' & HbX & Hf & _ & Hc & Eb' & Hv)]]; rewrite Hf in Hin.
    + rewrite Hag in Eb by done. by eapply J6.
    + rewrite Hc in Eb. apply (J6 b); [set_solver|done].
    + rewrite Hc in Eb. destruct (decide (b = b')) as [->|Hne]; [congruence|]. apply (J6 b); [set_solver|done].
  - lia.
  - intros j. rewrite length_insert. intros Hj. rewrite decide_False, results_of_app, results_of_other, app_nil_r by lia. by apply J8.
Qed.

Lemma joint_next e s rs k ow s' r :
  Joint s rs k ow -> Z.of_nat k + 33 < 2 ^ 63 -> shared_next e s = Some (s', r) -> exists ow', Joint s' (rs ++ option_list r) (S k) ow'.
Proof.
  intros J Hk Hs. destruct e; [by eapply joint_step|exists ow; by eapply joint_fresh|exists ow; by eapply joint_producer].
Qed.

Lemma joint_run es : forall s rs k ow s' rs',
  Joint s rs k ow -> Z.of_nat (k + length es) + 33 < 2 ^ 63 -> shared_run es s = Some (s', rs') ->
  exists ow', Joint s' (rs ++ rs') (k + length es) ow'.
Proof.
  induction es as [|e es IH]; intros s rs k ow s' rs' J Hk Hr; simpl in Hr.
  - injection Hr as <- <-. rewrite app_nil_r, Nat.add_0_r. by exists ow.
  - destruct (shared_next e s) as [[s1 r]|] eqn:En; [|done]. simpl in Hr.
    destruct (shared_run es s1) as [[s2 rs2]|] eqn:Er; [|done]. injection Hr as <- <-.
    rewrite length_cons in Hk |- *. destruct (joint_next _ _ _ _ _ _ _ J ltac:(lia) En) as [ow1 J1].
    destruct (IH _ _ _ _ _ _ J1 ltac:(lia) Er) as [ow2 J2]. exists ow2. by rewrite app_assoc, Nat.add_succ_r.
Qed.

Lemma joint_initial : Joint no_subs [] 0 (fun _ => ∅).
Proof. constructor; simpl; try done; try set_solver. intros b. rewrite lookup_empty. split; [by intros []|set_solver]. Qed.

Lemma joint_start es s rs :
  Z.of_nat (length es) + 33 < 2 ^ 63 -> shared_run es no_subs = Some (s, rs) -> exists ow, Joint s rs (length es) ow.
Proof. intros Hk Hr. by apply (joint_run es _ [] 0 _ _ _ joint_initial). Qed.

(** What Storage.v says of a sub-queue is so in the memory of all. *)
Lemma View_facts bs fr k rs p X :
  View bs fr k rs p X -> Z.of_nat k + 33 < 2 ^ 63 ->
  exists v es c es' m, inside_of bs fr p = framed bs v /\ pool v = fr /\ dom (blocks v) = X ∪ fr /\ queue v = queue p /\ lookups v = lookups p /\
    (length es' <= k)%nat /\ sub_run es (sub_initial ∅ c) = Some (v, rs) /\ (length es <= k)%nat /\
    run es' (initial c) = Some (with_elements m (queue v), rs) /\
    SI v m /\ Inv_state (with_elements m (queue v)) (enqueued rs) (Z.of_nat (length es')).
Proof.
  intros (c & es & v & Hr & Hl & Hc & Hp & Hd & Hs) Hk.
  destruct (sim_start ∅ c es v rs (not_elem_of_empty _) ltac:(lia) Hr) as (es' & m & Hl' & Hrun & I & HI).
  exists v, es, c, es', m. split; [by apply inside_framed|]. split; [done|]. split; [done|].
  unfold inside_of, set_pool, set_blocks in Hc. simpl in Hc. injection Hc as Hq _ _ _ Hlk. split; [done|]. split; [done|]. split; [lia|]. done.
Qed.

(** The block that the index of an element leads to. *)
Definition block_of (s : sub) (i : Z) : option ptr :=
  id ← get_block_index_index_for_index i (blocks_index s);
  e ← entries (blocks_index s) !! id;
  value e.

Lemma stored_block s i : stored s i = (b ← block_of s i; blk ← blocks s !! b; cells blk !! place i).
Proof.
  unfold stored, block_of. destruct (get_block_index_index_for_index i (blocks_index s)); [|done]. simpl.
  by destruct (entries (blocks_index s) !! n).
Qed.

Lemma element_block v m E k i :
  SI v m -> Inv_state (with_elements m (queue v)) E k -> k + 33 < 2 ^ 63 -> headIndex (queue v) <= i < tailIndex (queue v) ->
  exists b blk, block_of v i = Some b /\ blocks v !! b = Some blk /\ cells blk !! place i = E !! Z.to_nat i /\ b ∉ pool v.
Proof.
  intros (live & frontier & n & hd & g & newest & exempt & I) HI Hk Hi.
  destruct (Inv_state_facts _ _ _ _ HI Hk) as ((Hh & Ht & _) & _ & _ & _ & HE & HT).
  destruct (lookup_lt_is_Some_2 E (Z.to_nat i)) as [x Hx]; [lia|]. pose proof (HE i Hi) as Hm. rewrite Hx in Hm.
  rewrite (si_cells _ _ _ _ _ _ _ _ _ I) in Hm. unfold content in Hm. destruct (decide (0 <= i)); [|done].
  destruct (live !! base_of i) as [b|] eqn:Eb; [|done]. simpl in Hm. destruct (blocks v !! b) as [blk|] eqn:Ek; [|done]. simpl in Hm.
  assert (is_u64 i) as Hu by (unfold is_u64; change (2 ^ 63) with 9223372036854775808 in *; lia).
  destruct (index_of_live _ _ _ _ _ _ _ _ _ (si_ring _ _ _ _ _ _ _ _ _ I) Hu Eb) as (id & Ei & Ee).
  exists b, blk. split; [unfold block_of; rewrite Ei; simpl; by rewrite Ee|]. split; [done|]. split; [by rewrite place_eq, Hx|].
  by eapply live_not_free.
Qed.

(** C11. Any number of sub-queues that share the blocks and the free list, each with
    its producer and any number of consumers, in every interleaving of fewer than
    [2^63 - 33] steps: each sub-queue does what the machine of Mpmc.v does, as if
    it were alone; the index of every element between its head and its tail leads
    to a block that holds the element; and this block is not on the free list, nor
    is it the block of an element of another sub-queue. *)
Theorem sub_queues_refine es s rs :
  Z.of_nat (length es) + 33 < 2 ^ 63 -> shared_run es no_subs = Some (s, rs) ->
  forall i p, subs s !! i = Some p ->
  (exists c es' m, (length es' <= length es)%nat /\ run es' (initial c) = Some (with_elements m (queue p), results_of i rs)) /\
  (forall x, headIndex (queue p) <= x < tailIndex (queue p) ->
     stored (inside_of (common s) (free s) p) x = enqueued (results_of i rs) !! Z.to_nat x /\
     exists b, block_of p x = Some b /\ b ∉ free s /\
       forall j q y, i <> j -> subs s !! j = Some q -> headIndex (queue q) <= y < tailIndex (queue q) -> block_of q y <> Some b).
Proof.
  intros Hk Hr i p Ep. destruct (joint_start _ _ _ Hk Hr) as [ow J].
  assert (forall j q y, subs s !! j = Some q -> headIndex (queue q) <= y < tailIndex (queue q) ->
    exists b, block_of q y = Some b /\ b ∈ ow j /\ stored (inside_of (common s) (free s) q) y = enqueued (results_of j rs) !! Z.to_nat y) as Hin.
  { intros j q y Eq Hy. destruct (View_facts _ _ _ _ _ _ (jo_views _ _ _ _ J _ _ Eq) Hk) as (v & es1 & c & es' & m & Hf & Hp & Hd & Hq & _ & Hl & _ & _ & _ & I & HI).
    destruct (element_block _ _ _ _ y I HI ltac:(lia) ltac:(by rewrite Hq)) as (b & blk & Eb & Ek & Hc & Hb).
    assert (blocks_index v = blocks_index q) as Hx by (unfold inside_of, framed, set_pool, set_blocks in Hf; by injection Hf).
    exists b. split; [by unfold block_of in *; rewrite <- Hx|]. split; [apply elem_of_dom_2 in Ek; rewrite Hd in Ek; set_solver|].
    rewrite Hf, stored_block. unfold block_of in Eb |- *. simpl. rewrite Eb. simpl. by rewrite (lookup_union_Some_l _ _ _ _ Ek). }
  split.
  - destruct (View_facts _ _ _ _ _ _ (jo_views _ _ _ _ J _ _ Ep) Hk) as (v & es1 & c & es' & m & _ & _ & _ & Hq & _ & Hl & _ & _ & Hrun & _).
    exists c, es', m. by rewrite <- Hq.
  - intros x Hx. destruct (Hin i p x Ep Hx) as (b & Eb & Ho & Hst). split; [done|]. exists b. split; [done|].
    split; [intros Hb; by eapply (jo_free _ _ _ _ J i)|]. intros j q y Hij Eq Hy Eb'.
    destruct (Hin j q y Eq Hy) as (b' & Eb'' & Ho' & _). assert (b' = b) as -> by congruence. by eapply (jo_apart _ _ _ _ J i j Hij).
Qed.

(** In the memory of all, too, a thread in the middle of an operation can
    always take its next step, whatever the threads of the other sub-queues have
    done; and a block that a consumer is about to put on the free list is not
    there. *)
Lemma sub_queues_safe s rs k ow :
  Joint s rs k ow -> Z.of_nat k + 33 < 2 ^ 63 ->
  forall i p, subs s !! i = Some p ->
  (producer (queue p) <> PIdle -> forall memory got, (forall b, got = Some b -> b ∈ free s) ->
     is_Some (shared_next (MStep i (SProducer memory got)) s)) /\
  (forall j c l, consumers (queue p) !! j = Some c -> lookups p !! j = Some l -> ~ (c = CIdle /\ l = LNone) ->
     is_Some (shared_next (MStep i (SConsumer j)) s)) /\
  (forall j b, lookups p !! j = Some (LFree b) -> b ∉ free s).
Proof.
  intros J Hk i p Ep.
  destruct (View_facts _ _ _ _ _ _ (jo_views _ _ _ _ J _ _ Ep) Hk) as (v & es1 & c0 & es' & m & Hf & Hp & Hd & Hq & Hlk & Hl & _ & _ & _ & I & HI).
  assert (Z.of_nat (length es') + 33 < 2 ^ 63) as Hk' by lia. destruct (Inv_state_facts _ _ _ _ HI Hk') as (Hrange & Hok & _).
  pose proof I as (live & frontier & n & hd & g & newest & exempt & I').
  assert (forall e, own e = true -> is_Some (sub_next e v) -> is_Some (shared_next (MStep i e) s)) as Hstep.
  { intros e Ho [[v' r] Hv]. simpl. rewrite Ep. simpl. rewrite Ho, Hf, (sub_next_framed _ _ _ _ _ Ho Hv). by eexists. }
  split; [|split].
  - intros Hpr memory got Hg. apply Hstep; [done|]. eapply qstep_safe; [exact I'|done|done|by rewrite Hq|by rewrite Hp].
  - intros j c l Ec El Hn. apply Hstep; [done|]. eapply lstep_safe; [exact I|exact HI|done|by rewrite Hq|by rewrite Hlk|done].
  - intros j b El. rewrite <- Hlk in El. destruct (lookup_lt_is_Some_2 (consumers (queue v)) j) as [c Ec].
    { rewrite <- (si_length _ _ _ _ _ _ _ _ _ I'). by eapply lookup_lt_Some. }
    destruct (sim_free _ _ _ _ _ _ _ _ _ I' j c Ec b El) as (_ & _ & Hb & _). by rewrite <- Hp.
Qed.

(** ** The end of the queue

    The loop of [~ConcurrentQueue] over the sub-queues, newest first. *)
Fixpoint destroy_producers (ps : list sub) (bs : gmap ptr block) (fr : gset ptr) : option (list destroyed * gmap ptr block * gset ptr) :=
  match ps with
  | [] => Some ([], bs, fr)
  | p :: ps =>
      '(d, p) ← implicit_destroy (inside_of bs fr p);
      '(ds, bs, fr) ← destroy_producers ps (blocks p) (pool p);
      Some (d :: ds, bs, fr)
  end.

(** [P]: blocks that other sub-queues have put on the free list. *)
Definition grown_pool (bs : gmap ptr block) (P : gset ptr) (v : sub) : sub := set_pool (pool v ∪ P) (framed bs v).

Lemma add_grown bs P b v v' : add_block_to_free_list b v = Some v' -> b ∉ P ->
  add_block_to_free_list b (grown_pool bs P v) = Some (grown_pool bs P v').
Proof.
  unfold add_block_to_free_list. simpl. intros Ha Hb. destruct (bool_decide_reflect (b ∈ pool v)) as [|Hn]; [done|]. injection Ha as <-.
  rewrite bool_decide_eq_false_2 by set_solver. f_equal. unfold grown_pool, framed, set_pool, set_blocks. simpl. f_equal. set_solver.
Qed.

Lemma add_pool b v v' : add_block_to_free_list b v = Some v' -> pool v ⊆ pool v' /\ b ∈ pool v'.
Proof. unfold add_block_to_free_list. case_match; [done|]. intros [= <-]. simpl. set_solver. Qed.

Lemma current_grown bs P j b v b' v' : current_block j b v = Some (b', v') -> pool v ⊆ pool v' /\
  (pool v' ## P -> current_block j b (grown_pool bs P v) = Some (b', grown_pool bs P v')).
Proof.
  unfold current_block. destruct ((place j =? 0) || (b =? NULL)); [|intros [= <- <-]; by split].
  destruct (negb (b =? NULL)) eqn:Hb.
  - destruct (add_block_to_free_list b v) as [v1|] eqn:Ea; [|done]. destruct (add_pool _ _ _ Ea) as [Hs Hin].
    intros Hc. assert (v1 = v') as -> by (by simplify_option_eq). split; [done|]. intros Hd.
    rewrite (add_grown bs P _ _ _ Ea) by set_solver. simpl in *. by simplify_option_eq.
  - intros Hc. assert (v = v') as -> by (by simplify_option_eq). split; [done|]. intros _. simpl in *. by simplify_option_eq.
Qed.

Lemma elements_grown bs P fuel : forall j t b v els v', destroy_elements fuel j t b v = Some (els, v') -> pool v ⊆ pool v' /\
  (pool v' ## P -> destroy_elements fuel j t b (grown_pool bs P v) = Some (els, grown_pool bs P v')).
Proof.
  induction fuel as [|fuel IH]; intros j t b v els v' Hd; simpl in Hd |- *; (destruct (j =? t); [injection Hd as <- <-; by split|done || idtac]).
  destruct (current_block j b v) as [[b' v1]|] eqn:Ec; [|done]. simpl in Hd. destruct (blocks v1 !! b') as [blk|] eqn:Eb; [|done]. simpl in Hd.
  destruct (cells blk !! place j) as [el|] eqn:Ee; [|done]. simpl in Hd.
  destruct (destroy_elements fuel _ t b' _) as [[els' v2]|] eqn:Er; [|done]. simpl in Hd. injection Hd as <- <-.
  destruct (current_grown bs P _ _ _ _ _ Ec) as [H1 Hc]. destruct (IH _ _ _ _ _ _ Er) as [H2 Hr]. simpl in H2.
  split; [set_solver|]. intros Hp. rewrite Hc by set_solver. simpl. rewrite (lookup_union_Some_l _ _ _ _ Eb). simpl. rewrite Ee. simpl.
  specialize (Hr Hp). unfold grown_pool, framed, set_block, set_pool, set_blocks in Hr |- *. simpl in Hr |- *. rewrite insert_union_l, Hr. done.
Qed.

Lemma destroy_grown bs P v d v' : implicit_destroy v = Some (d, v') -> pool v' ## P ->
  implicit_destroy (grown_pool bs P v) = Some (d, grown_pool bs P v').
Proof.
  unfold implicit_destroy. intros Hd Hp. simpl. destruct (negb _) in Hd |- *; [done|].
  destruct (destroy_elements _ _ _ _ v) as [[els v1]|] eqn:Ee; [|done]. simpl in Hd. destruct (elements_grown bs P _ _ _ _ _ _ _ Ee) as [_ He].
  destruct (release_tail _ _ v1) as [v2|] eqn:El; [|done]. simpl in Hd.
  destruct (destroy_index (blocks_index v2)) as [[ids hs]|] eqn:Ei; [|done]. simpl in Hd. injection Hd as <- <-.
  assert (pool v1 ⊆ pool v2 /\ release_tail (negb (headIndex (queue v) =? tailIndex (queue v))) (tailIndex (queue v)) (grown_pool bs P v1) =
    Some (grown_pool bs P v2)) as [Hs Hl].
  { unfold release_tail in El |- *. simpl. destruct (_ && _) in El |- *; [|by injection El as ->].
    destruct (add_pool _ _ _ El). split; [done|]. apply add_grown; [done|set_solver]. }
  rewrite He by set_solver. simpl. rewrite Hl. simpl. by rewrite Ei.
Qed.

(** What the destructor of sub-queue [i] has done. *)
Definition destroyed_well (rs : list (nat * result)) (i : nat) (p : sub) (d : destroyed) : Prop :=
  elements d = drop (Z.to_nat (headIndex (queue p))) (enqueued (results_of i rs)) /\
  (dequeued (results_of i rs)).*2 ++ elements d ≡ₚ enqueued (results_of i rs) /\
  entry_ids d ≡ₚ seq 0 (length (entries (blocks_index p))) /\
  header_ids d = rev (seq 0 (length (headers (blocks_index p)))).

Lemma destroy_one s rs k ow i p bs P :
  Joint s rs k ow -> Z.of_nat k + 33 < 2 ^ 63 -> subs s !! i = Some p -> sub_idle p ->
  agree (ow i ∪ free s) (common s) bs -> P ## ow i -> P ## free s ->
  exists d p', implicit_destroy (inside_of bs (free s ∪ P) p) = Some (d, p') /\ destroyed_well rs i p d /\
    pool p' = free s ∪ (P ∪ ow i) /\ dom (blocks p') = dom bs /\ forall b, b ∉ ow i -> blocks p' !! b = bs !! b.
Proof.
  intros J Hk Ep Hidle Ha HP HPf. destruct (jo_views _ _ _ _ J _ _ Ep) as (c & es & v & Hr & Hl & Hc & Hp & Hd & Hs).
  assert (queue p = queue v /\ lookups p = lookups v /\ blocks_index p = blocks_index v) as (Eq & El & Ex)
    by (unfold inside_of, set_pool, set_blocks in Hc; simpl in Hc; by injection Hc).
  assert (sub_idle v) as Hv by (unfold sub_idle in *; by rewrite <- Eq, <- El).
  destruct (implicit_destroy_correct ∅ c es v _ (not_elem_of_empty _) ltac:(lia) Hr Hv) as (d & v' & Hdes & H1 & H2 & H3 & H4 & H5 & H6 & H7).
  pose proof (sub_run_blocks _ _ _ _ Hr) as Hw. change (dom (blocks (sub_initial ∅ c))) with (dom (gset_to_gmap new_block (∅ : gset ptr))) in Hw.
  rewrite dom_gset_to_gmap, Hd in Hw. rewrite <- Hw in H3. rewrite Hd in H6.
  pose proof (agree_subseteq (blocks v) (common s) bs _ Hd Ha Hs) as Hsub.
  assert (inside_of bs (free s ∪ P) p = grown_pool bs P v) as ->.
  { rewrite (inside_of_eq _ _ _ _ _ _ Hc). unfold inside_of, grown_pool, framed, set_pool, set_blocks. simpl.
    by rewrite Hp, (map_subseteq_union (blocks v) bs). }
  exists d, (grown_pool bs P v'). split; [apply destroy_grown; [done|rewrite H3; set_solver]|]. rewrite <- Eq, <- Ex in *.
  split; [done|]. split; [simpl; rewrite H3; set_solver|]. split.
  - simpl. rewrite dom_union_L, H6. apply subseteq_dom in Hsub. rewrite Hd in Hsub. set_solver.
  - intros b Hb. simpl. destruct (decide (b ∈ free s)) as [Hf|Hf].
    + destruct (blocks v !! b) as [blk|] eqn:E; [|apply not_elem_of_dom in E; set_solver].
      rewrite (lookup_union_Some_l _ _ _ blk) by (rewrite H7; [done|by rewrite Hp]). symmetry. by eapply lookup_weaken.
    + apply lookup_union_r, not_elem_of_dom. rewrite H6. set_solver.
Qed.

Lemma destroy_producers_spec s rs k ow :
  Joint s rs k ow -> Z.of_nat k + 33 < 2 ^ 63 -> (forall i p, subs s !! i = Some p -> sub_idle p) ->
  forall js ps, Forall2 (fun i p => subs s !! i = Some p) js ps -> NoDup js -> forall bs P,
  (forall i, i ∈ js -> agree (ow i ∪ free s) (common s) bs /\ P ## ow i) -> P ## free s ->
  exists ds bs' P', destroy_producers ps bs (free s ∪ P) = Some (ds, bs', free s ∪ P') /\
    Forall2 (fun i d => forall p, subs s !! i = Some p -> destroyed_well rs i p d) js ds /\
    dom bs' = dom bs /\ forall b, b ∈ P' <-> b ∈ P \/ exists i, i ∈ js /\ b ∈ ow i.
Proof.
  intros J Hk Hidle js ps Hps. induction Hps as [|i p js ps Ep Hps IH]; intros Hnd bs P Ha HP.
  - exists [], bs, P. split; [done|]. split; [constructor|]. split; [done|]. set_solver.
  - apply NoDup_cons in Hnd as [Hi Hnd]. destruct (Ha i) as [Hai HPi]; [by left|].
    destruct (destroy_one _ _ _ _ _ _ _ _ J Hk Ep (Hidle _ _ Ep) Hai HPi HP) as (d & p' & Hd & Hw & Hp & Hdom & Hsame).
    destruct (IH Hnd (blocks p') (P ∪ ow i)) as (ds & bs' & P' & Hds & Hall & Hdom' & HP').
    + intros j Hj. destruct (Ha j) as [Haj HPj]; [by right|]. assert (i <> j) as Hij by (by intros ->).
      pose proof (jo_apart _ _ _ _ J i j Hij). pose proof (jo_free _ _ _ _ J i). split; [|set_solver].
      intros b Hb. rewrite Hsame by set_solver. by apply Haj.
    + pose proof (jo_free _ _ _ _ J i). set_solver.
    + exists (d :: ds), bs', P'. split; [simpl; rewrite Hd; simpl; by rewrite Hp, Hds|]. split; [|split].
      * constructor; [|done]. intros q Eq. assert (q = p) as -> by congruence. done.
      * by rewrite Hdom'.
      * intros b. rewrite HP'. set_unfold. naive_solver.
Qed.

(** The end of the queue: when no operation is under way, after fewer than
    [2^63 - 33] steps in any interleaving, the destructors of all the sub-queues
    succeed.  Every element ever enqueued has then been dequeued or destroyed,
    exactly once; every entry and every header of every block index is gone,
    exactly once; and the free list has all the blocks there are. *)
Lemma sub_queues_destroyed s rs k ow :
  Joint s rs k ow -> Z.of_nat k + 33 < 2 ^ 63 ->
  (forall i p, subs s !! i = Some p -> sub_idle p) ->
  exists ds bs fr, destroy_producers (reverse (subs s)) (common s) (free s) = Some (ds, bs, fr) /\
    fr = dom (common s) /\ length ds = length (subs s) /\
    forall i p d, subs s !! i = Some p -> reverse ds !! i = Some d -> destroyed_well rs i p d.
Proof.
  intros J Hk Hidle.
  assert (Forall2 (fun i p => subs s !! i = Some p) (reverse (seq 0 (length (subs s)))) (reverse (subs s))) as Hall.
  { apply Forall2_reverse, Forall2_same_length_lookup. split; [by rewrite length_seq|].
    intros i j p [-> Hi]%lookup_seq E. done. }
  destruct (destroy_producers_spec s rs k ow J Hk Hidle _ _ Hall ltac:(rewrite reverse_Permutation; apply NoDup_seq) (common s) ∅) as (ds & bs & P & Hd & Hds & Hdom & HP).
  { intros i _. split; [done|set_solver]. }
  { set_solver. }
  rewrite (right_id_L ∅ (∪)) in Hd. exists ds, bs, (free s ∪ P). split; [done|]. split; [|split].
  - apply set_eq. intros b. rewrite elem_of_union, HP, elem_of_dom, (jo_dom _ _ _ _ J). split.
    + intros [?|[?|(i & _ & ?)]]; [by left|set_solver|right; by exists i].
    + intros [?|[i Hi]]; [by left|]. right. right. exists i. split; [|done]. apply elem_of_reverse, elem_of_seq.
      destruct (decide (i < length (subs s))%nat); [lia|]. destruct (jo_later _ _ _ _ J i ltac:(lia)) as [He _]. rewrite He in Hi. set_solver.
  - apply Forall2_length in Hds. by rewrite length_reverse, length_seq in Hds.
  - intros i p d Ep Ed. apply Forall2_reverse in Hds. rewrite reverse_involutive in Hds.
    eapply Forall2_lookup_lr in Hds; [|apply lookup_seq; split; [done|by eapply lookup_lt_Some]|exact Ed]. by apply Hds.
Qed.

(** ** Witness

    Two threads enqueue, each in a block of its own, and a consumer takes the element
    of the first one. *)
Definition two_producers : list shared_event :=
  [MProducer 1; MFresh 1024; MFresh 2048] ++ map (MStep 0) (enq_first 7 1024) ++ [MProducer 1] ++
  map (MStep 1) (enq_first 8 2048 ++ enq_next 9) ++ map (MStep 0) (deq 0).

Definition shared_after (es : list shared_event) : shared * list (nat * result) := default (no_subs, []) (shared_run es no_subs).

Definition check_shared (es : list shared_event) (f : shared -> list (nat * result) -> bool) : bool :=
  match shared_run es no_subs with Some (s, rs) => f s rs | None => false end.

Lemma check_shared_spec es f : check_shared es f = true ->
  shared_run es no_subs = Some (shared_after es) /\ f (shared_after es).1 (shared_after es).2 = true.
Proof. unfold check_shared, shared_after. destruct (shared_run es _) as [[s rs]|]; [done|done]. Qed.

Lemma sub_queues_refine_witness :
  exists p, subs (shared_after two_producers).1 !! 1%nat = Some p /\
    stored (inside_of (common (shared_after two_producers).1) (free (shared_after two_producers).1) p) 1 = Some (9 : ptr).
Proof.
  destruct (check_shared_spec two_producers (fun s rs => match subs s !! 1%nat with
      Some p => (headIndex (queue p) =? 0) && ((tailIndex (queue p) =? 2) && bool_decide (enqueued (results_of 1 rs) !! 1%nat = Some (9 : ptr)))
      | None => false end)) as [Hr Hf]; [vm_compute; reflexivity|].
  destruct (shared_after two_producers) as [s rs]. cbn [fst snd] in *.
  destruct (subs s !! 1%nat) as [p|] eqn:Ep; [|discriminate Hf]. exists p. split; [reflexivity|].
  apply andb_prop in Hf as [Hh Hf]. apply andb_prop in Hf as [Ht Hx]. apply Z.eqb_eq in Hh, Ht. apply bool_decide_eq_true in Hx.
  destruct (sub_queues_refine two_producers s rs) with (i := 1%nat) (p := p) as [_ He]; [by vm_compute|exact Hr|exact Ep|].
  destruct (He 1) as [Hs _]; [rewrite Hh, Ht; lia|]. rewrite Hs. exact Hx.
Defined.
