(* ===== verification/BlockPool.v ===== *)
(** * Where blocks come from (src/lib/concurrentqueue/concurrentqueue.h, src/src/pipe.cpp)

    The constructor allocates an array of blocks, as many as the capacity asks for.
    A producer that needs a block takes the next one of the array by a fetch-and-add
    on [initialBlockPoolIndex]; when the array is used up it tries the free list,
    and when that has none either it allocates a block, if it may.  This file adds
    these steps to the machine of SubQueues.v, the constructor before it and the end
    of the destructor after it.

    [malloc] is a parameter, of which only is assumed that the memory it returns is
    not at [NULL].  Its answers to a requisition are events; it answers
    with memory that nothing else is using. *)
From S2P Require Import Prelude Mpmc BlockIndex Storage Destroy SubQueues.

(** [sizeof(Block)] where pointers and [size_t] have eight bytes: the elements, two
    words, 32 flags, the two words of the free list and two flags, rounded up to
    the alignment of [max_align_t]. *)
Definition sizeof_Block : Z := 336.

(** Where a producer stands in [requisition_block]. *)
Inductive rpc :=
| RNone
| RTest (canAlloc : bool)
| RFetch (canAlloc : bool)
| RFreeList (canAlloc : bool)
| RCreate.

Record mpmc := {
  sub_queues : shared;
  requests : list rpc;
  initialBlockPoolIndex : Z;
  initialBlockPool : ptr;
  initialBlockPoolSize : Z;
  dynamicallyAllocated : gset ptr
}.

(** ** The constructor *)

(** [create_array<Block>], with its assertion: the address of the array.  The size is
    a product of [size_t]s, which wraps around; constructing [count] blocks in memory
    that has no room for them is undefined. *)
Definition create_array (malloc : Z -> option ptr) (count : Z) : option (option ptr) :=
  if 0 <? count then
    let size := u64 (sizeof_Block * count) in
    match malloc size with
    | None => Some None
    | Some p => if sizeof_Block * count <=? size then Some (Some p) else None
    end
  else None.

Definition populate_initial_block_list (malloc : Z -> option ptr) (blockCount : Z) : option (ptr * Z) :=
  if blockCount =? 0 then Some (NULL, 0)
  else
    p ← create_array malloc blockCount;
    Some (match p with None => (NULL, 0) | Some p => (p, blockCount) end).

Definition initial_block_count (capacity : Z) : Z := capacity / BLOCK_SIZE + (if Z.land capacity (BLOCK_SIZE - 1) =? 0 then 0 else 1).

(** [capacity] is an [int], which the call converts to [size_t]. *)
Definition pipe_mpmc_new (malloc : Z -> option ptr) (capacity : Z) : option mpmc :=
  '(p, n) ← populate_initial_block_list malloc (initial_block_count (u64 capacity));
  Some {| sub_queues := no_subs; requests := []; initialBlockPoolIndex := 0; initialBlockPool := p; initialBlockPoolSize := n;
          dynamicallyAllocated := ∅ |}.

(** ** The steps *)
Definition initial_block (q : mpmc) (i : Z) : ptr := initialBlockPool q + sizeof_Block * i.

(** Whether an address is in the array. *)
Definition in_array (q : mpmc) (b : ptr) : bool :=
  (initialBlockPool q <=? b) && (b <? initialBlockPool q + sizeof_Block * initialBlockPoolSize q).

Definition set_subs (s : shared) (q : mpmc) : mpmc :=
  {| sub_queues := s; requests := requests q; initialBlockPoolIndex := initialBlockPoolIndex q; initialBlockPool := initialBlockPool q;
     initialBlockPoolSize := initialBlockPoolSize q; dynamicallyAllocated := dynamicallyAllocated q |}.
Definition request (i : nat) (c : rpc) (q : mpmc) : mpmc :=
  {| sub_queues := sub_queues q; requests := <[i := c]> (requests q); initialBlockPoolIndex := initialBlockPoolIndex q;
     initialBlockPool := initialBlockPool q; initialBlockPoolSize := initialBlockPoolSize q; dynamicallyAllocated := dynamicallyAllocated q |}.
Definition set_initialBlockPoolIndex (i : Z) (q : mpmc) : mpmc :=
  {| sub_queues := sub_queues q; requests := requests q; initialBlockPoolIndex := i; initialBlockPool := initialBlockPool q;
     initialBlockPoolSize := initialBlockPoolSize q; dynamicallyAllocated := dynamicallyAllocated q |}.
Definition set_dynamic (X : gset ptr) (q : mpmc) : mpmc :=
  {| sub_queues := sub_queues q; requests := requests q; initialBlockPoolIndex := initialBlockPoolIndex q; initialBlockPool := initialBlockPool q;
     initialBlockPoolSize := initialBlockPoolSize q; dynamicallyAllocated := X |}.

Definition result_in := option (nat * result).

(** [requisition_block] returns [got] to producer [i]. *)
Definition answer_request (i : nat) (got : option ptr) (q : mpmc) : option (mpmc * result_in) :=
  '(s, r) ← shared_next (MStep i (SProducer false got)) (sub_queues q);
  Some (request i RNone (set_subs s q), r).

(** It returns a block that was in no use before. *)
Definition answer_new (i : nat) (b : ptr) (q : mpmc) : option (mpmc * result_in) :=
  '(s, _) ← shared_next (MFresh b) (sub_queues q);
  answer_request i (Some b) (set_subs s q).

Definition requisitioning (p : sub) : bool :=
  match producer (queue p), starting p with PHead _ _, QRequisition _ => true | _, _ => false end.

(** One step of [requisition_block] for producer [i].  [answer]: what [try_get] or
    [malloc] returns. *)
Definition rstep (i : nat) (answer : option ptr) (q : mpmc) : option (mpmc * result_in) :=
  p ← subs (sub_queues q) !! i;
  c ← requests q !! i;
  if requisitioning p then
    match c with
    | RNone => None
    | RTest canAlloc =>
        Some (request i (if initialBlockPoolSize q <=? initialBlockPoolIndex q then RFreeList canAlloc else RFetch canAlloc) q, None)
    | RFetch canAlloc =>
        let index := initialBlockPoolIndex q in
        let q := set_initialBlockPoolIndex (u64 (index + 1)) q in
        if index <? initialBlockPoolSize q then answer_new i (initial_block q index) q
        else Some (request i (RFreeList canAlloc) q, None)
    | RFreeList canAlloc =>
        match answer with
        | Some b => answer_request i (Some b) q
        | None => if canAlloc then Some (request i RCreate q, None) else answer_request i None q
        end
    | RCreate =>
        match answer with
        | Some b => if in_array q b then None else answer_new i b (set_dynamic (dynamicallyAllocated q ∪ {[b]}) q)
        | None => answer_request i None q
        end
    end
  else None.

(** [QStep]: any other step of a sub-queue.  [QProducer]: a thread enqueues for the
    first time. *)
Inductive mpmc_event :=
| QStep (i : nat) (e : sub_event)
| QRequest (i : nat) (answer : option ptr)
| QProducer (consumers : nat).

Definition mpmc_next (e : mpmc_event) (q : mpmc) : option (mpmc * result_in) :=
  match e with
  | QStep i e =>
      p ← subs (sub_queues q) !! i;
      if match e with SProducer _ _ => requisitioning p | _ => false end then None
      else
        '(s, r) ← shared_next (MStep i e) (sub_queues q);
        let q := set_subs s q in
        Some (match e with SEnqueue _ canAlloc => request i (RTest canAlloc) q | _ => q end, r)
  | QRequest i answer => rstep i answer q
  | QProducer c =>
      '(s, r) ← shared_next (MProducer c) (sub_queues q);
      let q := set_subs s q in
      Some ({| sub_queues := sub_queues q; requests := requests q ++ [RNone]; initialBlockPoolIndex := initialBlockPoolIndex q;
               initialBlockPool := initialBlockPool q; initialBlockPoolSize := initialBlockPoolSize q;
               dynamicallyAllocated := dynamicallyAllocated q |}, r)
  end.

Definition pipe_mpmc_enqueue (i : nat) (data : ptr) : mpmc_event := QStep i (SEnqueue data true).
Definition pipe_mpmc_try_enqueue (i : nat) (data : ptr) : mpmc_event := QStep i (SEnqueue data false).

Fixpoint mpmc_run (es : list mpmc_event) (q : mpmc) : option (mpmc * list (nat * result)) :=
  match es with
  | [] => Some (q, [])
  | e :: es =>
      '(q1, r) ← mpmc_next e q;
      '(q2, rs) ← mpmc_run es q1;
      Some (q2, option_list r ++ rs)
  end.

(** ** The end of the queue *)

(** The loop over the free list: the blocks that are freed. *)
Fixpoint destroy_free_list (dynamic : gset ptr) (l : list ptr) : list ptr :=
  match l with
  | [] => []
  | b :: l => if bool_decide (b ∈ dynamic) then b :: destroy_free_list dynamic l else destroy_free_list dynamic l
  end.

(** [destroy_array], with its assertion. *)
Definition destroy_array (p : ptr) (count : Z) : option (list ptr) :=
  if negb (p =? NULL) then if 0 <? count then Some [p] else None else Some [].

(** [l]: the free list in its order. *)
Definition pipe_mpmc_delete (l : list ptr) (q : mpmc) : option (list destroyed * list ptr) :=
  '(ds, _, fr) ← destroy_producers (reverse (subs (sub_queues q))) (common (sub_queues q)) (free (sub_queues q));
  array ← destroy_array (initialBlockPool q) (initialBlockPoolSize q);
  if bool_decide (l ≡ₚ base.elements fr) then Some (ds, destroy_free_list (dynamicallyAllocated q) l ++ array) else None.

(** ** The constructor *)

(** Blocks lie next to each other in the array. *)
Lemma in_array_block q i : 0 <= i < initialBlockPoolSize q -> in_array q (initial_block q i) = true.
Proof. intros Hi. unfold in_array, initial_block, sizeof_Block. apply andb_true_iff. rewrite Z.leb_le, Z.ltb_lt. lia. Qed.

Lemma initial_block_count_spec capacity : 0 <= capacity < 2 ^ 64 ->
  capacity <= BLOCK_SIZE * initial_block_count capacity < capacity + BLOCK_SIZE /\ 0 <= initial_block_count capacity <= 2 ^ 59.
Proof.
  intros Hc. unfold initial_block_count. pose proof (place_eq capacity) as Hp. unfold place in Hp. rewrite Hp. unfold BLOCK_SIZE.
  change (2 ^ 64) with 18446744073709551616 in Hc. change (2 ^ 59) with 576460752303423488. destruct (Z.eqb_spec (capacity mod 32) 0); dlia.
Qed.

(** What the library documents: memory that [malloc] returns is not at [NULL]. *)
Definition malloc_ok (malloc : Z -> option ptr) : Prop := forall n p, malloc n = Some p -> 0 < p.

(** The array of blocks that holds the elements of a capacity. *)
Definition blocks_for (capacity : Z) : Z := (capacity + 31) / 32.

Lemma initial_block_count_eq capacity : 0 <= capacity -> initial_block_count capacity = blocks_for capacity.
Proof.
  intros Hc. unfold initial_block_count, blocks_for. pose proof (place_eq capacity) as Hp. unfold place in Hp. rewrite Hp. unfold BLOCK_SIZE.
  destruct (Z.eqb_spec (capacity mod 32) 0); dlia.
Qed.

(** A negative capacity is a number of blocks whose size is not that of the request. *)
Lemma negative_count capacity : - 2 ^ 31 <= capacity < 0 ->
  0 < blocks_for (u64 capacity) /\ u64 (sizeof_Block * blocks_for (u64 capacity)) = 2 ^ 63 - sizeof_Block * (- capacity / 32) /\
  2 ^ 63 - sizeof_Block * (- capacity / 32) < sizeof_Block * blocks_for (u64 capacity).
Proof.
  intros Hc. unfold u64, blocks_for, sizeof_Block. change (2 ^ 31) with 2147483648 in Hc. change (2 ^ 63) with 9223372036854775808.
  change (2 ^ 64) with 18446744073709551616. split_and!; dlia.
Qed.

(** C18. [pipe_mpmc_new] for any [int], whatever [malloc] answers: the assertion of
    [create_array] holds.  A capacity that is not negative asks for memory of exactly
    the blocks it needs; the queue has them, and constructs them within that memory,
    or it has none when it needs none or the memory is refused.  A negative capacity is
    converted to a huge number of blocks and the product of that number and the size
    of a block wraps around: the request is for less memory than the constructor
    then writes.  It is only when that request, of about [2^63] bytes, is refused that
    the queue is constructed, without blocks; if it were granted, the behaviour is
    undefined. *)
Theorem mpmc_new_in_bounds malloc capacity :
  is_i32 capacity ->
  let made p n := Some {| sub_queues := no_subs; requests := []; initialBlockPoolIndex := 0; initialBlockPool := p;
                          initialBlockPoolSize := n; dynamicallyAllocated := ∅ |} in
  if 0 <=? capacity then
    let n := blocks_for capacity in
    pipe_mpmc_new malloc capacity =
      (if n =? 0 then made NULL 0 else match malloc (sizeof_Block * n) with Some p => made p n | None => made NULL 0 end)
  else
    pipe_mpmc_new malloc capacity =
      match malloc (2 ^ 63 - sizeof_Block * (- capacity / 32)) with Some _ => None | None => made NULL 0 end.
Proof.
  intros Hc made. unfold pipe_mpmc_new, populate_initial_block_list, create_array. unfold is_i32 in Hc.
  rewrite initial_block_count_eq by (unfold u64; dlia). destruct (Z.leb_spec 0 capacity) as [Hp|Hn]; cbv zeta.
  - rewrite (u64_small capacity) by (unfold is_u64; lia). assert (0 <= blocks_for capacity <= 2 ^ 31) by (unfold blocks_for; dlia).
    destruct (Z.eqb_spec (blocks_for capacity) 0) as [|Hz]; [done|]. rewrite (proj2 (Z.ltb_lt _ _)) by lia.
    rewrite u64_small by (unfold is_u64, sizeof_Block; lia). destruct (malloc _); [|done].
    by rewrite (proj2 (Z.leb_le _ _)) by lia.
  - destruct (negative_count capacity) as (Hpos & -> & Hlt); [lia|]. rewrite (proj2 (Z.eqb_neq _ _)), (proj2 (Z.ltb_lt _ _)) by lia.
    destruct (malloc _); [|done]. by rewrite (proj2 (Z.leb_gt _ _)) by lia.
Qed.

(** ** The invariant

    [k]: the number of steps; every step is at most two of SubQueues.v. *)
Definition fetching (c : rpc) : Z := match c with RFetch _ => 1 | _ => 0 end.

Record PInv (q : mpmc) (rs : list (nat * result)) (k : nat) : Prop := {
  pi_run : exists es, (length es <= 2 * k)%nat /\ shared_run es no_subs = Some (sub_queues q, rs);
  pi_requests : length (requests q) = length (subs (sub_queues q)) /\ (length (requests q) <= k)%nat;
  pi_index : 0 <= initialBlockPoolIndex q /\
    initialBlockPoolIndex q + sum fetching (requests q) <= initialBlockPoolSize q + Z.of_nat (length (requests q));
  pi_blocks : forall b, is_Some (common (sub_queues q) !! b) <-> b ∈ dynamicallyAllocated q \/
    exists j, 0 <= j < Z.min (initialBlockPoolIndex q) (initialBlockPoolSize q) /\ b = initial_block q j;
  pi_dynamic : forall b, b ∈ dynamicallyAllocated q -> in_array q b = false
}.

(** What no step changes. *)
Definition same_array (q q' : mpmc) : Prop :=
  initialBlockPool q' = initialBlockPool q /\ initialBlockPoolSize q' = initialBlockPoolSize q.

Lemma shared_run_snoc es e s s1 rs s2 r :
  shared_run es s = Some (s1, rs) -> shared_next e s1 = Some (s2, r) -> shared_run (es ++ [e]) s = Some (s2, rs ++ option_list r).
Proof.
  revert s rs. induction es as [|e' es IH]; intros s rs Hr Hn; simpl in Hr |- *.
  - injection Hr as -> <-. rewrite Hn. simpl. by rewrite app_nil_r.
  - destruct (shared_next e' s) as [[s' r']|]; [|done]. simpl in Hr |- *. destruct (shared_run es s') as [[s'' rs'']|] eqn:E; [|done].
    injection Hr as -> <-. rewrite (IH _ _ E Hn). simpl. by rewrite app_assoc.
Qed.

Lemma shared_next_blocks e s s' r : shared_next e s = Some (s', r) ->
  forall b, is_Some (common s' !! b) <-> is_Some (common s !! b) \/ match e with MFresh b' => b = b' | _ => False end.
Proof.
  intros Hs b. destruct e as [i e|b'|c]; simpl in Hs.
  - destruct (subs s !! i) as [p|]; [|done]. simpl in Hs. destruct (own e) eqn:Ho; [|done].
    destruct (sub_next e _) as [[p' r']|] eqn:En; [|done]. simpl in Hs. injection Hs as <- <-. simpl.
    rewrite <- !elem_of_dom, (sub_next_blocks _ _ _ _ En). destruct e; try done; simpl; tauto.
  - destruct (_ || _); [done|]. injection Hs as <- <-. simpl. destruct (decide (b = b')) as [->|Hn].
    + rewrite lookup_insert_eq. split; [by right|by eexists].
    + rewrite lookup_insert_ne by done. tauto.
  - injection Hs as <- <-. simpl. tauto.
Qed.

Lemma shared_next_length e s s' r : shared_next e s = Some (s', r) ->
  length (subs s') = (length (subs s) + match e with MProducer _ => 1 | _ => 0 end)%nat.
Proof.
  intros Hs. destruct e as [i e|b'|c]; simpl in Hs; repeat first [progress simplify_option_eq|case_match]; simpl.
  - rewrite length_insert. lia.
  - lia.
  - by rewrite length_app.
Qed.

Lemma fetching_nonneg c : 0 <= fetching c.
Proof. by destruct c. Qed.

(** The answer to a request: one step of the sub-queue, and the producer fetches no
    more. *)
Lemma answer_spec i got q q' r :
  answer_request i got q = Some (q', r) ->
  exists s, shared_next (MStep i (SProducer false got)) (sub_queues q) = Some (s, r) /\ q' = request i RNone (set_subs s q).
Proof.
  intros Ha. unfold answer_request in Ha. destruct (shared_next _ _) as [[s r']|]; [|done]. injection Ha as <- <-. by exists s.
Qed.

(** A step that leaves array and allocations alone. *)
Lemma PInv_step q rs k e s r cs :
  PInv q rs k -> shared_next e (sub_queues q) = Some (s, r) -> (forall b, e <> MFresh b) ->
  length cs = length (subs s) -> sum fetching cs <= sum fetching (requests q) ->
  PInv {| sub_queues := s; requests := cs; initialBlockPoolIndex := initialBlockPoolIndex q; initialBlockPool := initialBlockPool q;
          initialBlockPoolSize := initialBlockPoolSize q; dynamicallyAllocated := dynamicallyAllocated q |} (rs ++ option_list r) (S k).
Proof.
  intros [(es & Hl & Hr) [P1 P1'] [P2 P3] P4 P5] Hs He Hlen Hsum. pose proof (shared_next_length _ _ _ _ Hs) as Hn.
  constructor; simpl.
  - exists (es ++ [e]). rewrite length_app. simpl. split; [lia|]. by eapply shared_run_snoc.
  - split; [done|]. rewrite Hlen, Hn. destruct e; lia.
  - split; [done|]. rewrite Hlen, Hn. destruct e; lia.
  - intros b. rewrite (shared_next_blocks _ _ _ _ Hs b), <- P4. destruct e as [|b'|]; try tauto. by destruct (He b').
  - done.
Qed.

Lemma fetching_le cs : sum fetching cs <= Z.of_nat (length cs).
Proof. unfold sum. induction cs as [|c cs IH]; [done|]. cbn [map zsum length]. destruct c; cbn [fetching]; lia. Qed.

Lemma fetching_insert cs i c c' : cs !! i = Some c -> sum fetching (<[i := c']> cs) = sum fetching cs - fetching c + fetching c'.
Proof. apply sum_insert. Qed.

(** A step of [requisition_block] that answers nothing yet. *)
Lemma PInv_stay q rs k i c c' idx :
  PInv q rs k -> requests q !! i = Some c -> 0 <= idx ->
  idx + sum fetching (<[i := c']> (requests q)) <= initialBlockPoolSize q + Z.of_nat (length (requests q)) ->
  Z.min idx (initialBlockPoolSize q) = Z.min (initialBlockPoolIndex q) (initialBlockPoolSize q) ->
  PInv (request i c' (set_initialBlockPoolIndex idx q)) rs (S k).
Proof.
  intros [(es & Hl & Hr) [P1 P1'] _ P4 P5] Ec H0 Hi Hm. constructor; simpl; rewrite ?length_insert.
  - exists es. split; [lia|done].
  - split; [done|lia].
  - done.
  - intros b. by rewrite P4, Hm.
  - done.
Qed.

(** It answers with a block that is new. *)
Lemma PInv_new q rs k i c b idx X q' r :
  PInv q rs k -> requests q !! i = Some c -> 0 <= idx ->
  idx + sum fetching (<[i := RNone]> (requests q)) <= initialBlockPoolSize q + Z.of_nat (length (requests q)) ->
  (forall b', is_Some (common (sub_queues q) !! b') \/ b' = b <-> b' ∈ X \/
    exists j, 0 <= j < Z.min idx (initialBlockPoolSize q) /\ b' = initial_block q j) ->
  (forall b', b' ∈ X -> in_array q b' = false) ->
  answer_new i b (set_dynamic X (set_initialBlockPoolIndex idx q)) = Some (q', r) ->
  PInv q' (rs ++ option_list r) (S k) /\ same_array q q'.
Proof.
  intros [(es & Hl & Hr) [P1 P1'] _ P4 P5] Ec H0 Hi Hb HX Ha. unfold answer_new in Ha. cbn [sub_queues set_dynamic set_initialBlockPoolIndex] in Ha.
  destruct (shared_next (MFresh b) (sub_queues q)) as [[s1 r1]|] eqn:E1; [|done]. cbn [mbind option_bind] in Ha.
  destruct (answer_spec i (Some b) _ _ _ Ha) as (s2 & E2 & ->). cbn [sub_queues set_subs] in E2. split; [|done].
  assert (r1 = None) as -> by (simpl in E1; destruct (_ || _); [done|by injection E1]).
  pose proof (shared_next_length _ _ _ _ E1) as L1. pose proof (shared_next_length _ _ _ _ E2) as L2. simpl in L1, L2.
  constructor; simpl; rewrite ?length_insert.
  - exists ((es ++ [MFresh b]) ++ [MStep i (SProducer false (Some b))]). rewrite !length_app. simpl. split; [lia|].
    eapply shared_run_snoc; [|exact E2]. rewrite <- (app_nil_r rs). by eapply (shared_run_snoc _ _ _ _ _ _ None).
  - split; lia.
  - done.
  - intros b'. rewrite (shared_next_blocks _ _ _ _ E2 b'), (shared_next_blocks _ _ _ _ E1 b'). rewrite <- Hb. tauto.
  - done.
Qed.

Lemma PInv_answer q rs k i c got q' r :
  PInv q rs k -> requests q !! i = Some c -> answer_request i got q = Some (q', r) ->
  PInv q' (rs ++ option_list r) (S k) /\ same_array q q'.
Proof.
  intros P Ec Ha. destruct (answer_spec i got _ _ _ Ha) as (s & E & ->). split; [|done].
  eapply (PInv_step q rs k _ s r (<[i := RNone]> (requests q)) P E); [done| |].
  - rewrite length_insert, (shared_next_length _ _ _ _ E), (proj1 (pi_requests _ _ _ P)). lia.
  - rewrite (fetching_insert _ _ _ _ Ec). pose proof (fetching_nonneg c). simpl. lia.
Qed.

(** The block behind the index is no block yet. *)
Lemma initial_block_inj q j j' : initial_block q j = initial_block q j' -> j = j'.
Proof. unfold initial_block, sizeof_Block. lia. Qed.

Lemma initial_block_fresh q rs k : PInv q rs k -> initialBlockPoolIndex q < initialBlockPoolSize q ->
  common (sub_queues q) !! initial_block q (initialBlockPoolIndex q) = None.
Proof.
  intros P Hlt. destruct (common _ !! _) as [blk|] eqn:E; [|done]. exfalso. destruct (pi_index _ _ _ P) as [H0 _].
  destruct (proj1 (pi_blocks _ _ _ P _) (ex_intro _ _ E)) as [Hd|(j & Hj & Hb)].
  - apply (pi_dynamic _ _ _ P) in Hd. rewrite in_array_block in Hd by lia. done.
  - apply initial_block_inj in Hb. lia.
Qed.

Lemma request_index i c q : request i c q = request i c (set_initialBlockPoolIndex (initialBlockPoolIndex q) q).
Proof. done. Qed.

Lemma PInv_rstep q rs k i answer q' r :
  PInv q rs k -> initialBlockPoolSize q + Z.of_nat k < 2 ^ 64 -> rstep i answer q = Some (q', r) ->
  PInv q' (rs ++ option_list r) (S k) /\ same_array q q'.
Proof.
  intros P Hk Hs. destruct (pi_index _ _ _ P) as [H0 Hi]. pose proof (pi_requests _ _ _ P) as [Hlen Hlk].
  unfold rstep in Hs. destruct (subs (sub_queues q) !! i) as [p|] eqn:Ep; [|done]. cbn [mbind option_bind] in Hs.
  destruct (requests q !! i) as [c|] eqn:Ec; [|done]. cbn [mbind option_bind] in Hs. destruct (requisitioning p); [|done].
  pose proof (fun c' => fetching_insert _ _ _ c' Ec) as Hf. pose proof (fetching_le (requests q)).
  assert (forall c', sum fetching (<[i := c']> (requests q)) <= Z.of_nat (length (requests q))) as Hfl
    by (intros c'; etrans; [apply fetching_le|by rewrite length_insert]).
  destruct c as [|ca|ca|ca|]; [done| | | |].
  - injection Hs as <- <-. rewrite app_nil_r. split; [|done].
    rewrite request_index.
    eapply PInv_stay; [done|exact Ec|done| |done]. destruct (Z.leb_spec (initialBlockPoolSize q) (initialBlockPoolIndex q)).
    + rewrite Hf. simpl. lia.
    + specialize (Hfl (RFetch ca)). lia.
  - change (2 ^ 64) with 18446744073709551616 in Hk. rewrite u64_small in Hs.
    2:{ unfold is_u64. pose proof (sum_le _ _ _ _ fetching_nonneg Ec) as Hle. simpl in Hle. lia. }
    cbn [initialBlockPoolSize set_initialBlockPoolIndex] in Hs.
    destruct (Z.ltb_spec (initialBlockPoolIndex q) (initialBlockPoolSize q)) as [Hlt|Hge].
    + eapply (PInv_new q rs k i _ _ (initialBlockPoolIndex q + 1) (dynamicallyAllocated q)); [done|exact Ec|lia|rewrite Hf; simpl; lia| |apply P|exact Hs].
      intros b'. rewrite (pi_blocks _ _ _ P b'). split.
      * intros [[?|(j & Hj & ->)]| ->]; [by left| |]; right; [exists j; split; [lia|done]|].
        exists (initialBlockPoolIndex q). split; [lia|done].
      * intros [?|(j & Hj & ->)]; [by left; left|]. destruct (decide (j = initialBlockPoolIndex q)) as [->|]; [by right|].
        left. right. exists j. split; [lia|done].
    + injection Hs as <- <-. rewrite app_nil_r. split; [|done]. eapply PInv_stay; [done|exact Ec|lia|rewrite Hf; simpl; lia|lia].
  - destruct answer as [b|]; [by eapply PInv_answer|]. destruct ca; [|by eapply PInv_answer].
    injection Hs as <- <-. rewrite app_nil_r. split; [|done].
    rewrite request_index.
    eapply PInv_stay; [done|exact Ec|done|rewrite Hf; simpl; lia|done].
  - destruct answer as [b|]; [|by eapply PInv_answer]. destruct (in_array q b) eqn:Hb; [done|].
    replace (set_dynamic (dynamicallyAllocated q ∪ {[b]}) q) with
      (set_dynamic (dynamicallyAllocated q ∪ {[b]}) (set_initialBlockPoolIndex (initialBlockPoolIndex q) q)) in Hs by done.
    eapply (PInv_new q rs k i _ b (initialBlockPoolIndex q) (dynamicallyAllocated q ∪ {[b]})); [done|exact Ec|done|rewrite Hf; simpl; lia| | |exact Hs].
    + intros b'. rewrite (pi_blocks _ _ _ P b'), elem_of_union, elem_of_singleton. tauto.
    + intros b' [?|Hb']%elem_of_union; [by apply (pi_dynamic _ _ _ P)|apply elem_of_singleton in Hb' as ->; done].
Qed.

(** A producer that has asked or will ask for a block. *)
Definition asks (p : sub) : bool :=
  match producer (queue p), starting p with
  | PHead _ _, (QHead _ | QEntry _ | QGrow | QGrown | QKey _ _ | QTail _ _ | QRequisition _) => true
  | _, _ => false
  end.

Lemma cstep_producer i q q' r : cstep i q = Some (q', r) -> producer q' = producer q.
Proof. unfold cstep. destruct (consumers q !! i) as [c|]; [|done]. simpl. destruct c; intros Hs; repeat first [progress simplify_option_eq|case_match]; done. Qed.

Lemma sub_next_asks e p p' r : own e = true -> sub_next e p = Some (p', r) -> asks p' = true ->
  asks p = true /\ (requisitioning p = true -> match e with SProducer _ _ => False | _ => True end) \/
  match e with SEnqueue _ _ => True | _ => False end.
Proof.
  intros Ho Hs Ha. destruct e as [x ca|memory got|i|i|b|b blk]; try done; [by right|left..]; simpl in Hs.
  - unfold qstep, refuse, asks, requisitioning in *. destruct (producer (queue p)) eqn:Ep; [done|..]; destruct (starting p) eqn:Eq; try done;
      repeat first [progress simplify_option_eq|case_match]; simpl in *; simplify_eq; try done; unfold pstep in *; rewrite Ep in *; by simplify_eq.
  - destruct (lookups p !! i) as [[]|]; try done. destruct (consumers (queue p) !! i) as [[]|]; try done. by injection Hs as <- <-.
  - assert (producer (queue p') = producer (queue p) /\ starting p' = starting p) as [Hp Hq]; [|by unfold asks in *; rewrite Hp, Hq in Ha].
    unfold lstep in Hs. destruct (consumers (queue p) !! i) as [c|] eqn:Ec; [|done]. destruct (lookups p !! i) as [l|]; [|done]. simpl in Hs.
    destruct (cstep i (queue p)) as [[q1 r1]|] eqn:E1; [apply cstep_producer in E1|];
      destruct l, c; try done; repeat first [progress simplify_option_eq|case_match]; done.
Qed.

Definition Asked (q : mpmc) : Prop :=
  forall i p, subs (sub_queues q) !! i = Some p -> asks p = true -> exists c, requests q !! i = Some c /\ c <> RNone.

Lemma shared_step_inv i e s s' r : shared_next (MStep i e) s = Some (s', r) ->
  exists p p' r', subs s !! i = Some p /\ own e = true /\ sub_next e (inside_of (common s) (free s) p) = Some (p', r') /\
    subs s' = <[i := p']> (subs s).
Proof.
  intros Hs. simpl in Hs. destruct (subs s !! i) as [p|]; [|done]. simpl in Hs. destruct (own e); [|done].
  destruct (sub_next e _) as [[p' r']|] eqn:E; [|done]. simpl in Hs. injection Hs as <- <-. by exists p, p', r'.
Qed.

Lemma Asked_answer q i got q' r p :
  Asked q -> subs (sub_queues q) !! i = Some p -> requisitioning p = true -> answer_request i got q = Some (q', r) -> Asked q'.
Proof.
  intros HA Ep Hq Ha. destruct (answer_spec _ _ _ _ _ Ha) as (s & Hs & ->).
  destruct (shared_step_inv _ _ _ _ _ Hs) as (p0 & p' & r' & Ep0 & Ho & Hn & Hsub). assert (p0 = p) as -> by congruence.
  intros j pj Ej Hj. simpl in Ej |- *. rewrite Hsub in Ej. destruct (decide (i = j)) as [<-|Hij].
  - rewrite list_lookup_insert_eq in Ej by (by eapply lookup_lt_Some). injection Ej as <-.
    destruct (sub_next_asks _ _ _ _ Ho Hn Hj) as [[_ Hf]|[]]. by destruct (Hf Hq).
  - rewrite list_lookup_insert_ne in Ej by done. rewrite list_lookup_insert_ne by done. by eapply HA.
Qed.

Lemma Asked_new q i b q' r p :
  Asked q -> subs (sub_queues q) !! i = Some p -> requisitioning p = true -> answer_new i b q = Some (q', r) -> Asked q'.
Proof.
  intros HA Ep Hq Ha. unfold answer_new in Ha. destruct (shared_next (MFresh b) _) as [[s r']|] eqn:E; [|done]. cbn [mbind option_bind] in Ha.
  assert (subs s = subs (sub_queues q)) as Hs by (simpl in E; destruct (_ || _); [done|by injection E as <- <-]).
  eapply (Asked_answer (set_subs s q)); [|simpl; by rewrite Hs|done|exact Ha]. intros j pj. simpl. rewrite Hs. apply HA.
Qed.

Lemma Asked_stay q i c : Asked q -> c <> RNone -> Asked (request i c q).
Proof.
  intros HA Hc j p Ej Hj. simpl in *. destruct (HA j p Ej Hj) as (c' & Ec & Hc'). destruct (decide (i = j)) as [<-|Hij].
  - exists c. by rewrite list_lookup_insert_eq by (by eapply lookup_lt_Some).
  - exists c'. by rewrite list_lookup_insert_ne.
Qed.

Lemma Asked_rstep q i answer q' r : Asked q -> rstep i answer q = Some (q', r) -> Asked q'.
Proof.
  intros HA Hs. unfold rstep in Hs. destruct (subs (sub_queues q) !! i) as [p|] eqn:Ep; [|done]. cbn [mbind option_bind] in Hs.
  destruct (requests q !! i) as [c|]; [|done]. cbn [mbind option_bind] in Hs. destruct (requisitioning p) eqn:Hq; [|done].
  destruct c as [|ca|ca|ca|]; [done| | | |].
  - injection Hs as <- <-. apply Asked_stay; [done|by case_match].
  - cbn [initialBlockPoolSize set_initialBlockPoolIndex] in Hs. case_match.
    + by eapply (Asked_new (set_initialBlockPoolIndex _ q)).
    + injection Hs as <- <-. by apply (Asked_stay (set_initialBlockPoolIndex _ q)).
  - destruct answer as [b|]; [by eapply Asked_answer|]. destruct ca; [|by eapply Asked_answer]. injection Hs as <- <-. by apply Asked_stay.
  - destruct answer as [b|]; [|by eapply Asked_answer]. case_match; [done|].
    by eapply (Asked_new (set_dynamic _ q)).
Qed.

(** *** All steps *)
Lemma mpmc_next_inv q rs k e q' r :
  PInv q rs k -> Asked q -> initialBlockPoolSize q + Z.of_nat k < 2 ^ 64 -> mpmc_next e q = Some (q', r) ->
  PInv q' (rs ++ option_list r) (S k) /\ Asked q' /\ same_array q q'.
Proof.
  intros P HA Hk Hs. pose proof (pi_requests _ _ _ P) as [Hlen _]. destruct e as [i e|i answer|c].
  - cbn [mpmc_next] in Hs. destruct (subs (sub_queues q) !! i) as [p|] eqn:Ep; [|done]. cbn [mbind option_bind] in Hs.
    destruct (match e with SProducer _ _ => requisitioning p | _ => false end) eqn:Hq; [done|].
    destruct (shared_next (MStep i e) (sub_queues q)) as [[s r']|] eqn:E; [|done]. cbn [mbind option_bind] in Hs. injection Hs as Hs <-.
    destruct (shared_step_inv _ _ _ _ _ E) as (p0 & p' & r0 & Ep0 & Ho & Hn & Hsub). assert (p0 = p) as -> by congruence.
    pose proof (shared_next_length _ _ _ _ E) as Hl. simpl in Hl. rewrite Nat.add_0_r in Hl.
    set (cs := match e with SEnqueue _ ca => <[i := RTest ca]> (requests q) | _ => requests q end).
    assert (q' = {| sub_queues := s; requests := cs; initialBlockPoolIndex := initialBlockPoolIndex q; initialBlockPool := initialBlockPool q;
      initialBlockPoolSize := initialBlockPoolSize q; dynamicallyAllocated := dynamicallyAllocated q |}) as -> by (subst q'; by destruct e).
    destruct (lookup_lt_is_Some_2 (requests q) i) as [c Ec]; [rewrite Hlen; by eapply lookup_lt_Some|].
    split; [|split; [|done]].
    + eapply PInv_step; [done|exact E|done| |].
      * unfold cs. destruct e; rewrite ?length_insert; lia.
      * unfold cs. destruct e; try lia. rewrite (fetching_insert _ _ _ _ Ec). pose proof (fetching_nonneg c). simpl. lia.
    + intros j pj Ej Hj. simpl in Ej |- *. rewrite Hsub in Ej. unfold cs. destruct (decide (i = j)) as [<-|Hij].
      * rewrite list_lookup_insert_eq in Ej by (by eapply lookup_lt_Some). injection Ej as <-.
        destruct (sub_next_asks _ _ _ _ Ho Hn Hj) as [[Ha _]|He].
        -- destruct e; try (by apply (HA i p)). exists (RTest canAlloc). by rewrite list_lookup_insert_eq by (by eapply lookup_lt_Some).
        -- destruct e; try done. exists (RTest canAlloc). by rewrite list_lookup_insert_eq by (by eapply lookup_lt_Some).
      * rewrite list_lookup_insert_ne in Ej by done. destruct e; rewrite ?list_lookup_insert_ne by done; by apply (HA j pj).
  - destruct (PInv_rstep _ _ _ _ _ _ _ P Hk Hs) as [P' Hsame]. split; [done|]. split; [by eapply Asked_rstep|done].
  - cbn [mpmc_next] in Hs. destruct (shared_next (MProducer c) (sub_queues q)) as [[s r']|] eqn:E; [|done]. cbn [mbind option_bind] in Hs.
    injection Hs as <- <-. simpl. pose proof E as E'. cbn [shared_next] in E'. injection E' as <- <-. split; [|split; [|done]].
    + eapply PInv_step; [done|exact E|done| |].
      * simpl. rewrite !length_app. simpl. lia.
      * unfold sum. rewrite map_app, zsum_app. simpl. lia.
    + intros j pj Ej Hj. simpl in Ej. apply lookup_app_Some in Ej as [Ej|[_ Ej]].
      * destruct (HA j pj Ej Hj) as (c' & Ec & Hc). exists c'. split; [by apply lookup_app_l_Some|done].
      * apply list_lookup_singleton_Some in Ej as [_ <-]. done.
Qed.

Lemma mpmc_run_inv es : forall q rs k q' rs',
  PInv q rs k -> Asked q -> initialBlockPoolSize q + Z.of_nat (k + length es) < 2 ^ 64 -> mpmc_run es q = Some (q', rs') ->
  PInv q' (rs ++ rs') (k + length es) /\ Asked q' /\ same_array q q'.
Proof.
  induction es as [|e es IH]; intros q rs k q' rs' P HA Hk Hr; simpl in Hr.
  - injection Hr as <- <-. by rewrite app_nil_r, Nat.add_0_r.
  - destruct (mpmc_next e q) as [[q1 r]|] eqn:En; [|done]. simpl in Hr. destruct (mpmc_run es q1) as [[q2 rs2]|] eqn:Er; [|done].
    injection Hr as <- <-. rewrite length_cons in *.
    destruct (mpmc_next_inv _ _ _ _ _ _ P HA ltac:(lia) En) as (P1 & A1 & S1 & S2).
    destruct (IH _ _ _ _ _ P1 A1 ltac:(rewrite S2; lia) Er) as (P2 & A2 & S3 & S4). rewrite app_assoc, Nat.add_succ_r.
    split; [done|]. split; [done|]. split; congruence.
Qed.

Lemma new_inv malloc capacity q : pipe_mpmc_new malloc capacity = Some q -> PInv q [] 0 /\ Asked q.
Proof.
  unfold pipe_mpmc_new. intros Hq. destruct (populate_initial_block_list _ _) as [[p n]|] eqn:Ep; [|done]. injection Hq as <-.
  assert (0 <= n) as Hn.
  { unfold populate_initial_block_list, create_array in Ep. destruct (_ =? 0); [by injection Ep as <- <-|].
    destruct (Z.ltb_spec 0 (initial_block_count (u64 capacity))) as [Hp|]; [|done]. cbv zeta in Ep.
    destruct (malloc _); [|injection Ep as <- <-; lia]. destruct (_ <=? _); [|done]. injection Ep as <- <-. lia. }
  split; [|done]. constructor; simpl; try done.
  - exists []. simpl. split; [lia|done].
  - split; [done|]. unfold sum. simpl. lia.
  - intros b. rewrite lookup_empty. split; [by intros []|]. intros [?|(j & ? & _)]; [set_solver|lia].
Qed.

(** ** The theorems *)
Lemma new_array malloc capacity q : malloc_ok malloc -> pipe_mpmc_new malloc capacity = Some q ->
  0 <= initialBlockPoolSize q <= 2 ^ 59 /\ (0 < initialBlockPoolSize q -> 0 < initialBlockPool q) /\
  (initialBlockPoolSize q = 0 -> initialBlockPool q = NULL).
Proof.
  intros Hm Hq. unfold pipe_mpmc_new in Hq. destruct (populate_initial_block_list _ _) as [[p n]|] eqn:Ep; [|done]. injection Hq as <-. simpl.
  assert (0 <= u64 capacity < 2 ^ 64) as Hu by (unfold u64; change (2 ^ 64) with 18446744073709551616; apply Z.mod_pos_bound; lia).
  destruct (initial_block_count_spec _ Hu) as [_ Hn]. unfold populate_initial_block_list, create_array in Ep.
  destruct (_ =? 0) eqn:E0; [injection Ep as <- <-; by split; [lia|split; [lia|]]|].
  destruct (Z.ltb_spec 0 (initial_block_count (u64 capacity))) as [Hp|]; [|done]. cbv zeta in Ep.
  destruct (malloc _) as [a|] eqn:Em; [destruct (_ <=? _); [|done]|]; injection Ep as <- <-.
  - specialize (Hm _ _ Em). split; [lia|]. split; [done|lia].
  - split; [lia|]. split; [lia|done].
Qed.

Lemma mpmc_start malloc capacity q0 es q rs :
  malloc_ok malloc -> pipe_mpmc_new malloc capacity = Some q0 -> mpmc_run es q0 = Some (q, rs) ->
  2 * Z.of_nat (length es) + 35 < 2 ^ 63 ->
  PInv q rs (length es) /\ Asked q /\ same_array q0 q /\ exists k ow, Joint (sub_queues q) rs k ow /\ Z.of_nat k + 35 < 2 ^ 63.
Proof.
  intros Hm Hq Hr Hk. destruct (new_inv _ _ _ Hq) as [P A]. destruct (new_array _ _ _ Hm Hq) as [Hs _].
  destruct (mpmc_run_inv es q0 [] 0 q rs P A) as (P' & A' & S); [|done|].
  { change (2 ^ 59) with 576460752303423488 in Hs. change (2 ^ 63) with 9223372036854775808 in Hk. change (2 ^ 64) with 18446744073709551616. lia. }
  split; [done|]. split; [done|]. split; [done|]. destruct (pi_run _ _ _ P') as (es' & Hl & Hrun).
  destruct (joint_start es' _ _ ltac:(simpl in Hl; lia) Hrun) as [ow J]. exists (length es'), ow. split; [done|]. simpl in Hl. lia.
Qed.

(** An answer to a request that keeps the contracts of the free list and of [malloc]. *)
Definition answers (q : mpmc) (i : nat) (answer : option ptr) : Prop :=
  forall b, answer = Some b ->
  match requests q !! i with
  | Some (RFreeList _) => b ∈ free (sub_queues q)
  | Some RCreate => b <> NULL /\ common (sub_queues q) !! b = None /\ in_array q b = false
  | _ => True
  end.

Lemma requisitioning_asks p : requisitioning p = true -> asks p = true /\ producer (queue p) <> PIdle.
Proof. unfold requisitioning, asks. by destruct (producer (queue p)), (starting p). Qed.

Lemma answer_request_some s rs k ow q i got p :
  Joint s rs k ow -> Z.of_nat k + 33 < 2 ^ 63 -> sub_queues q = s -> subs s !! i = Some p -> producer (queue p) <> PIdle ->
  (forall b, got = Some b -> b ∈ free s) -> is_Some (answer_request i got q).
Proof.
  intros J Hk Hs Ep Hp Hg. destruct (sub_queues_safe _ _ _ _ J Hk _ _ Ep) as (Hsafe & _). destruct (Hsafe Hp false got Hg) as [[s' r] E].
  unfold answer_request. rewrite Hs, E. by eexists.
Qed.

Lemma answer_new_some s rs k ow q i b p :
  Joint s rs k ow -> Z.of_nat k + 35 < 2 ^ 63 -> sub_queues q = s -> subs s !! i = Some p -> producer (queue p) <> PIdle ->
  b <> NULL -> common s !! b = None -> is_Some (answer_new i b q).
Proof.
  intros J Hk Hs Ep Hp Hn Hb. unfold answer_new. rewrite Hs. destruct (shared_next (MFresh b) s) as [[s' r]|] eqn:E.
  - pose proof (joint_fresh _ _ _ _ _ _ _ J E) as J'. cbn [mbind option_bind].
    assert (subs s' = subs s /\ b ∈ free s') as [Hsub Hf].
    { simpl in E. destruct (_ || _); [done|]. injection E as <- _. simpl. set_solver. }
    eapply (answer_request_some s'); [exact J'|lia|done|by rewrite Hsub|done|]. by intros b' [= <-].
  - simpl in E. rewrite bool_decide_eq_false_2, Hb, bool_decide_eq_false_2 in E by (try done; by intros []). done.
Qed.

(** C17. From the constructor on, in any interleaving of fewer than [2^62 - 17] steps:
    the index into the array of initial blocks exceeds its size by no more than the
    number of sub-queues, so that it does not wrap around; a producer that needs a
    block can always take the next step of [requisition_block], the block that the
    array gives is never one that is in use, and producers and consumers in the
    middle of an operation can always take their next step. *)
Theorem mpmc_safe malloc capacity q0 es q rs :
  malloc_ok malloc -> pipe_mpmc_new malloc capacity = Some q0 -> mpmc_run es q0 = Some (q, rs) ->
  2 * Z.of_nat (length es) + 35 < 2 ^ 63 ->
  0 <= initialBlockPoolIndex q <= initialBlockPoolSize q + Z.of_nat (length (subs (sub_queues q))) /\
  forall i p, subs (sub_queues q) !! i = Some p ->
    (requisitioning p = true -> forall answer, answers q i answer -> is_Some (mpmc_next (QRequest i answer) q)) /\
    (producer (queue p) <> PIdle -> requisitioning p = false -> forall memory, is_Some (mpmc_next (QStep i (SProducer memory None)) q)) /\
    (forall j c l, consumers (queue p) !! j = Some c -> lookups p !! j = Some l -> ~ (c = CIdle /\ l = LNone) ->
       is_Some (mpmc_next (QStep i (SConsumer j)) q)).
Proof.
  intros Hm Hq Hr Hk. destruct (mpmc_start _ _ _ _ _ _ Hm Hq Hr Hk) as (P & A & (Hp & Hs) & k & ow & J & Hk').
  destruct (new_array _ _ _ Hm Hq) as (Hsize & Hpos & _). rewrite <- Hs in Hsize, Hpos. rewrite <- Hp in Hpos.
  destruct (pi_index _ _ _ P) as [H0 Hi]. pose proof (sum_nonneg fetching (requests q) fetching_nonneg).
  rewrite (proj1 (pi_requests _ _ _ P)) in Hi. split; [lia|]. intros i p Ep.
  destruct (sub_queues_safe _ _ _ _ J ltac:(lia) _ _ Ep) as (Hprod & Hcons & _). split; [|split].
  - intros Hreq answer Ha. destruct (requisitioning_asks _ Hreq) as [Hask Hbusy]. destruct (A i p Ep Hask) as (c & Ec & Hc).
    unfold answers in Ha. rewrite Ec in Ha. cbn [mpmc_next]. unfold rstep. rewrite Ep. cbn [mbind option_bind]. rewrite Ec. cbn [mbind option_bind].
    rewrite Hreq. destruct c as [|ca|ca|ca|]; [done|by eexists| | |].
    + cbn [initialBlockPoolSize set_initialBlockPoolIndex]. destruct (Z.ltb_spec (initialBlockPoolIndex q) (initialBlockPoolSize q)) as [Hlt|]; [|by eexists].
      eapply answer_new_some; [exact J|done|done|exact Ep|done| |exact (initial_block_fresh q rs _ P Hlt)].
      unfold initial_block, sizeof_Block, NULL. simpl. lia.
    + destruct answer as [b|]; [|destruct ca; [by eexists|]]; (eapply answer_request_some; [exact J|lia|done|exact Ep|done|done]).
    + destruct answer as [b|]; [|by eapply answer_request_some; [exact J|lia|done|exact Ep|done|done]].
      destruct (Ha b eq_refl) as (Hn & Hb & Harr). rewrite Harr. by eapply answer_new_some.
  - intros Hbusy Hreq memory. destruct (Hprod Hbusy memory None ltac:(done)) as [[s r] E]. cbn [mpmc_next]. rewrite Ep. cbn [mbind option_bind].
    rewrite Hreq, E. by eexists.
  - intros j c l Ec El Hn. destruct (Hcons j c l Ec El Hn) as [[s r] E]. cbn [mpmc_next]. rewrite Ep. cbn [mbind option_bind]. rewrite E. by eexists.
Qed.

Lemma destroy_free_list_spec X l : X ⊆ list_to_set l -> NoDup l -> destroy_free_list X l ≡ₚ base.elements X.
Proof.
  intros Hs Hnd. assert (destroy_free_list X l = filter (fun b => b ∈ X) l) as ->.
  { clear. induction l as [|b l IH]; [done|]. cbn [destroy_free_list]. rewrite filter_cons, IH.
    destruct (bool_decide_reflect (b ∈ X)); by case_decide. }
  apply NoDup_Permutation; [by apply NoDup_filter|apply NoDup_elements|]. intros b. rewrite list_elem_of_filter, elem_of_elements. set_solver.
Qed.

(** C12. [pipe_mpmc_delete] after any such run that leaves no operation under way: it
    succeeds, every element ever enqueued has been dequeued or is destroyed, exactly
    once, and it frees every block that was allocated on demand and the array of
    initial blocks, if there is one, exactly once each, and nothing else.  [l] is the
    free list at its end, in any order. *)
Theorem mpmc_delete_frees malloc capacity q0 es q rs :
  malloc_ok malloc -> pipe_mpmc_new malloc capacity = Some q0 -> mpmc_run es q0 = Some (q, rs) ->
  2 * Z.of_nat (length es) + 35 < 2 ^ 63 ->
  (forall i p, subs (sub_queues q) !! i = Some p -> sub_idle p) ->
  forall l, l ≡ₚ base.elements (dom (common (sub_queues q))) ->
  exists ds freed, pipe_mpmc_delete l q = Some (ds, freed) /\
    freed ≡ₚ base.elements (dynamicallyAllocated q) ++ (if initialBlockPoolSize q =? 0 then [] else [initialBlockPool q]) /\
    length ds = length (subs (sub_queues q)) /\
    forall i p d, subs (sub_queues q) !! i = Some p -> reverse ds !! i = Some d -> destroyed_well rs i p d.
Proof.
  intros Hm Hq Hr Hk Hidle l Hl. destruct (mpmc_start _ _ _ _ _ _ Hm Hq Hr Hk) as (P & _ & (Hp & Hs) & k & ow & J & Hk').
  destruct (new_array _ _ _ Hm Hq) as (Hsize & Hpos & Hnull). rewrite <- Hs in Hsize, Hpos, Hnull. rewrite <- Hp in Hpos, Hnull.
  destruct (sub_queues_destroyed _ _ _ _ J ltac:(lia) Hidle) as (ds & bs & fr & Hd & -> & Hlen & Hw).
  exists ds. unfold pipe_mpmc_delete. rewrite Hd. cbn [mbind option_bind].
  assert (destroy_array (initialBlockPool q) (initialBlockPoolSize q) = Some (if initialBlockPoolSize q =? 0 then [] else [initialBlockPool q])) as ->.
  { unfold destroy_array. destruct (Z.eqb_spec (initialBlockPoolSize q) 0) as [Hz|Hz].
    - rewrite Hnull by done. done.
    - specialize (Hpos ltac:(lia)). unfold NULL. rewrite (proj2 (Z.eqb_neq (initialBlockPool q) 0)) by lia. simpl.
      by rewrite (proj2 (Z.ltb_lt _ _)) by lia. }
  cbn [mbind option_bind]. rewrite bool_decide_eq_true_2 by done. eexists. split; [done|]. split; [|done].
  f_equiv. apply destroy_free_list_spec; [|rewrite Hl; apply NoDup_elements]. intros b Hb. rewrite elem_of_list_to_set, Hl, elem_of_elements, elem_of_dom.
  apply (pi_blocks _ _ _ P). by left.
Qed.

(** ** Without allocation *)

(** A sub-queue that may not allocate. *)
Definition frugal (p : sub) : Prop :=
  match starting p with QHead true | QEntry true | QGrow | QGrown => False | _ => True end /\ length (headers (blocks_index p)) = 1%nat.

Definition allocates (e : sub_event) : bool := match e with SEnqueue _ ca => ca | _ => false end.

Lemma frugal_next e p p' r : allocates e = false -> own e = true -> sub_next e p = Some (p', r) -> frugal p -> frugal p'.
Proof.
  intros Ha Ho Hs [Hf Hh]. destruct e as [x ca|memory got|i|i|b|b blk]; try done; simpl in Hs, Ha.
  - subst ca. repeat first [progress simplify_option_eq|case_match]; by split.
  - unfold qstep, refuse in Hs. destruct (producer (queue p)); [done|..]; destruct (starting p) eqn:Eq; try done; unfold frugal;
      repeat first [progress simplify_option_eq|case_match]; simpl; rewrite ?length_alter; by rewrite ?Eq.
  - unfold frugal. repeat first [progress simplify_option_eq|case_match]; by simpl.
  - assert (starting p' = starting p /\ length (headers (blocks_index p')) = length (headers (blocks_index p))) as [Hq Hx];
      [|unfold frugal; by rewrite Hq, Hx].
    unfold lstep in Hs. destruct (consumers (queue p) !! i) as [c|]; [|done]. destruct (lookups p !! i) as [l|]; [|done]. simpl in Hs.
    destruct l, c; try done; repeat first [progress simplify_option_eq|case_match]; done.
Qed.

Definition may_allocate (c : rpc) : bool :=
  match c with RNone => false | RTest ca | RFetch ca | RFreeList ca => ca | RCreate => true end.

Definition all_frugal (s : shared) : Prop := forall p, p ∈ subs s -> frugal p.

Record Frugal (q : mpmc) : Prop := {
  fr_dynamic : dynamicallyAllocated q = ∅;
  fr_requests : forall c, c ∈ requests q -> may_allocate c = false;
  fr_subs : all_frugal (sub_queues q)
}.

Lemma elem_of_insert_cases {A} (x y : A) (l : list A) (i : nat) : x ∈ <[i := y]> l -> x = y \/ x ∈ l.
Proof.
  intros [j Hj]%list_elem_of_lookup. apply list_lookup_insert_Some in Hj as [(_ & -> & _)|[_ E]]; [by left|]. right. by eapply list_elem_of_lookup_2.
Qed.

Lemma frugal_shared e s s' r :
  match e with MStep _ e => allocates e = false | _ => True end -> shared_next e s = Some (s', r) -> all_frugal s -> all_frugal s'.
Proof.
  intros He Hs Hf. destruct e as [i e|b|c].
  - destruct (shared_step_inv _ _ _ _ _ Hs) as (p & p' & r' & Ep & Ho & Hn & Hsub). intros q Hq. rewrite Hsub in Hq.
    apply elem_of_insert_cases in Hq as [->|Hq]; [|by apply Hf]. eapply frugal_next; [exact He|exact Ho|exact Hn|].
    change (frugal p). apply Hf. by eapply list_elem_of_lookup_2.
  - simpl in Hs. case_match; [done|]. by injection Hs as <- <-.
  - injection Hs as <- <-. intros p [Hp|Hp]%elem_of_app; [by apply Hf|]. apply list_elem_of_singleton in Hp as ->. done.
Qed.

Lemma requests_insert (cs : list rpc) (i : nat) c : may_allocate c = false -> (forall c, c ∈ cs -> may_allocate c = false) ->
  forall c', c' ∈ <[i := c]> cs -> may_allocate c' = false.
Proof. intros Hc Hcs c' [->|Hin]%elem_of_insert_cases; [done|by apply Hcs]. Qed.

Lemma Frugal_answer q i got q' r : Frugal q -> answer_request i got q = Some (q', r) -> Frugal q'.
Proof.
  intros [F1 F2 F3] Ha. destruct (answer_spec _ _ _ _ _ Ha) as (s & Hs & ->). constructor; [done|by apply requests_insert|].
  exact (frugal_shared (MStep i (SProducer false got)) _ _ _ eq_refl Hs F3).
Qed.

Lemma Frugal_next q e q' r :
  match e with QStep _ e => allocates e = false | _ => True end -> mpmc_next e q = Some (q', r) -> Frugal q -> Frugal q'.
Proof.
  intros He Hs [F1 F2 F3]. destruct e as [i e|i answer|c]; cbn [mpmc_next] in Hs.
  - destruct (subs (sub_queues q) !! i) as [p|]; [|done]. cbn [mbind option_bind] in Hs. destruct (match e with SProducer _ _ => _ | _ => _ end); [done|].
    destruct (shared_next (MStep i e) _) as [[s r']|] eqn:E; [|done]. cbn [mbind option_bind] in Hs. injection Hs as <- <-.
    pose proof (frugal_shared (MStep i e) _ _ _ He E F3). destruct e; try (by constructor). simpl in He. subst canAlloc.
    constructor; [done|by apply requests_insert|done].
  - unfold rstep in Hs. destruct (subs (sub_queues q) !! i) as [p|]; [|done]. cbn [mbind option_bind] in Hs.
    destruct (requests q !! i) as [c|] eqn:Ec; [|done]. cbn [mbind option_bind] in Hs. destruct (requisitioning p); [|done].
    pose proof (F2 c (list_elem_of_lookup_2 _ _ _ Ec)) as Hc. destruct c as [|ca|ca|ca|]; simpl in Hc; try done; subst ca.
    + injection Hs as <- <-. constructor; [done| |done]. apply requests_insert; [by case_match|done].
    + cbn [initialBlockPoolSize set_initialBlockPoolIndex] in Hs. case_match.
      * unfold answer_new in Hs. destruct (shared_next (MFresh _) _) as [[s r']|] eqn:E; [|done]. cbn [mbind option_bind] in Hs.
        eapply Frugal_answer; [|exact Hs]. constructor; [done|done|]. exact (frugal_shared (MFresh _) _ _ _ I E F3).
      * injection Hs as <- <-. constructor; [done| |done]. by apply requests_insert.
    + by destruct answer; eapply Frugal_answer.
  - destruct (shared_next (MProducer c) _) as [[s r']|] eqn:E; [|done]. cbn [mbind option_bind] in Hs. injection Hs as <- <-.
    constructor; [done| |exact (frugal_shared (MProducer c) _ _ _ I E F3)]. simpl. intros c' [Hin|Hin]%elem_of_app; [by apply F2|].
    by apply list_elem_of_singleton in Hin as ->.
Qed.

(** A queue that is only used with [pipe_mpmc_try_enqueue] allocates nothing
    after the constructor but what a thread's first call needs: in every
    interleaving no block is allocated, every block in use or on the free list is
    one of the array, and no block index grows. *)
Theorem try_enqueue_never_allocates malloc capacity q0 es q rs :
  malloc_ok malloc -> pipe_mpmc_new malloc capacity = Some q0 -> mpmc_run es q0 = Some (q, rs) ->
  2 * Z.of_nat (length es) + 35 < 2 ^ 63 ->
  (forall i x, pipe_mpmc_enqueue i x ∉ es) ->
  dynamicallyAllocated q = ∅ /\
  (forall b, is_Some (common (sub_queues q) !! b) -> exists j, 0 <= j < initialBlockPoolSize q /\ b = initial_block q j) /\
  forall i p, subs (sub_queues q) !! i = Some p -> length (headers (blocks_index p)) = 1%nat.
Proof.
  intros Hm Hq Hr Hk He. destruct (mpmc_start _ _ _ _ _ _ Hm Hq Hr Hk) as (P & _ & _).
  assert (Frugal q0 -> Frugal q) as HF.
  { clear Hm Hq Hk P. revert q0 rs Hr. induction es as [|e es IH]; intros q0 rs Hr F; simpl in Hr; [by injection Hr as <- <-|].
    destruct (mpmc_next e q0) as [[q1 r]|] eqn:En; [|done]. simpl in Hr. destruct (mpmc_run es q1) as [[q2 rs2]|] eqn:Er; [|done].
    injection Hr as <- <-. eapply IH; [intros i x Hin; apply (He i x); by right|exact Er|]. eapply Frugal_next; [|exact En|done].
    destruct e as [i e| |]; [|done..]. destruct e as [x ca| | | | |]; try done. destruct ca; [|done]. destruct (He i x). by left. }
  destruct HF as [F1 F2 F3].
  { unfold pipe_mpmc_new in Hq. destruct (populate_initial_block_list _ _) as [[a n]|]; [|done]. injection Hq as <-.
    constructor; [done|..]; by intros x ?%elem_of_nil. }
  split; [done|]. split.
  - intros b Hb. apply (pi_blocks _ _ _ P) in Hb as [Hb|(j & Hj & ->)]; [rewrite F1 in Hb; set_solver|]. exists j. split; [lia|done].
  - intros i p Ep. apply F3. by eapply list_elem_of_lookup_2.
Qed.

(** ** Witnesses

    A queue with room for one block in its array; two threads enqueue, so that the
    second needs a block from the heap. *)
Definition example_malloc (n : Z) : option ptr := if n <=? 1048576 then Some 4096 else None.

Lemma example_malloc_ok : malloc_ok example_malloc.
Proof.
  unfold malloc_ok, example_malloc. intros n p. destruct (Z.leb_spec n 1048576); [|done]. intros [= <-]. lia.
Qed.

Definition example_queue : mpmc := default (Build_mpmc no_subs [] 0 0 0 ∅) (pipe_mpmc_new example_malloc 32).

Definition enqueue_in (i : nat) (x : ptr) (canAlloc : bool) (answers : list (option ptr)) : list mpmc_event :=
  (if canAlloc then pipe_mpmc_enqueue i x else pipe_mpmc_try_enqueue i x) :: replicate 4 (QStep i (SProducer false None)) ++ map (QRequest i) answers ++
  replicate 4 (QStep i (SProducer false None)).

Definition asking : list mpmc_event :=
  [QProducer 1; QProducer 1] ++ enqueue_in 0 7 true [None; None] ++
  pipe_mpmc_enqueue 1 8 :: replicate 4 (QStep 1 (SProducer false None)) ++ [QRequest 1 None].

Definition allocated : list mpmc_event :=
  asking ++ [QRequest 1 None; QRequest 1 (Some 8192)] ++ replicate 4 (QStep 1 (SProducer false None)) ++ map (QStep 0) (deq 0).

Definition tried : list mpmc_event :=
  [QProducer 1; QProducer 1] ++ enqueue_in 0 7 false [None; None] ++
  pipe_mpmc_try_enqueue 1 8 :: replicate 4 (QStep 1 (SProducer false None)) ++
  [QRequest 1 None; QRequest 1 None; QStep 1 (SProducer false None); QStep 1 (SProducer false None)].

Definition queue_after (es : list mpmc_event) : mpmc * list (nat * result) := default (example_queue, []) (mpmc_run es example_queue).

Definition check_queue (es : list mpmc_event) (f : mpmc -> bool) : bool :=
  match mpmc_run es example_queue with Some (q, _) => f q | None => false end.

Lemma check_queue_spec es f : check_queue es f = true ->
  mpmc_run es example_queue = Some (queue_after es) /\ f (queue_after es).1 = true.
Proof. unfold check_queue, queue_after. destruct (mpmc_run es _) as [[q rs]|]; [done|done]. Qed.

Lemma example_queue_new : pipe_mpmc_new example_malloc 32 = Some example_queue.
Proof. by vm_compute. Qed.

Lemma mpmc_new_in_bounds_witness :
  pipe_mpmc_new example_malloc (-1) = Some (Build_mpmc no_subs [] 0 NULL 0 ∅) /\
  pipe_mpmc_new (fun _ => Some 4096) (-33) = None /\
  pipe_mpmc_new example_malloc 33 = Some (Build_mpmc no_subs [] 0 4096 2 ∅).
Proof.
  split_and!.
  - refine (mpmc_new_in_bounds example_malloc (-1) _). unfold is_i32. lia.
  - refine (mpmc_new_in_bounds (fun _ => Some 4096) (-33) _). unfold is_i32. lia.
  - refine (mpmc_new_in_bounds example_malloc 33 _). unfold is_i32. lia.
Defined.

Lemma mpmc_safe_witness : is_Some (mpmc_next (QRequest 1 None) (queue_after asking).1).
Proof.
  destruct (check_queue_spec asking (fun q => match subs (sub_queues q) !! 1%nat with Some p => requisitioning p | None => false end))
    as [Hr Hf]; [vm_compute; reflexivity|].
  destruct (queue_after asking) as [q rs]. cbn [fst snd] in *.
  destruct (subs (sub_queues q) !! 1%nat) as [p|] eqn:Ep; [|discriminate Hf].
  destruct (mpmc_safe example_malloc 32 example_queue asking q rs) as [_ Hs];
    [exact example_malloc_ok|exact example_queue_new|exact Hr|by vm_compute|].
  destruct (Hs 1%nat p Ep) as [Hreq _]. apply (Hreq Hf). intros b Hb. discriminate Hb.
Defined.

Lemma mpmc_delete_frees_witness :
  exists ds freed, pipe_mpmc_delete (base.elements (dom (common (sub_queues (queue_after allocated).1)))) (queue_after allocated).1 = Some (ds, freed) /\
    freed ≡ₚ [8192; 4096 : ptr].
Proof.
  destruct (check_queue_spec allocated (fun q => forallb is_idle (subs (sub_queues q)) &&
      (bool_decide (dynamicallyAllocated q = {[8192 : ptr]}) && ((initialBlockPoolSize q =? 1) && (initialBlockPool q =? 4096)))))
    as [Hr Hf]; [vm_compute; reflexivity|].
  destruct (queue_after allocated) as [q rs]. cbn [fst snd] in *. apply andb_prop in Hf as [Hi Hf]. apply andb_prop in Hf as [Hd Hf].
  apply andb_prop in Hf as [Hn Hp]. apply bool_decide_eq_true in Hd. apply Z.eqb_eq in Hn, Hp.
  destruct (mpmc_delete_frees example_malloc 32 example_queue allocated q rs) with (l := base.elements (dom (common (sub_queues q))))
    as (ds & freed & Hdel & Hfr & _);
    [exact example_malloc_ok|exact example_queue_new|exact Hr|by vm_compute| |reflexivity|].
  - intros i p Ep. apply is_idle_spec. rewrite forallb_forall in Hi. apply Hi, list_elem_of_In. eapply list_elem_of_lookup_2. exact Ep.
  - exists ds, freed. split; [exact Hdel|]. rewrite Hfr, Hd, Hn, Hp. vm_compute. reflexivity.
Defined.

Lemma try_enqueue_never_allocates_witness : dynamicallyAllocated (queue_after tried).1 = ∅.
Proof.
  destruct (check_queue_spec tried (fun _ => true)) as [Hr _]; [vm_compute; reflexivity|].
  destruct (queue_after tried) as [q rs]. cbn [fst snd] in *.
  destruct (try_enqueue_never_allocates example_malloc 32 example_queue tried q rs) as [Hd _];
    [exact example_malloc_ok|exact example_queue_new|exact Hr|by vm_compute| |exact Hd].
  intros i x Hin. apply list_elem_of_In in Hin. vm_compute in Hin.
  repeat (destruct Hin as [Hin|Hin]; [discriminate Hin|]). destruct Hin.
Defined.
