(* ===== verification/ProducerHash.v ===== *)
(** * The producers of a multi-producer queue (src/lib/concurrentqueue/concurrentqueue.h)

    A thread that enqueues without a token has a sub-queue of its own, its
    implicit producer.  [get_or_add_implicit_producer] finds it in a lock-free
    hash table with linear probing, keyed by the identifier of the thread, or
    creates it and adds it to the list of all producers.  Tables that have become
    too small stay where they are; a thread that is found in an old one is copied
    to the newest one it knows.  A flag keeps all but one thread from making a
    new table.

    The machine has one step for each access to memory that the threads share.
    Threads do not come and go: [MOODYCAMEL_CPP11_THREAD_LOCAL_SUPPORTED] is
    never defined, so that no entry is removed and no producer given up. *)
From S2P Require Import Prelude.

Definition invalid_thread_id : Z := 0.
Definition INITIAL_IMPLICIT_PRODUCER_HASH_SIZE : Z := 32.

(** [hash_thread_id] on 64-bit platforms. *)
Definition hash_thread_id (id : Z) : Z :=
  let h := Z.lxor id (Z.shiftr id 33) in
  let h := u64 (h * 18397679294719823053) in
  let h := Z.lxor h (Z.shiftr h 33) in
  let h := u64 (h * 14181476777654086739) in
  Z.lxor h (Z.shiftr h 33).

#[global] Arguments hash_thread_id : simpl never.

(** [ImplicitProducerKVP], [ImplicitProducerHash]; tables by their number. *)
Record kvp := { key : Z; value : ptr }.
Record table := { capacity : Z; entries : list kvp; prev : option nat }.

Definition new_table (newCapacity : Z) (p : option nat) : table :=
  {| capacity := newCapacity; entries := replicate (Z.to_nat newCapacity) {| key := invalid_thread_id; value := NULL |}; prev := p |}.

(** What the list of producers needs of a producer. *)
Record producer := { next : ptr; inactive : bool; isExplicit : bool }.

Definition new_producer : producer := {| next := NULL; inactive := false; isExplicit := false |}.

(** The access that a thread makes next in [get_or_add_implicit_producer] and the
    functions it calls; indices are masked when they are used. *)
Inductive hpc :=
| HIdle
| HMain
| HProbe (mainHash hash : nat) (index : Z)
| HLazy (mainHash : nat) (index : Z) (value : ptr)
| HLazyCas (mainHash : nat) (index : Z) (value : ptr)
| HLazyValue (mainHash : nat) (index : Z) (value : ptr)
| HCount (mainHash : nat)
| HTest (mainHash : nat) (newCount : Z)
| HReload (newCount : Z)
| HAlloc (mainHash : nat) (newCount : Z)
| HAllocFailed
| HClearFailed
| HStore (newHash : nat) (newCount : Z)
| HClear (mainHash : nat) (newCount : Z)
| HWait (newCount : Z)
| HRecycleTail (mainHash : nat)
| HRecycle (mainHash : nat) (ptr : ptr)
| HRecycleCas (mainHash : nat) (ptr : ptr)
| HRecycled (mainHash : nat) (producer : ptr)
| HCreate (mainHash : nat)
| HCreateFailed
| HProducerCount (mainHash : nat) (producer : ptr)
| HListTail (mainHash : nat) (producer : ptr)
| HLink (mainHash : nat) (producer prevTail : ptr)
| HInsert (mainHash : nat) (index : Z) (producer : ptr)
| HInsertCas (mainHash : nat) (index : Z) (producer : ptr)
| HInsertValue (mainHash : nat) (index : Z) (producer : ptr).

Record thread := { thread_id : Z; pc : hpc }.

Record state := {
  tables : list table;
  implicitProducerHash : nat;
  implicitProducerHashCount : Z;
  implicitProducerHashResizeInProgress : bool;
  producers : gmap ptr producer;
  producerListTail : ptr;
  producerCount : Z;
  threads : list thread
}.

(** [populate_initial_implicit_producer_hash] and the constructor. *)
Definition initial (ids : list Z) : state :=
  {| tables := [new_table INITIAL_IMPLICIT_PRODUCER_HASH_SIZE None]; implicitProducerHash := 0;
     implicitProducerHashCount := 0; implicitProducerHashResizeInProgress := false;
     producers := ∅; producerListTail := NULL; producerCount := 0;
     threads := map (fun id => {| thread_id := id; pc := HIdle |}) ids |}.

(** A call that has returned, and its value. *)
Inductive result := Returned (thread : nat) (producer : ptr).

Definition with_tables (x : list table) (s : state) : state :=
  {| tables := x; implicitProducerHash := implicitProducerHash s; implicitProducerHashCount := implicitProducerHashCount s;
     implicitProducerHashResizeInProgress := implicitProducerHashResizeInProgress s; producers := producers s;
     producerListTail := producerListTail s; producerCount := producerCount s; threads := threads s |}.
Definition with_main (h : nat) (s : state) : state :=
  {| tables := tables s; implicitProducerHash := h; implicitProducerHashCount := implicitProducerHashCount s;
     implicitProducerHashResizeInProgress := implicitProducerHashResizeInProgress s; producers := producers s;
     producerListTail := producerListTail s; producerCount := producerCount s; threads := threads s |}.
Definition with_count (c : Z) (s : state) : state :=
  {| tables := tables s; implicitProducerHash := implicitProducerHash s; implicitProducerHashCount := c;
     implicitProducerHashResizeInProgress := implicitProducerHashResizeInProgress s; producers := producers s;
     producerListTail := producerListTail s; producerCount := producerCount s; threads := threads s |}.
Definition with_flag (b : bool) (s : state) : state :=
  {| tables := tables s; implicitProducerHash := implicitProducerHash s; implicitProducerHashCount := implicitProducerHashCount s;
     implicitProducerHashResizeInProgress := b; producers := producers s;
     producerListTail := producerListTail s; producerCount := producerCount s; threads := threads s |}.
Definition with_producers (m : gmap ptr producer) (tail : ptr) (c : Z) (s : state) : state :=
  {| tables := tables s; implicitProducerHash := implicitProducerHash s; implicitProducerHashCount := implicitProducerHashCount s;
     implicitProducerHashResizeInProgress := implicitProducerHashResizeInProgress s; producers := m;
     producerListTail := tail; producerCount := c; threads := threads s |}.
Definition set_pc (c : hpc) (th : thread) : thread := {| thread_id := thread_id th; pc := c |}.
Definition goto (i : nat) (c : hpc) (s : state) : state :=
  {| tables := tables s; implicitProducerHash := implicitProducerHash s; implicitProducerHashCount := implicitProducerHashCount s;
     implicitProducerHashResizeInProgress := implicitProducerHashResizeInProgress s; producers := producers s;
     producerListTail := producerListTail s; producerCount := producerCount s; threads := alter (set_pc c) i (threads s) |}.

Definition set_entry (f : kvp -> kvp) (q : nat) (t : table) : table :=
  {| capacity := capacity t; entries := alter f q (entries t); prev := prev t |}.
Definition store_entry (f : kvp -> kvp) (k q : nat) (s : state) : state := with_tables (alter (set_entry f q) k (tables s)) s.
Definition set_key (id : Z) (e : kvp) : kvp := {| key := id; value := value e |}.
Definition set_value (v : ptr) (e : kvp) : kvp := {| key := key e; value := v |}.

(** [index &= capacity - 1], and the entry there. *)
Definition mask (t : table) (index : Z) : Z := Z.land index (u64 (capacity t - 1)).
Definition entry_at (s : state) (k : nat) (index : Z) : option (table * Z * kvp) :=
  t ← tables s !! k;
  let index := mask t index in
  e ← entries t !! Z.to_nat index;
  Some (t, index, e).

(** [while (newCount >= (newCapacity >> 1)) newCapacity <<= 1;] *)
Fixpoint enlarge (fuel : nat) (newCount newCapacity : Z) : option Z :=
  match fuel with
  | O => None
  | S fuel =>
      if Z.shiftr newCapacity 1 <=? newCount then enlarge fuel newCount (u64 (Z.shiftl newCapacity 1)) else Some newCapacity
  end.

(** The test whether the table has room, at the end of the resizing. *)
Definition room (t : table) (newCount : Z) : bool :=
  newCount <? u64 (Z.shiftr (capacity t) 1 + Z.shiftr (capacity t) 2).

Definition proceed (i mainHash : nat) (newCount : Z) (s : state) : option (state * option result) :=
  t ← tables s !! mainHash;
  Some (goto i (if room t newCount then HRecycleTail mainHash else HWait newCount) s, None).

(** A step in [recycle_or_create_producer] or [add_producer]; [got]: the memory
    for a producer; [spurious]: whether a weak exchange fails for no reason. *)
Definition recycle_step (i : nat) (hashedId : Z) (got : option ptr) (spurious : bool) (c : hpc) (s : state) : option (state * option result) :=
  let continue c s := Some (goto i c s, None) in
  match c with
  | HRecycleTail mainHash => continue (HRecycle mainHash (producerListTail s)) s
  | HRecycle mainHash p =>
      if p =? NULL then continue (HCreate mainHash) s
      else
        nd ← producers s !! p;
        if inactive nd && negb (isExplicit nd) then continue (HRecycleCas mainHash p) s
        else continue (HRecycle mainHash (next nd)) s
  | HRecycleCas mainHash p =>
      nd ← producers s !! p;
      if inactive nd then
        continue (HRecycled mainHash p)
          (with_producers (<[p := {| next := next nd; inactive := false; isExplicit := isExplicit nd |}]> (producers s))
             (producerListTail s) (producerCount s) s)
      else continue (HRecycle mainHash (next nd)) s
  | HCreate mainHash =>
      match got with
      | None => continue HCreateFailed s
      | Some p =>
          if bool_decide (p = NULL) || bool_decide (is_Some (producers s !! p)) then None
          else continue (HProducerCount mainHash p)
                 (with_producers (<[p := new_producer]> (producers s)) (producerListTail s) (producerCount s) s)
      end
  | HProducerCount mainHash p =>
      continue (HListTail mainHash p) (with_producers (producers s) (producerListTail s) (u32 (producerCount s + 1)) s)
  | HListTail mainHash p => continue (HLink mainHash p (producerListTail s)) s
  | HLink mainHash p prevTail =>
      nd ← producers s !! p;
      let m := <[p := {| next := prevTail; inactive := inactive nd; isExplicit := isExplicit nd |}]> (producers s) in
      if (producerListTail s =? prevTail) && negb spurious
      then continue (HInsert mainHash hashedId p) (with_producers m p (producerCount s) s)
      else continue (HLink mainHash p (producerListTail s)) (with_producers m (producerListTail s) (producerCount s) s)
  | _ => None
  end.

(** One step of thread [i].  [memory]: whether the allocation of a table succeeds.
    [None]: the thread is in no call, an access is out of bounds, or the allocator
    gave out memory that is in use. *)
Definition hstep (i : nat) (memory : bool) (got : option ptr) (spurious : bool) (s : state) : option (state * option result) :=
  th ← threads s !! i;
  let id := thread_id th in
  let hashedId := hash_thread_id id in
  let continue c s := Some (goto i c s, None) in
  let return_ p s := Some (goto i HIdle s, Some (Returned i p)) in
  match pc th with
  | HIdle => None
  | HMain => continue (HProbe (implicitProducerHash s) (implicitProducerHash s) hashedId) s
  | HProbe mainHash hash index =>
      '(t, index, e) ← entry_at s hash index;
      if key e =? id then
        if (hash =? mainHash)%nat then return_ (value e) s else continue (HLazy mainHash hashedId (value e)) s
      else if key e =? invalid_thread_id then
        match prev t with
        | Some hash => continue (HProbe mainHash hash hashedId) s
        | None => continue (HCount mainHash) s
        end
      else continue (HProbe mainHash hash (u64 (index + 1))) s
  | HLazy mainHash index v =>
      '(t, index, e) ← entry_at s mainHash index;
      if key e =? invalid_thread_id then continue (HLazyCas mainHash index v) s
      else continue (HLazy mainHash (u64 (index + 1)) v) s
  | HLazyCas mainHash index v =>
      '(t, index, e) ← entry_at s mainHash index;
      if key e =? invalid_thread_id then continue (HLazyValue mainHash index v) (store_entry (set_key id) mainHash (Z.to_nat index) s)
      else continue (HLazy mainHash (u64 (index + 1)) v) s
  | HLazyValue mainHash index v =>
      '(t, index, e) ← entry_at s mainHash index;
      return_ v (store_entry (set_value v) mainHash (Z.to_nat index) s)
  | HCount mainHash =>
      continue (HTest mainHash (u64 (1 + implicitProducerHashCount s))) (with_count (u64 (implicitProducerHashCount s + 1)) s)
  | HTest mainHash newCount =>
      t ← tables s !! mainHash;
      if (Z.shiftr (capacity t) 1 <=? newCount) && negb (implicitProducerHashResizeInProgress s)
      then continue (HReload newCount) (with_flag true s)
      else proceed i mainHash newCount s
  | HReload newCount =>
      let mainHash := implicitProducerHash s in
      t ← tables s !! mainHash;
      if Z.shiftr (capacity t) 1 <=? newCount then continue (HAlloc mainHash newCount) s
      else continue (HClear mainHash newCount) s
  | HAlloc mainHash newCount =>
      t ← tables s !! mainHash;
      newCapacity ← enlarge 64 newCount (u64 (Z.shiftl (capacity t) 1));
      if memory then continue (HStore (length (tables s)) newCount) (with_tables (tables s ++ [new_table newCapacity (Some mainHash)]) s)
      else continue HAllocFailed s
  | HAllocFailed => continue HClearFailed (with_count (u64 (implicitProducerHashCount s - 1)) s)
  | HClearFailed => return_ NULL (with_flag false s)
  | HStore newHash newCount => continue (HClear newHash newCount) (with_main newHash s)
  | HClear mainHash newCount => proceed i mainHash newCount (with_flag false s)
  | HWait newCount => continue (HTest (implicitProducerHash s) newCount) s
  | HRecycled mainHash p =>
      continue (HInsert mainHash hashedId p) (with_count (u64 (implicitProducerHashCount s - 1)) s)
  | HCreateFailed => return_ NULL (with_count (u64 (implicitProducerHashCount s - 1)) s)
  | HInsert mainHash index p =>
      '(t, index, e) ← entry_at s mainHash index;
      if key e =? invalid_thread_id then continue (HInsertCas mainHash index p) s
      else continue (HInsert mainHash (u64 (index + 1)) p) s
  | HInsertCas mainHash index p =>
      '(t, index, e) ← entry_at s mainHash index;
      if key e =? invalid_thread_id then continue (HInsertValue mainHash index p) (store_entry (set_key id) mainHash (Z.to_nat index) s)
      else continue (HInsert mainHash (u64 (index + 1)) p) s
  | HInsertValue mainHash index p =>
      '(t, index, e) ← entry_at s mainHash index;
      return_ p (store_entry (set_value p) mainHash (Z.to_nat index) s)
  | c => recycle_step i hashedId got spurious c s
  end.

(** A call, or a step of a thread in a call. *)
Inductive event :=
| GetOrAdd (thread : nat)
| HStep (thread : nat) (memory : bool) (got : option ptr) (spurious : bool).

Definition hnext (e : event) (s : state) : option (state * option result) :=
  match e with
  | GetOrAdd i =>
      th ← threads s !! i;
      match pc th with HIdle => Some (goto i HMain s, None) | _ => None end
  | HStep i memory got spurious => hstep i memory got spurious s
  end.

Fixpoint hrun (es : list event) (s : state) : option (state * list result) :=
  match es with
  | [] => Some (s, [])
  | e :: es =>
      '(s1, r) ← hnext e s;
      '(s2, rs) ← hrun es s1;
      Some (s2, option_list r ++ rs)
  end.

(** The walk over the list of producers, as [try_dequeue] makes it. *)
Fixpoint producers_from (fuel : nat) (m : gmap ptr producer) (p : ptr) : option (list ptr) :=
  match fuel with
  | O => None
  | S fuel => if p =? NULL then Some [] else nd ← m !! p; l ← producers_from fuel m (next nd); Some (p :: l)
  end.
Definition producer_list (s : state) : option (list ptr) :=
  producers_from (S (length (threads s))) (producers s) (producerListTail s).

(** The loop of [~ConcurrentQueue] over the tables, from the newest one: those it
    frees.  The oldest one is part of the queue.  [None]: a table or an entry that
    does not exist. *)
Fixpoint destroy_hashes (fuel : nat) (hash : nat) (s : state) : option (list nat) :=
  match fuel with
  | O => None
  | S fuel =>
      t ← tables s !! hash;
      match prev t with
      | None => Some []
      | Some p =>
          if capacity t <=? Z.of_nat (length (entries t)) then rest ← destroy_hashes fuel p s; Some (hash :: rest) else None
      end
  end.

(** ** Tables

    [slot id t d] is the place that the search for [id] looks at after [d]
    others; [probed]: those others hold different keys. *)
Definition wf_table (t : table) : Prop :=
  exists e, 5 <= e <= 60 /\ capacity t = 2 ^ e /\ Z.of_nat (length (entries t)) = 2 ^ e.

Definition slot (id : Z) (t : table) (d : Z) : nat := Z.to_nat ((hash_thread_id id + d) mod capacity t).

Definition probed (id : Z) (t : table) (d : Z) : Prop :=
  forall d', 0 <= d' < d -> exists e, entries t !! slot id t d' = Some e /\ key e <> invalid_thread_id /\ key e <> id.

Definition absent (id : Z) (t : table) : Prop := forall q e, entries t !! q = Some e -> key e <> id.
Definition holds (id : Z) (t : table) : Prop := exists q e, entries t !! q = Some e /\ key e = id.

(** [index], masked, is the place after [d] others. *)
Definition cursor (id : Z) (t : table) (index d : Z) : Prop :=
  0 <= d /\ index mod capacity t = (hash_thread_id id + d) mod capacity t.

Lemma capacity_range t : wf_table t -> 32 <= capacity t <= 1152921504606846976.
Proof.
  intros (e & He & -> & _). change 32 with (2 ^ 5). change 1152921504606846976 with (2 ^ 60).
  split; apply Z.pow_le_mono_r; lia.
Qed.

Lemma mask_mod t index : wf_table t -> mask t index = index mod capacity t.
Proof.
  intros Hw. pose proof (capacity_range t Hw). destruct Hw as (e & He & Hc & _). unfold mask.
  rewrite u64_small by (unfold is_u64; lia). rewrite Hc. rewrite <- Z.land_ones by lia. f_equal. rewrite Z.ones_equiv. lia.
Qed.

Lemma slot_lookup id t d : wf_table t -> exists e, entries t !! slot id t d = Some e.
Proof.
  intros Hw. pose proof (capacity_range t Hw). destruct Hw as (e & He & Hc & Hl). unfold slot.
  apply lookup_lt_is_Some_2. pose proof (Z.mod_pos_bound (hash_thread_id id + d) (capacity t) ltac:(lia)). lia.
Qed.

Lemma slot_of_place id t q : wf_table t -> (q < length (entries t))%nat -> exists d, 0 <= d < capacity t /\ q = slot id t d.
Proof.
  intros Hw Hq. pose proof (capacity_range t Hw). destruct Hw as (e & He & Hc & Hl).
  exists ((Z.of_nat q - hash_thread_id id) mod capacity t). split; [apply Z.mod_pos_bound; lia|]. unfold slot.
  rewrite Zplus_mod_idemp_r. replace (hash_thread_id id + (Z.of_nat q - hash_thread_id id)) with (Z.of_nat q) by lia.
  rewrite Z.mod_small by lia. lia.
Qed.

Lemma cursor_start id t : cursor id t (hash_thread_id id) 0.
Proof. split; [lia|]. f_equal. lia. Qed.

Lemma cursor_mask id t index d : wf_table t -> cursor id t index d -> cursor id t (mask t index) d.
Proof. intros Hw [H0 Hc]. split; [done|]. pose proof (capacity_range t Hw). by rewrite mask_mod, Z.mod_mod by (done || lia). Qed.

Lemma cursor_slot id t index d : wf_table t -> cursor id t index d -> Z.to_nat (mask t index) = slot id t d.
Proof. intros Hw [_ Hc]. unfold slot. by rewrite mask_mod, Hc. Qed.

Lemma cursor_next id t index d : wf_table t -> cursor id t index d -> cursor id t (u64 (mask t index + 1)) (d + 1).
Proof.
  intros Hw [H0 Hc]. pose proof (capacity_range t Hw). split; [lia|]. rewrite mask_mod by done.
  pose proof (Z.mod_pos_bound index (capacity t) ltac:(lia)). rewrite u64_small by (unfold is_u64; lia).
  rewrite Hc, Zplus_mod_idemp_l. f_equal. lia.
Qed.

Lemma probed_0 id t : probed id t 0.
Proof. intros d' ?. lia. Qed.

Lemma probed_next id t d e :
  probed id t d -> entries t !! slot id t d = Some e -> key e <> invalid_thread_id -> key e <> id -> probed id t (d + 1).
Proof. intros Hp Ee H0 Hn d' Hd. destruct (decide (d' = d)) as [->|]; [by exists e|]. apply Hp. lia. Qed.

(** An empty place within the table's length ends every search. *)
Lemma probed_short id t d q e :
  wf_table t -> 0 <= d -> probed id t d -> entries t !! q = Some e -> key e = invalid_thread_id -> d < capacity t.
Proof.
  intros Hw H0 Hp Ee Hk. destruct (slot_of_place id t q Hw) as (d0 & Hd0 & ->); [by eapply lookup_lt_Some|].
  destruct (decide (d <= d0)); [lia|]. destruct (Hp d0) as (e' & Ee' & Hk' & _); [lia|]. congruence.
Qed.

(** Every key is where the search for it finds it. *)
Definition placed (t : table) : Prop :=
  forall q e, entries t !! q = Some e -> key e <> invalid_thread_id ->
    exists d, 0 <= d < capacity t /\ q = slot (key e) t d /\ probed (key e) t d.

Lemma placed_unique t q q' e e' :
  placed t -> entries t !! q = Some e -> entries t !! q' = Some e' -> key e <> invalid_thread_id -> key e' = key e -> q' = q.
Proof.
  intros Hp Ee Ee' Hk Heq. destruct (Hp q e Ee Hk) as (d & Hd & -> & Hpr). destruct (Hp q' e' Ee') as (d' & Hd' & -> & Hpr'); [congruence|].
  rewrite Heq in *. destruct (decide (d < d')).
  - destruct (Hpr' d) as (e1 & E1 & _ & Hn); [lia|]. rewrite Ee in E1. injection E1 as <-. done.
  - destruct (decide (d' < d)).
    + destruct (Hpr d') as (e1 & E1 & _ & Hn); [lia|]. rewrite Ee' in E1. injection E1 as <-. done.
    + by assert (d' = d) as -> by lia.
Qed.

(** A search that comes to an empty place has failed. *)
Lemma search_fails t id d e :
  placed t -> id <> invalid_thread_id -> 0 <= d -> probed id t d -> entries t !! slot id t d = Some e -> key e = invalid_thread_id -> absent id t.
Proof.
  intros Hp Hid H0 Hpr Ee Hk q e' Ee' Hk'. destruct (Hp q e' Ee') as (d' & Hd' & -> & Hpr'); [congruence|]. rewrite Hk' in *.
  destruct (decide (d' < d)).
  - destruct (Hpr d') as (e1 & E1 & _ & Hn); [lia|]. congruence.
  - destruct (decide (d' = d)) as [->|]; [congruence|]. destruct (Hpr' d) as (e1 & E1 & Hn & _); [lia|]. congruence.
Qed.

(** *** How a table changes *)

(** What thread [id] may do to a table. *)
Record grows (id : Z) (t t' : table) : Prop := {
  gr_capacity : capacity t' = capacity t;
  gr_prev : prev t' = prev t;
  gr_length : length (entries t') = length (entries t);
  gr_entries : forall q e, entries t !! q = Some e -> exists e', entries t' !! q = Some e' /\
    (e' = e \/ (key e' = id /\ (key e = invalid_thread_id \/ key e = id)))
}.

Lemma grows_refl id t : grows id t t.
Proof. constructor; try done. intros q e E. exists e. split; [done|by left]. Qed.

Lemma grows_back id t t' q e' : grows id t t' -> entries t' !! q = Some e' -> exists e, entries t !! q = Some e /\
    (e' = e \/ (key e' = id /\ (key e = invalid_thread_id \/ key e = id))).
Proof.
  intros [_ _ Hl Hg] E'. destruct (lookup_lt_is_Some_2 (entries t) q) as [e E]; [rewrite <- Hl; by eapply lookup_lt_Some|].
  exists e. split; [done|]. destruct (Hg q e E) as (e1 & E1 & Hc). rewrite E' in E1. by injection E1 as <-.
Qed.

Lemma grows_wf id t t' : grows id t t' -> wf_table t -> wf_table t'.
Proof. intros [Hc _ Hl _] (e & He & H1 & H2). exists e. by rewrite Hc, Hl. Qed.

Lemma grows_slot id t t' id' d : grows id t t' -> slot id' t' d = slot id' t d.
Proof. intros [Hc _ _ _]. unfold slot. by rewrite Hc. Qed.

Lemma grows_cursor id t t' id' index d : grows id t t' -> cursor id' t index d -> cursor id' t' index d.
Proof. intros [Hc _ _ _]. unfold cursor. by rewrite Hc. Qed.

Lemma grows_mask id t t' index : grows id t t' -> mask t' index = mask t index.
Proof. intros [Hc _ _ _]. unfold mask. by rewrite Hc. Qed.

Lemma grows_probed id t t' id' d : id <> invalid_thread_id -> id' <> id -> grows id t t' -> probed id' t d -> probed id' t' d.
Proof.
  intros Hid Hne Hg Hp d' Hd. destruct (Hp d' Hd) as (e & E & Hk & Hn). rewrite (grows_slot _ _ _ _ _ Hg).
  destruct (gr_entries _ _ _ Hg _ _ E) as (e' & E' & [->|[Hk' _]]); [by exists e|]. exists e'. split; [done|]. split; congruence.
Qed.

(** A search for its own key: the thread puts it only at the end. *)
Lemma grows_probed_own id t t' d : grows id t t' -> probed id t d -> probed id t' d.
Proof.
  intros Hg Hp d' Hd. destruct (Hp d' Hd) as (e & E & Hk & Hn). rewrite (grows_slot _ _ _ _ _ Hg).
  destruct (gr_entries _ _ _ Hg _ _ E) as (e' & E' & [->|[_ [Hk'|Hk']]]); [by exists e|done|done].
Qed.

Lemma grows_absent id t t' id' : id' <> id -> grows id t t' -> absent id' t -> absent id' t'.
Proof.
  intros Hne Hg Ha q e' E'. destruct (grows_back _ _ _ _ _ Hg E') as (e & E & [->|[Hk _]]); [by apply (Ha q)|congruence].
Qed.

Lemma grows_holds id t t' id' : id' <> invalid_thread_id -> grows id t t' -> holds id' t -> holds id' t'.
Proof.
  intros Hid Hg (q & e & E & Hk). destruct (gr_entries _ _ _ Hg _ _ E) as (e' & E' & [->|[Hk' [Hk0|Hk0]]]); exists q; [by exists e|congruence|].
  exists e'. split; [done|congruence].
Qed.

Lemma set_entry_grows id f q t e :
  entries t !! q = Some e -> key (f e) = id -> key e = invalid_thread_id \/ key e = id -> grows id t (set_entry f q t).
Proof.
  intros E Hf Hk. constructor; simpl; try done; [by rewrite length_alter|]. intros q' e' E'. destruct (decide (q = q')) as [<-|Hq].
  - rewrite E in E'. injection E' as <-. rewrite list_lookup_alter_eq, E. exists (f e). split; [done|]. by right.
  - rewrite list_lookup_alter_ne by done. exists e'. split; [done|by left].
Qed.

(** ** The invariant

    Ghost state by thread: [tk], the count it was given when it decided to
    insert, as long as it is counted; [rg], the producer it has created.  [pl]: the
    list of producers. *)
Definition critical (c : hpc) : bool :=
  match c with HReload _ | HAlloc _ _ | HAllocFailed | HClearFailed | HStore _ _ | HClear _ _ => true | _ => false end.

(** [len]: the number of tables; [cur]: the newest one that others can see. *)
Definition lock_ok (len cur : nat) (c : hpc) : Prop :=
  match c with
  | HAlloc m _ => m = cur /\ len = S cur
  | HStore h _ => h = S cur /\ len = S (S cur)
  | _ => len = S cur
  end.

Definition lock_inv (flag : bool) (len cur : nat) (ths : list thread) : Prop :=
  if flag then exists i th, ths !! i = Some th /\ critical (pc th) = true /\ lock_ok len cur (pc th) /\
                 forall j th', ths !! j = Some th' -> critical (pc th') = true -> j = i
  else len = S cur /\ forall j th', ths !! j = Some th' -> critical (pc th') = false.

Definition holder (o : option Z) : Z := match o with Some _ => 1 | None => 0 end.
Definition upto (N : Z) (o : option Z) : Z := match o with Some c => c_bool (c <=? N) | None => 0 end.

(** At most [N] threads have a count of at most [N]. *)
Definition ticket_inv (count : Z) (tk : list (option Z)) : Prop :=
  count = zsum (map holder tk) /\ (forall i c, tk !! i = Some (Some c) -> 1 <= c <= Z.of_nat (length tk)) /\
  forall N, 0 <= N -> zsum (map (upto N) tk) <= N.

Fixpoint chain (m : gmap ptr producer) (tail : ptr) (pl : list ptr) : Prop :=
  match pl with
  | [] => tail = NULL
  | p :: pl => tail = p /\ exists nd, m !! p = Some nd /\ chain m (next nd) pl
  end.

Record list_inv (m : gmap ptr producer) (tail : ptr) (pl : list ptr) (rg : list (option ptr)) : Prop := {
  li_chain : chain m tail pl;
  li_nodup : NoDup pl;
  li_nodes : forall p nd, m !! p = Some nd -> p <> NULL /\ inactive nd = false;
  li_made : forall i p, rg !! i = Some (Some p) -> is_Some (m !! p);
  li_owner : forall p, p ∈ pl -> exists i, rg !! i = Some (Some p);
  li_unique : forall i j p, rg !! i = Some (Some p) -> rg !! j = Some (Some p) -> i = j
}.

(** The thread has yet to store the value of this entry. *)
Definition writing (c : hpc) (k : nat) (t : table) (q : nat) : Prop :=
  match c with HLazyValue m index _ | HInsertValue m index _ => m = k /\ Z.to_nat (mask t index) = q | _ => False end.

Definition owned (ths : list thread) (tk : list (option Z)) (rg : list (option ptr)) (pl : list ptr) (cur k : nat) (t : table) : Prop :=
  forall q e, entries t !! q = Some e -> key e <> invalid_thread_id ->
    (k <= cur)%nat /\ exists i th c p, ths !! i = Some th /\ thread_id th = key e /\ tk !! i = Some (Some c) /\ rg !! i = Some (Some p) /\
      p ∈ pl /\ 4 * c < 3 * capacity t /\ (value e = p \/ writing (pc th) k t q).

Definition roomy (x : list table) (m : nat) (c : Z) : Prop := exists t, x !! m = Some t /\ 4 * c < 3 * capacity t.
Definition absent_from (id : Z) (x : list table) (k : nat) : Prop := forall h t, (k <= h)%nat -> x !! h = Some t -> absent id t.
Definition searching (id : Z) (x : list table) (m : nat) (index : Z) : Prop :=
  exists t d, x !! m = Some t /\ cursor id t index d /\ probed id t d.
Definition standing_at (id : Z) (x : list table) (m : nat) (index : Z) : Prop :=
  exists t d e, x !! m = Some t /\ cursor id t index d /\ probed id t d /\ entries t !! slot id t d = Some e /\ key e = id.
Definition held_before (id : Z) (x : list table) (m : nat) : Prop := exists h t, (h < m)%nat /\ x !! h = Some t /\ holds id t.

(** Between calls: the thread is unknown, or it is in some table. *)
Definition settled (id : Z) (x : list table) (pl : list ptr) (n : option Z) (r : option ptr) : Prop :=
  (n = None /\ r = None /\ absent_from id x 0) \/ (is_Some n /\ (exists p, r = Some p /\ p ∈ pl) /\ held_before id x (length x)).

(** Making a producer: [p], when there is one. *)
Definition making (id : Z) (x : list table) (cur m : nat) (n : option Z) : Prop :=
  (m <= cur)%nat /\ (exists c, n = Some c /\ roomy x m c) /\ absent_from id x 0.

Definition knows (x : list table) (cur : nat) (pl : list ptr) (id : Z) (c : hpc) (n : option Z) (r : option ptr) : Prop :=
  match c with
  | HIdle | HMain => settled id x pl n r
  | HProbe m h index => (h <= m <= cur)%nat /\ settled id x pl n r /\ absent_from id x (S h) /\ searching id x h index
  | HLazy m index v | HLazyCas m index v =>
      (m <= cur)%nat /\ is_Some n /\ r = Some v /\ v ∈ pl /\ held_before id x m /\ absent_from id x m /\ searching id x m index
  | HLazyValue m index v => (m <= cur)%nat /\ is_Some n /\ r = Some v /\ v ∈ pl /\ standing_at id x m index
  | HCount m => (m <= cur)%nat /\ n = None /\ r = None /\ absent_from id x 0
  | HTest m c | HClear m c => (m <= cur)%nat /\ n = Some c /\ r = None /\ absent_from id x 0
  | HAlloc m c => n = Some c /\ r = None /\ absent_from id x 0 /\ exists t, x !! m = Some t /\ capacity t <= 2 * c + 1
  | HReload c | HWait c | HStore _ c => n = Some c /\ r = None /\ absent_from id x 0
  | HAllocFailed => is_Some n /\ r = None /\ absent_from id x 0
  | HClearFailed => n = None /\ r = None /\ absent_from id x 0
  | HRecycleTail m | HCreate m => making id x cur m n /\ r = None
  | HRecycle m p => making id x cur m n /\ r = None /\ (p = NULL \/ p ∈ pl)
  | HRecycleCas _ _ | HRecycled _ _ => False
  | HCreateFailed => is_Some n /\ r = None /\ absent_from id x 0
  | HProducerCount m p | HListTail m p | HLink m p _ => making id x cur m n /\ r = Some p /\ p ∉ pl
  | HInsert m index p | HInsertCas m index p => making id x cur m n /\ r = Some p /\ p ∈ pl /\ searching id x m index
  | HInsertValue m index p => (m <= cur)%nat /\ is_Some n /\ r = Some p /\ p ∈ pl /\ standing_at id x m index
  end.

Record HInv (s : state) (tk : list (option Z)) (rg : list (option ptr)) (pl : list ptr) : Prop := {
  hi_lengths : length tk = length (threads s) /\ length rg = length (threads s);
  hi_few : Z.of_nat (length (threads s)) < 2 ^ 58;
  hi_ids : NoDup (map thread_id (threads s)) /\ forall i th, threads s !! i = Some th -> thread_id th <> invalid_thread_id;
  hi_tables : forall k t, tables s !! k = Some t -> wf_table t /\ placed t /\ prev t = match k with O => None | S k => Some k end;
  hi_capacities : forall k k' t t', (k < k')%nat -> tables s !! k = Some t -> tables s !! k' = Some t' -> capacity t < capacity t';
  hi_current : (implicitProducerHash s < length (tables s))%nat;
  hi_lock : lock_inv (implicitProducerHashResizeInProgress s) (length (tables s)) (implicitProducerHash s) (threads s);
  hi_tickets : ticket_inv (implicitProducerHashCount s) tk;
  hi_list : list_inv (producers s) (producerListTail s) pl rg;
  hi_owned : forall k t, tables s !! k = Some t -> owned (threads s) tk rg pl (implicitProducerHash s) k t;
  hi_threads : forall i th n r, threads s !! i = Some th -> tk !! i = Some n -> rg !! i = Some r ->
    knows (tables s) (implicitProducerHash s) pl (thread_id th) (pc th) n r
}.

(** *** Tables have room *)
Lemma zsum_upto_le N tk : zsum (map (upto N) tk) <= zsum (map holder tk).
Proof.
  unfold zsum. induction tk as [|[c|] tk IH]; simpl; [lia| |lia]. destruct (c <=? N); simpl; lia.
Qed.

Lemma zsum_holder_le tk : zsum (map holder tk) <= Z.of_nat (length tk).
Proof. unfold zsum. induction tk as [|[c|] tk IH]; simpl; lia. Qed.

(** The identifiers of the threads with a count of at most [N]. *)
Definition counted (N : Z) (ths : list thread) (tk : list (option Z)) : list Z :=
  map (fun '(th, _) => thread_id th) (filter (fun '(_, o) => upto N o = 1) (zip ths tk)).

Lemma length_counted N ths tk : length tk = length ths -> Z.of_nat (length (counted N ths tk)) = zsum (map (upto N) tk).
Proof.
  unfold counted. rewrite length_map. revert tk. induction ths as [|th ths IH]; intros [|o tk] Hl; try done.
  simpl zip. rewrite filter_cons. simpl in Hl. specialize (IH tk ltac:(lia)). unfold zsum in *. simpl.
  assert (upto N o = 0 \/ upto N o = 1) as [Ho|Ho] by (destruct o as [c|]; [simpl; destruct (c <=? N); auto|by left]);
    rewrite Ho; simpl; lia.
Qed.

Lemma counted_elem N ths tk i th c :
  ths !! i = Some th -> tk !! i = Some (Some c) -> c <= N -> thread_id th ∈ counted N ths tk.
Proof.
  intros Et Ek Hc. unfold counted. apply list_elem_of_fmap. exists (th, Some c). split; [done|]. apply list_elem_of_filter. split.
  - simpl. by rewrite (proj2 (Z.leb_le c N) Hc).
  - apply list_elem_of_lookup. exists i. apply lookup_zip_with_Some. by exists th, (Some c).
Qed.

Lemma owned_room s tk rg pl k t :
  HInv s tk rg pl -> tables s !! k = Some t -> exists q e, entries t !! q = Some e /\ key e = invalid_thread_id.
Proof.
  intros I Et. destruct (hi_tables _ _ _ _ I k t Et) as (Hw & Hp & _). pose proof (hi_owned _ _ _ _ I k t Et) as Ho.
  destruct (decide (Exists (fun e => key e = invalid_thread_id) (entries t))) as [Hex|Hall].
  { apply Exists_exists in Hex as (e & [q E]%list_elem_of_lookup & Hk). by exists q, e. }
  exfalso. apply not_Exists_Forall in Hall; [|apply _]. rewrite Forall_lookup in Hall.
  set (N := (3 * capacity t - 1) / 4).
  assert (NoDup (map key (entries t))) as Hnd.
  { apply NoDup_alt. intros q q' x Ex Ex'. rewrite lookup_map in Ex, Ex'. apply fmap_Some in Ex as (e & Ee & ->).
    apply fmap_Some in Ex' as (e' & Ee' & Hk). symmetry. eapply placed_unique; [done|exact Ee|exact Ee'| |congruence]. by apply (Hall q). }
  assert (forall x, x ∈ map key (entries t) -> x ∈ counted N (threads s) tk) as Hin.
  { intros x [e [-> [q Ee]%list_elem_of_lookup]]%list_elem_of_fmap.
    destruct (Ho q e Ee) as (_ & i & th & c & p & Eth & <- & Etk & _ & _ & Hc & _); [by apply (Hall q)|].
    eapply counted_elem; [done..|]. unfold N. dlia. }
  pose proof (NoDup_submseteq _ _ Hnd Hin) as Hs. apply submseteq_length in Hs. rewrite length_map in Hs.
  pose proof (length_counted N (threads s) tk (proj1 (hi_lengths _ _ _ _ I))) as Hlen.
  destruct (hi_tickets _ _ _ _ I) as (_ & _ & Hup). pose proof (capacity_range t Hw) as Hcap.
  specialize (Hup N ltac:(unfold N; dlia)). destruct Hw as (e & He & Hc & Hl). unfold N in *. dlia.
Qed.

(** *** What the other threads know *)
Record evolves (id : Z) (x x' : list table) : Prop := {
  ev_old : forall k t, x !! k = Some t -> exists t', x' !! k = Some t' /\ grows id t t';
  ev_new : forall k t', x' !! k = Some t' -> (exists t, x !! k = Some t /\ grows id t t') \/
             forall q e, entries t' !! q = Some e -> key e = invalid_thread_id
}.

Lemma evolves_refl id x : evolves id x x.
Proof. split; intros k t E; [|left]; exists t; split; try done; apply grows_refl. Qed.

Lemma evolves_length id x x' : evolves id x x' -> (length x <= length x')%nat.
Proof.
  intros [Ho _]. destruct (length x) as [|n] eqn:El; [lia|]. destruct (lookup_lt_is_Some_2 x n) as [t E]; [lia|].
  destruct (Ho _ _ E) as (t' & E' & _). apply lookup_lt_Some in E'. lia.
Qed.

Lemma held_before_mono id x m m' : (m <= m')%nat -> held_before id x m -> held_before id x m'.
Proof. intros Hm (h & t & Hh & Et). exists h, t. split; [lia|done]. Qed.

Section others.
Context (id id' : Z) (x x' : list table) (E : evolves id x x') (Hid : id <> invalid_thread_id) (Hid' : id' <> invalid_thread_id) (Hne : id' <> id).

Lemma absent_from_other k : absent_from id' x k -> absent_from id' x' k.
Proof.
  intros Ha h t' Hk Et'. destruct (ev_new _ _ _ E _ _ Et') as [(t & Et & Hg)|Hn].
  - eapply grows_absent; [exact Hne|exact Hg|by eapply Ha].
  - intros q e Ee. by rewrite (Hn _ _ Ee).
Qed.

Lemma searching_other m index : searching id' x m index -> searching id' x' m index.
Proof.
  intros (t & d & Et & Hc & Hp). destruct (ev_old _ _ _ E _ _ Et) as (t' & Et' & Hg). exists t', d.
  split; [done|]. split; [by eapply grows_cursor|by apply (grows_probed _ _ _ _ _ Hid Hne Hg)].
Qed.

Lemma standing_at_other m index : standing_at id' x m index -> standing_at id' x' m index.
Proof.
  intros (t & d & e & Et & Hc & Hp & Ee & Hk). destruct (ev_old _ _ _ E _ _ Et) as (t' & Et' & Hg).
  destruct (gr_entries _ _ _ Hg _ _ Ee) as (e' & Ee' & [->|[_ [Hk0|Hk0]]]); [|congruence|congruence].
  exists t', d, e. split; [done|]. split; [by eapply grows_cursor|]. split; [by apply (grows_probed _ _ _ _ _ Hid Hne Hg)|]. by rewrite (grows_slot _ _ _ _ _ Hg).
Qed.

Lemma held_before_other m : held_before id' x m -> held_before id' x' m.
Proof.
  intros (h & t & Hh & Et & Hht). destruct (ev_old _ _ _ E _ _ Et) as (t' & Et' & Hg). exists h, t'.
  split; [done|]. split; [done|]. by apply (grows_holds _ _ _ _ Hid' Hg).
Qed.

Lemma roomy_other m c : roomy x m c -> roomy x' m c.
Proof.
  intros (t & Et & Hc). destruct (ev_old _ _ _ E _ _ Et) as (t' & Et' & Hg). exists t'. by rewrite (gr_capacity _ _ _ Hg).
Qed.

Lemma settled_other pl pl' n r : pl ⊆ pl' -> settled id' x pl n r -> settled id' x' pl' n r.
Proof.
  intros Hpl [(-> & -> & Ha)|(Hn & (p & -> & Hp) & Hh)]; [left|right].
  - split; [done|]. split; [done|]. by apply absent_from_other.
  - split; [done|]. split; [exists p; split; [done|by apply Hpl]|]. destruct Hh as (h & t & Hh & Et & Hht).
    destruct (ev_old _ _ _ E _ _ Et) as (t' & Et' & Hg). exists h, t'. split; [by eapply lookup_lt_Some|]. split; [done|]. by apply (grows_holds _ _ _ _ Hid' Hg).
Qed.

Lemma making_other cur cur' m n : (cur <= cur')%nat -> making id' x cur m n -> making id' x' cur' m n.
Proof.
  intros Hc (Hm & (c & -> & Hr) & Ha). split; [lia|]. split; [exists c; split; [done|by apply roomy_other]|by apply absent_from_other].
Qed.

Lemma knows_other cur cur' pl pl' c n r :
  (cur <= cur')%nat -> pl ⊆ pl' -> (forall p, r = Some p -> p ∉ pl -> p ∉ pl') ->
  knows x cur pl id' c n r -> knows x' cur' pl' id' c n r.
Proof.
  intros Hc Hpl Hnew Hk. destruct c; simpl in *; try done; destruct_and?; split_and?; try done; try lia;
    eauto using absent_from_other, searching_other, standing_at_other, held_before_other, settled_other, making_other.
  - match goal with H : exists _, _ |- _ => destruct H as (t & Et & Ht) end.
    destruct (ev_old _ _ _ E _ _ Et) as (t' & Et' & Hg). exists t'. by rewrite (gr_capacity _ _ _ Hg).
  - naive_solver.
Qed.
End others.

(** *** Parts of the invariant that a step leaves alone *)
Lemma lookup_alter_thread (i : nat) c (ths : list thread) th (j : nat) th' :
  ths !! i = Some th -> alter (set_pc c) i ths !! j = Some th' -> (j = i /\ th' = set_pc c th) \/ (j <> i /\ ths !! j = Some th').
Proof.
  intros Et E. destruct (decide (i = j)) as [<-|Hij].
  - rewrite list_lookup_alter_eq, Et in E. injection E as <-. by left.
  - rewrite list_lookup_alter_ne in E by done. by right.
Qed.

Lemma lock_same flag len cur (ths : list thread) (i : nat) th c :
  ths !! i = Some th -> critical (pc th) = false -> critical c = false ->
  lock_inv flag len cur ths -> lock_inv flag len cur (alter (set_pc c) i ths).
Proof.
  intros Et Hn Hn' Hl. unfold lock_inv in *. destruct flag.
  - destruct Hl as (j & thj & Ej & Hc & Hok & Hu). assert (j <> i) as Hji by (intros ->; congruence).
    exists j, thj. rewrite list_lookup_alter_ne by done. split; [done|]. split; [done|]. split; [done|].
    intros j' th' E' Hc'. destruct (lookup_alter_thread _ _ _ _ _ _ Et E') as [[-> ->]|[_ E0]]; [simpl in Hc'; congruence|by apply (Hu j' th')].
  - destruct Hl as [Hl Hu]. split; [done|]. intros j' th' E'.
    destruct (lookup_alter_thread _ _ _ _ _ _ Et E') as [[_ ->]|[_ E0]]; [done|by eapply Hu].
Qed.

(** A thread with the lock goes on with it. *)
Lemma lock_kept flag len cur len' cur' (ths : list thread) (i : nat) th c :
  ths !! i = Some th -> critical (pc th) = true -> critical c = true -> lock_ok len' cur' c ->
  lock_inv flag len cur ths -> lock_inv flag len' cur' (alter (set_pc c) i ths).
Proof.
  intros Et Hc0 Hc1 Hok Hl. unfold lock_inv in *. destruct flag; [|destruct Hl as [_ Hu]; specialize (Hu _ _ Et); congruence].
  destruct Hl as (j & thj & Ej & Hc & _ & Hu). assert (i = j) as <- by (by eapply Hu).
  exists i, (set_pc c th). rewrite list_lookup_alter_eq, Et. split; [done|]. split; [done|]. split; [done|].
  intros j' th' E' Hc'. destruct (lookup_alter_thread _ _ _ _ _ _ Et E') as [[-> _]|[_ E0]]; [done|by eapply Hu].
Qed.

Lemma lock_taken len cur (ths : list thread) (i : nat) th c :
  ths !! i = Some th -> critical c = true -> (len = S cur -> lock_ok len cur c) ->
  lock_inv false len cur ths -> lock_inv true len cur (alter (set_pc c) i ths).
Proof.
  intros Et Hc Hok [Hl Hu]. exists i, (set_pc c th). rewrite list_lookup_alter_eq, Et. split; [done|]. split; [done|]. split; [by apply Hok|].
  intros j' th' E' Hc'. destruct (lookup_alter_thread _ _ _ _ _ _ Et E') as [[-> _]|[_ E0]]; [done|]. specialize (Hu _ _ E0). congruence.
Qed.

Lemma lock_released flag len cur (ths : list thread) (i : nat) th c :
  ths !! i = Some th -> critical (pc th) = true -> (lock_ok len cur (pc th) -> len = S cur) -> critical c = false ->
  lock_inv flag len cur ths -> lock_inv false len cur (alter (set_pc c) i ths).
Proof.
  intros Et Hc0 Hlen Hc1 Hl. unfold lock_inv in Hl. destruct flag; [|destruct Hl as [_ Hu]; specialize (Hu _ _ Et); congruence].
  destruct Hl as (j & thj & Ej & Hc & Hok & Hu). assert (i = j) as <- by (by eapply Hu). rewrite Et in Ej. injection Ej as <-.
  split; [by apply Hlen|]. intros j' th' E'. destruct (lookup_alter_thread _ _ _ _ _ _ Et E') as [[_ ->]|[Hj E0]]; [done|].
  destruct (critical (pc th')) eqn:Hcj; [|done]. by destruct Hj; eapply Hu.
Qed.

Lemma lock_holder flag len cur (ths : list thread) (i : nat) th :
  ths !! i = Some th -> critical (pc th) = true -> lock_inv flag len cur ths -> flag = true /\ lock_ok len cur (pc th).
Proof.
  intros Et Hc0 Hl. unfold lock_inv in Hl. destruct flag; [|destruct Hl as [_ Hu]; specialize (Hu _ _ Et); congruence].
  destruct Hl as (j & thj & Ej & Hc & Hok & Hu). assert (i = j) as <- by (by eapply Hu). split; [done|]. congruence.
Qed.

(** Tickets. *)
Lemma ticket_taken count (tk : list (option Z)) (i : nat) :
  tk !! i = Some None -> ticket_inv count tk -> ticket_inv (count + 1) (<[i := Some (count + 1)]> tk).
Proof.
  intros Ei (Hc & Hr & Hu). pose proof (zsum_holder_le tk) as Hle.
  assert (zsum (map holder (<[i := Some (count + 1)]> tk)) = count + 1) as Hs by (rewrite (zsum_map_insert holder _ _ _ _ Ei); simpl; lia).
  split; [by symmetry|]. rewrite length_insert. split.
  - intros j c. destruct (decide (i = j)) as [<-|Hij].
    + rewrite list_lookup_insert_eq by by eapply lookup_lt_Some. intros [= <-].
      pose proof (zsum_holder_le (<[i := Some (count + 1)]> tk)) as Hle'. rewrite length_insert in Hle'.
      assert (0 <= zsum (map holder tk)); [|lia]. apply zsum_map_nonneg. intros [|]; simpl; lia.
    + rewrite list_lookup_insert_ne by done. apply Hr.
  - intros N HN. rewrite (zsum_map_insert (upto N) _ _ _ _ Ei). simpl. destruct (Z.leb_spec (count + 1) N); simpl; [|specialize (Hu N HN); lia].
    pose proof (zsum_upto_le N tk). lia.
Qed.

Lemma ticket_dropped count (tk : list (option Z)) (i : nat) c :
  tk !! i = Some (Some c) -> ticket_inv count tk -> ticket_inv (count - 1) (<[i := None]> tk).
Proof.
  intros Ei (Hc & Hr & Hu). split; [rewrite (zsum_map_insert holder _ _ _ _ Ei); simpl; lia|]. rewrite length_insert. split.
  - intros j c'. destruct (decide (i = j)) as [<-|Hij].
    + by rewrite list_lookup_insert_eq by by eapply lookup_lt_Some.
    + rewrite list_lookup_insert_ne by done. apply Hr.
  - intros N HN. rewrite (zsum_map_insert (upto N) _ _ _ _ Ei). specialize (Hu N HN). simpl. destruct (c <=? N); simpl; lia.
Qed.

Lemma ticket_count count tk : ticket_inv count tk -> 0 <= count <= Z.of_nat (length tk).
Proof.
  intros (-> & _). pose proof (zsum_holder_le tk). split; [|done]. apply zsum_map_nonneg. intros [|]; simpl; lia.
Qed.

Lemma thread_ids_alter i c ths : map thread_id (alter (set_pc c) i ths) = map thread_id ths.
Proof.
  apply list_eq. intros j. rewrite !lookup_map. destruct (decide (i = j)) as [<-|Hij].
  - rewrite list_lookup_alter_eq. by destruct (ths !! i).
  - by rewrite list_lookup_alter_ne.
Qed.

Lemma thread_unique s tk rg pl i j th th' :
  HInv s tk rg pl -> threads s !! i = Some th -> threads s !! j = Some th' -> thread_id th' = thread_id th -> j = i.
Proof.
  intros I Ei Ej Heq. destruct (hi_ids _ _ _ _ I) as [Hnd _]. eapply NoDup_lookup; [exact Hnd|..]; rewrite lookup_map.
  - by rewrite Ej.
  - rewrite Ei. simpl. by rewrite Heq.
Qed.

Lemma insert_lookup_cases {A} (l : list A) i x j y :
  <[i := x]> l !! j = Some y -> (j = i /\ y = x) \/ (j <> i /\ l !! j = Some y).
Proof.
  destruct (decide (i = j)) as [<-|Hij]; [|rewrite list_lookup_insert_ne by done; by right].
  intros E. left. assert (i < length l)%nat as Hl by (apply lookup_lt_Some in E; by rewrite length_insert in E).
  rewrite list_lookup_insert_eq in E by done. split; [done|congruence].
Qed.

(** What a step of thread [i] on other things than the tables has to keep. *)
Lemma same_tables s s' tk rg pl i th n r c' n' r' pl' :
  HInv s tk rg pl -> threads s !! i = Some th -> tk !! i = Some n -> rg !! i = Some r ->
  tables s' = tables s -> (implicitProducerHash s <= implicitProducerHash s' < length (tables s))%nat -> threads s' = alter (set_pc c') i (threads s) ->
  lock_inv (implicitProducerHashResizeInProgress s') (length (tables s)) (implicitProducerHash s') (alter (set_pc c') i (threads s)) ->
  ticket_inv (implicitProducerHashCount s') (<[i := n']> tk) ->
  list_inv (producers s') (producerListTail s') pl' (<[i := r']> rg) ->
  pl ⊆ pl' -> (forall j p, j <> i -> rg !! j = Some (Some p) -> p ∉ pl -> p ∉ pl') ->
  (n' = n /\ r' = r /\ forall k t q, ~ writing (pc th) k t q) \/ absent_from (thread_id th) (tables s) 0 ->
  knows (tables s) (implicitProducerHash s') pl' (thread_id th) c' n' r' ->
  HInv s' (<[i := n']> tk) (<[i := r']> rg) pl'.
Proof.
  intros I Et En Er Hx Hc Hth Hl Hti Hli Hpl Hnew Hown Hk. pose proof I as [I1 I2 I3 I4 I5 I6 I7 I8 I9 I10 I11].
  constructor; rewrite ?Hx, ?Hth; try done.
  - by rewrite !length_insert, length_alter.
  - by rewrite length_alter.
  - split; [by rewrite thread_ids_alter; apply I3|]. intros j th' E.
    destruct (lookup_alter_thread _ _ _ _ _ _ Et E) as [[_ ->]|[_ E0]]; [exact (proj2 I3 _ _ Et)|exact (proj2 I3 _ _ E0)].
  - apply Hc.
  - intros k t Ek q e Ee Hke. destruct (I10 k t Ek q e Ee Hke) as (Hkc & j & thj & c & p & Ej & Hid & Etk & Erg & Hp & Hroom & Hval).
    split; [lia|]. destruct (decide (j = i)) as [->|Hji].
    + assert (thj = th) as -> by congruence. destruct Hown as [(-> & -> & Hw)|Ha].
      * exists i, (set_pc c' th), c, p. rewrite list_lookup_alter_eq, Et. split; [done|]. split; [done|].
        rewrite !list_lookup_insert_eq by (by eapply lookup_lt_Some). split; [congruence|]. split; [congruence|]. split; [by apply Hpl|].
        split; [done|]. left. destruct Hval as [|Hval]; [done|]. by destruct (Hw k t q).
      * exfalso. eapply Ha; [apply Nat.le_0_l|exact Ek|exact Ee|done].
    + exists j, thj, c, p. rewrite list_lookup_alter_ne, !list_lookup_insert_ne by done. repeat (split; [by auto|]). done.
  - intros j thj nj rj Ej Enj Erj. destruct (lookup_alter_thread _ _ _ _ _ _ Et Ej) as [[-> ->]|[Hji E0]].
    + rewrite list_lookup_insert_eq in Enj by by eapply lookup_lt_Some. rewrite list_lookup_insert_eq in Erj by by eapply lookup_lt_Some.
      injection Enj as <-. injection Erj as <-. done.
    + rewrite list_lookup_insert_ne in Enj, Erj by done. destruct (hi_ids _ _ _ _ I) as [_ Hid].
      assert (thread_id thj <> thread_id th) as Hne by (intros Heq; by destruct Hji; eapply (thread_unique _ _ _ _ _ _ _ _ I)).
      apply (knows_other (thread_id th) _ _ _ (evolves_refl _ _) (Hid _ _ Et) (Hid _ _ E0) Hne (implicitProducerHash s) _ pl);
        [lia|done| |by eapply I11]. intros p -> Hp. by eapply Hnew.
Qed.

(** A step that changes at most the position of the thread. *)
Lemma local_step s tk rg pl i th n r c' :
  HInv s tk rg pl -> threads s !! i = Some th -> tk !! i = Some n -> rg !! i = Some r ->
  critical (pc th) = false -> critical c' = false -> (forall k t q, ~ writing (pc th) k t q) ->
  knows (tables s) (implicitProducerHash s) pl (thread_id th) c' n r ->
  HInv (goto i c' s) tk rg pl.
Proof.
  intros I Et En Er Hcr Hcr' Hw Hk. rewrite <- (list_insert_id tk i n En), <- (list_insert_id rg i r Er).
  eapply (same_tables s); try done; simpl.
  - split; [done|apply (hi_current _ _ _ _ I)].
  - eapply lock_same; [done..|apply (hi_lock _ _ _ _ I)].
  - rewrite list_insert_id by done. apply (hi_tickets _ _ _ _ I).
  - rewrite list_insert_id by done. apply (hi_list _ _ _ _ I).
  - by left.
Qed.

(** *** A step on an entry *)
Section entry.
Context (x : list table) (m : nat) (t : table) (q : nat) (e : kvp) (f : kvp -> kvp) (id : Z).
Context (Em : x !! m = Some t) (Eq : entries t !! q = Some e) (Hf : key (f e) = id) (Hk : key e = invalid_thread_id \/ key e = id).

Lemma entry_table k t' : alter (set_entry f q) m x !! k = Some t' ->
  exists t0, x !! k = Some t0 /\ grows id t0 t' /\ forall q' e', entries t' !! q' = Some e' ->
    (k = m /\ q' = q /\ e' = f e) \/ (~ (k = m /\ q' = q) /\ entries t0 !! q' = Some e').
Proof.
  intros Ek. destruct (decide (m = k)) as [<-|Hm].
  - rewrite list_lookup_alter_eq, Em in Ek. injection Ek as <-. exists t. split; [done|]. split; [by eapply set_entry_grows|].
    intros q' e' E'. simpl in E'. destruct (decide (q = q')) as [<-|Hq].
    + rewrite list_lookup_alter_eq, Eq in E'. injection E' as <-. by left.
    + rewrite list_lookup_alter_ne in E' by done. right. split; [by intros [_ ->]|done].
  - rewrite list_lookup_alter_ne in Ek by done. exists t'. split; [done|]. split; [apply grows_refl|].
    intros q' e' E'. right. split; [by intros [-> _]|done].
Qed.

Lemma entry_evolves : evolves id x (alter (set_entry f q) m x).
Proof.
  split.
  - intros k t0 Ek. destruct (decide (m = k)) as [<-|Hm].
    + rewrite list_lookup_alter_eq, Ek. eexists. split; [done|]. rewrite Em in Ek. injection Ek as <-. by eapply set_entry_grows.
    + rewrite list_lookup_alter_ne by done. exists t0. split; [done|apply grows_refl].
  - intros k t' Ek. destruct (entry_table k t' Ek) as (t0 & Et0 & Hg & _). left. by exists t0.
Qed.
End entry.

Lemma entry_step s tk rg pl i th c0 p m t q e d f c' :
  HInv s tk rg pl -> threads s !! i = Some th -> tk !! i = Some (Some c0) -> rg !! i = Some (Some p) -> p ∈ pl ->
  critical (pc th) = false -> critical c' = false ->
  tables s !! m = Some t -> (m <= implicitProducerHash s)%nat -> 4 * c0 < 3 * capacity t ->
  0 <= d < capacity t -> q = slot (thread_id th) t d -> probed (thread_id th) t d -> entries t !! q = Some e ->
  key (f e) = thread_id th -> key e = invalid_thread_id \/ key e = thread_id th ->
  value (f e) = p \/ writing c' m t q -> (forall k t' q', writing (pc th) k t' q' -> k = m) ->
  (forall q', writing (pc th) m t q' -> q' = q) ->
  knows (alter (set_entry f q) m (tables s)) (implicitProducerHash s) pl (thread_id th) c' (Some c0) (Some p) ->
  HInv (goto i c' (store_entry f m q s)) tk rg pl.
Proof.
  intros I Et En Er Hp Hcr Hcr' Em Hm Hroom Hd Hq Hpr Ee Hf Hke Hval Hwm Hw Hkn. pose proof I as [I1 I2 I3 I4 I5 I6 I7 I8 I9 I10 I11].
  set (id := thread_id th) in *. pose proof (entry_table _ _ _ _ _ _ _ Em Ee Hf Hke) as Htab.
  pose proof (entry_evolves _ _ _ _ _ _ _ Em Ee Hf Hke) as Hev. assert (id <> invalid_thread_id) as Hid0 by by apply (proj2 I3 i).
  constructor; simpl; try done.
  - by rewrite length_alter.
  - by rewrite length_alter.
  - split; [by rewrite thread_ids_alter; apply I3|]. intros j th' E.
    destruct (lookup_alter_thread _ _ _ _ _ _ Et E) as [[_ ->]|[_ E0]]; [exact (proj2 I3 _ _ Et)|exact (proj2 I3 _ _ E0)].
  - intros k t' Ek. destruct (Htab k t' Ek) as (t0 & Et0 & Hg & Hent). destruct (I4 k t0 Et0) as (Hwf & Hpl & Hprev).
    split; [by eapply grows_wf|]. split; [|by rewrite (gr_prev _ _ _ Hg)]. intros q' e' Ee' Hk'. destruct (Hent q' e' Ee') as [(-> & -> & ->)|[_ E0]].
    + assert (t0 = t) as -> by congruence. exists d. rewrite Hf, (gr_capacity _ _ _ Hg), (grows_slot _ _ _ _ _ Hg). split; [done|]. split; [done|]. by eapply grows_probed_own.
    + destruct (Hpl q' e' E0 Hk') as (d' & Hd' & Hq' & Hpr'). exists d'. rewrite (gr_capacity _ _ _ Hg), (grows_slot _ _ _ _ _ Hg). split; [done|]. split; [done|].
      destruct (decide (key e' = id)) as [Hki|Hki]; [rewrite Hki in *; by eapply grows_probed_own|by apply (grows_probed _ _ _ _ _ Hid0 Hki Hg)].
  - intros k k' t1 t1' Hkk E1 E1'. destruct (Htab _ _ E1) as (t0 & Et0 & Hg & _). destruct (Htab _ _ E1') as (t0' & Et0' & Hg' & _).
    rewrite (gr_capacity _ _ _ Hg), (gr_capacity _ _ _ Hg'). by eapply (I5 k k').
  - by rewrite length_alter.
  - rewrite length_alter. by eapply lock_same.
  - intros k t' Ek q' e' Ee' Hk'. destruct (Htab k t' Ek) as (t0 & Et0 & Hg & Hent). destruct (Hent q' e' Ee') as [(-> & -> & ->)|[Hne E0]].
    + assert (t0 = t) as -> by congruence. split; [done|]. exists i, (set_pc c' th), c0, p. rewrite list_lookup_alter_eq, Et.
      rewrite (gr_capacity _ _ _ Hg). repeat (split; [done|]). destruct Hval as [|Hval]; [by left|right].
      destruct c'; try done; simpl in *; by rewrite (grows_mask _ _ _ _ Hg).
    + destruct (I10 k t0 Et0 q' e' E0 Hk') as (Hkc & j & thj & c & p' & Ej & Hid & Etk & Erg & Hp' & Hr' & Hv').
      split; [done|]. rewrite (gr_capacity _ _ _ Hg). destruct (decide (j = i)) as [->|Hji].
      * exists i, (set_pc c' th), c, p'. rewrite list_lookup_alter_eq, Et. assert (thj = th) as -> by congruence. repeat (split; [done|]).
        left. destruct Hv' as [|Hv']; [done|]. exfalso. apply Hne. assert (k = m) as -> by by eapply Hwm. split; [done|]. apply Hw. by assert (t0 = t) as <- by congruence.
      * exists j, thj, c, p'. rewrite list_lookup_alter_ne by done. repeat (split; [done|]). destruct Hv' as [|Hv']; [by left|right].
        destruct (pc thj); try done; simpl in *; by rewrite (grows_mask _ _ _ _ Hg).
  - intros j thj nj rj Ej Enj Erj. destruct (lookup_alter_thread _ _ _ _ _ _ Et Ej) as [[-> ->]|[Hji E0]].
    + rewrite En in Enj. rewrite Er in Erj. injection Enj as <-. injection Erj as <-. done.
    + assert (thread_id thj <> id) as Hne by (intros Heq; by destruct Hji; eapply (thread_unique _ _ _ _ _ _ _ _ I)).
      apply (knows_other id _ _ _ Hev Hid0 (proj2 I3 _ _ E0) Hne (implicitProducerHash s) _ pl); [done|done|done|by eapply I11].
Qed.

(** *** A new table *)
Lemma enlarge_spec c : 0 <= c < 2 ^ 58 -> forall fuel e, 1 <= e <= 60 -> 60 - e < Z.of_nat fuel ->
  exists e', e <= e' <= 60 /\ enlarge fuel c (2 ^ e) = Some (2 ^ e') /\ 2 * c < 2 ^ e'.
Proof.
  intros Hc. induction fuel as [|fuel IH]; intros e He Hf; [lia|]. simpl.
  rewrite Z.shiftr_div_pow2, <- Z.pow_sub_r by lia.
  assert (2 ^ e = 2 * 2 ^ (e - 1)) as Hdouble by (rewrite <- Z.pow_succ_r by lia; f_equal; lia).
  destruct (Z.leb_spec (2 ^ (e - 1)) c) as [Hle|Hlt]; [|exists e; split; [lia|]; split; [done|lia]].
  assert (e <> 60) as He60 by (intros ->; change (2 ^ (60 - 1)) with (2 * 2 ^ 58) in Hle; lia).
  rewrite Z.shiftl_mul_pow2, <- Z.pow_add_r by lia. rewrite u64_small.
  - destruct (IH (e + 1)) as (e' & He' & Hen & Hc'); [lia|lia|]. exists e'. split; [lia|done].
  - unfold is_u64. assert (2 ^ (e + 1) <= 2 ^ 60) by (apply Z.pow_le_mono_r; lia). change (2 ^ 60) with 1152921504606846976 in *.
    pose proof (Z.pow_nonneg 2 (e + 1)). lia.
Qed.

#[global] Arguments enlarge : simpl never.

Lemma new_table_wf e p : 5 <= e <= 60 -> wf_table (new_table (2 ^ e) p).
Proof.
  intros He. exists e. split; [done|]. split; [done|]. simpl. rewrite length_replicate. pose proof (Z.pow_nonneg 2 e). lia.
Qed.

Lemma new_table_entry c p q e : entries (new_table c p) !! q = Some e -> key e = invalid_thread_id.
Proof. simpl. by intros [-> _]%lookup_replicate. Qed.

Lemma lookup_snoc_cases {A} (l : list A) x k y : (l ++ [x]) !! k = Some y -> l !! k = Some y \/ (k = length l /\ y = x).
Proof.
  intros E. apply lookup_app_Some in E as [E|[Hl E]]; [by left|right]. apply list_lookup_singleton_Some in E as [Hz <-].
  split; [lia|done].
Qed.

Lemma table_step s tk rg pl i th c0 m t e' :
  HInv s tk rg pl -> threads s !! i = Some th -> tk !! i = Some (Some c0) -> rg !! i = Some None -> pc th = HAlloc m c0 ->
  tables s !! m = Some t -> capacity t < 2 ^ e' -> 5 <= e' <= 60 ->
  HInv (goto i (HStore (length (tables s)) c0) (with_tables (tables s ++ [new_table (2 ^ e') (Some m)]) s)) tk rg pl.
Proof.
  intros I Et En Er Hpc Em Hcap He'. pose proof I as [I1 I2 I3 I4 I5 I6 I7 I8 I9 I10 I11].
  pose proof (I11 i th _ _ Et En Er) as Hkn. rewrite Hpc in Hkn. destruct Hkn as (_ & _ & Ha & _).
  assert (critical (pc th) = true) as Hcr by by rewrite Hpc.
  destruct (lock_holder _ _ _ _ _ _ Et Hcr I7) as [_ Hok]. rewrite Hpc in Hok. destruct Hok as [Hmc Hlen].
  assert (evolves (thread_id th) (tables s) (tables s ++ [new_table (2 ^ e') (Some m)])) as Hev.
  { split.
    - intros k t0 Ek. exists t0. split; [by apply lookup_app_l_Some|apply grows_refl].
    - intros k t' [Ek|[_ ->]]%lookup_snoc_cases; [left; exists t'; split; [done|apply grows_refl]|right]. apply new_table_entry. }
  constructor; simpl; try done.
  - by rewrite length_alter.
  - by rewrite length_alter.
  - split; [by rewrite thread_ids_alter; apply I3|]. intros j th' E.
    destruct (lookup_alter_thread _ _ _ _ _ _ Et E) as [[_ ->]|[_ E0]]; [exact (proj2 I3 _ _ Et)|exact (proj2 I3 _ _ E0)].
  - intros k t' [Ek|[-> ->]]%lookup_snoc_cases; [by apply I4|]. split; [by apply new_table_wf|]. split.
    + intros q e Ee Hk. by rewrite (new_table_entry _ _ _ _ Ee) in Hk.
    + simpl. rewrite Hlen. by rewrite Hmc.
  - intros k k' t1 t2 Hkk [E1|[-> ->]]%lookup_snoc_cases [E2|[-> ->]]%lookup_snoc_cases; [by eapply (I5 k k')| |apply lookup_lt_Some in E2; lia|lia].
    simpl. destruct (decide (k = m)) as [->|Hkm]; [congruence|]. apply Z.lt_trans with (capacity t); [|done]. eapply (I5 k m); [lia|done..].
  - rewrite length_app. simpl. lia.
  - eapply lock_kept; [exact Et|exact Hcr|done| |exact I7]. simpl. rewrite length_app. simpl. lia.
  - intros k t' [Ek|[-> ->]]%lookup_snoc_cases; [|intros q e Ee Hk; by rewrite (new_table_entry _ _ _ _ Ee) in Hk].
    intros q e Ee Hk. destruct (I10 k t' Ek q e Ee Hk) as (Hkc & j & thj & c & p & Ej & Hid & Hrest). split; [done|].
    destruct (decide (j = i)) as [->|Hji]; [exfalso; assert (thj = th) as -> by congruence; by eapply (Ha k t'); [lia|..]|].
    exists j, thj, c, p. by rewrite list_lookup_alter_ne.
  - intros j thj nj rj Ej Enj Erj. destruct (lookup_alter_thread _ _ _ _ _ _ Et Ej) as [[-> ->]|[Hji E0]].
    + rewrite En in Enj. rewrite Er in Erj. injection Enj as <-. injection Erj as <-. simpl. split; [done|]. split; [done|].
      intros k t' _ [Ek|[-> ->]]%lookup_snoc_cases; [by eapply Ha; [apply Nat.le_0_l|]|]. intros q e Ee. rewrite (new_table_entry _ _ _ _ Ee).
      intros Hz. by apply (proj2 I3 _ _ Et).
    + assert (thread_id thj <> thread_id th) as Hne by (intros Heq; by destruct Hji; eapply (thread_unique _ _ _ _ _ _ _ _ I)).
      apply (knows_other _ _ _ _ Hev (proj2 I3 _ _ Et) (proj2 I3 _ _ E0) Hne (implicitProducerHash s) _ pl); [done|done|done|by eapply I11].
Qed.

(** *** The list of producers *)
Lemma chain_store m p nd pl : p ∉ pl -> forall tail, chain m tail pl -> chain (<[p := nd]> m) tail pl.
Proof.
  induction pl as [|q pl IH]; intros Hp tail Hc; [done|]. apply not_elem_of_cons in Hp as [Hpq Hp].
  destruct Hc as (-> & nd' & Eq & Hc). split; [done|]. exists nd'. rewrite lookup_insert_ne by done. split; [done|]. by apply IH.
Qed.

Lemma list_made m tail pl rg i p :
  list_inv m tail pl rg -> rg !! i = Some None -> p <> NULL -> m !! p = None ->
  list_inv (<[p := new_producer]> m) tail pl (<[i := Some p]> rg) /\ p ∉ pl.
Proof.
  intros [L1 L2 L3 L4 L5 L6] Er Hp Em.
  assert (p ∉ pl) as Hpl by (intros Hin; destruct (L5 p Hin) as [j Ej]; destruct (L4 j p Ej); congruence).
  split; [|done]. constructor; try done.
  - by apply chain_store.
  - intros q nd. destruct (decide (q = p)) as [->|]; [rewrite lookup_insert_eq; by intros [= <-]|rewrite lookup_insert_ne by done; apply L3].
  - intros j q [[_ [= ->]]|[_ Ej]]%insert_lookup_cases; [rewrite lookup_insert_eq; by eexists|].
    destruct (decide (q = p)) as [->|]; [rewrite lookup_insert_eq; by eexists|]. rewrite lookup_insert_ne by done. by eapply L4.
  - intros q Hq. destruct (L5 q Hq) as [j Ej]. exists j. rewrite list_lookup_insert_ne; [done|]. intros <-. congruence.
  - intros j k q [[-> [= ->]]|[Hj Ej]]%insert_lookup_cases [[-> Hk]|[Hk Ek]]%insert_lookup_cases; [done| | |by eapply L6].
    + destruct (L4 k p Ek). congruence.
    + injection Hk as ->. destruct (L4 j p Ej). congruence.
Qed.

Lemma list_linked m tail pl rg i p nd v :
  list_inv m tail pl rg -> rg !! i = Some (Some p) -> p ∉ pl -> m !! p = Some nd ->
  let m' := <[p := {| next := v; inactive := inactive nd; isExplicit := isExplicit nd |}]> m in
  list_inv m' tail pl rg /\ (v = tail -> list_inv m' p (p :: pl) rg).
Proof.
  intros [L1 L2 L3 L4 L5 L6] Er Hpl Em m'.
  assert (forall q nd', m' !! q = Some nd' -> q <> NULL /\ inactive nd' = false) as L3'.
  { intros q nd'. unfold m'. destruct (decide (q = p)) as [->|]; [rewrite lookup_insert_eq; intros [= <-]; by apply (L3 p nd)|].
    rewrite lookup_insert_ne by done. apply L3. }
  assert (forall j q, rg !! j = Some (Some q) -> is_Some (m' !! q)) as L4'.
  { intros j q Ej. unfold m'. destruct (decide (q = p)) as [->|]; [rewrite lookup_insert_eq; by eexists|]. rewrite lookup_insert_ne by done. by eapply L4. }
  split; [by constructor; [apply chain_store|..]|]. intros ->. constructor; try done.
  - split; [done|]. eexists. unfold m'. rewrite lookup_insert_eq. split; [done|]. by apply chain_store.
  - by constructor.
  - intros q [->|Hq]%elem_of_cons; [by exists i|by apply L5].
Qed.

(** ** Every step keeps the invariant *)
Lemma entry_at_spec s tk rg pl id k t index d :
  HInv s tk rg pl -> tables s !! k = Some t -> cursor id t index d ->
  exists e, entry_at s k index = Some (t, mask t index, e) /\ entries t !! slot id t d = Some e /\ Z.to_nat (mask t index) = slot id t d.
Proof.
  intros I Et Hc. destruct (hi_tables _ _ _ _ I k t Et) as (Hw & _). destruct (slot_lookup id t d Hw) as [e Ee].
  exists e. pose proof (cursor_slot _ _ _ _ Hw Hc) as Hs. split; [|done]. unfold entry_at. rewrite Et. simpl. by rewrite Hs, Ee.
Qed.

Definition keeps (rg rg' : list (option ptr)) : Prop := forall j p, rg !! j = Some (Some p) -> rg' !! j = Some (Some p).

Lemma producers_kept_refl rg : keeps rg rg.
Proof. by intros j p. Qed.

(** What is proved of the outcome of a step of thread [i]. *)
Definition stepped (tk : list (option Z)) (rg : list (option ptr)) (pl : list ptr) (i : nat) (o : option (state * option result)) : Prop :=
  exists s' r tk' rg' pl', o = Some (s', r) /\ HInv s' tk' rg' pl' /\ keeps rg rg' /\ pl ⊆ pl' /\
    forall j p, r = Some (Returned j p) -> j = i /\ (p = NULL \/ (rg' !! i = Some (Some p) /\ p ∈ pl')).

Lemma stepped_none tk rg pl i s' tk' rg' pl' :
  HInv s' tk' rg' pl' -> keeps rg rg' -> pl ⊆ pl' -> stepped tk rg pl i (Some (s', None)).
Proof. intros I Hk Hpl. by exists s', None, tk', rg', pl'. Qed.

Lemma stepped_same tk rg pl i s' : HInv s' tk rg pl -> stepped tk rg pl i (Some (s', None)).
Proof. intros I. eapply stepped_none; [exact I|apply producers_kept_refl|done]. Qed.

(** [Hpc : pc th = c] where [c] is no store of a value. *)
Ltac not_writing Hpc := intros ? ? ?; rewrite Hpc; intros [].

Section step.
Context (s : state) (tk : list (option Z)) (rg : list (option ptr)) (pl : list ptr) (i : nat) (th : thread) (n : option Z) (r : option ptr).
Context (I : HInv s tk rg pl) (Et : threads s !! i = Some th) (En : tk !! i = Some n) (Er : rg !! i = Some r).

Lemma known : knows (tables s) (implicitProducerHash s) pl (thread_id th) (pc th) n r.
Proof. by eapply (hi_threads _ _ _ _ I). Qed.

Lemma id_valid : thread_id th <> invalid_thread_id.
Proof. by eapply (proj2 (hi_ids _ _ _ _ I)). Qed.

(** A table a thread knows of, with a search that starts there. *)
Lemma start_search m : (m <= implicitProducerHash s)%nat -> searching (thread_id th) (tables s) m (hash_thread_id (thread_id th)).
Proof.
  intros Hm. destruct (lookup_lt_is_Some_2 (tables s) m) as [t E]; [pose proof (hi_current _ _ _ _ I); lia|].
  exists t, 0. split; [done|]. split; [apply cursor_start|apply probed_0].
Qed.

(** The entry of the thread in a table. *)
Lemma own_entry k t q e :
  tables s !! k = Some t -> entries t !! q = Some e -> key e = thread_id th ->
  exists c p, n = Some c /\ r = Some p /\ p ∈ pl /\ (k <= implicitProducerHash s)%nat /\ 4 * c < 3 * capacity t /\
    (value e = p \/ writing (pc th) k t q).
Proof.
  intros Ek Ee Hk. destruct (hi_owned _ _ _ _ I k t Ek q e Ee) as (Hkc & j & thj & c & p & Ej & Hid & Etk & Erg & Hp & Hroom & Hv).
  { rewrite Hk. apply id_valid. }
  assert (j = i) as -> by (eapply (thread_unique _ _ _ _ _ _ _ _ I Et Ej); congruence). assert (thj = th) as -> by congruence.
  exists c, p. repeat (split; [congruence|]). done.
Qed.

Lemma step_probe memory got spurious m h index :
  pc th = HProbe m h index -> stepped tk rg pl i (hstep i memory got spurious s).
Proof.
  intros Hpc. pose proof known as Hk. rewrite Hpc in Hk. destruct Hk as (Hm & Hset & Ha & t & d & Eh & Hc & Hp).
  destruct (entry_at_spec _ _ _ _ _ _ _ _ _ I Eh Hc) as (e & He & Ee & _).
  destruct (hi_tables _ _ _ _ I h t Eh) as (Hw & Hpl & Hprev). unfold hstep. rewrite Et. simpl. rewrite Hpc, He. simpl.
  destruct (Z.eqb_spec (key e) (thread_id th)) as [Hki|Hki]; [|destruct (Z.eqb_spec (key e) invalid_thread_id) as [Hk0|Hk0]].
  - destruct (own_entry _ _ _ _ Eh Ee Hki) as (c & p & -> & -> & Hpin & _ & _ & Hv).
    assert (value e = p) as -> by (destruct Hv as [|Hv]; [done|by rewrite Hpc in Hv]).
    assert (held_before (thread_id th) (tables s) (S h)) as Hheld by (exists h, t; split; [lia|]; split; [done|by eexists _, e]).
    destruct (Nat.eqb_spec h m) as [->|Hhm].
    + eexists _, _, tk, rg, pl. split; [done|]. split; [|split; [apply producers_kept_refl|]; split; [done|]].
      * eapply local_step; try done; [by rewrite Hpc|not_writing Hpc].
      * intros j q [= <- <-]. split; [done|]. by right.
    + apply stepped_same. eapply local_step; try done; [by rewrite Hpc|not_writing Hpc|]. simpl.
      split; [lia|]. split; [by eexists|]. split; [done|]. split; [done|]. split; [eapply held_before_mono; [|exact Hheld]; lia|].
      split; [|by apply start_search; lia]. intros k t' Hkm. apply Ha. lia.
  - pose proof (search_fails _ _ _ _ Hpl id_valid (proj1 Hc) Hp Ee Hk0) as Hat.
    assert (absent_from (thread_id th) (tables s) h) as Hah.
    { intros k t' Hkh Ek. destruct (decide (k = h)) as [->|]; [by assert (t' = t) as -> by congruence|]. apply (Ha k); [lia|done]. }
    rewrite Hprev. destruct h as [|h]; apply stepped_same; (eapply local_step; try done; [by rewrite Hpc|not_writing Hpc|]); simpl.
    + split; [lia|]. destruct Hset as [(-> & -> & _)|(_ & _ & k & t' & _ & Ek & q & e' & Ee' & Hke')]; [done|].
      exfalso. by eapply (Hah k t'); [lia|..].
    + split; [lia|]. split; [done|]. split; [done|]. by apply start_search; lia.
  - apply stepped_same. eapply local_step; try done; [by rewrite Hpc|not_writing Hpc|]. simpl.
    split; [done|]. split; [done|]. split; [done|]. exists t, (d + 1). split; [done|]. split; [by apply cursor_next|by eapply probed_next].
Qed.

(** *** Putting the key in *)
Lemma search_moves m t index d e :
  tables s !! m = Some t -> cursor (thread_id th) t index d -> probed (thread_id th) t d -> entries t !! slot (thread_id th) t d = Some e ->
  absent (thread_id th) t -> key e <> invalid_thread_id ->
  searching (thread_id th) (tables s) m (u64 (mask t index + 1)).
Proof.
  intros Em Hc Hp Ee Ha Hk0. destruct (hi_tables _ _ _ _ I m t Em) as (Hw & _). exists t, (d + 1).
  split; [done|]. split; [by apply cursor_next|]. eapply probed_next; [done..|by eapply Ha].
Qed.

Lemma search_stays m t index d :
  tables s !! m = Some t -> cursor (thread_id th) t index d -> probed (thread_id th) t d ->
  searching (thread_id th) (tables s) m (mask t index).
Proof.
  intros Em Hc Hp. destruct (hi_tables _ _ _ _ I m t Em) as (Hw & _). exists t, d. split; [done|]. split; [by apply cursor_mask|done].
Qed.

(** A search is shorter than the table. *)
Lemma search_short m t d :
  tables s !! m = Some t -> 0 <= d -> probed (thread_id th) t d -> d < capacity t.
Proof.
  intros Em Hd Hp. destruct (hi_tables _ _ _ _ I m t Em) as (Hw & _). destruct (owned_room _ _ _ _ _ _ I Em) as (q & e & Ee & Hk).
  by eapply probed_short.
Qed.

Lemma step_key c' c0 p m t index d e :
  n = Some c0 -> r = Some p -> p ∈ pl -> critical (pc th) = false -> (forall k t q, ~ writing (pc th) k t q) ->
  c' = HLazyValue m (mask t index) p \/ c' = HInsertValue m (mask t index) p ->
  (m <= implicitProducerHash s)%nat -> 4 * c0 < 3 * capacity t -> tables s !! m = Some t ->
  cursor (thread_id th) t index d -> probed (thread_id th) t d ->
  entries t !! slot (thread_id th) t d = Some e -> key e = invalid_thread_id ->
  HInv (goto i c' (store_entry (set_key (thread_id th)) m (Z.to_nat (mask t index)) s)) tk rg pl.
Proof.
  intros -> -> Hp Hcr Hw Hc' Hm Hroom Em Hc Hpr Ee Hk. destruct (hi_tables _ _ _ _ I m t Em) as (Hwf & _).
  pose proof (cursor_slot _ _ _ _ Hwf Hc) as Hs. pose proof (search_short _ _ _ Em (proj1 Hc) Hpr) as Hd. destruct Hc as [Hd0 Hc].
  assert (mask t (mask t index) = mask t index) as Hmm by (rewrite !mask_mod by done; apply Z.mod_mod; pose proof (capacity_range t Hwf); lia).
  assert (grows (thread_id th) t (set_entry (set_key (thread_id th)) (Z.to_nat (mask t index)) t)) as Hg
    by (rewrite Hs; eapply set_entry_grows; [exact Ee|done|by left]).
  assert (standing_at (thread_id th) (alter (set_entry (set_key (thread_id th)) (Z.to_nat (mask t index))) m (tables s)) m (mask t index)) as Hst.
  { eexists _, d, _. rewrite list_lookup_alter_eq, Em. split; [done|]. split; [eapply grows_cursor; [exact Hg|by apply cursor_mask]|].
    split; [by eapply grows_probed_own|]. rewrite (grows_slot _ _ _ _ _ Hg), Hs. simpl. rewrite list_lookup_alter_eq, Ee. done. }
  eapply (entry_step s tk rg pl i th c0 p m t _ e d); try done; [destruct Hc' as [-> | ->]; done|by rewrite Hs|by left| |by intros k t' q' ?%Hw|by intros q' ?%Hw|].
  - right. destruct Hc' as [-> | ->]; simpl; by rewrite Hmm.
  - destruct Hc' as [-> | ->]; simpl; by repeat (split; [by eauto|]).
Qed.

Lemma step_value memory got spurious p m index :
  pc th = HLazyValue m index p \/ pc th = HInsertValue m index p -> stepped tk rg pl i (hstep i memory got spurious s).
Proof.
  intros Hpc. assert ((m <= implicitProducerHash s)%nat /\ is_Some n /\ r = Some p /\ p ∈ pl /\ standing_at (thread_id th) (tables s) m index) as Hk
    by (pose proof known as Hk; by destruct Hpc as [Hpc|Hpc]; rewrite Hpc in Hk).
  destruct Hk as (Hm & [c0 Hn] & Hr & Hp & t & d & e & Em & Hc & Hpr & Ee & Hke).
  destruct (entry_at_spec _ _ _ _ _ _ _ _ _ I Em Hc) as (e' & He & Ee' & Hs). assert (e' = e) as -> by congruence.
  assert (hstep i memory got spurious s = Some (goto i HIdle (store_entry (set_value p) m (Z.to_nat (mask t index)) s), Some (Returned i p))) as ->
    by (unfold hstep; rewrite Et; simpl; destruct Hpc as [-> | ->]; by rewrite He).
  destruct (own_entry _ _ _ _ Em Ee Hke) as (c & p' & Hn' & _ & _ & _ & Hroom & _).
  pose proof (search_short _ _ _ Em (proj1 Hc) Hpr) as Hd. rewrite Hs. rewrite Hn in Hn', En. rewrite Hr in Er. injection Hn' as <-.
  assert (forall k t' q', writing (pc th) k t' q' -> k = m /\ q' = Z.to_nat (mask t' index)) as Hw
    by (intros k t' q'; destruct Hpc as [-> | ->]; by intros [<- <-]).
  eexists _, _, tk, rg, pl. split; [done|]. split; [|split; [apply producers_kept_refl|]; split; [done|]].
  - eapply (entry_step s tk rg pl i th c0 p m t _ e d); try done; [by destruct Hpc as [-> | ->]|split; [apply Hc|done]|by right|by left| | |].
    + intros k t' q' [-> _]%Hw. done.
    + intros q' [_ ->]%Hw. done.
    + simpl. right. split; [by eexists|]. split; [by exists p|]. eexists m, _. rewrite length_alter, list_lookup_alter_eq, Em.
      split; [by eapply lookup_lt_Some|]. split; [done|]. eexists (slot (thread_id th) t d), _. simpl. rewrite list_lookup_alter_eq, Ee. done.
  - intros j q [= <- <-]. split; [done|by right].
Qed.

(** The thread looks for a free place, with a load. *)
Lemma step_look c0 c1 m t index d e :
  (forall c, c = c0 \/ c = c1 -> critical c = false) -> critical (pc th) = false -> (forall k t q, ~ writing (pc th) k t q) ->
  entries t !! slot (thread_id th) t d = Some e -> tables s !! m = Some t -> absent (thread_id th) t ->
  cursor (thread_id th) t index d -> probed (thread_id th) t d ->
  (searching (thread_id th) (tables s) m (mask t index) -> knows (tables s) (implicitProducerHash s) pl (thread_id th) c0 n r) ->
  (searching (thread_id th) (tables s) m (u64 (mask t index + 1)) -> knows (tables s) (implicitProducerHash s) pl (thread_id th) c1 n r) ->
  stepped tk rg pl i (if key e =? invalid_thread_id then Some (goto i c0 s, None) else Some (goto i c1 s, None)).
Proof.
  intros Hcr Hcr' Hw Ee Em Ha Hc Hp H0 H1. destruct (Z.eqb_spec (key e) invalid_thread_id) as [Hk|Hk];
    apply stepped_same; (eapply local_step; try done; [by apply Hcr; auto|]).
  - apply H0. by eapply search_stays.
  - apply H1. by eapply search_moves.
Qed.

(** The same with an exchange, which puts the key in. *)
Lemma step_exchange c0 c1 m t index d e c p :
  critical c1 = false -> critical (pc th) = false -> (forall k t q, ~ writing (pc th) k t q) ->
  entries t !! slot (thread_id th) t d = Some e -> tables s !! m = Some t -> absent (thread_id th) t ->
  cursor (thread_id th) t index d -> probed (thread_id th) t d ->
  n = Some c -> r = Some p -> p ∈ pl -> (m <= implicitProducerHash s)%nat -> 4 * c < 3 * capacity t ->
  c0 = HLazyValue m (mask t index) p \/ c0 = HInsertValue m (mask t index) p ->
  (searching (thread_id th) (tables s) m (u64 (mask t index + 1)) -> knows (tables s) (implicitProducerHash s) pl (thread_id th) c1 n r) ->
  stepped tk rg pl i
    (if key e =? invalid_thread_id
     then Some (goto i c0 (store_entry (set_key (thread_id th)) m (Z.to_nat (mask t index)) s), None)
     else Some (goto i c1 s, None)).
Proof.
  intros Hcr Hcr' Hw Ee Em Ha Hc Hp Hn Hr Hpl Hm Hroom Hc0 H1. destruct (Z.eqb_spec (key e) invalid_thread_id) as [Hk|Hk]; apply stepped_same.
  - by eapply step_key.
  - eapply local_step; try done. apply H1. by eapply search_moves.
Qed.

Lemma absent_at m t k : (k <= m)%nat -> absent_from (thread_id th) (tables s) k -> tables s !! m = Some t -> absent (thread_id th) t.
Proof. intros Hk Ha Em. by eapply Ha. Qed.

(** A thread that is in an older table has room in this one. *)
Lemma held_room m t : held_before (thread_id th) (tables s) m -> tables s !! m = Some t ->
  exists c p, n = Some c /\ r = Some p /\ 4 * c < 3 * capacity t.
Proof.
  intros (h & t0 & Hh & Eh & q & e & Ee & Hk) Em. destruct (own_entry _ _ _ _ Eh Ee Hk) as (c & p & Hn & Hr & _ & _ & Hroom & _).
  exists c, p. split; [done|]. split; [done|]. pose proof (hi_capacities _ _ _ _ I _ _ _ _ Hh Eh Em). lia.
Qed.

Lemma step_lazy memory got spurious m index v :
  pc th = HLazy m index v \/ pc th = HLazyCas m index v -> stepped tk rg pl i (hstep i memory got spurious s).
Proof.
  intros Hpc. assert (knows (tables s) (implicitProducerHash s) pl (thread_id th) (HLazy m index v) n r) as Hk
    by (pose proof known as Hk; by destruct Hpc as [Hpc|Hpc]; rewrite Hpc in Hk).
  destruct Hk as (Hm & Hsn & Hr & Hv & Hh & Ha & t & d & Em & Hc & Hp).
  destruct (entry_at_spec _ _ _ _ _ _ _ _ _ I Em Hc) as (e & He & Ee & _). pose proof (absent_at _ _ _ (le_n m) Ha Em) as Hat.
  destruct (held_room _ _ Hh Em) as (c & p & Hn & Hr' & Hroom). assert (p = v) as -> by congruence.
  unfold hstep. rewrite Et. simpl. destruct Hpc as [Hpc|Hpc]; rewrite Hpc, He; simpl.
  - eapply step_look; try done; [by intros c' [-> | ->]|by rewrite Hpc|not_writing Hpc|..]; intros Hse; by repeat (split; [done|]).
  - eapply step_exchange; try done; [by rewrite Hpc|not_writing Hpc|by auto].
Qed.

Lemma step_insert memory got spurious m index p :
  pc th = HInsert m index p \/ pc th = HInsertCas m index p -> stepped tk rg pl i (hstep i memory got spurious s).
Proof.
  intros Hpc. assert (knows (tables s) (implicitProducerHash s) pl (thread_id th) (HInsert m index p) n r) as Hk
    by (pose proof known as Hk; by destruct Hpc as [Hpc|Hpc]; rewrite Hpc in Hk).
  destruct Hk as (Hmk & Hr & Hv & t & d & Em & Hc & Hp). pose proof Hmk as (Hm & (c & Hn & t' & Em' & Hroom) & Ha).
  assert (t' = t) as -> by congruence.
  destruct (entry_at_spec _ _ _ _ _ _ _ _ _ I Em Hc) as (e & He & Ee & _). pose proof (absent_at _ _ _ (Nat.le_0_l m) Ha Em) as Hat.
  unfold hstep. rewrite Et. simpl. destruct Hpc as [Hpc|Hpc]; rewrite Hpc, He; simpl.
  - eapply step_look; try done; [by intros c' [-> | ->]|by rewrite Hpc|not_writing Hpc|..]; intros Hse; by repeat (split; [done|]).
  - eapply step_exchange; try done; [by rewrite Hpc|not_writing Hpc|by auto].
Qed.

(** *** Counting, resizing and making *)
Lemma quiet_step s' c' :
  tables s' = tables s -> (implicitProducerHash s <= implicitProducerHash s' < length (tables s))%nat ->
  threads s' = alter (set_pc c') i (threads s) -> implicitProducerHashCount s' = implicitProducerHashCount s ->
  producers s' = producers s -> producerListTail s' = producerListTail s ->
  lock_inv (implicitProducerHashResizeInProgress s') (length (tables s)) (implicitProducerHash s') (alter (set_pc c') i (threads s)) ->
  (forall k t q, ~ writing (pc th) k t q) ->
  knows (tables s) (implicitProducerHash s') pl (thread_id th) c' n r -> HInv s' tk rg pl.
Proof.
  intros Hx Hc Hth Hco Hp Ht Hl Hw Hk. rewrite <- (list_insert_id tk i n En), <- (list_insert_id rg i r Er).
  eapply (same_tables s); try done; rewrite ?Hco, ?Hp, ?Ht, ?list_insert_id by done.
  - apply (hi_tickets _ _ _ _ I).
  - apply (hi_list _ _ _ _ I).
  - by left.
Qed.

Lemma ticket_range c : n = Some c -> 1 <= c < 2 ^ 58.
Proof.
  intros Hn. destruct (hi_tickets _ _ _ _ I) as (_ & Hr & _). rewrite Hn in En. specialize (Hr i c En).
  destruct (hi_lengths _ _ _ _ I) as [Hl _]. pose proof (hi_few _ _ _ _ I). lia.
Qed.

Lemma table_at m : (m <= implicitProducerHash s)%nat -> exists t, tables s !! m = Some t.
Proof. intros Hm. apply lookup_lt_is_Some_2. pose proof (hi_current _ _ _ _ I). lia. Qed.

Lemma room_spec t c : wf_table t -> room t c = (4 * c <? 3 * capacity t).
Proof.
  intros Hw. pose proof (capacity_range t Hw). destruct Hw as (e & He & Hc & _). unfold room. rewrite !Z.shiftr_div_pow2 by lia.
  assert (2 ^ e = 4 * 2 ^ (e - 2)) as H4 by (change 4 with (2 ^ 2); rewrite <- Z.pow_add_r by lia; f_equal; lia).
  rewrite u64_small by (unfold is_u64; dlia). rewrite Hc, H4 in *.
  destruct (Z.ltb_spec c (4 * 2 ^ (e - 2) / 2 ^ 1 + 4 * 2 ^ (e - 2) / 2 ^ 2)), (Z.ltb_spec (4 * c) (3 * (4 * 2 ^ (e - 2)))); try done; dlia.
Qed.

Lemma half_spec t c : wf_table t -> Z.shiftr (capacity t) 1 <= c -> capacity t <= 2 * c.
Proof.
  intros (e & He & Hc & _). rewrite Hc, Z.shiftr_div_pow2, <- Z.pow_sub_r by lia.
  assert (2 ^ e = 2 * 2 ^ (e - 1)) as H2 by (rewrite <- Z.pow_succ_r by lia; f_equal; lia). lia.
Qed.

(** The end of the resizing. *)
Lemma proceeds m c s' :
  n = Some c -> r = None -> absent_from (thread_id th) (tables s) 0 -> (m <= implicitProducerHash s)%nat ->
  tables s' = tables s ->
  (forall c', critical c' = false -> knows (tables s) (implicitProducerHash s) pl (thread_id th) c' n r -> HInv (goto i c' s') tk rg pl) ->
  stepped tk rg pl i (proceed i m c s').
Proof.
  intros Hn Hr Ha Hm Hx Hgo. destruct (table_at m Hm) as [t Em]. destruct (hi_tables _ _ _ _ I m t Em) as (Hw & _).
  unfold proceed. rewrite Hx, Em. simpl. apply stepped_same. rewrite room_spec by done.
  destruct (Z.ltb_spec (4 * c) (3 * capacity t)); apply Hgo; try done; simpl.
  split; [|done]. split; [done|]. split; [|done]. exists c. split; [done|]. by exists t.
Qed.

Lemma step_test memory got spurious m c : pc th = HTest m c -> stepped tk rg pl i (hstep i memory got spurious s).
Proof.
  intros Hpc. pose proof known as Hk. rewrite Hpc in Hk. destruct Hk as (Hm & Hn & Hr & Ha).
  destruct (table_at m Hm) as [t Em]. unfold hstep. rewrite Et. simpl. rewrite Hpc, Em. simpl.
  pose proof (hi_lock _ _ _ _ I) as Hl. pose proof (hi_current _ _ _ _ I).
  destruct (_ <=? c) eqn:Hge; [destruct (implicitProducerHashResizeInProgress s) eqn:Hfl|]; simpl.
  1, 3: apply (proceeds m c s); try done; intros c' Hc' Hkn; eapply local_step; try done; [by rewrite Hpc|not_writing Hpc].
  apply stepped_same. eapply quiet_step; try done; simpl; [|not_writing Hpc].
  eapply lock_taken; [exact Et|done|done|exact Hl].
Qed.

Lemma step_reload memory got spurious c : pc th = HReload c -> stepped tk rg pl i (hstep i memory got spurious s).
Proof.
  intros Hpc. pose proof known as Hk. rewrite Hpc in Hk. destruct Hk as (Hn & Hr & Ha).
  destruct (table_at _ (le_n _)) as [t Em]. destruct (hi_tables _ _ _ _ I _ t Em) as (Hw & _).
  unfold hstep. rewrite Et. simpl. rewrite Hpc, Em. simpl. pose proof (hi_lock _ _ _ _ I) as Hl. pose proof (hi_current _ _ _ _ I).
  assert (critical (pc th) = true) as Hcr by by rewrite Hpc. destruct (lock_holder _ _ _ _ _ _ Et Hcr Hl) as [_ Hok]. rewrite Hpc in Hok.
  destruct (Z.leb_spec (Z.shiftr (capacity t) 1) c) as [Hge|Hlt]; apply stepped_same.
  - eapply quiet_step; try done; simpl; [eapply lock_kept; [exact Et|done|done|done|exact Hl]|not_writing Hpc|].
    split; [done|]. split; [done|]. split; [done|]. exists t. split; [done|]. pose proof (half_spec _ _ Hw Hge). lia.
  - eapply quiet_step; try done; simpl; [eapply lock_kept; [exact Et|done|done|done|exact Hl]|not_writing Hpc].
Qed.

Lemma step_alloc memory got spurious m c : pc th = HAlloc m c -> stepped tk rg pl i (hstep i memory got spurious s).
Proof.
  intros Hpc. pose proof known as Hk. rewrite Hpc in Hk. destruct Hk as (Hn & Hr & Ha & t & Em & Hcap).
  destruct (hi_tables _ _ _ _ I _ t Em) as (Hw & _). pose proof (hi_lock _ _ _ _ I) as Hl. pose proof (hi_current _ _ _ _ I).
  assert (critical (pc th) = true) as Hcr by by rewrite Hpc. destruct (lock_holder _ _ _ _ _ _ Et Hcr Hl) as [_ Hok]. rewrite Hpc in Hok.
  destruct Hok as [-> Hlen]. pose proof (ticket_range c Hn) as Hc. destruct Hw as (e & He & Hce & _).
  assert (e < 60) as He60 by (apply (Z.pow_lt_mono_r_iff 2); [lia..|]; change (2 ^ 60) with (4 * 2 ^ 58); lia).
  assert (2 ^ (e + 1) = 2 * 2 ^ e) as Hdouble by (rewrite <- Z.pow_succ_r by lia; f_equal; lia).
  assert (0 < 2 ^ e <= 2 ^ 59) as Hr2 by (split; [lia|apply Z.pow_le_mono_r; lia]).
  assert (u64 (Z.shiftl (capacity t) 1) = 2 ^ (e + 1)) as Hsh.
  { rewrite Hce, Z.shiftl_mul_pow2 by lia. change (2 ^ 1) with 2. rewrite u64_small; [lia|].
    change (2 ^ 59) with 576460752303423488 in Hr2. unfold is_u64. lia. }
  destruct (enlarge_spec c ltac:(lia) 64 (e + 1)) as (e' & He' & Hen & _); [lia|lia|].
  unfold hstep. rewrite Et. simpl. rewrite Hpc, Em. simpl. rewrite Hsh, Hen. simpl. destruct memory; apply stepped_same.
  - rewrite Hn in En. rewrite Hr in Er. eapply table_step; try done; [|lia]. rewrite Hce. apply Z.pow_lt_mono_r; lia.
  - eapply quiet_step; try done; simpl; [eapply lock_kept; [exact Et|done|done|done|exact Hl]|not_writing Hpc].
Qed.

(** A thread that is in no table gives its place in the count back. *)
Lemma drop_step s' c' :
  is_Some n -> r = None -> absent_from (thread_id th) (tables s) 0 ->
  tables s' = tables s -> implicitProducerHash s' = implicitProducerHash s -> threads s' = alter (set_pc c') i (threads s) ->
  implicitProducerHashCount s' = u64 (implicitProducerHashCount s - 1) ->
  producers s' = producers s -> producerListTail s' = producerListTail s ->
  lock_inv (implicitProducerHashResizeInProgress s') (length (tables s)) (implicitProducerHash s) (alter (set_pc c') i (threads s)) ->
  knows (tables s) (implicitProducerHash s) pl (thread_id th) c' None None -> HInv s' (<[i := None]> tk) rg pl.
Proof.
  intros [c Hn] Hr Ha Hx Hc Hth Hco Hp Ht Hl Hk. rewrite <- (list_insert_id rg i r Er), Hr.
  pose proof (hi_tickets _ _ _ _ I) as Hti. pose proof (ticket_count _ _ Hti) as Hcnt. rewrite Hn in En.
  destruct (hi_lengths _ _ _ _ I) as [Hlen _]. pose proof (hi_few _ _ _ _ I) as Hfew. change (2 ^ 58) with 288230376151711744 in Hfew.
  assert (1 <= implicitProducerHashCount s) as H1.
  { pose proof (zsum_map_le holder tk i _ ltac:(intros [|]; simpl; lia) En) as Hle. destruct Hti as (-> & _). simpl in Hle. lia. }
  eapply (same_tables s); try done; rewrite ?Hc; try done.
  - split; [done|apply (hi_current _ _ _ _ I)].
  - rewrite Hco, u64_small by (unfold is_u64; lia). by eapply ticket_dropped.
  - rewrite Hp, Ht, list_insert_id by congruence. apply (hi_list _ _ _ _ I).
  - by right.
Qed.

Lemma step_unlock memory got spurious :
  pc th = HAllocFailed \/ pc th = HClearFailed -> stepped tk rg pl i (hstep i memory got spurious s).
Proof.
  intros Hpc. pose proof known as Hk. pose proof (hi_lock _ _ _ _ I) as Hl. pose proof (hi_current _ _ _ _ I).
  assert (critical (pc th) = true) as Hcr by by destruct Hpc as [-> | ->]. destruct (lock_holder _ _ _ _ _ _ Et Hcr Hl) as [_ Hok].
  unfold hstep. rewrite Et. simpl. destruct Hpc as [Hpc|Hpc]; rewrite Hpc in *.
  - destruct Hk as (Hn & Hr & Ha). eapply stepped_none; [|apply producers_kept_refl|done]. eapply drop_step; try done; simpl.
    eapply lock_kept; [exact Et|by rewrite Hpc|done|done|exact Hl].
  - eexists _, _, tk, rg, pl. split; [done|]. split; [|split; [apply producers_kept_refl|]; split; [done|]].
    + eapply quiet_step; try done; simpl; [eapply lock_released; [exact Et|by rewrite Hpc|by rewrite Hpc|done|exact Hl]|not_writing Hpc|by left].
    + intros j q [= <- <-]. split; [done|by left].
Qed.

Lemma step_store memory got spurious h c : pc th = HStore h c -> stepped tk rg pl i (hstep i memory got spurious s).
Proof.
  intros Hpc. pose proof known as Hk. rewrite Hpc in Hk. pose proof (hi_lock _ _ _ _ I) as Hl.
  assert (critical (pc th) = true) as Hcr by by rewrite Hpc. destruct (lock_holder _ _ _ _ _ _ Et Hcr Hl) as [_ Hok].
  rewrite Hpc in Hok. destruct Hok as [-> Hlen]. unfold hstep. rewrite Et. simpl. rewrite Hpc. apply stepped_same.
  eapply quiet_step; try done; simpl; [lia|eapply lock_kept; [exact Et|done|done|exact Hlen|exact Hl]|not_writing Hpc].
Qed.

Lemma step_clear memory got spurious m c : pc th = HClear m c -> stepped tk rg pl i (hstep i memory got spurious s).
Proof.
  intros Hpc. pose proof known as Hk. rewrite Hpc in Hk. destruct Hk as (Hm & Hn & Hr & Ha). pose proof (hi_lock _ _ _ _ I) as Hl.
  pose proof (hi_current _ _ _ _ I). unfold hstep. rewrite Et. simpl. rewrite Hpc.
  apply (proceeds m c); try done. intros c' Hc' Hkn. eapply quiet_step; try done; simpl; [|not_writing Hpc].
  eapply lock_released; [exact Et|by rewrite Hpc|by rewrite Hpc|done|exact Hl].
Qed.

Lemma step_count memory got spurious m : pc th = HCount m -> stepped tk rg pl i (hstep i memory got spurious s).
Proof.
  intros Hpc. pose proof known as Hk. rewrite Hpc in Hk. destruct Hk as (Hm & Hn & Hr & Ha).
  pose proof (hi_tickets _ _ _ _ I) as Hti. pose proof (ticket_count _ _ Hti) as Hcnt.
  destruct (hi_lengths _ _ _ _ I) as [Hlen _]. pose proof (hi_few _ _ _ _ I) as Hfew. change (2 ^ 58) with 288230376151711744 in Hfew.
  unfold hstep. rewrite Et. simpl. rewrite Hpc. rewrite (Z.add_comm 1), u64_small by (unfold is_u64; lia).
  eapply stepped_none; [|apply producers_kept_refl|done]. rewrite <- (list_insert_id rg i r Er). rewrite Hn in En. rewrite Hr in Er |- *.
  eapply (same_tables s); try done; simpl.
  - split; [done|apply (hi_current _ _ _ _ I)].
  - eapply lock_same; [exact Et|by rewrite Hpc|done|apply (hi_lock _ _ _ _ I)].
  - by apply ticket_taken.
  - rewrite list_insert_id by done. apply (hi_list _ _ _ _ I).
  - by right.
Qed.

(** *** The list of producers *)
Lemma chain_next m tail l : chain m tail l -> (tail = NULL \/ tail ∈ l) /\
  forall p, p ∈ l -> exists nd, m !! p = Some nd /\ (next nd = NULL \/ next nd ∈ l).
Proof.
  revert tail. induction l as [|q l IH]; intros tail Hc; [split; [by left|by intros p ?%elem_of_nil]|].
  destruct Hc as (-> & nd & Eq & Hc). destruct (IH _ Hc) as [H0 H1]. split; [right; by left|].
  intros p [->|Hp]%elem_of_cons.
  - exists nd. split; [done|]. destruct H0; [by left|right; by right].
  - destruct (H1 p Hp) as (nd' & E & [Hn|Hn]); exists nd'; (split; [done|]); [by left|right; by right].
Qed.

(** A step of a thread that makes a producer: the list may change. *)
Lemma list_step s' c' pl' :
  tables s' = tables s -> implicitProducerHash s' = implicitProducerHash s -> threads s' = alter (set_pc c') i (threads s) ->
  implicitProducerHashCount s' = implicitProducerHashCount s ->
  implicitProducerHashResizeInProgress s' = implicitProducerHashResizeInProgress s ->
  list_inv (producers s') (producerListTail s') pl' rg -> pl ⊆ pl' ->
  (forall j p, j <> i -> rg !! j = Some (Some p) -> p ∉ pl -> p ∉ pl') ->
  critical (pc th) = false -> critical c' = false -> (forall k t q, ~ writing (pc th) k t q) ->
  knows (tables s) (implicitProducerHash s) pl' (thread_id th) c' n r -> HInv s' tk rg pl'.
Proof.
  intros Hx Hc Hth Hco Hfl Hli Hpl Hnew Hcr Hcr' Hw Hk. rewrite <- (list_insert_id tk i n En), <- (list_insert_id rg i r Er).
  eapply (same_tables s); try done; rewrite ?Hco, ?Hfl, ?Hc, ?list_insert_id by done; try done.
  - split; [done|apply (hi_current _ _ _ _ I)].
  - eapply lock_same; [exact Et|done|done|apply (hi_lock _ _ _ _ I)].
  - apply (hi_tickets _ _ _ _ I).
  - by left.
Qed.

Lemma step_recycle memory got spurious m p :
  pc th = HRecycle m p -> stepped tk rg pl i (hstep i memory got spurious s).
Proof.
  intros Hpc. pose proof known as Hk. rewrite Hpc in Hk. destruct Hk as (Hm & Hr & Hp). unfold hstep. rewrite Et. simpl. rewrite Hpc.
  destruct (Z.eqb_spec p NULL) as [->|Hnull]; [apply stepped_same; eapply local_step; try done; [by rewrite Hpc|not_writing Hpc]|].
  destruct Hp as [|Hp]; [done|]. pose proof (hi_list _ _ _ _ I) as Hli.
  destruct (chain_next _ _ _ (li_chain _ _ _ _ Hli)) as [_ Hn]. destruct (Hn p Hp) as (nd & Ep & Hnext). rewrite Ep. simpl.
  destruct (li_nodes _ _ _ _ Hli p nd Ep) as [_ ->]. simpl. apply stepped_same.
  eapply local_step; try done; [by rewrite Hpc|not_writing Hpc].
Qed.

Lemma step_create memory got spurious m :
  pc th = HCreate m -> (forall p, got = Some p -> p <> NULL /\ producers s !! p = None) ->
  stepped tk rg pl i (hstep i memory got spurious s).
Proof.
  intros Hpc Hgot. pose proof known as Hk. rewrite Hpc in Hk. destruct Hk as (Hm & Hr). pose proof Hm as (_ & (c & Hn & _) & Ha).
  unfold hstep. rewrite Et. simpl. rewrite Hpc. destruct got as [p|].
  - destruct (Hgot p eq_refl) as [Hp0 Ep]. rewrite bool_decide_eq_false_2 by done.
    rewrite bool_decide_eq_false_2 by (rewrite Ep; by intros []). simpl. rewrite Hr in Er.
    destruct (list_made _ _ _ _ _ _ (hi_list _ _ _ _ I) Er Hp0 Ep) as [Hli Hpl].
    eapply (stepped_none _ _ _ _ _ (<[i := n]> tk)); [| |done].
    + eapply (same_tables s _ tk rg pl i th n None); try done; simpl.
      * split; [done|apply (hi_current _ _ _ _ I)].
      * eapply lock_same; [exact Et|by rewrite Hpc|done|apply (hi_lock _ _ _ _ I)].
      * rewrite list_insert_id by done. apply (hi_tickets _ _ _ _ I).
      * by right.
    + intros j q Ej. rewrite list_lookup_insert_ne; [done|]. intros <-. congruence.
  - apply stepped_same. eapply local_step; try done; [by rewrite Hpc|not_writing Hpc].
Qed.

Lemma step_create_failed memory got spurious :
  pc th = HCreateFailed -> stepped tk rg pl i (hstep i memory got spurious s).
Proof.
  intros Hpc. pose proof known as Hk. rewrite Hpc in Hk. destruct Hk as (Hn & Hr & Ha).
  unfold hstep. rewrite Et. simpl. rewrite Hpc. eexists _, _, _, rg, pl. split; [done|]. split; [|split; [apply producers_kept_refl|]; split; [done|]].
  - eapply drop_step; try done; simpl; [|by left]. eapply lock_same; [exact Et|by rewrite Hpc|done|apply (hi_lock _ _ _ _ I)].
  - intros j q [= <- <-]. split; [done|by left].
Qed.

Lemma step_link memory got spurious m p prevTail :
  pc th = HLink m p prevTail -> stepped tk rg pl i (hstep i memory got spurious s).
Proof.
  intros Hpc. pose proof known as Hk. rewrite Hpc in Hk. destruct Hk as (Hm & Hr & Hp). pose proof (hi_list _ _ _ _ I) as Hli.
  assert (rg !! i = Some (Some p)) as Er' by congruence. destruct (li_made _ _ _ _ Hli i p Er') as [nd Ep].
  destruct (list_linked _ _ _ _ _ _ _ prevTail Hli Er' Hp Ep) as [Hl0 Hl1].
  unfold hstep. rewrite Et. simpl. rewrite Hpc, Ep. simpl.
  destruct (Z.eqb_spec (producerListTail s) prevTail) as [Htl|Htl]; [destruct spurious|]; simpl.
  1, 3: apply stepped_same; eapply list_step; try done; [by rewrite Hpc|not_writing Hpc].
  eapply stepped_none; [|apply producers_kept_refl|by intros q Hq; right].
  eapply list_step; try done; simpl; [by apply Hl1|by intros q Hq; right| |by rewrite Hpc|not_writing Hpc|].
  - intros j q Hj Ej Hq [->|?]%elem_of_cons; [|done]. by destruct Hj; eapply (li_unique _ _ _ _ Hli).
  - split; [done|]. split; [done|]. split; [by left|]. apply start_search. apply Hm.
Qed.

(** A step of the thread, whatever it is at. *)
Lemma step_any memory got spurious :
  pc th <> HIdle -> (forall p, got = Some p -> p <> NULL /\ producers s !! p = None) -> stepped tk rg pl i (hstep i memory got spurious s).
Proof.
  intros Hidle Hgot. pose proof known as Hk. pose proof (hi_current _ _ _ _ I) as Hcur. destruct (pc th) eqn:Hpc; try done;
    try (by eapply step_probe); try (eapply step_lazy; by eauto); try (eapply step_value; by eauto); try (by eapply step_count);
    try (by eapply step_test); try (by eapply step_reload); try (by eapply step_alloc); try (eapply step_unlock; by eauto);
    try (by eapply step_store); try (by eapply step_clear); try (by eapply step_recycle); try (by eapply step_create);
    try (by eapply step_create_failed); try (by eapply step_link); try (eapply step_insert; by eauto).
  - unfold hstep. rewrite Et. simpl. rewrite Hpc. apply stepped_same. eapply local_step; try done; [by rewrite Hpc|not_writing Hpc|]. simpl.
    split; [lia|]. split; [done|]. split; [|by apply start_search].
    intros k t Hkc Ek q e Ee Hke. destruct (own_entry _ _ _ _ Ek Ee Hke) as (_ & _ & _ & _ & _ & Hle & _). lia.
  - destruct Hk as (Hn & Hr & Ha). unfold hstep. rewrite Et. simpl. rewrite Hpc. apply stepped_same.
    eapply local_step; try done; [by rewrite Hpc|not_writing Hpc].
  - destruct Hk as (Hm & Hr). unfold hstep. rewrite Et. simpl. rewrite Hpc. apply stepped_same.
    eapply local_step; try done; [by rewrite Hpc|not_writing Hpc|]. simpl. split; [done|]. split; [done|].
    apply (chain_next _ _ _ (li_chain _ _ _ _ (hi_list _ _ _ _ I))).
  - destruct Hk as (Hm & Hr & Hp). unfold hstep. rewrite Et. simpl. rewrite Hpc. apply stepped_same.
    eapply list_step; try done; [apply (hi_list _ _ _ _ I)|by rewrite Hpc|not_writing Hpc].
  - destruct Hk as (Hm & Hr & Hp). unfold hstep. rewrite Et. simpl. rewrite Hpc. apply stepped_same.
    eapply local_step; try done; [by rewrite Hpc|not_writing Hpc].
Qed.

End step.

(** ** Runs *)
Lemma replicate_lookup_ids (ids : list Z) i th :
  map (fun id => {| thread_id := id; pc := HIdle |}) ids !! i = Some th -> exists id, ids !! i = Some id /\ th = {| thread_id := id; pc := HIdle |}.
Proof. rewrite lookup_map. intros (id & E & ->)%fmap_Some. by exists id. Qed.

Lemma HInv_initial ids :
  NoDup ids -> invalid_thread_id ∉ ids -> Z.of_nat (length ids) < 2 ^ 58 ->
  HInv (initial ids) (replicate (length ids) None) (replicate (length ids) None) [].
Proof.
  intros Hnd H0 Hfew. assert (forall k t, tables (initial ids) !! k = Some t -> k = 0%nat /\ t = new_table 32 None) as Ht
    by (intros k t [Hk <-]%list_lookup_singleton_Some; done).
  constructor.
  - simpl. by rewrite !length_replicate, length_map.
  - simpl. by rewrite length_map.
  - split.
    + simpl. rewrite map_map. by rewrite map_id.
    + intros i th (id & E & ->)%replicate_lookup_ids. simpl. intros ->. apply H0. by eapply list_elem_of_lookup_2.
  - intros k t [-> ->]%Ht. split; [by apply (new_table_wf 5)|]. split; [|done]. intros q e Ee Hk. by rewrite (new_table_entry _ _ _ _ Ee) in Hk.
  - intros k k' t t' Hkk [-> ->]%Ht [-> ->]%Ht. lia.
  - simpl. lia.
  - split; [done|]. intros j th (id & E & ->)%replicate_lookup_ids. done.
  - split; [|split].
    + simpl. unfold zsum. clear. induction (length ids) as [|n IH]; [done|]. simpl. lia.
    + by intros i c [? _]%lookup_replicate.
    + intros N HN. replace (zsum (map (upto N) (replicate (length ids) None))) with 0; [done|].
      unfold zsum. clear. induction (length ids) as [|n IH]; [done|]. simpl. lia.
  - constructor; simpl; try done; try (by intros i p [? _]%lookup_replicate); try (by intros i j p [? _]%lookup_replicate).
    + constructor.
    + by intros p ?%elem_of_nil.
  - intros k t [-> ->]%Ht q e Ee Hk. by rewrite (new_table_entry _ _ _ _ Ee) in Hk.
  - intros i th n r (id & E & ->)%replicate_lookup_ids [-> _]%lookup_replicate [-> _]%lookup_replicate. left.
    split; [done|]. split; [done|]. intros k t _ [_ ->]%Ht q e Ee. rewrite (new_table_entry _ _ _ _ Ee). simpl. intros <-.
    apply H0. by eapply list_elem_of_lookup_2.
Qed.

(** The memory for a producer matters only where one is made. *)
Lemma hstep_got s i memory got spurious th :
  threads s !! i = Some th -> (forall m, pc th <> HCreate m) -> hstep i memory got spurious s = hstep i memory None spurious s.
Proof. intros Et Hc. unfold hstep. rewrite Et. simpl. destruct (pc th) eqn:E; try done. by destruct (Hc mainHash). Qed.

Definition returned_ok (rg : list (option ptr)) (pl : list ptr) (r : result) : Prop :=
  let '(Returned j p) := r in p = NULL \/ (rg !! j = Some (Some p) /\ p ∈ pl).

Lemma ghosts_at s tk rg pl i th :
  HInv s tk rg pl -> threads s !! i = Some th -> exists n r, tk !! i = Some n /\ rg !! i = Some r.
Proof.
  intros I Et. destruct (hi_lengths _ _ _ _ I) as [H1 H2]. apply lookup_lt_Some in Et.
  destruct (lookup_lt_is_Some_2 tk i) as [n En]; [lia|]. destruct (lookup_lt_is_Some_2 rg i) as [r Er]; [lia|]. by exists n, r.
Qed.

Lemma hnext_inv s tk rg pl e s' r :
  HInv s tk rg pl -> hnext e s = Some (s', r) ->
  exists tk' rg' pl', HInv s' tk' rg' pl' /\ keeps rg rg' /\ pl ⊆ pl' /\ forall x, r = Some x -> returned_ok rg' pl' x.
Proof.
  intros I Hs. destruct e as [i|i memory got spurious]; simpl in Hs.
  - destruct (threads s !! i) as [th|] eqn:Et; [|done]. simpl in Hs. destruct (pc th) eqn:Hpc; try done. injection Hs as <- <-.
    destruct (ghosts_at _ _ _ _ _ _ I Et) as (n & r0 & En & Er). exists tk, rg, pl. split; [|split; [apply producers_kept_refl|by split]].
    pose proof (known _ _ _ _ _ _ _ _ I Et En Er) as Hk. rewrite Hpc in Hk.
    eapply local_step; try done; [by rewrite Hpc|not_writing Hpc].
  - destruct (threads s !! i) as [th|] eqn:Et; [|by unfold hstep in Hs; rewrite Et in Hs].
    destruct (ghosts_at _ _ _ _ _ _ I Et) as (n & r0 & En & Er).
    assert (pc th <> HIdle) as Hidle by (intros Hpc; unfold hstep in Hs; by rewrite Et in Hs; simpl in Hs; rewrite Hpc in Hs).
    assert (exists got', hstep i memory got' spurious s = Some (s', r) /\ forall p, got' = Some p -> p <> NULL /\ producers s !! p = None) as (got' & Hs' & Hgot).
    { assert ((exists m, pc th = HCreate m) \/ (forall m, pc th <> HCreate m)) as [[m Hpc]|Hn] by (destruct (pc th); eauto).
      - exists got. split; [done|]. intros p ->. unfold hstep in Hs. rewrite Et in Hs. simpl in Hs. rewrite Hpc in Hs.
        destruct (bool_decide_reflect (p = NULL)) as [|Hp]; [done|]. split; [done|].
        destruct (producers s !! p); [|done]. rewrite bool_decide_eq_true_2 in Hs by by eexists. done.
      - exists None. rewrite <- (hstep_got _ _ _ got _ th Et Hn). by split. }
    destruct (step_any _ _ _ _ _ _ _ _ I Et En Er memory got' spurious Hidle Hgot) as (s1 & r1 & tk' & rg' & pl' & Hs1 & I' & Hk & Hpl & Hret).
    rewrite Hs' in Hs1. injection Hs1 as <- <-. exists tk', rg', pl'. split; [done|]. split; [done|]. split; [done|].
    intros [j p] ->. destruct (Hret j p eq_refl) as [-> Hor]. exact Hor.
Qed.

Lemma hrun_inv es : forall s tk rg pl s' rs,
  HInv s tk rg pl -> hrun es s = Some (s', rs) ->
  exists tk' rg' pl', HInv s' tk' rg' pl' /\ keeps rg rg' /\ pl ⊆ pl' /\ forall x, x ∈ rs -> returned_ok rg' pl' x.
Proof.
  induction es as [|e es IH]; intros s tk rg pl s' rs I Hr; simpl in Hr.
  - injection Hr as <- <-. exists tk, rg, pl. split; [done|]. split; [apply producers_kept_refl|]. split; [done|]. by intros x ?%elem_of_nil.
  - destruct (hnext e s) as [[s1 r]|] eqn:En; [|done]. simpl in Hr.
    destruct (hrun es s1) as [[s2 rs2]|] eqn:Er; [|done]. injection Hr as <- <-.
    destruct (hnext_inv _ _ _ _ _ _ _ I En) as (tk1 & rg1 & pl1 & I1 & Hk1 & Hp1 & Hr1).
    destruct (IH _ _ _ _ _ _ I1 Er) as (tk2 & rg2 & pl2 & I2 & Hk2 & Hp2 & Hr2).
    exists tk2, rg2, pl2. split; [done|]. split; [by intros j p ?%Hk1%Hk2|]. split; [by etrans|].
    intros [j p] [Hin|Hin]%elem_of_app; [|by apply (Hr2 (Returned j p))].
    destruct r as [x|]; [|by apply elem_of_nil in Hin]. apply list_elem_of_singleton in Hin as <-.
    destruct (Hr1 _ eq_refl) as [->|[Hj Hp]]; [by left|right]. split; [by apply Hk2|by apply Hp2].
Qed.

Lemma hrun_start ids es s rs :
  NoDup ids -> invalid_thread_id ∉ ids -> Z.of_nat (length ids) < 2 ^ 58 -> hrun es (initial ids) = Some (s, rs) ->
  exists tk rg pl, HInv s tk rg pl /\ forall x, x ∈ rs -> returned_ok rg pl x.
Proof.
  intros Hnd H0 Hfew Hr. destruct (hrun_inv es _ _ _ _ _ _ (HInv_initial ids Hnd H0 Hfew) Hr) as (tk & rg & pl & I & _ & _ & Hret).
  by exists tk, rg, pl.
Qed.

(** The walk over the list. *)
Lemma chain_walk m l : (forall p, p ∈ l -> p <> NULL) -> forall tail fuel, (length l < fuel)%nat -> chain m tail l -> producers_from fuel m tail = Some l.
Proof.
  induction l as [|p l IH]; intros Hn tail [|fuel] Hf Hc; simpl in Hf; [lia| |lia|].
  - simpl in Hc. by subst tail.
  - destruct Hc as (-> & nd & Ep & Hc). simpl. rewrite (proj2 (Z.eqb_neq p NULL)) by (apply Hn; by left). rewrite Ep. simpl.
    rewrite (IH (fun q Hq => Hn q ltac:(by right)) (next nd) fuel) by (done || lia). done.
Qed.

Lemma producer_list_inv s tk rg pl : HInv s tk rg pl -> producer_list s = Some pl.
Proof.
  intros I. pose proof (hi_list _ _ _ _ I) as Hli. unfold producer_list. apply chain_walk; [| |apply Hli].
  - intros p Hp. destruct (chain_next _ _ _ (li_chain _ _ _ _ Hli)) as [_ Hn]. destruct (Hn p Hp) as (nd & Ep & _).
    by destruct (li_nodes _ _ _ _ Hli p nd Ep).
  - assert (pl ⊆+ omap id rg) as Hs%submseteq_length.
    { apply NoDup_submseteq; [apply Hli|]. intros p Hp. destruct (li_owner _ _ _ _ Hli p Hp) as [j Ej]. apply list_elem_of_omap.
      exists (Some p). split; [by eapply list_elem_of_lookup_2|done]. }
    assert (length (omap id rg) <= length rg)%nat by (clear; induction rg as [|[|] rg IH]; csimpl; lia).
    destruct (hi_lengths _ _ _ _ I). lia.
Qed.

(** *** The theorems *)

(** C8. A thread has one producer and a producer one thread: in every
    interleaving of any number of threads, all the producers that calls of
    [get_or_add_implicit_producer] by the same thread return are the same, calls
    by different threads return different ones, whatever happens to the hash
    table in between; and every producer returned is on the list that consumers
    walk over, which holds no producer twice. *)
Theorem producer_per_thread ids es s rs :
  NoDup ids -> invalid_thread_id ∉ ids -> Z.of_nat (length ids) < 2 ^ 58 ->
  hrun es (initial ids) = Some (s, rs) ->
  (forall i p q, Returned i p ∈ rs -> Returned i q ∈ rs -> p <> NULL -> q <> NULL -> p = q) /\
  (forall i j p, Returned i p ∈ rs -> Returned j p ∈ rs -> p <> NULL -> i = j) /\
  exists l, producer_list s = Some l /\ NoDup l /\ forall i p, Returned i p ∈ rs -> p <> NULL -> p ∈ l.
Proof.
  intros Hnd H0 Hfew Hr. destruct (hrun_start _ _ _ _ Hnd H0 Hfew Hr) as (tk & rg & pl & I & Hret).
  assert (forall i p, Returned i p ∈ rs -> p <> NULL -> rg !! i = Some (Some p) /\ p ∈ pl) as Hok
    by (intros i p Hin Hp; by destruct (Hret _ Hin)).
  pose proof (hi_list _ _ _ _ I) as Hli. split; [|split].
  - intros i p q Hp Hq Hp0 Hq0. destruct (Hok _ _ Hp Hp0) as [E _]. destruct (Hok _ _ Hq Hq0) as [E' _]. congruence.
  - intros i j p Hi Hj Hp. eapply (li_unique _ _ _ _ Hli); by apply Hok.
  - exists pl. split; [by eapply producer_list_inv|]. split; [apply Hli|]. intros i p Hin Hp. by apply (Hok i).
Qed.

(** ** The probing loops end

    A thread in one of the loops that look for a place, and the newest table that
    it knows of. *)
Definition probes_in (c : hpc) : option nat :=
  match c with
  | HProbe m _ _ | HLazy m _ _ | HLazyCas m _ _ | HInsert m _ _ | HInsertCas m _ _ => Some m
  | _ => None
  end.

(** How many steps these loops take at most when that table is [t]: the search goes
    through older, smaller tables, and what it finds there is copied to [t]. *)
Definition budget (c : hpc) (t : table) : Z := match c with HProbe _ _ _ => 4 * capacity t | _ => 2 * capacity t end.

(** The steps that thread [i] makes. *)
Fixpoint own_steps (i : nat) (es : list event) : Z :=
  match es with
  | [] => 0
  | HStep j _ _ _ :: es => (if (i =? j)%nat then 1 else 0) + own_steps i es
  | GetOrAdd _ :: es => own_steps i es
  end.

(** The number of places before [index], and what is left of the loops: every
    place takes at most a load and an exchange. *)
Definition passed (id : Z) (t : table) (index : Z) : Z := (index - hash_thread_id id) mod capacity t.
Definition left_in (id : Z) (x : list table) (m : nat) (index : Z) : Z :=
  match x !! m with Some t => 2 * (capacity t - passed id t index) | None => 0 end.
Definition rank (id : Z) (x : list table) (c : hpc) : Z :=
  match c with
  | HProbe m h index =>
      match x !! m, x !! h with Some t, Some t' => 2 * capacity t + 2 * capacity t' - passed id t' index | _, _ => 0 end
  | HLazy m index _ | HInsert m index _ => left_in id x m index
  | HLazyCas m index _ | HInsertCas m index _ => left_in id x m index - 1
  | _ => 0
  end.

Lemma passed_cursor id t index d : 0 < capacity t -> cursor id t index d -> d < capacity t -> passed id t index = d.
Proof.
  intros Hcap [H0 Hc] Hd. unfold passed. rewrite <- Zminus_mod_idemp_l, Hc, Zminus_mod_idemp_l.
  replace (hash_thread_id id + d - hash_thread_id id) with d by lia. by apply Z.mod_small.
Qed.

(** Capacities are powers of two. *)
Lemma capacity_doubles s tk rg pl k k' t t' :
  HInv s tk rg pl -> (k < k')%nat -> tables s !! k = Some t -> tables s !! k' = Some t' -> 2 * capacity t <= capacity t'.
Proof.
  intros I Hk Et Et'. pose proof (hi_capacities _ _ _ _ I _ _ _ _ Hk Et Et') as Hlt.
  destruct (hi_tables _ _ _ _ I _ _ Et) as ((e & He & Hc & _) & _), (hi_tables _ _ _ _ I _ _ Et') as ((e' & He' & Hc' & _) & _).
  rewrite Hc, Hc' in *. apply Z.pow_lt_mono_r_iff in Hlt; [|lia..]. rewrite <- Z.pow_succ_r by lia. apply Z.pow_le_mono_r; lia.
Qed.

Section probing.
Context (s : state) (tk : list (option Z)) (rg : list (option ptr)) (pl : list ptr) (i : nat) (th : thread) (n : option Z) (r : option ptr).
Context (I : HInv s tk rg pl) (Et : threads s !! i = Some th) (En : tk !! i = Some n) (Er : rg !! i = Some r).

(** Where a search is, by the number of places it has passed. *)
Lemma searching_passed k t index :
  searching (thread_id th) (tables s) k index -> tables s !! k = Some t ->
  cursor (thread_id th) t index (passed (thread_id th) t index) /\ probed (thread_id th) t (passed (thread_id th) t index) /\
  0 <= passed (thread_id th) t index < capacity t.
Proof.
  intros (t' & d & Ek & Hc & Hp) Ek'. assert (t' = t) as -> by congruence. destruct (hi_tables _ _ _ _ I k t Ek) as (Hw & _).
  pose proof (search_short _ _ _ _ _ I _ _ _ Ek (proj1 Hc) Hp) as Hd. pose proof (capacity_range _ Hw).
  rewrite (passed_cursor _ _ _ d) by (done || lia). split; [done|]. split; [done|]. split; [apply Hc|done].
Qed.

Lemma passed_start t : wf_table t -> passed (thread_id th) t (hash_thread_id (thread_id th)) = 0.
Proof. intros Hw. pose proof (capacity_range _ Hw). apply passed_cursor; [lia|apply cursor_start|lia]. Qed.

Lemma passed_next k t index e :
  searching (thread_id th) (tables s) k index -> tables s !! k = Some t -> entries t !! Z.to_nat (mask t index) = Some e ->
  key e <> invalid_thread_id -> key e <> thread_id th ->
  passed (thread_id th) t (u64 (mask t index + 1)) = passed (thread_id th) t index + 1.
Proof.
  intros Hs Ek Ee H0 Hn. destruct (searching_passed _ _ _ Hs Ek) as (Hc & Hp & Hd). destruct (hi_tables _ _ _ _ I k t Ek) as (Hw & _).
  rewrite (cursor_slot _ _ _ _ Hw Hc) in Ee. pose proof (probed_next _ _ _ _ Hp Ee H0 Hn) as Hp'.
  assert (passed (thread_id th) t index + 1 < capacity t) by (eapply search_short; [exact I|exact Ek|lia|exact Hp']). apply passed_cursor; [lia|by apply cursor_next|done].
Qed.

Lemma passed_mask t index : wf_table t -> passed (thread_id th) t (mask t index) = passed (thread_id th) t index.
Proof.
  intros Hw. pose proof (capacity_range _ Hw). unfold passed. rewrite mask_mod by done. apply Zminus_mod_idemp_l.
Qed.

Lemma rank_bounds m t :
  probes_in (pc th) = Some m -> tables s !! m = Some t -> 0 < rank (thread_id th) (tables s) (pc th) <= budget (pc th) t.
Proof.
  intros Hm Em. pose proof (known _ _ _ _ _ _ _ _ I Et En Er) as Hk. unfold rank, budget, left_in.
  destruct (pc th) as [| |m' h index|m' index v|m' index v| | | | | | | | | | | | | | | | | | | |m' index v|m' index v|]; try done; injection Hm as ->.
  2-5: assert (searching (thread_id th) (tables s) m index) as Hs by apply Hk; rewrite Em;
    destruct (searching_passed _ _ _ Hs Em) as (_ & _ & Hd); lia.
  destruct Hk as (Hle & _ & _ & Hs). pose proof Hs as (t' & _ & Eh & _). rewrite Em, Eh. destruct (searching_passed _ _ _ Hs Eh) as (_ & _ & Hd).
  assert (capacity t' <= capacity t); [|lia]. destruct (decide (h = m)) as [->|Hne]; [assert (t' = t) as -> by congruence; lia|].
  pose proof (hi_capacities _ _ _ _ I h m _ _ ltac:(lia) Eh Em). lia.
Qed.

Lemma rank_pos m : probes_in (pc th) = Some m -> 0 < rank (thread_id th) (tables s) (pc th).
Proof.
  intros Hm. assert (exists t, tables s !! m = Some t) as [t Em]; [|apply (rank_bounds m t Hm Em)].
  apply (table_at _ _ _ _ I). pose proof (known _ _ _ _ _ _ _ _ I Et En Er) as Hk. destruct (pc th); try done; injection Hm as <-; apply Hk.
Qed.

(** One step of the loop in a table: to the next place, from the load to the exchange, or out. *)
Lemma rank_look k t index e :
  searching (thread_id th) (tables s) k index -> absent (thread_id th) t -> tables s !! k = Some t ->
  entry_at s k index = Some (t, mask t index, e) ->
  (key e <> invalid_thread_id -> left_in (thread_id th) (tables s) k (u64 (mask t index + 1)) < left_in (thread_id th) (tables s) k index - 1) /\
  left_in (thread_id th) (tables s) k (mask t index) = left_in (thread_id th) (tables s) k index.
Proof.
  intros Hs Ha Ek He. unfold left_in. rewrite Ek. destruct (hi_tables _ _ _ _ I k t Ek) as (Hw & _). split; [|by rewrite passed_mask].
  intros H0. unfold entry_at in He. rewrite Ek in He. simpl in He. destruct (entries t !! _) as [e'|] eqn:Ee; [|done]. injection He as ->.
  rewrite (passed_next _ _ _ _ Hs Ek Ee H0) by by eapply Ha. lia.
Qed.

Definition nearer (m : nat) (o : option (state * option result)) : Prop :=
  exists s' r' c', o = Some (s', r') /\ threads s' = alter (set_pc c') i (threads s) /\
    (probes_in c' = None \/
     (tables s' = tables s /\ probes_in c' = Some m /\ rank (thread_id th) (tables s) c' < rank (thread_id th) (tables s) (pc th))).

Lemma nearer_goto m c' r' : (probes_in c' = Some m -> rank (thread_id th) (tables s) c' < rank (thread_id th) (tables s) (pc th)) ->
  (probes_in c' = None \/ probes_in c' = Some m) -> nearer m (Some (goto i c' s, r')).
Proof. intros Hr [Hc|Hc]; eexists _, _, c'; split_and!; [done|done|by left|done|done|right; by auto]. Qed.

Lemma nearer_probe memory got spurious m h index : pc th = HProbe m h index -> nearer m (hstep i memory got spurious s).
Proof.
  intros Hpc. pose proof (known _ _ _ _ _ _ _ _ I Et En Er) as Hk. rewrite Hpc in Hk. destruct Hk as (Hle & _ & _ & Hs).
  pose proof Hs as (t & _ & Eh & _). destruct (table_at _ _ _ _ I m (proj2 Hle)) as [tm Em].
  destruct (searching_passed _ _ _ Hs Eh) as (Hc & Hp & Hd). destruct (entry_at_spec _ _ _ _ _ _ _ _ _ I Eh Hc) as (e & He & Ee & Hq).
  destruct (hi_tables _ _ _ _ I h t Eh) as (Hw & _ & Hprev), (hi_tables _ _ _ _ I m tm Em) as (Hwm & _).
  unfold hstep. rewrite Et. simpl. rewrite Hpc, He. simpl.
  destruct (Z.eqb_spec (key e) (thread_id th)) as [Hki|Hki]; [|destruct (Z.eqb_spec (key e) invalid_thread_id) as [Hk0|Hk0]].
  - destruct (h =? m)%nat; [by apply nearer_goto; [|left]|]. apply nearer_goto; [|by right]. intros _.
    rewrite Hpc. unfold rank, left_in. rewrite Em, Eh, passed_start by done. lia.
  - rewrite Hprev. destruct h as [|h]; [by apply nearer_goto; [|left]|]. apply nearer_goto; [|by right]. intros _.
    destruct (lookup_lt_is_Some_2 (tables s) h) as [t' Eh']; [apply lookup_lt_Some in Eh; lia|].
    destruct (hi_tables _ _ _ _ I h t' Eh') as (Hw' & _). pose proof (capacity_doubles _ _ _ _ _ _ _ _ I (Nat.lt_succ_diag_r h) Eh' Eh).
    rewrite Hpc. unfold rank. rewrite Em, Eh, Eh', passed_start by done. lia.
  - apply nearer_goto; [|by right]. intros _. rewrite Hpc. unfold rank. rewrite Em, Eh.
    rewrite (passed_next _ _ _ e Hs Eh) by (done || by rewrite Hq). lia.
Qed.

(** Looking for a free place. *)
Lemma nearer_place memory got spurious m index p :
  pc th = HLazy m index p \/ pc th = HLazyCas m index p \/ pc th = HInsert m index p \/ pc th = HInsertCas m index p ->
  nearer m (hstep i memory got spurious s).
Proof.
  intros Hpc. assert (searching (thread_id th) (tables s) m index /\ absent_from (thread_id th) (tables s) m) as [Hs Ha].
  { pose proof (known _ _ _ _ _ _ _ _ I Et En Er) as Hk. destruct Hpc as [Hpc|[Hpc|[Hpc|Hpc]]]; rewrite Hpc in Hk;
      [by split; apply Hk|by split; apply Hk|..]; (split; [apply Hk|]); destruct Hk as ((_ & _ & Ha) & _); intros k t _; apply Ha; lia. }
  pose proof Hs as (t & _ & Em & _). destruct (searching_passed _ _ _ Hs Em) as (Hc & _).
  destruct (entry_at_spec _ _ _ _ _ _ _ _ _ I Em Hc) as (e & He & _). destruct (rank_look _ _ _ _ Hs (Ha m t (le_n m) Em) Em He) as [Hnext Hsame].
  unfold hstep. rewrite Et. simpl.
  destruct Hpc as [Hpc|[Hpc|[Hpc|Hpc]]]; rewrite Hpc, He; simpl; destruct (Z.eqb_spec (key e) invalid_thread_id) as [H0|H0];
    try (apply nearer_goto; [intros _; rewrite Hpc; simpl; try specialize (Hnext H0); lia|by right]);
    eexists _, _, _; (split; [done|]; split; [done|by left]).
Qed.

Lemma nearer_step memory got spurious m : probes_in (pc th) = Some m -> nearer m (hstep i memory got spurious s).
Proof.
  intros Hm. destruct (pc th) eqn:Hpc; try done; injection Hm as ->; [by eapply nearer_probe|..]; eapply nearer_place; by eauto.
Qed.

End probing.

(** What other threads do to a thread and to the capacities of the tables. *)
Definition apart (i : nat) (s s' : state) : Prop :=
  threads s' !! i = threads s !! i /\ forall k t, tables s !! k = Some t -> exists t', tables s' !! k = Some t' /\ capacity t' = capacity t.

Lemma apart_same i j c s s' : j <> i -> threads s' = alter (set_pc c) j (threads s) -> tables s' = tables s -> apart i s s'.
Proof. intros Hj Ht Hx. split; [by rewrite Ht, list_lookup_alter_ne|]. intros k t E. exists t. by rewrite Hx. Qed.

Lemma apart_entry i j c f k q s : j <> i -> apart i s (goto j c (store_entry f k q s)).
Proof.
  intros Hj. split; [simpl; by rewrite list_lookup_alter_ne|]. intros k' t E. simpl. destruct (decide (k = k')) as [->|Hk].
  - rewrite list_lookup_alter_eq, E. by eexists.
  - rewrite list_lookup_alter_ne, E by done. by eexists.
Qed.

Lemma apart_table i j c t0 s : j <> i -> apart i s (goto j c (with_tables (tables s ++ [t0]) s)).
Proof. intros Hj. split; [simpl; by rewrite list_lookup_alter_ne|]. intros k t E. exists t. split; [by apply lookup_app_l_Some|done]. Qed.

Lemma step_apart i j memory got spurious s s' r : j <> i -> hstep j memory got spurious s = Some (s', r) -> apart i s s'.
Proof.
  intros Hj Hs. unfold hstep, proceed in Hs. destruct (threads s !! j) as [th|] eqn:Et; [|done]. simpl in Hs.
  destruct (pc th) eqn:Hpc; simpl in Hs;
    repeat match type of Hs with
    | mbind _ _ = Some _ => apply bind_Some in Hs as (? & ? & Hs)
    | match ?x with _ => _ end = Some _ => destruct x eqn:?
    | Some _ = Some _ => injection Hs as <- <-
    | None = Some _ => discriminate Hs
    end;
    first [by apply apart_entry|by apply apart_table|by eapply apart_same].
Qed.

Lemma apart_rank i s s' th m :
  apart i s s' -> (exists tk rg pl n r, HInv s tk rg pl /\ threads s !! i = Some th /\ tk !! i = Some n /\ rg !! i = Some r) ->
  probes_in (pc th) = Some m -> rank (thread_id th) (tables s') (pc th) = rank (thread_id th) (tables s) (pc th).
Proof.
  intros [_ Hx] (tk & rg & pl & n & r & I & Et & En & Er) Hm. pose proof (known _ _ _ _ _ _ _ _ I Et En Er) as Hk.
  assert (forall k index, searching (thread_id th) (tables s) k index -> exists t t', tables s !! k = Some t /\ tables s' !! k = Some t' /\ capacity t' = capacity t) as Hsr.
  { intros k index (t & _ & Ek & _). destruct (Hx _ _ Ek) as (t' & Ek' & Hc). by exists t, t'. }
  unfold rank, left_in, passed. destruct (pc th) as [| |m' h index|m' index v|m' index v| | | | | | | | | | | | | | | | | | | |m' index v|m' index v|]; try done.
  2-5: destruct (Hsr m' index) as (t & t' & -> & -> & ->); [apply Hk|done].
  destruct Hk as (Hle & _ & _ & Hs). destruct (Hsr _ _ Hs) as (t & t' & -> & -> & ->).
  destruct (table_at _ _ _ _ I m' (proj2 Hle)) as [tm Em]. destruct (Hx _ _ Em) as (tm' & Em' & Hc). by rewrite Em, Em', Hc.
Qed.

(** Leaving the loops within [n] own steps. *)
Definition leaves (i : nat) (es : list event) (s : state) (n : Z) : Prop :=
  exists es1 es2 s1 rs1 th1, es = es1 ++ es2 /\ own_steps i es1 <= n /\
    hrun es1 s = Some (s1, rs1) /\ threads s1 !! i = Some th1 /\ probes_in (pc th1) = None.

Lemma own_steps_cons i e es : own_steps i (e :: es) = own_steps i [e] + own_steps i es.
Proof. destruct e; simpl; lia. Qed.

Lemma leaves_cons i e es s s1 r1 n :
  hnext e s = Some (s1, r1) -> leaves i es s1 (n - own_steps i [e]) -> leaves i (e :: es) s n.
Proof.
  intros En (es1 & es2 & s2 & rs2 & th & -> & Ho & Hr & Hth). exists (e :: es1), es2, s2, (option_list r1 ++ rs2), th.
  split; [done|]. split; [rewrite own_steps_cons; lia|]. simpl. rewrite En. simpl. by rewrite Hr.
Qed.

Lemma leaves_now i es s th n : threads s !! i = Some th -> probes_in (pc th) = None -> 0 <= n -> leaves i es s n.
Proof. intros Et Hp Hn. by exists [], es, s, [], th. Qed.

(** A thread with enough steps leaves the loops. *)
Lemma probes_leave i es : forall s tk rg pl th m s' rs,
  HInv s tk rg pl -> threads s !! i = Some th -> probes_in (pc th) = Some m -> hrun es s = Some (s', rs) ->
  rank (thread_id th) (tables s) (pc th) <= own_steps i es -> leaves i es s (rank (thread_id th) (tables s) (pc th)).
Proof.
  induction es as [|e es IH]; intros s tk rg pl th m s' rs I Et Hm Hr Hn;
    destruct (ghosts_at _ _ _ _ _ _ I Et) as (n & r & En & Er); pose proof (rank_pos _ _ _ _ _ _ _ _ I Et En Er m Hm) as Hpos.
  { simpl in Hn. lia. }
  simpl in Hr. destruct (hnext e s) as [[s1 r1]|] eqn:Enx; [|done]. simpl in Hr.
  destruct (hrun es s1) as [[s2 rs2]|] eqn:Er2; [|done]. destruct (hnext_inv _ _ _ _ _ _ _ I Enx) as (tk1 & rg1 & pl1 & I1 & _).
  rewrite own_steps_cons in Hn. apply (leaves_cons _ _ _ _ _ _ _ Enx).
  assert (apart i s s1 -> own_steps i [e] = 0 -> leaves i es s1 (rank (thread_id th) (tables s) (pc th) - own_steps i [e])) as Hother.
  { intros Ha H0. pose proof (apart_rank _ _ _ _ _ Ha ltac:(by eexists _, _, _, _, _) Hm) as Hrk. rewrite H0, Z.sub_0_r, <- Hrk.
    eapply (IH s1); [exact I1|by rewrite (proj1 Ha)|exact Hm|exact Er2|lia]. }
  destruct e as [j|j memory got spurious]; simpl in Enx.
  - destruct (threads s !! j) as [thj|] eqn:Ej; [|done]. simpl in Enx. destruct (pc thj) eqn:Hpj; try done. injection Enx as <- <-.
    apply Hother; [|done]. eapply apart_same; [|done..]. intros ->. assert (thj = th) as -> by congruence. by rewrite Hpj in Hm.
  - destruct (decide (j = i)) as [->|Hji]; [|apply Hother; [by eapply step_apart|simpl; by rewrite (proj2 (Nat.eqb_neq i j))]].
    destruct (nearer_step _ _ _ _ _ _ _ _ I Et En Er memory got spurious m Hm) as (s1' & r1' & c' & Hs1 & Hth & Hc).
    rewrite Enx in Hs1. injection Hs1 as <- <-. simpl in Hn |- *. rewrite Nat.eqb_refl in *.
    assert (threads s1 !! i = Some (set_pc c' th)) as Et1 by by rewrite Hth, list_lookup_alter_eq, Et.
    destruct Hc as [Hc|(Hx & Hin & Hrk)]; [eapply leaves_now; [exact Et1|exact Hc|lia]|].
    assert (leaves i es s1 (rank (thread_id th) (tables s1) c')) as (es1 & es2 & Hl).
    { eapply (IH s1 _ _ _ (set_pc c' th)); [exact I1|exact Et1|exact Hin|exact Er2|]. simpl. rewrite Hx. lia. }
    exists es1, es2. destruct Hl as (s3 & rs3 & th3 & Heq & Ho & Hrest). exists s3, rs3, th3. rewrite Hx in Ho. split; [done|]. split; [lia|done].
Qed.

(** C9. The probing loops end: a thread that looks for its key, in the newest table
    it knows of and in the older ones, or for a free place in the newest one, [t],
    has found what it looks for, or that its key is nowhere, after at most four times
    as many steps of its own as [t] has places (twice as many for a free place), whatever
    the other threads do between them.  And nothing goes wrong on the way: a thread in the
    middle of a call can take its next step, as long as the allocator gives out
    fresh memory. *)
Theorem hash_probes_end ids es s rs i th :
  NoDup ids -> invalid_thread_id ∉ ids -> Z.of_nat (length ids) < 2 ^ 58 ->
  hrun es (initial ids) = Some (s, rs) -> threads s !! i = Some th ->
  (forall m t es' s' rs', probes_in (pc th) = Some m -> tables s !! m = Some t ->
     hrun es' s = Some (s', rs') -> budget (pc th) t <= own_steps i es' -> leaves i es' s (budget (pc th) t)) /\
  (pc th <> HIdle -> forall memory got spurious, (forall p, got = Some p -> p <> NULL /\ producers s !! p = None) ->
     is_Some (hstep i memory got spurious s)).
Proof.
  intros Hnd H0 Hfew Hr Et. destruct (hrun_start _ _ _ _ Hnd H0 Hfew Hr) as (tk & rg & pl & I & _).
  destruct (ghosts_at _ _ _ _ _ _ I Et) as (n & r & En & Er). split.
  - intros m t es' s' rs' Hm Em Hr' Hn. pose proof (rank_bounds _ _ _ _ _ _ _ _ I Et En Er m t Hm Em) as Hb.
    destruct (probes_leave i es' _ _ _ _ _ _ _ _ I Et Hm Hr' ltac:(lia)) as (es1 & es2 & s1 & rs1 & th1 & -> & Ho & Hrest).
    exists es1, es2, s1, rs1, th1. split; [done|]. split; [lia|done].
  - intros Hidle memory got spurious Hgot.
    destruct (step_any _ _ _ _ _ _ _ _ I Et En Er memory got spurious Hidle Hgot) as (s' & r' & _ & _ & _ & -> & _). by eexists.
Qed.

Definition failing (c : hpc) : bool := match c with HAllocFailed | HClearFailed | HCreateFailed => true | _ => false end.

Definition served (e : event) : Prop := match e with HStep _ memory got _ => memory = true /\ got <> None | GetOrAdd _ => True end.

Lemma served_step s tk rg pl i memory got spurious th s' r :
  HInv s tk rg pl -> threads s !! i = Some th -> failing (pc th) = false -> memory = true -> got <> None ->
  hstep i memory got spurious s = Some (s', r) ->
  (exists c, failing c = false /\ threads s' = alter (set_pc c) i (threads s)) /\ forall j, r <> Some (Returned j NULL).
Proof.
  intros I Et Hf -> Hgot Hs. destruct (ghosts_at _ _ _ _ _ _ I Et) as (n & r0 & En & Er).
  pose proof (known _ _ _ _ _ _ _ _ I Et En Er) as Hk.
  assert (forall p, r0 = Some p -> p <> NULL) as Hp.
  { intros p ->. pose proof (hi_list _ _ _ _ I) as Hli. destruct (li_made _ _ _ _ Hli i p Er) as [nd Ep]. by destruct (li_nodes _ _ _ _ Hli p nd Ep). }
  assert (forall m h index t e, pc th = HProbe m h index -> entry_at s h index = Some (t, mask t index, e) -> key e = thread_id th -> value e <> NULL) as Hv.
  { intros m h index t e Hpc He Hke. unfold entry_at in He. destruct (tables s !! h) as [t'|] eqn:Eh; [|done]. simpl in He.
    destruct (entries t' !! _) as [e'|] eqn:Ee; [|done]. simpl in He. simplify_eq.
    destruct (own_entry _ _ _ _ _ _ _ _ I Et En Er _ _ _ _ Eh Ee Hke) as (c & p & _ & Hr0 & _ & _ & _ & [->|Hw]); [by apply Hp|by rewrite Hpc in Hw]. }
  assert (forall k index x, entry_at s k index = Some x -> x = (x.1.1, mask x.1.1 index, x.2)) as He.
  { intros k index x Hx. unfold entry_at in Hx. destruct (tables s !! k) as [t'|]; [|done]. simpl in Hx.
    destruct (entries t' !! _) as [e'|]; [|done]. by injection Hx as <-. }
  unfold hstep, proceed in Hs. rewrite Et in Hs. simpl in Hs.
  destruct (pc th) eqn:Hpc; try discriminate Hf;
    repeat match type of Hs with
    | mbind _ _ = Some _ => apply bind_Some in Hs as (? & ? & Hs)
    | match ?x with _ => _ end = Some _ => destruct x eqn:?
    | Some _ = Some _ => injection Hs as <- <-
    | None = Some _ => discriminate Hs
    end.
  all: (split; [eexists; split; [|reflexivity]; try done; by case_match|intros j; try done]).
  - intros [= _ Hv0]. match goal with H : entry_at _ _ _ = Some _ |- _ => pose proof (He _ _ _ H) as Hx; simpl in Hx; injection Hx as Hx end. subst.
    eapply Hv; [done|eassumption| |exact Hv0]. by apply Z.eqb_eq.
  - intros [= _ Hv0]. destruct Hk as (_ & _ & Hr & _). by eapply Hp.
  - intros [= _ Hv0]. destruct Hk as (_ & _ & Hr & _). by eapply Hp.
Qed.

Lemma served_run es : forall s tk rg pl s' rs,
  HInv s tk rg pl -> (forall i th, threads s !! i = Some th -> failing (pc th) = false) -> Forall served es ->
  hrun es s = Some (s', rs) -> forall i, Returned i NULL ∉ rs.
Proof.
  induction es as [|e es IH]; intros s tk rg pl s' rs I Hf Hs Hr i; simpl in Hr; [injection Hr as <- <-; by intros ?%elem_of_nil|].
  apply Forall_cons in Hs as [Hse Hs]. destruct (hnext e s) as [[s1 r]|] eqn:En; [|done]. simpl in Hr.
  destruct (hrun es s1) as [[s2 rs2]|] eqn:Er; [|done]. injection Hr as <- <-.
  destruct (hnext_inv _ _ _ _ _ _ _ I En) as (tk1 & rg1 & pl1 & I1 & _).
  assert ((exists j c, failing c = false /\ threads s1 = alter (set_pc c) j (threads s)) /\ forall j, r <> Some (Returned j NULL)) as [(j & c & Hc & Hth) Hn].
  { destruct e as [j|j memory got spurious]; simpl in En.
    - destruct (threads s !! j) as [th|]; [|done]. simpl in En. destruct (pc th); try done. injection En as <- <-. split; [by exists j, HMain|done].
    - destruct (threads s !! j) as [th|] eqn:Et; [|by unfold hstep in En; rewrite Et in En]. destruct Hse as [Hm Hg].
      destruct (served_step _ _ _ _ _ _ _ _ _ _ _ I Et (Hf _ _ Et) Hm Hg En) as [(c & Hc & Hth) Hn]. split; [by exists j, c|done]. }
  intros [Hin|Hin]%elem_of_app.
  - destruct r as [x|]; [|by apply elem_of_nil in Hin]. apply list_elem_of_singleton in Hin as <-. by apply (Hn i).
  - revert Hin. eapply IH; [exact I1| |exact Hs|exact Er]. intros k th Ek. rewrite Hth in Ek.
    destruct (decide (j = k)) as [<-|Hjk]; [|rewrite list_lookup_alter_ne in Ek by done; by eapply Hf].
    rewrite list_lookup_alter_eq in Ek. destruct (threads s !! j); [|done]. by injection Ek as <-.
Qed.

(** As long as memory is not exhausted, every call returns a producer: the
    only failures are those of the allocator. *)
Theorem producer_always ids es s rs :
  NoDup ids -> invalid_thread_id ∉ ids -> Z.of_nat (length ids) < 2 ^ 58 ->
  Forall served es -> hrun es (initial ids) = Some (s, rs) -> forall i, Returned i NULL ∉ rs.
Proof.
  intros Hnd H0 Hfew Hs Hr i. eapply served_run; [by apply HInv_initial| |exact Hs|exact Hr].
  intros j th (id & _ & ->)%replicate_lookup_ids. done.
Qed.

(** ** The end of the queue *)
Lemma destroy_hashes_spec s tk rg pl : HInv s tk rg pl ->
  forall h fuel, (h < length (tables s))%nat -> (h < fuel)%nat -> destroy_hashes fuel h s = Some (rev (seq 1 h)).
Proof.
  intros I h. induction h as [|h IH]; intros [|fuel] Hh Hf; try lia; cbn [destroy_hashes].
  - destruct (lookup_lt_is_Some_2 (tables s) 0) as [t Et]; [done|]. destruct (hi_tables _ _ _ _ I _ _ Et) as (_ & _ & Hp).
    rewrite Et. cbn [mbind option_bind]. by rewrite Hp.
  - destruct (lookup_lt_is_Some_2 (tables s) (S h)) as [t Et]; [done|]. destruct (hi_tables _ _ _ _ I _ _ Et) as ((e & _ & Hc & Hl) & _ & Hp).
    rewrite Et. cbn [mbind option_bind]. rewrite Hp, Hc, Hl, Z.leb_refl, IH by lia. cbn [mbind option_bind].
    by rewrite (seq_S h 1), rev_app_distr.
Qed.

(** When no call is under way, every table but the one in the queue is freed, once. *)
Theorem hashes_destroyed ids es s rs :
  NoDup ids -> invalid_thread_id ∉ ids -> Z.of_nat (length ids) < 2 ^ 58 ->
  hrun es (initial ids) = Some (s, rs) -> (forall th, th ∈ threads s -> pc th = HIdle) ->
  destroy_hashes (length (tables s)) (implicitProducerHash s) s = Some (rev (seq 1 (length (tables s) - 1))).
Proof.
  intros Hnd H0 Hfew Hr Hidle. destruct (hrun_start _ _ _ _ Hnd H0 Hfew Hr) as (tk & rg & pl & I & _).
  assert (length (tables s) = S (implicitProducerHash s)) as Hlen.
  { pose proof (hi_lock _ _ _ _ I) as Hl. unfold lock_inv in Hl. destruct (implicitProducerHashResizeInProgress s); [|by destruct Hl].
    destruct Hl as (i & th & Et & Hc & _). rewrite (Hidle th) in Hc by (by eapply list_elem_of_lookup_2). done. }
  rewrite Hlen. replace (S (implicitProducerHash s) - 1)%nat with (implicitProducerHash s) by lia. apply (destroy_hashes_spec _ _ _ _ I); lia.
Qed.

(** ** Witnesses

    The events of a call of thread [i] that no other thread interrupts. *)
Fixpoint call_events (fuel : nat) (i : nat) (p : ptr) (s : state) : list event :=
  match fuel with
  | O => []
  | S fuel =>
      match hnext (HStep i true (Some p) false) s with
      | Some (s', r) => HStep i true (Some p) false :: match r with None => call_events fuel i p s' | Some _ => [] end
      | None => []
      end
  end.

Fixpoint calls (l : list (nat * ptr)) (s : state) : list event :=
  match l with
  | [] => []
  | (i, p) :: l =>
      let es := match hnext (GetOrAdd i) s with Some (s', _) => GetOrAdd i :: call_events 200 i p s' | None => [] end in
      es ++ match hrun es s with Some (s', _) => calls l s' | None => [] end
  end.

(** Seventeen threads, so that the table grows; the first thread is then found in
    the old table, and after that in the new one.  Two more threads race. *)
Definition example_ids : list Z := map (fun k => 140000000000000 + 4096 * k) (seqZ 0 19).
Definition example_calls : list (nat * ptr) := map (fun k => (Z.to_nat k, 1000 + k)) (seqZ 0 17) ++ [(0%nat, 1); (0%nat, 1)].
Definition race : list event :=
  [GetOrAdd 17; GetOrAdd 18] ++ mjoin (replicate 34 [HStep 17 true (Some 2000) false; HStep 18 true (Some 2001) true]).
Definition example_events : list event := calls example_calls (initial example_ids) ++ race.

Definition after (es : list event) : state * list result := default (initial [], []) (hrun es (initial example_ids)).
Definition check_events (es : list event) (f : state -> list result -> bool) : bool :=
  match hrun es (initial example_ids) with Some (s, rs) => f s rs | None => false end.

Lemma check_events_spec es f : check_events es f = true ->
  hrun es (initial example_ids) = Some (after es) /\ f (after es).1 (after es).2 = true.
Proof. unfold check_events, after. destruct (hrun es _) as [[s rs]|]; [done|done]. Qed.

#[export] Instance result_eq_dec : EqDecision result.
Proof. solve_decision. Defined.

Lemma example_ids_ok : NoDup example_ids /\ invalid_thread_id ∉ example_ids.
Proof. split; [apply (bool_decide_unpack _); by vm_compute|apply (bool_decide_unpack _); by vm_compute]. Qed.

Lemma producer_per_thread_witness :
  exists l, producer_list (after example_events).1 = Some l /\ (1000 : ptr) ∈ l /\ (1016 : ptr) ∈ l /\
    forall q, Returned 0 q ∈ (after example_events).2 -> q <> NULL -> q = 1000.
Proof.
  destruct (check_events_spec example_events (fun _ rs => bool_decide (Returned 0 1000 ∈ rs) && bool_decide (Returned 16 1016 ∈ rs))) as [Hr Hf]; [vm_compute; reflexivity|].
  apply andb_prop in Hf as [H0 H16]. apply bool_decide_eq_true in H0, H16. destruct (after example_events) as [s rs]. cbn [fst snd] in *.
  destruct example_ids_ok as [Hnd Hz].
  destruct (producer_per_thread example_ids example_events s rs Hnd Hz) as (Hsame & _ & l & Hl & _ & Hin); [by vm_compute|exact Hr|].
  exists l. split; [exact Hl|]. split; [apply (Hin _ _ H0); discriminate|]. split; [apply (Hin _ _ H16); discriminate|].
  intros q Hq Hq0. apply (Hsame 0%nat q 1000 Hq H0 Hq0). discriminate.
Defined.

Definition probing : list event := calls example_calls (initial example_ids) ++ [GetOrAdd 17; HStep 17 true None false].

(** What the thread does afterwards: the rest of this call, and others. *)
Definition onwards : list event :=
  let es := call_events 200 17 2000 (after probing).1 in
  es ++ calls (replicate 125 (17%nat, 1)) (default (initial []) (fst <$> hrun es (after probing).1)).

Lemma hash_probes_end_witness :
  leaves 17 onwards (after probing).1 256.
Proof.
  destruct (check_events_spec probing (fun s _ => match threads s !! 17%nat, tables s !! 1%nat with
      | Some th, Some t => bool_decide (probes_in (pc th) = Some 1%nat) && (budget (pc th) t =? 256)
      | _, _ => false end)) as [Hr Hf]; [vm_compute; reflexivity|].
  assert (is_Some (hrun onwards (after probing).1) /\ 256 <= own_steps 17 onwards) as [[[s' rs'] Hon] Hsteps]
    by (split; [apply (bool_decide_unpack _); vm_compute; exact I|vm_compute; discriminate]).
  destruct (after probing) as [s rs]. cbn [fst snd] in *. destruct (threads s !! 17%nat) as [th|] eqn:Et; [|discriminate Hf].
  destruct (tables s !! 1%nat) as [t|] eqn:Ek; [|discriminate Hf]. apply andb_prop in Hf as [Hpc Hb].
  apply bool_decide_eq_true in Hpc. apply Z.eqb_eq in Hb. destruct example_ids_ok as [Hnd Hz].
  destruct (hash_probes_end example_ids probing s rs 17 th Hnd Hz) as [Hp _]; [by vm_compute|exact Hr|exact Et|].
  rewrite <- Hb. apply (Hp 1%nat t onwards s' rs' Hpc Ek Hon). rewrite Hb. exact Hsteps.
Defined.

Definition served_b (e : event) : bool :=
  match e with HStep _ memory got _ => memory && match got with Some _ => true | None => false end | GetOrAdd _ => true end.

Lemma producer_always_witness : Returned 5 NULL ∉ (after example_events).2.
Proof.
  destruct (check_events_spec example_events (fun _ _ => forallb served_b example_events)) as [Hr Hf]; [vm_compute; reflexivity|].
  destruct example_ids_ok as [Hnd Hz]. destruct (after example_events) as [s rs]. cbn [fst snd] in *.
  apply (producer_always example_ids example_events s rs Hnd Hz); [by vm_compute| |exact Hr].
  apply Forall_forall. intros e He. apply list_elem_of_In in He. rewrite forallb_forall in Hf. specialize (Hf e He).
  destruct e as [|i memory [p|] sp]; [exact I|simpl; destruct memory; [by split|discriminate Hf]|destruct memory; discriminate Hf].
Defined.
