(* ===== verification/Queue.v ===== *)
(** * The contract of libmoon's queues

    Rings and pipes promise their clients the same thing: objects come out in
    the order in which they were accepted, none is lost and none is duplicated.
    [SizedQueue] gathers the operations of a queue, [FifoQueue] is the promise,
    and [fifo_conservation] what a client derives from it for a whole run. *)
From S2P Require Import Prelude.

(** A call of the queue's C interface with its arguments. *)
Inductive queue_op :=
| Enqueue (obj : ptr)
| EnqueueBulk (objs : list ptr)
| EnqueueBurst (objs : list ptr)
| Dequeue
| DequeueBulk (n : Z)
| DequeueBurst (n : Z).

(** [sq_step op q] is the C return value, the objects stored through the
    caller's table and the queue after the call; [sq_view] lists the objects
    in the queue, oldest first. *)
Class SizedQueue (Q : Type) := {
  sq_view : Q -> list ptr;
  sq_step : queue_op -> Q -> Z * list ptr * Q
}.

(** Batches fit the C argument types with room to spare. *)
Definition op_ok (op : queue_op) : Prop :=
  match op with
  | EnqueueBulk objs | EnqueueBurst objs => Z.of_nat (length objs) < 2147483648
  | DequeueBulk n | DequeueBurst n => 0 <= n < 2147483648
  | Enqueue _ | Dequeue => True
  end.

(** The objects a caller that sees return value [ret] considers handed over:
    the C interface reports how many of the first objects were taken. *)
Definition accepted (op : queue_op) (ret : Z) : list ptr :=
  match op with
  | Enqueue obj => take (Z.to_nat ret) [obj]
  | EnqueueBulk objs | EnqueueBurst objs => take (Z.to_nat ret) objs
  | _ => []
  end.

(** The promise, for one call: [ok] says which calls it covers, [inv] is the
    well-formedness of the queue that it rests on. *)
Class FifoQueue (Q : Type) `{SizedQueue Q} (ok : queue_op -> Prop) (inv : Q -> Prop) : Prop := {
  fifo_inv : forall op q ret out q',
    ok op -> inv q -> sq_step op q = (ret, out, q') -> inv q';
  fifo_step : forall op q ret out q',
    ok op -> inv q -> sq_step op q = (ret, out, q') ->
    out ++ sq_view q' = sq_view q ++ accepted op ret
}.

(** A sequence of calls: what the callers handed over and what they received. *)
Fixpoint run {Q} `{SizedQueue Q} (ops : list queue_op) (q : Q) : list ptr * list ptr * Q :=
  match ops with
  | [] => ([], [], q)
  | op :: ops' =>
      let '(ret, out, q1) := sq_step op q in
      let '(ins, outs, q2) := run ops' q1 in
      (accepted op ret ++ ins, out ++ outs, q2)
  end.

Section client.
Context {Q : Type} {ok : queue_op -> Prop} {inv : Q -> Prop} `{FifoQueue Q ok inv}.

(** The objects received are a prefix of the objects in the queue before the
    run followed by the objects handed over, and the queue holds the rest. *)
Lemma fifo_conservation ops q ins outs q' :
  Forall ok ops -> inv q -> run ops q = (ins, outs, q') ->
  inv q' /\ outs ++ sq_view q' = sq_view q ++ ins.
Proof.
  revert q ins outs. induction ops as [|op ops IH]; simpl; intros q ins outs Hok Hinv Hrun.
  - simplify_eq/=. by rewrite app_nil_r.
  - destruct (sq_step op q) as [[ret out] q1] eqn:Hstep.
    destruct (run ops q1) as [[ins' outs'] q2] eqn:Hrest. simplify_eq/=.
    apply Forall_cons in Hok as [Hop Hok].
    destruct (IH q1 ins' outs' Hok) as [Hi Hc]; [by eapply fifo_inv|done|].
    split; [done|]. rewrite <- app_assoc, Hc, !app_assoc. f_equal.
    by eapply fifo_step.
Qed.

End client.

(** Decides [Forall op_ok] for a concrete sequence of calls. *)
Ltac ops_ok :=
  repeat (apply Forall_cons; split; [simpl; first [exact I | lia]|]); apply Forall_nil; exact I.
