(* ===== verification/Ring.v ===== *)
(** * [src/ring.c]: the bare DPDK ring *)
From S2P Require Import Prelude RteRing Queue.

Section ring.
Context {R : Type} `{RteRing R}.

(** The file's [ring_cnt] is the first argument and part of the result. *)
Definition create_ring (ring_cnt count socket : Z) : option R * Z :=
  let '(cnt, ring_cnt') := fetch_and_add ring_cnt in
  let ring_name := sprintf_d "mbuf_ring" cnt in
  (rte_ring_create ring_name count socket (Z.lor RING_F_SP_ENQ RING_F_SC_DEQ), ring_cnt').

(** [obj] is the caller's table; the unsigned results are returned as [int]. *)
Definition ring_enqueue (r : R) (obj : list ptr) (n : Z) : Z * R :=
  let '(k, r') := rte_ring_sp_enqueue_bulk r obj (u32 n) in (i32 k, r').

Definition ring_dequeue (r : R) (n : Z) : Z * list ptr * R :=
  let '(k, objs, r') := rte_ring_sc_dequeue_bulk r (u32 n) in (i32 k, objs, r').

Definition ring_count (r : R) : Z := i32 (rte_ring_count r).
Definition ring_free_count (r : R) : Z := i32 (rte_ring_free_count r).
Definition ring_empty (r : R) : bool := rte_ring_empty r =? 1.
Definition ring_full (r : R) : bool := rte_ring_full r =? 1.

End ring.

(** The names given to the rings of a process: the [i]-th call of [create_ring]
    after the counter had the value [c]. *)
Definition ring_name_at (prefix : string) (c i : Z) : string := sprintf_d prefix (u32 (c + i)).

Section facts.
Context {R : Type} `{RteRingLaws R}.

Lemma ring_enqueue_spec_int (r : R) obj n :
  n = Z.of_nat (length obj) -> n < 2147483648 ->
  (ring_enqueue r obj n).1 = bulk_n (ring_free r) n /\
  enqueued r obj (bulk_n (ring_free r) n) (ring_enqueue r obj n).2.
Proof.
  intros Hn Hb. unfold ring_enqueue. rewrite u32_small by word.
  destruct (ring_enqueue_bulk_spec r obj n) as [Hk He]; [lia|].
  destruct (rte_ring_sp_enqueue_bulk r obj n) as [k r']. simpl in *. subst k. split; [|done].
  pose proof (bulk_n_range (ring_free r) n (ring_free_nonneg r)). apply i32_small. word.
Qed.

(** Whatever was enqueued as one batch into an empty ring comes out as that
    batch, in order. *)
Lemma ring_round_trip (r : R) obj n :
  n = Z.of_nat (length obj) -> n < 2147483648 -> ring_view r = [] -> n <= ring_usable r ->
  (ring_dequeue (ring_enqueue r obj n).2 n).1 = (n, obj).
Proof.
  intros Hn Hb Hv Hu. destruct (ring_enqueue_spec_int r obj n Hn Hb) as [_ He].
  assert (ring_len r = 0) as Hl by (unfold ring_len; by rewrite Hv).
  assert (bulk_n (ring_free r) n = n) as Hbulk by (unfold bulk_n, ring_free; case_Z; lia).
  rewrite Hbulk in He. set (r1 := (ring_enqueue r obj n).2) in *.
  assert (ring_len r1 = n) as Hl1 by (rewrite (enqueued_len r obj n r1 ltac:(lia) He); lia).
  unfold ring_dequeue. rewrite u32_small by word.
  destruct (ring_dequeue_bulk_spec r1 n) as [Hk Hd]; [lia|].
  destruct (rte_ring_sc_dequeue_bulk r1 n) as [[k objs] r2]. simpl in *.
  unfold bulk_n in *. rewrite Hl1, Z.leb_refl in *. subst k.
  destruct Hd as (-> & _ & _). destruct He as [-> _]. rewrite Hv. simpl.
  rewrite i32_small by word. f_equal. rewrite take_take. apply take_ge. lia.
Qed.

End facts.

(** The rings that [create_ring] makes have different names: two calls less
    than [2^32] calls apart never collide, and the 32-byte buffer the name is
    printed into is never overrun (terminating NUL included). *)
Lemma ring_names_distinct prefix c i j :
  0 <= i < 4294967296 -> 0 <= j < 4294967296 ->
  ring_name_at prefix c i = ring_name_at prefix c j -> i = j.
Proof.
  intros Hi Hj Hn%sprintf_d_inj. rewrite !u32_u32 in Hn. by eapply counter_distinct.
Qed.

Lemma ring_name_fits prefix c i :
  (String.length prefix <= 20)%nat -> (S (String.length (ring_name_at prefix c i)) <= 32)%nat.
Proof. intros. pose proof (sprintf_d_length prefix (u32 (c + i))). unfold ring_name_at. lia. Qed.
