(* ===== verification/PktSizedRing.v ===== *)
(** * [src/pktsizedring.cpp]: a ring bounded by its number of packets *)
From S2P Require Import Prelude RteRing Queue.

(** [while (count < capacity) count *= 2;] with [fuel] iterations at most;
    [None] when they are not enough. *)
Fixpoint double_until (fuel : nat) (count capacity : Z) : option Z :=
  match fuel with
  | O => None
  | S f => if count <? capacity then double_until f (u32 (count * 2)) capacity else Some count
  end.

Definition PS_RING_SIZE_LIMIT : Z := 268435455.

Definition clamp_capacity (capacity : Z) : Z :=
  if PS_RING_SIZE_LIMIT <? capacity then PS_RING_SIZE_LIMIT else capacity.

(** The ring sizes run through the powers of two up to [2^28]. *)
Definition psring_fuel : nat := 30.

Section psring.
Context {R : Type} `{RteRing R}.

Record ps_ring := mk_ps_ring { psr_ring : R; psr_capacity : Z }.

(** The outer option is the loop's fuel, the inner one the NULL result. *)
Definition create_psring (ring_cnt capacity socket : Z) : option (option ps_ring * Z) :=
  let capacity := clamp_capacity capacity in
  match double_until psring_fuel 1 capacity with
  | None => None
  | Some count =>
      let '(cnt, ring_cnt') := fetch_and_add ring_cnt in
      let ring_name := sprintf_d "mbuf_ps_ring" cnt in
      match rte_ring_create ring_name count socket (Z.lor RING_F_SP_ENQ RING_F_SC_DEQ) with
      | None => Some (None, ring_cnt')
      | Some ring => Some (Some (mk_ps_ring ring capacity), ring_cnt')
      end
  end.

Definition with_ring (psr : ps_ring) (r : R) : ps_ring := mk_ps_ring r (psr_capacity psr).

Definition psring_enqueue_bulk (psr : ps_ring) (obj : list ptr) (n : Z) : Z * ps_ring :=
  if u32 (rte_ring_count (psr_ring psr) + n) <? psr_capacity psr then
    let '(k, r) := rte_ring_sp_enqueue_bulk (psr_ring psr) obj n in (i32 k, with_ring psr r)
  else (0, psr).

Definition psring_enqueue_burst (psr : ps_ring) (obj : list ptr) (n : Z) : Z * ps_ring :=
  let count := u32 (rte_ring_count (psr_ring psr)) in
  if psr_capacity psr <? count then (0, psr)
  else
    let num_to_add :=
      if psr_capacity psr <? u32 (count + n) then u32 (psr_capacity psr - count) else n in
    let '(k, r) := rte_ring_sp_enqueue_burst (psr_ring psr) obj num_to_add in
    (i32 k, with_ring psr r).

Definition psring_enqueue (psr : ps_ring) (obj : ptr) : Z * ps_ring :=
  if u32 (rte_ring_count (psr_ring psr) + 1) <=? psr_capacity psr then
    let '(rc, r) := rte_ring_sp_enqueue (psr_ring psr) obj in
    (c_bool (rc =? 0), with_ring psr r)
  else (0, psr).

Definition psring_dequeue_bulk (psr : ps_ring) (n : Z) : Z * list ptr * ps_ring :=
  let '(k, objs, r) := rte_ring_sc_dequeue_bulk (psr_ring psr) n in
  (i32 k, objs, with_ring psr r).

Definition psring_dequeue_burst (psr : ps_ring) (n : Z) : Z * list ptr * ps_ring :=
  let '(k, objs, r) := rte_ring_sc_dequeue_burst (psr_ring psr) n in
  (i32 k, objs, with_ring psr r).

Definition psring_dequeue (psr : ps_ring) : Z * list ptr * ps_ring :=
  let '(rc, objs, r) := rte_ring_sc_dequeue (psr_ring psr) in
  (c_bool (rc =? 0), objs, with_ring psr r).

Definition psring_count (psr : ps_ring) : Z := i32 (rte_ring_count (psr_ring psr)).
Definition psring_capacity (psr : ps_ring) : Z := i32 (psr_capacity psr).

(** The C interface as a queue. *)
Definition psring_step (op : queue_op) (psr : ps_ring) : Z * list ptr * ps_ring :=
  let no_out (x : Z * ps_ring) := (x.1, [], x.2) in
  match op with
  | Enqueue obj => no_out (psring_enqueue psr obj)
  | EnqueueBulk objs => no_out (psring_enqueue_bulk psr objs (Z.of_nat (length objs)))
  | EnqueueBurst objs => no_out (psring_enqueue_burst psr objs (Z.of_nat (length objs)))
  | Dequeue => psring_dequeue psr
  | DequeueBulk n => psring_dequeue_bulk psr n
  | DequeueBurst n => psring_dequeue_burst psr n
  end.

Definition psring_view (psr : ps_ring) : list ptr := ring_view (psr_ring psr).

(** What [create_psring] establishes and the operations keep. *)
Definition psring_inv (psr : ps_ring) : Prop :=
  0 <= psr_capacity psr <= PS_RING_SIZE_LIMIT /\
  ring_len (psr_ring psr) <= psr_capacity psr.

(** The number of packets the ring really takes: the ring proper has a power of
    two of entries, one of which stays unused. *)
Definition psring_room (psr : ps_ring) : Z :=
  Z.min (psr_capacity psr) (ring_usable (psr_ring psr)).

End psring.

Arguments ps_ring : clear implicits.

#[export] Instance psring_queue {R} `{RteRing R} : SizedQueue (ps_ring R) := {
  sq_view := psring_view;
  sq_step := psring_step
}.

(** ** The size of the ring *)
Lemma double_until_pow2 (fuel : nat) (k capacity : Z) :
  0 <= k <= 28 -> 0 <= capacity <= PS_RING_SIZE_LIMIT ->
  (k = 0 \/ 2 ^ (k - 1) < capacity) -> 28 - k < Z.of_nat fuel ->
  double_until fuel (2 ^ k) capacity = Some (2 ^ Z.max k (Z.log2_up capacity)).
Proof.
  revert k. induction fuel as [|fuel IH]; intros k Hk Hc Hlow Hf; [lia|]. cbn [double_until].
  unfold PS_RING_SIZE_LIMIT in Hc.
  destruct (Z.ltb_spec (2 ^ k) capacity) as [Hlt|Hge].
  - assert (k <> 28) by (intros ->; simpl in Hlt; lia).
    assert (2 ^ k <= 2 ^ 27) by (apply Z.pow_le_mono_r; lia).
    rewrite u32_small by (pose proof (Z.pow_pos_nonneg 2 k); word).
    rewrite Z.mul_comm, <- Z.pow_succ_r by lia.
    rewrite IH; [|lia|unfold PS_RING_SIZE_LIMIT; lia|right; by replace (Z.succ k - 1) with k by lia|lia].
    assert (k < Z.log2_up capacity) by (apply Z.log2_up_lt_pow2; lia).
    do 2 f_equal. lia.
  - do 2 f_equal. enough (Z.log2_up capacity <= k) by lia.
    destruct (Z.le_gt_cases capacity 0) as [?|?].
    + rewrite Z.log2_up_eqn0 by lia. lia.
    + apply Z.log2_up_le_pow2; lia.
Qed.

Lemma clamp_capacity_range capacity :
  is_u32 capacity -> 0 <= clamp_capacity capacity <= PS_RING_SIZE_LIMIT.
Proof. unfold clamp_capacity, PS_RING_SIZE_LIMIT. word. Qed.

(** The loop of [create_psring] ends, on the least power of two that is not
    below the (clamped) capacity. *)
Lemma psring_count_loop capacity : is_u32 capacity ->
  double_until psring_fuel 1 (clamp_capacity capacity) =
    Some (2 ^ Z.log2_up (clamp_capacity capacity)).
Proof.
  intros Hc%clamp_capacity_range. change 1 with (2 ^ 0) at 1.
  rewrite double_until_pow2; [|lia|done|by left|unfold psring_fuel; lia].
  pose proof (Z.log2_up_nonneg (clamp_capacity capacity)). do 2 f_equal. lia.
Qed.

(** ** The operations on a well-formed ring *)
Section facts.
Context {R : Type} `{RteRingLaws R}.
Implicit Types (psr : ps_ring R) (r : R).

Lemma psring_room_free psr :
  psring_room psr - ring_len (psr_ring psr) =
    Z.min (psr_capacity psr - ring_len (psr_ring psr)) (ring_free (psr_ring psr)).
Proof. unfold psring_room, ring_free. lia. Qed.

Definition same_size psr psr' : Prop :=
  psr_capacity psr' = psr_capacity psr /\
  ring_usable (psr_ring psr') = ring_usable (psr_ring psr).

(** Shape of the result of an enqueueing call that hands over the first [k]
    objects of [objs]. *)
Definition enq_result psr objs k (res : Z * ps_ring R) : Prop :=
  res.1 = k /\ psring_view res.2 = psring_view psr ++ take (Z.to_nat k) objs /\
  psring_inv res.2 /\ same_size psr res.2.

Lemma enq_result_ring psr objs k r :
  psring_inv psr -> enqueued (psr_ring psr) objs k r ->
  0 <= k <= Z.of_nat (length objs) -> ring_len (psr_ring psr) + k <= psr_capacity psr ->
  enq_result psr objs k (k, with_ring psr r).
Proof.
  intros Hinv He Hk Hl. pose proof (enqueued_len _ _ _ _ Hk He). destruct He as [Hv Hu].
  unfold enq_result, psring_view, same_size. simpl.
  split; [done|]. split; [done|]. split; [|done]. split; [apply Hinv|simpl; lia].
Qed.

Lemma enq_result_none psr objs : psring_inv psr -> enq_result psr objs 0 (0, psr).
Proof. intros. unfold enq_result. simpl. by rewrite app_nil_r. Qed.

Lemma psring_enqueue_result psr obj : psring_inv psr ->
  enq_result psr [obj] (c_bool (bool_decide (ring_len (psr_ring psr) < psring_room psr)))
    (psring_enqueue psr obj).
Proof.
  intros Hinv. pose proof Hinv as [Hc Hl]. pose proof (ring_len_nonneg (psr_ring psr)).
  unfold PS_RING_SIZE_LIMIT in Hc. pose proof (psring_room_free psr) as Hroom.
  unfold psring_enqueue. rewrite ring_count_spec, u32_small by word.
  destruct (ring_enqueue_spec (psr_ring psr) obj) as [Hrc He].
  destruct (rte_ring_sp_enqueue (psr_ring psr) obj) as [rc r]. simpl in *. subst rc.
  unfold bulk_n in He. destruct (Z.leb_spec (ring_len (psr_ring psr) + 1) (psr_capacity psr)).
  - destruct (Z.leb_spec 1 (ring_free (psr_ring psr))).
    + rewrite bool_decide_eq_true_2 by lia. apply enq_result_ring; simpl; [done..|lia|lia].
    + rewrite bool_decide_eq_false_2 by lia. apply enq_result_ring; simpl; [done..|lia|lia].
  - rewrite bool_decide_eq_false_2 by lia. by apply enq_result_none.
Qed.

(** The number of objects a bulk call takes: all of them when they leave at
    least one unit of the capacity unused and the ring has room, none else. *)
Definition psring_bulk_n psr (n : Z) : Z :=
  if ring_len (psr_ring psr) + n <? psr_capacity psr
  then bulk_n (ring_free (psr_ring psr)) n else 0.

Lemma psring_bulk_n_range psr n :
  psring_inv psr -> 0 <= n -> 0 <= psring_bulk_n psr n <= n /\
  ring_len (psr_ring psr) + psring_bulk_n psr n <= psr_capacity psr.
Proof.
  intros [_ ?] ?. pose proof (bulk_n_range (ring_free (psr_ring psr)) n (ring_free_nonneg _)).
  unfold psring_bulk_n. case_Z; lia.
Qed.

Lemma psring_enqueue_bulk_result psr objs n :
  psring_inv psr -> n = Z.of_nat (length objs) -> n < 2147483648 ->
  enq_result psr objs (psring_bulk_n psr n) (psring_enqueue_bulk psr objs n).
Proof.
  intros Hinv Hn Hb. pose proof Hinv as [Hc Hl]. pose proof (ring_len_nonneg (psr_ring psr)).
  unfold PS_RING_SIZE_LIMIT in Hc. destruct (psring_bulk_n_range psr n Hinv) as [Hr Hf]; [lia|].
  unfold psring_enqueue_bulk. rewrite ring_count_spec, u32_small by word.
  unfold psring_bulk_n in *. case_Z; [|by apply enq_result_none].
  destruct (ring_enqueue_bulk_spec (psr_ring psr) objs n) as [Hk He]; [lia|].
  destruct (rte_ring_sp_enqueue_bulk (psr_ring psr) objs n) as [k r]. simpl in *. subst k.
  rewrite i32_small by word. apply enq_result_ring; [done|done|lia|lia].
Qed.

Lemma psring_enqueue_burst_result psr objs n :
  psring_inv psr -> n = Z.of_nat (length objs) -> n < 2147483648 ->
  enq_result psr objs (Z.min n (psring_room psr - ring_len (psr_ring psr)))
    (psring_enqueue_burst psr objs n).
Proof.
  intros Hinv Hn Hb. pose proof Hinv as [Hc Hl]. pose proof (ring_len_nonneg (psr_ring psr)).
  unfold PS_RING_SIZE_LIMIT in Hc. pose proof (psring_room_free psr) as Hroom.
  pose proof (ring_free_nonneg (psr_ring psr)).
  unfold psring_enqueue_burst. rewrite ring_count_spec, !u32_small by word.
  destruct (Z.ltb_spec (psr_capacity psr) (ring_len (psr_ring psr))); [lia|].
  set (a := if psr_capacity psr <? ring_len (psr_ring psr) + n then _ else n).
  assert (a = Z.min n (psr_capacity psr - ring_len (psr_ring psr))) as -> by (unfold a; case_Z; lia).
  set (m := Z.min n (psr_capacity psr - _)) in *.
  destruct (ring_enqueue_burst_spec (psr_ring psr) objs m) as [Hk He]; [lia|].
  destruct (rte_ring_sp_enqueue_burst (psr_ring psr) objs m) as [k r]. simpl in *. subst k.
  unfold burst_n in *. rewrite i32_small by word.
  replace (Z.min n (psring_room psr - ring_len (psr_ring psr)))
    with (Z.min m (ring_free (psr_ring psr))) by lia.
  apply enq_result_ring; [done|done|lia|lia].
Qed.

(** Shape of the result of a dequeueing call that returns the [k] oldest
    objects. *)
Definition deq_result psr k (res : Z * list ptr * ps_ring R) : Prop :=
  res.1.1 = k /\ Z.of_nat (length res.1.2) = k /\
  res.1.2 ++ psring_view res.2 = psring_view psr /\
  psring_inv res.2 /\ same_size psr res.2.

Lemma deq_result_ring psr k objs r :
  psring_inv psr -> dequeued (psr_ring psr) k objs r -> 0 <= k <= ring_len (psr_ring psr) ->
  deq_result psr k (k, objs, with_ring psr r).
Proof.
  intros Hinv Hd Hk. pose proof (dequeued_len _ _ _ _ Hk Hd).
  pose proof (dequeued_split _ _ _ _ Hd) as Hs. destruct Hd as (Ho & Hv & Hu).
  unfold deq_result, psring_view, same_size. simpl. destruct Hinv as [Hc Hl].
  assert (Z.of_nat (length objs) = k) as Hlen.
  { rewrite Ho, length_take. unfold ring_len in Hk. lia. }
  do 3 (split; [done|]). split; [|done]. split; [done|simpl; lia].
Qed.

Lemma psring_dequeue_result psr : psring_inv psr ->
  deq_result psr (c_bool (bool_decide (0 < ring_len (psr_ring psr)))) (psring_dequeue psr).
Proof.
  intros Hinv. unfold psring_dequeue.
  destruct (ring_dequeue_spec (psr_ring psr)) as [Hrc Hd].
  destruct (rte_ring_sc_dequeue (psr_ring psr)) as [[rc objs] r]. simpl in *. subst rc.
  pose proof (ring_len_nonneg (psr_ring psr)). unfold bulk_n in Hd. case_Z.
  - rewrite bool_decide_eq_true_2 by lia. apply deq_result_ring; simpl; [done..|lia].
  - rewrite bool_decide_eq_false_2 by lia. apply deq_result_ring; simpl; [done..|lia].
Qed.

Lemma psring_dequeue_bulk_result psr n : psring_inv psr -> 0 <= n < 2147483648 ->
  deq_result psr (bulk_n (ring_len (psr_ring psr)) n) (psring_dequeue_bulk psr n).
Proof.
  intros Hinv Hn. unfold psring_dequeue_bulk.
  destruct (ring_dequeue_bulk_spec (psr_ring psr) n) as [Hk Hd]; [lia|].
  destruct (rte_ring_sc_dequeue_bulk (psr_ring psr) n) as [[k objs] r]. simpl in *. subst k.
  pose proof (bulk_n_range (ring_len (psr_ring psr)) n (ring_len_nonneg _)).
  rewrite i32_small by word. apply deq_result_ring; [done|done|lia].
Qed.

Lemma psring_dequeue_burst_result psr n : psring_inv psr -> 0 <= n < 2147483648 ->
  deq_result psr (burst_n (ring_len (psr_ring psr)) n) (psring_dequeue_burst psr n).
Proof.
  intros Hinv Hn. unfold psring_dequeue_burst.
  destruct (ring_dequeue_burst_spec (psr_ring psr) n) as [Hk Hd]; [lia|].
  destruct (rte_ring_sc_dequeue_burst (psr_ring psr) n) as [[k objs] r]. simpl in *. subst k.
  pose proof (burst_n_range (ring_len (psr_ring psr)) n (ring_len_nonneg _)).
  rewrite i32_small by word. apply deq_result_ring; [done|done|lia].
Qed.

(** A ring made for capacity [c]. *)
Definition psring_made (c : Z) psr : Prop :=
  psring_inv psr /\ psr_capacity psr = c /\
  ring_usable (psr_ring psr) = 2 ^ Z.log2_up c - 1.

(** Every call keeps the invariant and moves objects in FIFO order, as many as
    its return value says. *)
Lemma psring_step_result op psr ret out psr' :
  op_ok op -> psring_inv psr -> psring_step op psr = (ret, out, psr') ->
  psring_inv psr' /\ same_size psr psr' /\
  out ++ psring_view psr' = psring_view psr ++ accepted op ret.
Proof.
  intros Hok Hinv Hstep.
  assert ((exists objs k, accepted op k = take (Z.to_nat k) objs /\ out = [] /\
             enq_result psr objs k (ret, psr')) \/
          (exists k, accepted op ret = [] /\ deq_result psr k (ret, out, psr')))
    as [(objs & k & Hacc & -> & Hret & Hv & Hi & Hs)|(k & Hacc & _ & _ & Hv & Hi & Hs)].
  2:{ simpl in Hret, Hv, Hi, Hs. subst k. do 2 (split; [done|]). by rewrite Hacc. }
  2:{ simpl in Hv, Hi, Hs. do 2 (split; [done|]). by rewrite Hacc, app_nil_r. }
  destruct op as [obj|objs|objs| |n|n]; simpl in Hstep, Hok; [left..|right|right|right].
  - simplify_eq. eexists [obj], _. do 2 (split; [done|]).
    rewrite <- surjective_pairing. by apply psring_enqueue_result.
  - simplify_eq. eexists objs, _. do 2 (split; [done|]).
    rewrite <- surjective_pairing. by apply psring_enqueue_bulk_result.
  - simplify_eq. eexists objs, _. do 2 (split; [done|]).
    rewrite <- surjective_pairing. by apply psring_enqueue_burst_result.
  - rewrite <- Hstep. eexists. split; [done|]. by apply psring_dequeue_result.
  - rewrite <- Hstep. eexists. split; [done|]. by apply psring_dequeue_bulk_result.
  - rewrite <- Hstep. eexists. split; [done|]. by apply psring_dequeue_burst_result.
Qed.

#[export] Instance psring_fifo c : FifoQueue (ps_ring R) op_ok (psring_made c).
Proof.
  split; intros op psr ret out psr' Hok (Hinv & Hc & Hu) Hs;
    destruct (psring_step_result op psr ret out psr' Hok Hinv Hs) as (Hi & (Hc' & Hu') & Hv);
    [|done].
  unfold psring_made. rewrite Hc', Hu'. done.
Qed.

Lemma create_psring_result ring_cnt capacity socket psr ring_cnt' :
  is_u32 capacity -> create_psring ring_cnt capacity socket = Some (Some psr, ring_cnt') ->
  psring_made (clamp_capacity capacity) psr /\ psring_view psr = [].
Proof.
  intros Hc. unfold create_psring. rewrite psring_count_loop by done.
  destruct (fetch_and_add ring_cnt) as [cnt cnt'].
  destruct (rte_ring_create _ _ _ _) as [r|] eqn:Hr; [|done]. intros [= <- <-].
  apply ring_create_spec in Hr as (_ & Hv & Hu). pose proof (clamp_capacity_range capacity Hc).
  split; [|done]. split; [|done]. unfold psring_inv, ring_len. simpl. rewrite Hv. simpl. lia.
Qed.

End facts.

(** ** Properties *)
Section properties.
Context {R : Type} `{RteRingLaws R}.

(** C32. A packet-sized ring made by [create_psring] is a bounded FIFO queue:
    after any sequence of calls of its interface it holds at most [capacity]
    packets, and the packets the callers received followed by those still in
    the ring are exactly the packets whose acceptance was reported, in order:
    none is lost, duplicated or reordered. *)
Theorem psring_bounded_fifo ring_cnt capacity socket psr ring_cnt' ops ins outs psr' :
  is_u32 capacity ->
  create_psring ring_cnt capacity socket = Some (Some psr, ring_cnt') ->
  Forall op_ok ops ->
  run ops psr = (ins, outs, psr') ->
  Z.of_nat (length (psring_view psr')) <= clamp_capacity capacity /\
  outs ++ psring_view psr' = ins.
Proof.
  intros Hc Hcreate Hok Hrun.
  destruct (create_psring_result _ _ _ _ _ Hc Hcreate) as [Hmade Hv].
  destruct (fifo_conservation ops psr ins outs psr' Hok Hmade Hrun) as [((_ & Hl) & <- & _) Hcons].
  simpl in Hcons. rewrite Hv in Hcons. by split.
Qed.

(** How full a packet-sized ring gets: in every state reached by calls of
    its interface, a single enqueue is accepted exactly when the ring holds
    fewer than [min capacity (2^ceil(log2 capacity) - 1)] packets, and appends
    its packet in that case; otherwise it changes nothing. *)
Theorem psring_enqueue_accepts ring_cnt capacity socket psr ring_cnt' ops ins outs psr' obj :
  is_u32 capacity ->
  create_psring ring_cnt capacity socket = Some (Some psr, ring_cnt') ->
  Forall op_ok ops ->
  run ops psr = (ins, outs, psr') ->
  let c := clamp_capacity capacity in
  let ok := bool_decide (Z.of_nat (length (psring_view psr')) < Z.min c (2 ^ Z.log2_up c - 1)) in
  (psring_enqueue psr' obj).1 = c_bool ok /\
  psring_view (psring_enqueue psr' obj).2 = psring_view psr' ++ (if ok then [obj] else []).
Proof.
  intros Hc Hcreate Hok Hrun c ok.
  destruct (create_psring_result _ _ _ _ _ Hc Hcreate) as [Hmade _].
  destruct (fifo_conservation ops psr ins outs psr' Hok Hmade Hrun) as [(Hi & Hcap & Hu) _].
  destruct (psring_enqueue_result psr' obj Hi) as (Hret & Hv & _).
  unfold psring_room in Hret, Hv. rewrite Hcap, Hu in Hret, Hv.
  change (ring_len (psr_ring psr')) with (Z.of_nat (length (psring_view psr'))) in *.
  fold c ok in Hret, Hv. split; [done|]. rewrite Hv. by destruct ok.
Qed.

End properties.

(** ** Witnesses *)
Definition ps_ex : ps_ring BoundedRing.t := mk_ps_ring (BoundedRing.mk [] 7) 5.

Lemma psring_bounded_fifo_witness :
  let ops := [EnqueueBurst [11; 12; 13]; DequeueBurst 2; EnqueueBulk [14; 15; 16]; Dequeue;
              Enqueue 17; EnqueueBurst [18; 19; 20]] in
  exists psr', run ops ps_ex = ([11; 12; 13; 14; 15; 16; 17; 18], [11; 12; 13], psr') /\
    Z.of_nat (length (psring_view psr')) <= 5 /\
    [11; 12; 13] ++ psring_view psr' = [11; 12; 13; 14; 15; 16; 17; 18].
Proof.
  intros ops. eexists. split; [vm_compute; reflexivity|].
  apply (psring_bounded_fifo (R := BoundedRing.t) 0 5 0 ps_ex 1 ops).
  - word.
  - vm_compute. reflexivity.
  - ops_ok.
  - vm_compute. reflexivity.
Defined.

(** A ring made for 8 packets takes 7. *)
Lemma psring_enqueue_accepts_witness :
  exists psr psr' : ps_ring BoundedRing.t,
    create_psring 0 8 0 = Some (Some psr, 1) /\
    run [EnqueueBurst [1; 2; 3; 4; 5; 6; 7]] psr = ([1; 2; 3; 4; 5; 6; 7], [], psr') /\
    (psring_enqueue psr' 8).1 = 0 /\ psring_view (psring_enqueue psr' 8).2 = psring_view psr' ++ [].
Proof.
  eexists _, _. split; [vm_compute; reflexivity|]. split; [vm_compute; reflexivity|].
  refine (psring_enqueue_accepts (R := BoundedRing.t) 0 8 0 _ 1
            [EnqueueBurst [1; 2; 3; 4; 5; 6; 7]] [1; 2; 3; 4; 5; 6; 7] [] _ 8 _ _ _ _).
  - word.
  - vm_compute. reflexivity.
  - ops_ok.
  - vm_compute. reflexivity.
Defined.
