(* ===== verification/ByteSizedRing.v ===== *)
(** * [src/bytesizedring.cpp]: a ring bounded by its number of bytes

    [pkt_len] reads the length field of a packet buffer; it stands for the
    memory during the calls, which none of the operations writes. *)
From S2P Require Import Prelude RteRing Queue.

Definition BS_RING_SIZE_LIMIT : Z := 268435455.

(** [while (count < count_min && count <= BS_RING_SIZE_LIMIT) count *= 2;] *)
Fixpoint bs_double_until (fuel : nat) (count count_min : Z) : option Z :=
  match fuel with
  | O => None
  | S f =>
      if (count <? count_min) && (count <=? BS_RING_SIZE_LIMIT)
      then bs_double_until f (i32 (count * 2)) count_min else Some count
  end.

Definition bsring_fuel : nat := 30.

Section bsring.
Context {R : Type} `{RteRing R} (pkt_len : ptr -> Z).

Record bs_ring := mk_bs_ring { bsr_ring : R; bsr_capacity : Z; bytes_used : Z }.

Definition create_bsring (ring_cnt capacity socket : Z) : option (option bs_ring * Z) :=
  let count_min := i32 (capacity / 60) in
  match bs_double_until bsring_fuel 1 count_min with
  | None => None
  | Some count =>
      let '(cnt, ring_cnt') := fetch_and_add ring_cnt in
      let ring_name := sprintf_d "mbuf_bs_ring" cnt in
      match rte_ring_create ring_name count socket (Z.lor RING_F_SP_ENQ RING_F_SC_DEQ) with
      | None => Some (None, ring_cnt')
      | Some ring => Some (Some (mk_bs_ring ring capacity 0), ring_cnt')
      end
  end.

(** [for (i = 0; i < k; i++) acc += obj[i]->pkt_len;] on a [uint32_t]. *)
Definition add_lens (acc : Z) (objs : list ptr) : Z :=
  fold_left (fun acc o => u32 (acc + pkt_len o)) objs acc.

(** [for (i = 0; i < k; i++) bsr->bytes_used -= obj[i]->pkt_len;] *)
Definition sub_lens (acc : Z) (objs : list ptr) : Z :=
  fold_left (fun acc o => u32 (acc - pkt_len o)) objs acc.

Definition bsring_enqueue_bulk (bsr : bs_ring) (obj : list ptr) (n : Z) : Z * bs_ring :=
  let total_size := add_lens 0 (take (Z.to_nat n) obj) in
  if bsr_capacity bsr <? u32 (bytes_used bsr + total_size) then (0, bsr)
  else
    let '(num_added, r) := rte_ring_sp_enqueue_bulk (bsr_ring bsr) obj n in
    let total_size := add_lens 0 (take (Z.to_nat num_added) obj) in
    (i32 num_added,
     mk_bs_ring r (bsr_capacity bsr) (u32 (bytes_used bsr + total_size))).

(** The first loop of the burst: [bytes_remaining] and [num_to_add]. *)
Fixpoint count_fitting (objs : list ptr) (bytes_remaining num_to_add : Z) : Z * Z :=
  match objs with
  | [] => (bytes_remaining, num_to_add)
  | o :: objs' =>
      if 0 <? bytes_remaining
      then count_fitting objs' (i32 (bytes_remaining - pkt_len o)) (u32 (num_to_add + 1))
      else (bytes_remaining, num_to_add)
  end.

(** The number of objects the burst asks the ring to take. *)
Definition burst_request (bsr : bs_ring) (obj : list ptr) (n : Z) : Z :=
  let '(bytes_remaining, num_to_add) :=
    count_fitting (take (Z.to_nat n) obj) (i32 (bsr_capacity bsr - bytes_used bsr)) 0 in
  if bytes_remaining <? 0 then u32 (num_to_add - 1) else num_to_add.

(** The second loop: the objects that did not fit as a prefix, one by one. *)
Fixpoint try_remaining (objs : list ptr) (bytes_remaining num_added bytes_added : Z) (r : R)
  : Z * Z * R :=
  match objs with
  | [] => (num_added, bytes_added, r)
  | o :: objs' =>
      if 60 <=? bytes_remaining then
        if i32 (pkt_len o) <=? bytes_remaining then
          let '(rc, r1) := rte_ring_sp_enqueue r o in
          if c_true rc then
            try_remaining objs' (i32 (bytes_remaining - pkt_len o))
              (u32 (num_added + 1)) (u32 (bytes_added + pkt_len o)) r1
          else try_remaining objs' bytes_remaining num_added bytes_added r1
        else try_remaining objs' bytes_remaining num_added bytes_added r
      else (num_added, bytes_added, r)
  end.

Definition bsring_enqueue_burst (bsr : bs_ring) (obj : list ptr) (n : Z) : Z * bs_ring :=
  let num_to_add := burst_request bsr obj n in
  let '(num_added, r) := rte_ring_sp_enqueue_burst (bsr_ring bsr) obj num_to_add in
  let bytes_added := add_lens 0 (take (Z.to_nat num_added) obj) in
  let '(num_added, bytes_added, r) :=
    if num_added <? n then
      try_remaining (drop (Z.to_nat num_to_add) (take (Z.to_nat n) obj))
        (i32 (bsr_capacity bsr - bytes_used bsr - bytes_added)) num_added bytes_added r
    else (num_added, bytes_added, r) in
  (i32 num_added, mk_bs_ring r (bsr_capacity bsr) (u32 (bytes_used bsr + bytes_added))).

Definition bsring_enqueue (bsr : bs_ring) (obj : ptr) : Z * bs_ring :=
  if u32 (bytes_used bsr + pkt_len obj) <? bsr_capacity bsr then
    let '(rc, r) := rte_ring_sp_enqueue (bsr_ring bsr) obj in
    if rc =? 0 then
      (1, mk_bs_ring r (bsr_capacity bsr) (u32 (bytes_used bsr + pkt_len obj)))
    else (0, mk_bs_ring r (bsr_capacity bsr) (bytes_used bsr))
  else (0, bsr).

Definition bsring_dequeue_burst (bsr : bs_ring) (n : Z) : Z * list ptr * bs_ring :=
  let '(k, objs, r) := rte_ring_sc_dequeue_burst (bsr_ring bsr) n in
  (i32 k, objs,
   mk_bs_ring r (bsr_capacity bsr) (sub_lens (bytes_used bsr) (take (Z.to_nat k) objs))).

Definition bsring_dequeue_bulk (bsr : bs_ring) (n : Z) : Z * list ptr * bs_ring :=
  let '(k, objs, r) := rte_ring_sc_dequeue_bulk (bsr_ring bsr) n in
  (i32 k, objs,
   mk_bs_ring r (bsr_capacity bsr) (sub_lens (bytes_used bsr) (take (Z.to_nat k) objs))).

Definition bsring_dequeue (bsr : bs_ring) : Z * list ptr * bs_ring :=
  let '(rc, objs, r) := rte_ring_sc_dequeue (bsr_ring bsr) in
  if rc =? 0 then
    (1, objs, mk_bs_ring r (bsr_capacity bsr) (sub_lens (bytes_used bsr) (take 1 objs)))
  else (0, objs, mk_bs_ring r (bsr_capacity bsr) (bytes_used bsr)).

Definition bsring_count (bsr : bs_ring) : Z := i32 (rte_ring_count (bsr_ring bsr)).
Definition bsring_capacity (bsr : bs_ring) : Z := i32 (bsr_capacity bsr).
Definition bsring_bytesused (bsr : bs_ring) : Z := i32 (bytes_used bsr).

Definition bsring_step (op : queue_op) (bsr : bs_ring) : Z * list ptr * bs_ring :=
  let no_out (x : Z * bs_ring) := (x.1, [], x.2) in
  match op with
  | Enqueue obj => no_out (bsring_enqueue bsr obj)
  | EnqueueBulk objs => no_out (bsring_enqueue_bulk bsr objs (Z.of_nat (length objs)))
  | EnqueueBurst objs => no_out (bsring_enqueue_burst bsr objs (Z.of_nat (length objs)))
  | Dequeue => bsring_dequeue bsr
  | DequeueBulk n => bsring_dequeue_bulk bsr n
  | DequeueBurst n => bsring_dequeue_burst bsr n
  end.

Definition bsring_view (bsr : bs_ring) : list ptr := ring_view (bsr_ring bsr).

(** The bytes of a list of packets. *)
Definition bytes (objs : list ptr) : Z := zsum (map pkt_len objs).

(** The accounting is exact and within the capacity. *)
Definition bsring_inv (bsr : bs_ring) : Prop :=
  is_u32 (bsr_capacity bsr) /\
  bytes_used bsr = bytes (bsring_view bsr) /\
  bytes_used bsr <= bsr_capacity bsr.

End bsring.

Arguments bs_ring : clear implicits.

(** ** Byte counts *)
Section bytes.
Context (pkt_len : ptr -> Z) (Hlen : forall o, 0 <= pkt_len o).

Lemma bytes_app l k : bytes pkt_len (l ++ k) = bytes pkt_len l + bytes pkt_len k.
Proof. unfold bytes. by rewrite map_app, zsum_app. Qed.

Lemma bytes_nonneg l : 0 <= bytes pkt_len l.
Proof. apply zsum_nonneg, Forall_map, Forall_forall. auto. Qed.

Lemma bytes_take l n : bytes pkt_len (take n l) <= bytes pkt_len l.
Proof. rewrite <- (take_drop n l) at 2. rewrite bytes_app. pose proof (bytes_nonneg (drop n l)). lia. Qed.

Lemma add_lens_spec l acc : u32 (add_lens pkt_len acc l) = u32 (acc + bytes pkt_len l).
Proof.
  revert acc. induction l as [|o l IH]; intros acc.
  - unfold bytes. simpl. by rewrite Z.add_0_r.
  - change (add_lens pkt_len acc (o :: l)) with (add_lens pkt_len (u32 (acc + pkt_len o)) l).
    rewrite IH, u32_add_l. f_equal. unfold bytes. simpl. lia.
Qed.

Lemma add_lens_range l acc : is_u32 acc -> is_u32 (add_lens pkt_len acc l).
Proof. revert acc. induction l as [|o l IH]; intros acc Hacc; [done|]. apply (IH (u32 _)), u32_range. Qed.

Lemma add_lens_exact l : bytes pkt_len l < 4294967296 -> add_lens pkt_len 0 l = bytes pkt_len l.
Proof.
  intros. pose proof (bytes_nonneg l). rewrite <- (u32_small (add_lens _ _ _)).
  - rewrite add_lens_spec. apply u32_small. word.
  - apply add_lens_range. word.
Qed.

Lemma sub_lens_exact l acc :
  is_u32 acc -> bytes pkt_len l <= acc -> sub_lens pkt_len acc l = acc - bytes pkt_len l.
Proof.
  revert acc. induction l as [|o l IH]; intros acc Hacc Hle.
  - unfold bytes. simpl. lia.
  - change (sub_lens pkt_len acc (o :: l)) with (sub_lens pkt_len (u32 (acc - pkt_len o)) l).
    unfold bytes in *. simpl in Hle |- *. pose proof (bytes_nonneg l) as Hn. unfold bytes in Hn.
    pose proof (Hlen o). rewrite u32_small by word. rewrite IH by word. lia.
Qed.

End bytes.

(** ** The accounting operations *)
Section facts.
Context {R : Type} `{RteRingLaws R} (pkt_len : ptr -> Z) (Hlen : forall o, 0 <= pkt_len o).
Implicit Types (bsr : bs_ring R) (r : R).

(** Shape of the result of a call that hands over the first [k] of [objs]. *)
Definition bs_enq_result bsr objs k (res : Z * bs_ring R) : Prop :=
  res.1 = k /\ bsring_view res.2 = bsring_view bsr ++ take (Z.to_nat k) objs /\
  bsring_inv pkt_len res.2 /\ bsr_capacity res.2 = bsr_capacity bsr.

Lemma bs_enq_result_ring bsr objs k r :
  bsring_inv pkt_len bsr -> enqueued (bsr_ring bsr) objs k r ->
  bytes_used bsr + bytes pkt_len (take (Z.to_nat k) objs) <= bsr_capacity bsr ->
  bs_enq_result bsr objs k
    (k, mk_bs_ring r (bsr_capacity bsr) (u32 (bytes_used bsr + bytes pkt_len (take (Z.to_nat k) objs)))).
Proof.
  intros (Hc & Hu & Hle) [Hv _] Hfit. unfold bs_enq_result, bsring_inv, bsring_view in *. simpl.
  pose proof (bytes_nonneg pkt_len Hlen (ring_view (bsr_ring bsr))).
  pose proof (bytes_nonneg pkt_len Hlen (take (Z.to_nat k) objs)).
  rewrite u32_small by word. rewrite Hv, bytes_app, <- Hu. by split_and!.
Qed.

Lemma bs_enq_result_none bsr objs : bsring_inv pkt_len bsr -> bs_enq_result bsr objs 0 (0, bsr).
Proof. intros. unfold bs_enq_result. simpl. by rewrite app_nil_r. Qed.

Lemma bs_used_range bsr : bsring_inv pkt_len bsr -> 0 <= bytes_used bsr <= bsr_capacity bsr /\ bsr_capacity bsr < 4294967296.
Proof.
  intros (Hc & Hu & Hle). pose proof (bytes_nonneg pkt_len Hlen (bsring_view bsr)). word.
Qed.

(** A packet is taken when it leaves at least one byte of the capacity unused
    and the ring has an entry. *)
Lemma bsring_enqueue_result bsr obj :
  bsring_inv pkt_len bsr -> bsr_capacity bsr + pkt_len obj < 4294967296 ->
  bs_enq_result bsr [obj]
    (c_bool (bool_decide (bytes_used bsr + pkt_len obj < bsr_capacity bsr /\ 1 <= ring_free (bsr_ring bsr))))
    (bsring_enqueue pkt_len bsr obj).
Proof.
  intros Hinv Hcap. pose proof (bs_used_range bsr Hinv). pose proof (Hlen obj).
  unfold bsring_enqueue. rewrite u32_small by word. destruct (Z.ltb_spec (bytes_used bsr + pkt_len obj) (bsr_capacity bsr)).
  2:{ rewrite bool_decide_eq_false_2 by lia. by apply bs_enq_result_none. }
  destruct (ring_enqueue_spec (bsr_ring bsr) obj) as [Hrc He].
  destruct (rte_ring_sp_enqueue (bsr_ring bsr) obj) as [rc r]. simpl in *. subst rc.
  unfold bulk_n in He. destruct (Z.leb_spec 1 (ring_free (bsr_ring bsr))); simpl.
  - rewrite bool_decide_eq_true_2 by lia.
    pose proof (bs_enq_result_ring bsr [obj] 1 r Hinv He) as Hres.
    unfold bytes in Hres. simpl in Hres. rewrite Z.add_0_r, u32_small in Hres by word.
    apply Hres. lia.
  - rewrite bool_decide_eq_false_2 by lia.
    pose proof (bs_enq_result_ring bsr [obj] 0 r Hinv He) as Hres.
    unfold bytes in Hres. simpl in Hres. rewrite Z.add_0_r, u32_small in Hres by word.
    apply Hres. lia.
Qed.

(** A batch is taken as a whole when its bytes and its packets fit. *)
Lemma bsring_enqueue_bulk_result bsr objs n :
  bsring_inv pkt_len bsr -> n = Z.of_nat (length objs) -> n < 2147483648 ->
  bsr_capacity bsr + bytes pkt_len objs < 4294967296 ->
  bs_enq_result bsr objs
    (if bool_decide (bytes_used bsr + bytes pkt_len objs <= bsr_capacity bsr)
     then bulk_n (ring_free (bsr_ring bsr)) n else 0)
    (bsring_enqueue_bulk pkt_len bsr objs n).
Proof.
  intros Hinv Hn Hb Hcap. pose proof (bs_used_range bsr Hinv).
  pose proof (bytes_nonneg pkt_len Hlen objs).
  unfold bsring_enqueue_bulk. rewrite (take_ge objs) by lia.
  rewrite add_lens_exact, u32_small by (done || word).
  destruct (Z.ltb_spec (bsr_capacity bsr) (bytes_used bsr + bytes pkt_len objs)).
  { rewrite bool_decide_eq_false_2 by lia. by apply bs_enq_result_none. }
  rewrite bool_decide_eq_true_2 by lia.
  destruct (ring_enqueue_bulk_spec (bsr_ring bsr) objs n) as [Hk He]; [lia|].
  destruct (rte_ring_sp_enqueue_bulk (bsr_ring bsr) objs n) as [k r]. simpl in Hk, He. subst k.
  pose proof (bulk_n_range (ring_free (bsr_ring bsr)) n (ring_free_nonneg _)).
  set (k := bulk_n _ n) in *. pose proof (bytes_take pkt_len Hlen objs (Z.to_nat k)).
  rewrite i32_small, add_lens_exact by (done || word).
  apply bs_enq_result_ring; [done..|lia].
Qed.

Definition bs_deq_result bsr k (res : Z * list ptr * bs_ring R) : Prop :=
  res.1.1 = k /\ Z.of_nat (length res.1.2) = k /\
  res.1.2 ++ bsring_view res.2 = bsring_view bsr /\
  bsring_inv pkt_len res.2 /\ bsr_capacity res.2 = bsr_capacity bsr.

Lemma bs_deq_result_ring bsr k objs r :
  bsring_inv pkt_len bsr -> dequeued (bsr_ring bsr) k objs r -> 0 <= k <= ring_len (bsr_ring bsr) ->
  bs_deq_result bsr k
    (k, objs, mk_bs_ring r (bsr_capacity bsr) (sub_lens pkt_len (bytes_used bsr) (take (Z.to_nat k) objs))).
Proof.
  intros Hinv Hd Hk. pose proof (bs_used_range bsr Hinv). pose proof Hinv as (Hc & Hu & Hle).
  pose proof (dequeued_split _ _ _ _ Hd) as Hs. unfold bsring_view in Hu. rewrite Hs, bytes_app in Hu.
  assert (Z.of_nat (length objs) = k) as Hl.
  { destruct Hd as (-> & _). rewrite length_take. unfold ring_len in Hk. lia. }
  pose proof (bytes_nonneg pkt_len Hlen objs). pose proof (bytes_nonneg pkt_len Hlen (ring_view r)).
  rewrite take_ge by lia. rewrite sub_lens_exact by (done || word).
  unfold bs_deq_result, bsring_inv, bsring_view. simpl.
  do 3 (split; [done|]). split; [|done]. split; [done|]. split; lia.
Qed.

Lemma bsring_dequeue_result bsr : bsring_inv pkt_len bsr ->
  bs_deq_result bsr (c_bool (bool_decide (0 < ring_len (bsr_ring bsr)))) (bsring_dequeue pkt_len bsr).
Proof.
  intros Hinv. unfold bsring_dequeue. destruct (ring_dequeue_spec (bsr_ring bsr)) as [Hrc Hd].
  destruct (rte_ring_sc_dequeue (bsr_ring bsr)) as [[rc objs] r]. simpl in Hrc, Hd. subst rc.
  pose proof (ring_len_nonneg (bsr_ring bsr)). unfold bulk_n in Hd. case_Z; simpl.
  - rewrite bool_decide_eq_true_2 by lia. apply bs_deq_result_ring; [done..|simpl; lia].
  - rewrite bool_decide_eq_false_2 by lia.
    apply (bs_deq_result_ring bsr 0 objs r); [done..|simpl; lia].
Qed.

Lemma bsring_dequeue_bulk_result bsr n : bsring_inv pkt_len bsr -> 0 <= n < 2147483648 ->
  bs_deq_result bsr (bulk_n (ring_len (bsr_ring bsr)) n) (bsring_dequeue_bulk pkt_len bsr n).
Proof.
  intros Hinv Hn. unfold bsring_dequeue_bulk.
  destruct (ring_dequeue_bulk_spec (bsr_ring bsr) n) as [Hk Hd]; [lia|].
  destruct (rte_ring_sc_dequeue_bulk (bsr_ring bsr) n) as [[k objs] r]. simpl in Hk, Hd. subst k.
  pose proof (bulk_n_range (ring_len (bsr_ring bsr)) n (ring_len_nonneg _)).
  rewrite i32_small by word. apply bs_deq_result_ring; [done|done|lia].
Qed.

Lemma bsring_dequeue_burst_result bsr n : bsring_inv pkt_len bsr -> 0 <= n < 2147483648 ->
  bs_deq_result bsr (burst_n (ring_len (bsr_ring bsr)) n) (bsring_dequeue_burst pkt_len bsr n).
Proof.
  intros Hinv Hn. unfold bsring_dequeue_burst.
  destruct (ring_dequeue_burst_spec (bsr_ring bsr) n) as [Hk Hd]; [lia|].
  destruct (rte_ring_sc_dequeue_burst (bsr_ring bsr) n) as [[k objs] r]. simpl in Hk, Hd. subst k.
  pose proof (burst_n_range (ring_len (bsr_ring bsr)) n (ring_len_nonneg _)).
  rewrite i32_small by word. apply bs_deq_result_ring; [done|done|lia].
Qed.

(** The calls whose accounting is exact: batches small enough that no byte
    count wraps around, and no burst. *)
Definition bs_op_ok (capacity : Z) (op : queue_op) : Prop :=
  op_ok op /\
  match op with
  | Enqueue obj => capacity + pkt_len obj < 4294967296
  | EnqueueBulk objs => capacity + bytes pkt_len objs < 4294967296
  | EnqueueBurst _ => False
  | _ => True
  end.

Definition bsring_made (c : Z) bsr : Prop := bsring_inv pkt_len bsr /\ bsr_capacity bsr = c.

Lemma bsring_step_result c op bsr ret out bsr' :
  bs_op_ok c op -> bsring_made c bsr -> bsring_step pkt_len op bsr = (ret, out, bsr') ->
  bsring_made c bsr' /\ out ++ bsring_view bsr' = bsring_view bsr ++ accepted op ret.
Proof.
  intros [Hok Hb] [Hinv <-] Hstep.
  assert ((exists objs k, accepted op k = take (Z.to_nat k) objs /\ out = [] /\
             bs_enq_result bsr objs k (ret, bsr')) \/
          (exists k, accepted op ret = [] /\ bs_deq_result bsr k (ret, out, bsr')))
    as [(objs & k & Hacc & -> & Hret & Hv & Hi & Hs)|(k & Hacc & _ & _ & Hv & Hi & Hs)].
  2:{ simpl in Hret, Hv, Hi, Hs. subst k. split; [done|]. by rewrite Hacc. }
  2:{ simpl in Hv, Hi, Hs. split; [done|]. by rewrite Hacc, app_nil_r. }
  destruct op as [obj|objs|objs| |n|n]; simpl in Hstep, Hok, Hb; [left..|right|right|right].
  - simplify_eq. eexists [obj], _. do 2 (split; [done|]).
    rewrite <- surjective_pairing. by apply bsring_enqueue_result.
  - simplify_eq. eexists objs, _. do 2 (split; [done|]).
    rewrite <- surjective_pairing. by apply bsring_enqueue_bulk_result.
  - done.
  - rewrite <- Hstep. eexists. split; [done|]. by apply bsring_dequeue_result.
  - rewrite <- Hstep. eexists. split; [done|]. by apply bsring_dequeue_bulk_result.
  - rewrite <- Hstep. eexists. split; [done|]. by apply bsring_dequeue_burst_result.
Qed.

End facts.

(** ** The burst *)
Section burst.
Context {R : Type} `{RteRingLaws R} (pkt_len : ptr -> Z).
Hypothesis Hlen : forall o, 0 <= pkt_len o < 2147483648.
Implicit Types (bsr : bs_ring R) (r : R).

Lemma Hlen0 o : 0 <= pkt_len o.
Proof using Hlen. apply Hlen. Qed.

(** The length of the longest prefix whose bytes fit in [rem]; it stops early
    when nothing remains. *)
Fixpoint fit (rem : Z) (objs : list ptr) : Z :=
  match objs with
  | [] => 0
  | o :: objs' =>
      if (0 <? rem) && (pkt_len o <=? rem) then 1 + fit (rem - pkt_len o) objs' else 0
  end.

Lemma fit_range rem objs : 0 <= fit rem objs <= Z.of_nat (length objs).
Proof. revert rem. induction objs as [|o l IH]; intros rem; simpl; [lia|]. case_match; [|lia]. specialize (IH (rem - pkt_len o)). lia. Qed.

Lemma fit_bytes rem objs : 0 <= rem ->
  bytes pkt_len (take (Z.to_nat (fit rem objs)) objs) <= rem.
Proof.
  revert rem. induction objs as [|o l IH]; intros rem Hrem; simpl; [done|].
  destruct (Z.ltb_spec 0 rem); simpl; [|done]. destruct (Z.leb_spec (pkt_len o) rem); [|done].
  pose proof (fit_range (rem - pkt_len o) l). rewrite Z2Nat.inj_add by lia. simpl.
  specialize (IH (rem - pkt_len o)). unfold bytes in *. simpl. lia.
Qed.

(** The first loop computes [fit], one more when it overshoots. *)
Lemma count_fitting_spec objs rem k :
  0 <= rem < 2147483648 -> 0 <= k -> k + Z.of_nat (length objs) < 4294967296 ->
  let '(rem', k') := count_fitting pkt_len objs rem k in
  (if rem' <? 0 then k' - 1 else k') = k + fit rem objs /\ k <= k' < 4294967296 /\ (rem' < 0 -> k < k').
Proof.
  revert rem k. induction objs as [|o l IH]; intros rem k Hrem Hk Hb; cbn [count_fitting fit length] in *.
  { case_Z; lia. }
  pose proof (Hlen o). destruct (Z.ltb_spec 0 rem); simpl; [|case_Z; lia].
  rewrite i32_small, u32_small by word. destruct (Z.leb_spec (pkt_len o) rem).
  - specialize (IH (rem - pkt_len o) (k + 1)).
    destruct (count_fitting pkt_len l (rem - pkt_len o) (k + 1)) as [rem' k'].
    destruct IH as (-> & ? & ?); lia.
  - destruct l as [|o' l]; cbn [count_fitting length] in *; repeat case_Z; lia.
Qed.

Lemma burst_request_spec bsr objs n :
  n = Z.of_nat (length objs) -> n < 2147483648 ->
  0 <= bytes_used bsr <= bsr_capacity bsr -> bsr_capacity bsr - bytes_used bsr < 2147483648 ->
  burst_request pkt_len bsr objs n = fit (bsr_capacity bsr - bytes_used bsr) objs.
Proof.
  intros Hn Hb Hu Hr. unfold burst_request. rewrite take_ge, i32_small by (lia || word).
  pose proof (count_fitting_spec objs (bsr_capacity bsr - bytes_used bsr) 0) as Hcf.
  destruct (count_fitting pkt_len objs _ 0) as [rem' k']. destruct Hcf as (Hf & ? & ?); [lia..|].
  case_Z; [rewrite u32_small by word|]; lia.
Qed.

(** The packets the second loop puts into the ring when the ring has room for
    all of them: those not longer than [rem], which stays what it was. *)
Definition small_enough (rem : Z) (objs : list ptr) : list ptr :=
  if 60 <=? rem then filter (fun o => pkt_len o <= rem) objs else [].

(** With free entries left, the second loop enqueues packets and counts none of
    them. *)
Lemma try_remaining_room objs rem na ba r :
  Z.of_nat (length objs) <= ring_free r ->
  let '(na', ba', r') := try_remaining pkt_len objs rem na ba r in
  na' = na /\ ba' = ba /\ ring_view r' = ring_view r ++ small_enough rem objs.
Proof.
  revert r. induction objs as [|o l IH]; intros r Hroom; cbn [try_remaining length] in *.
  { unfold small_enough. rewrite filter_nil. destruct (60 <=? rem); by rewrite app_nil_r. }
  pose proof (Hlen o). unfold small_enough in *. rewrite filter_cons.
  destruct (Z.leb_spec 60 rem); [|by rewrite app_nil_r].
  rewrite i32_small by word. destruct (Z.leb_spec (pkt_len o) rem).
  - rewrite decide_True by done. destruct (ring_enqueue_spec r o) as [Hrc He].
    destruct (rte_ring_sp_enqueue r o) as [rc r1]. simpl in Hrc, He.
    unfold bulk_n in He. destruct (Z.leb_spec 1 (ring_free r)); [|lia]. subst rc. simpl.
    pose proof (enqueued_len r [o] 1 r1 ltac:(simpl; lia) He) as Hl. destruct He as [Hv Hu].
    specialize (IH r1 ltac:(unfold ring_free in *; lia)).
    destruct (try_remaining pkt_len l rem na ba r1) as [[na' ba'] r'].
    destruct IH as (-> & -> & ->). rewrite Hv. simpl. by rewrite <- app_assoc.
  - rewrite decide_False by lia. specialize (IH r ltac:(lia)).
    by destruct (try_remaining pkt_len l rem na ba r) as [[na' ba'] r'].
Qed.

(** The burst on a well-formed ring with an entry for every packet. *)
Lemma bsring_enqueue_burst_result bsr objs n :
  bsring_inv pkt_len bsr -> n = Z.of_nat (length objs) -> n < 2147483648 ->
  n <= ring_free (bsr_ring bsr) -> bsr_capacity bsr < 2147483648 ->
  let k := fit (bsr_capacity bsr - bytes_used bsr) objs in
  let fitted := take (Z.to_nat k) objs in
  let rest := if k <? n
    then small_enough (bsr_capacity bsr - bytes_used bsr - bytes pkt_len fitted)
           (drop (Z.to_nat k) objs)
    else [] in
  (bsring_enqueue_burst pkt_len bsr objs n).1 = k /\
  bsring_view (bsring_enqueue_burst pkt_len bsr objs n).2 = bsring_view bsr ++ fitted ++ rest /\
  bytes_used (bsring_enqueue_burst pkt_len bsr objs n).2 = bytes_used bsr + bytes pkt_len fitted.
Proof using All.
  intros Hinv Hn Hb Hroom Hcap k fitted rest.
  pose proof (bs_used_range pkt_len Hlen0 bsr Hinv) as Hu.
  pose proof (fit_range (bsr_capacity bsr - bytes_used bsr) objs) as Hk.
  pose proof (fit_bytes (bsr_capacity bsr - bytes_used bsr) objs ltac:(lia)) as Hfit.
  pose proof (bytes_nonneg pkt_len Hlen0 fitted) as Hf0. fold k in Hk, Hfit. fold fitted in Hfit.
  unfold bsring_enqueue_burst. rewrite burst_request_spec by (done || lia). fold k.
  destruct (ring_enqueue_burst_spec (bsr_ring bsr) objs k) as [Hna He]; [lia|].
  destruct (rte_ring_sp_enqueue_burst (bsr_ring bsr) objs k) as [na r]. simpl in Hna, He.
  unfold burst_n in Hna, He. rewrite Z.min_l in Hna, He by lia. subst na.
  pose proof (enqueued_len (bsr_ring bsr) objs k r ltac:(lia) He) as Hl.
  destruct He as [Hv Hus].
  fold fitted in Hv |- *. rewrite add_lens_exact by (apply Hlen0 || lia).
  rewrite (take_ge objs) by lia. rewrite (i32_small (_ - _ - _)) by word.
  unfold rest. destruct (Z.ltb_spec k n); simpl.
  - pose proof (try_remaining_room (drop (Z.to_nat k) objs)
      (bsr_capacity bsr - bytes_used bsr - bytes pkt_len fitted) k (bytes pkt_len fitted) r) as Htr.
    destruct (try_remaining _ _ _ _ _ _) as [[na' ba'] r']. destruct Htr as (-> & -> & Hv').
    { rewrite length_drop. unfold ring_free in *. lia. }
    simpl. unfold bsring_view in *. simpl. rewrite Hv', Hv, app_assoc.
    rewrite i32_small, u32_small by word. done.
  - unfold bsring_view. simpl. rewrite Hv, app_nil_r, i32_small, u32_small by word. done.
Qed.

End burst.

Lemma bs_double_until_ends (fuel : nat) (k count_min : Z) :
  0 <= k <= 27 -> count_min <= 2 ^ 27 -> 27 - k < Z.of_nat fuel ->
  exists j, k <= j <= 27 /\ bs_double_until fuel (2 ^ k) count_min = Some (2 ^ j) /\
    count_min <= 2 ^ j /\ (j = k \/ 2 ^ (j - 1) < count_min).
Proof.
  revert k. induction fuel as [|fuel IH]; intros k Hk Hc Hf; [lia|]. cbn [bs_double_until].
  assert (2 ^ k <= 2 ^ 27) by (apply Z.pow_le_mono_r; lia).
  pose proof (Z.pow_pos_nonneg 2 k).
  unfold BS_RING_SIZE_LIMIT. destruct (Z.ltb_spec (2 ^ k) count_min) as [Hlt|Hge]; simpl andb.
  - assert (k <> 27) by (intros ->; lia).
    rewrite (proj2 (Z.leb_le (2 ^ k) 268435455)) by lia. simpl.
    rewrite i32_small by word. rewrite Z.mul_comm, <- Z.pow_succ_r by lia.
    destruct (IH (Z.succ k)) as (j & Hj & -> & Hm & Hlow); [lia..|].
    exists j. split; [lia|]. split; [done|]. split; [done|]. right.
    destruct Hlow as [->|?]; [by replace (Z.succ k - 1) with k by lia|done].
  - exists k. split; [lia|]. split; [done|]. split; [done|]. by left.
Qed.

Section created.
Context {R : Type} `{RteRingLaws R} (pkt_len : ptr -> Z).

(** The loop of [create_bsring] ends whatever the capacity, and a ring that is
    made is empty. *)
Lemma create_bsring_total ring_cnt capacity socket :
  is_u32 capacity -> is_Some (create_bsring (R := R) ring_cnt capacity socket).
Proof.
  intros Hc. unfold create_bsring. rewrite i32_small by word. unfold bsring_fuel.
  change 1 with (2 ^ 0). destruct (bs_double_until_ends 30 0 (capacity / 60)) as (j & _ & -> & _); [lia|word|lia|].
  destruct (fetch_and_add ring_cnt). by case_match.
Qed.

Lemma create_bsring_result ring_cnt capacity socket (bsr : bs_ring R) ring_cnt' :
  is_u32 capacity -> create_bsring ring_cnt capacity socket = Some (Some bsr, ring_cnt') ->
  bsring_made pkt_len capacity bsr /\ bsring_view bsr = [].
Proof.
  intros Hc. unfold create_bsring.
  destruct (bs_double_until _ _ _) as [count|]; [|done]. destruct (fetch_and_add ring_cnt).
  destruct (rte_ring_create _ _ _ _) as [r|] eqn:Hr; [|done]. intros [= <- <-].
  apply ring_create_spec in Hr as (_ & Hv & _). unfold bsring_made, bsring_inv, bsring_view. simpl.
  rewrite Hv. unfold bytes. simpl. split_and!; word || done.
Qed.

(** The ring as a queue; the packet lengths are part of the instance. *)
Definition bsring_queue : SizedQueue (bs_ring R) := {|
  sq_view := bsring_view;
  sq_step := bsring_step pkt_len
|}.

Lemma bsring_fifo (Hlen : forall o, 0 <= pkt_len o) c :
  FifoQueue (H := bsring_queue) (bs_ring R) (bs_op_ok pkt_len c) (bsring_made pkt_len c).
Proof.
  split; intros op q ret out q' Hok Hinv Hs;
    by destruct (bsring_step_result pkt_len Hlen c op q ret out q' Hok Hinv Hs).
Qed.

End created.

(** ** Properties *)
Section properties.
Context {R : Type} `{RteRingLaws R} (pkt_len : ptr -> Z).

(** C35. Byte accounting: after any sequence of single and bulk enqueues and of
    dequeues on a ring made by [create_bsring], [bytes_used] is exactly the
    sum of the lengths of the packets in the ring, it does not exceed the
    capacity, and the packets went through the ring in FIFO order without loss
    or duplication. *)
Theorem bsring_accounting (Hlen : forall o, 0 <= pkt_len o)
    ring_cnt capacity socket (bsr : bs_ring R) ring_cnt' ops ins outs bsr' :
  is_u32 capacity ->
  create_bsring ring_cnt capacity socket = Some (Some bsr, ring_cnt') ->
  Forall (bs_op_ok pkt_len capacity) ops ->
  run (H := bsring_queue pkt_len) ops bsr = (ins, outs, bsr') ->
  bytes_used bsr' = zsum (map pkt_len (bsring_view bsr')) /\
  bytes_used bsr' <= capacity /\
  outs ++ bsring_view bsr' = ins.
Proof.
  intros Hc Hcreate Hok Hrun.
  destruct (create_bsring_result pkt_len _ _ _ _ _ Hc Hcreate) as [Hmade Hv].
  pose proof (bsring_fifo pkt_len Hlen capacity).
  destruct (fifo_conservation ops bsr ins outs bsr' Hok Hmade Hrun) as [((_ & Hu & Hle) & <-) Hcons].
  simpl in Hcons. rewrite Hv in Hcons. done.
Qed.

(** The burst on a ring with consistent accounting and a free entry for
    every packet: the longest prefix that fits is taken, reported and
    accounted for; then every remaining packet that is not longer than the
    space left is put into the ring too, but is neither reported nor accounted
    for, so the accounting falls short by exactly its bytes. *)
Theorem bsring_burst_spec (Hlen : forall o, 0 <= pkt_len o < 2147483648) (bsr : bs_ring R) objs n :
  bsring_inv pkt_len bsr ->
  n = Z.of_nat (length objs) -> n < 2147483648 ->
  n <= ring_free (bsr_ring bsr) -> bsr_capacity bsr < 2147483648 ->
  let k := fit pkt_len (bsr_capacity bsr - bytes_used bsr) objs in
  let fitted := take (Z.to_nat k) objs in
  let left := bsr_capacity bsr - bytes_used bsr - bytes pkt_len fitted in
  let unreported := if k <? n then small_enough pkt_len left (drop (Z.to_nat k) objs) else [] in
  let res := bsring_enqueue_burst pkt_len bsr objs n in
  res.1 = k /\
  bsring_view res.2 = bsring_view bsr ++ fitted ++ unreported /\
  bytes_used res.2 = bytes pkt_len (bsring_view res.2) - bytes pkt_len unreported.
Proof.
  intros Hinv Hn Hb Hroom Hcap k fitted left unreported res.
  destruct (bsring_enqueue_burst_result pkt_len Hlen bsr objs n) as (H1 & H2 & H3); [done..|].
  fold k fitted left unreported res in H1, H2, H3. split; [done|]. split; [done|].
  rewrite H3, H2, !bytes_app. destruct Hinv as (_ & -> & _). lia.
Qed.

(** A ring whose unused capacity is [2^31] bytes or more breaks the burst:
    the byte budget turns negative as an [int], and the burst asks the ring to
    take 4294967295 packets, whatever the size of the batch. *)
Theorem bsring_burst_request_overflow (bsr : bs_ring R) objs n :
  2147483648 <= bsr_capacity bsr - bytes_used bsr < 4294967296 ->
  burst_request pkt_len bsr objs n = 4294967295.
Proof.
  intros Hc. unfold burst_request.
  set (rem := i32 (bsr_capacity bsr - bytes_used bsr)).
  assert (rem < 0) as Hrem by (unfold rem; word).
  assert (count_fitting pkt_len (take (Z.to_nat n) objs) rem 0 = (rem, 0)) as ->.
  { destruct (take (Z.to_nat n) objs); simpl; [done|]. case_Z; [lia|done]. }
  case_Z; [done|lia].
Qed.

End properties.

(** ** Witnesses *)

(** The packet at address [a] is [a mod 1500] bytes long. *)
Definition len_ex (a : ptr) : Z := a mod 1500.

Lemma len_ex_nonneg a : 0 <= len_ex a.
Proof. unfold len_ex. dlia. Qed.

Lemma len_ex_range a : 0 <= len_ex a < 2147483648.
Proof. unfold len_ex. dlia. Qed.

Definition bs_ex : bs_ring BoundedRing.t := mk_bs_ring (BoundedRing.mk [] 15) 1000 0.

Lemma bsring_accounting_witness :
  let ops := [Enqueue 400; EnqueueBulk [100; 200]; EnqueueBulk [100; 201]; Enqueue 300;
              DequeueBurst 2; EnqueueBulk [64; 64]; Dequeue] in
  exists bsr', run (H := bsring_queue len_ex) ops bs_ex =
      ([400; 100; 200; 64; 64], [400; 100; 200], bsr') /\
    bytes_used bsr' = zsum (map len_ex (bsring_view bsr')) /\
    bytes_used bsr' <= 1000 /\
    [400; 100; 200] ++ bsring_view bsr' = [400; 100; 200; 64; 64].
Proof.
  intros ops. eexists. split; [vm_compute; reflexivity|].
  apply (bsring_accounting (R := BoundedRing.t) len_ex len_ex_nonneg 0 1000 0 bs_ex 1 ops).
  - word.
  - vm_compute. reflexivity.
  - unfold ops, bs_op_ok, bytes. repeat (apply Forall_cons; split); try apply Forall_nil; simpl; repeat split; try lia; vm_compute; done.
  - vm_compute. reflexivity.
Defined.

(** Batch of 400, 700, 100 and 200 bytes for 600 free bytes: 400 is reported, 100 and
    200 are enqueued as well although only 200 bytes are left. *)
Lemma bsring_burst_spec_witness :
  let bsr := mk_bs_ring (BoundedRing.mk [400] 15) 1000 400 in
  let res := bsring_enqueue_burst len_ex bsr [400; 700; 100; 200] 4 in
  res.1 = 1 /\ bsring_view res.2 = [400] ++ [400] ++ [100; 200] /\
  bytes_used res.2 = bytes len_ex (bsring_view res.2) - 300.
Proof.
  refine (bsring_burst_spec (R := BoundedRing.t) len_ex len_ex_range
            (mk_bs_ring (BoundedRing.mk [400] 15) 1000 400) [400; 700; 100; 200] 4 _ _ _ _ _).
  - unfold bsring_inv. simpl. repeat split; lia.
  - done.
  - lia.
  - vm_compute. done.
  - simpl. lia.
Defined.

Lemma bsring_burst_request_overflow_witness :
  burst_request len_ex (mk_bs_ring (BoundedRing.mk [] 15) 3000000000 0) [64] 1 = 4294967295.
Proof. apply (bsring_burst_request_overflow (R := BoundedRing.t)). simpl. lia. Defined.
